(* ===== verification/_CoqProject ===== *)
-Q . S2P
Prelude.v
Utf8.v
Double.v
JsonValue.v
JsonLexer.v
JsonLexerFacts.v
JsonTokens.v
JsonNumbers.v
JsonParser.v
JsonParserFacts.v
JsonStored.v
JsonHandlers.v
JsonGrammar.v
JsonToChars.v
GrisuBounds.v
GrisuDigits.v
Grisu.v
FloatText.v
JsonSerializer.v
JsonIntegerText.v
JsonStringText.v
JsonRoundTrip.v
JsonTyping.v
JsonPointer.v
JsonPatch.v
JsonPatchFacts.v
JsonProperties.v
JsonPatchProperties.v
CraieClient.v
CraieProperties.v
AsioBuffers.v
AsioTransfer.v
EchoServer.v
AsioProperties.v
AsioDynamic.v
AsioDynamicFacts.v
ReadUntil.v
ReadUntilFacts.v
AsyncTransfer.v
SocketOps.v
SocketOpsFacts.v
AsioReadProperties.v
OpQueue.v
Strand.v
StrandFacts.v
StrandProperties.v
EpollReactor.v
EpollReactorFacts.v
ReactorProperties.v
Scheduler.v
SchedulerFacts.v
SchedulerWakeups.v
SchedulerProperties.v
PrethreadServer.v
ThreadClient.v
CServerProperties.v
TimerQueue.v
TimerQueueFacts.v
TimerWait.v
TimerProperties.v
BinaryNumbers.v
BinaryNumbersFacts.v
BinaryReader.v
BinaryReaderFacts.v
MsgPack.v
MsgPackFacts.v
BinarySafety.v
MsgPackSafety.v
Cbor.v
CborFacts.v
CborSafety.v
Bson.v
BsonFacts.v
BsonSafety.v
Ubjson.v
UbjsonFacts.v
UbjsonSafety.v
BinaryProperties.v
