(* ===== verification/Prelude.v ===== *)
(** Verification of the SocketC repository.

    * The program

    The repository holds network programs and the libraries they bring along:

    - 20251113-CraieLibProject/main.cpp, the Craie test client.  A thread
      watches a command file, parses it as JSON and turns the keys that
      changed into calls of CraieLib; the main loop polls the library sixty
      times a second; a signal handler stops both.
    - framework/json.hpp, the JSON library the client parses and prints with.
    - 20251106-SocketC/src/server/coroutine_tasks_server.cpp, an echo server
      with a thread per client on Asio sockets.
    - 20251411-SocketC++/Boost-Asio, the Asio headers that server is built on.
    - C servers and clients in the style of Unix Network Programming
      (20251106-SocketC/src): among them a server with a pool of threads and a
      ring of connections, and a web client with a thread per file.
    - Examples and libraries staged with the repository (IPC, unpv13e,
      unpv22e).

    * The files

    Shared:
    - [Prelude]: outcomes of C++ code ([Ret], [Throw], [Abort] for a failed
      assertion, [Undef] for undefined behaviour, [Diverge] for a loop that
      used up its fuel), machine integers, byte strings, tactics, hints.
    - [Utf8]: well-formed UTF-8.  [Double]: rounding a decimal number to the
      nearest IEEE double, the meaning of [strtod].

    The JSON library (framework/json.hpp):
    - [JsonValue]: basic_json values and their type tags, exceptions, element
      access ([at_key] is the operator that inserts), conversions, equality.
    - [JsonLexer]: class lexer, its state as the record [lexer] and each
      scan_ function as a definition, its assertions included;
      [JsonLexerFacts] proves that every scan ends and stays within the input
      and that no assertion fails, [JsonTokens] and [JsonNumbers] what each
      token means.
    - [JsonParser]: class parser against the SAX interface (the class [SAX]),
      the handlers json_sax_dom_parser and json_sax_acceptor, and the entry
      points parse and accept; [JsonParserFacts] proves totality from laws of
      handlers ([SAXLaws]), [JsonHandlers] that the two handlers run in step
      (a simulation), [JsonGrammar] that texts of the JSON grammar, an
      inductive relation, parse to the value they denote.
    - [JsonToChars]: to_chars and the Grisu2 algorithm on 64-bit arithmetic;
      [GrisuBounds], [GrisuDigits], [Grisu], [FloatText] prove its bounds, the
      interval it generates digits in, and that the text is read back to the
      same double.
    - [JsonSerializer]: class serializer with its buffers, and dump;
      [JsonIntegerText] and [JsonStringText] prove what integers and strings
      are written as, [JsonRoundTrip] that dump writes texts of the grammar.
    - [JsonTyping]: that what parse returns is well-typed (laws of handlers in
      the class [SAXTyped]) and what dump turns such values into.
    - [JsonPointer]: escaping, parsing and printing of JSON pointers, checked
      access through them; [JsonPatch]: patch, diff and merge_patch;
      [JsonPatchFacts] proves that the patch of two documents leads from one to
      the other, through a list of edits that works at any place of a document.
    - [JsonStored]: what the values that a handler builds are made of, kept by
      every event.
    - [JsonProperties]: the properties C1, C3 to C6, C8 and C32;
      [JsonPatchProperties]: C19.

    The binary formats of the JSON library (binary_reader and binary_writer):
    - [BinaryNumbers]: numbers in memory of either byte order and the bits of
      floating-point numbers; [BinaryNumbersFacts] proves that reading them is
      inverse to writing them.
    - [BinaryReader]: the input, get_number, get_string, get_binary, errors and
      sax_parse as programs of a state and exception monad ([rd]), and the SAX
      events that only binary formats have ([BinarySAX]); [BinaryReaderFacts]
      gives the rules by which a reader builds the value that was written,
      [BinarySafety] a contract of handlers ([BinaryLaws]) under which it ends,
      and that the DOM builder fulfils it.
    - [MsgPack], [Cbor], [Bson], [Ubjson] (UBJSON and BJData): a reader and a
      writer each, from_msgpack, to_msgpack and so on.  For each of them the
      file with Facts in its name proves that what is written is read back and
      the file with Safety that arbitrary bytes are read in the contract.
    - [BinaryProperties]: the properties C10, C11, C13, C15, C18, C22, C24 and
      C30, and observations on corner cases.

    The Craie client (main.cpp):
    - [CraieClient]: the commands as programs of a state and exception monad
      ([cmd]) over the static variables and a trace of library calls, log
      lines and sleeps; the watcher's rounds; polling; the process as a step
      relation of the main thread, the watcher and the signal handler.
    - [CraieProperties]: an abstract specification [commands] of what a
      document causes, the refinement, and the properties C14, C17, C20 and C21.

    Asio and the echo server:
    - [AsioBuffers]: buffer sequences, consuming_buffers and its
      specialisations, completion conditions, buffer_copy.
    - [AsioTransfer]: asio::write and asio::read against the interface of a
      stream socket (the classes [Stream] and [StreamLaws]).
    - [EchoServer]: str_echo, and the server as a step relation, in which a
      read and every write_some inside asio::write are steps of their own; a
      socket that follows a script discharges the interface.
    - [AsioProperties]: the properties C23, C26 and C29.
    - [AsioDynamic]: basic_streambuf and dynamic_string_buffer, as instances
      of the interface of dynamic buffers (the class [DynamicBuffer]);
      [AsioDynamicFacts] proves its laws for them ([DynamicBufferLaws]).
    - [ReadUntil]: read_until, and async_read_until as the state machine of
      its function call operator; [ReadUntilFacts] proves that both find the
      first match, from laws of searches ([SearchLaws]).
    - [AsyncTransfer]: write_op and read_op, the state machines of async_write
      and async_read, and that they do what write and read do.
    - [SocketOps]: detail/impl/socket_ops.ipp on the interface of a POSIX
      kernel (the class [Kernel]), and the socket as a [Stream];
      [SocketOpsFacts] proves what each call does from the laws of the kernel
      ([KernelLaws]), and the laws of streams for a kernel that also refuses
      a transfer only finitely often behind a successful poll
      ([PatientKernel]); a simulated kernel has both.
    - [AsioReadProperties]: the properties C7, C9, C25 and C36.
    - [OpQueue]: detail/op_queue.hpp, linked through the operations in a shared
      memory, and the lists such queues stand for.
    - [Strand]: strand_executor_service, its critical sections as functions and
      its threads as stacks of frames of a step relation; [StrandFacts] proves
      the invariant, a single token and the order of handlers.
    - [StrandProperties]: the properties C27, C28 and C31.

    - [EpollReactor]: what operations on sockets return to the reactor
      ([recv_perform], [send_perform], [accept_perform]), the descriptors of
      the epoll reactor, their queues and registration, on the interface of
      edge-triggered epoll (the class [Epoll]), and the reactor at work as a
      step relation; [EpollReactorFacts] proves which system calls are behind
      an operation that exhausts its descriptor, and the invariants from the
      laws of epoll ([EpollLaws]), which a simulated kernel has.
    - [ReactorProperties]: the properties C12 and C16.
    - [Scheduler]: the scheduler of an io_context and posix_event, critical
      sections as functions and any number of threads as a step relation;
      [SchedulerFacts] proves the invariant of the count of work and
      [SchedulerWakeups] that of the wake-ups.
    - [SchedulerProperties]: the properties C2 and C33.

    Asio's timers:
    - [TimerQueue]: detail/timer_queue.hpp, the heap, the list of active timers
      and the operations that wait, against the time traits (the classes
      [TimeTraits] and [TimeOrder]); [TimerQueueFacts] proves its invariant and
      what each operation does.
    - [TimerWait]: chrono_time_traits, the wait durations of queues and of a
      timer_queue_set, and get_timeout of the epoll reactor.
    - [TimerProperties]: the properties C38 to C40.

    The C programs:
    - [PrethreadServer]: prethread_server_user_schedule.c, its threads as a
      step relation with one step per access to shared memory, and web_child.
    - [ThreadClient]: thread-client.c likewise, and its requests.
    - [CServerProperties]: the properties C34, C35 and C37.

    * What the theorems show

    C1, C3, C4: dump and parse are inverse to each other, parse reads the whole
    grammar, always ends without a failed assertion or undefined behaviour,
    and its entry points agree.  C5 and C6: numbers survive printing and reading.  C8:
    strings.  C10, C11, C13, C15: what is written in a binary format is read
    back.  C18, C22, C24, C30: on arbitrary bytes the readers of the binary
    formats end, with a well-formed value or one of the documented errors.
    C19: patch and diff are inverse to
    each other.  C14, C17: what loading a file does, also when it cannot
    be opened.  C20, C21: how the process ends.  C23, C26: buffers and
    writes.  C7, C9: reading up to a delimiter, synchronously and not.  C25:
    the asynchronous reads and writes do what the synchronous ones do.  C36:
    the calls on a socket below them, and when they may fail to return.  C27: queues of operations.  C28, C31:
    strands run handlers one at a time, in order, and all of them.  C12,
    C16: the epoll reactor misses no edge up to the first error or end of a
    stream, and loses no operation.  C2, C33:
    the scheduler wakes threads for what is queued, and counts the work that
    is left.  C29: what clients of the echo server have
    got back at any time.  C32: the type of parsed values.  C34 and C35: the ring of
    the prethreaded server is a queue, and while a thread sleeps each
    connection in it has a thread on its way.  C37: how the web client fails.  C38: the timer queue keeps
    its invariant and conserves operations over any sequence of calls that
    ends with get_all_timers and moves timers only to idle ones.  C39:
    what expires.  C40: how long the reactor sleeps.

    * Fuel

    Loops that are not structural carry fuel that is proved to suffice: the
    lexer and the parser the number of characters left (plus two), digit
    generation the number of digits a 64-bit number has, escaping twice the
    length of the string (a rejected byte is read again), a transfer the bytes
    of its buffers plus two, a walk of the timer heap the index or the size of
    the heap, the greatest common divisor twice the bits of its argument.
    [str_echo] is given a number of rounds, since a client decides how long it
    runs.  Splitting a pointer has its length, as has replacing substrings.
    [read_until] has the room that is left in its buffer plus one round, since
    every round reads a byte.  The calls on a socket return within the first
    round in which the kernel does not refuse the transfer and then report the
    descriptor as ready; the socket as a stream has one round more than a
    [PatientKernel] does that.  The recursion and the loops of the binary readers have the number of bytes
    left plus one or two: every nested value and every round of a loop reads a
    byte or meets the end of the input.

    * Not modelled

    CraieLib, Qt and the operating system are not in the repository: results
    of library calls, the contents of the command file and the behaviour of
    sockets are parameters.  The locale enters through its decimal point, which is one
    byte: with a longer one the lexer takes its first byte only, and its
    assertion behind strtod fails.  Completion conditions are the three of the
    library, not any function object.  Of
    the JSON library, iterators, unchecked access through pointers, flatten,
    parser callbacks and diagnostic positions are left out; of Asio,
    shutting down the scheduler, the reactors of other systems,
    coroutines, address handling, regular expressions and the sides for other
    systems than POSIX.
    Of the C programs, the servers with a process or a thread per client, the iterative
    server, the echo client and the wrappers of system calls are left out, as
    are the examples and libraries staged with the repository.

    * Plan

    Left: the shutdown of the scheduler and the reactor; the other C servers and the
    readline and writen functions they share; iterators of the JSON library. *)

From Stdlib Require Export ZArith Lia String Ascii.
From stdpp Require Export base list numbers strings.

#[export] Set Default Goal Selector "!".
Open Scope Z_scope.

(** * Outcomes

    C++ code either returns, throws, fails an [assert], or runs into undefined
    behaviour.  Loops whose recursion is not structural carry fuel; [Diverge]
    is the value of a loop that has used all of it. *)

Inductive outcome (E A : Type) : Type :=
| Ret (a : A)
| Throw (e : E)
| Abort
| Undef
| Diverge.
Arguments Ret {E A} a.
Arguments Throw {E A} e.
Arguments Abort {E A}.
Arguments Undef {E A}.
Arguments Diverge {E A}.

#[export] Instance outcome_ret E : MRet (outcome E) := @Ret E.
#[export] Instance outcome_bind E : MBind (outcome E) := λ A B f m,
  match m with
  | Ret a => f a
  | Throw e => Throw e
  | Abort => Abort
  | Undef => Undef
  | Diverge => Diverge
  end.

(** [JSON_ASSERT(b); k] and the like. *)
Definition assert {E A} (b : bool) (k : outcome E A) : outcome E A :=
  if b then k else Abort.

Definition returns {E A} (m : outcome E A) : bool :=
  match m with Ret _ => true | _ => false end.

(** * Partial correctness *)

(** If [o] returns, its result satisfies [Q]. *)
Definition ensures {E A} (o : outcome E A) (Q : A → Prop) : Prop :=
  match o with Ret a => Q a | _ => True end.

Lemma ensures_bind {E A B} (o : outcome E A) (f : A → outcome E B) Q R :
  ensures o Q → (∀ a, Q a → ensures (f a) R) → ensures (o ≫= f) R.
Proof. destruct o; simpl; auto. Qed.

Lemma ensures_mono {E A} (o : outcome E A) (Q R : A → Prop) :
  ensures o Q → (∀ a, Q a → R a) → ensures o R.
Proof. destruct o; simpl; auto. Qed.

Lemma ensures_true {E A} (o : outcome E A) : ensures o (λ _, True).
Proof. by destruct o. Qed.

Lemma ensures_assert {E A} b (o : outcome E A) Q :
  (b = true → ensures o Q) → ensures (assert b o) Q.
Proof. destruct b; simpl; auto. Qed.

Lemma outcome_bind_ext {E A B} (o : outcome E A) (f g : A → outcome E B) :
  (∀ a, f a = g a) → o ≫= f = o ≫= g.
Proof. intros Hfg. by destruct o; simpl. Qed.

(** * Machine integers *)

Definition wrap_u (w : Z) (z : Z) : Z := z mod 2 ^ w.
Definition wrap_s (w : Z) (z : Z) : Z := (z + 2 ^ (w - 1)) mod 2 ^ w - 2 ^ (w - 1).

Definition in_u (w z : Z) : bool := (0 <=? z) && (z <? 2 ^ w).
Definition in_s (w z : Z) : bool := (- 2 ^ (w - 1) <=? z) && (z <? 2 ^ (w - 1)).

(** * Characters and strings

    A [char] is its value as an unsigned byte, a [std::string] a list of
    them; [eof] is [std::char_traits<char>::eof()]. *)

Abbreviation cstring := (list Z).

Definition eof : Z := -1.

Definition is_byte (c : Z) : bool := (0 <=? c) && (c <? 256).

(** The bytes of a string literal, for messages and fixed text. *)
Fixpoint str (s : string) : cstring :=
  match s with
  | EmptyString => []
  | String a s' => Z.of_N (N_of_ascii a) :: str s'
  end.

Definition in_range (lo hi c : Z) : bool := (lo <=? c) && (c <=? hi).

(** [cs_ltb] is [operator<] of [std::string]: lexicographic on the characters
    as unsigned bytes, as [std::char_traits<char>] compares them. *)
Fixpoint cs_ltb (a b : cstring) : bool :=
  match a, b with
  | _, [] => false
  | [], _ :: _ => true
  | x :: a', y :: b' => if x =? y then cs_ltb a' b' else x <? y
  end.

Definition cs_eqb (a b : cstring) : bool := bool_decide (a = b).

(** * Automation *)

Create HintDb verif.

(** Turns boolean comparisons in hypotheses and the goal into propositions. *)
Ltac to_prop :=
  repeat match goal with
  | H : _ && _ = true |- _ => apply andb_true_iff in H; destruct H
  | H : _ || _ = false |- _ => apply orb_false_iff in H; destruct H
  | H : _ || _ = true |- _ => apply orb_true_iff in H
  | H : _ && _ = false |- _ => apply andb_false_iff in H
  | H : negb _ = true |- _ => apply negb_true_iff in H
  | H : negb _ = false |- _ => apply negb_false_iff in H
  | H : (_ <=? _)%Z = true |- _ => apply Z.leb_le in H
  | H : (_ <=? _)%Z = false |- _ => apply Z.leb_gt in H
  | H : (_ <? _)%Z = true |- _ => apply Z.ltb_lt in H
  | H : (_ <? _)%Z = false |- _ => apply Z.ltb_ge in H
  | H : (_ =? _)%Z = true |- _ => apply Z.eqb_eq in H
  | H : (_ =? _)%Z = false |- _ => apply Z.eqb_neq in H
  | H : (_ <=? _)%nat = true |- _ => apply Nat.leb_le in H
  | H : (_ <=? _)%nat = false |- _ => apply Nat.leb_gt in H
  | H : (_ <? _)%nat = true |- _ => apply Nat.ltb_lt in H
  | H : (_ <? _)%nat = false |- _ => apply Nat.ltb_ge in H
  | H : (_ =? _)%nat = true |- _ => apply Nat.eqb_eq in H
  | H : (_ =? _)%nat = false |- _ => apply Nat.eqb_neq in H
  | H : bool_decide _ = true |- _ => apply bool_decide_eq_true in H
  | H : bool_decide _ = false |- _ => apply bool_decide_eq_false in H
  end.

(** Splits on the boolean tests of the goal, arithmetic deciding the branches. *)
Ltac zify_bool := unfold in_range, is_byte, in_u, in_s in *; to_prop.

Ltac case_if :=
  match goal with
  | |- context [if ?b then _ else _] =>
      lazymatch b with
      | context [if _ then _ else _] => fail
      | _ => destruct b eqn:?
      end
  end.

(** Decides a test in the goal by arithmetic and rewrites with the answer. *)
Ltac decide_test b v :=
  let H := fresh in
  assert (b = v) as H; [ unfold in_range, is_byte, in_u, in_s; try lia | rewrite H; clear H ].

Lemma cs_eqb_true a b : cs_eqb a b = true ↔ a = b.
Proof. apply bool_decide_eq_true. Qed.

Lemma cs_eqb_refl a : cs_eqb a a = true.
Proof. by apply cs_eqb_true. Qed.

Lemma cs_ltb_irrefl a : cs_ltb a a = false.
Proof. induction a as [|x a IH]; simpl; [done|]. by rewrite Z.eqb_refl. Qed.

Lemma cs_ltb_trans a b c : cs_ltb a b = true → cs_ltb b c = true → cs_ltb a c = true.
Proof.
  revert b c; induction a as [|x a IH]; intros [|y b] [|z c]; simpl; try done.
  destruct (Z.eqb_spec x y), (Z.eqb_spec y z), (Z.eqb_spec x z);
    intros; subst; to_prop; try lia; eauto.
Qed.

Lemma cs_ltb_total a b : cs_ltb a b = false → cs_ltb b a = false → a = b.
Proof.
  revert b; induction a as [|x a IH]; intros [|y b]; simpl; try done.
  destruct (Z.eqb_spec x y) as [->|]; [rewrite Z.eqb_refl; intros; f_equal; eauto|].
  intros. destruct (Z.eqb_spec y x); [congruence|]. to_prop; lia.
Qed.

Lemma cs_ltb_asym a b : cs_ltb a b = true → cs_ltb b a = false.
Proof.
  intros H. destruct (cs_ltb b a) eqn:E; [|done].
  by rewrite <- (cs_ltb_irrefl a), (cs_ltb_trans _ _ _ H E).
Qed.

#[export] Hint Resolve cs_ltb_irrefl cs_ltb_trans cs_ltb_asym cs_eqb_refl : verif.

(** * Bit operations as arithmetic *)

Lemma land_shift_low a b k :
  0 ≤ k → 0 ≤ b < 2 ^ k → Z.land (a * 2 ^ k) b = 0.
Proof.
  intros Hk Hb. rewrite <- (Z.mod_small b (2 ^ k)) by done.
  rewrite <- Z.land_ones, (Z.land_comm b), Z.land_assoc, Z.land_ones, Z.mod_mul by lia.
  apply Z.land_0_l.
Qed.

Lemma lor_shift_low a b k :
  0 ≤ k → 0 ≤ b < 2 ^ k → Z.lor (a * 2 ^ k) b = a * 2 ^ k + b.
Proof.
  intros Hk Hb. rewrite <- Z.add_lor_land, land_shift_low by done. lia.
Qed.

Lemma lor_C0 b : 0 ≤ b < 64 → Z.lor 0xC0 b = 0xC0 + b.
Proof. apply (lor_shift_low 3 b 6). lia. Qed.

Lemma lor_E0 b : 0 ≤ b < 32 → Z.lor 0xE0 b = 0xE0 + b.
Proof. apply (lor_shift_low 7 b 5). lia. Qed.

Lemma lor_F0 b : 0 ≤ b < 16 → Z.lor 0xF0 b = 0xF0 + b.
Proof. apply (lor_shift_low 15 b 4). lia. Qed.

Lemma lor_80 b : 0 ≤ b < 128 → Z.lor 0x80 b = 0x80 + b.
Proof. apply (lor_shift_low 1 b 7). lia. Qed.

Lemma land_3F b : Z.land b 0x3F = b mod 64.
Proof. apply (Z.land_ones b 6). lia. Qed.

Lemma shiftr_div b k : 0 ≤ k → Z.shiftr b k = b / 2 ^ k.
Proof. apply Z.shiftr_div_pow2. Qed.
