(* ===== verification/Utf8.v ===== *)
(** Well-formed UTF-8, stated from the Unicode standard's table of well-formed
    byte sequences and independent of the two recognisers of
    framework/json.hpp that the development compares with it: the byte ranges
    of the lexer's [scan_string] and the automaton of the serializer's
    [decode]. *)

From S2P Require Import Prelude.

(** * The byte sequences of one code point *)

Definition cont (b : Z) : bool := in_range 0x80 0xBF b.

Definition group2 (b0 b1 : Z) : bool := in_range 0xC2 0xDF b0 && cont b1.

Definition group3 (b0 b1 b2 : Z) : bool :=
  (((b0 =? 0xE0) && in_range 0xA0 0xBF b1)
   || ((in_range 0xE1 0xEC b0 || in_range 0xEE 0xEF b0) && cont b1)
   || ((b0 =? 0xED) && in_range 0x80 0x9F b1)) && cont b2.

Definition group4 (b0 b1 b2 b3 : Z) : bool :=
  (((b0 =? 0xF0) && in_range 0x90 0xBF b1)
   || (in_range 0xF1 0xF3 b0 && cont b1)
   || ((b0 =? 0xF4) && in_range 0x80 0x8F b1)) && cont b2 && cont b3.

Definition utf8_group (g : cstring) : bool :=
  match g with
  | [b0] => in_range 0 0x7F b0
  | [b0; b1] => group2 b0 b1
  | [b0; b1; b2] => group3 b0 b1 b2
  | [b0; b1; b2; b3] => group4 b0 b1 b2 b3
  | _ => false
  end.

(** The scalar value a sequence encodes. *)
Definition group_codepoint (g : cstring) : Z :=
  match g with
  | [b0] => b0
  | [b0; b1] => (b0 - 0xC0) * 64 + (b1 - 0x80)
  | [b0; b1; b2] => (b0 - 0xE0) * 4096 + (b1 - 0x80) * 64 + (b2 - 0x80)
  | [b0; b1; b2; b3] =>
      (b0 - 0xF0) * 262144 + (b1 - 0x80) * 4096 + (b2 - 0x80) * 64 + (b3 - 0x80)
  | _ => 0
  end.

(** * Strings *)

Fixpoint utf8_valid (s : cstring) : bool :=
  match s with
  | [] => true
  | b0 :: s1 =>
      if in_range 0 0x7F b0 then utf8_valid s1 else
      match s1 with
      | [] => false
      | b1 :: s2 =>
          if group2 b0 b1 then utf8_valid s2 else
          match s2 with
          | [] => false
          | b2 :: s3 =>
              if group3 b0 b1 b2 then utf8_valid s3 else
              match s3 with
              | [] => false
              | b3 :: s4 => group4 b0 b1 b2 b3 && utf8_valid s4
              end
          end
      end
  end.

(** * Lemmas *)

Ltac utf8_unfold := unfold utf8_group, group2, group3, group4, cont, in_range in *.

Lemma utf8_group_nonempty g : utf8_group g = true → (0 < length g)%nat.
Proof. destruct g; simpl; [done|lia]. Qed.

Lemma utf8_valid_split s :
  utf8_valid s = true → s ≠ [] →
  ∃ g s', s = g ++ s' ∧ utf8_group g = true ∧ utf8_valid s' = true.
Proof.
  intros Hs Hne. destruct s as [|b0 s1]; [done|]. simpl in Hs.
  destruct (in_range 0 0x7F b0) eqn:E0; [by exists [b0], s1|].
  destruct s1 as [|b1 s2]; [done|].
  destruct (group2 b0 b1) eqn:E1; [by exists [b0; b1], s2|].
  destruct s2 as [|b2 s3]; [done|].
  destruct (group3 b0 b1 b2) eqn:E2; [by exists [b0; b1; b2], s3|].
  destruct s3 as [|b3 s4]; [done|]. to_prop.
  by exists [b0; b1; b2; b3], s4.
Qed.

(** Induction along the code points of a well-formed string. *)
Lemma utf8_valid_ind (P : cstring → Prop) :
  P [] →
  (∀ g s, utf8_group g = true → utf8_valid s = true → P s → P (g ++ s)) →
  ∀ s, utf8_valid s = true → P s.
Proof.
  intros Hnil Hcons s. remember (length s) as n eqn:Hn. revert s Hn.
  induction (lt_wf n) as [n _ IH]; intros s -> Hs.
  destruct s as [|b s1]; [done|].
  destruct (utf8_valid_split (b :: s1) Hs) as (g & s' & Heq & Hg & Hs'); [done|].
  rewrite Heq. apply Hcons; [done..|]. apply (IH (length s')); [|done..].
  rewrite Heq, length_app. pose proof (utf8_group_nonempty g Hg). lia.
Qed.

Lemma utf8_valid_app g s :
  utf8_group g = true → utf8_valid (g ++ s) = utf8_valid s.
Proof.
  destruct g as [|b0 [|b1 [|b2 [|b3 [|]]]]]; simpl; try done; intros Hg.
  - by rewrite Hg.
  - assert (in_range 0 0x7F b0 = false) as -> by (utf8_unfold; zify_bool; lia). by rewrite Hg.
  - assert (in_range 0 0x7F b0 = false) as -> by (utf8_unfold; zify_bool; lia).
    assert (group2 b0 b1 = false) as -> by (utf8_unfold; zify_bool; lia). by rewrite Hg.
  - assert (in_range 0 0x7F b0 = false) as -> by (utf8_unfold; zify_bool; lia).
    assert (group2 b0 b1 = false) as -> by (utf8_unfold; zify_bool; lia).
    assert (group3 b0 b1 b2 = false) as -> by (utf8_unfold; zify_bool; lia). by rewrite Hg.
Qed.

Lemma utf8_group_bytes g : utf8_group g = true → forallb is_byte g = true.
Proof.
  destruct g as [|b0 [|b1 [|b2 [|b3 [|]]]]]; simpl; try done; utf8_unfold; unfold is_byte; lia.
Qed.

Lemma utf8_valid_bytes s : utf8_valid s = true → forallb is_byte s = true.
Proof.
  revert s. apply utf8_valid_ind; [done|]. intros g s Hg _ IH.
  by rewrite forallb_app, utf8_group_bytes, IH.
Qed.
