(* ===== verification/Double.v ===== *)
(** IEEE binary64 conversion of exact numbers: the double nearest to a
    positive rational, ties to even, which is what the C library's [strtod]
    returns, and that every rational strictly between a double's rounding
    boundaries is converted to that double. *)

From Stdlib Require Export SpecFloat.
From S2P Require Import Prelude.

(** [a / b] rounded to the nearest integer, ties to even. *)
Definition round_half_even (a b : Z) : Z :=
  let q := a / b in
  let r := a mod b in
  if 2 * r <? b then q
  else if b <? 2 * r then q + 1
  else if Z.even q then q else q + 1.

(** The largest [k] with [2 ^ k <= N / D]. *)
Definition ratio_log2 (N D : Z) : Z :=
  let g := Z.log2 N - Z.log2 D in
  if D * 2 ^ Z.max 0 g <=? N * 2 ^ Z.max 0 (- g) then g else g - 1.

(** The double nearest to [N / D], for positive [N] and [D]. *)
Definition round_ratio (neg : bool) (N D : Z) : spec_float :=
  let E := Z.max (ratio_log2 N D - 52) (-1074) in
  let q := round_half_even (N * 2 ^ Z.max 0 (- E)) (D * 2 ^ Z.max 0 E) in
  let '(q, E) := if q =? 2 ^ 53 then (2 ^ 52, E + 1) else (q, E) in
  match q with
  | Zpos p => if 971 <? E then S754_infinity neg else S754_finite neg p E
  | _ => S754_zero neg
  end.

(** The double nearest to [m * 10 ^ e]. *)
Definition nearest_double (neg : bool) (m e : Z) : spec_float :=
  match m with
  | Zpos _ =>
      if 0 <=? e then round_ratio neg (m * 10 ^ e) 1 else round_ratio neg m (10 ^ (- e))
  | _ => S754_zero neg
  end.

(** * Exponents of either sign *)

Lemma pow2_pos x : 0 ≤ x → 0 < 2 ^ x.
Proof. intros. by apply Z.pow_pos_nonneg. Qed.

Lemma pow2_mono_inv a b : 0 ≤ b → 2 ^ a < 2 ^ b → a < b.
Proof. intros Hb H. destruct (Z.lt_ge_cases a b); [done|]. pose proof (Z.pow_le_mono_r 2 b a). lia. Qed.

Lemma pow2_split a b : 0 ≤ a → 0 ≤ b → 2 ^ (a + b) = 2 ^ a * 2 ^ b.
Proof. intros. by apply Z.pow_add_r. Qed.

(** [2 ^ k] as the quotient of two integers, and over a common denominator. *)
Lemma pow2_scale s k :
  0 ≤ s → 0 ≤ s + k →
  ∃ c, 0 < c ∧ 2 ^ (s + k) = c * 2 ^ Z.max 0 k ∧ 2 ^ s = c * 2 ^ Z.max 0 (- k).
Proof.
  intros Hs Hk. exists (2 ^ Z.min s (s + k)).
  split; [apply pow2_pos; lia|]. rewrite <- !pow2_split by lia.
  split; f_equal; lia.
Qed.

(** [a * 2 ^ k < b] with an exponent of either sign, at any scale. *)
Lemma scaled_lt s k a b :
  0 ≤ s → 0 ≤ s + k →
  (a * 2 ^ Z.max 0 k < b * 2 ^ Z.max 0 (- k) ↔ a * 2 ^ (s + k) < b * 2 ^ s).
Proof. intros Hs Hk. destruct (pow2_scale s k Hs Hk) as (c & Hc & -> & ->). nia. Qed.

Lemma scaled_gt s k a b :
  0 ≤ s → 0 ≤ s + k →
  (b * 2 ^ Z.max 0 (- k) < a * 2 ^ Z.max 0 k ↔ b * 2 ^ s < a * 2 ^ (s + k)).
Proof. intros Hs Hk. destruct (pow2_scale s k Hs Hk) as (c & Hc & -> & ->). nia. Qed.

(** * Rounding to the nearest integer *)

Lemma round_half_even_spec a b n :
  0 < b → 2 * n * b - b < 2 * a → 2 * a < 2 * n * b + b → round_half_even a b = n.
Proof.
  intros Hb H1 H2. unfold round_half_even.
  pose proof (Z.div_mod a b ltac:(lia)) as E. pose proof (Z.mod_pos_bound a b Hb) as Hr.
  set (q := a / b) in *. set (r := a mod b) in *.
  assert (q = n ∨ q = n - 1) as [Hq|Hq] by nia; rewrite Hq in *.
  - assert (2 * r < b) as Hlt by nia. apply Z.ltb_lt in Hlt as ->. done.
  - assert (b < 2 * r) as Hlt by nia.
    assert ((2 * r <? b) = false) as -> by lia. apply Z.ltb_lt in Hlt as ->. lia.
Qed.

Lemma round_half_even_bounds a b lo hi :
  0 < b → lo * b ≤ a → a ≤ hi * b → lo ≤ round_half_even a b ≤ hi.
Proof.
  intros Hb Hlo Hhi. unfold round_half_even.
  pose proof (Z.div_mod a b ltac:(lia)) as E. pose proof (Z.mod_pos_bound a b Hb) as Hr.
  set (q := a / b) in *. set (r := a mod b) in *.
  assert (lo ≤ q ≤ hi) as Hq by nia. assert (b ≤ 2 * r → q + 1 ≤ hi) as Hq' by nia.
  destruct (Z.ltb_spec (2 * r) b); [done|]. destruct (Z.ltb_spec b (2 * r)); [lia|].
  destruct (Z.even q); lia.
Qed.

Lemma digits2_pos_log2 m : Zpos (digits2_pos m) = Z.log2 (Zpos m) + 1.
Proof.
  induction m as [m IH|m IH|]; [..|done]; cbn [digits2_pos]; rewrite Pos2Z.inj_succ, IH.
  - rewrite (Pos2Z.inj_xI m), Z.log2_succ_double by lia. lia.
  - rewrite (Pos2Z.inj_xO m), Z.log2_double by lia. lia.
Qed.

(** * The binary exponent *)

Lemma ratio_log2_spec N D s :
  0 < N → 0 < D → Z.log2 N + Z.log2 D + 1 ≤ s →
  let k := ratio_log2 N D in
  0 ≤ s + k ∧ D * 2 ^ (s + k) ≤ N * 2 ^ s ∧ N * 2 ^ s < D * 2 ^ (s + k + 1).
Proof.
  intros HN HD Hs. unfold ratio_log2.
  pose proof (Z.log2_spec N HN) as [HN1 HN2]. pose proof (Z.log2_spec D HD) as [HD1 HD2].
  pose proof (Z.log2_nonneg N) as Hn. pose proof (Z.log2_nonneg D) as Hd.
  set (n := Z.log2 N) in *. set (d := Z.log2 D) in *.
  unfold Z.succ in *. rewrite pow2_split in HN2, HD2 by lia. change (2 ^ 1) with 2 in *.
  pose proof (pow2_pos s ltac:(lia)) as Hps.
  pose proof (pow2_pos (s + (n - d)) ltac:(lia)) as Hpk.
  assert (2 ^ (s + (n - d)) * 2 ^ d = 2 ^ n * 2 ^ s) as Epow.
  { rewrite <- !pow2_split by lia. f_equal. lia. }
  pose proof (scaled_gt s (n - d) D N ltac:(lia) ltac:(lia)) as Hsc.
  destruct (Z.leb_spec (D * 2 ^ Z.max 0 (n - d)) (N * 2 ^ Z.max 0 (- (n - d)))) as [Hc|Hc].
  - split; [lia|]. split.
    + apply Z.nlt_ge. rewrite <- Hsc. lia.
    + rewrite pow2_split by lia. change (2 ^ 1) with 2. nia.
  - rewrite Hsc in Hc. replace (s + (n - d - 1) + 1) with (s + (n - d)) by lia.
    split; [lia|]. split; [|done].
    assert (2 * 2 ^ (s + (n - d - 1)) = 2 ^ (s + (n - d))) as E2.
    { change 2 with (2 ^ 1) at 1. rewrite <- pow2_split by lia. f_equal. lia. }
    nia.
Qed.

(** * What lies between the boundaries of a double rounds to it *)

(** A finite positive double's significand and exponent. *)
Definition canonical (f e : Z) : Prop :=
  0 < f < 2 ^ 53 ∧ -1074 ≤ e ≤ 971 ∧ (2 ^ 52 ≤ f ∨ e = -1074).

(** Below a power of two the next double is half as far away. *)
Definition closer (f e : Z) : bool := (f =? 2 ^ 52) && (-1074 <? e).

(** [N / D] lies strictly between the boundaries of [f * 2 ^ e]. *)
Definition between (N D f e : Z) : Prop :=
  (if closer f e
   then D * (4 * f - 1) * 2 ^ Z.max 0 e < 4 * N * 2 ^ Z.max 0 (- e)
   else D * (2 * f - 1) * 2 ^ Z.max 0 e < 2 * N * 2 ^ Z.max 0 (- e)) ∧
  2 * N * 2 ^ Z.max 0 (- e) < D * (2 * f + 1) * 2 ^ Z.max 0 e.

Lemma round_ratio_between neg N D f e :
  0 < N → 0 < D → canonical f e → between N D f e →
  round_ratio neg N D = S754_finite neg (Z.to_pos f) e.
Proof.
  intros HN HD (Hf & He & Hcan) [Hlo Hhi].
  set (s := Z.log2 N + Z.log2 D + 1 + 1100).
  pose proof (Z.log2_nonneg N) as HlN. pose proof (Z.log2_nonneg D) as HlD.
  pose proof (ratio_log2_spec N D s HN HD ltac:(lia)) as (Hsk & Hk1 & Hk2).
  unfold round_ratio. set (k := ratio_log2 N D) in *.
  pose proof (pow2_pos s ltac:(lia)) as Hps. pose proof (pow2_pos (s + e) ltac:(lia)) as Hpe.
  pose proof (proj1 (scaled_gt s e (D * (2 * f + 1)) (2 * N) ltac:(lia) ltac:(lia)) Hhi) as Hhi'.
  assert (0 < D * 2 ^ (s + e)) as HDP by lia.
  assert (k ≤ e + 52) as Hku.
  { assert (2 ^ (s + k + 1) < 2 ^ (s + e + 54)) as Hlt; [|apply pow2_mono_inv in Hlt; lia].
    rewrite (pow2_split (s + k)), (pow2_split (s + e)) by lia.
    apply (Z.mul_lt_mono_pos_l D); [done|].
    pose proof (Z.mul_le_mono_nonneg_l (2 * f + 1) (2 ^ 54) (D * 2 ^ (s + e)) ltac:(lia) ltac:(lia)). lia. }
  assert (2 ^ 52 ≤ f → -1074 < e → e + 51 ≤ k ∧ (closer f e = false → k = e + 52)) as Hkl.
  { intros Hf52 He'. revert Hlo. unfold closer.
    destruct ((f =? 2 ^ 52) && (-1074 <? e)) eqn:Ecl; intros Hlo;
      apply (scaled_lt s e) in Hlo; [| lia | lia | | lia | lia].
    - split; [|done].
      assert (2 ^ (s + e + 53) < 2 ^ (s + k + 1 + 2)) as Hlt; [|apply pow2_mono_inv in Hlt; lia].
      rewrite (pow2_split (s + k + 1)), (pow2_split (s + e)) by lia.
      apply (Z.mul_lt_mono_pos_l D); [done|].
      pose proof (Z.mul_le_mono_nonneg_l (2 ^ 53) (4 * f - 1) (D * 2 ^ (s + e)) ltac:(lia) ltac:(lia)). lia.
    - assert (2 ^ (s + e + 53) < 2 ^ (s + k + 1 + 1)) as Hlt;
        [|apply pow2_mono_inv in Hlt; lia].
      rewrite (pow2_split (s + k + 1)), (pow2_split (s + e)) by lia.
      apply (Z.mul_lt_mono_pos_l D); [done|].
      pose proof (Z.mul_le_mono_nonneg_l (2 ^ 53) (2 * f - 1) (D * 2 ^ (s + e)) ltac:(lia) ltac:(lia)). lia. }
  assert (0 < f) as Hf0 by lia.
  assert (∀ E, round_half_even (N * 2 ^ Z.max 0 (- E)) (D * 2 ^ Z.max 0 E) = f → E = e →
    (let '(q, E) := if round_half_even (N * 2 ^ Z.max 0 (- E)) (D * 2 ^ Z.max 0 E) =? 2 ^ 53
       then (2 ^ 52, E + 1) else (round_half_even (N * 2 ^ Z.max 0 (- E)) (D * 2 ^ Z.max 0 E), E) in
     match q with
     | Zpos p => if 971 <? E then S754_infinity neg else S754_finite neg p E
     | _ => S754_zero neg
     end) = S754_finite neg (Z.to_pos f) e) as Hfin.
  { intros E -> ->. assert ((f =? 2 ^ 53) = false) as -> by lia.
    destruct f; try lia. by assert ((971 <? e) = false) as -> by lia. }
  pose proof (pow2_pos (Z.max 0 e) ltac:(lia)) as Hpm.
  destruct (closer f e) eqn:Ecl.
  - unfold closer in Ecl. assert (f = 2 ^ 52 ∧ -1074 < e) as [Hf52 He'] by lia.
    destruct (Hkl ltac:(lia) He') as [Hk51 _].
    assert (k = e + 52 ∨ k = e + 51) as [Hk|Hk] by lia; rewrite Hk.
    + apply Hfin; [|lia]. replace (Z.max (e + 52 - 52) (-1074)) with e by lia.
      assert (D * f * 2 ^ Z.max 0 e ≤ N * 2 ^ Z.max 0 (- e)) as Hge.
      { apply Z.nlt_ge. rewrite (scaled_gt s e) by lia. apply Z.nlt_ge.
        rewrite Hk, Z.add_assoc, (pow2_split (s + e)) in Hk1 by lia. subst f. lia. }
      apply round_half_even_spec; nia.
    + replace (Z.max (e + 51 - 52) (-1074)) with (e - 1) by lia.
      assert (round_half_even (N * 2 ^ Z.max 0 (- (e - 1))) (D * 2 ^ Z.max 0 (e - 1)) = 2 ^ 53)
        as ->.
      { pose proof (pow2_pos (Z.max 0 (e - 1)) ltac:(lia)).
        assert (2 ^ (s + e) = 2 * 2 ^ (s + (e - 1))) as E2.
        { change 2 with (2 ^ 1) at 2. rewrite <- pow2_split by lia. f_equal. lia. }
        apply (scaled_lt s e) in Hlo; [|lia..]. rewrite E2 in Hlo. subst f.
        rewrite Hk in Hk2. replace (s + (e + 51) + 1) with (s + (e - 1) + 53) in Hk2 by lia.
        rewrite (pow2_split (s + (e - 1))) in Hk2 by lia.
        apply round_half_even_spec; [nia| |].
        - assert (D * (2 * 2 ^ 53 - 1) * 2 ^ Z.max 0 (e - 1) < 2 * N * 2 ^ Z.max 0 (- (e - 1)));
            [|lia]. apply (scaled_lt s (e - 1)); lia.
        - assert (2 * N * 2 ^ Z.max 0 (- (e - 1)) < D * (2 * 2 ^ 53 + 1) * 2 ^ Z.max 0 (e - 1));
            [|lia]. apply (scaled_gt s (e - 1)); [lia..|].
          pose proof (pow2_pos (s + (e - 1)) ltac:(lia)). nia. }
      rewrite Z.eqb_refl. replace (e - 1 + 1) with e by lia. subst f.
      by assert ((971 <? e) = false) as -> by lia.
  - assert (Z.max (k - 52) (-1074) = e) as HE.
    { destruct (Z.eq_dec e (-1074)); [lia|]. destruct (Hkl ltac:(lia) ltac:(lia)) as [_ ->]; lia. }
    apply Hfin; [|done]. rewrite HE. apply round_half_even_spec; nia.
Qed.
