(* ===== verification/JsonValue.v ===== *)
(** The value type of framework/json.hpp: [basic_json] with its type tag, the
    exceptions the library throws, element access, the arithmetic and string
    conversions the Craie client uses, and the comparison operators.

    [number_float_t] is IEEE binary64, taken from [SpecFloat]; an object is
    its [std::map], a list of members in increasing key order. *)

From Stdlib Require Export SpecFloat.
From S2P Require Import Prelude.

(** * Decimal text *)

(** [std::to_string] of a non-negative number; the fuel is its bit length. *)
Fixpoint dec_loop (fuel : nat) (n : Z) (acc : cstring) : cstring :=
  match fuel with
  | O => acc
  | S fuel' =>
      let acc' := (48 + n mod 10) :: acc in
      if n <? 10 then acc' else dec_loop fuel' (n / 10) acc'
  end.

Definition decimal (n : Z) : cstring := dec_loop (S (Z.to_nat (Z.log2 n))) n [].

(** * Exceptions *)

Inductive json_exn : Type :=
| parse_error (id : Z) (byte : nat) (what : cstring)
| type_error (id : Z) (what : cstring)
| out_of_range (id : Z) (what : cstring)
| other_error (id : Z) (what : cstring).

Definition exception_name (ename : string) (id : Z) : cstring :=
  str "[json.exception." ++ str ename ++ str "." ++ decimal id ++ str "] ".

(** * Types and values *)

Module value_t.
Inductive t : Type :=
| null | object | array | string | boolean
| number_integer | number_unsigned | number_float | binary | discarded.

#[global] Instance t_eq_dec : EqDecision t.
Proof. solve_decision. Defined.

(** [static_cast<std::size_t>(v)]: the position of the enumerator. *)
Definition index (v : t) : nat :=
  match v with
  | null => 0 | object => 1 | array => 2 | string => 3 | boolean => 4
  | number_integer => 5 | number_unsigned => 6 | number_float => 7
  | binary => 8 | discarded => 9
  end.

Definition order : list nat := [0; 3; 4; 5; 1; 2; 2; 2; 6]%nat.

Definition ltb (lhs rhs : t) : bool :=
  match order !! index lhs, order !! index rhs with
  | Some l, Some r => (l <? r)%nat
  | _, _ => false
  end.
End value_t.

Inductive json : Type :=
| J_null
| J_object (m : list (cstring * json))
| J_array (l : list json)
| J_string (s : cstring)
| J_boolean (b : bool)
| J_number_integer (z : Z)
| J_number_unsigned (z : Z)
| J_number_float (f : spec_float)
| J_binary (b : cstring) (subtype : option Z)
| J_discarded.

Definition json_type (j : json) : value_t.t :=
  match j with
  | J_null => value_t.null
  | J_object _ => value_t.object
  | J_array _ => value_t.array
  | J_string _ => value_t.string
  | J_boolean _ => value_t.boolean
  | J_number_integer _ => value_t.number_integer
  | J_number_unsigned _ => value_t.number_unsigned
  | J_number_float _ => value_t.number_float
  | J_binary _ _ => value_t.binary
  | J_discarded => value_t.discarded
  end.

Definition type_name (j : json) : cstring :=
  match json_type j with
  | value_t.null => str "null"
  | value_t.object => str "object"
  | value_t.array => str "array"
  | value_t.string => str "string"
  | value_t.boolean => str "boolean"
  | value_t.binary => str "binary"
  | value_t.discarded => str "discarded"
  | value_t.number_integer | value_t.number_unsigned | value_t.number_float => str "number"
  end.

Definition has_type (v : value_t.t) (j : json) : bool := bool_decide (json_type j = v).

Definition is_null (j : json) : bool := has_type value_t.null j.
Definition is_boolean (j : json) : bool := has_type value_t.boolean j.
Definition is_number_unsigned (j : json) : bool := has_type value_t.number_unsigned j.
Definition is_number_integer (j : json) : bool :=
  has_type value_t.number_integer j || has_type value_t.number_unsigned j.
Definition is_number_float (j : json) : bool := has_type value_t.number_float j.
Definition is_number (j : json) : bool := is_number_integer j || is_number_float j.
Definition is_object (j : json) : bool := has_type value_t.object j.
Definition is_array (j : json) : bool := has_type value_t.array j.
Definition is_string (j : json) : bool := has_type value_t.string j.
Definition is_binary (j : json) : bool := has_type value_t.binary j.
Definition is_discarded (j : json) : bool := has_type value_t.discarded j.
Definition is_primitive (j : json) : bool :=
  is_null j || is_string j || is_boolean j || is_number j || is_binary j.
Definition is_structured (j : json) : bool := is_array j || is_object j.

(** * The object map *)

(** [std::map::find]. *)
Fixpoint obj_find (k : cstring) (m : list (cstring * json)) : option json :=
  match m with
  | [] => None
  | (k', v) :: m' => if cs_eqb k k' then Some v else obj_find k m'
  end.

(** [m[k] = v] on the ordered map: a new key goes before the first larger one. *)
Fixpoint obj_set (k : cstring) (v : json) (m : list (cstring * json)) :
    list (cstring * json) :=
  match m with
  | [] => [(k, v)]
  | (k', v') :: m' =>
      if cs_ltb k k' then (k, v) :: m
      else if cs_ltb k' k then (k', v') :: obj_set k v m'
      else (k', v) :: m'
  end.

(** [object->emplace(key, nullptr)]: an existing member is kept. *)
Definition obj_emplace_null (k : cstring) (m : list (cstring * json)) :
    list (cstring * json) :=
  match obj_find k m with
  | Some _ => m
  | None => obj_set k J_null m
  end.

(** * Element access *)

Definition contains (j : json) (key : cstring) : bool :=
  match j with
  | J_object m => match obj_find key m with Some _ => true | None => false end
  | _ => false
  end.

Definition create_type_error (id : Z) (what : cstring) : json_exn :=
  type_error id (exception_name "type_error" id ++ what).

Definition create_out_of_range (id : Z) (what : cstring) : json_exn :=
  out_of_range id (exception_name "out_of_range" id ++ what).

Definition create_other_error (id : Z) (what : cstring) : json_exn :=
  other_error id (exception_name "other_error" id ++ what).

(** [parse_error::create] with a byte index, which is left out when it is 0. *)
Definition create_parse_error_at (id : Z) (byte : nat) (what : cstring) : json_exn :=
  parse_error id byte
    (exception_name "parse_error" id ++ str "parse error" ++
     (if (byte =? 0)%nat then [] else str " at byte " ++ decimal (Z.of_nat byte)) ++ str ": " ++ what).

(** [operator[](key) const]. *)
Definition at_key_const (j : json) (key : cstring) : outcome json_exn json :=
  match j with
  | J_object m =>
      match obj_find key m with Some v => Ret v | None => Abort end
  | _ => Throw (create_type_error 305
           (str "cannot use operator[] with a string argument with " ++ type_name j))
  end.

(** The non-const [operator[](key)]: the value afterwards and the member. *)
Definition at_key (j : json) (key : cstring) : outcome json_exn (json * json) :=
  let j := match j with J_null => J_object [] | _ => j end in
  match j with
  | J_object m =>
      let m' := obj_emplace_null key m in
      match obj_find key m' with
      | Some v => Ret (J_object m', v)
      | None => Abort
      end
  | _ => Throw (create_type_error 305
           (str "cannot use operator[] with a string argument with " ++ type_name j))
  end.

(** [operator[](idx) const]: out of range is undefined. *)
Definition at_index_const (j : json) (idx : nat) : outcome json_exn json :=
  match j with
  | J_array l => match l !! idx with Some v => Ret v | None => Undef end
  | _ => Throw (create_type_error 305
           (str "cannot use operator[] with a numeric argument with " ++ type_name j))
  end.

(** The non-const [operator[](idx)]: a null becomes an array, and an array is
    filled up with nulls. *)
Definition at_index (j : json) (idx : nat) : outcome json_exn (json * json) :=
  let j := match j with J_null => J_array [] | _ => j end in
  match j with
  | J_array l =>
      let l' := if (length l <=? idx)%nat
                then l ++ replicate (idx + 1 - length l) J_null else l in
      match l' !! idx with
      | Some v => Ret (J_array l', v)
      | None => Undef
      end
  | _ => Throw (create_type_error 305
           (str "cannot use operator[] with a numeric argument with " ++ type_name j))
  end.

(** * Conversions *)

(** [static_cast<double>] of an integer. *)
Definition int_to_double (z : Z) : spec_float := binary_normalize 53 1024 z 0 false.

(** [static_cast<int>] of a double: truncation, undefined when it does not fit. *)
Definition double_to_int (w : Z) (f : spec_float) : option Z :=
  let ranged z := if in_s w z then Some z else None in
  match f with
  | S754_zero _ => Some 0
  | S754_finite s m e =>
      let a := if 0 <=? e then Zpos m * 2 ^ e else Zpos m / 2 ^ (- e) in
      ranged (if s then - a else a)
  | S754_infinity _ | S754_nan => None
  end.

Definition isfinite (f : spec_float) : bool :=
  match f with S754_zero _ | S754_finite _ _ _ => true | _ => false end.

Definition isnan (f : spec_float) : bool :=
  match f with S754_nan => true | _ => false end.

(** [from_json] at a signed arithmetic type of [w] bits that is not one of the
    library's own number types: a boolean converts too. *)
Definition from_json_arithmetic (w : Z) (j : json) : outcome json_exn Z :=
  match j with
  | J_number_unsigned z => Ret (wrap_s w z)
  | J_number_integer z => Ret (wrap_s w z)
  | J_number_float f =>
      match double_to_int w f with Some z => Ret z | None => Undef end
  | J_boolean b => Ret (Z.b2z b)
  | _ => Throw (create_type_error 302 (str "type must be number, but is " ++ type_name j))
  end.

(** [get<int>()]. *)
Definition get_int (j : json) : outcome json_exn Z := from_json_arithmetic 32 j.

(** [get<std::string>()]. *)
Definition get_std_string (j : json) : outcome json_exn cstring :=
  match j with
  | J_string s => Ret s
  | _ => Throw (create_type_error 302 (str "type must be string, but is " ++ type_name j))
  end.

(** [get<bool>()]. *)
Definition get_boolean (j : json) : outcome json_exn bool :=
  match j with
  | J_boolean b => Ret b
  | _ => Throw (create_type_error 302 (str "type must be boolean, but is " ++ type_name j))
  end.

(** * Comparison *)

Definition compares_unordered (lhs rhs : json) : bool :=
  let nan j := match j with J_number_float f => isnan f | _ => false end in
  (nan lhs && is_number rhs) || (nan rhs && is_number lhs)
    || (is_discarded lhs || is_discarded rhs).

(** [JSON_IMPLEMENT_OPERATOR] at [==].  [std::vector] and [std::map] compare
    their elements pairwise. *)
Fixpoint json_eqb (lhs rhs : json) : bool :=
  match lhs, rhs with
  | J_array l, J_array r =>
      (fix vec_eqb (l r : list json) : bool :=
         match l, r with
         | [], [] => true
         | x :: l', y :: r' => json_eqb x y && vec_eqb l' r'
         | _, _ => false
         end) l r
  | J_object l, J_object r =>
      (fix map_eqb (l r : list (cstring * json)) : bool :=
         match l, r with
         | [], [] => true
         | (k, x) :: l', (k', y) :: r' => cs_eqb k k' && json_eqb x y && map_eqb l' r'
         | _, _ => false
         end) l r
  | J_null, J_null => true
  | J_string s, J_string s' => cs_eqb s s'
  | J_boolean b, J_boolean b' => Bool.eqb b b'
  | J_number_integer x, J_number_integer y => x =? y
  | J_number_unsigned x, J_number_unsigned y => x =? y
  | J_number_float x, J_number_float y => SFeqb x y
  | J_binary x sx, J_binary y sy => cs_eqb x y && bool_decide (sx = sy)
  | J_number_integer x, J_number_float y => SFeqb (int_to_double x) y
  | J_number_float x, J_number_integer y => SFeqb x (int_to_double y)
  | J_number_unsigned x, J_number_float y => SFeqb (int_to_double x) y
  | J_number_float x, J_number_unsigned y => SFeqb x (int_to_double y)
  | J_number_unsigned x, J_number_integer y => wrap_s 64 x =? y
  | J_number_integer x, J_number_unsigned y => x =? wrap_s 64 y
  | _, _ => false
  end.

(** [operator!=], which is not the negation of [==] on unordered operands. *)
Definition json_neb (lhs rhs : json) : bool :=
  if compares_unordered lhs rhs then false else negb (json_eqb lhs rhs).

(** * Induction over values *)

(** The members of an object and the elements of an array by induction too. *)
Section json_induction.
  Variable P : json → Prop.
  Hypothesis H_null : P J_null.
  Hypothesis H_object : ∀ m, Forall (λ kv, P kv.2) m → P (J_object m).
  Hypothesis H_array : ∀ l, Forall P l → P (J_array l).
  Hypothesis H_string : ∀ s, P (J_string s).
  Hypothesis H_boolean : ∀ b, P (J_boolean b).
  Hypothesis H_integer : ∀ z, P (J_number_integer z).
  Hypothesis H_unsigned : ∀ z, P (J_number_unsigned z).
  Hypothesis H_float : ∀ f, P (J_number_float f).
  Hypothesis H_binary : ∀ b s, P (J_binary b s).
  Hypothesis H_discarded : P J_discarded.

Fixpoint json_rect_nested (j : json) : P j :=
  match j with
  | J_null => H_null
  | J_object m => H_object m
      ((fix go m : Forall (λ kv, P kv.2) m :=
          match m with
          | [] => List.Forall_nil _
          | kv :: m' => List.Forall_cons _ kv m' (json_rect_nested kv.2) (go m')
          end) m)
  | J_array l => H_array l
      ((fix go l : Forall P l :=
          match l with
          | [] => List.Forall_nil _
          | x :: l' => List.Forall_cons _ x l' (json_rect_nested x) (go l')
          end) l)
  | J_string s => H_string s
  | J_boolean b => H_boolean b
  | J_number_integer z => H_integer z
  | J_number_unsigned z => H_unsigned z
  | J_number_float f => H_float f
  | J_binary b s => H_binary b s
  | J_discarded => H_discarded
  end.
End json_induction.

(** * Well-formed values *)

(** A predicate at every node of a value. *)
Fixpoint json_forall (p : json → bool) (j : json) : bool :=
  p j &&
  match j with
  | J_object m => forallb (λ kv, json_forall p kv.2) m
  | J_array l => forallb (json_forall p) l
  | _ => true
  end.

(** The keys of a [std::map] are strictly increasing. *)
Fixpoint keys_sorted (m : list (cstring * json)) : bool :=
  match m with
  | [] => true
  | (k, _) :: m' => forallb (λ kv, cs_ltb k kv.1) m' && keys_sorted m'
  end.

(** What the C++ types guarantee of one node. *)
Definition node_wf (j : json) : bool :=
  match j with
  | J_object m => keys_sorted m && forallb (λ kv, forallb is_byte kv.1) m
  | J_string s => forallb is_byte s
  | J_number_integer z => in_s 64 z
  | J_number_unsigned z => in_u 64 z
  | J_number_float f => valid_binary 53 1024 f
  | J_binary b s => forallb is_byte b && match s with Some t => in_u 64 t | None => true end
  | _ => true
  end.

Definition json_wf (j : json) : bool := json_forall node_wf j.

(** * Lemmas on the object map *)

Lemma obj_find_set_eq k v m : obj_find k (obj_set k v m) = Some v.
Proof.
  induction m as [|[k' v'] m IH]; simpl; [by rewrite cs_eqb_refl|].
  destruct (cs_ltb k k') eqn:E1; simpl; [by rewrite cs_eqb_refl|].
  destruct (cs_ltb k' k) eqn:E2; simpl.
  - destruct (cs_eqb k k') eqn:E; [|done].
    apply cs_eqb_true in E as ->. by rewrite cs_ltb_irrefl in E2.
  - by rewrite (cs_ltb_total k k'), cs_eqb_refl.
Qed.

Lemma obj_find_set_ne k k' v m : k ≠ k' → obj_find k' (obj_set k v m) = obj_find k' m.
Proof.
  intros Hne. assert (cs_eqb k' k = false) as Hf by (by apply bool_decide_eq_false).
  induction m as [|[k1 v1] m IH]; simpl; [by rewrite Hf|].
  destruct (cs_ltb k k1) eqn:E1; simpl; [by rewrite Hf|].
  destruct (cs_ltb k1 k) eqn:E2; simpl; [by rewrite IH|].
  by rewrite <- (cs_ltb_total k k1), Hf.
Qed.

Lemma obj_set_set k v v' m : obj_set k v (obj_set k v' m) = obj_set k v m.
Proof.
  induction m as [|[k1 v1] m IH]; simpl; [by rewrite cs_ltb_irrefl|].
  destruct (cs_ltb k k1) eqn:E1; simpl; [by rewrite cs_ltb_irrefl|].
  destruct (cs_ltb k1 k) eqn:E2; simpl; rewrite ?E1, ?E2; [by rewrite IH|done].
Qed.

Lemma obj_set_snoc k v m :
  forallb (λ kv, cs_ltb kv.1 k) m = true → obj_set k v m = m ++ [(k, v)].
Proof.
  induction m as [|[k1 v1] m IH]; simpl; [done|].
  intros [H1 H2]%andb_true_iff. by rewrite (cs_ltb_asym _ _ H1), H1, IH.
Qed.

Lemma obj_find_above k m :
  forallb (λ kv, cs_ltb kv.1 k) m = true → obj_find k m = None.
Proof.
  induction m as [|[k1 v1] m IH]; simpl; [done|].
  intros [H1 H2]%andb_true_iff. destruct (cs_eqb k k1) eqn:E; [|auto].
  apply cs_eqb_true in E as ->. by rewrite cs_ltb_irrefl in H1.
Qed.

Lemma obj_set_above k0 k v m :
  cs_ltb k0 k = true → forallb (λ kv, cs_ltb k0 kv.1) m = true →
  forallb (λ kv, cs_ltb k0 kv.1) (obj_set k v m) = true.
Proof.
  intros Hk. induction m as [|[k1 v1] m IH]; simpl; [by rewrite Hk|].
  intros [H1 H2]%andb_true_iff.
  destruct (cs_ltb k k1); simpl; [by rewrite Hk, H1, H2|].
  destruct (cs_ltb k1 k); simpl; rewrite H1; [auto|done].
Qed.

(** [m[k] = v] keeps the map's order. *)
Lemma obj_set_sorted k v m : keys_sorted m = true → keys_sorted (obj_set k v m) = true.
Proof.
  induction m as [|[k1 v1] m IH]; simpl; [done|].
  intros [H1 H2]%andb_true_iff.
  destruct (cs_ltb k k1) eqn:E1; simpl.
  - rewrite E1, H1, H2, !andb_true_r; simpl.
    apply forallb_forall; intros kv Hin. rewrite forallb_forall in H1.
    eauto with verif.
  - destruct (cs_ltb k1 k) eqn:E2; simpl; [|by rewrite H1, H2].
    by rewrite obj_set_above, IH.
Qed.

(** * Equality *)

Lemma wrap_s_small w z : 0 < w → in_s w z = true → wrap_s w z = z.
Proof.
  unfold wrap_s, in_s. intros Hw H. to_prop.
  assert (2 ^ w = 2 * 2 ^ (w - 1)) as E.
  { rewrite <- Z.pow_succ_r by lia. f_equal; lia. }
  rewrite Z.mod_small; lia.
Qed.

Lemma SFcompare_refl f : isnan f = false → SFcompare f f = Some Eq.
Proof.
  destruct f as [| [] | | [] m e]; simpl; try done;
    rewrite Z.compare_refl; fold (Pos.compare m m); by rewrite Pos.compare_refl.
Qed.

Definition node_ordered (j : json) : bool :=
  match j with J_number_float f => negb (isnan f) | J_discarded => false | _ => true end.

(** [==] is reflexive on values without NaN and without discarded parts. *)
Lemma json_eqb_refl j : json_forall node_ordered j = true → json_eqb j j = true.
Proof.
  induction j as [|m IH|l IH|s|b|z|z|f|b s|] using json_rect_nested; simpl;
    rewrite ?cs_eqb_refl, ?Z.eqb_refl, ?Bool.eqb_reflx, ?bool_decide_eq_true_2 by done; try done.
  - induction IH as [|[k v] m Hv Hm IHm]; simpl; [done|].
    intros [H1 H2]%andb_true_iff. rewrite cs_eqb_refl. simpl in Hv.
    rewrite Hv by done; simpl; auto.
  - induction IH as [|x l Hx Hl IHl]; simpl; [done|].
    intros [H1 H2]%andb_true_iff. rewrite Hx by done; simpl; auto.
  - rewrite andb_true_r, negb_true_iff. intros H. unfold SFeqb. by rewrite SFcompare_refl.
Qed.
