(* ===== verification/JsonLexer.v ===== *)
(** The lexical analyser of framework/json.hpp: [lexer_base], [lexer] and the
    input adapter's [get_character].  One definition per member function; the
    lexer object is passed explicitly.  Every loop consumes input, so its fuel
    is the number of characters left plus the reads that can happen at the
    end of the input; [JsonLexerFacts] proves that it suffices. *)

From S2P Require Import Prelude Double JsonValue.

(** * Token types *)

Module token_type.
Inductive t : Type :=
| uninitialized | literal_true | literal_false | literal_null
| value_string | value_unsigned | value_integer | value_float
| begin_array | begin_object | end_array | end_object
| name_separator | value_separator | parse_error | end_of_input
| literal_or_value.

#[global] Instance t_eq_dec : EqDecision t.
Proof. solve_decision. Defined.
End token_type.

Definition token_type_name (t : token_type.t) : cstring :=
  match t with
  | token_type.uninitialized => str "<uninitialized>"
  | token_type.literal_true => str "true literal"
  | token_type.literal_false => str "false literal"
  | token_type.literal_null => str "null literal"
  | token_type.value_string => str "string literal"
  | token_type.value_unsigned | token_type.value_integer | token_type.value_float =>
      str "number literal"
  | token_type.begin_array => str "'['"
  | token_type.begin_object => str "'{'"
  | token_type.end_array => str "']'"
  | token_type.end_object => str "'}'"
  | token_type.name_separator => str "':'"
  | token_type.value_separator => str "','"
  | token_type.parse_error => str "<parse error>"
  | token_type.end_of_input => str "end of input"
  | token_type.literal_or_value => str "'[', '{', or a literal"
  end.

(** * State *)

Record position_t : Type := mk_position {
  chars_read_total : nat;
  chars_read_current_line : nat;
  lines_read : nat
}.

Record lexer : Type := mk_lexer {
  ia : cstring;
  ignore_comments : bool;
  current : Z;
  next_unget : bool;
  position : position_t;
  token_string : cstring;
  token_buffer : cstring;
  error_message : cstring;
  value_integer : Z;
  value_unsigned : Z;
  value_float : spec_float;
  decimal_point_char : Z;
  decimal_point_position : option nat
}.

(** The constructor, at the locale's decimal point. *)
Definition init_lexer (dp : Z) (input : cstring) (ignore_comments_ : bool) : lexer :=
  mk_lexer input ignore_comments_ eof false (mk_position 0 0 0) [] [] [] 0 0
    (S754_zero false) dp None.

Definition set_input (lx : lexer) (i : cstring) (c : Z) (u : bool) (p : position_t)
    (ts : cstring) : lexer :=
  mk_lexer i (ignore_comments lx) c u p ts (token_buffer lx) (error_message lx)
    (value_integer lx) (value_unsigned lx) (value_float lx) (decimal_point_char lx)
    (decimal_point_position lx).

Definition set_buffer (lx : lexer) (ts tb : cstring) (dpp : option nat) : lexer :=
  mk_lexer (ia lx) (ignore_comments lx) (current lx) (next_unget lx) (position lx) ts tb
    (error_message lx) (value_integer lx) (value_unsigned lx) (value_float lx)
    (decimal_point_char lx) dpp.

Definition set_error (lx : lexer) (m : cstring) : lexer :=
  mk_lexer (ia lx) (ignore_comments lx) (current lx) (next_unget lx) (position lx)
    (token_string lx) (token_buffer lx) m (value_integer lx) (value_unsigned lx)
    (value_float lx) (decimal_point_char lx) (decimal_point_position lx).

Definition set_numbers (lx : lexer) (i u : Z) (f : spec_float) : lexer :=
  mk_lexer (ia lx) (ignore_comments lx) (current lx) (next_unget lx) (position lx)
    (token_string lx) (token_buffer lx) (error_message lx) i u f
    (decimal_point_char lx) (decimal_point_position lx).

(** * Input management *)

(** [iterator_input_adapter::get_character]. *)
Definition get_character (input : cstring) : Z * cstring :=
  match input with
  | [] => (eof, [])
  | c :: input' => (c, input')
  end.

(** [char_traits<char>::to_char_type]: the low byte. *)
Definition to_char_type (c : Z) : Z := wrap_u 8 c.

Definition reset (lx : lexer) : lexer :=
  set_buffer lx [to_char_type (current lx)] [] None.

Definition get (lx : lexer) : Z * lexer :=
  let p := position lx in
  let p := mk_position (S (chars_read_total p)) (S (chars_read_current_line p)) (lines_read p) in
  let '(c, i) := if next_unget lx then (current lx, ia lx) else get_character (ia lx) in
  let ts := if negb (c =? eof) then token_string lx ++ [to_char_type c] else token_string lx in
  let p := if c =? 10 then mk_position (chars_read_total p) 0 (S (lines_read p)) else p in
  (c, set_input lx i c false p ts).

(** [--n] on a [size_t]. *)
Definition size_pred (n : nat) : nat :=
  match n with O => Z.to_nat (2 ^ 64 - 1) | S n' => n' end.

(** What [unget] leaves behind. *)
Definition put_back (lx : lexer) : lexer :=
  let p := position lx in
  let p := mk_position (size_pred (chars_read_total p)) (chars_read_current_line p) (lines_read p) in
  let p := if (chars_read_current_line p =? 0)%nat
           then mk_position (chars_read_total p) 0
                  (if (0 <? lines_read p)%nat then size_pred (lines_read p) else lines_read p)
           else mk_position (chars_read_total p) (size_pred (chars_read_current_line p)) (lines_read p) in
  let ts := if negb (current lx =? eof) then removelast (token_string lx) else token_string lx in
  set_input lx (ia lx) (current lx) true p ts.

Definition unget (lx : lexer) : outcome json_exn lexer :=
  if negb (current lx =? eof) then assert (bool_decide (token_string lx ≠ [])) (Ret (put_back lx))
  else Ret (put_back lx).

Definition add (lx : lexer) (c : Z) : lexer :=
  set_buffer lx (token_string lx) (token_buffer lx ++ [wrap_u 8 c]) (decimal_point_position lx).

(** What [get] has still to deliver. *)
Definition pending (lx : lexer) : cstring :=
  if next_unget lx then (if current lx =? eof then ia lx else current lx :: ia lx) else ia lx.

(** Fuel for a loop that reads at least one character per round. *)
Definition input_fuel (lx : lexer) : nat := S (length (pending lx)).

(** One round of a scanning loop. *)
Inductive step : Type :=
| Go (lx : lexer)
| Stop (t : token_type.t) (lx : lexer).

Definition fail (msg : string) (lx : lexer) : step :=
  Stop token_type.parse_error (set_error lx (str msg)).

Definition lex_result : Type := outcome json_exn (token_type.t * lexer).

(** [while (true) { body }]. *)
Fixpoint loop (fuel : nat) (body : lexer → outcome json_exn step) (lx : lexer) : lex_result :=
  match fuel with
  | O => Diverge
  | S fuel' =>
      s ← body lx;
      match s with
      | Go lx' => loop fuel' body lx'
      | Stop t lx' => Ret (t, lx')
      end
  end.

(** * Strings *)

(** The value of a hexadecimal digit, as [get_codepoint] computes it. *)
Definition hex_digit (c : Z) : option Z :=
  if in_range 48 57 c then Some (c - 48)
  else if in_range 65 70 c then Some (c - 55)
  else if in_range 97 102 c then Some (c - 87)
  else None.

Fixpoint get_codepoint_loop (factors : list Z) (codepoint : Z) (lx : lexer) :
    outcome json_exn (Z * lexer) :=
  match factors with
  | [] => assert (in_range 0 0xFFFF codepoint) (Ret (codepoint, lx))
  | factor :: factors' =>
      let '(c, lx) := get lx in
      match hex_digit c with
      | Some d => get_codepoint_loop factors' (codepoint + Z.shiftl d factor) lx
      | None => Ret (-1, lx)
      end
  end.

Definition get_codepoint (lx : lexer) : outcome json_exn (Z * lexer) :=
  assert (current lx =? 117) (get_codepoint_loop [12; 8; 4; 0] 0 lx).

(** The ranges are pairs of inclusive bounds, as the braced list is read. *)
Fixpoint next_byte_loop (ranges : list (Z * Z)) (lx : lexer) : bool * lexer :=
  match ranges with
  | [] => (true, lx)
  | (lo, hi) :: ranges' =>
      let '(c, lx) := get lx in
      if in_range lo hi c then next_byte_loop ranges' (add lx c)
      else (false, set_error lx (str "invalid string: ill-formed UTF-8 byte"))
  end.

Definition next_byte_in_range (ranges : list (Z * Z)) (lx : lexer) : outcome json_exn (bool * lexer) :=
  let size := (2 * length ranges)%nat in
  assert ((size =? 2) || (size =? 4) || (size =? 6))%nat
    (Ret (next_byte_loop ranges (add lx (current lx)))).

(** The bytes a code point is translated into. *)
Definition codepoint_bytes (cp : Z) : list Z :=
  if cp <? 128 then [cp]
  else if cp <=? 0x7FF then
    [Z.lor 0xC0 (Z.shiftr cp 6); Z.lor 0x80 (Z.land cp 0x3F)]
  else if cp <=? 0xFFFF then
    [Z.lor 0xE0 (Z.shiftr cp 12); Z.lor 0x80 (Z.land (Z.shiftr cp 6) 0x3F);
     Z.lor 0x80 (Z.land cp 0x3F)]
  else
    [Z.lor 0xF0 (Z.shiftr cp 18); Z.lor 0x80 (Z.land (Z.shiftr cp 12) 0x3F);
     Z.lor 0x80 (Z.land (Z.shiftr cp 6) 0x3F); Z.lor 0x80 (Z.land cp 0x3F)].

Fixpoint add_all (lx : lexer) (cs : list Z) : lexer :=
  match cs with
  | [] => lx
  | c :: cs' => add_all (add lx c) cs'
  end.

Definition surrogate_error : string :=
  "invalid string: surrogate U+D800..U+DBFF must be followed by U+DC00..U+DFFF".

(** [case 'u'] of the escapes. *)
Definition scan_unicode_escape (lx : lexer) : outcome json_exn step :=
  '(codepoint1, lx) ← get_codepoint lx;
  if codepoint1 =? -1 then
    Ret (fail "invalid string: '\u' must be followed by 4 hex digits" lx)
  else if in_range 0xD800 0xDBFF codepoint1 then
    let '(c, lx) := get lx in
    if negb (c =? 92) then Ret (fail surrogate_error lx) else
    let '(c, lx) := get lx in
    if negb (c =? 117) then Ret (fail surrogate_error lx) else
    '(codepoint2, lx) ← get_codepoint lx;
    if codepoint2 =? -1 then
      Ret (fail "invalid string: '\u' must be followed by 4 hex digits" lx)
    else if in_range 0xDC00 0xDFFF codepoint2 then
      let codepoint :=
        wrap_u 32 (wrap_u 32 (Z.shiftl codepoint1 10 + codepoint2) - 0x35FDC00) in
      assert (in_range 0 0x10FFFF codepoint)
        (Ret (Go (add_all lx (codepoint_bytes codepoint))))
    else Ret (fail surrogate_error lx)
  else if in_range 0xDC00 0xDFFF codepoint1 then
    Ret (fail "invalid string: surrogate U+DC00..U+DFFF must follow U+D800..U+DBFF" lx)
  else
    assert (in_range 0 0x10FFFF codepoint1)
      (Ret (Go (add_all lx (codepoint_bytes codepoint1)))).

(** [case '\\'] of the switch: the character after the backslash. *)
Definition scan_escape (lx : lexer) : outcome json_exn step :=
  let '(c, lx) := get lx in
  if c =? 34 then Ret (Go (add lx 34))
  else if c =? 92 then Ret (Go (add lx 92))
  else if c =? 47 then Ret (Go (add lx 47))
  else if c =? 98 then Ret (Go (add lx 8))
  else if c =? 102 then Ret (Go (add lx 12))
  else if c =? 110 then Ret (Go (add lx 10))
  else if c =? 114 then Ret (Go (add lx 13))
  else if c =? 116 then Ret (Go (add lx 9))
  else if c =? 117 then scan_unicode_escape lx
  else Ret (fail "invalid string: forbidden character after backslash" lx).

(** The messages of [case 0x00] to [case 0x1F]. *)
Definition control_messages : list string :=
  [ "invalid string: control character U+0000 (NUL) must be escaped to \u0000";
    "invalid string: control character U+0001 (SOH) must be escaped to \u0001";
    "invalid string: control character U+0002 (STX) must be escaped to \u0002";
    "invalid string: control character U+0003 (ETX) must be escaped to \u0003";
    "invalid string: control character U+0004 (EOT) must be escaped to \u0004";
    "invalid string: control character U+0005 (ENQ) must be escaped to \u0005";
    "invalid string: control character U+0006 (ACK) must be escaped to \u0006";
    "invalid string: control character U+0007 (BEL) must be escaped to \u0007";
    "invalid string: control character U+0008 (BS) must be escaped to \u0008 or \b";
    "invalid string: control character U+0009 (HT) must be escaped to \u0009 or \t";
    "invalid string: control character U+000A (LF) must be escaped to \u000A or \n";
    "invalid string: control character U+000B (VT) must be escaped to \u000B";
    "invalid string: control character U+000C (FF) must be escaped to \u000C or \f";
    "invalid string: control character U+000D (CR) must be escaped to \u000D or \r";
    "invalid string: control character U+000E (SO) must be escaped to \u000E";
    "invalid string: control character U+000F (SI) must be escaped to \u000F";
    "invalid string: control character U+0010 (DLE) must be escaped to \u0010";
    "invalid string: control character U+0011 (DC1) must be escaped to \u0011";
    "invalid string: control character U+0012 (DC2) must be escaped to \u0012";
    "invalid string: control character U+0013 (DC3) must be escaped to \u0013";
    "invalid string: control character U+0014 (DC4) must be escaped to \u0014";
    "invalid string: control character U+0015 (NAK) must be escaped to \u0015";
    "invalid string: control character U+0016 (SYN) must be escaped to \u0016";
    "invalid string: control character U+0017 (ETB) must be escaped to \u0017";
    "invalid string: control character U+0018 (CAN) must be escaped to \u0018";
    "invalid string: control character U+0019 (EM) must be escaped to \u0019";
    "invalid string: control character U+001A (SUB) must be escaped to \u001A";
    "invalid string: control character U+001B (ESC) must be escaped to \u001B";
    "invalid string: control character U+001C (FS) must be escaped to \u001C";
    "invalid string: control character U+001D (GS) must be escaped to \u001D";
    "invalid string: control character U+001E (RS) must be escaped to \u001E";
    "invalid string: control character U+001F (US) must be escaped to \u001F" ]%string.

(** The continuation ranges of each lead byte, [case 0xC2] to [case 0xF4];
    nothing for the ill-formed lead bytes of [default]. *)
Definition lead_ranges (c : Z) : option (list (Z * Z)) :=
  if in_range 0xC2 0xDF c then Some [(0x80, 0xBF)]
  else if c =? 0xE0 then Some [(0xA0, 0xBF); (0x80, 0xBF)]
  else if in_range 0xE1 0xEC c || in_range 0xEE 0xEF c then Some [(0x80, 0xBF); (0x80, 0xBF)]
  else if c =? 0xED then Some [(0x80, 0x9F); (0x80, 0xBF)]
  else if c =? 0xF0 then Some [(0x90, 0xBF); (0x80, 0xBF); (0x80, 0xBF)]
  else if in_range 0xF1 0xF3 c then Some [(0x80, 0xBF); (0x80, 0xBF); (0x80, 0xBF)]
  else if c =? 0xF4 then Some [(0x80, 0x8F); (0x80, 0xBF); (0x80, 0xBF)]
  else None.

Definition scan_multibyte (lx : lexer) : outcome json_exn step :=
  match lead_ranges (current lx) with
  | Some ranges =>
      '(ok, lx) ← next_byte_in_range ranges lx;
      if ok : bool then Ret (Go lx) else Ret (Stop token_type.parse_error lx)
  | None => Ret (fail "invalid string: ill-formed UTF-8 byte" lx)
  end.

(** One round of the loop of [scan_string]. *)
Definition scan_string_step (lx : lexer) : outcome json_exn step :=
  let '(c, lx) := get lx in
  if c =? eof then Ret (fail "invalid string: missing closing quote" lx)
  else if c =? 34 then Ret (Stop token_type.value_string lx)
  else if c =? 92 then scan_escape lx
  else if in_range 0 0x1F c then
    Ret (fail (default EmptyString (control_messages !! Z.to_nat c)) lx)
  else if in_range 0x20 0x7F c then Ret (Go (add lx c))
  else scan_multibyte lx.

Definition scan_string (lx : lexer) : lex_result :=
  let lx := reset lx in
  assert (current lx =? 34) (loop (input_fuel lx) scan_string_step lx).

(** * Comments *)

Definition scan_line_comment_step (lx : lexer) : outcome json_exn step :=
  let '(c, lx) := get lx in
  if (c =? 10) || (c =? 13) || (c =? eof) || (c =? 0)
  then Ret (Stop token_type.uninitialized lx) else Ret (Go lx).

Definition scan_block_comment_step (lx : lexer) : outcome json_exn step :=
  let '(c, lx) := get lx in
  if (c =? eof) || (c =? 0) then Ret (fail "invalid comment; missing closing '*/'" lx)
  else if c =? 42 then
    let '(c, lx) := get lx in
    if c =? 47 then Ret (Stop token_type.uninitialized lx) else lx ← unget lx; Ret (Go lx)
  else Ret (Go lx).

(** [true] is any token but [parse_error]. *)
Definition scan_comment (lx : lexer) : outcome json_exn (bool * lexer) :=
  let '(c, lx) := get lx in
  if c =? 47 then
    '(t, lx) ← loop (input_fuel lx) scan_line_comment_step lx; Ret (true, lx)
  else if c =? 42 then
    '(t, lx) ← loop (input_fuel lx) scan_block_comment_step lx;
    Ret (bool_decide (t ≠ token_type.parse_error), lx)
  else
    Ret (false, set_error lx (str "invalid comment; expecting '/' or '*' after '/'")).

(** * Numbers *)

Definition is_digit (c : Z) : bool := in_range 48 57 c.

(** The labels of [scan_number]. *)
Inductive num_state : Type :=
| scan_number_minus | scan_number_zero | scan_number_any1
| scan_number_decimal1 | scan_number_decimal2
| scan_number_exponent | scan_number_sign | scan_number_any2.

Inductive num_step : Type :=
| Goto (s : num_state) (lx : lexer)
| Done (lx : lexer)
| Num_error (lx : lexer).

(** [add(decimal_point_char); decimal_point_position = token_buffer.size() - 1]. *)
Definition add_decimal_point (lx : lexer) : lexer :=
  let lx := add lx (decimal_point_char lx) in
  set_buffer lx (token_string lx) (token_buffer lx) (Some (pred (length (token_buffer lx)))).

Definition num_fail (msg : string) (lx : lexer) : num_step := Num_error (set_error lx (str msg)).

(** The assignment to [number_type] at a label. *)
Definition number_type_at (s : num_state) (number_type : token_type.t) : token_type.t :=
  match s with
  | scan_number_minus => token_type.value_integer
  | scan_number_decimal1 | scan_number_exponent => token_type.value_float
  | _ => number_type
  end.

(** The switch at each label. *)
Definition scan_number_step (s : num_state) (lx : lexer) : num_step :=
  let '(c, lx) := get lx in
  match s with
  | scan_number_minus =>
      if c =? 48 then Goto scan_number_zero (add lx c)
      else if in_range 49 57 c then Goto scan_number_any1 (add lx c)
      else num_fail "invalid number; expected digit after '-'" lx
  | scan_number_zero =>
      if c =? 46 then Goto scan_number_decimal1 (add_decimal_point lx)
      else if (c =? 101) || (c =? 69) then Goto scan_number_exponent (add lx c)
      else Done lx
  | scan_number_any1 =>
      if is_digit c then Goto scan_number_any1 (add lx c)
      else if c =? 46 then Goto scan_number_decimal1 (add_decimal_point lx)
      else if (c =? 101) || (c =? 69) then Goto scan_number_exponent (add lx c)
      else Done lx
  | scan_number_decimal1 =>
      if is_digit c then Goto scan_number_decimal2 (add lx c)
      else num_fail "invalid number; expected digit after '.'" lx
  | scan_number_decimal2 =>
      if is_digit c then Goto scan_number_decimal2 (add lx c)
      else if (c =? 101) || (c =? 69) then Goto scan_number_exponent (add lx c)
      else Done lx
  | scan_number_exponent =>
      if (c =? 43) || (c =? 45) then Goto scan_number_sign (add lx c)
      else if is_digit c then Goto scan_number_any2 (add lx c)
      else num_fail "invalid number; expected '+', '-', or digit after exponent" lx
  | scan_number_sign =>
      if is_digit c then Goto scan_number_any2 (add lx c)
      else num_fail "invalid number; expected digit after exponent sign" lx
  | scan_number_any2 =>
      if is_digit c then Goto scan_number_any2 (add lx c) else Done lx
  end.

(** The value of a string of digits, and the digits a string starts with. *)
Fixpoint digits_value (acc : Z) (s : cstring) : Z :=
  match s with
  | [] => acc
  | c :: s' => digits_value (acc * 10 + (c - 48)) s'
  end.

Fixpoint span_digits (s : cstring) : cstring * cstring :=
  match s with
  | c :: s' => if is_digit c then let '(d, r) := span_digits s' in (c :: d, r) else ([], s)
  | [] => ([], [])
  end.

Definition span_sign (s : cstring) : bool * cstring :=
  match s with
  | 45 :: s' => (true, s')
  | 43 :: s' => (false, s')
  | _ => (false, s)
  end.

(** [std::strtoull] and [std::strtoll] in base 10 on a string without leading
    white space: the value, whether [errno] is [ERANGE], and the text left at
    [endptr]. *)
Definition c_strtoull (s : cstring) : Z * bool * cstring :=
  let '(d, r) := span_digits s in
  let v := digits_value 0 d in
  if v <? 2 ^ 64 then (v, false, r) else (2 ^ 64 - 1, true, r).

Definition c_strtoll (s : cstring) : Z * bool * cstring :=
  let '(neg, s) := span_sign s in
  let '(d, r) := span_digits s in
  let v := if neg then - digits_value 0 d else digits_value 0 d in
  if v <? - 2 ^ 63 then (- 2 ^ 63, true, r)
  else if v <? 2 ^ 63 then (v, false, r) else (2 ^ 63 - 1, true, r).

(** [std::strtod], correctly rounded, at the locale's decimal point: sign,
    digits, fraction, exponent. *)
Definition c_strtod (dp : Z) (s : cstring) : spec_float * cstring :=
  let '(neg, s) := span_sign s in
  let '(i, s) := span_digits s in
  let '(f, s) :=
    match s with
    | c :: s' => if c =? dp then span_digits s' else ([], s)
    | [] => ([], [])
    end in
  let '(e, s) :=
    match s with
    | c :: s' =>
        if (c =? 101) || (c =? 69) then
          let '(eneg, s') := span_sign s' in
          let '(d, s') := span_digits s' in
          (if eneg then - digits_value 0 d else digits_value 0 d, s')
        else (0, s)
    | [] => (0, [])
    end in
  (nearest_double neg (digits_value 0 (i ++ f)) (e - Z.of_nat (length f)), s).

(** From the label [scan_number_done] on. *)
Definition scan_number_done (number_type : token_type.t) (lx : lexer) : lex_result :=
  lx ← unget lx;
  let tb := token_buffer lx in
  let float_case :=
    let '(x, rest) := c_strtod (decimal_point_char lx) tb in
    assert (bool_decide (rest = []))
      (Ret (token_type.value_float,
            set_numbers lx (value_integer lx) (value_unsigned lx) x)) in
  match number_type with
  | token_type.value_unsigned =>
      let '(x, erange, rest) := c_strtoull tb in
      assert (bool_decide (rest = []))
        (if negb erange
         then Ret (token_type.value_unsigned,
                   set_numbers lx (value_integer lx) x (value_float lx))
         else float_case)
  | token_type.value_integer =>
      let '(x, erange, rest) := c_strtoll tb in
      assert (bool_decide (rest = []))
        (if negb erange
         then Ret (token_type.value_integer,
                   set_numbers lx x (value_unsigned lx) (value_float lx))
         else float_case)
  | _ => float_case
  end.

Fixpoint scan_number_loop (fuel : nat) (s : num_state) (number_type : token_type.t)
    (lx : lexer) : lex_result :=
  match fuel with
  | O => Diverge
  | S fuel' =>
      let number_type := number_type_at s number_type in
      match scan_number_step s lx with
      | Goto s' lx' => scan_number_loop fuel' s' number_type lx'
      | Done lx' => scan_number_done number_type lx'
      | Num_error lx' => Ret (token_type.parse_error, lx')
      end
  end.

Definition scan_number (lx : lexer) : lex_result :=
  let lx := reset lx in
  let c := current lx in
  let start s := scan_number_loop (input_fuel lx) s token_type.value_unsigned (add lx c) in
  if c =? 45 then start scan_number_minus
  else if c =? 48 then start scan_number_zero
  else if in_range 49 57 c then start scan_number_any1
  else Abort.

(** * Literals and the scanner *)

Fixpoint scan_literal_loop (rest : cstring) (return_type : token_type.t) (lx : lexer) :
    token_type.t * lexer :=
  match rest with
  | [] => (return_type, lx)
  | l :: rest' =>
      let '(c, lx) := get lx in
      if negb (to_char_type c =? l)
      then (token_type.parse_error, set_error lx (str "invalid literal"))
      else scan_literal_loop rest' return_type lx
  end.

Definition scan_literal (literal_text : string) (return_type : token_type.t) (lx : lexer) :
    lex_result :=
  match str literal_text with
  | l :: rest =>
      assert (to_char_type (current lx) =? l) (Ret (scan_literal_loop rest return_type lx))
  | [] => Abort
  end.

Definition skip_bom (lx : lexer) : outcome json_exn (bool * lexer) :=
  let '(c, lx) := get lx in
  if c =? 0xEF then
    let '(c, lx) := get lx in
    if c =? 0xBB then let '(c, lx) := get lx in Ret (c =? 0xBF, lx) else Ret (false, lx)
  else lx ← unget lx; Ret (true, lx).

Definition is_space (c : Z) : bool := (c =? 32) || (c =? 9) || (c =? 10) || (c =? 13).

Fixpoint skip_whitespace_loop (fuel : nat) (lx : lexer) : outcome json_exn lexer :=
  match fuel with
  | O => Diverge
  | S fuel' =>
      let '(c, lx) := get lx in
      if is_space c then skip_whitespace_loop fuel' lx else Ret lx
  end.

Definition skip_whitespace (lx : lexer) : outcome json_exn lexer :=
  skip_whitespace_loop (input_fuel lx) lx.

(** [while (ignore_comments && current == '/')]: the flag is false after a
    comment that could not be scanned. *)
Fixpoint skip_comments (fuel : nat) (lx : lexer) : outcome json_exn (bool * lexer) :=
  match fuel with
  | O => Diverge
  | S fuel' =>
      if ignore_comments lx && (current lx =? 47) then
        '(ok, lx) ← scan_comment lx;
        if ok : bool then
          lx ← skip_whitespace lx;
          skip_comments fuel' lx
        else Ret (false, lx)
      else Ret (true, lx)
  end.

(** The final switch of [scan]. *)
Definition scan_token (lx : lexer) : lex_result :=
  let c := current lx in
  if c =? 91 then Ret (token_type.begin_array, lx)
  else if c =? 93 then Ret (token_type.end_array, lx)
  else if c =? 123 then Ret (token_type.begin_object, lx)
  else if c =? 125 then Ret (token_type.end_object, lx)
  else if c =? 58 then Ret (token_type.name_separator, lx)
  else if c =? 44 then Ret (token_type.value_separator, lx)
  else if c =? 116 then scan_literal "true" token_type.literal_true lx
  else if c =? 102 then scan_literal "false" token_type.literal_false lx
  else if c =? 110 then scan_literal "null" token_type.literal_null lx
  else if c =? 34 then scan_string lx
  else if (c =? 45) || is_digit c then scan_number lx
  else if (c =? 0) || (c =? eof) then Ret (token_type.end_of_input, lx)
  else Ret (token_type.parse_error, set_error lx (str "invalid literal")).

Definition scan (lx : lexer) : lex_result :=
  '(bom_ok, lx) ← if (chars_read_total (position lx) =? 0)%nat then skip_bom lx else Ret (true, lx);
  if negb bom_ok
  then Ret (token_type.parse_error,
            set_error lx (str "invalid BOM; must be 0xEF 0xBB 0xBF if given"))
  else
    lx ← skip_whitespace lx;
    '(ok, lx) ← skip_comments (input_fuel lx) lx;
    if ok : bool then scan_token lx else Ret (token_type.parse_error, lx).

(** * Value getters and diagnostics *)

(** [get_string] puts the '.' back that the locale's decimal point replaced. *)
Definition get_string (lx : lexer) : cstring :=
  match decimal_point_position lx with
  | Some i => if negb (decimal_point_char lx =? 46) then <[i := 46]> (token_buffer lx)
              else token_buffer lx
  | None => token_buffer lx
  end.

Definition hex_upper (d : Z) : Z := if d <? 10 then 48 + d else 55 + d.

(** ["<U+%.4X>"] of a byte. *)
Definition escape_control (c : Z) : cstring :=
  str "<U+00" ++ [hex_upper (c / 16); hex_upper (c mod 16)] ++ str ">".

Fixpoint get_token_string_loop (ts : cstring) : cstring :=
  match ts with
  | [] => []
  | c :: ts' => (if c <=? 0x1F then escape_control c else [c]) ++ get_token_string_loop ts'
  end.

Definition get_token_string (lx : lexer) : cstring := get_token_string_loop (token_string lx).
