(* ===== verification/JsonLexerFacts.v ===== *)
(** Facts about the lexer of [JsonLexer]: what each read does to the input that
    is left, that every scan terminates without failing an assertion, and the
    token each kind of text is scanned into. *)

From S2P Require Import Prelude Double JsonValue JsonLexer.

(** * The lexer as a reader of characters *)

(** The state [get] and [unget] maintain: bytes, nothing left to read once the
    end of the input has been put back, and a character that was read is in
    the token string. *)
Definition lexer_inv (lx : lexer) : Prop :=
  forallb is_byte (ia lx) = true ∧
  (is_byte (current lx) = true ∨ current lx = eof) ∧
  (next_unget lx = true → current lx = eof → ia lx = []) ∧
  (next_unget lx = false → current lx ≠ eof → token_string lx ≠ []).

(** [lx] has [p] left to read and [tb] in its token buffer. *)
Definition lx_at (dp : Z) (ic : bool) (p tb : cstring) (lx : lexer) : Prop :=
  lexer_inv lx ∧ decimal_point_char lx = dp ∧ ignore_comments lx = ic ∧
  pending lx = p ∧ token_buffer lx = tb.

(** The last operation was a [get] that returned [c]. *)
Definition just_read (c : Z) (lx : lexer) : Prop :=
  next_unget lx = false ∧ current lx = c.

Lemma byte_not_eof c : is_byte c = true → (c =? eof) = false.
Proof. unfold is_byte, eof. intros. to_prop. lia. Qed.

Lemma wrap_byte c : is_byte c = true → wrap_u 8 c = c.
Proof. unfold is_byte, wrap_u. intros. to_prop. apply Z.mod_small. lia. Qed.

Lemma lx_at_bytes dp ic p tb lx : lx_at dp ic p tb lx → forallb is_byte p = true.
Proof.
  intros ((Hia & Hc & Hu & Hts) & _ & _ & <- & _). unfold pending.
  destruct (next_unget lx); [|done].
  destruct (current lx =? eof) eqn:E; [done|]. simpl. to_prop.
  destruct Hc as [->|]; [done|congruence].
Qed.

Lemma lx_at_cons_byte dp ic c p tb lx : lx_at dp ic (c :: p) tb lx → is_byte c = true.
Proof. intros H%lx_at_bytes. simpl in H. by to_prop. Qed.

(** [get] appends what it read to the token string. *)
Lemma token_read c (ts : cstring) x : c ≠ eof → (if negb (c =? eof) then ts ++ [x] else ts) ≠ [].
Proof. intros Hc. destruct (Z.eqb_spec c eof); [done|]. cbn [negb]. by destruct ts. Qed.

Lemma get_cons dp ic c p tb lx :
  lx_at dp ic (c :: p) tb lx →
  ∃ lx', get lx = (c, lx') ∧ lx_at dp ic p tb lx' ∧ just_read c lx'.
Proof.
  intros H. pose proof (lx_at_cons_byte _ _ _ _ _ _ H) as Hb.
  destruct H as ((Hia & Hc & Hu & Hts) & Hdp & Hic & Hp & Htb).
  unfold get, pending in *. destruct (next_unget lx) eqn:E.
  - destruct (current lx =? eof) eqn:Ee.
    { to_prop. rewrite Hu in Hp by done. done. }
    injection Hp as Hcur Hp. rewrite Hcur.
    eexists; split; [done|]. split; [|done].
    split; [|by unfold pending; simpl].
    split; [done|]. split; [left; simpl; done|]. split; [done|]. intros _ _.
    cbn [set_input token_string negb]. by destruct (token_string lx).
  - unfold get_character. rewrite Hp in Hia. rewrite Hp. simpl in Hia. to_prop.
    eexists; split; [done|]. split; [|done].
    split; [|by unfold pending; simpl].
    split; [done|]. split; [by left|]. split; [done|]. intros _ Hne. cbn [set_input token_string current] in *. by apply token_read.
Qed.

Lemma get_nil dp ic tb lx :
  lx_at dp ic [] tb lx →
  ∃ lx', get lx = (eof, lx') ∧ lx_at dp ic [] tb lx' ∧ just_read eof lx'.
Proof.
  intros ((Hia & Hc & Hu & Hts) & Hdp & Hic & Hp & Htb).
  unfold get, pending in *.
  assert ((if next_unget lx then (current lx, ia lx) else get_character (ia lx)) = (eof, []))
    as ->.
  { destruct (next_unget lx) eqn:E.
    - destruct (current lx =? eof) eqn:Ee; [|done]. to_prop. by rewrite Ee, Hp.
    - by rewrite Hp. }
  eexists; split; [done|]. split; [|done].
  split; [|by unfold pending; simpl].
  repeat split; try done. by right.
Qed.

(** [get] in general: the head of what is left, or the end of the input. *)
Lemma get_any dp ic p tb lx :
  lx_at dp ic p tb lx →
  ∃ c lx', get lx = (c, lx') ∧ just_read c lx' ∧ lx_at dp ic (tail p) tb lx' ∧
    ((c = eof ∧ p = []) ∨ (is_byte c = true ∧ p = c :: tail p)).
Proof.
  intros H. destruct p as [|c p].
  - destruct (get_nil _ _ _ _ H) as (lx' & ? & ? & ?). naive_solver.
  - pose proof (lx_at_cons_byte _ _ _ _ _ _ H).
    destruct (get_cons _ _ _ _ _ _ H) as (lx' & ? & ? & ?). naive_solver.
Qed.

(** [lx] has [p] left to read once the last character is put back. *)
Definition lx_before (dp : Z) (ic : bool) (p tb : cstring) (lx : lexer) : Prop :=
  ∃ lx', unget lx = Ret lx' ∧ lx_at dp ic p tb lx'.

(** The assertion of [unget] holds behind a [get]. *)
Lemma unget_put_back dp ic p tb c lx :
  lx_at dp ic p tb lx → just_read c lx → unget lx = Ret (put_back lx).
Proof.
  intros ((_ & _ & _ & Hts) & _) [Hn Hcur]. unfold unget. destruct (Z.eqb_spec (current lx) eof) as [|Hne]; [done|].
  cbn [negb]. unfold assert. by rewrite bool_decide_eq_true_2 by auto.
Qed.

Lemma unget_byte dp ic c p tb lx :
  lx_at dp ic p tb lx → just_read c lx → is_byte c = true →
  lx_before dp ic (c :: p) tb lx.
Proof.
  intros Hat Hr Hb. exists (put_back lx). split; [by eapply unget_put_back|].
  destruct Hat as ((Hia & Hc & Hu & Hts) & Hdp & Hic & Hp & Htb). destruct Hr as [Hn Hcur].
  unfold pending in Hp. rewrite Hn in Hp.
  repeat split; simpl; try done.
  - rewrite Hcur. intros _ ->. done.
  - unfold pending; simpl. by rewrite Hcur, byte_not_eof, Hp.
Qed.

Lemma unget_eof dp ic tb lx :
  lx_at dp ic [] tb lx → just_read eof lx → lx_before dp ic [] tb lx.
Proof.
  intros Hat Hr. exists (put_back lx). split; [by eapply unget_put_back|].
  destruct Hat as ((Hia & Hc & Hu & Hts) & Hdp & Hic & Hp & Htb). destruct Hr as [Hn Hcur].
  unfold pending in Hp. rewrite Hn in Hp.
  repeat split; simpl; try done. unfold pending; simpl. by rewrite Hcur.
Qed.

Lemma add_at dp ic p tb c lx :
  lx_at dp ic p tb lx → lx_at dp ic p (tb ++ [wrap_u 8 c]) (add lx c).
Proof.
  intros (Hinv & Hdp & Hic & Hp & Htb). split; [exact Hinv|].
  repeat split; try done. simpl. by rewrite Htb.
Qed.

Lemma add_at_byte dp ic p tb c lx :
  is_byte c = true → lx_at dp ic p tb lx → lx_at dp ic p (tb ++ [c]) (add lx c).
Proof. intros Hb H%(add_at _ _ _ _ c). by rewrite wrap_byte in H. Qed.

Lemma add_just_read c d lx : just_read c lx → just_read c (add lx d).
Proof. done. Qed.

Lemma set_error_at dp ic p tb m lx : lx_at dp ic p tb lx → lx_at dp ic p tb (set_error lx m).
Proof. intros (Hinv & ?). by split; [exact Hinv|]. Qed.

Lemma set_numbers_at dp ic p tb i u f lx :
  lx_at dp ic p tb lx → lx_at dp ic p tb (set_numbers lx i u f).
Proof. intros (Hinv & ?). by split; [exact Hinv|]. Qed.

Lemma reset_at dp ic p tb lx : lx_at dp ic p tb lx → lx_at dp ic p [] (reset lx).
Proof. intros ((Hia & Hc & Hu & _) & ? & ? & ? & ?). by split. Qed.

Lemma add_decimal_point_at dp ic p tb lx :
  is_byte dp = true → lx_at dp ic p tb lx → lx_at dp ic p (tb ++ [dp]) (add_decimal_point lx).
Proof.
  intros Hb H. pose proof H as (Hinv & Hdp & Hic & Hp & Htb). split; [exact Hinv|].
  repeat split; try done. simpl. by rewrite Htb, Hdp, wrap_byte.
Qed.

Lemma init_lexer_at dp ic p :
  forallb is_byte p = true → lx_at dp ic p [] (init_lexer dp p ic).
Proof. intros H. repeat split; simpl; try done. by right. Qed.

#[export] Hint Resolve set_error_at set_numbers_at reset_at add_just_read : verif.

(** * The text of a number *)

(** What [strtod] needs of the locale's decimal point. *)
Definition dp_ok (dp : Z) : bool :=
  is_byte dp && negb (is_digit dp) && negb (dp =? 101) && negb (dp =? 69).

Definition all_digits (s : cstring) : bool := forallb is_digit s.

Definition sign_text (neg : bool) : cstring := if neg then [45] else [].

Definition frac_text (dp : Z) (fr : cstring) : Prop :=
  fr = [] ∨ ∃ f, fr = dp :: f ∧ all_digits f = true.

Definition exp_text (ex : cstring) : Prop :=
  ex = [] ∨ ∃ e es d, ex = e :: es ++ d ∧ (e = 101 ∨ e = 69) ∧
    (es = [] ∨ es = [43] ∨ es = [45]) ∧ d ≠ [] ∧ all_digits d = true.

Lemma span_digits_app d r :
  all_digits d = true → match r with c :: _ => is_digit c = false | [] => True end →
  span_digits (d ++ r) = (d, r).
Proof.
  unfold all_digits. induction d as [|c d IH]; simpl; intros Hd Hr.
  - destruct r as [|c r]; simpl; [done|]. by rewrite Hr.
  - to_prop. by rewrite H, IH.
Qed.

Lemma span_digits_all d : all_digits d = true → span_digits d = (d, []).
Proof. intros H. rewrite <- (app_nil_r d) at 1. by apply span_digits_app. Qed.

Lemma digit_cases c : is_digit c = true →
  c = 48 ∨ c = 49 ∨ c = 50 ∨ c = 51 ∨ c = 52 ∨ c = 53 ∨ c = 54 ∨ c = 55 ∨ c = 56 ∨ c = 57.
Proof. unfold is_digit. intros. zify_bool. lia. Qed.

Lemma span_sign_digit c s : is_digit c = true → span_sign (c :: s) = (false, c :: s).
Proof. intros H%digit_cases. by repeat destruct H as [->|H]; subst. Qed.

Lemma span_sign_text neg i r :
  i ≠ [] → all_digits i = true → span_sign (sign_text neg ++ i ++ r) = (neg, i ++ r).
Proof.
  destruct neg; [done|]. destruct i as [|c i]; [done|]. simpl. intros _ H. to_prop.
  by apply span_sign_digit.
Qed.

Lemma span_exp_sign es d :
  (es = [] ∨ es = [43] ∨ es = [45]) → d ≠ [] → all_digits d = true →
  (span_sign (es ++ d)).2 = d.
Proof.
  intros Hes Hd Hdd. destruct_or! Hes; subst; [|done..]. simpl.
  destruct d as [|c d]; [done|]. simpl in Hdd. to_prop. by rewrite span_sign_digit.
Qed.

Lemma e_not_digit e : e = 101 ∨ e = 69 → is_digit e = false.
Proof. intros [->| ->]; done. Qed.

Lemma exp_head_not_digit ex : exp_text ex →
  match ex with c :: _ => is_digit c = false | [] => True end.
Proof. intros [->|(e & es & d & -> & He & _)]; [done|]. by apply e_not_digit. Qed.

(** [strtod] reads the whole text of a number. *)
Lemma c_strtod_full dp neg i fr ex :
  dp_ok dp = true → i ≠ [] → all_digits i = true → frac_text dp fr → exp_text ex →
  ∃ x, c_strtod dp (sign_text neg ++ i ++ fr ++ ex) = (x, []).
Proof.
  unfold dp_ok. intros Hdp Hi Hid Hfr Hex. to_prop. unfold c_strtod.
  rewrite span_sign_text by done.
  pose proof (exp_head_not_digit ex Hex) as Hhd.
  assert (span_digits (i ++ fr ++ ex) = (i, fr ++ ex)) as ->.
  { apply span_digits_app; [done|]. destruct Hfr as [->|(f & -> & _)]; done. }
  assert (match fr ++ ex with
          | c :: s' => if c =? dp then span_digits s' else ([], fr ++ ex)
          | [] => ([], []) end = (tail fr, ex)) as ->.
  { destruct Hfr as [->|(f & -> & Hf)]; simpl.
    - destruct Hex as [->|(e & es & d & -> & He & _)]; [done|]. simpl.
      destruct (Z.eqb_spec e dp); [|done]. subst. destruct He; subst; done.
    - rewrite Z.eqb_refl. by apply span_digits_app. }
  destruct Hex as [->|(e & es & d & -> & He & Hes & Hd & Hdd)]; [by eexists|].
  assert ((e =? 101) || (e =? 69) = true) as -> by (destruct He; subst; done).
  pose proof (span_exp_sign _ _ Hes Hd Hdd) as Hs.
  destruct (span_sign (es ++ d)) as [eneg s'] eqn:E. simpl in Hs; subst.
  rewrite span_digits_all by done. by eexists.
Qed.

Lemma c_strtoull_full i :
  all_digits i = true → ∃ x b, c_strtoull i = (x, b, []).
Proof. intros H. unfold c_strtoull. rewrite span_digits_all by done. case_if; eauto. Qed.

Lemma c_strtoll_full neg i :
  i ≠ [] → all_digits i = true → ∃ x b, c_strtoll (sign_text neg ++ i) = (x, b, []).
Proof.
  intros Hi H. unfold c_strtoll.
  pose proof (span_sign_text neg i [] Hi H) as E. rewrite app_nil_r in E.
  rewrite E, span_digits_all by done. repeat case_if; eauto.
Qed.

(** The token buffer at each label, with the number type it is entered with. *)
Definition int_type (neg : bool) : token_type.t :=
  if neg then token_type.value_integer else token_type.value_unsigned.

Inductive num_prefix (dp : Z) : num_state → token_type.t → cstring → Prop :=
| np_minus nt : num_prefix dp scan_number_minus nt [45]
| np_zero neg : num_prefix dp scan_number_zero (int_type neg) (sign_text neg ++ [48])
| np_any1 neg i : i ≠ [] → all_digits i = true →
    num_prefix dp scan_number_any1 (int_type neg) (sign_text neg ++ i)
| np_decimal1 nt neg i : i ≠ [] → all_digits i = true →
    num_prefix dp scan_number_decimal1 nt (sign_text neg ++ i ++ [dp])
| np_decimal2 neg i f : i ≠ [] → all_digits i = true → all_digits f = true →
    num_prefix dp scan_number_decimal2 token_type.value_float (sign_text neg ++ i ++ dp :: f)
| np_exponent nt neg i fr e : i ≠ [] → all_digits i = true → frac_text dp fr →
    (e = 101 ∨ e = 69) →
    num_prefix dp scan_number_exponent nt (sign_text neg ++ i ++ fr ++ [e])
| np_sign neg i fr e s : i ≠ [] → all_digits i = true → frac_text dp fr →
    (e = 101 ∨ e = 69) → (s = 43 ∨ s = 45) →
    num_prefix dp scan_number_sign token_type.value_float (sign_text neg ++ i ++ fr ++ [e; s])
| np_any2 neg i fr ex : i ≠ [] → all_digits i = true → frac_text dp fr →
    exp_text ex → ex ≠ [] →
    num_prefix dp scan_number_any2 token_type.value_float (sign_text neg ++ i ++ fr ++ ex).

(** A complete number. *)
Definition num_final (dp : Z) (nt : token_type.t) (tb : cstring) : Prop :=
  ∃ neg i fr ex, tb = sign_text neg ++ i ++ fr ++ ex ∧ i ≠ [] ∧ all_digits i = true ∧
    frac_text dp fr ∧ exp_text ex ∧
    ((nt = int_type neg ∧ fr = [] ∧ ex = []) ∨ nt = token_type.value_float).

Lemma all_digits_snoc s c : all_digits s = true → is_digit c = true → all_digits (s ++ [c]) = true.
Proof. intros Hs Hc. unfold all_digits in *. rewrite forallb_app, Hs. simpl. by rewrite Hc. Qed.

Lemma app_snoc_ne {A} (l : list A) x : l ++ [x] ≠ [].
Proof. by destruct l. Qed.

Lemma exp_text_snoc ex c : exp_text ex → ex ≠ [] → is_digit c = true → exp_text (ex ++ [c]).
Proof.
  intros [->|(e & es & d & -> & He & Hes & Hd & Hdd)] Hne Hc; [done|].
  right. exists e, es, (d ++ [c]). simpl. rewrite <- app_assoc.
  repeat split; auto using all_digits_snoc, app_snoc_ne.
Qed.

Lemma exp_text_digit e es c :
  (e = 101 ∨ e = 69) → (es = [] ∨ es = [43] ∨ es = [45]) → is_digit c = true →
  exp_text (e :: es ++ [c]).
Proof.
  intros He Hes Hc. right. exists e, es, [c]. repeat split; auto. simpl. by rewrite Hc.
Qed.

Lemma num_prefix_final dp s nt tb :
  num_prefix dp s nt tb →
  match s with
  | scan_number_zero | scan_number_any1 | scan_number_decimal2 | scan_number_any2 =>
      num_final dp (number_type_at s nt) tb
  | _ => True
  end.
Proof.
  unfold num_final, frac_text, exp_text.
  destruct 1; simpl; try done;
    [exists neg, [48], [], [] | exists neg, i, [], [] | exists neg, i, (dp :: f), []
    | exists neg, i, fr, ex]; rewrite ?app_nil_r; naive_solver.
Qed.

(** Every transition extends the text of the number. *)
Lemma num_prefix_step dp s nt tb c :
  num_prefix dp s nt tb →
  match s with
  | scan_number_minus =>
      (c = 48 → num_prefix dp scan_number_zero token_type.value_integer (tb ++ [c])) ∧
      (is_digit c = true → num_prefix dp scan_number_any1 token_type.value_integer (tb ++ [c]))
  | scan_number_zero | scan_number_any1 =>
      (∀ nt', num_prefix dp scan_number_decimal1 nt' (tb ++ [dp])) ∧
      (∀ nt', c = 101 ∨ c = 69 → num_prefix dp scan_number_exponent nt' (tb ++ [c])) ∧
      (is_digit c = true → num_prefix dp scan_number_any1 nt (tb ++ [c]))
  | scan_number_decimal1 =>
      is_digit c = true →
      num_prefix dp scan_number_decimal2 token_type.value_float (tb ++ [c])
  | scan_number_decimal2 =>
      (is_digit c = true → num_prefix dp scan_number_decimal2 nt (tb ++ [c])) ∧
      (∀ nt', c = 101 ∨ c = 69 → num_prefix dp scan_number_exponent nt' (tb ++ [c]))
  | scan_number_exponent =>
      (c = 43 ∨ c = 45 →
       num_prefix dp scan_number_sign token_type.value_float (tb ++ [c])) ∧
      (is_digit c = true →
       num_prefix dp scan_number_any2 token_type.value_float (tb ++ [c]))
  | scan_number_sign | scan_number_any2 =>
      is_digit c = true → num_prefix dp scan_number_any2 nt (tb ++ [c])
  end.
Proof.
  destruct 1 as [nt|neg|neg i|nt neg i|neg i f|nt neg i fr e|neg i fr e s|neg i fr ex];
    rewrite <- ?app_assoc; simpl.
  - split; [intros ->; apply (np_zero dp true)|intros Hc; apply (np_any1 dp true [c])];
      [done|by simpl; rewrite Hc].
  - split; [|split]; intros; [by apply (np_decimal1 dp _ neg [48])| |].
    + by apply (np_exponent dp _ neg [48] []); [..|left|].
    + apply (np_any1 dp neg [48; c]); [done|simpl; by rewrite H].
  - split; [|split]; intros; [by apply np_decimal1| |].
    + by apply (np_exponent dp _ neg i []); [..|left|].
    + by apply np_any1; [apply app_snoc_ne|apply all_digits_snoc].
  - intros Hc. apply (np_decimal2 dp neg i [c]); [done..|simpl; by rewrite Hc].
  - split; intros; [by apply (np_decimal2 dp neg i (f ++ [c])); [..|apply all_digits_snoc]|].
    change (dp :: f ++ [c]) with ((dp :: f) ++ [c]).
    apply np_exponent; [done..| |done]. right. eauto.
  - split; intros; [by apply np_sign|]. apply np_any2; try done.
    apply (exp_text_digit e []); auto.
  - intros Hc. apply np_any2; try done. apply (exp_text_digit e [s]); auto.
    destruct H3; subst; auto.
  - intros Hc. apply np_any2; auto using exp_text_snoc, app_snoc_ne.
Qed.

(** * Termination *)

Section total.
  Context (dp : Z) (ic : bool).

(** At most [n] characters are left. *)
Definition left_le (n : nat) (lx : lexer) : Prop :=
  ∃ p tb, lx_at dp ic p tb lx ∧ (length p ≤ n)%nat.

Definition step_ok (n : nat) (s : step) : Prop :=
  match s with
  | Go lx => ∃ m, (m < n)%nat ∧ left_le m lx
  | Stop _ lx => left_le n lx
  end.

Lemma left_le_weaken n m lx : left_le n lx → (n ≤ m)%nat → left_le m lx.
Proof. intros (p & tb & H & Hl) ?. exists p, tb. split; [done|lia]. Qed.

Lemma left_le_error n lx m : left_le n lx → left_le n (set_error lx m).
Proof. intros (p & tb & H & Hl). exists p, tb. eauto with verif. Qed.

Lemma left_le_add n lx c : left_le n lx → left_le n (add lx c).
Proof. intros (p & tb & H & Hl). eexists p, _. split; [by apply add_at|done]. Qed.

Lemma left_le_add_all n cs lx : left_le n lx → left_le n (add_all lx cs).
Proof. revert lx; induction cs; simpl; auto using left_le_add. Qed.

Lemma left_le_reset n lx : left_le n lx → left_le n (reset lx).
Proof. intros (p & tb & H & Hl). exists p, []. eauto with verif. Qed.

(** A read delivers a byte and shortens the input, or is at its end. *)
Lemma left_le_get n lx :
  left_le n lx →
  ∃ c lx', get lx = (c, lx') ∧ just_read c lx' ∧ left_le (pred n) lx' ∧
    (c = eof ∨ (is_byte c = true ∧ (0 < n)%nat)).
Proof.
  intros (p & tb & H & Hl). destruct (get_any _ _ _ _ _ H) as (c & lx' & ? & ? & ? & Hc).
  exists c, lx'. split; [done|]. split; [done|]. split.
  - exists (tail p), tb. split; [done|]. destruct p; simpl in *; lia.
  - destruct Hc as [[]|[? Hp]]; [by left|]. right. split; [done|].
    rewrite Hp in Hl. simpl in Hl. lia.
Qed.

Lemma step_ok_fail n m msg lx : left_le m lx → (m ≤ n)%nat → step_ok n (fail msg lx).
Proof. intros H ?. eapply left_le_weaken; [by apply left_le_error|done]. Qed.

Lemma step_ok_go n m lx : left_le m lx → (m < n)%nat → step_ok n (Go lx).
Proof. intros. by exists m. Qed.

(** A loop whose rounds each read something finishes within its fuel. *)
Lemma loop_total fuel body n lx :
  (∀ n lx, left_le n lx → ∃ s, body lx = Ret s ∧ step_ok n s) →
  left_le n lx → (n < fuel)%nat → ∃ t lx', loop fuel body lx = Ret (t, lx') ∧ left_le n lx'.
Proof.
  intros Hbody. revert n lx. induction fuel as [|fuel IH]; intros n lx Hlx Hn; [lia|].
  destruct (Hbody _ _ Hlx) as (s & Hs & Hok). simpl. rewrite Hs; simpl.
  destruct s as [lx'|t lx']; simpl in Hok; [|eauto].
  destruct Hok as (m & Hm & Hlx'). destruct (IH m lx') as (t & lx'' & ? & ?); [done|lia|].
  exists t, lx''. split; [done|]. eapply left_le_weaken; [done|lia].
Qed.

Lemma hex_digit_bound c d : hex_digit c = Some d → 0 ≤ d ≤ 15.
Proof.
  unfold hex_digit. repeat case_if; intros; simplify_eq; zify_bool; lia.
Qed.

Lemma get_codepoint_total n lx :
  left_le n lx → just_read 117 lx →
  ∃ cp lx', get_codepoint lx = Ret (cp, lx') ∧ left_le n lx' ∧ -1 ≤ cp ≤ 0xFFFF.
Proof.
  intros H [_ Hc]. unfold get_codepoint. rewrite Hc; simpl.
  do 4 (edestruct left_le_get as (? & ? & -> & _ & ? & _); [done|];
    match goal with |- context [hex_digit ?c] => destruct (hex_digit c) eqn:? end;
    [|do 2 eexists; split; [done|]; split; [eapply left_le_weaken; [done|lia]|lia]]).
  repeat match goal with H : hex_digit _ = Some _ |- _ => apply hex_digit_bound in H end.
  rewrite !Z.shiftl_mul_pow2 by lia. unfold assert. case_if; [|zify_bool; lia].
  do 2 eexists; split; [done|]. split; [eapply left_le_weaken; [done|lia]|]. zify_bool. lia.
Qed.

Lemma surrogate_codepoint c1 c2 :
  in_range 0xD800 0xDBFF c1 = true → in_range 0xDC00 0xDFFF c2 = true →
  wrap_u 32 (wrap_u 32 (Z.shiftl c1 10 + c2) - 0x35FDC00)
    = 0x10000 + (c1 - 0xD800) * 0x400 + (c2 - 0xDC00).
Proof.
  intros. zify_bool. unfold wrap_u. rewrite Z.shiftl_mul_pow2 by lia.
  rewrite (Z.mod_small (_ + _)) by lia. rewrite Z.mod_small; lia.
Qed.

(** Runs the next read of the goal. *)
Ltac read_next :=
  let c := fresh "c" in let lx := fresh "lx" in
  edestruct left_le_get as (c & lx & -> & ? & ? & ?); [eassumption|].

Ltac step_done :=
  eexists; split; [reflexivity|];
  solve [ eapply step_ok_fail; [eassumption|lia]
        | eapply step_ok_go; [eauto using left_le_add, left_le_add_all|lia] ].

Lemma scan_unicode_escape_total n lx :
  left_le n lx → just_read 117 lx →
  ∃ s, scan_unicode_escape lx = Ret s ∧ step_ok (S n) s.
Proof.
  intros H Hr. unfold scan_unicode_escape.
  destruct (get_codepoint_total n lx H Hr) as (c1 & lx1 & -> & ? & ?); simpl.
  case_if; [step_done|]. case_if.
  - read_next. case_if; [step_done|]. read_next. case_if; [step_done|].
    to_prop. subst. edestruct get_codepoint_total as (c2' & ? & -> & ? & ?);
      [eassumption|done|simpl].
    case_if; [step_done|]. case_if; [|step_done].
    rewrite surrogate_codepoint by done. unfold assert.
    case_if; [step_done|]. zify_bool. lia.
  - case_if; [step_done|]. unfold assert. case_if; [step_done|]. zify_bool. lia.
Qed.

(** The assertion on the number of ranges holds for those of a lead byte. *)
Lemma next_byte_in_range_lead c rs lx :
  lead_ranges c = Some rs → next_byte_in_range rs lx = Ret (next_byte_loop rs (add lx (current lx))).
Proof. unfold lead_ranges. repeat case_if; intros [= <-]; done. Qed.

Lemma next_byte_loop_total ranges n lx :
  left_le n lx → ∃ b lx', next_byte_loop ranges lx = (b, lx') ∧ left_le n lx'.
Proof.
  revert n lx; induction ranges as [|[lo hi] ranges IH]; intros n lx H; simpl; [eauto|].
  read_next. case_if.
  - edestruct IH as (b & lx' & -> & ?); [by apply left_le_add|].
    do 2 eexists; split; [done|]. eapply left_le_weaken; [done|lia].
  - do 2 eexists; split; [done|]. apply left_le_error. eapply left_le_weaken; [done|lia].
Qed.

Lemma scan_escape_total n lx :
  left_le n lx → ∃ s, scan_escape lx = Ret s ∧ step_ok (S n) s.
Proof.
  intros H. unfold scan_escape. read_next. repeat (case_if; [step_done|]).
  case_if; [|step_done]. to_prop; subst.
  edestruct scan_unicode_escape_total as (s & -> & Hs); [eassumption|done|].
  exists s. split; [done|]. destruct s; simpl in *.
  - destruct Hs as (m & ? & ?). exists m. split; [lia|done].
  - eapply left_le_weaken; [done|lia].
Qed.

Lemma scan_string_step_total n lx :
  left_le n lx → ∃ s, scan_string_step lx = Ret s ∧ step_ok n s.
Proof.
  intros H. unfold scan_string_step. read_next.
  case_if; [step_done|].
  match goal with H : _ ∨ _ |- _ => destruct H as [->|[Hb Hn]]; [done|] end.
  case_if.
  { eexists; split; [done|]. eapply left_le_weaken; [done|lia]. }
  case_if.
  { edestruct scan_escape_total as (s & -> & Hs); [eassumption|].
    exists s. split; [done|]. by replace (S (pred n)) with n in Hs by lia. }
  case_if; [step_done|]. case_if; [step_done|].
  unfold scan_multibyte.
  destruct (lead_ranges _) as [rs|] eqn:El; [|eexists; split; [done|]; eapply step_ok_fail; [done|lia]].
  rewrite (next_byte_in_range_lead _ _ _ El). cbn [mbind outcome_bind].
  edestruct next_byte_loop_total as (b & lx' & -> & ?); [by apply left_le_add|].
  destruct b; (eexists; split; [done|]); [eapply step_ok_go; [done|lia] | eapply left_le_weaken; [done|lia]].
Qed.

Lemma input_fuel_left n lx : left_le n lx → left_le (pred (input_fuel lx)) lx.
Proof.
  intros (p & tb & H & Hl). exists p, tb. split; [done|].
  destruct H as (_ & _ & _ & <- & _). done.
Qed.

Lemma left_le_pending n lx : left_le n lx → (input_fuel lx ≤ S n)%nat.
Proof. intros (p & tb & H & Hl). destruct H as (_ & _ & _ & <- & _). unfold input_fuel. lia. Qed.

(** A loop run with the fuel its lexer starts with. *)
Lemma loop_input_total body n lx :
  (∀ n lx, left_le n lx → ∃ s, body lx = Ret s ∧ step_ok n s) →
  left_le n lx → ∃ t lx', loop (input_fuel lx) body lx = Ret (t, lx') ∧ left_le n lx'.
Proof.
  intros Hb H. destruct (loop_total (input_fuel lx) body (pred (input_fuel lx)) lx)
    as (t & lx' & ? & ?); [done|by eapply input_fuel_left|unfold input_fuel; lia|].
  exists t, lx'. split; [done|]. eapply left_le_weaken; [done|].
  apply left_le_pending in H. lia.
Qed.

Lemma scan_string_total n lx :
  left_le n lx → just_read 34 lx → ∃ t lx', scan_string lx = Ret (t, lx') ∧ left_le n lx'.
Proof.
  intros H [_ Hc]. unfold scan_string. change (current (reset lx)) with (current lx).
  rewrite Hc; simpl. apply loop_input_total; auto using scan_string_step_total, left_le_reset.
Qed.

Lemma scan_line_comment_step_total n lx :
  left_le n lx → ∃ s, scan_line_comment_step lx = Ret s ∧ step_ok n s.
Proof.
  intros H. unfold scan_line_comment_step. read_next. case_if.
  - eexists; split; [done|]. eapply left_le_weaken; [done|lia].
  - to_prop. destruct_or!; [done|]. destruct_and!. step_done.
Qed.

Lemma scan_block_comment_step_total n lx :
  left_le n lx → ∃ s, scan_block_comment_step lx = Ret s ∧ step_ok n s.
Proof.
  intros (p & tb & H & Hl). unfold scan_block_comment_step.
  destruct (get_any _ _ _ _ _ H) as (c & lx1 & -> & Hr & Hat1 & Hc).
  assert (left_le (length (tail p)) lx1) by (by exists (tail p), tb).
  assert (length (tail p) ≤ n)%nat by (destruct p; simpl in *; lia).
  case_if; [step_done|]. to_prop.
  destruct Hc as [[]|[Hb Hp]]; [done|].
  assert (length (tail p) < n)%nat by (rewrite Hp in Hl; simpl in Hl; lia).
  case_if; [|step_done].
  destruct (get_any _ _ _ _ _ Hat1) as (c' & lx2 & -> & Hr' & Hat2 & Hc').
  case_if.
  - eexists; split; [done|]. exists (tail (tail p)), tb. split; [done|].
    destruct (tail p); simpl in *; lia.
  - assert (∃ lx3, unget lx2 = Ret lx3 ∧ lx_at dp ic (tail p) tb lx3) as (lx3 & -> & Hat3).
    { destruct Hc' as [[-> Hnil]|[Hb' Hp']].
      + rewrite Hnil in Hat2 |- *. by apply unget_eof.
      + rewrite Hp'. by apply unget_byte. }
    eexists; split; [done|]. exists (length (tail p)). split; [lia|]. by exists (tail p), tb.
Qed.

Lemma scan_comment_total n lx :
  left_le n lx →
  ∃ b lx', scan_comment lx = Ret (b, lx') ∧ left_le n lx' ∧
    (b = true → left_le (pred n) lx' ∧ (0 < n)%nat).
Proof.
  intros H. unfold scan_comment. read_next.
  assert (c ≠ eof → (0 < n)%nat) by (destruct_or!; naive_solver).
  unfold eof in *. case_if; [|case_if]; to_prop.
  - edestruct (loop_input_total scan_line_comment_step) as (t & ? & -> & ?);
      [apply scan_line_comment_step_total|eassumption|].
    do 2 eexists; split; [done|]. split; [eapply left_le_weaken; [done|lia]|]. auto with lia.
  - edestruct (loop_input_total scan_block_comment_step) as (t & ? & -> & ?);
      [apply scan_block_comment_step_total|eassumption|].
    do 2 eexists; split; [done|]. split; [eapply left_le_weaken; [done|lia]|]. auto with lia.
  - do 2 eexists; split; [done|]. split; [|done]. apply left_le_error.
    eapply left_le_weaken; [done|lia].
Qed.

Lemma scan_number_done_total n nt p tb c lx :
  dp_ok dp = true → num_final dp nt tb →
  lx_at dp ic p tb lx → just_read c lx → (length p ≤ n)%nat →
  (c = eof ∧ p = []) ∨ (is_byte c = true ∧ (length p < n)%nat) →
  ∃ t lx', scan_number_done nt lx = Ret (t, lx') ∧ left_le n lx'.
Proof.
  intros Hdp (neg & i & fr & ex & Htb & Hi & Hid & Hfr & Hex & Hnt) Hat Hr Hl Hc.
  assert (∃ lx1 p', unget lx = Ret lx1 ∧ lx_at dp ic p' tb lx1 ∧ (length p' ≤ n)%nat) as (lx1 & p' & Eu & Hat' & Hl').
  { destruct Hc as [[-> ->]|[Hb Hlt]].
    - destruct (unget_eof _ _ _ _ Hat Hr) as (lx1 & ? & ?). exists lx1, []. auto with lia.
    - destruct (unget_byte _ _ _ _ _ _ Hat Hr Hb) as (lx1 & ? & ?). exists lx1, (c :: p). simpl. auto with lia. }
  unfold scan_number_done. rewrite Eu. cbn [mbind outcome_bind].
  assert (token_buffer lx1 = tb) as -> by apply Hat'.
  assert (decimal_point_char lx1 = dp) as -> by apply Hat'.
  destruct (c_strtod_full dp neg i fr ex) as (x & Hx); [done..|].
  rewrite <- Htb in Hx.
  assert (∀ i u f, left_le n (set_numbers lx1 i u f)) as Hres.
  { intros. exists p', tb. eauto with verif. }
  destruct Hnt as [(-> & -> & ->)| ->].
  - simpl in Htb. rewrite app_nil_r in Htb. unfold int_type.
    destruct neg; simpl.
    + destruct (c_strtoll_full true i) as (y & b & Hy); [done..|].
      rewrite Htb in *. rewrite Hy, Hx; simpl. destruct b; eauto.
    + destruct (c_strtoull_full i) as (y & b & Hy); [done|].
      simpl in Htb. subst tb. rewrite Hy, Hx; simpl. destruct b; eauto.
  - rewrite Hx; simpl. eauto.
Qed.

Definition num_step_ok (n : nat) (nt : token_type.t) (st : num_step) : Prop :=
  match st with
  | Goto s lx => ∃ m p tb, (m < n)%nat ∧ lx_at dp ic p tb lx ∧ (length p ≤ m)%nat ∧
      num_prefix dp s nt tb
  | Done lx => ∃ p tb c, num_final dp nt tb ∧ lx_at dp ic p tb lx ∧ just_read c lx ∧
      (length p ≤ n)%nat ∧ ((c = eof ∧ p = []) ∨ (is_byte c = true ∧ (length p < n)%nat))
  | Num_error lx => left_le n lx
  end.

Lemma scan_number_step_ok n s nt p tb lx :
  dp_ok dp = true → num_prefix dp s nt tb → lx_at dp ic p tb lx → (length p ≤ n)%nat →
  num_step_ok n (number_type_at s nt) (scan_number_step s lx).
Proof.
  intros Hdp Hpre Hat Hl. unfold scan_number_step.
  destruct (get_any _ _ _ _ _ Hat) as (c & lx' & -> & Hr & Hat' & Hc).
  pose proof (num_prefix_final _ _ _ _ Hpre) as Hfin.
  pose proof (num_prefix_step _ _ _ _ c Hpre) as Hstep.
  assert (length (tail p) ≤ n)%nat as Hl' by (destruct p; simpl in *; lia).
  assert (∀ msg, num_step_ok n (number_type_at s nt) (num_fail msg lx')) as Hfail.
  { intros. apply left_le_error. by exists (tail p), tb. }
  assert (num_final dp (number_type_at s nt) tb →
          num_step_ok n (number_type_at s nt) (Done lx')) as Hdone.
  { intros. exists (tail p), tb, c. do 4 (split; [done|]).
    destruct Hc as [[-> ->]|[? Hp]]; [by left|]. right. split; [done|].
    rewrite Hp in Hl. simpl in Hl. lia. }
  assert (∀ s', c ≠ eof → num_prefix dp s' (number_type_at s nt) (tb ++ [c]) →
          num_step_ok n (number_type_at s nt) (Goto s' (add lx' c))) as Hgo.
  { intros s' Hne Hs'. destruct Hc as [[]|[Hb Hp]]; [done|].
    exists (length (tail p)), (tail p), (tb ++ [c]).
    split; [rewrite Hp in Hl; simpl in Hl; lia|]. by split; [apply add_at_byte|]. }
  assert (c ≠ eof → num_prefix dp scan_number_decimal1 (number_type_at s nt) (tb ++ [dp]) →
          num_step_ok n (number_type_at s nt)
            (Goto scan_number_decimal1 (add_decimal_point lx'))) as Hpt.
  { intros Hne Hs'. destruct Hc as [[]|[Hb Hp]]; [done|].
    exists (length (tail p)), (tail p), (tb ++ [dp]).
    split; [rewrite Hp in Hl; simpl in Hl; lia|].
    split; [apply add_decimal_point_at; [|done]; unfold dp_ok in Hdp; by to_prop|done]. }
  clear Hc Hat Hat' Hr Hl Hl' Hpre.
  destruct s; cbn [number_type_at] in *; destruct_and?; repeat case_if; auto;
    first [apply Hgo | apply Hpt];
    try solve [unfold is_digit, eof in *; zify_bool; destruct_or?; lia];
    auto; match goal with H : _ → num_prefix _ _ _ _ |- _ => apply H | H : ∀ _, _ |- _ => apply H end;
    unfold is_digit in *; zify_bool; auto; lia.
Qed.

Lemma scan_number_loop_total fuel n s nt p tb lx :
  dp_ok dp = true → num_prefix dp s nt tb → lx_at dp ic p tb lx → (length p ≤ n)%nat →
  (n < fuel)%nat →
  ∃ t lx', scan_number_loop fuel s nt lx = Ret (t, lx') ∧ left_le n lx'.
Proof.
  intros Hdp. revert n s nt p tb lx.
  induction fuel as [|fuel IH]; intros n s nt p tb lx Hpre Hat Hl Hf; [lia|]. simpl.
  pose proof (scan_number_step_ok n s nt p tb lx Hdp Hpre Hat Hl) as Hok.
  destruct (scan_number_step s lx) as [s' lx'|lx'|lx']; simpl in Hok; [| |eauto].
  - destruct Hok as (m & p' & tb' & Hm & Hat' & Hl' & Hpre').
    destruct (IH m s' (number_type_at s nt) p' tb' lx') as (t & lx'' & ? & ?); [done..|lia|].
    exists t, lx''. split; [done|]. eapply left_le_weaken; [done|lia].
  - destruct Hok as (p' & tb' & c & Hfin & Hat' & Hr & Hl' & Hc).
    eapply scan_number_done_total; eauto.
Qed.

Lemma scan_number_total n c lx :
  dp_ok dp = true → left_le n lx → just_read c lx → (c =? 45) || is_digit c = true →
  ∃ t lx', scan_number lx = Ret (t, lx') ∧ left_le n lx'.
Proof.
  intros Hdp (p & tb & Hat & Hl) [Hu Hc] Hd. unfold scan_number.
  change (current (reset lx)) with (current lx). rewrite Hc.
  assert (lx_at dp ic p [] (reset lx)) as Hat0 by eauto with verif.
  assert (input_fuel (reset lx) = S (length p)) as ->.
  { unfold input_fuel. destruct Hat0 as (_ & _ & _ & -> & _). done. }
  assert (is_byte c = true) as Hb.
  { unfold is_digit in Hd. unfold is_byte. zify_bool. destruct Hd; zify_bool; lia. }
  pose proof (add_at_byte _ _ _ _ c _ Hb Hat0) as Hat1. simpl in Hat1.
  assert (∀ s, num_prefix dp s token_type.value_unsigned [c] →
    ∃ t lx', scan_number_loop (S (length p)) s token_type.value_unsigned (add (reset lx) c)
             = Ret (t, lx') ∧ left_le n lx') as Hloop.
  { intros s Hs.
    destruct (scan_number_loop_total (S (length p)) (length p) s token_type.value_unsigned
      p [c] (add (reset lx) c)) as (t & lx' & ? & ?); [done..|lia|].
    exists t, lx'. split; [done|]. by eapply left_le_weaken. }
  case_if; [|case_if; [|case_if]].
  - apply Hloop. apply Z.eqb_eq in Heqb as ->. constructor.
  - apply Hloop. apply Z.eqb_eq in Heqb0 as ->. apply (np_zero dp false).
  - apply Hloop. apply (np_any1 dp false [c]); [done|]. simpl.
    unfold is_digit. zify_bool. by decide_test (48 <=? c) true; decide_test (c <=? 57) true.
  - unfold is_digit in Hd. zify_bool. destruct_or?; zify_bool; lia.
Qed.

Lemma scan_literal_loop_total rest rt n lx :
  left_le n lx → ∃ t lx', scan_literal_loop rest rt lx = (t, lx') ∧ left_le n lx'.
Proof.
  revert n lx. induction rest as [|l rest IH]; intros n lx H; simpl; [eauto|].
  read_next. case_if.
  - do 2 eexists; split; [done|]. apply left_le_error. eapply left_le_weaken; [done|lia].
  - edestruct IH as (t & ? & -> & ?); [eassumption|].
    do 2 eexists; split; [done|]. eapply left_le_weaken; [done|lia].
Qed.

Lemma skip_whitespace_loop_total fuel n lx :
  left_le n lx → (n < fuel)%nat →
  ∃ lx' c, skip_whitespace_loop fuel lx = Ret lx' ∧ just_read c lx' ∧ left_le (pred n) lx' ∧
    (c = eof ∨ (is_byte c = true ∧ (0 < n)%nat)).
Proof.
  revert n lx. induction fuel as [|fuel IH]; intros n lx H Hn; [lia|]. simpl.
  read_next. case_if; [|naive_solver].
  match goal with H : _ ∨ _ |- _ => destruct H as [->|[Hb Hpos]]; [done|] end.
  edestruct (IH (pred n)) as (lx' & c' & ? & ? & ? & Hc'); [eassumption|lia|].
  exists lx', c'. split; [done|]. split; [done|].
  split; [eapply left_le_weaken; [done|lia]|]. destruct Hc' as [|[]]; [by left|].
  right. split; [done|lia].
Qed.

Lemma skip_whitespace_total n lx :
  left_le n lx →
  ∃ lx' c, skip_whitespace lx = Ret lx' ∧ just_read c lx' ∧ left_le (pred n) lx' ∧
    (c = eof ∨ (is_byte c = true ∧ (0 < n)%nat)).
Proof.
  intros H. unfold skip_whitespace.
  destruct (skip_whitespace_loop_total (input_fuel lx) (pred (input_fuel lx)) lx)
    as (lx' & c & ? & ? & ? & Hc); [by eapply input_fuel_left|unfold input_fuel; lia|].
  pose proof (left_le_pending _ _ H) as Hp. unfold input_fuel in *. simpl in *.
  exists lx', c. split; [done|]. split; [done|].
  split; [eapply left_le_weaken; [done|lia]|]. destruct Hc as [|[]]; [by left|].
  right. split; [done|lia].
Qed.

Lemma skip_comments_total fuel n c lx :
  left_le n lx → just_read c lx → (c = eof ∨ is_byte c = true) → (n < fuel)%nat →
  ∃ b lx' c', skip_comments fuel lx = Ret (b, lx') ∧ left_le n lx' ∧
    (b = true → just_read c' lx' ∧ (c' = eof ∨ is_byte c' = true)).
Proof.
  revert n c lx. induction fuel as [|fuel IH]; intros n c lx H Hr Hc Hn; [lia|]. simpl.
  case_if; [|by exists true, lx, c].
  destruct (scan_comment_total n lx H) as (b & lx1 & -> & H1 & Hb); simpl.
  destruct b; [|by exists false, lx1, c]. destruct Hb as [H1' Hpos]; [done|].
  destruct (skip_whitespace_total _ lx1 H1') as (lx2 & c2 & -> & Hr2 & H2 & Hc2); simpl.
  destruct (IH (pred (pred n)) c2 lx2) as (b & lx' & c' & ? & ? & ?);
    [done..|naive_solver|lia|].
  exists b, lx', c'. split; [done|]. split; [|done]. eapply left_le_weaken; [done|lia].
Qed.

Lemma scan_literal_total lit l rt n lx :
  head (str lit) = Some l → is_byte l = true → left_le n lx → current lx = l →
  ∃ t lx', scan_literal lit rt lx = Ret (t, lx') ∧ left_le n lx'.
Proof.
  unfold scan_literal. destruct (str lit) as [|l' rest]; [done|]. intros [= ->] Hb H ->.
  unfold to_char_type. rewrite wrap_byte, Z.eqb_refl by done. simpl.
  edestruct scan_literal_loop_total as (t & ? & -> & ?); eauto.
Qed.

Lemma scan_token_total n c lx :
  dp_ok dp = true → left_le n lx → just_read c lx → (c = eof ∨ is_byte c = true) →
  ∃ t lx', scan_token lx = Ret (t, lx') ∧ left_le n lx' ∧
    (c = eof → t = token_type.end_of_input).
Proof.
  intros Hdp H Hr Hb. pose proof Hr as [Hu Hc]. unfold scan_token. rewrite Hc.
  assert (∀ o : lex_result, (∃ t lx', o = Ret (t, lx') ∧ left_le n lx') → c ≠ eof →
    ∃ t lx', o = Ret (t, lx') ∧ left_le n lx' ∧ (c = eof → t = token_type.end_of_input))
    as Hwrap by naive_solver.
  do 6 (case_if; [apply Hwrap; [eauto|intros ->; done]|]).
  do 3 (case_if; [apply Hwrap; [|intros ->; done];
    eapply scan_literal_total; [reflexivity|done..|];
    match goal with E : (c =? _) = true |- _ => apply Z.eqb_eq in E; by rewrite Hc, E end|]).
  case_if; [apply Hwrap; [|intros ->; done]; apply scan_string_total; [done|]; to_prop; by subst|].
  case_if; [apply Hwrap; [|intros ->; done]; by eapply scan_number_total|].
  case_if; [naive_solver|]. apply Hwrap; [|intros ->; done].
  eauto using left_le_error.
Qed.

(** The scanner is total: it returns a token, and only the end of the input or
    an error does not use up any of it. *)
Lemma scan_total n lx :
  dp_ok dp = true → left_le n lx →
  ∃ t lx', scan lx = Ret (t, lx') ∧ left_le n lx' ∧
    (t = token_type.end_of_input ∨ t = token_type.parse_error ∨
     ((0 < n)%nat ∧ left_le (pred n) lx')).
Proof.
  intros Hdp H. unfold scan.
  assert (∃ b lx1, (if (chars_read_total (position lx) =? 0)%nat then skip_bom lx else Ret (true, lx))
            = Ret (b, lx1) ∧ left_le n lx1) as (b & lx1 & -> & H1).
  { case_if; [|eauto]. unfold skip_bom. destruct H as (p & tb & Hat & Hl).
    destruct (get_any _ _ _ _ _ Hat) as (c & lx1 & -> & Hr1 & Hat1 & Hc1).
    assert (length (tail p) ≤ n)%nat by (destruct p; simpl in *; lia).
    case_if.
    - edestruct left_le_get as (c2 & lx2 & -> & ? & ? & ?); [by exists (tail p), tb|].
      case_if; [read_next|]; do 2 eexists; (split; [done|]); eapply left_le_weaken; done || lia.
    - assert (∃ lx2, unget lx1 = Ret lx2 ∧ lx_at dp ic p tb lx2) as (lx2 & -> & Hat2).
      { destruct Hc1 as [[-> ->]|[Hb Hp]]; [by apply unget_eof|]. rewrite Hp. by apply unget_byte. }
      do 2 eexists. split; [done|]. by exists p, tb. }
  cbn [mbind outcome_bind]. destruct b; cbn [negb].
  2:{ do 2 eexists. split; [done|]. split; [by apply left_le_error|auto]. }
  destruct (skip_whitespace_total n lx1 H1) as (lx2 & c2 & -> & Hr2 & H2 & Hc2);
    cbn [mbind outcome_bind].
  destruct Hc2 as [->|[Hb2 Hpos]].
  { assert (skip_comments (input_fuel lx2) lx2 = Ret (true, lx2)) as ->.
    { unfold input_fuel. simpl. destruct Hr2 as [_ ->]. by rewrite andb_false_r. }
    simpl. destruct (scan_token_total (pred n) eof lx2) as (t & lx4 & -> & H4 & Heof); auto.
    exists t, lx4. split; [done|]. split; [eapply left_le_weaken; [done|lia]|auto]. }
  destruct (skip_comments_total (input_fuel lx2) (pred (input_fuel lx2)) c2 lx2)
    as (b & lx3 & c3 & -> & H3 & Hb); [by eapply input_fuel_left|auto..
    |unfold input_fuel; lia|]. simpl.
  pose proof (left_le_pending _ _ H2) as Hp.
  assert (left_le (pred n) lx3) as H3' by (eapply left_le_weaken; [done|lia]).
  destruct b; [|do 2 eexists; split; [done|]; split; [eapply left_le_weaken; [done|lia]|auto]].
  destruct Hb as [Hr3 Hc3]; [done|].
  destruct (scan_token_total (pred n) c3 lx3 Hdp H3' Hr3 Hc3) as (t & lx4 & -> & H4 & Heof).
  exists t, lx4. split; [done|]. split; [eapply left_le_weaken; [done|lia]|auto].
Qed.
End total.
