(* ===== verification/JsonTokens.v ===== *)
(** What the scanner of [JsonLexer] makes of well-formed text: white space,
    structural characters, literals, strings with their escapes, and integers.
    These are the facts about the lexer the parser's theorems rest on. *)

From S2P Require Import Prelude Utf8 JsonValue JsonLexer JsonLexerFacts.

(** * Code points and their bytes *)

(** A Unicode scalar value. *)
Definition scalar (cp : Z) : bool :=
  in_range 0 0x10FFFF cp && negb (in_range 0xD800 0xDFFF cp).

Ltac div_mod :=
  Z.to_euclidean_division_equations.

(** The lexer's translation of a code point is its UTF-8 form. *)
Lemma codepoint_bytes_group cp :
  scalar cp = true →
  utf8_group (codepoint_bytes cp) = true ∧ group_codepoint (codepoint_bytes cp) = cp.
Proof.
  unfold scalar, codepoint_bytes. intros H. zify_bool.
  rewrite !land_3F, !shiftr_div by lia.
  repeat case_if; to_prop.
  - simpl. utf8_unfold. lia.
  - rewrite lor_C0, lor_80 by (div_mod; lia). simpl. utf8_unfold. div_mod; lia.
  - rewrite lor_E0, !lor_80 by (div_mod; lia). simpl. utf8_unfold.
    split; [|div_mod; lia]. destruct H0; to_prop; div_mod; lia.
  - rewrite lor_F0, !lor_80 by (div_mod; lia). simpl. utf8_unfold. div_mod; lia.
Qed.

Lemma group_codepoint_scalar g : utf8_group g = true → scalar (group_codepoint g) = true.
Proof.
  destruct g as [|b0 [|b1 [|b2 [|b3 [|]]]]]; simpl; try done; unfold scalar; utf8_unfold; lia.
Qed.

Lemma group_codepoint_bytes g :
  utf8_group g = true → codepoint_bytes (group_codepoint g) = g.
Proof.
  destruct g as [|b0 [|b1 [|b2 [|b3 [|]]]]]; simpl; try done; intros H;
    unfold codepoint_bytes; rewrite ?land_3F, ?shiftr_div by lia.
  - utf8_unfold. by decide_test (b0 <? 128) true.
  - utf8_unfold. decide_test ((b0 - 192) * 64 + (b1 - 128) <? 128) false.
    decide_test ((b0 - 192) * 64 + (b1 - 128) <=? 2047) true.
    rewrite lor_C0, lor_80 by (div_mod; lia). repeat f_equal; div_mod; lia.
  - utf8_unfold. set (cp := _ + (b2 - 128)).
    assert (2047 < cp ≤ 65535) by lia.
    decide_test (cp <? 128) false. decide_test (cp <=? 2047) false.
    decide_test (cp <=? 65535) true.
    rewrite lor_E0, !lor_80 by (div_mod; lia). subst cp. repeat f_equal; div_mod; lia.
  - utf8_unfold. set (cp := _ + (b3 - 128)).
    assert (65535 < cp ≤ 1114111) by lia.
    decide_test (cp <? 128) false. decide_test (cp <=? 2047) false.
    decide_test (cp <=? 65535) false.
    rewrite lor_F0, !lor_80 by (div_mod; lia). subst cp. repeat f_equal; div_mod; lia.
Qed.

(** * Strings *)

Definition simple_escapes : list (Z * Z) :=
  [(34, 34); (92, 92); (47, 47); (98, 8); (102, 12); (110, 10); (114, 13); (116, 9)].

(** The four digits of an escape, most significant first. *)
Definition hex4 (h : cstring) (cp : Z) : Prop :=
  ∃ h1 h2 h3 h4 d1 d2 d3 d4, h = [h1; h2; h3; h4] ∧
    hex_digit h1 = Some d1 ∧ hex_digit h2 = Some d2 ∧
    hex_digit h3 = Some d3 ∧ hex_digit h4 = Some d4 ∧
    cp = d1 * 4096 + d2 * 256 + d3 * 16 + d4.

(** [esc_unit u s]: the text [u] inside quotes stands for the bytes [s]. *)
Inductive esc_unit : cstring → cstring → Prop :=
| esc_plain c : in_range 0x20 0x7F c = true → c ≠ 34 → c ≠ 92 → esc_unit [c] [c]
| esc_simple e x : In (e, x) simple_escapes → esc_unit [92; e] [x]
| esc_u h cp : hex4 h cp → scalar cp = true → esc_unit (92 :: 117 :: h) (codepoint_bytes cp)
| esc_pair h1 h2 c1 c2 : hex4 h1 c1 → hex4 h2 c2 →
    in_range 0xD800 0xDBFF c1 = true → in_range 0xDC00 0xDFFF c2 = true →
    esc_unit (92 :: 117 :: h1 ++ 92 :: 117 :: h2)
      (codepoint_bytes (0x10000 + (c1 - 0xD800) * 0x400 + (c2 - 0xDC00)))
| esc_group g : utf8_group g = true → (1 < length g)%nat → esc_unit g g.

Inductive escapes : cstring → cstring → Prop :=
| escapes_nil : escapes [] []
| escapes_app u s t s' : esc_unit u s → escapes t s' → escapes (u ++ t) (s ++ s').

Section tokens.
  Context (dp : Z) (ic : bool).

Lemma add_all_at p tb cs lx :
  forallb is_byte cs = true → lx_at dp ic p tb lx → lx_at dp ic p (tb ++ cs) (add_all lx cs).
Proof.
  revert tb lx. induction cs as [|c cs IH]; intros tb lx Hb Hat; simpl.
  - by rewrite app_nil_r.
  - simpl in Hb. to_prop. replace (tb ++ c :: cs) with ((tb ++ [c]) ++ cs)
      by (by rewrite <- app_assoc). apply IH; [done|]. by apply add_at_byte.
Qed.

(** Reads the next known character. *)
Ltac read_char :=
  let lx := fresh "lx" in let Hr := fresh "Hr" in let Hat := fresh "Hat" in
  edestruct get_cons as (lx & -> & Hat & Hr); [eassumption|].

Lemma get_codepoint_hex4 h cp p tb lx :
  hex4 h cp → lx_at dp ic (h ++ p) tb lx → just_read 117 lx →
  ∃ lx', get_codepoint lx = Ret (cp, lx') ∧ lx_at dp ic p tb lx'.
Proof.
  intros (h1 & h2 & h3 & h4 & d1 & d2 & d3 & d4 & -> & H1 & H2 & H3 & H4 & ->) Hat [_ Hc].
  unfold get_codepoint. rewrite Hc; simpl in *.
  read_char. rewrite H1. read_char. rewrite H2. read_char. rewrite H3. read_char. rewrite H4.
  apply hex_digit_bound in H1, H2, H3, H4. rewrite !Z.shiftl_mul_pow2 by lia.
  unfold assert. case_if; [|zify_bool; lia]. eexists; split; [|eassumption]. do 3 f_equal. lia.
Qed.

Lemma hex4_range h cp : hex4 h cp → 0 ≤ cp ≤ 0xFFFF.
Proof.
  intros (h1 & h2 & h3 & h4 & d1 & d2 & d3 & d4 & -> & H1 & H2 & H3 & H4 & ->).
  apply hex_digit_bound in H1, H2, H3, H4. lia.
Qed.

Lemma codepoint_bytes_bytes cp : scalar cp = true → forallb is_byte (codepoint_bytes cp) = true.
Proof. intros H. by apply utf8_group_bytes, codepoint_bytes_group. Qed.

Lemma next_byte_loop_ok rs rest p tb lx :
  Forall2 (λ r b, in_range r.1 r.2 b = true) rs rest → forallb is_byte rest = true →
  lx_at dp ic (rest ++ p) tb lx →
  ∃ lx', next_byte_loop rs lx = (true, lx') ∧ lx_at dp ic p (tb ++ rest) lx'.
Proof.
  intros HF. revert tb lx.
  induction HF as [|[lo hi] b rs rest Hb HF IH]; intros tb lx Hbs Hat; simpl in *.
  - rewrite app_nil_r. eauto.
  - to_prop. read_char. rewrite Hb.
    destruct (IH (tb ++ [b]) (add lx0 b)) as (lx' & ? & ?); [done|by apply add_at_byte|].
    exists lx'. split; [done|]. by rewrite <- app_assoc in *.
Qed.

(** The ranges of the lexer's switch are those of the Unicode table. *)
Lemma lead_ranges_group b0 rest :
  utf8_group (b0 :: rest) = true → rest ≠ [] →
  ∃ rs, lead_ranges b0 = Some rs ∧ Forall2 (λ r b, in_range r.1 r.2 b = true) rs rest.
Proof.
  intros Hg Hne. unfold lead_ranges.
  destruct rest as [|b1 [|b2 [|b3 [|]]]]; try done; simpl in Hg; utf8_unfold;
    repeat case_if; first [by (exfalso; zify_bool; destruct_or?; zify_bool; lia) |
      eexists; split; [done|]; repeat constructor; simpl; lia | exfalso; lia].
Qed.

Lemma next_byte_group b0 rest p tb lx :
  utf8_group (b0 :: rest) = true → rest ≠ [] → just_read b0 lx →
  lx_at dp ic (rest ++ p) tb lx →
  ∃ lx', scan_multibyte lx = Ret (Go lx') ∧ lx_at dp ic p (tb ++ b0 :: rest) lx'.
Proof.
  intros Hg Hne [Hu Hc] Hat. unfold scan_multibyte. rewrite Hc.
  pose proof (utf8_group_bytes _ Hg) as Hb. simpl in Hb. to_prop.
  destruct (lead_ranges_group _ _ Hg Hne) as (rs & El & HF). rewrite El, (next_byte_in_range_lead _ _ _ El), Hc.
  cbn [mbind outcome_bind].
  destruct (next_byte_loop_ok rs rest p (tb ++ [b0]) (add lx b0)) as (lx' & -> & ?);
    [done..|by apply add_at_byte|].
  exists lx'. split; [done|]. by rewrite <- app_assoc in *.
Qed.

Lemma esc_simple_byte e x :
  In (e, x) simple_escapes → is_byte x = true ∧ ∀ lx, 
    get lx = (e, (get lx).2) → scan_escape lx = Ret (Go (add (get lx).2 x)).
Proof.
  intros H. simpl in H.
  repeat destruct H as [[= <- <-]|H]; try done;
    (split; [done|]; intros lx Hg; unfold scan_escape; by rewrite Hg).
Qed.

Lemma scan_unicode_escape_scalar h cp p tb lx :
  hex4 h cp → scalar cp = true → lx_at dp ic (h ++ p) tb lx → just_read 117 lx →
  ∃ lx', scan_unicode_escape lx = Ret (Go lx') ∧ lx_at dp ic p (tb ++ codepoint_bytes cp) lx'.
Proof.
  intros Hh Hs Hat Hr. unfold scan_unicode_escape.
  destruct (get_codepoint_hex4 _ _ _ _ _ Hh Hat Hr) as (lx' & -> & Hat'); simpl.
  pose proof (codepoint_bytes_bytes _ Hs). pose proof (hex4_range _ _ Hh).
  unfold scalar, in_range in *. decide_test (cp =? -1) false.
  decide_test ((55296 <=? cp) && (cp <=? 56319)) false.
  decide_test ((56320 <=? cp) && (cp <=? 57343)) false.
  unfold assert. decide_test ((0 <=? cp) && (cp <=? 1114111)) true.
  eexists; split; [done|]. by apply add_all_at.
Qed.

Lemma scan_unicode_escape_pair h1 h2 c1 c2 p tb lx :
  hex4 h1 c1 → hex4 h2 c2 →
  in_range 0xD800 0xDBFF c1 = true → in_range 0xDC00 0xDFFF c2 = true →
  lx_at dp ic (h1 ++ 92 :: 117 :: h2 ++ p) tb lx → just_read 117 lx →
  ∃ lx', scan_unicode_escape lx = Ret (Go lx') ∧
    lx_at dp ic p
      (tb ++ codepoint_bytes (0x10000 + (c1 - 0xD800) * 0x400 + (c2 - 0xDC00))) lx'.
Proof.
  intros Hh1 Hh2 Hc1 Hc2 Hat Hr. unfold scan_unicode_escape.
  destruct (get_codepoint_hex4 _ _ _ _ _ Hh1 Hat Hr) as (lx1 & -> & Hat1); simpl.
  decide_test (c1 =? -1) false; [zify_bool; lia|]. rewrite Hc1.
  read_char. simpl. read_char. simpl.
  destruct (get_codepoint_hex4 h2 c2 p tb lx2) as (lx3 & -> & Hat3); [done..|]. simpl.
  decide_test (c2 =? -1) false; [zify_bool; lia|]. rewrite Hc2.
  rewrite surrogate_codepoint by done. unfold assert.
  match goal with |- context [in_range 0 1114111 ?cp] => set (cp' := cp) end.
  assert (scalar cp' = true) as Hs by (subst cp'; unfold scalar; zify_bool; lia).
  decide_test (in_range 0 1114111 cp') true; [unfold scalar in Hs; by to_prop|].
  eexists; split; [done|]. apply add_all_at; [by apply codepoint_bytes_bytes|done].
Qed.

(** One round of the string loop consumes one unit. *)
Lemma scan_string_step_unit u s p tb lx :
  esc_unit u s → lx_at dp ic (u ++ p) tb lx →
  ∃ lx', scan_string_step lx = Ret (Go lx') ∧ lx_at dp ic p (tb ++ s) lx'.
Proof.
  intros Hu Hat. unfold scan_string_step.
  destruct Hu as [c Hc H34 H92|e x Hin|h cp Hh Hs|h1 h2 c1 c2 Hh1 Hh2 Hc1 Hc2|g Hg Hl]; simpl in Hat.
  - read_char. unfold eof. unfold in_range in *.
    decide_test (c =? -1) false. decide_test (c =? 34) false. decide_test (c =? 92) false.
    decide_test ((0 <=? c) && (c <=? 31)) false. rewrite Hc.
    eexists; split; [done|]. apply add_at_byte; [unfold is_byte; lia|done].
  - read_char. simpl. destruct (esc_simple_byte e x Hin) as [Hb Hse].
    edestruct get_cons as (lx1 & Hg & Hat1 & Hr1); [exact Hat0|].
    rewrite Hse by (by rewrite Hg). rewrite Hg; simpl.
    eexists; split; [done|]. by apply add_at_byte.
  - read_char. simpl. unfold scan_escape. read_char. simpl.
    by eapply scan_unicode_escape_scalar.
  - read_char. simpl. unfold scan_escape. read_char. simpl.
    rewrite <- app_assoc in *. by eapply scan_unicode_escape_pair.
  - destruct g as [|b0 rest]; [done|]. destruct rest as [|b1 rest]; [simpl in Hl; lia|].
    change ((b0 :: b1 :: rest) ++ p) with (b0 :: (b1 :: rest) ++ p) in Hat.
    read_char. unfold eof.
    assert (194 ≤ b0) as Hb0.
    { destruct rest as [|b2 [|b3 [|]]]; simpl in Hg; try done; utf8_unfold; lia. }
    unfold in_range. decide_test (b0 =? -1) false. decide_test (b0 =? 34) false.
    decide_test (b0 =? 92) false. decide_test ((0 <=? b0) && (b0 <=? 31)) false.
    decide_test ((32 <=? b0) && (b0 <=? 127)) false.
    destruct (next_byte_group b0 (b1 :: rest) p tb lx0) as (lx' & -> & ?); [done..|].
    eauto.
Qed.

Lemma esc_unit_nonempty u s : esc_unit u s → (0 < length u)%nat.
Proof. destruct 1; simpl; lia. Qed.

Lemma scan_string_loop_ok fuel t s p tb lx :
  escapes t s → lx_at dp ic (t ++ 34 :: p) tb lx → (length t < fuel)%nat →
  ∃ lx', loop fuel scan_string_step lx = Ret (token_type.value_string, lx') ∧
    lx_at dp ic p (tb ++ s) lx'.
Proof.
  intros He. revert fuel tb lx.
  induction He as [|u s t s' Hu He IH]; intros fuel tb lx Hat Hf;
    (destruct fuel as [|fuel]; [lia|]); simpl.
  - simpl in Hat. unfold scan_string_step. read_char. simpl. rewrite app_nil_r. eauto.
  - rewrite <- app_assoc in Hat. rewrite length_app in Hf.
    pose proof (esc_unit_nonempty _ _ Hu).
    destruct (scan_string_step_unit _ _ _ _ _ Hu Hat) as (lx1 & -> & Hat1); simpl.
    destruct (IH fuel _ _ Hat1) as (lx' & ? & ?); [lia|].
    exists lx'. split; [done|]. by rewrite app_assoc.
Qed.

(** A quoted text scans into the string it stands for. *)
Lemma scan_string_ok t s p tb lx :
  escapes t s → lx_at dp ic (t ++ 34 :: p) tb lx → just_read 34 lx →
  ∃ lx', scan_string lx = Ret (token_type.value_string, lx') ∧ lx_at dp ic p s lx'.
Proof.
  intros He Hat [Hu Hc]. unfold scan_string. change (current (reset lx)) with (current lx).
  rewrite Hc. change (34 =? 34) with true. unfold assert. apply reset_at in Hat.
  apply (scan_string_loop_ok _ t s p []); [done..|].
  destruct Hat as (_ & _ & _ & Hp & _). unfold input_fuel.
  change (pending (reset lx)) with (pending lx) in Hp |- *. rewrite Hp, length_app. lia.
Qed.

(** * Reaching a token *)

(** White space before a character is skipped, and the switch of [scan] is
    entered with that character. *)
Lemma skip_whitespace_ok ws c p tb lx :
  forallb is_space ws = true → is_space c = false →
  lx_at dp ic (ws ++ c :: p) tb lx →
  ∃ lx', skip_whitespace lx = Ret lx' ∧ lx_at dp ic p tb lx' ∧ just_read c lx'.
Proof.
  intros Hws Hc Hat. unfold skip_whitespace.
  assert (length ws < input_fuel lx)%nat as Hf.
  { unfold input_fuel. destruct Hat as (_ & _ & _ & -> & _). rewrite length_app. lia. }
  revert Hf. generalize (input_fuel lx) as fuel. intros fuel. revert fuel lx Hat Hws.
  induction ws as [|w ws IH]; intros fuel lx Hat Hws Hf;
    (destruct fuel as [|fuel]; [simpl in Hf; lia|]); simpl in *.
  - read_char. rewrite Hc. eauto.
  - to_prop. read_char. rewrite H. apply IH; auto. lia.
Qed.

Lemma scan_to_token ws c p tb lx :
  forallb is_space ws = true → is_space c = false → c ≠ 47 → c ≠ 0xEF →
  lx_at dp ic (ws ++ c :: p) tb lx →
  ∃ lx', scan lx = scan_token lx' ∧ lx_at dp ic p tb lx' ∧ just_read c lx'.
Proof.
  intros Hws Hc H47 HEF Hat. unfold scan.
  assert (∃ lx1, (if (chars_read_total (position lx) =? 0)%nat then skip_bom lx else Ret (true, lx))
            = Ret (true, lx1) ∧ lx_at dp ic (ws ++ c :: p) tb lx1) as (lx1 & -> & Hat1).
  { case_if; [|eauto]. unfold skip_bom.
    assert (∃ w p', ws ++ c :: p = w :: p' ∧ w ≠ 0xEF) as (w & p' & Hw & Hne).
    { destruct ws as [|w ws]; [by exists c, p|]. exists w, (ws ++ c :: p).
      split; [done|]. simpl in Hws. to_prop. unfold is_space in H. intros ->. done. }
    rewrite Hw in *. pose proof (lx_at_cons_byte _ _ _ _ _ _ Hat).
    read_char. apply Z.eqb_neq in Hne. rewrite Hne.
    destruct (unget_byte _ _ _ _ _ _ Hat0 Hr) as (lx2 & -> & Hat2); [done|]. by exists lx2. }
  cbn [mbind outcome_bind negb].
  destruct (skip_whitespace_ok ws c p tb lx1) as (lx2 & -> & Hat2 & Hr2); [done..|].
  cbn [mbind outcome_bind].
  assert (skip_comments (input_fuel lx2) lx2 = Ret (true, lx2)) as ->.
  { unfold input_fuel. simpl. destruct Hr2 as [_ ->]. apply Z.eqb_neq in H47.
    by rewrite H47, andb_false_r. }
  simpl. eauto.
Qed.

(** At the end of the input. *)
Lemma scan_to_end ws tb lx :
  forallb is_space ws = true → lx_at dp ic ws tb lx →
  ∃ lx', scan lx = Ret (token_type.end_of_input, lx').
Proof.
  intros Hws Hat.
  assert (∀ fuel lx, lx_at dp ic ws tb lx → (length ws < fuel)%nat →
    ∃ lx', skip_whitespace_loop fuel lx = Ret lx' ∧ just_read eof lx') as Hskip.
  { clear Hat. induction ws as [|w ws IH]; intros fuel lx1 Hat Hf;
      (destruct fuel as [|fuel]; [simpl in Hf; lia|]); simpl in *.
    - destruct (get_nil _ _ _ _ Hat) as (lx2 & -> & _ & Hr). simpl. eauto.
    - to_prop. read_char. rewrite H. apply IH; auto. lia. }
  unfold scan.
  assert (∃ lx1, (if (chars_read_total (position lx) =? 0)%nat then skip_bom lx else Ret (true, lx))
            = Ret (true, lx1) ∧ lx_at dp ic ws tb lx1) as (lx1 & -> & Hat1).
  { case_if; [|eauto]. unfold skip_bom. destruct ws as [|w ws].
    - destruct (get_nil _ _ _ _ Hat) as (lx1 & -> & Hat1 & Hr). simpl.
      destruct (unget_eof _ _ _ _ Hat1 Hr) as (lx2 & -> & Hat2). by exists lx2.
    - pose proof (lx_at_cons_byte _ _ _ _ _ _ Hat). read_char.
      simpl in Hws. to_prop. decide_test (w =? 0xEF) false; [unfold is_space in *; lia|].
      destruct (unget_byte _ _ _ _ _ _ Hat0 Hr) as (lx2 & -> & Hat2); [done|]. by exists lx2. }
  cbn [mbind outcome_bind negb]. unfold skip_whitespace.
  destruct (Hskip (input_fuel lx1) lx1 Hat1) as (lx2 & -> & [_ Hc]).
  { unfold input_fuel. destruct Hat1 as (_ & _ & _ & -> & _). lia. }
  cbn [mbind outcome_bind].
  assert (skip_comments (input_fuel lx2) lx2 = Ret (true, lx2)) as ->.
  { unfold input_fuel. simpl. by rewrite Hc, andb_false_r. }
  simpl. unfold scan_token. rewrite Hc. simpl. eauto.
Qed.

(** * Literals *)

Lemma scan_literal_loop_ok rest rt p tb lx :
  lx_at dp ic (rest ++ p) tb lx →
  ∃ lx', scan_literal_loop rest rt lx = (rt, lx') ∧ lx_at dp ic p tb lx'.
Proof.
  revert lx. induction rest as [|l rest IH]; intros lx Hat; simpl in *; [eauto|].
  pose proof (lx_at_cons_byte _ _ _ _ _ _ Hat). read_char.
  unfold to_char_type. rewrite wrap_byte, Z.eqb_refl by done. simpl. by apply IH.
Qed.

Lemma scan_literal_ok lit l rest rt p tb lx :
  str lit = l :: rest → is_byte l = true →
  lx_at dp ic (rest ++ p) tb lx → just_read l lx →
  ∃ lx', scan_literal lit rt lx = Ret (rt, lx') ∧ lx_at dp ic p tb lx'.
Proof.
  intros Hl Hb Hat [_ Hc]. unfold scan_literal. rewrite Hl, Hc.
  unfold to_char_type. rewrite wrap_byte, Z.eqb_refl by done. simpl.
  destruct (scan_literal_loop_ok rest rt p tb lx Hat) as (lx' & -> & ?). eauto.
Qed.
End tokens.

(** * Numbers *)

(** The transition table of [scan_number] on the character read. *)
Definition num_next (s : num_state) (c : Z) : option num_state :=
  match s with
  | scan_number_minus =>
      if c =? 48 then Some scan_number_zero
      else if in_range 49 57 c then Some scan_number_any1 else None
  | scan_number_zero =>
      if c =? 46 then Some scan_number_decimal1
      else if (c =? 101) || (c =? 69) then Some scan_number_exponent else None
  | scan_number_any1 =>
      if is_digit c then Some scan_number_any1
      else if c =? 46 then Some scan_number_decimal1
      else if (c =? 101) || (c =? 69) then Some scan_number_exponent else None
  | scan_number_decimal1 => if is_digit c then Some scan_number_decimal2 else None
  | scan_number_decimal2 =>
      if is_digit c then Some scan_number_decimal2
      else if (c =? 101) || (c =? 69) then Some scan_number_exponent else None
  | scan_number_exponent =>
      if (c =? 43) || (c =? 45) then Some scan_number_sign
      else if is_digit c then Some scan_number_any2 else None
  | scan_number_sign => if is_digit c then Some scan_number_any2 else None
  | scan_number_any2 => if is_digit c then Some scan_number_any2 else None
  end.

Definition num_accepts (s : num_state) : bool :=
  match s with
  | scan_number_zero | scan_number_any1 | scan_number_decimal2 | scan_number_any2 => true
  | _ => false
  end.

Fixpoint run_num (s : num_state) (nt : token_type.t) (t : cstring) : option token_type.t :=
  match t with
  | [] => if num_accepts s then Some (number_type_at s nt) else None
  | c :: t' =>
      match num_next s c with
      | Some s' => run_num s' (number_type_at s nt) t'
      | None => None
      end
  end.

Definition num_start (c : Z) : option num_state :=
  if c =? 45 then Some scan_number_minus
  else if c =? 48 then Some scan_number_zero
  else if in_range 49 57 c then Some scan_number_any1 else None.

(** The type of number a text denotes, if it is one. *)
Definition number_text (t : cstring) : option token_type.t :=
  match t with
  | [] => None
  | c :: t' => match num_start c with
               | Some s => run_num s token_type.value_unsigned t'
               | None => None
               end
  end.

(** The token buffer holds the locale's decimal point instead of '.'. *)
Definition localize (dp : Z) (t : cstring) : cstring := map (λ c, if c =? 46 then dp else c) t.

(** What may follow a number. *)
Definition num_delim (p : cstring) : bool :=
  match p with
  | [] => true
  | c :: _ => negb (is_digit c || (c =? 46) || (c =? 101) || (c =? 69))
  end.

Section numbers.
  Context (dp : Z) (ic : bool) (Hdp : is_byte dp = true).

Lemma scan_number_step_next s s' c p tb lx :
  num_next s c = Some s' → lx_at dp ic (c :: p) tb lx →
  ∃ lx', scan_number_step s lx = Goto s' lx' ∧
    lx_at dp ic p (tb ++ localize dp [c]) lx'.
Proof.
  intros Hn Hat. pose proof (lx_at_cons_byte _ _ _ _ _ _ Hat) as Hb.
  unfold scan_number_step.
  destruct (get_cons _ _ _ _ _ _ Hat) as (lx1 & -> & Hat1 & _).
  assert (c ≠ 46 → lx_at dp ic p (tb ++ localize dp [c]) (add lx1 c)) as Hadd.
  { intros Hc. simpl. apply Z.eqb_neq in Hc. rewrite Hc. by apply add_at_byte. }
  assert (c = 46 → lx_at dp ic p (tb ++ localize dp [c]) (add_decimal_point lx1)) as Hpt.
  { intros ->. simpl. by apply add_decimal_point_at. }
  destruct s; simpl in Hn; repeat case_match; simplify_eq;
    (eexists; split; [reflexivity|]); first [apply Hadd | apply Hpt];
    unfold is_digit in *; zify_bool; destruct_or?; lia.
Qed.

Lemma scan_number_step_done s p tb lx :
  num_accepts s = true → num_delim p = true → lx_at dp ic p tb lx →
  ∃ lx', scan_number_step s lx = Done lx' ∧ lx_before dp ic p tb lx'.
Proof.
  intros Hs Hd Hat. unfold scan_number_step.
  destruct (get_any _ _ _ _ _ Hat) as (c & lx1 & -> & Hr & Hat1 & Hc).
  assert (negb (is_digit c || (c =? 46) || (c =? 101) || (c =? 69)) = true) as Hcd.
  { destruct Hc as [[-> _]|[_ Hp]]; [done|]. by rewrite Hp in Hd. }
  to_prop.
  assert (lx_before dp ic p tb lx1) as Hun.
  { destruct Hc as [[-> ->]|[Hb Hp]]; [by apply unget_eof|].
    rewrite Hp. by apply unget_byte. }
  assert ((c =? 46) = false) as E46 by lia.
  assert ((c =? 101) || (c =? 69) = false) as Ee by lia.
  destruct s; try done; simpl; rewrite ?H, ?E46, ?Ee; eauto.
Qed.

Lemma scan_number_loop_text fuel s nt nt' t p tb lx :
  run_num s nt t = Some nt' → num_delim p = true →
  lx_at dp ic (t ++ p) tb lx → (length t < fuel)%nat →
  ∃ lx', scan_number_loop fuel s nt lx = scan_number_done nt' lx' ∧
    lx_before dp ic p (tb ++ localize dp t) lx'.
Proof.
  intros Hrun Hd. revert fuel s nt tb lx Hrun.
  induction t as [|c t IH]; intros fuel s nt tb lx Hrun Hat Hf;
    (destruct fuel as [|fuel]; [lia|]); simpl in *.
  - destruct (num_accepts s) eqn:Hs; [|done]. simplify_eq.
    destruct (scan_number_step_done s p tb lx Hs Hd Hat) as (lx' & -> & Hat').
    rewrite app_nil_r. eauto.
  - destruct (num_next s c) as [s'|] eqn:Hn; [|done].
    destruct (scan_number_step_next s s' c (t ++ p) tb lx Hn Hat) as (lx1 & -> & Hat1).
    destruct (IH fuel s' (number_type_at s nt) _ _ Hrun Hat1) as (lx' & ? & Hat'); [lia|].
    exists lx'. split; [done|]. rewrite <- app_assoc in Hat'. done.
Qed.

(** A number's text is scanned up to the character that follows it. *)
Lemma scan_number_text c t nt p tb lx :
  number_text (c :: t) = Some nt → num_delim p = true →
  lx_at dp ic (t ++ p) tb lx → just_read c lx →
  ∃ lx', scan_number lx = scan_number_done nt lx' ∧
    lx_before dp ic p (localize dp (c :: t)) lx'.
Proof.
  intros Ht Hd Hat [_ Hc]. unfold scan_number.
  change (current (reset lx)) with (current lx). rewrite Hc.
  apply reset_at in Hat.
  assert (length t < input_fuel (reset lx))%nat as Hf.
  { unfold input_fuel. destruct Hat as (_ & _ & _ & -> & _). rewrite length_app. lia. }
  simpl in Ht. unfold num_start in Ht.
  assert (c ≠ 46 ∧ is_byte c = true) as [H46 Hb].
  { unfold is_byte. destruct (c =? 45) eqn:?, (c =? 48) eqn:?, (in_range 49 57 c) eqn:?;
      try done; zify_bool; lia. }
  apply (add_at_byte _ _ _ _ c) in Hat; [|done]. simpl in Hat.
  assert (localize dp (c :: t) = [c] ++ localize dp t) as ->.
  { simpl. apply Z.eqb_neq in H46. by rewrite H46. }
  revert Ht. repeat case_if; intros Ht; try done; by apply scan_number_loop_text.
Qed.
End numbers.

(** * Integers *)

Lemma digits_value_app a d d' : digits_value a (d ++ d') = digits_value (digits_value a d) d'.
Proof. revert a; induction d; simpl; auto. Qed.

Lemma dec_loop_spec fuel n acc :
  0 ≤ n < 2 ^ Z.of_nat fuel → (0 < fuel)%nat →
  ∃ c d, dec_loop fuel n acc = c :: d ++ acc ∧ all_digits (c :: d) = true ∧
    digits_value 0 (c :: d) = n ∧ (c = 48 → n = 0 ∧ d = []).
Proof.
  revert n acc. induction fuel as [|fuel IH]; intros n acc Hn Hf; [lia|]. simpl dec_loop.
  assert (is_digit (48 + n mod 10) = true) as Hdig.
  { unfold is_digit, in_range. pose proof (Z.mod_pos_bound n 10). lia. }
  case_if; to_prop.
  - exists (48 + n mod 10), []. rewrite Z.mod_small in * by lia.
    split; [done|]. split; [simpl; by rewrite Hdig|]. split; [simpl; lia|]. intros; split; [lia|done].
  - rewrite Nat2Z.inj_succ, Z.pow_succ_r in Hn by lia.
    destruct fuel as [|fuel]; [simpl in Hn; lia|].
    destruct (IH (n / 10) ((48 + n mod 10) :: acc)) as (c & d & -> & Hd & Hv & Hz).
    { split; [apply Z.div_pos; lia|]. apply Z.div_lt_upper_bound; lia. }
    { lia. }
    exists c, (d ++ [48 + n mod 10]). split; [by rewrite <- app_assoc|].
    change (c :: d ++ [48 + n mod 10]) with ((c :: d) ++ [48 + n mod 10]).
    split; [by apply all_digits_snoc|]. rewrite digits_value_app, Hv. simpl.
    split; [pose proof (Z.div_mod n 10); lia|].
    intros Hc. destruct (Hz Hc). assert (1 ≤ n / 10) by (apply Z.div_le_lower_bound; lia). lia.
Qed.

(** The reference decimal text reads back as its number, without a leading zero. *)
Lemma decimal_spec n :
  0 ≤ n → ∃ c d, decimal n = c :: d ∧ all_digits (c :: d) = true ∧
    digits_value 0 (c :: d) = n ∧ (c = 48 → n = 0 ∧ d = []).
Proof.
  intros Hn. unfold decimal.
  destruct (dec_loop_spec (S (Z.to_nat (Z.log2 n))) n []) as (c & d & H & ?); [|lia|].
  - split; [done|]. rewrite Nat2Z.inj_succ, Z2Nat.id by apply Z.log2_nonneg.
    destruct (Z.eq_dec n 0) as [->|]; [done|]. apply Z.log2_spec. lia.
  - exists c, d. rewrite app_nil_r in H. done.
Qed.

Lemma run_num_digits nt d :
  all_digits d = true → run_num scan_number_any1 nt d = Some nt.
Proof.
  revert nt. induction d as [|c d IH]; intros nt Hd; simpl in *; [done|].
  to_prop. rewrite H. by apply IH.
Qed.

Lemma localize_digits dp d : all_digits d = true → localize dp d = d.
Proof.
  induction d as [|c d IH]; simpl; [done|]. intros Hd. to_prop.
  unfold is_digit in H. rewrite IH by done. by decide_test (c =? 46) false; [zify_bool; lia|].
Qed.

Lemma digit_start c : is_digit c = true → c ≠ 48 → num_start c = Some scan_number_any1.
Proof.
  unfold is_digit, num_start, in_range. intros Hc Hne.
  decide_test (c =? 45) false. decide_test (c =? 48) false.
  by decide_test ((49 <=? c) && (c <=? 57)) true.
Qed.

(** A decimal text is a number of the right type. *)
Lemma number_text_digits c d :
  all_digits (c :: d) = true → (c = 48 → d = []) →
  number_text (c :: d) = Some token_type.value_unsigned ∧
  number_text (45 :: c :: d) = Some token_type.value_integer.
Proof.
  intros Hd H0. simpl in Hd. to_prop. destruct (Z.eq_dec c 48) as [->|Hne].
  - rewrite H0 by done. done.
  - simpl. rewrite digit_start by done.
    rewrite run_num_digits by done. split; [done|].
    decide_test (c =? 48) false.
    assert (in_range 49 57 c = true) as ->.
    { unfold is_digit in H. zify_bool. unfold in_range. lia. }
    by rewrite run_num_digits.
Qed.

Section integers.
  Context (dp : Z) (ic : bool) (Hdp : is_byte dp = true).

Lemma lx_at_buffer p tb lx : lx_at dp ic p tb lx → token_buffer lx = tb.
Proof. by intros (_ & _ & _ & _ & ->). Qed.

Lemma scan_unsigned_ok n c d p tb lx :
  in_u 64 n = true → decimal n = c :: d → num_delim p = true →
  lx_at dp ic (d ++ p) tb lx → just_read c lx →
  ∃ lx' tb', scan_number lx = Ret (token_type.value_unsigned, lx') ∧
    value_unsigned lx' = n ∧ lx_at dp ic p tb' lx'.
Proof.
  intros Hn Hdec Hdel Hat Hr. unfold in_u in Hn. to_prop.
  destruct (decimal_spec n) as (c' & d' & Heq & Hdig & Hval & Hz); [done|].
  rewrite Hdec in Heq. injection Heq as -> ->.
  destruct (number_text_digits c' d' Hdig) as [Ht _]; [naive_solver|].
  destruct (scan_number_text dp ic Hdp c' d' _ p tb lx Ht Hdel Hat Hr) as (lx' & -> & lx1 & Eu & Hat').
  rewrite localize_digits in Hat' by done.
  unfold scan_number_done. rewrite Eu. cbn [mbind outcome_bind]. rewrite (lx_at_buffer _ _ _ Hat').
  unfold c_strtoull. rewrite span_digits_all, Hval by done.
  decide_test (n <? 2 ^ 64) true. simpl.
  do 2 eexists. split; [done|]. split; [done|]. by apply set_numbers_at.
Qed.

Lemma scan_negative_ok n p tb lx :
  in_s 64 n = true → n < 0 → num_delim p = true →
  lx_at dp ic (decimal (- n) ++ p) tb lx → just_read 45 lx →
  ∃ lx' tb', scan_number lx = Ret (token_type.value_integer, lx') ∧
    value_integer lx' = n ∧ lx_at dp ic p tb' lx'.
Proof.
  intros Hn Hneg Hdel Hat Hr. unfold in_s in Hn. to_prop.
  destruct (decimal_spec (- n)) as (c & d & Heq & Hdig & Hval & H0'); [lia|].
  rewrite Heq in Hat.
  destruct (number_text_digits c d Hdig) as [_ Ht]; [naive_solver|].
  destruct (scan_number_text dp ic Hdp 45 (c :: d) _ p tb lx Ht Hdel Hat Hr) as (lx' & -> & lx1 & Eu & Hat').
  change (localize dp (45 :: c :: d)) with (45 :: localize dp (c :: d)) in Hat'.
  rewrite localize_digits in Hat' by done.
  unfold scan_number_done. rewrite Eu. cbn [mbind outcome_bind]. rewrite (lx_at_buffer _ _ _ Hat').
  unfold c_strtoll. change (span_sign (45 :: c :: d)) with (true, c :: d).
  cbv iota beta. rewrite span_digits_all, Hval by done.
  replace (- - n) with n by lia.
  decide_test (n <? - 2 ^ 63) false. decide_test (n <? 2 ^ 63) true. simpl.
  do 2 eexists. split; [done|]. split; [done|]. by apply set_numbers_at.
Qed.

Lemma scan_float_ok c t x p tb lx :
  number_text (c :: t) = Some token_type.value_float →
  c_strtod dp (localize dp (c :: t)) = (x, []) → num_delim p = true →
  lx_at dp ic (t ++ p) tb lx → just_read c lx →
  ∃ lx' tb', scan_number lx = Ret (token_type.value_float, lx') ∧
    value_float lx' = x ∧ lx_at dp ic p tb' lx'.
Proof.
  intros Ht Hx Hdel Hat Hr.
  destruct (scan_number_text dp ic Hdp c t _ p tb lx Ht Hdel Hat Hr) as (lx' & -> & lx1 & Eu & Hat').
  unfold scan_number_done. rewrite Eu. cbn [mbind outcome_bind]. rewrite (lx_at_buffer _ _ _ Hat').
  assert (decimal_point_char lx1 = dp) as -> by apply Hat'.
  rewrite Hx. simpl. do 2 eexists. split; [done|]. split; [done|]. by apply set_numbers_at.
Qed.
End integers.
