(* ===== verification/JsonNumbers.v ===== *)
(** The number a JSON text denotes, independently of the lexer and of the
    locale, and that [scan_number] computes it. *)

From S2P Require Import Prelude Double JsonValue JsonLexer JsonLexerFacts Utf8 JsonTokens.

(** The value of a number: an integer when it is written as one and fits its
    64-bit type, and the nearest double otherwise, unless that overflows. *)
Definition float_json (t : cstring) : option json :=
  let x := (c_strtod 46 t).1 in
  if isfinite x then Some (J_number_float x) else None.

Definition number_json (t : cstring) : option json :=
  match number_text t with
  | Some token_type.value_unsigned =>
      let n := digits_value 0 t in
      if n <? 2 ^ 64 then Some (J_number_unsigned n) else float_json t
  | Some token_type.value_integer =>
      let n := - digits_value 0 (tail t) in
      if n <? - 2 ^ 63 then float_json t else Some (J_number_integer n)
  | Some _ => float_json t
  | None => None
  end.

Lemma num_prefix_next s s' nt tb c :
  num_prefix 46 s nt tb → num_next s c = Some s' →
  num_prefix 46 s' (number_type_at s nt) (tb ++ [c]).
Proof.
  intros Hp Hn. pose proof (num_prefix_step 46 s nt tb c Hp) as Hstep.
  assert (in_range 49 57 c = true → is_digit c = true) as Hnz.
  { unfold is_digit, in_range. intros. to_prop. zify_bool. lia. }
  revert Hn. destruct s; simpl in *; repeat case_if; intros Hn; simplify_eq;
    rewrite ?orb_true_iff, ?Z.eqb_eq in *; subst;
    try (apply Hstep; auto).
Qed.

Lemma run_num_final s nt nt' tb t :
  num_prefix 46 s nt tb → run_num s nt t = Some nt' → num_final 46 nt' (tb ++ t).
Proof.
  revert s nt tb. induction t as [|c t IH]; intros s nt tb Hp; simpl.
  - rewrite app_nil_r. pose proof (num_prefix_final _ _ _ _ Hp) as Hf.
    destruct s; simpl; try done; by intros [= <-].
  - destruct (num_next s c) as [s'|] eqn:E; [|done]. intros Hr.
    replace (tb ++ c :: t) with ((tb ++ [c]) ++ t) by (by rewrite <- app_assoc).
    eapply IH; [|done]. by eapply num_prefix_next.
Qed.

(** A number is a sign, digits, a fraction and an exponent. *)
Lemma number_text_final t nt : number_text t = Some nt → num_final 46 nt t.
Proof.
  destruct t as [|c t]; simpl; [done|]. unfold num_start.
  repeat case_if; intros H; try done; eapply (run_num_final _ _ nt [c] t); try exact H;
    unfold in_range in *; to_prop; subst.
  - apply np_minus.
  - apply (np_zero 46 false).
  - apply (np_any1 46 false [c]); [done|]. simpl. rewrite andb_true_r.
    unfold is_digit, in_range. zify_bool. lia.
Qed.

(** * The locale does not matter *)

Definition exp_value (ex : cstring) : Z :=
  match ex with
  | [] => 0
  | _ :: s => let '(eneg, d) := span_sign s in
              if eneg then - digits_value 0 d else digits_value 0 d
  end.

(** What [strtod] makes of the parts of a number. *)
Lemma c_strtod_parts dp neg i f (has_frac : bool) ex :
  dp_ok dp = true → i ≠ [] → all_digits i = true → all_digits f = true → exp_text ex →
  (has_frac = false → f = []) →
  c_strtod dp (sign_text neg ++ i ++ (if has_frac then dp :: f else []) ++ ex) =
  (nearest_double neg (digits_value 0 (i ++ f)) (exp_value ex - Z.of_nat (length f)), []).
Proof.
  unfold dp_ok. intros Hdp Hi Hid Hf Hex Hnf. to_prop. unfold c_strtod.
  rewrite span_sign_text by done. pose proof (exp_head_not_digit ex Hex) as Hhd.
  set (fr := if has_frac then dp :: f else []).
  assert (span_digits (i ++ fr ++ ex) = (i, fr ++ ex)) as ->.
  { apply span_digits_app; [done|]. by destruct has_frac. }
  assert (match fr ++ ex with
          | c :: s' => if c =? dp then span_digits s' else ([], fr ++ ex)
          | [] => ([], []) end = (f, ex)) as ->.
  { unfold fr. destruct has_frac; simpl.
    - rewrite Z.eqb_refl. by apply span_digits_app.
    - rewrite Hnf by done. destruct Hex as [->|(e & es & d & -> & He & _)]; [done|]. simpl.
      destruct (Z.eqb_spec e dp); [|done]. subst. destruct He; subst; done. }
  destruct Hex as [->|(e & es & d & -> & He & Hes & Hd & Hdd)]; [done|].
  assert ((e =? 101) || (e =? 69) = true) as -> by (destruct He; subst; done).
  unfold exp_value. pose proof (span_exp_sign _ _ Hes Hd Hdd) as Hs.
  destruct (span_sign (es ++ d)) as [eneg s'] eqn:E. simpl in Hs; subst.
  by rewrite span_digits_all.
Qed.

Lemma localize_app dp s t : localize dp (s ++ t) = localize dp s ++ localize dp t.
Proof. apply map_app. Qed.

Lemma localize_exp dp ex : exp_text ex → localize dp ex = ex.
Proof.
  intros [->|(e & es & d & -> & He & Hes & _ & Hd)]; [done|]. simpl.
  rewrite localize_app, (localize_digits dp d Hd).
  destruct He as [-> | ->], Hes as [->|[-> | ->]]; done.
Qed.

Lemma localize_sign dp neg : localize dp (sign_text neg) = sign_text neg.
Proof. by destruct neg. Qed.

Lemma c_strtod_localize dp nt t :
  dp_ok dp = true → number_text t = Some nt →
  c_strtod dp (localize dp t) = ((c_strtod 46 t).1, []).
Proof.
  intros Hdp (neg & i & fr & ex & -> & Hi & Hid & Hfr & Hex & _)%number_text_final.
  rewrite !localize_app, localize_sign, localize_digits, (localize_exp dp ex) by done.
  destruct Hfr as [->|(f & -> & Hf)].
  - pose proof (c_strtod_parts dp neg i [] false ex) as E1.
    pose proof (c_strtod_parts 46 neg i [] false ex) as E2. simpl in *.
    rewrite E1, E2; done.
  - change (localize dp (46 :: f)) with (dp :: localize dp f). rewrite localize_digits by done.
    pose proof (c_strtod_parts dp neg i f true ex) as E1.
    pose proof (c_strtod_parts 46 neg i f true ex) as E2. simpl in *.
    rewrite E1, E2; done.
Qed.

(** * [scan_number] computes the value *)

Lemma digits_value_nonneg a d : 0 ≤ a → all_digits d = true → 0 ≤ digits_value a d.
Proof.
  revert a. induction d as [|c d IH]; intros a Ha Hd; simpl in *; [done|].
  to_prop. apply IH; [|done]. unfold is_digit, in_range in *. to_prop. lia.
Qed.

(** The token and the value the lexer holds after a number. *)
Definition number_token (j : json) (tk : token_type.t) (lx : lexer) : Prop :=
  match j with
  | J_number_unsigned n => tk = token_type.value_unsigned ∧ value_unsigned lx = n
  | J_number_integer n => tk = token_type.value_integer ∧ value_integer lx = n
  | J_number_float x => tk = token_type.value_float ∧ value_float lx = x ∧ isfinite x = true
  | _ => False
  end.

Section scan.
  Context (dp : Z) (ic : bool) (Hdp : dp_ok dp = true).

Lemma dp_byte : is_byte dp = true.
Proof. unfold dp_ok in Hdp. to_prop. done. Qed.

Lemma scan_number_done_value t nt j p lx :
  number_text t = Some nt → number_json t = Some j →
  lx_before dp ic p (localize dp t) lx →
  ∃ tk lx' tb', scan_number_done nt lx = Ret (tk, lx') ∧ number_token j tk lx' ∧
    lx_at dp ic p tb' lx'.
Proof.
  intros Hnt Hj (lx1 & Eu & Hat). unfold number_json in Hj. rewrite Hnt in Hj.
  unfold scan_number_done. rewrite Eu. cbn [mbind outcome_bind]. rewrite (lx_at_buffer _ _ _ _ _ Hat).
  assert (decimal_point_char lx1 = dp) as -> by apply Hat.
  rewrite (c_strtod_localize dp nt t Hdp Hnt).
  destruct (number_text_final t nt Hnt) as (neg & i & fr & ex & -> & Hi & Hid & _ & _ & Hty).
  unfold float_json in Hj. set (x := (c_strtod 46 _).1) in *.
  assert (∀ v, (if isfinite x then Some (J_number_float x) else None) = Some v →
    ∃ tk lx' tb', Ret (E := json_exn) (token_type.value_float, set_numbers lx1
      (value_integer lx1) (value_unsigned lx1) x) = Ret (tk, lx') ∧
      number_token v tk lx' ∧ lx_at dp ic p tb' lx') as Hfloat.
  { intros v. case_if; [|done]. intros Hv. simplify_eq. do 3 eexists. split; [done|].
    split; [done|]. by apply set_numbers_at. }
  destruct Hty as [(-> & -> & ->)| ->]; [|by apply Hfloat].
  rewrite !app_nil_r in *. rewrite localize_app, localize_sign, (localize_digits dp i Hid).
  destruct neg; simpl in *.
  - unfold c_strtoll. change (span_sign (45 :: i)) with (true, i). cbv iota beta.
    rewrite span_digits_all by done. case_if; [by apply Hfloat|].
    case_if; simpl; simplify_eq; [|by to_prop; pose proof (digits_value_nonneg 0 i ltac:(lia) Hid); lia].
    do 3 eexists. split; [done|]. split; [done|]. by apply set_numbers_at.
  - unfold c_strtoull. rewrite span_digits_all by done. case_if; [|by apply Hfloat].
    simplify_eq. do 3 eexists. split; [done|]. split; [done|]. by apply set_numbers_at.
Qed.

Lemma scan_number_ok c t j p tb lx :
  number_json (c :: t) = Some j → num_delim p = true →
  lx_at dp ic (t ++ p) tb lx → just_read c lx →
  ∃ tk lx' tb', scan_number lx = Ret (tk, lx') ∧ number_token j tk lx' ∧ lx_at dp ic p tb' lx'.
Proof.
  intros Hj Hdel Hat Hr.
  destruct (number_text (c :: t)) as [nt|] eqn:Hnt;
    [|unfold number_json in Hj; by rewrite Hnt in Hj].
  destruct (scan_number_text dp ic dp_byte c t nt p tb lx Hnt Hdel Hat Hr) as (lx' & -> & Hat').
  by apply (scan_number_done_value (c :: t) nt j).
Qed.
End scan.

(** Decimal notation denotes the number. *)
Lemma number_json_unsigned n :
  in_u 64 n = true → number_json (decimal n) = Some (J_number_unsigned n).
Proof.
  unfold in_u. intros Hn. to_prop.
  destruct (decimal_spec n) as (c & d & -> & Hd & Hv & Hz); [done|].
  unfold number_json. rewrite (proj1 (number_text_digits c d Hd ltac:(naive_solver))), Hv.
  by decide_test (n <? 2 ^ 64) true.
Qed.

Lemma number_json_negative n :
  in_s 64 n = true → n < 0 → number_json (45 :: decimal (- n)) = Some (J_number_integer n).
Proof.
  unfold in_s. intros Hn Hneg. to_prop.
  destruct (decimal_spec (- n)) as (c & d & -> & Hd & Hv & Hz); [lia|].
  unfold number_json. rewrite (proj2 (number_text_digits c d Hd ltac:(naive_solver))).
  cbn [tail]. rewrite Hv. replace (- - n) with n by lia.
  by decide_test (n <? - 2 ^ 63) false.
Qed.
