(* ===== verification/JsonParser.v ===== *)
(** The syntax analysis of framework/json.hpp: the SAX interface, the
    [parser] that drives it, and its two handlers, the DOM builder
    [json_sax_dom_parser] and [json_sax_acceptor].

    A pointer into the value under construction is the path from the root to
    the element; the containers on [ref_stack] are the ones still open. *)

From S2P Require Import Prelude JsonValue JsonLexer.

(** * The SAX interface *)

Definition sax_result (S : Type) : Type := outcome json_exn (bool * S).

Class SAX (S : Type) := {
  sax_null : S → sax_result S;
  sax_boolean : bool → S → sax_result S;
  sax_number_integer : Z → S → sax_result S;
  sax_number_unsigned : Z → S → sax_result S;
  sax_number_float : spec_float → cstring → S → sax_result S;
  sax_string : cstring → S → sax_result S;
  sax_start_object : S → sax_result S;
  sax_key : cstring → S → sax_result S;
  sax_end_object : S → sax_result S;
  sax_start_array : S → sax_result S;
  sax_end_array : S → sax_result S;
  sax_parse_error : nat → cstring → json_exn → S → sax_result S
}.

(** * The parser *)

Record parser : Type := mk_parser {
  last_token : token_type.t;
  m_lexer : lexer
}.

Definition get_token (p : parser) : outcome json_exn parser :=
  '(t, lx) ← scan (m_lexer p); Ret (mk_parser t lx).

(** [parse_error::position_string]. *)
Definition position_string (pos : position_t) : cstring :=
  str " at line " ++ decimal (Z.of_nat (S (lines_read pos))) ++
  str ", column " ++ decimal (Z.of_nat (chars_read_current_line pos)).

(** [parse_error::create], with no diagnostics compiled in. *)
Definition create_parse_error (id : Z) (pos : position_t) (what_arg : cstring) : json_exn :=
  parse_error id (chars_read_total pos)
    (exception_name "parse_error" id ++ str "parse error" ++ position_string pos ++
     str ": " ++ what_arg).

Definition exception_message (p : parser) (expected : token_type.t) (context : string) : cstring :=
  str "syntax error " ++
  (if bool_decide (context = EmptyString) then []
   else str "while parsing " ++ str context ++ str " ") ++
  str "- " ++
  (if bool_decide (last_token p = token_type.parse_error)
   then error_message (m_lexer p) ++ str "; last read: '" ++ get_token_string (m_lexer p) ++ str "'"
   else str "unexpected " ++ token_type_name (last_token p)) ++
  (if bool_decide (expected = token_type.uninitialized) then []
   else str "; expected " ++ token_type_name expected).

Section sax_parse.
  Context {S : Type} `{SAX S}.

(** [return sax->parse_error(position, token string, exception)]. *)
Definition report (p : parser) (e : json_exn) (sax : S) : sax_result S :=
  sax_parse_error (chars_read_total (position (m_lexer p))) (get_token_string (m_lexer p)) e sax.

Definition syntax_error (p : parser) (expected : token_type.t) (context : string) (sax : S) :
    sax_result S :=
  report p (create_parse_error 101 (position (m_lexer p))
              (exception_message p expected context)) sax.

(** The loop's variables: the handler, the parser, [states] with its back
    first (true = array), and [skip_to_state_evaluation]. *)
Record pstate : Type := mk_pstate {
  ps_sax : S;
  ps_parser : parser;
  ps_states : list bool;
  ps_skip : bool
}.

Inductive pstep : Type :=
| P_continue (ps : pstate)
| P_evaluate (sax : S) (p : parser)
| P_return (b : bool) (sax : S) (p : parser).

(** [if (!sax->event(...)) return false; k]. *)
Definition checked (r : sax_result S) (p : parser) (k : S → outcome json_exn pstep) :
    outcome json_exn pstep :=
  '(ok, sax) ← r;
  if ok : bool then k sax else Ret (P_return false sax p).

(** [return] of what [parse_error] returned. *)
Definition give_up_with (r : sax_result S) (p : parser) : outcome json_exn pstep :=
  '(b, sax) ← r; Ret (P_return b sax p).

(** A key has been read: the key event, the colon, and the next value's token. *)
Definition parse_member (p : parser) (states : list bool) (sax : S) : outcome json_exn pstep :=
  checked (sax_key (get_string (m_lexer p)) sax) p (λ sax,
  p ← get_token p;
  if negb (bool_decide (last_token p = token_type.name_separator))
  then give_up_with (syntax_error p token_type.name_separator "object separator" sax) p
  else
    p ← get_token p;
    Ret (P_continue (mk_pstate sax p states false))).

Definition parse_begin_object (p : parser) (states : list bool) (sax : S) :
    outcome json_exn pstep :=
  checked (sax_start_object sax) p (λ sax,
  p ← get_token p;
  if bool_decide (last_token p = token_type.end_object)
  then checked (sax_end_object sax) p (λ sax, Ret (P_evaluate sax p))
  else if negb (bool_decide (last_token p = token_type.value_string))
  then give_up_with (syntax_error p token_type.value_string "object key" sax) p
  else parse_member p (false :: states) sax).

Definition parse_begin_array (p : parser) (states : list bool) (sax : S) :
    outcome json_exn pstep :=
  checked (sax_start_array sax) p (λ sax,
  p ← get_token p;
  if bool_decide (last_token p = token_type.end_array)
  then checked (sax_end_array sax) p (λ sax, Ret (P_evaluate sax p))
  else Ret (P_continue (mk_pstate sax p (true :: states) false))).

(** [switch (last_token)]: [P_evaluate] is its [break]. *)
Definition parse_value (p : parser) (states : list bool) (sax : S) : outcome json_exn pstep :=
  let lx := m_lexer p in
  let value r := checked r p (λ sax, Ret (P_evaluate sax p)) in
  match last_token p with
  | token_type.begin_object => parse_begin_object p states sax
  | token_type.begin_array => parse_begin_array p states sax
  | token_type.value_float =>
      let res := value_float lx in
      if negb (isfinite res)
      then give_up_with (report p (create_out_of_range 406
             (str "number overflow parsing '" ++ get_token_string lx ++ str "'")) sax) p
      else value (sax_number_float res (get_string lx) sax)
  | token_type.literal_false => value (sax_boolean false sax)
  | token_type.literal_null => value (sax_null sax)
  | token_type.literal_true => value (sax_boolean true sax)
  | token_type.value_integer => value (sax_number_integer (value_integer lx) sax)
  | token_type.value_string => value (sax_string (get_string lx) sax)
  | token_type.value_unsigned => value (sax_number_unsigned (value_unsigned lx) sax)
  | token_type.parse_error =>
      give_up_with (syntax_error p token_type.uninitialized "value" sax) p
  | token_type.end_of_input =>
      if (chars_read_total (position lx) =? 1)%nat
      then give_up_with (report p (create_parse_error 101 (position lx)
             (str "attempting to parse an empty input; check that your input string or stream contains the expected JSON")) sax) p
      else give_up_with (syntax_error p token_type.literal_or_value "value" sax) p
  | token_type.uninitialized | token_type.end_array | token_type.end_object
  | token_type.name_separator | token_type.value_separator | token_type.literal_or_value =>
      give_up_with (syntax_error p token_type.literal_or_value "value" sax) p
  end.

(** The part of the loop after a value has been parsed. *)
Definition evaluate_state (p : parser) (states : list bool) (sax : S) : outcome json_exn pstep :=
  match states with
  | [] => Ret (P_return true sax p)
  | true :: states' =>
      p ← get_token p;
      if bool_decide (last_token p = token_type.value_separator)
      then p ← get_token p; Ret (P_continue (mk_pstate sax p states false))
      else if bool_decide (last_token p = token_type.end_array)
      then checked (sax_end_array sax) p
             (λ sax, Ret (P_continue (mk_pstate sax p states' true)))
      else give_up_with (syntax_error p token_type.end_array "array" sax) p
  | false :: states' =>
      p ← get_token p;
      if bool_decide (last_token p = token_type.value_separator)
      then
        p ← get_token p;
        if negb (bool_decide (last_token p = token_type.value_string))
        then give_up_with (syntax_error p token_type.value_string "object key" sax) p
        else parse_member p states sax
      else if bool_decide (last_token p = token_type.end_object)
      then checked (sax_end_object sax) p
             (λ sax, Ret (P_continue (mk_pstate sax p states' true)))
      else give_up_with (syntax_error p token_type.end_object "object" sax) p
  end.

(** One iteration of [while (true)]. *)
Definition sax_parse_step (ps : pstate) : outcome json_exn pstep :=
  let '(mk_pstate sax p states skip) := ps in
  if skip then evaluate_state p states sax
  else
    s ← parse_value p states sax;
    match s with
    | P_evaluate sax p => evaluate_state p states sax
    | s => Ret s
    end.

Fixpoint sax_parse_loop (fuel : nat) (ps : pstate) : outcome json_exn (bool * S * parser) :=
  match fuel with
  | O => Diverge
  | Datatypes.S fuel' =>
      s ← sax_parse_step ps;
      match s with
      | P_continue ps' => sax_parse_loop fuel' ps'
      | P_return b sax p => Ret (b, sax, p)
      | P_evaluate sax p => Ret (true, sax, p)
      end
  end.

(** Every iteration but the last reads a token. *)
Definition parse_fuel (p : parser) : nat := 2 + length (pending (m_lexer p)).

Definition sax_parse_internal (p : parser) (sax : S) : outcome json_exn (bool * S * parser) :=
  sax_parse_loop (parse_fuel p) (mk_pstate sax p [] false).

Definition sax_parse (strict : bool) (p : parser) (sax : S) : outcome json_exn (bool * S * parser) :=
  '(result, sax, p) ← sax_parse_internal p sax;
  if result && strict then
    p ← get_token p;
    if negb (bool_decide (last_token p = token_type.end_of_input))
    then '(b, sax) ← syntax_error p token_type.end_of_input "value" sax; Ret (b, sax, p)
    else Ret (result, sax, p)
  else Ret (result, sax, p).
End sax_parse.

Arguments pstate S : clear implicits.
Arguments pstep S : clear implicits.

(** The constructor reads the first token. *)
Definition init_parser (dp : Z) (input : cstring) (skip_comments_ : bool) :
    outcome json_exn parser :=
  get_token (mk_parser token_type.uninitialized (init_lexer dp input skip_comments_)).

(** * The acceptor *)

Record json_sax_acceptor : Type := mk_acceptor {}.

#[export] Instance acceptor_sax : SAX json_sax_acceptor := {|
  sax_null s := Ret (true, s);
  sax_boolean _ s := Ret (true, s);
  sax_number_integer _ s := Ret (true, s);
  sax_number_unsigned _ s := Ret (true, s);
  sax_number_float _ _ s := Ret (true, s);
  sax_string _ s := Ret (true, s);
  sax_start_object s := Ret (true, s);
  sax_key _ s := Ret (true, s);
  sax_end_object s := Ret (true, s);
  sax_start_array s := Ret (true, s);
  sax_end_array s := Ret (true, s);
  sax_parse_error _ _ _ s := Ret (false, s)
|}.

Definition accept (dp : Z) (input : cstring) (ignore_comments_ : bool) : outcome json_exn bool :=
  p ← init_parser dp input ignore_comments_;
  '(b, _, _) ← sax_parse true p mk_acceptor;
  Ret b.

(** * The DOM builder *)

Inductive path_step : Type :=
| p_idx (i : nat)
| p_key (k : cstring).

Abbreviation path := (list path_step).

Fixpoint get_path (j : json) (p : path) : option json :=
  match p with
  | [] => Some j
  | p_idx i :: p' =>
      match j with
      | J_array l => match l !! i with Some x => get_path x p' | None => None end
      | _ => None
      end
  | p_key k :: p' =>
      match j with
      | J_object m => match obj_find k m with Some x => get_path x p' | None => None end
      | _ => None
      end
  end.

(** Writing through a pointer. *)
Fixpoint set_path (j : json) (p : path) (v : json) : json :=
  match p with
  | [] => v
  | p_idx i :: p' =>
      match j with
      | J_array l =>
          match l !! i with Some x => J_array (<[i := set_path x p' v]> l) | None => j end
      | _ => j
      end
  | p_key k :: p' =>
      match j with
      | J_object m =>
          match obj_find k m with Some x => J_object (obj_set k (set_path x p' v) m) | None => j end
      | _ => j
      end
  end.

Record json_sax_dom_parser : Type := mk_dom {
  root : json;
  ref_stack : list path;
  object_element : option path;
  errored : bool;
  allow_exceptions : bool
}.

Definition handle_value (v : json) (d : json_sax_dom_parser) :
    outcome json_exn (path * json_sax_dom_parser) :=
  match ref_stack d with
  | [] => Ret ([], mk_dom v (ref_stack d) (object_element d) (errored d) (allow_exceptions d))
  | top :: _ =>
      match get_path (root d) top with
      | Some (J_array l) =>
          Ret (top ++ [p_idx (length l)],
               mk_dom (set_path (root d) top (J_array (l ++ [v]))) (ref_stack d)
                 (object_element d) (errored d) (allow_exceptions d))
      | Some (J_object _) =>
          match object_element d with
          | Some e =>
              Ret (e, mk_dom (set_path (root d) e v) (ref_stack d) (object_element d)
                        (errored d) (allow_exceptions d))
          | None => Abort
          end
      | _ => Abort
      end
  end.

Definition dom_value (v : json) (d : json_sax_dom_parser) : sax_result json_sax_dom_parser :=
  '(_, d) ← handle_value v d; Ret (true, d).

(** [start_object] and [start_array]; the parser passes no length. *)
Definition dom_start (v : json) (d : json_sax_dom_parser) : sax_result json_sax_dom_parser :=
  '(ref, d) ← handle_value v d;
  Ret (true, mk_dom (root d) (ref :: ref_stack d) (object_element d) (errored d)
               (allow_exceptions d)).

Definition dom_key (val : cstring) (d : json_sax_dom_parser) : sax_result json_sax_dom_parser :=
  match ref_stack d with
  | [] => Abort
  | top :: _ =>
      match get_path (root d) top with
      | Some (J_object m) =>
          Ret (true, mk_dom (set_path (root d) top (J_object (obj_emplace_null val m)))
                       (ref_stack d) (Some (top ++ [p_key val])) (errored d)
                       (allow_exceptions d))
      | _ => Abort
      end
  end.

Definition dom_end (is_kind : json → bool) (d : json_sax_dom_parser) :
    sax_result json_sax_dom_parser :=
  match ref_stack d with
  | [] => Abort
  | top :: rest =>
      match get_path (root d) top with
      | Some j => assert (is_kind j)
          (Ret (true, mk_dom (root d) rest (object_element d) (errored d) (allow_exceptions d)))
      | None => Abort
      end
  end.

Definition dom_parse_error (ex : json_exn) (d : json_sax_dom_parser) :
    sax_result json_sax_dom_parser :=
  let d := mk_dom (root d) (ref_stack d) (object_element d) true (allow_exceptions d) in
  if allow_exceptions d then Throw ex else Ret (false, d).

#[export] Instance dom_sax : SAX json_sax_dom_parser := {|
  sax_null := dom_value J_null;
  sax_boolean b := dom_value (J_boolean b);
  sax_number_integer z := dom_value (J_number_integer z);
  sax_number_unsigned z := dom_value (J_number_unsigned z);
  sax_number_float f _ := dom_value (J_number_float f);
  sax_string s := dom_value (J_string s);
  sax_start_object := dom_start (J_object []);
  sax_key := dom_key;
  sax_end_object := dom_end is_object;
  sax_start_array := dom_start (J_array []);
  sax_end_array := dom_end is_array;
  sax_parse_error _ _ ex := dom_parse_error ex
|}.

(** * Parsing a text *)

(** In strict mode, the input must be completely read. *)
Definition require_end (p : parser) (sdp : json_sax_dom_parser) :
    outcome json_exn json_sax_dom_parser :=
  p ← get_token p;
  if negb (bool_decide (last_token p = token_type.end_of_input))
  then mbind (λ r : bool * json_sax_dom_parser, Ret r.2)
         (syntax_error p token_type.end_of_input "value" sdp)
  else Ret sdp.

(** [parser::parse] without a callback. *)
Definition parser_parse (strict : bool) (allow_exceptions_ : bool) (p : parser) :
    outcome json_exn json :=
  let sdp := mk_dom J_null [] None false allow_exceptions_ in
  '(_, sdp, p) ← sax_parse_internal p sdp;
  sdp ← (if strict then require_end p sdp else Ret sdp);
  if errored sdp then Ret J_discarded else Ret (root sdp).

(** [basic_json::parse] at a locale whose decimal point is [dp]. *)
Definition json_parse (dp : Z) (input : cstring) (allow_exceptions_ ignore_comments_ : bool) :
    outcome json_exn json :=
  p ← init_parser dp input ignore_comments_;
  parser_parse true allow_exceptions_ p.
