(* ===== verification/JsonParserFacts.v ===== *)
(** Facts about the parser of [JsonParser]: its contract with a SAX handler,
    under which it terminates and fails no assertion, and that the acceptor
    and the DOM builder fulfil the contract. *)

From S2P Require Import Prelude JsonValue JsonLexer JsonLexerFacts JsonParser.

(** * The contract of a SAX handler *)

(** [o] returns a result that satisfies [Q], or throws. *)
Definition good {A} (o : outcome json_exn A) (Q : A → Prop) : Prop :=
  match o with
  | Ret a => Q a
  | Throw _ => True
  | _ => False
  end.

Lemma good_bind {A B} (o : outcome json_exn A) (f : A → outcome json_exn B) Q R :
  good o Q → (∀ a, Q a → good (f a) R) → good (o ≫= f) R.
Proof. destruct o; simpl; auto. Qed.

Lemma good_mono {A} (o : outcome json_exn A) (Q R : A → Prop) :
  good o Q → (∀ a, Q a → R a) → good o R.
Proof. destruct o; simpl; auto. Qed.

(** A value may come next: at the top, in an array, or after a key. *)
Definition value_pos (st : list bool) (k : bool) : Prop :=
  match st with false :: _ => k = true | _ => True end.

(** [sax_inv st k s]: the containers [st] are open, innermost first, and [k]
    says that the innermost object has been given a key.  In these states a
    handler must take the events the grammar allows. *)
Class SAXLaws (S : Type) `{SAX S} := {
  sax_inv : list bool → bool → S → Prop;
  law_null st k s : sax_inv st k s → value_pos st k →
    good (sax_null s) (λ r, sax_inv st false r.2);
  law_boolean b st k s : sax_inv st k s → value_pos st k →
    good (sax_boolean b s) (λ r, sax_inv st false r.2);
  law_number_integer z st k s : sax_inv st k s → value_pos st k →
    good (sax_number_integer z s) (λ r, sax_inv st false r.2);
  law_number_unsigned z st k s : sax_inv st k s → value_pos st k →
    good (sax_number_unsigned z s) (λ r, sax_inv st false r.2);
  law_number_float f t st k s : sax_inv st k s → value_pos st k →
    good (sax_number_float f t s) (λ r, sax_inv st false r.2);
  law_string v st k s : sax_inv st k s → value_pos st k →
    good (sax_string v s) (λ r, sax_inv st false r.2);
  law_start_object st k s : sax_inv st k s → value_pos st k →
    good (sax_start_object s) (λ r, sax_inv (false :: st) false r.2);
  law_key v st k s : sax_inv (false :: st) k s →
    good (sax_key v s) (λ r, sax_inv (false :: st) true r.2);
  law_end_object st k s : sax_inv (false :: st) k s →
    good (sax_end_object s) (λ r, sax_inv st false r.2);
  law_start_array st k s : sax_inv st k s → value_pos st k →
    good (sax_start_array s) (λ r, sax_inv (true :: st) false r.2);
  law_end_array st k s : sax_inv (true :: st) k s →
    good (sax_end_array s) (λ r, sax_inv st false r.2);
  law_parse_error pos t e st k s : sax_inv st k s →
    good (sax_parse_error pos t e s) (λ r, sax_inv st k r.2)
}.

(** * The parser against the contract *)

Section parser_total.
  Context {S : Type} `{SAXLaws S} (dp : Z) (ic : bool) (Hdp : dp_ok dp = true).

Abbreviation left n p := (left_le dp ic n (m_lexer p)).

(** The last token ends the parse. *)
Definition stuck (p : parser) : Prop :=
  last_token p = token_type.end_of_input ∨ last_token p = token_type.parse_error.

Lemma get_token_ok n p :
  left n p → ∃ p', get_token p = Ret p' ∧ left n p' ∧ (stuck p' ∨ ((0 < n)%nat ∧ left (pred n) p')).
Proof.
  intros Hl. unfold get_token.
  destruct (scan_total dp ic n (m_lexer p) Hdp Hl) as (t & lx & -> & Hlx & Ht); simpl.
  eexists; split; [done|]. split; [done|]. unfold stuck; simpl. tauto.
Qed.

(** A token other than the end or an error has used up input. *)
Lemma not_stuck p t :
  last_token p = t → t ≠ token_type.end_of_input → t ≠ token_type.parse_error → ¬ stuck p.
Proof. intros <- ? ? [|]; done. Qed.

Definition ps_ok (n : nat) (ps : pstate S) : Prop :=
  left n (ps_parser ps) ∧
  if ps_skip ps then sax_inv (ps_states ps) false (ps_sax ps)
  else ∃ k, sax_inv (ps_states ps) k (ps_sax ps) ∧ value_pos (ps_states ps) k.

(** An iteration finishes, or goes on with less input or a token that ends it. *)
Definition pstep_ok (n : nat) (st : list bool) (s : pstep S) : Prop :=
  match s with
  | P_continue ps =>
      (∃ m, (m < n)%nat ∧ ps_ok m ps) ∨ (ps_ok n ps ∧ stuck (ps_parser ps) ∧ ps_skip ps = false)
  | P_evaluate sax p => sax_inv st false sax ∧ left n p
  | P_return _ sax p => (∃ st' k, sax_inv st' k sax) ∧ left n p
  end.

Lemma left_mono n m p : left n p → (n ≤ m)%nat → left m p.
Proof. apply left_le_weaken. Qed.

Lemma give_up_ok n st st' k p e sax :
  sax_inv st' k sax → left n p → good (give_up_with (report p e sax) p) (pstep_ok n st).
Proof.
  intros Hi Hl. unfold give_up_with, report. eapply good_bind; [by apply (law_parse_error _ _ _ st' k)|].
  intros [b s] Hs; simpl in *. eauto.
Qed.

Lemma checked_ok n st (Q : S → Prop) (r : sax_result S) p k :
  good r (λ r, Q r.2) → (∀ s, Q s → ∃ st' k', sax_inv st' k' s) → left n p →
  (∀ s, Q s → good (k s) (pstep_ok n st)) →
  good (checked r p k) (pstep_ok n st).
Proof.
  intros Hr HQ Hl Hk. unfold checked. eapply good_bind; [exact Hr|].
  intros [b s] Hs; simpl in *. destruct b; simpl; auto.
Qed.

Lemma continue_value_ok n st st' k m p sax :
  sax_inv st' k sax → value_pos st' k → left m p → (m ≤ n)%nat →
  (stuck p ∨ ((0 < m)%nat ∧ left (pred m) p)) →
  pstep_ok n st (P_continue (mk_pstate sax p st' false)).
Proof.
  intros Hi Hv Hl Hm [Hs|[Hpos Hl']]; simpl.
  - right. split; [|done]. split; [by eapply left_mono|by exists k].
  - left. exists (pred m). split; [lia|]. split; [done|by exists k].
Qed.

Lemma parse_member_ok n st0 st k p sax :
  sax_inv (false :: st) k sax → left n p →
  good (parse_member p (false :: st) sax) (pstep_ok n st0).
Proof.
  intros Hi Hl. unfold parse_member.
  eapply checked_ok; [by eapply law_key|eauto|done|]. intros s Hs.
  destruct (get_token_ok n p Hl) as (p1 & -> & Hl1 & Hp1); simpl.
  case_if; [by eapply give_up_ok|]. to_prop.
  destruct (get_token_ok n p1 Hl1) as (p2 & -> & Hl2 & Hp2); simpl.
  by eapply (continue_value_ok n st0).
Qed.

Lemma parse_begin_object_ok n st k p sax :
  sax_inv st k sax → value_pos st k → left n p →
  good (parse_begin_object p st sax) (pstep_ok n st).
Proof.
  intros Hi Hv Hl. unfold parse_begin_object.
  eapply checked_ok; [by eapply law_start_object|eauto|done|]. intros s Hs.
  destruct (get_token_ok n p Hl) as (p1 & -> & Hl1 & Hp1); simpl.
  case_if.
  - eapply checked_ok; [by eapply law_end_object|eauto|done|]. by simpl.
  - case_if; [by eapply give_up_ok|]. by eapply parse_member_ok.
Qed.

Lemma parse_begin_array_ok n st k p sax :
  sax_inv st k sax → value_pos st k → left n p →
  good (parse_begin_array p st sax) (pstep_ok n st).
Proof.
  intros Hi Hv Hl. unfold parse_begin_array.
  eapply checked_ok; [by eapply law_start_array|eauto|done|]. intros s Hs.
  destruct (get_token_ok n p Hl) as (p1 & -> & Hl1 & Hp1); simpl.
  case_if.
  - eapply checked_ok; [by eapply law_end_array|eauto|done|]. by simpl.
  - by eapply (continue_value_ok n st (true :: st)).
Qed.

Lemma parse_value_ok n st k p sax :
  sax_inv st k sax → value_pos st k → left n p →
  good (parse_value p st sax) (pstep_ok n st).
Proof.
  intros Hi Hv Hl. unfold parse_value.
  assert (∀ r, good r (λ r, sax_inv st false r.2) →
    good (checked r p (λ sax, Ret (P_evaluate sax p))) (pstep_ok n st)) as Hval.
  { intros r Hr. eapply checked_ok; [exact Hr|eauto|done|]. by simpl. }
  destruct (last_token p);
    first [ by eapply give_up_ok | by eapply parse_begin_array_ok
          | by eapply parse_begin_object_ok
          | apply Hval; eauto using law_null, law_boolean, law_number_integer,
              law_number_unsigned, law_string
          | case_if; [by eapply give_up_ok|];
            first [by eapply give_up_ok | apply Hval; eauto using law_number_float] ].
Qed.

Lemma evaluate_state_ok n st0 st p sax :
  sax_inv st false sax → left n p → good (evaluate_state p st sax) (pstep_ok n st0).
Proof.
  intros Hi Hl. unfold evaluate_state. destruct st as [|[] st]; [simpl; eauto|..];
    destruct (get_token_ok n p Hl) as (p1 & -> & Hl1 & Hp1); simpl.
  - case_if; [|case_if; [|by eapply give_up_ok]]; to_prop.
    + destruct (get_token_ok n p1 Hl1) as (p2 & -> & Hl2 & Hp2); simpl.
      by eapply (continue_value_ok n st0 (true :: st)).
    + eapply checked_ok; [by eapply law_end_array|eauto|done|]. intros s Hs. simpl.
      destruct Hp1 as [Hp1|[Hpos Hl1']]; [by apply (not_stuck _ _ Heqb0) in Hp1|].
      left. exists (pred n). split; [lia|]. by split.
  - case_if; [|case_if; [|by eapply give_up_ok]]; to_prop.
    + destruct (get_token_ok n p1 Hl1) as (p2 & -> & Hl2 & Hp2); simpl.
      case_if; [by eapply give_up_ok|]. by eapply parse_member_ok.
    + eapply checked_ok; [by eapply law_end_object|eauto|done|]. intros s Hs. simpl.
      destruct Hp1 as [Hp1|[Hpos Hl1']]; [by apply (not_stuck _ _ Heqb0) in Hp1|].
      left. exists (pred n). split; [lia|]. by split.
Qed.

Lemma sax_parse_step_ok n ps : ps_ok n ps → good (sax_parse_step ps) (pstep_ok n []).
Proof.
  destruct ps as [sax p st skip]. intros [Hl Hps]; simpl in *. destruct skip.
  - by apply evaluate_state_ok.
  - destruct Hps as (k & Hi & Hv).
    eapply good_bind; [by eapply parse_value_ok|]. intros [ps'|s p'|b s p'] Hs; simpl in *.
    + done.
    + destruct Hs. by apply evaluate_state_ok.
    + done.
Qed.

(** An iteration that starts with the end of the input or an error returns. *)
Lemma sax_parse_step_stuck ps ps' :
  stuck (ps_parser ps) → ps_skip ps = false → sax_parse_step ps ≠ Ret (P_continue ps').
Proof.
  destruct ps as [sax p st skip]; simpl. intros Hs ->. unfold parse_value.
  destruct Hs as [-> | ->]; unfold give_up_with, syntax_error; [case_if|..];
    match goal with |- context [report ?a ?b ?c] => destruct (report a b c) as [[]| | | |] end;
    simpl; congruence.
Qed.

Lemma sax_parse_loop_total fuel n ps :
  ps_ok n ps → (1 + n < fuel)%nat ∨ (stuck (ps_parser ps) ∧ ps_skip ps = false ∧ (0 < fuel)%nat) →
  good (sax_parse_loop fuel ps)
    (λ r, (∃ st k, sax_inv st k r.1.2) ∧ left n r.2).
Proof.
  revert n ps. induction fuel as [|fuel IH]; intros n ps Hps Hf; [lia|].
  simpl. pose proof (sax_parse_step_ok n ps Hps) as Hstep.
  destruct (sax_parse_step ps) as [[ps'|s p|b s p]| | | |] eqn:E; simpl in *; try done.
  - destruct Hf as [Hf|(Hs & Hk & _)]; [|by apply (sax_parse_step_stuck _ _ Hs) in E].
    destruct Hstep as [(m & Hm & Hps')|(Hps' & Hs & Hk)].
    + eapply good_mono; [apply (IH m); [done|left; lia]|].
      intros [[b s] p] [Hi Hl]; simpl in *. split; [done|]. eapply left_mono; [done|lia].
    + apply IH; [done|]. right. split; [done|]. split; [done|lia].
  - destruct Hstep. eauto.
Qed.

(** Under the contract the parser terminates, with a result or an exception,
    and fails no assertion. *)
Lemma sax_parse_internal_total n p sax :
  left n p → sax_inv [] false sax →
  good (sax_parse_internal p sax) (λ r, (∃ st k, sax_inv st k r.1.2) ∧ left n r.2).
Proof.
  intros Hl Hi. unfold sax_parse_internal.
  pose proof (left_le_pending _ _ _ _ Hl) as Hp. unfold input_fuel in Hp.
  eapply good_mono; [apply (sax_parse_loop_total _ (length (pending (m_lexer p))))|].
  - split; simpl; [|by exists false].
    by apply (input_fuel_left _ _ _ _ Hl).
  - left. unfold parse_fuel. lia.
  - intros [[b s] p'] [Hs Hl']; simpl in *. split; [done|]. eapply left_mono; [done|lia].
Qed.

Lemma sax_parse_total n p sax :
  left n p → sax_inv [] false sax → good (sax_parse true p sax) (λ _, True).
Proof.
  intros Hl Hi. unfold sax_parse. eapply good_bind; [by eapply sax_parse_internal_total|].
  intros [[b s] p'] [(st & k & Hs) Hl']; simpl in *. destruct b; simpl; [|done].
  destruct (get_token_ok n p' Hl') as (p1 & -> & Hl1 & _); simpl.
  case_if; [|done]. unfold syntax_error, report.
  eapply good_bind; [by eapply law_parse_error|]. by intros [b' s'].
Qed.
End parser_total.

(** * The acceptor fulfils the contract *)

#[export] Program Instance acceptor_laws : SAXLaws json_sax_acceptor := {|
  sax_inv _ _ _ := True
|}.
Solve All Obligations with by intros.

(** * Pointers into the value under construction *)

Lemma get_path_app r p q :
  get_path r (p ++ q) = match get_path r p with Some j => get_path j q | None => None end.
Proof.
  revert r. induction p as [|[i|k] p IH]; intros r; simpl; [done|..]; destruct r; try done;
    case_match; auto.
Qed.

Lemma get_set_path r p j v : get_path r p = Some j → get_path (set_path r p v) p = Some v.
Proof.
  revert r. induction p as [|[i|k] p IH]; intros r; simpl; [done|..]; destruct r; try done.
  - destruct (l !! i) as [x|] eqn:E; [|done]. intros Hx.
    rewrite list_lookup_insert_eq by (by eapply lookup_lt_Some). auto.
  - destruct (obj_find k m) as [x|] eqn:E; [|done]. intros Hx.
    rewrite obj_find_set_eq. auto.
Qed.

Lemma set_set_path r p j v w :
  get_path r p = Some j → set_path (set_path r p v) p w = set_path r p w.
Proof.
  revert r. induction p as [|[i|k] p IH]; intros r; simpl; [done|..]; destruct r; try done.
  - destruct (l !! i) as [x|] eqn:E; [|done]. intros Hx. simpl.
    rewrite list_lookup_insert_eq by (by eapply lookup_lt_Some).
    by rewrite IH, list_insert_insert_eq.
  - destruct (obj_find k m) as [x|] eqn:E; [|done]. intros Hx. simpl.
    by rewrite obj_find_set_eq, IH, obj_set_set.
Qed.

Lemma set_path_app r p q j v :
  get_path r p = Some j → set_path r (p ++ q) v = set_path r p (set_path j q v).
Proof.
  revert r. induction p as [|[i|k] p IH]; intros r; simpl; [by intros [= ->]|..]; destruct r; try done.
  - destruct (l !! i) as [x|] eqn:E; [|done]. intros Hx. by rewrite IH.
  - destruct (obj_find k m) as [x|] eqn:E; [|done]. intros Hx. by rewrite IH.
Qed.

(** * The DOM builder fulfils the contract *)

Definition kind (b : bool) (j : json) : bool := if b then is_array j else is_object j.

Definition kind_at (b : bool) (r : json) (p : path) : Prop :=
  ∃ j, get_path r p = Some j ∧ kind b j = true.

Lemma kind_set b j s q v : kind b j = true → kind b (set_path j (s :: q) v) = true.
Proof.
  destruct b, j; try done; intros _; destruct s; simpl; try done; by case_match.
Qed.

(** Writing below a container does not change what kind it is. *)
Lemma kind_at_set_below b r p s q v :
  kind_at b r p → kind_at b (set_path r (p ++ s :: q) v) p.
Proof.
  intros (j & Hj & Hk). rewrite (set_path_app _ _ _ _ _ Hj).
  eexists. split; [by eapply get_set_path|]. by apply kind_set.
Qed.

(** The open containers lie on one path from the root. *)
Fixpoint open_at (r : json) (rs : list path) (st : list bool) : Prop :=
  match rs, st with
  | [], [] => True
  | p :: rs', b :: st' =>
      kind_at b r p ∧ match rs' with [] => True | q :: _ => ∃ s t, p = q ++ s :: t end ∧
      open_at r rs' st'
  | _, _ => False
  end.

Lemma open_at_set r rs st q t v :
  open_at r rs st → head rs = Some q →
  (∀ b, kind_at b r q → kind_at b (set_path r (q ++ t) v) q) →
  open_at (set_path r (q ++ t) v) rs st.
Proof.
  revert st q t. induction rs as [|p rs IH]; intros st q t Ho Hq Hk; [done|].
  injection Hq as ->. destruct st as [|b st]; [done|]. destruct Ho as (Hkq & Hc & Ho).
  split; [auto|]. split; [done|].
  destruct rs as [|q' rs]; [by destruct st|]. destruct Hc as (s & t' & ->).
  rewrite <- app_assoc. simpl. apply IH; [done..|].
  intros b'. by apply kind_at_set_below.
Qed.

Definition dom_inv (st : list bool) (k : bool) (d : json_sax_dom_parser) : Prop :=
  open_at (root d) (ref_stack d) st ∧
  (k = true → ∃ top rest key j, ref_stack d = top :: rest ∧
     object_element d = Some (top ++ [p_key key]) ∧ get_path (root d) (top ++ [p_key key]) = Some j).

(** What a value event does: the value goes into the slot that is open. *)
Lemma handle_value_ok st k v d :
  dom_inv st k d → value_pos st k →
  ∃ ref d', handle_value v d = Ret (ref, d') ∧ ref_stack d' = ref_stack d ∧
    open_at (root d') (ref_stack d') st ∧ get_path (root d') ref = Some v ∧
    (∀ q, head (ref_stack d) = Some q → ∃ s t, ref = q ++ s :: t).
Proof.
  intros [Ho He] Hv. unfold handle_value.
  destruct (ref_stack d) as [|top rest] eqn:Hrs.
  - destruct st; [|done]. do 2 eexists. repeat split; done.
  - destruct st as [|b st]; [done|]. pose proof Ho as ((j & Hj & Hk) & Hc & Ho').
    rewrite Hj. destruct b; simpl in Hk; unfold is_array, is_object, has_type in Hk;
      destruct j; try done.
    + do 2 eexists. split; [done|]. simpl. split; [done|].
      pose proof (open_at_set (root d) (top :: rest) (true :: st) top [] (J_array (l ++ [v])))
        as Hset. rewrite app_nil_r in Hset.
      split; [apply Hset; [done..|]|].
      { intros b (j & Hj' & Hk'). rewrite Hj in Hj'. simplify_eq.
        eexists. split; [by eapply get_set_path|]. by destruct b. }
      split; [|intros q [= ->]; eauto].
      rewrite get_path_app, (get_set_path _ _ _ _ Hj). simpl.
      by rewrite list_lookup_middle.
    + simpl in Hv. subst k. destruct He as (top' & rest' & key & j & [= <- <-] & -> & Hj');
        [done|]. do 2 eexists. split; [done|]. simpl. split; [done|].
      pose proof (open_at_set (root d) (top :: rest) (false :: st) top [p_key key] v) as Hset.
      split; [apply Hset; [done..|]; intros b; apply kind_at_set_below|].
      split; [by eapply get_set_path|]. intros q [= ->]. eauto.
Qed.

Lemma dom_value_ok st k v d :
  dom_inv st k d → value_pos st k → good (dom_value v d) (λ r, dom_inv st false r.2).
Proof.
  intros Hi Hv. unfold dom_value.
  destruct (handle_value_ok st k v d Hi Hv) as (ref & d' & -> & Hrs & Ho & _).
  simpl. by split.
Qed.

Lemma dom_start_ok b v st k d :
  kind b v = true → dom_inv st k d → value_pos st k →
  good (dom_start v d) (λ r, dom_inv (b :: st) false r.2).
Proof.
  intros Hb Hi Hv. unfold dom_start.
  destruct (handle_value_ok st k v d Hi Hv) as (ref & d' & -> & Hrs & Ho & Hg & Hc).
  simpl. split; [|done]. simpl. split; [by exists v|]. split; [|done].
  rewrite Hrs. destruct (ref_stack d); [done|]. by apply Hc.
Qed.

Lemma dom_end_ok b st k d :
  dom_inv (b :: st) k d → good (dom_end (kind b) d) (λ r, dom_inv st false r.2).
Proof.
  intros [Ho _]. unfold dom_end. destruct (ref_stack d) as [|top rest]; [done|].
  destruct Ho as ((j & -> & Hk) & _ & Ho). unfold assert. rewrite Hk. simpl. by split.
Qed.

Lemma dom_key_ok v st k d :
  dom_inv (false :: st) k d → good (dom_key v d) (λ r, dom_inv (false :: st) true r.2).
Proof.
  intros [Ho _]. unfold dom_key. destruct (ref_stack d) as [|top rest] eqn:Hrs; [done|].
  pose proof Ho as ((j & Hj & Hk) & Hc & Ho'). rewrite Hj.
  unfold kind, is_object, has_type in Hk. destruct j; try done. simpl.
  pose proof (open_at_set (root d) (top :: rest) (false :: st) top []
    (J_object (obj_emplace_null v m))) as Hset. rewrite app_nil_r in Hset.
  split; simpl.
  - apply Hset; [done..|]. intros b (j & Hj' & Hk'). rewrite Hj in Hj'. simplify_eq.
    eexists. split; [by eapply get_set_path|]. by destruct b.
  - intros _. assert (∃ x, obj_find v (obj_emplace_null v m) = Some x) as (x & Hx).
    { unfold obj_emplace_null. destruct (obj_find v m) eqn:E; [eauto|].
      rewrite obj_find_set_eq. eauto. }
    exists top, rest, v, x. split; [done|]. split; [done|].
    rewrite get_path_app, (get_set_path _ _ _ _ Hj). simpl. by rewrite Hx.
Qed.

Lemma dom_parse_error_ok e st k d :
  dom_inv st k d → good (dom_parse_error e d) (λ r, dom_inv st k r.2).
Proof. intros Hi. unfold dom_parse_error. by destruct (allow_exceptions d). Qed.

#[export] Instance dom_laws : SAXLaws json_sax_dom_parser := {|
  sax_inv := dom_inv;
  law_null st k s := dom_value_ok st k _ s;
  law_boolean b st k s := dom_value_ok st k _ s;
  law_number_integer z st k s := dom_value_ok st k _ s;
  law_number_unsigned z st k s := dom_value_ok st k _ s;
  law_number_float f t st k s := dom_value_ok st k _ s;
  law_string v st k s := dom_value_ok st k _ s;
  law_start_object st k s := dom_start_ok false (J_object []) st k s eq_refl;
  law_key := dom_key_ok;
  law_end_object := dom_end_ok false;
  law_start_array st k s := dom_start_ok true (J_array []) st k s eq_refl;
  law_end_array := dom_end_ok true;
  law_parse_error pos t e st k s := dom_parse_error_ok e st k s
|}.


(** * Parsing a text *)

Section parse_total.
  Context (dp : Z) (ic : bool) (Hdp : dp_ok dp = true).

Lemma init_lexer_left input :
  forallb is_byte input = true → left_le dp ic (length input) (init_lexer dp input ic).
Proof.
  intros Hb. exists input, []. split; [|done].
  repeat split; simpl; auto; try done.
Qed.

Lemma init_parser_total input :
  forallb is_byte input = true →
  ∃ p, init_parser dp input ic = Ret p ∧ left_le dp ic (length input) (m_lexer p).
Proof.
  intros Hb. unfold init_parser.
  destruct (get_token_ok dp ic Hdp (length input)
    (mk_parser token_type.uninitialized (init_lexer dp input ic))) as (p & -> & Hp & _); eauto.
  by apply init_lexer_left.
Qed.

Lemma require_end_total n p d :
  left_le dp ic n (m_lexer p) → (∃ st k, dom_inv st k d) → good (require_end p d) (λ _, True).
Proof.
  intros Hl (st & k & Hi). unfold require_end.
  destruct (get_token_ok dp ic Hdp n p Hl) as (p1 & -> & Hl1 & _); simpl.
  case_if; [|done]. unfold syntax_error, report.
  eapply good_bind; [by eapply (dom_parse_error_ok _ st k)|done].
Qed.

Lemma parser_parse_total n strict ae p :
  left_le dp ic n (m_lexer p) → good (parser_parse strict ae p) (λ _, True).
Proof.
  intros Hl. unfold parser_parse. eapply good_bind.
  { eapply (sax_parse_internal_total dp ic Hdp n); [done|]. by split. }
  intros [[b d] p'] [Hd Hl']; simpl in *.
  eapply good_bind; [destruct strict; [by eapply require_end_total|done]|].
  intros d' _. simpl. by destruct (errored d').
Qed.

Lemma json_parse_good input ae :
  forallb is_byte input = true → good (json_parse dp input ae ic) (λ _, True).
Proof.
  intros Hb. unfold json_parse. destruct (init_parser_total input Hb) as (p & -> & Hl); simpl.
  by eapply parser_parse_total.
Qed.

Lemma accept_good input :
  forallb is_byte input = true → good (accept dp input ic) (λ _, True).
Proof.
  intros Hb. unfold accept. destruct (init_parser_total input Hb) as (p & -> & Hl); simpl.
  eapply good_bind; [by eapply sax_parse_total|]. by intros [[b s] p'].
Qed.
End parse_total.
