(* ===== verification/JsonStored.v ===== *)
(** The DOM builder only stores what it is given: a property of the keys and
    of the leaves of a value, with the order of the keys of every object, is
    kept by every event.  The text parser and the binary readers instantiate
    the property with what their input can contain. *)

From S2P Require Import Prelude JsonValue JsonParser.

Section stored.
  Context (kp : cstring → bool) (lp : json → bool).

Definition node_stored (j : json) : bool :=
  match j with
  | J_object m => keys_sorted m && forallb (λ kv, kp kv.1) m
  | J_array _ => true
  | _ => lp j
  end.

Definition stored (j : json) : bool := json_forall node_stored j.

Definition member_stored (kv : cstring * json) : bool := kp kv.1 && stored kv.2.

Lemma stored_object m :
  stored (J_object m) = true ↔ keys_sorted m = true ∧ forallb member_stored m = true.
Proof.
  unfold stored. cbn [json_forall node_stored]. rewrite !andb_true_iff. split.
  - intros ((Hs & Hk) & Hv). split; [done|]. apply forallb_forall. intros kv Hin.
    unfold member_stored, stored. rewrite forallb_forall in Hk, Hv. by rewrite Hk, (Hv kv Hin).
  - intros [Hs Hm]. rewrite forallb_forall in Hm.
    repeat split; [done|apply forallb_forall; intros kv Hin..];
      specialize (Hm kv Hin); unfold member_stored in Hm; by to_prop.
Qed.

Lemma stored_array l : stored (J_array l) = true ↔ Forall (λ x, stored x = true) l.
Proof.
  change (stored (J_array l)) with (forallb stored l).
  rewrite forallb_forall, Forall_forall. by setoid_rewrite list_elem_of_In.
Qed.

Lemma stored_leaf j : is_structured j = false → lp j = true → stored j = true.
Proof. intros Hs Hl. unfold stored. destruct j; try done; cbn [json_forall node_stored]; by rewrite Hl. Qed.

Lemma obj_find_stored k m x :
  forallb member_stored m = true → obj_find k m = Some x → kp k = true ∧ stored x = true.
Proof.
  induction m as [|[k' v] m IH]; [done|]. cbn [forallb obj_find]. intros [Hm Hms]%andb_true_iff.
  unfold member_stored in Hm. cbn [fst snd] in Hm. case_if; [|auto].
  apply cs_eqb_true in Heqb as ->. intros [= <-]. by to_prop.
Qed.

Lemma obj_set_stored k v m :
  kp k = true → stored v = true → stored (J_object m) = true →
  stored (J_object (obj_set k v m)) = true.
Proof.
  intros Hk Hv. rewrite !stored_object. intros [Hs Hm]. split; [by apply obj_set_sorted|].
  clear Hs. assert (∀ k', kp k' = true → member_stored (k', v) = true) as Hkv.
  { intros k' Hk'. unfold member_stored. cbn [fst snd]. by rewrite Hk', Hv. }
  induction m as [|[k' v'] m IH]; cbn [obj_set forallb]; [by rewrite Hkv|].
  cbn [forallb] in Hm. apply andb_true_iff in Hm as [Hm1 Hm].
  case_if; [|case_if]; cbn [forallb]; rewrite ?Hm1, ?Hm, ?IH by done; [by rewrite Hkv|done|].
  rewrite Hkv; [done|]. unfold member_stored in Hm1. by to_prop.
Qed.

Lemma set_path_stored r p v :
  stored r = true → stored v = true → stored (set_path r p v) = true.
Proof.
  revert r. induction p as [|[i|k] p IH]; intros r Hr Hv; cbn [set_path]; [done|..];
    destruct r; try done.
  - destruct (l !! i) as [x|] eqn:E; [|done]. rewrite stored_array in *.
    apply Forall_insert; [done|]. apply IH; [|done]. exact (Forall_lookup_1 _ _ _ _ Hr E).
  - destruct (obj_find k m) as [x|] eqn:E; [|done].
    pose proof Hr as [_ Hm]%stored_object. destruct (obj_find_stored k m x Hm E) as [Hk Hx].
    apply obj_set_stored; auto.
Qed.

Lemma get_path_stored r p j : stored r = true → get_path r p = Some j → stored j = true.
Proof.
  revert r. induction p as [|[i|k] p IH]; intros r Hr; cbn [get_path]; [by intros [= <-]|..];
    destruct r; try done.
  - destruct (l !! i) as [x|] eqn:E; [|done]. apply IH. rewrite stored_array in Hr.
    exact (Forall_lookup_1 _ _ _ _ Hr E).
  - destruct (obj_find k m) as [x|] eqn:E; [|done]. apply IH.
    apply stored_object in Hr as [_ Hm]. by eapply obj_find_stored in E as [_ ?].
Qed.

(** * Events *)

Abbreviation keeps o := (ensures o (λ r, stored (root r.2) = true)).

Lemma handle_value_stored v d :
  stored v = true → stored (root d) = true → keeps (handle_value v d).
Proof.
  intros Hv Hd. unfold handle_value. destruct (ref_stack d) as [|top rest]; [done|].
  destruct (get_path (root d) top) as [[]|] eqn:E; try done.
  - destruct (object_element d) as [e|]; [|done]. by apply set_path_stored.
  - apply set_path_stored; [done|]. apply (get_path_stored _ _ _ Hd) in E.
    rewrite stored_array in *. by apply Forall_app_2; [|constructor].
Qed.

Lemma dom_value_stored v d : stored v = true → stored (root d) = true → keeps (dom_value v d).
Proof. intros Hv Hd. eapply ensures_bind; [by apply handle_value_stored|]. by intros [ref d']. Qed.

Lemma dom_start_stored v d : stored v = true → stored (root d) = true → keeps (dom_start v d).
Proof. intros Hv Hd. eapply ensures_bind; [by apply handle_value_stored|]. by intros [ref d']. Qed.

Lemma dom_key_stored v d :
  kp v = true → stored J_null = true → stored (root d) = true → keeps (dom_key v d).
Proof.
  intros Hv Hn Hd. unfold dom_key. destruct (ref_stack d) as [|top rest]; [done|].
  destruct (get_path (root d) top) as [[]|] eqn:E; try done.
  apply set_path_stored; [done|]. apply (get_path_stored _ _ _ Hd) in E.
  unfold obj_emplace_null. case_match; [done|]. by apply obj_set_stored.
Qed.

Lemma dom_end_stored f d : stored (root d) = true → keeps (dom_end f d).
Proof.
  intros Hd. unfold dom_end. destruct (ref_stack d) as [|top rest]; [done|].
  destruct (get_path (root d) top) as [j|]; [|done]. by apply ensures_assert.
Qed.

Lemma dom_parse_error_stored e d : stored (root d) = true → keeps (dom_parse_error e d).
Proof. intros Hd. unfold dom_parse_error. by case_if. Qed.
End stored.

(** The same property of nodes, the same property of values. *)
Lemma json_forall_mono (p q : json → bool) j :
  (∀ x, p x = true → q x = true) → json_forall p j = true → json_forall q j = true.
Proof.
  intros Hpq. induction j as [|m IH|l IH|s|b|z|z|f|b s|] using json_rect_nested; cbn [json_forall];
    intros [Hn Hc]%andb_true_iff; apply andb_true_iff; (split; [by apply Hpq|]); try done.
  - rewrite forallb_forall in *. intros kv Hkv. rewrite Forall_forall in IH.
    apply IH; [by apply list_elem_of_In|]. by apply Hc.
  - rewrite forallb_forall in *. intros x Hx. rewrite Forall_forall in IH.
    apply IH; [by apply list_elem_of_In|]. by apply Hc.
Qed.

Lemma json_forall_and p q j :
  json_forall (λ x, p x && q x) j = true → json_forall p j = true ∧ json_forall q j = true.
Proof.
  induction j as [|m IH|l IH|s|b|z|z|f|b s|] using json_rect_nested; cbn [json_forall];
    rewrite !andb_true_iff; intros [[Hp Hq] Hc]; split; (split; [done|]); try done;
    rewrite ?forallb_forall in *; intros x Hin; rewrite Forall_forall in IH;
    apply list_elem_of_In in Hin as Hin1; by apply (IH x Hin1), Hc.
Qed.

Lemma json_forall_both p q j :
  json_forall p j = true → json_forall q j = true → json_forall (λ x, p x && q x) j = true.
Proof.
  induction j as [|m IH|l IH|s|b|z|z|f|b s|] using json_rect_nested; cbn [json_forall];
    rewrite !andb_true_iff; intros [Hp Hpc] [Hq Hqc]; (split; [done|]); try done;
    rewrite ?forallb_forall in *; intros x Hin; rewrite Forall_forall in IH;
    apply list_elem_of_In in Hin as Hin1; by apply (IH x Hin1); auto.
Qed.

Lemma json_forall_ext p q j : (∀ x, p x = q x) → json_forall p j = json_forall q j.
Proof.
  intros Hpq. induction j as [|m IH|l IH|s|b|z|z|f|b s|] using json_rect_nested;
    cbn [json_forall]; rewrite Hpq; try done; f_equal; induction IH; simpl; congruence.
Qed.
