(* ===== verification/JsonHandlers.v ===== *)
(** Two handlers that take the same events let the parser take the same path:
    a simulation between runs of [sax_parse] with different handlers.  It
    gives that [accept], [parse] with exceptions and [parse] without them
    agree on which inputs are JSON texts. *)

From S2P Require Import Prelude JsonValue JsonLexer JsonLexerFacts JsonParser JsonParserFacts.

(** How a run that meets an error may end: with an exception ([None]) or with
    the handler in some state. *)
Definition ends_with {A S} (F : option S → Prop) (o : outcome json_exn A) (f : A → bool * S) :
    Prop :=
  match o with
  | Ret a => (f a).1 = false ∧ F (Some (f a).2)
  | Throw _ => F None
  | _ => False
  end.

Definition takes {S1 S2} (R : list bool → bool → S1 → S2 → Prop) (st : list bool) (k : bool)
    (r1 : sax_result S1) (r2 : sax_result S2) : Prop :=
  ∃ s1 s2, r1 = Ret (true, s1) ∧ r2 = Ret (true, s2) ∧ R st k s1 s2.

(** Both events are taken, or both report a failure. *)
Class SAXSim {S1 S2} `{SAX S1, SAX S2} (R : list bool → bool → S1 → S2 → Prop)
    (F1 : option S1 → Prop) (F2 : option S2 → Prop) := {
  sim_null st k s1 s2 : R st k s1 s2 → value_pos st k →
    takes R st false (sax_null s1) (sax_null s2);
  sim_boolean b st k s1 s2 : R st k s1 s2 → value_pos st k →
    takes R st false (sax_boolean b s1) (sax_boolean b s2);
  sim_integer z st k s1 s2 : R st k s1 s2 → value_pos st k →
    takes R st false (sax_number_integer z s1) (sax_number_integer z s2);
  sim_unsigned z st k s1 s2 : R st k s1 s2 → value_pos st k →
    takes R st false (sax_number_unsigned z s1) (sax_number_unsigned z s2);
  sim_float f t st k s1 s2 : R st k s1 s2 → value_pos st k →
    takes R st false (sax_number_float f t s1) (sax_number_float f t s2);
  sim_string v st k s1 s2 : R st k s1 s2 → value_pos st k →
    takes R st false (sax_string v s1) (sax_string v s2);
  sim_start_object st k s1 s2 : R st k s1 s2 → value_pos st k →
    takes R (false :: st) false (sax_start_object s1) (sax_start_object s2);
  sim_key v st k s1 s2 : R (false :: st) k s1 s2 →
    takes R (false :: st) true (sax_key v s1) (sax_key v s2);
  sim_end_object st k s1 s2 : R (false :: st) k s1 s2 →
    takes R st false (sax_end_object s1) (sax_end_object s2);
  sim_start_array st k s1 s2 : R st k s1 s2 → value_pos st k →
    takes R (true :: st) false (sax_start_array s1) (sax_start_array s2);
  sim_end_array st k s1 s2 : R (true :: st) k s1 s2 →
    takes R st false (sax_end_array s1) (sax_end_array s2);
  sim_parse_error pos t e st k s1 s2 : R st k s1 s2 →
    ends_with F1 (sax_parse_error pos t e s1) id ∧ ends_with F2 (sax_parse_error pos t e s2) id
}.

Section simulation.
  Context {S1 S2 : Type} `{SAXSim S1 S2 R F1 F2} (dp : Z) (ic : bool) (Hdp : dp_ok dp = true).

Definition sim_ps (ps1 : pstate S1) (ps2 : pstate S2) : Prop :=
  ps_parser ps1 = ps_parser ps2 ∧ ps_states ps1 = ps_states ps2 ∧ ps_skip ps1 = ps_skip ps2 ∧
  (∃ n, left_le dp ic n (m_lexer (ps_parser ps1))) ∧
  if ps_skip ps1 then R (ps_states ps1) false (ps_sax ps1) (ps_sax ps2)
  else ∃ k, R (ps_states ps1) k (ps_sax ps1) (ps_sax ps2) ∧ value_pos (ps_states ps1) k.

(** The parsers may only differ in how they end after an error. *)
Definition sim_pstep (st : list bool) (o1 : outcome json_exn (pstep S1))
    (o2 : outcome json_exn (pstep S2)) : Prop :=
  match o1, o2 with
  | Ret (P_continue ps1), Ret (P_continue ps2) => sim_ps ps1 ps2
  | Ret (P_evaluate s1 p1), Ret (P_evaluate s2 p2) =>
      p1 = p2 ∧ R st false s1 s2 ∧ ∃ n, left_le dp ic n (m_lexer p1)
  | Ret (P_return true s1 p1), Ret (P_return true s2 p2) =>
      p1 = p2 ∧ (∃ st' k, R st' k s1 s2) ∧ ∃ n, left_le dp ic n (m_lexer p1)
  | Ret (P_return false s1 _), Ret (P_return false s2 _) => F1 (Some s1) ∧ F2 (Some s2)
  | Ret (P_return false s1 _), Throw _ => F1 (Some s1) ∧ F2 None
  | Throw _, Ret (P_return false s2 _) => F1 None ∧ F2 (Some s2)
  | Throw _, Throw _ => F1 None ∧ F2 None
  | _, _ => False
  end.

Lemma give_up_sim st st' k p e s1 s2 :
  R st' k s1 s2 →
  sim_pstep st (give_up_with (report p e s1) p) (give_up_with (report p e s2) p).
Proof.
  intros Hr. unfold give_up_with, report.
  destruct (sim_parse_error (chars_read_total (position (m_lexer p)))
    (get_token_string (m_lexer p)) e st' k s1 s2 Hr) as [He1 He2].
  destruct (sax_parse_error _ _ e s1) as [[[] ?]| | | |]; simpl in He1; try done;
    destruct (sax_parse_error _ _ e s2) as [[[] ?]| | | |]; simpl in He2; try done; simpl;
    naive_solver.
Qed.

Lemma checked_sim st st' k r1 r2 p f1 f2 :
  takes R st' k r1 r2 →
  (∀ s1 s2, R st' k s1 s2 → sim_pstep st (f1 s1) (f2 s2)) →
  sim_pstep st (checked r1 p f1) (checked r2 p f2).
Proof. intros (s1 & s2 & -> & -> & Hr) Hf. simpl. auto. Qed.

Lemma get_token_left p :
  (∃ n, left_le dp ic n (m_lexer p)) →
  ∃ p', get_token p = Ret p' ∧ ∃ n, left_le dp ic n (m_lexer p').
Proof.
  intros [n Hn]. destruct (get_token_ok dp ic Hdp n p Hn) as (p' & Hp & Hl & _). eauto.
Qed.

Lemma parse_member_sim st0 st k p s1 s2 :
  R (false :: st) k s1 s2 → (∃ n, left_le dp ic n (m_lexer p)) →
  sim_pstep st0 (parse_member p (false :: st) s1) (parse_member p (false :: st) s2).
Proof.
  intros Hr Hl. unfold parse_member. eapply checked_sim; [by eapply sim_key|].
  intros s1' s2' Hr'. destruct (get_token_left p Hl) as (p1 & -> & Hl1); simpl.
  case_if; [by eapply give_up_sim|].
  destruct (get_token_left p1 Hl1) as (p2 & -> & Hl2); simpl.
  repeat split; [done|]. by exists true.
Qed.

Lemma parse_value_sim st k p s1 s2 :
  R st k s1 s2 → value_pos st k → (∃ n, left_le dp ic n (m_lexer p)) →
  sim_pstep st (parse_value p st s1) (parse_value p st s2).
Proof.
  intros Hr Hv Hl. unfold parse_value.
  assert (∀ r1 r2, takes R st false r1 r2 →
    sim_pstep st (checked r1 p (λ sax, Ret (P_evaluate sax p)))
                 (checked r2 p (λ sax, Ret (P_evaluate sax p)))) as Hval.
  { intros r1 r2 Ht. eapply checked_sim; [done|]. intros; simpl; auto. }
  destruct (last_token p);
    try (by eapply give_up_sim);
    try (apply Hval; eauto using sim_null, sim_boolean, sim_integer, sim_unsigned, sim_string);
    try (case_if; [by eapply give_up_sim|];
         first [by eapply give_up_sim | apply Hval; eauto using sim_float]).
  - unfold parse_begin_array. eapply checked_sim; [by eapply sim_start_array|].
    intros s1' s2' Hr'. destruct (get_token_left p Hl) as (p1 & -> & Hl1); simpl.
    case_if.
    + eapply checked_sim; [by eapply sim_end_array|]. intros; simpl; auto.
    + repeat split; [done|]. by exists false.
  - unfold parse_begin_object. eapply checked_sim; [by eapply sim_start_object|].
    intros s1' s2' Hr'. destruct (get_token_left p Hl) as (p1 & -> & Hl1); simpl.
    case_if.
    + eapply checked_sim; [by eapply sim_end_object|]. intros; simpl; auto.
    + case_if; [by eapply give_up_sim|]. by eapply parse_member_sim.
Qed.

Lemma evaluate_state_sim st0 st p s1 s2 :
  R st false s1 s2 → (∃ n, left_le dp ic n (m_lexer p)) →
  sim_pstep st0 (evaluate_state p st s1) (evaluate_state p st s2).
Proof.
  intros Hr Hl. unfold evaluate_state. destruct st as [|[] st]; [simpl; eauto 10|..];
    destruct (get_token_left p Hl) as (p1 & -> & Hl1); simpl;
    (case_if; [|case_if; [|by eapply give_up_sim]]);
    try (destruct (get_token_left p1 Hl1) as (p2 & -> & Hl2); simpl).
  - repeat split; [done|]. by exists false.
  - eapply checked_sim; [by eapply sim_end_array|]. intros; simpl. by repeat split.
  - case_if; [by eapply give_up_sim|]. by eapply parse_member_sim.
  - eapply checked_sim; [by eapply sim_end_object|]. intros; simpl. by repeat split.
Qed.

Lemma sax_parse_step_sim ps1 ps2 :
  sim_ps ps1 ps2 → sim_pstep [] (sax_parse_step ps1) (sax_parse_step ps2).
Proof.
  destruct ps1 as [s1 p1 st1 sk1], ps2 as [s2 p2 st2 sk2].
  intros (Hp & Hst & Hsk & Hl & Hr); simpl in *; subst. destruct sk2.
  - by apply evaluate_state_sim.
  - destruct Hr as (k & Hr & Hv). pose proof (parse_value_sim st2 k p2 s1 s2 Hr Hv Hl) as Hs.
    destruct (parse_value p2 st2 s1) as [[| |[]]| | | |]; try done;
      destruct (parse_value p2 st2 s2) as [[| |[]]| | | |]; try done.
    destruct Hs as (-> & Hs & Hl'). by apply evaluate_state_sim.
Qed.

(** What the runs of the two parsers have in common. *)
Definition sim_result (o1 : outcome json_exn (bool * S1 * parser))
    (o2 : outcome json_exn (bool * S2 * parser)) : Prop :=
  o1 = Diverge ∨
  (∃ s1 s2 p, o1 = Ret (true, s1, p) ∧ o2 = Ret (true, s2, p) ∧ (∃ st k, R st k s1 s2) ∧
     ∃ n, left_le dp ic n (m_lexer p)) ∨
  (ends_with F1 o1 fst ∧ ends_with F2 o2 fst).

Lemma sax_parse_loop_sim fuel ps1 ps2 :
  sim_ps ps1 ps2 → sim_result (sax_parse_loop fuel ps1) (sax_parse_loop fuel ps2).
Proof.
  revert ps1 ps2. induction fuel as [|fuel IH]; intros ps1 ps2 Hps; [by left|].
  simpl. pose proof (sax_parse_step_sim ps1 ps2 Hps) as Hs.
  destruct (sax_parse_step ps1) as [[|? ?|[] ? ?]| | | |]; try done;
    destruct (sax_parse_step ps2) as [[|? ?|[] ? ?]| | | |]; try done; simpl in *.
  - by apply IH.
  - destruct Hs as (-> & Hr & Hl). right; left. do 3 eexists. eauto 10.
  - destruct Hs as (-> & Hr & Hl). right; left. do 3 eexists. eauto 10.
  - right; right; simpl; tauto.
  - right; right; simpl; tauto.
  - right; right; simpl; tauto.
  - right; right; simpl; tauto.
Qed.
End simulation.

(** * The acceptor and the DOM builder, with and without exceptions *)

Definition dom_good (ae : bool) (st : list bool) (k : bool) (d : json_sax_dom_parser) : Prop :=
  dom_inv st k d ∧ errored d = false ∧ allow_exceptions d = ae.

(** A failed DOM parse throws when exceptions are allowed, and else leaves
    the builder marked. *)
Definition dom_failed (ae : bool) (o : option json_sax_dom_parser) : Prop :=
  match o with
  | None => ae = true
  | Some d => ae = false ∧ errored d = true ∧ allow_exceptions d = false ∧
      ∃ st k, dom_inv st k d
  end.

Definition acc_dom (st : list bool) (k : bool) (a : json_sax_acceptor)
    (d : json_sax_dom_parser) : Prop := dom_good true st k d.

Definition quiet (d : json_sax_dom_parser) : json_sax_dom_parser :=
  mk_dom (root d) (ref_stack d) (object_element d) (errored d) false.

Definition dom_dom (st : list bool) (k : bool) (d1 d2 : json_sax_dom_parser) : Prop :=
  dom_good true st k d1 ∧ d2 = quiet d1.

Lemma handle_value_flags v d :
  match handle_value v d with
  | Ret (ref, d') => errored d' = errored d ∧ allow_exceptions d' = allow_exceptions d
  | _ => True
  end.
Proof. unfold handle_value. by repeat case_match; simplify_eq. Qed.

Lemma handle_value_quiet v d :
  handle_value v (quiet d) =
  match handle_value v d with
  | Ret (ref, d') => Ret (ref, quiet d')
  | o => o
  end.
Proof. unfold handle_value. simpl. by repeat case_match; simplify_eq. Qed.

(** Events other than errors are taken, and do not look at the flags. *)
Definition plain (ev : json_sax_dom_parser → sax_result json_sax_dom_parser) : Prop :=
  ∀ d, match ev d with
       | Ret (b, d') =>
           b = true ∧ errored d' = errored d ∧ allow_exceptions d' = allow_exceptions d ∧
           ev (quiet d) = Ret (true, quiet d')
       | Throw _ => False
       | _ => True
       end.

Lemma plain_value v : plain (dom_value v).
Proof.
  intros d. unfold dom_value. rewrite handle_value_quiet.
  pose proof (handle_value_flags v d) as Hf.
  destruct (handle_value v d) as [[ref d']|e| | |] eqn:E; simpl; try done; [naive_solver|].
  unfold handle_value in E. by repeat case_match.
Qed.

Lemma plain_start v : plain (dom_start v).
Proof.
  intros d. unfold dom_start. rewrite handle_value_quiet.
  pose proof (handle_value_flags v d) as Hf.
  destruct (handle_value v d) as [[ref d']|e| | |] eqn:E; simpl; try done; [naive_solver|].
  unfold handle_value in E. by repeat case_match.
Qed.

Lemma plain_key v : plain (dom_key v).
Proof.
  intros d. unfold dom_key. simpl. destruct (ref_stack d) as [|top rest]; [done|].
  by destruct (get_path (root d) top) as [[]|].
Qed.

Lemma plain_end f : plain (dom_end f).
Proof.
  intros d. unfold dom_end, assert. simpl. destruct (ref_stack d) as [|top rest]; [done|].
  destruct (get_path (root d) top) as [j|]; [|done]. by destruct (f j).
Qed.

Lemma plain_takes_acc ev st k st' k' d a :
  plain ev → good (ev d) (λ r, dom_inv st' k' r.2) → acc_dom st k a d →
  takes acc_dom st' k' (Ret (true, a)) (ev d).
Proof.
  intros Hp Hg (Hi & He & Ha). specialize (Hp d).
  destruct (ev d) as [[b d']| | | |]; try done. destruct Hp as (-> & He' & Ha' & _).
  do 2 eexists. split; [done|]. split; [done|]. split; [done|]. by rewrite He', Ha'.
Qed.

Lemma plain_takes_dom ev st k st' k' d1 d2 :
  plain ev → good (ev d1) (λ r, dom_inv st' k' r.2) → dom_dom st k d1 d2 →
  takes dom_dom st' k' (ev d1) (ev d2).
Proof.
  intros Hp Hg ((Hi & He & Ha) & ->). specialize (Hp d1).
  destruct (ev d1) as [[b d']| | | |]; try done. destruct Hp as (-> & He' & Ha' & ->).
  do 2 eexists. split; [done|]. split; [done|]. split; [|done].
  split; [done|]. by rewrite He', Ha'.
Qed.

(** What the DOM builder's events preserve, in the form the simulations use. *)
Lemma dom_array_start_ok st k d :
  dom_inv st k d → value_pos st k →
  good (dom_start (J_array []) d) (λ r, dom_inv (true :: st) false r.2).
Proof. by apply dom_start_ok. Qed.

Lemma dom_object_start_ok st k d :
  dom_inv st k d → value_pos st k →
  good (dom_start (J_object []) d) (λ r, dom_inv (false :: st) false r.2).
Proof. by apply dom_start_ok. Qed.

Lemma dom_array_end_ok st k d :
  dom_inv (true :: st) k d → good (dom_end is_array d) (λ r, dom_inv st false r.2).
Proof. exact (dom_end_ok true st k d). Qed.

Lemma dom_object_end_ok st k d :
  dom_inv (false :: st) k d → good (dom_end is_object d) (λ r, dom_inv st false r.2).
Proof. exact (dom_end_ok false st k d). Qed.

Create HintDb handlers.
#[local] Hint Resolve plain_value plain_start plain_key plain_end dom_value_ok dom_key_ok
  dom_array_start_ok dom_object_start_ok dom_array_end_ok dom_object_end_ok : handlers.

#[export] Instance acc_dom_sim : SAXSim acc_dom is_Some (dom_failed true).
Proof.
  split; simpl; intros;
    try (match goal with H : acc_dom _ _ _ _ |- _ => pose proof (proj1 H) end;
         eapply plain_takes_acc; [eauto with handlers..|eassumption]).
  destruct H as (Hi & He & Ha). unfold dom_parse_error. rewrite Ha. simpl. eauto.
Qed.

#[export] Instance dom_dom_sim : SAXSim dom_dom (dom_failed true) (dom_failed false).
Proof.
  split; simpl; intros;
    try (match goal with H : dom_dom _ _ _ _ |- _ => pose proof (proj1 (proj1 H)) end;
         eapply plain_takes_dom; [eauto with handlers..|eassumption]).
  destruct H as ((Hi & He & Ha) & ->). simpl. unfold dom_parse_error. rewrite Ha. simpl.
  repeat split. by exists st, k.
Qed.

(** * The entry points agree *)

Section entry_points.
  Context (dp : Z) (ic : bool) (Hdp : dp_ok dp = true).

Definition new_dom (ae : bool) : json_sax_dom_parser := mk_dom J_null [] None false ae.

Lemma internal_not_diverge {S} `{SAXLaws S} n p (s : S) :
  left_le dp ic n (m_lexer p) → sax_inv [] false s → sax_parse_internal p s ≠ Diverge.
Proof.
  intros Hl Hi Hd. pose proof (sax_parse_internal_total dp ic Hdp n p s Hl Hi) as Hg.
  by rewrite Hd in Hg.
Qed.

Lemma new_dom_good ae : dom_good ae [] false (new_dom ae).
Proof. by repeat split. Qed.

(** The three runs of the parser after its first token. *)
Lemma internal_sims n p :
  left_le dp ic n (m_lexer p) →
  (∃ d p', sax_parse_internal p mk_acceptor = Ret (true, mk_acceptor, p') ∧
     sax_parse_internal p (new_dom true) = Ret (true, d, p') ∧
     sax_parse_internal p (new_dom false) = Ret (true, quiet d, p') ∧
     (∃ st k, dom_good true st k d) ∧ ∃ n, left_le dp ic n (m_lexer p')) ∨
  (∃ e d p1 p2, sax_parse_internal p mk_acceptor = Ret (false, mk_acceptor, p1) ∧
     sax_parse_internal p (new_dom true) = Throw e ∧
     sax_parse_internal p (new_dom false) = Ret (false, d, p2) ∧
     dom_failed false (Some d) ∧ ∃ n, left_le dp ic n (m_lexer p2)).
Proof.
  intros Hl. pose proof (new_dom_good true) as Hg. pose proof (new_dom_good false) as Hg'.
  assert (sim_result (R := acc_dom) (F1 := is_Some) (F2 := dom_failed true) dp ic
    (sax_parse_internal p mk_acceptor) (sax_parse_internal p (new_dom true))) as H1.
  { apply sax_parse_loop_sim; [done|]. repeat split; [by exists n|]. by exists false. }
  assert (sim_result (R := dom_dom) (F1 := dom_failed true) (F2 := dom_failed false) dp ic
    (sax_parse_internal p (new_dom true)) (sax_parse_internal p (new_dom false))) as H2.
  { apply sax_parse_loop_sim; [done|]. repeat split; [by exists n|]. by exists false. }
  pose proof (sax_parse_internal_total dp ic Hdp n p (new_dom false) Hl (proj1 Hg')) as Hleft.
  destruct H1 as [H1|[(s1 & d & p' & E1 & E2 & (st & k & Hd) & Hl')|[E1 E2]]].
  { by apply (internal_not_diverge n) in H1. }
  - left. exists d, p'. rewrite E1, E2 in *. destruct s1. repeat split; [|by exists st, k|done].
    destruct H2 as [H2|[(d1 & d2 & p2 & E3 & -> & (st' & k' & _ & ->) & _)|[E3 _]]]; [done|..].
    + by injection E3 as -> ->.
    + by destruct E3.
  - right. destruct (sax_parse_internal p (new_dom true)) as [[[b d] p']|e| | |] eqn:E;
      simpl in E2; try done; [by destruct E2 as (_ & ? & _)|].
    destruct H2 as [H2|[(d1 & d2 & p2 & E3 & _)|[_ E3]]]; [done..|].
    destruct (sax_parse_internal p mk_acceptor) as [[[b1 []] p1]| | | |]; simpl in E1; try done.
    destruct (sax_parse_internal p (new_dom false)) as [[[b2 d] p2]| | | |];
      simpl in E3; try done.
    destruct E1 as (-> & _), E3 as (-> & E3). simpl in Hleft. destruct Hleft as [_ Hl2].
    exists e, d, p1, p2. eauto 10.
Qed.

Lemma require_end_quiet n p d :
  left_le dp ic n (m_lexer p) → (∃ st k, dom_inv st k d) →
  errored d = true → allow_exceptions d = false →
  ∃ d', require_end p d = Ret d' ∧ errored d' = true.
Proof.
  intros Hl Hi He Ha. unfold require_end.
  destruct (get_token_ok dp ic Hdp n p Hl) as (p1 & -> & _); simpl.
  case_if; [|by eauto]. unfold syntax_error, report. simpl. unfold dom_parse_error.
  rewrite Ha. simpl. eauto.
Qed.

Lemma entry_points_agree input :
  forallb is_byte input = true →
  match json_parse dp input true ic with
  | Ret j => accept dp input ic = Ret true ∧ json_parse dp input false ic = Ret j
  | Throw _ => accept dp input ic = Ret false ∧ json_parse dp input false ic = Ret J_discarded
  | _ => False
  end.
Proof.
  intros Hb. unfold json_parse, accept, parser_parse, sax_parse.
  destruct (init_parser_total dp ic Hdp input Hb) as (p & -> & Hl); cbn [mbind outcome_bind].
  fold (new_dom true) (new_dom false).
  destruct (internal_sims _ p Hl) as
    [(d & p' & -> & -> & -> & (st & k & Hi & He & Ha) & n & Hl')|
     (e & d & p1 & p2 & -> & -> & -> & (_ & He & Ha & Hi) & n & Hl2)]; simpl.
  - unfold require_end. destruct (get_token_ok dp ic Hdp n p' Hl') as (p3 & -> & _); simpl.
    case_if; simpl; [|by rewrite He]. unfold syntax_error, report, dom_parse_error. simpl.
    by rewrite Ha.
  - split; [done|]. destruct (require_end_quiet n p2 d) as (d' & -> & He'); eauto.
    simpl. by rewrite He'.
Qed.
End entry_points.
