(* ===== verification/JsonGrammar.v ===== *)
(** The grammar of JSON texts (RFC 8259) as an inductive relation between
    values and texts, and that the parser builds the value of every text:
    white space is skipped, members are stored in key order, and of repeated
    keys the last one counts. *)

From S2P Require Import Prelude JsonValue JsonLexer JsonLexerFacts Utf8 JsonTokens JsonNumbers.
From S2P Require Import JsonParser JsonParserFacts JsonHandlers.

(** * The grammar *)

Definition spaces (ws : cstring) : Prop := forallb is_space ws = true.

Inductive scalar_text : json → cstring → Prop :=
| st_null : scalar_text J_null (str "null")
| st_true : scalar_text (J_boolean true) (str "true")
| st_false : scalar_text (J_boolean false) (str "false")
| st_string s t : escapes t s → scalar_text (J_string s) (34 :: t ++ [34])
| st_number j t : number_json t = Some j → scalar_text j t.

Definition build_object (ms : list (cstring * json)) (m : list (cstring * json)) :
    list (cstring * json) :=
  foldl (λ m kv, obj_set kv.1 kv.2 m) m ms.

Inductive jtext : json → cstring → Prop :=
| jt_scalar j t : scalar_text j t → jtext j t
| jt_array_empty ws : spaces ws → jtext (J_array []) (91 :: ws ++ [93])
| jt_array l t : jelems l t → jtext (J_array l) (91 :: t ++ [93])
| jt_object_empty ws : spaces ws → jtext (J_object []) (123 :: ws ++ [125])
| jt_object ms t : jmembers ms t → jtext (J_object (build_object ms [])) (123 :: t ++ [125])
with jelems : list json → cstring → Prop :=
| je_one ws1 j t ws2 : spaces ws1 → jtext j t → spaces ws2 → jelems [j] (ws1 ++ t ++ ws2)
| je_cons ws1 j t ws2 l t' : spaces ws1 → jtext j t → spaces ws2 → jelems l t' →
    jelems (j :: l) (ws1 ++ t ++ ws2 ++ 44 :: t')
with jmembers : list (cstring * json) → cstring → Prop :=
| jm_one ws1 k kt ws2 ws3 j t ws4 :
    spaces ws1 → escapes kt k → spaces ws2 → spaces ws3 → jtext j t → spaces ws4 →
    jmembers [(k, j)] (ws1 ++ 34 :: kt ++ 34 :: ws2 ++ 58 :: ws3 ++ t ++ ws4)
| jm_cons ws1 k kt ws2 ws3 j t ws4 ms t' :
    spaces ws1 → escapes kt k → spaces ws2 → spaces ws3 → jtext j t → spaces ws4 →
    jmembers ms t' →
    jmembers ((k, j) :: ms) (ws1 ++ 34 :: kt ++ 34 :: ws2 ++ 58 :: ws3 ++ t ++ ws4 ++ 44 :: t').

Scheme jtext_mut := Induction for jtext Sort Prop
  with jelems_mut := Induction for jelems Sort Prop
  with jmembers_mut := Induction for jmembers Sort Prop.
Combined Scheme grammar_ind from jtext_mut, jelems_mut, jmembers_mut.

(** * Texts are byte strings

    without the zero byte. *)

Definition text_byte (c : Z) : bool := (0 <? c) && (c <? 256).

Lemma text_is_bytes t : forallb text_byte t = true → forallb is_byte t = true.
Proof.
  induction t as [|c t IH]; simpl; [done|]. intros [Hc Ht]%andb_true_iff. rewrite IH by done.
  unfold text_byte in Hc. unfold is_byte. zify_bool. lia.
Qed.

Lemma spaces_bytes ws : spaces ws → forallb text_byte ws = true.
Proof.
  unfold spaces. induction ws as [|c ws IH]; simpl; [done|]. intros [Hc Hws]%andb_true_iff.
  rewrite IH by done. unfold is_space in Hc. unfold text_byte. rewrite !orb_true_iff, !Z.eqb_eq in Hc.
  zify_bool. lia.
Qed.

Lemma hex4_bytes h cp : hex4 h cp → forallb text_byte h = true.
Proof.
  intros (h1 & h2 & h3 & h4 & d1 & d2 & d3 & d4 & -> & E1 & E2 & E3 & E4 & _).
  assert (∀ c d, hex_digit c = Some d → text_byte c = true) as Hhex.
  { intros c d. unfold hex_digit, in_range, text_byte. repeat case_if; try done; intros _;
      to_prop; zify_bool; lia. }
  simpl. by rewrite (Hhex _ _ E1), (Hhex _ _ E2), (Hhex _ _ E3), (Hhex _ _ E4).
Qed.

Lemma esc_unit_bytes u s : esc_unit u s → forallb text_byte u = true.
Proof.
  destruct 1 as [c Hc|e x He|h cp Hh|h1 h2 c1 c2 H1 H2|g Hg Hl]; simpl.
  - unfold in_range in Hc. unfold text_byte. to_prop. zify_bool. lia.
  - simpl in He. by repeat destruct He as [[= <- <-]|He].
  - by rewrite (hex4_bytes _ _ Hh).
  - rewrite forallb_app. simpl. by rewrite (hex4_bytes _ _ H1), (hex4_bytes _ _ H2).
  - destruct g as [|b0 [|b1 [|b2 [|b3 [|]]]]]; simpl in *; try done; try lia;
      unfold group2, group3, group4, cont, in_range in Hg; unfold text_byte; revert Hg;
      zify_bool; lia.
Qed.

Lemma escapes_bytes t s : escapes t s → forallb text_byte t = true.
Proof.
  induction 1 as [|u s t s' Hu _ IH]; [done|].
  by rewrite forallb_app, (esc_unit_bytes _ _ Hu), IH.
Qed.

Lemma digits_bytes d : all_digits d = true → forallb text_byte d = true.
Proof.
  induction d as [|c d IH]; simpl; [done|]. intros [Hc Hd]%andb_true_iff. rewrite IH by done.
  unfold is_digit, in_range in Hc. unfold text_byte. to_prop. zify_bool. lia.
Qed.

Lemma number_json_bytes t j : number_json t = Some j → forallb text_byte t = true.
Proof.
  unfold number_json. destruct (number_text t) as [nt|] eqn:E; [intros _|done].
  apply number_text_final in E as (neg & i & fr & ex & -> & _ & Hi & Hfr & Hex & _).
  rewrite !forallb_app, (digits_bytes i Hi).
  assert (forallb text_byte fr = true) as ->.
  { destruct Hfr as [->|(f & -> & Hf)]; [done|]. simpl. by rewrite digits_bytes. }
  assert (forallb text_byte ex = true) as ->.
  { destruct Hex as [->|(e & es & d & -> & He & Hes & _ & Hd)]; [done|]. simpl.
    rewrite forallb_app, (digits_bytes d Hd). by destruct He as [-> | ->], Hes as [->|[-> | ->]]. }
  by destruct neg.
Qed.

Lemma scalar_text_bytes j t : scalar_text j t → forallb text_byte t = true.
Proof.
  destruct 1 as [| | |s t Ht|j t Ht]; try done; simpl.
  - by rewrite forallb_app, (escapes_bytes _ _ Ht).
  - by eapply number_json_bytes.
Qed.

Lemma grammar_bytes :
  (∀ j t, jtext j t → forallb text_byte t = true) ∧
  (∀ l t, jelems l t → forallb text_byte t = true) ∧
  (∀ ms t, jmembers ms t → forallb text_byte t = true).
Proof.
  apply grammar_ind; intros;
    try (by eapply scalar_text_bytes); repeat (simpl; rewrite ?forallb_app);
    repeat match goal with
    | H : spaces _ |- _ => apply spaces_bytes in H; rewrite H; clear H
    | H : escapes _ _ |- _ => rewrite (escapes_bytes _ _ H); clear H
    | H : forallb text_byte _ = true |- _ => rewrite H; clear H
    end; done.
Qed.

(** * Strings do not touch the decimal point *)

Abbreviation dpp := decimal_point_position.

Definition step_dpp (n : option nat) (s : step) : Prop :=
  match s with Go lx | Stop _ lx => dpp lx = n end.

Lemma dpp_get lx : dpp (get lx).2 = dpp lx.
Proof. unfold get. by destruct (if next_unget lx then _ else _). Qed.

Lemma dpp_add_all cs lx : dpp (add_all lx cs) = dpp lx.
Proof. revert lx. induction cs; simpl; intros; [done|]. by rewrite IHcs. Qed.

Lemma dpp_codepoint_loop fs cp lx :
  match get_codepoint_loop fs cp lx with Ret (_, lx') => dpp lx' = dpp lx | _ => True end.
Proof.
  revert cp lx. induction fs as [|f fs IH]; intros cp lx; cbn [get_codepoint_loop].
  { unfold assert. by case_if. }
  pose proof (dpp_get lx) as Hg. destruct (get lx) as [c lx']; cbn [snd] in Hg.
  destruct (hex_digit c) as [d|]; [|done]. specialize (IH (cp + Z.shiftl d f) lx').
  destruct (get_codepoint_loop _ _ _) as [[]| | | |]; congruence.
Qed.

Lemma dpp_codepoint lx :
  match get_codepoint lx with Ret (_, lx') => dpp lx' = dpp lx | _ => True end.
Proof.
  unfold get_codepoint, assert. case_if; [|done].
  exact (dpp_codepoint_loop [12; 8; 4; 0] 0 lx).
Qed.

Lemma dpp_next_byte rs lx : dpp (next_byte_loop rs lx).2 = dpp lx.
Proof.
  revert lx. induction rs as [|[lo hi] rs IH]; intros lx; simpl; [done|].
  pose proof (dpp_get lx). destruct (get lx) as [c lx']; simpl in *.
  case_if; [by rewrite IH|done].
Qed.

Lemma dpp_unicode_escape lx :
  match scan_unicode_escape lx with Ret s => step_dpp (dpp lx) s | _ => True end.
Proof.
  unfold scan_unicode_escape. pose proof (dpp_codepoint lx) as H1.
  destruct (get_codepoint lx) as [[cp1 lx1]| | | |]; simpl in *; try done.
  case_if; [done|]. case_if; [|case_if; [done|]].
  - pose proof (dpp_get lx1) as H2. destruct (get lx1) as [c lx2]; simpl in *.
    case_if; [simpl; congruence|].
    pose proof (dpp_get lx2) as H3. destruct (get lx2) as [c' lx3]; simpl in *.
    case_if; [simpl; congruence|].
    pose proof (dpp_codepoint lx3) as H4.
    destruct (get_codepoint lx3) as [[cp2 lx4]| | | |]; simpl in *; try done.
    case_if; [simpl; congruence|]. case_if; [|simpl; congruence].
    unfold assert. case_if; simpl; [|done]. rewrite dpp_add_all. congruence.
  - unfold assert. case_if; simpl; [|done]. by rewrite dpp_add_all.
Qed.

Lemma dpp_string_step lx :
  match scan_string_step lx with Ret s => step_dpp (dpp lx) s | _ => True end.
Proof.
  unfold scan_string_step. pose proof (dpp_get lx) as H1.
  destruct (get lx) as [c lx1]; simpl in *. do 2 (case_if; [done|]).
  case_if; [|case_if; [done|case_if; [done|]]].
  - unfold scan_escape. pose proof (dpp_get lx1) as H2.
    destruct (get lx1) as [c' lx2]; simpl in *. rewrite <- H1, <- H2.
    do 8 (case_if; [done|]). case_if; [apply dpp_unicode_escape|done].
  - unfold scan_multibyte. destruct (lead_ranges (current lx1)) as [rs|] eqn:El; [|done].
    rewrite (next_byte_in_range_lead _ _ _ El). cbn [mbind outcome_bind]. pose proof (dpp_next_byte rs (add lx1 (current lx1))) as H2.
    destruct (next_byte_loop _ _) as [[] lx2]; simpl in *; congruence.
Qed.

Lemma dpp_string_loop fuel lx :
  match loop fuel scan_string_step lx with Ret (_, lx') => dpp lx' = dpp lx | _ => True end.
Proof.
  revert lx. induction fuel as [|fuel IH]; intros lx; simpl; [done|].
  pose proof (dpp_string_step lx) as Hs.
  destruct (scan_string_step lx) as [[lx'|t lx']| | | |]; simpl in *; try done.
  specialize (IH lx'). destruct (loop fuel scan_string_step lx') as [[]| | | |]; congruence.
Qed.

Lemma dpp_scan_string lx t lx' : scan_string lx = Ret (t, lx') → dpp lx' = None.
Proof.
  unfold scan_string, assert. case_if; [|done]. intros H.
  pose proof (dpp_string_loop (input_fuel (reset lx)) (reset lx)) as Hl. by rewrite H in Hl.
Qed.

(** * Slots: where the next value goes *)

(** [put v] is the document with [v] at the place [ref], where the DOM builder
    puts the next value. *)
Record slot (d : json_sax_dom_parser) (put : json → json) (ref : path) : Prop := {
  slot_handle v : handle_value v d =
    Ret (ref, mk_dom (put v) (ref_stack d) (object_element d) (errored d) (allow_exceptions d));
  slot_get x : get_path (put x) ref = Some x;
  slot_set x y : set_path (put x) ref y = put y
}.

Lemma slot_top r oe er ae : slot (mk_dom r [] oe er ae) (λ v, v) [].
Proof. by split. Qed.

(** The next element of the open array. *)
Lemma slot_element put ref l rs oe er ae :
  (∀ x, get_path (put x) ref = Some x) → (∀ x y, set_path (put x) ref y = put y) →
  slot (mk_dom (put (J_array l)) (ref :: rs) oe er ae) (λ v, put (J_array (l ++ [v])))
    (ref ++ [p_idx (length l)]).
Proof.
  intros Hget Hset. split.
  - intros v. unfold handle_value. simpl. by rewrite Hget, Hset.
  - intros x. rewrite get_path_app, Hget. simpl. by rewrite list_lookup_middle.
  - intros x y. rewrite (set_path_app _ _ _ _ _ (Hget _)), Hset. simpl.
    rewrite list_lookup_middle by done. do 2 f_equal.
    by rewrite insert_app_r_alt, Nat.sub_diag by done.
Qed.

Lemma obj_set_emplace k v m : obj_set k v (obj_emplace_null k m) = obj_set k v m.
Proof. unfold obj_emplace_null. case_match; [done|]. by rewrite obj_set_set. Qed.

Lemma obj_find_emplace k m : ∃ x, obj_find k (obj_emplace_null k m) = Some x.
Proof.
  unfold obj_emplace_null. destruct (obj_find k m) eqn:E; [eauto|].
  rewrite obj_find_set_eq. eauto.
Qed.

(** The value of the member whose key was read last. *)
Lemma slot_member put ref k m rs er ae :
  (∀ x, get_path (put x) ref = Some x) → (∀ x y, set_path (put x) ref y = put y) →
  slot (mk_dom (put (J_object (obj_emplace_null k m))) (ref :: rs)
          (Some (ref ++ [p_key k])) er ae)
    (λ v, put (J_object (obj_set k v m))) (ref ++ [p_key k]).
Proof.
  intros Hget Hset. destruct (obj_find_emplace k m) as (z & Hz). split.
  - intros v. unfold handle_value. simpl. rewrite Hget.
    rewrite (set_path_app _ _ _ _ _ (Hget _)), Hset. simpl. by rewrite Hz, obj_set_emplace.
  - intros x. rewrite get_path_app, Hget. simpl. by rewrite obj_find_set_eq.
  - intros x y. rewrite (set_path_app _ _ _ _ _ (Hget _)), Hset. simpl.
    by rewrite obj_find_set_eq, obj_set_set.
Qed.

(** [d'] is [d] with the document [r]. *)
Definition wrote (d : json_sax_dom_parser) (r : json) (rs : list path)
    (d' : json_sax_dom_parser) : Prop :=
  ∃ oe, d' = mk_dom r rs oe (errored d) (allow_exceptions d).

(** * Runs of the parser *)

Section runs.
  Context (dp : Z) (ic : bool) (Hdp : dp_ok dp = true).

Abbreviation dstate := (pstate json_sax_dom_parser).
Abbreviation at_text q p := (∃ tb, lx_at dp ic q tb (m_lexer p)).

(** The loop at [ps] does what it does at [ps'], some iterations later. *)
Definition leads (ps ps' : dstate) : Prop :=
  ∃ n, ∀ fuel, sax_parse_loop (n + S fuel) ps = sax_parse_loop (S fuel) ps'.

#[export] Instance leads_trans : Transitive leads.
Proof.
  intros a b c [n Hn] [m Hm]. exists (n + m)%nat. intros fuel.
  replace (n + m + S fuel)%nat with (n + S (m + fuel))%nat by lia. rewrite Hn.
  replace (S (m + fuel)) with (m + S fuel)%nat by lia. apply Hm.
Qed.

Lemma leads_step ps ps' : sax_parse_step ps = Ret (P_continue ps') → leads ps ps'.
Proof. intros H. exists 1%nat. intros fuel. simpl Nat.add. cbn [sax_parse_loop]. by rewrite H. Qed.

(** A value parsed in one go: the iteration goes on to evaluate the state. *)
Lemma leads_value d d' p p' st :
  parse_value p st d = Ret (P_evaluate d' p') →
  leads (mk_pstate d p st false) (mk_pstate d' p' st true).
Proof.
  intros H. exists 0%nat. intros fuel. cbn [sax_parse_loop Nat.add]. simpl sax_parse_step.
  by rewrite H.
Qed.

Lemma sax_parse_loop_mono fuel k (ps : dstate) :
  sax_parse_loop fuel ps ≠ Diverge → sax_parse_loop (fuel + k) ps = sax_parse_loop fuel ps.
Proof.
  revert ps. induction fuel as [|fuel IH]; intros ps Hn; simpl in *; [done|].
  destruct (sax_parse_step ps) as [[| |]| | | |]; simpl in *; try done. by apply IH.
Qed.

(** * Tokens *)

Lemma get_punct ws c tk q p :
  spaces ws → In (c, tk) [(91, token_type.begin_array); (93, token_type.end_array);
    (123, token_type.begin_object); (125, token_type.end_object);
    (58, token_type.name_separator); (44, token_type.value_separator)] →
  at_text (ws ++ c :: q) p →
  ∃ p', get_token p = Ret p' ∧ last_token p' = tk ∧ at_text q p'.
Proof.
  intros Hws Hc [tb Hat]. unfold get_token.
  assert (is_space c = false ∧ c ≠ 47 ∧ c ≠ 0xEF ∧
    ∀ lx, current lx = c → scan_token lx = Ret (tk, lx)) as (Hs & H1 & H2 & Htok).
  { simpl in Hc. repeat destruct Hc as [[= <- <-]|Hc]; try done; repeat split; try lia;
      intros lx Hlx; unfold scan_token; by rewrite Hlx. }
  destruct (scan_to_token dp ic ws c q tb _ Hws Hs H1 H2 Hat) as (lx & -> & Hat' & [_ Hr]).
  rewrite Htok by done. simpl. eauto.
Qed.

Lemma get_string_token ws t s q p :
  spaces ws → escapes t s → at_text (ws ++ 34 :: t ++ 34 :: q) p →
  ∃ p', get_token p = Ret p' ∧ last_token p' = token_type.value_string ∧
    get_string (m_lexer p') = s ∧ at_text q p'.
Proof.
  intros Hws Ht [tb Hat]. unfold get_token.
  destruct (scan_to_token dp ic ws 34 _ tb _ Hws eq_refl ltac:(done) ltac:(done) Hat)
    as (lx & -> & Hat' & Hr).
  unfold scan_token. rewrite (proj2 Hr). simpl.
  destruct (scan_string_ok dp ic t s q tb lx Ht Hat' Hr) as (lx' & E & Hat2).
  rewrite E. simpl. eexists. split; [done|]. split; [done|]. split; [|by eexists].
  simpl. unfold get_string. rewrite (dpp_scan_string _ _ _ E).
  by apply (lx_at_buffer _ _ _ _ _ Hat2).
Qed.

(** The token of a scalar, and the event it causes. *)
Definition scalar_token (j : json) (p : parser) : Prop :=
  last_token p ≠ token_type.end_array ∧
  ∀ st d, parse_value p st d = checked (dom_value j d) p (λ d, Ret (P_evaluate d p)).

Lemma get_literal lit c rest tk ws q p :
  spaces ws → str lit = c :: rest → is_byte c = true → is_space c = false → c ≠ 47 → c ≠ 0xEF →
  (∀ lx, current lx = c → scan_token lx = scan_literal lit tk lx) →
  at_text (ws ++ str lit ++ q) p →
  ∃ p', get_token p = Ret p' ∧ last_token p' = tk ∧ at_text q p'.
Proof.
  intros Hws Hlit Hb Hs H1 H2 Htok [tb Hat]. unfold get_token. rewrite Hlit in Hat.
  destruct (scan_to_token dp ic ws c (rest ++ q) tb _ Hws Hs H1 H2 Hat)
    as (lx & -> & Hat' & Hr).
  rewrite Htok by apply Hr.
  destruct (scan_literal_ok dp ic lit c rest tk q tb lx Hlit Hb Hat' Hr) as (lx' & -> & Hat2).
  simpl. eauto.
Qed.

Lemma number_json_start c t j :
  number_json (c :: t) = Some j → c = 45 ∨ is_digit c = true.
Proof.
  unfold number_json, number_text, num_start.
  destruct (c =? 45) eqn:E; [apply Z.eqb_eq in E; auto|].
  destruct (c =? 48) eqn:E0; [apply Z.eqb_eq in E0 as ->; auto|].
  destruct (in_range 49 57 c) eqn:E1; [|done]. intros _. right.
  unfold is_digit, in_range in *. lia.
Qed.

Lemma get_number ws j t q p :
  spaces ws → number_json t = Some j → num_delim q = true → at_text (ws ++ t ++ q) p →
  ∃ p', get_token p = Ret p' ∧ scalar_token j p' ∧ at_text q p'.
Proof.
  intros Hws Hj Hq [tb Hat]. destruct t as [|c t]; [done|].
  pose proof (number_json_start _ _ _ Hj) as Hc.
  assert (c = 45 ∨ 48 ≤ c ≤ 57) as Hc' by (unfold is_digit, in_range in Hc; lia).
  unfold get_token.
  destruct (scan_to_token dp ic ws c (t ++ q) tb (m_lexer p) Hws) as (lx & -> & Hat' & Hr);
    [unfold is_space; lia|lia|lia|done|].
  assert (scan_token lx = scan_number lx) as ->.
  { unfold scan_token. rewrite (proj2 Hr).
    destruct Hc as [->|Hc]; [done|]. rewrite Hc, orb_true_r.
    repeat (match goal with |- context [c =? ?n] => decide_test (c =? n) false end). done. }
  destruct (scan_number_ok dp ic Hdp c t j q tb lx Hj Hq Hat' Hr)
    as (tk & lx' & tb' & -> & Hj' & Hat2). simpl.
  eexists. split; [done|]. split; [|by eexists].
  unfold scalar_token, parse_value. simpl.
  destruct j; simpl in Hj'; try done;
    [destruct Hj' as (-> & ->)|destruct Hj' as (-> & ->)|destruct Hj' as (-> & -> & ->)]; done.
Qed.

Lemma get_scalar ws j t q p :
  spaces ws → scalar_text j t → num_delim q = true → at_text (ws ++ t ++ q) p →
  ∃ p', get_token p = Ret p' ∧ scalar_token j p' ∧ at_text q p'.
Proof.
  intros Hws Ht Hq Hat. destruct Ht as [| | |s t Ht|j t Ht].
  - destruct (get_literal "null" 110 (str "ull") token_type.literal_null ws q p)
      as (p' & Hp & Htk & Hat'); try done.
    { intros lx E. unfold scan_token. by rewrite E. }
    exists p'. unfold scalar_token, parse_value. by rewrite Htk.
  - destruct (get_literal "true" 116 (str "rue") token_type.literal_true ws q p)
      as (p' & Hp & Htk & Hat'); try done.
    { intros lx E. unfold scan_token. by rewrite E. }
    exists p'. unfold scalar_token, parse_value. by rewrite Htk.
  - destruct (get_literal "false" 102 (str "alse") token_type.literal_false ws q p)
      as (p' & Hp & Htk & Hat'); try done.
    { intros lx E. unfold scan_token. by rewrite E. }
    exists p'. unfold scalar_token, parse_value. by rewrite Htk.
  - simpl in Hat. rewrite <- app_assoc in Hat.
    destruct (get_string_token ws t s q p Hws Ht Hat) as (p' & Hp & Htk & Hs & Hat').
    exists p'. unfold scalar_token, parse_value. by rewrite Htk, Hs.
  - by apply (get_number ws j t).
Qed.

(** * Values *)

(** From the token before a value, its text is read and it is put into the
    open slot. *)
Definition parses (j : json) (t : cstring) : Prop :=
  ∀ ws q p st d put ref,
    spaces ws → num_delim q = true → at_text (ws ++ t ++ q) p → slot d put ref →
    ∃ p1 p2 d', get_token p = Ret p1 ∧ last_token p1 ≠ token_type.end_array ∧
      leads (mk_pstate d p1 st false) (mk_pstate d' p2 st true) ∧
      wrote d (put j) (ref_stack d) d' ∧ at_text q p2.

Lemma parses_scalar j t : scalar_text j t → parses j t.
Proof.
  intros Ht ws q p st d put ref Hws Hq Hat Hslot.
  destruct (get_scalar ws j t q p Hws Ht Hq Hat) as (p1 & Hp & [Hne Hval] & Hat1).
  eexists p1, p1, _. split; [done|]. split; [done|]. split; [apply leads_value|].
  - rewrite Hval. unfold dom_value. rewrite (slot_handle _ _ _ Hslot). simpl. done.
  - split; [by eexists|done].
Qed.

(** The open container at the place [ref] of the document. *)
Definition open (d : json_sax_dom_parser) (put : json → json) (ref : path) (rs : list path)
    (c : json) : Prop :=
  root d = put c ∧ ref_stack d = ref :: rs ∧
  (∀ x, get_path (put x) ref = Some x) ∧ (∀ x y, set_path (put x) ref y = put y).

Definition parses_elements (l : list json) (t : cstring) : Prop :=
  ∀ q p st d put ref rs l0,
    at_text (t ++ 93 :: q) p → open d put ref rs (J_array l0) →
    ∃ p1 p2 d', get_token p = Ret p1 ∧ last_token p1 ≠ token_type.end_array ∧
      leads (mk_pstate d p1 (true :: st) false) (mk_pstate d' p2 st true) ∧
      wrote d (put (J_array (l0 ++ l))) rs d' ∧ at_text q p2.

Definition parses_members (ms : list (cstring * json)) (t : cstring) : Prop :=
  ∀ q p st d put ref rs m0,
    at_text (t ++ 125 :: q) p → open d put ref rs (J_object m0) →
    ∃ p1 p2 d' ps, get_token p = Ret p1 ∧ last_token p1 = token_type.value_string ∧
      parse_member p1 (false :: st) d = Ret (P_continue ps) ∧
      leads ps (mk_pstate d' p2 st true) ∧
      wrote d (put (J_object (build_object ms m0))) rs d' ∧ at_text q p2.

Lemma num_delim_spaces ws c q :
  spaces ws → In c [44; 93; 125] → num_delim (ws ++ c :: q) = true.
Proof.
  intros Hws Hc. destruct ws as [|w ws]; simpl.
  - simpl in Hc. by repeat destruct Hc as [<-|Hc].
  - unfold spaces in Hws. simpl in Hws. unfold is_space, is_digit, in_range in *. lia.
Qed.

(** What [start_array] and [start_object] do at a slot. *)
Lemma dom_start_slot v d put ref :
  slot d put ref →
  ∃ d', dom_start v d = Ret (true, d') ∧ wrote d (put v) (ref :: ref_stack d) d' ∧
    open d' put ref (ref_stack d) v.
Proof.
  intros Hs. unfold dom_start. rewrite (slot_handle _ _ _ Hs). simpl.
  eexists. split; [done|]. split; [by eexists|]. repeat split; apply Hs.
Qed.

Lemma dom_end_open f d put ref rs c :
  open d put ref rs c → f c = true →
  ∃ d', dom_end f d = Ret (true, d') ∧ wrote d (put c) rs d'.
Proof.
  intros (Hr & Hrs & Hg & _) Hf. unfold dom_end. rewrite Hrs, Hr, Hg. unfold assert.
  rewrite Hf. eexists. split; [done|]. by eexists.
Qed.

Lemma wrote_open d r rs d' put ref c :
  wrote d r (ref :: rs) d' → r = put c →
  (∀ x, get_path (put x) ref = Some x) → (∀ x y, set_path (put x) ref y = put y) →
  open d' put ref rs c.
Proof. by intros (oe & ->) -> Hg Hs. Qed.

Lemma wrote_trans d r rs d1 r' rs' d2 : wrote d r rs d1 → wrote d1 r' rs' d2 → wrote d r' rs' d2.
Proof. intros (oe & ->) (oe' & ->). by eexists. Qed.

(** A closing bracket. *)
Lemma close_array ws q p d st put ref rs l :
  spaces ws → at_text (ws ++ 93 :: q) p → open d put ref rs (J_array l) →
  ∃ p2 d', leads (mk_pstate d p (true :: st) true) (mk_pstate d' p2 st true) ∧
    wrote d (put (J_array l)) rs d' ∧ at_text q p2.
Proof.
  intros Hws Hat Ho.
  destruct (get_punct ws 93 token_type.end_array q p Hws ltac:(simpl; auto) Hat)
    as (p2 & Hp & Htk & Hat2).
  destruct (dom_end_open is_array d put ref rs _ Ho eq_refl) as (d' & He & Hw).
  exists p2, d'. split; [|done]. apply leads_step. simpl. rewrite Hp. simpl. rewrite Htk.
  simpl. by rewrite He.
Qed.

Lemma close_object ws q p d st put ref rs m :
  spaces ws → at_text (ws ++ 125 :: q) p → open d put ref rs (J_object m) →
  ∃ p2 d', leads (mk_pstate d p (false :: st) true) (mk_pstate d' p2 st true) ∧
    wrote d (put (J_object m)) rs d' ∧ at_text q p2.
Proof.
  intros Hws Hat Ho.
  destruct (get_punct ws 125 token_type.end_object q p Hws ltac:(simpl; auto) Hat)
    as (p2 & Hp & Htk & Hat2).
  destruct (dom_end_open is_object d put ref rs _ Ho eq_refl) as (d' & He & Hw).
  exists p2, d'. split; [|done]. apply leads_step. simpl. rewrite Hp. simpl. rewrite Htk.
  simpl. by rewrite He.
Qed.

(** The next element of an array and what follows it. *)
Lemma parses_element j t ws q p st d put ref rs l0 :
  parses j t → spaces ws → num_delim q = true → at_text (ws ++ t ++ q) p →
  open d put ref rs (J_array l0) →
  ∃ p1 p2 d', get_token p = Ret p1 ∧ last_token p1 ≠ token_type.end_array ∧
    leads (mk_pstate d p1 st false) (mk_pstate d' p2 st true) ∧
    wrote d (put (J_array (l0 ++ [j]))) (ref :: rs) d' ∧
    open d' put ref rs (J_array (l0 ++ [j])) ∧ at_text q p2.
Proof.
  intros Hj Hws Hq Hat (Hr & Hrs & Hg & Hset).
  pose proof (slot_element put ref l0 rs (object_element d) (errored d) (allow_exceptions d)
    Hg Hset) as Hslot.
  replace (mk_dom _ _ _ _ _) with d in Hslot by (destruct d; simpl in *; by subst).
  destruct (Hj ws q p st d _ _ Hws Hq Hat Hslot) as (p1 & p2 & d' & Hp & Hne & Hl & Hw & Hat2).
  rewrite Hrs in Hw. exists p1, p2, d'. split_and!; try done. by eapply wrote_open.
Qed.

Lemma parses_elements_one ws1 j t ws2 :
  spaces ws1 → parses j t → spaces ws2 → parses_elements [j] (ws1 ++ t ++ ws2).
Proof.
  intros Hw1 Hj Hw2 q p st d put ref rs l0 Hat Ho. rewrite <- !app_assoc in Hat.
  destruct (parses_element j t ws1 (ws2 ++ 93 :: q) p (true :: st) d put ref rs l0 Hj Hw1)
    as (p1 & p2 & d1 & Hp & Hne & Hl & Hw & Ho1 & Hat2); try done.
  { apply num_delim_spaces; simpl; auto. }
  destruct (close_array ws2 q p2 d1 st put ref rs _ Hw2 Hat2 Ho1) as (p3 & d2 & Hl2 & Hw' & Hat3).
  exists p1, p3, d2. split_and!; try done; [by etrans|by eapply wrote_trans].
Qed.

Lemma parses_elements_cons ws1 j t ws2 l t' :
  spaces ws1 → parses j t → spaces ws2 → parses_elements l t' →
  parses_elements (j :: l) (ws1 ++ t ++ ws2 ++ 44 :: t').
Proof.
  intros Hw1 Hj Hw2 Hl q p st d put ref rs l0 Hat Ho. rewrite <- !app_assoc in Hat.
  destruct (parses_element j t ws1 (ws2 ++ 44 :: t' ++ 93 :: q) p (true :: st) d put ref rs l0 Hj Hw1)
    as (p1 & p2 & d1 & Hp & Hne & Hld & Hw & Ho1 & Hat2); try done.
  { apply num_delim_spaces; simpl; auto. }
  destruct (get_punct ws2 44 token_type.value_separator _ p2 Hw2 ltac:(simpl; auto 10) Hat2)
    as (p3 & Hp3 & Htk & Hat3).
  destruct (Hl q p3 st d1 put ref rs _ Hat3 Ho1) as (p4 & p5 & d2 & Hp4 & _ & Hl2 & Hw2' & Hat5).
  exists p1, p5, d2. split_and!; try done; [|rewrite <- app_assoc in Hw2'; by eapply wrote_trans].
  etrans; [done|]. etrans; [|exact Hl2]. apply leads_step. simpl. rewrite Hp3. simpl.
  rewrite Htk. simpl. by rewrite Hp4.
Qed.

Lemma parses_array_empty ws : spaces ws → parses (J_array []) (91 :: ws ++ [93]).
Proof.
  intros Hws ws0 q p st d put ref Hw0 Hq Hat Hslot. simpl in Hat. rewrite <- app_assoc in Hat.
  destruct (get_punct ws0 91 token_type.begin_array _ p Hw0 ltac:(simpl; auto) Hat)
    as (p1 & Hp & Htk & Hat1).
  destruct (get_punct ws 93 token_type.end_array _ p1 Hws ltac:(simpl; auto) Hat1)
    as (p2 & Hp2 & Htk2 & Hat2).
  destruct (dom_start_slot (J_array []) d put ref Hslot) as (d1 & Hs & Hw & Ho).
  destruct (dom_end_open is_array d1 put ref _ _ Ho eq_refl) as (d2 & He & Hw').
  exists p1, p2, d2. split_and!; try done; [by rewrite Htk| |by eapply wrote_trans].
  apply leads_value. unfold parse_value, parse_begin_array. rewrite Htk. simpl. rewrite Hs. simpl.
  rewrite Hp2. simpl. rewrite Htk2. simpl. by rewrite He.
Qed.

Lemma parses_array l t : parses_elements l t → parses (J_array l) (91 :: t ++ [93]).
Proof.
  intros Hl ws0 q p st d put ref Hw0 Hq Hat Hslot. simpl in Hat. rewrite <- app_assoc in Hat.
  destruct (get_punct ws0 91 token_type.begin_array _ p Hw0 ltac:(simpl; auto) Hat)
    as (p1 & Hp & Htk & Hat1).
  destruct (dom_start_slot (J_array []) d put ref Hslot) as (d1 & Hs & Hw & Ho).
  destruct (Hl q p1 st d1 put ref _ [] Hat1 Ho) as (p2 & p3 & d2 & Hp2 & Hne & Hl2 & Hw2 & Hat3).
  exists p1, p3, d2. split_and!; try done; [by rewrite Htk| |by eapply wrote_trans].
  etrans; [|exact Hl2]. apply leads_step. simpl. unfold parse_value, parse_begin_array.
  rewrite Htk. simpl. rewrite Hs. simpl. rewrite Hp2. simpl.
  by rewrite bool_decide_eq_false_2.
Qed.

(** The key event opens the member's slot. *)
Lemma dom_key_open k d put ref rs m :
  open d put ref rs (J_object m) →
  ∃ d', dom_key k d = Ret (true, d') ∧
    wrote d (put (J_object (obj_emplace_null k m))) (ref :: rs) d' ∧ ref_stack d' = ref :: rs ∧
    slot d' (λ v, put (J_object (obj_set k v m))) (ref ++ [p_key k]).
Proof.
  intros (Hr & Hrs & Hg & Hs). unfold dom_key. rewrite Hrs, Hr, Hg, Hs.
  eexists. split; [done|]. split; [by eexists|]. split; [done|]. by apply slot_member.
Qed.

Lemma parses_member k kt ws1 ws2 ws3 j t q p st d put ref rs m0 :
  spaces ws1 → escapes kt k → spaces ws2 → spaces ws3 → parses j t → num_delim q = true →
  at_text (ws1 ++ 34 :: kt ++ 34 :: ws2 ++ 58 :: ws3 ++ t ++ q) p →
  open d put ref rs (J_object m0) →
  ∃ p1 p2 d' ps, get_token p = Ret p1 ∧ last_token p1 = token_type.value_string ∧
    parse_member p1 st d = Ret (P_continue ps) ∧ leads ps (mk_pstate d' p2 st true) ∧
    wrote d (put (J_object (obj_set k j m0))) (ref :: rs) d' ∧
    open d' put ref rs (J_object (obj_set k j m0)) ∧ at_text q p2.
Proof.
  intros Hw1 Hk Hw2 Hw3 Hj Hq Hat Ho.
  destruct (get_string_token ws1 kt k _ p Hw1 Hk Hat) as (p1 & Hp & Htk & Hgs & Hat1).
  destruct (get_punct ws2 58 token_type.name_separator _ p1 Hw2 ltac:(simpl; auto 10) Hat1)
    as (p2 & Hp2 & Htk2 & Hat2).
  destruct (dom_key_open k d put ref rs m0 Ho) as (d1 & Hd1 & Hw & Hrs & Hslot).
  destruct (Hj ws3 q p2 st d1 _ _ Hw3 Hq Hat2 Hslot)
    as (p3 & p4 & d2 & Hp3 & _ & Hl & Hw' & Hat4).
  rewrite Hrs in Hw'. exists p1, p4, d2, (mk_pstate d1 p3 st false). split_and!; try done.
  - unfold parse_member. simpl. rewrite Hgs, Hd1. simpl. rewrite Hp2. simpl. rewrite Htk2.
    simpl. by rewrite Hp3.
  - by eapply wrote_trans.
  - destruct Ho as (_ & _ & Hg & Hs). by eapply wrote_open.
Qed.

Lemma parses_members_one ws1 k kt ws2 ws3 j t ws4 :
  spaces ws1 → escapes kt k → spaces ws2 → spaces ws3 → parses j t → spaces ws4 →
  parses_members [(k, j)] (ws1 ++ 34 :: kt ++ 34 :: ws2 ++ 58 :: ws3 ++ t ++ ws4).
Proof.
  intros Hw1 Hk Hw2 Hw3 Hj Hw4 q p st d put ref rs m0 Hat Ho.
  repeat (rewrite <- !app_assoc in Hat || simpl in Hat).
  destruct (parses_member k kt ws1 ws2 ws3 j t (ws4 ++ 125 :: q) p (false :: st) d put ref rs m0)
    as (p1 & p2 & d1 & ps & Hp & Htk & Hm & Hl & Hw & Ho1 & Hat2); try done.
  { apply num_delim_spaces; simpl; auto. }
  destruct (close_object ws4 q p2 d1 st put ref rs _ Hw4 Hat2 Ho1) as (p3 & d2 & Hl2 & Hw' & Hat3).
  exists p1, p3, d2, ps. split_and!; try done; [by etrans|by eapply wrote_trans].
Qed.

Lemma parses_members_cons ws1 k kt ws2 ws3 j t ws4 ms t' :
  spaces ws1 → escapes kt k → spaces ws2 → spaces ws3 → parses j t → spaces ws4 →
  parses_members ms t' →
  parses_members ((k, j) :: ms)
    (ws1 ++ 34 :: kt ++ 34 :: ws2 ++ 58 :: ws3 ++ t ++ ws4 ++ 44 :: t').
Proof.
  intros Hw1 Hk Hw2 Hw3 Hj Hw4 Hms q p st d put ref rs m0 Hat Ho.
  repeat (rewrite <- !app_assoc in Hat || simpl in Hat).
  destruct (parses_member k kt ws1 ws2 ws3 j t (ws4 ++ 44 :: t' ++ 125 :: q) p (false :: st)
    d put ref rs m0) as (p1 & p2 & d1 & ps & Hp & Htk & Hm & Hl & Hw & Ho1 & Hat2); try done.
  { apply num_delim_spaces; simpl; auto. }
  destruct (get_punct ws4 44 token_type.value_separator _ p2 Hw4 ltac:(simpl; auto 10) Hat2)
    as (p3 & Hp3 & Htk3 & Hat3).
  destruct (Hms q p3 st d1 put ref rs _ Hat3 Ho1)
    as (p4 & p5 & d2 & ps' & Hp4 & Htk4 & Hm' & Hl2 & Hw2' & Hat5).
  exists p1, p5, d2, ps. split_and!; try done; [|by eapply wrote_trans].
  etrans; [done|]. etrans; [|exact Hl2]. apply leads_step. simpl. rewrite Hp3. simpl.
  rewrite Htk3. simpl. rewrite Hp4. simpl. rewrite Htk4. simpl. by rewrite Hm'.
Qed.

Lemma parses_object_empty ws : spaces ws → parses (J_object []) (123 :: ws ++ [125]).
Proof.
  intros Hws ws0 q p st d put ref Hw0 Hq Hat Hslot. simpl in Hat. rewrite <- app_assoc in Hat.
  destruct (get_punct ws0 123 token_type.begin_object _ p Hw0 ltac:(simpl; auto) Hat)
    as (p1 & Hp & Htk & Hat1).
  destruct (get_punct ws 125 token_type.end_object _ p1 Hws ltac:(simpl; auto) Hat1)
    as (p2 & Hp2 & Htk2 & Hat2).
  destruct (dom_start_slot (J_object []) d put ref Hslot) as (d1 & Hs & Hw & Ho).
  destruct (dom_end_open is_object d1 put ref _ _ Ho eq_refl) as (d2 & He & Hw').
  exists p1, p2, d2. split_and!; try done; [by rewrite Htk| |by eapply wrote_trans].
  apply leads_value. unfold parse_value, parse_begin_object. rewrite Htk. simpl. rewrite Hs. simpl.
  rewrite Hp2. simpl. rewrite Htk2. simpl. by rewrite He.
Qed.

Lemma parses_object ms t :
  parses_members ms t → parses (J_object (build_object ms [])) (123 :: t ++ [125]).
Proof.
  intros Hms ws0 q p st d put ref Hw0 Hq Hat Hslot. simpl in Hat. rewrite <- app_assoc in Hat.
  destruct (get_punct ws0 123 token_type.begin_object _ p Hw0 ltac:(simpl; auto) Hat)
    as (p1 & Hp & Htk & Hat1).
  destruct (dom_start_slot (J_object []) d put ref Hslot) as (d1 & Hs & Hw & Ho).
  destruct (Hms q p1 st d1 put ref _ [] Hat1 Ho)
    as (p2 & p3 & d2 & ps & Hp2 & Htk2 & Hm & Hl2 & Hw2 & Hat3).
  exists p1, p3, d2. split_and!; try done; [by rewrite Htk| |by eapply wrote_trans].
  etrans; [|exact Hl2]. apply leads_step. simpl. unfold parse_value, parse_begin_object.
  rewrite Htk. simpl. rewrite Hs. simpl. rewrite Hp2. simpl. rewrite Htk2. simpl. by rewrite Hm.
Qed.

Lemma grammar_parses :
  (∀ j t, jtext j t → parses j t) ∧ (∀ l t, jelems l t → parses_elements l t) ∧
  (∀ ms t, jmembers ms t → parses_members ms t).
Proof.
  apply grammar_ind; eauto using parses_scalar, parses_array_empty, parses_array,
    parses_object_empty, parses_object, parses_elements_one, parses_elements_cons,
    parses_members_one, parses_members_cons.
Qed.

(** * Whole texts *)

Lemma json_parse_text j t ws1 ws2 ae :
  spaces ws1 → jtext j t → spaces ws2 → json_parse dp (ws1 ++ t ++ ws2) ae ic = Ret j.
Proof.
  intros Hw1 Ht Hw2.
  assert (forallb is_byte (ws1 ++ t ++ ws2) = true) as Hb.
  { apply text_is_bytes. rewrite !forallb_app. by rewrite (proj1 grammar_bytes _ _ Ht), !spaces_bytes. }
  pose proof (init_lexer_left dp ic _ Hb) as (q & tb & Hat & _).
  assert (q = ws1 ++ t ++ ws2) as -> by (by destruct Hat as (_ & _ & _ & <- & _)).
  assert (num_delim ws2 = true) as Hq.
  { destruct ws2 as [|w ws2]; [done|]. unfold spaces in Hw2. simpl in *.
    unfold is_space, is_digit, in_range in *. lia. }
  pose proof (proj1 grammar_parses j t Ht ws1 ws2
    (mk_parser token_type.uninitialized (init_lexer dp (ws1 ++ t ++ ws2) ic)) []
    (new_dom ae) (λ v, v) [] Hw1 Hq (ex_intro _ tb Hat) (slot_top _ _ _ _))
    as (p1 & p2 & d' & Hp & _ & (n & Hn) & (oe & ->) & (tb2 & Hat2)).
  unfold json_parse, init_parser. rewrite Hp. cbn [mbind outcome_bind].
  unfold parser_parse. fold (new_dom ae).
  destruct (init_parser_total dp ic Hdp _ Hb) as (p1' & Hp' & Hl1).
  unfold init_parser in Hp'. rewrite Hp in Hp'. injection Hp' as <-.
  assert (sax_parse_internal p1 (new_dom ae) = Ret (true, mk_dom j [] oe false ae, p2)) as ->.
  { pose proof (internal_not_diverge dp ic Hdp _ p1 (new_dom ae) Hl1
      (proj1 (new_dom_good ae))) as Hnd. specialize (Hn 0%nat). simpl in Hn.
    unfold sax_parse_internal in *.
    rewrite <- (sax_parse_loop_mono _ (n + 1) _ Hnd), Nat.add_comm, sax_parse_loop_mono by
      (rewrite Hn; done). exact Hn. }
  simpl. unfold require_end, get_token.
  destruct (scan_to_end dp ic ws2 tb2 _ Hw2 Hat2) as (lx & ->). done.
Qed.
End runs.
