(* ===== verification/JsonToChars.v ===== *)
(** Printing of doubles in framework/json.hpp (namespace [dtoa_impl] and
    [to_chars]): the Grisu2 algorithm on 64-bit integers, with the wrap-around
    of [std::uint64_t] and [std::uint32_t] written out and the library's
    assertions kept. *)

From S2P Require Import Prelude JsonValue.

(** The results of this component; nothing in it throws. *)
Abbreviation res := (outcome json_exn).

Definition u64 (z : Z) : Z := wrap_u 64 z.
Definition u32 (z : Z) : Z := wrap_u 32 z.

(** * [diyfp]: [f * 2 ^ e] *)

Record diyfp : Type := mk_diyfp { df : Z; de : Z }.

Definition diyfp_sub (x y : diyfp) : res diyfp :=
  assert (de x =? de y) (assert (df y <=? df x)
    (Ret (mk_diyfp (u64 (df x - df y)) (de x)))).

Definition diyfp_mul (x y : diyfp) : diyfp :=
  let u_lo := Z.land (df x) 0xFFFFFFFF in
  let u_hi := Z.shiftr (df x) 32 in
  let v_lo := Z.land (df y) 0xFFFFFFFF in
  let v_hi := Z.shiftr (df y) 32 in
  let p0 := u64 (u_lo * v_lo) in
  let p1 := u64 (u_lo * v_hi) in
  let p2 := u64 (u_hi * v_lo) in
  let p3 := u64 (u_hi * v_hi) in
  let p0_hi := Z.shiftr p0 32 in
  let p1_lo := Z.land p1 0xFFFFFFFF in
  let p1_hi := Z.shiftr p1 32 in
  let p2_lo := Z.land p2 0xFFFFFFFF in
  let p2_hi := Z.shiftr p2 32 in
  let Q := u64 (p0_hi + p1_lo + p2_lo) in
  let Q := u64 (Q + Z.shiftl 1 (64 - 32 - 1)) in
  let h := u64 (p3 + p2_hi + p1_hi + Z.shiftr Q 32) in
  mk_diyfp h (de x + de y + 64).

(** A 64-bit significand that is not zero is normalised in 64 rounds. *)
Fixpoint normalize_loop (fuel : nat) (x : diyfp) : res diyfp :=
  match fuel with
  | O => Diverge
  | S fuel' =>
      if Z.shiftr (df x) 63 =? 0
      then normalize_loop fuel' (mk_diyfp (u64 (Z.shiftl (df x) 1)) (de x - 1))
      else Ret x
  end.

Definition normalize (x : diyfp) : res diyfp :=
  assert (negb (df x =? 0)) (normalize_loop 64 x).

Definition normalize_to (x : diyfp) (target_exponent : Z) : res diyfp :=
  let delta := de x - target_exponent in
  assert (0 <=? delta)
  (assert (Z.shiftr (u64 (Z.shiftl (df x) delta)) delta =? df x)
    (Ret (mk_diyfp (u64 (Z.shiftl (df x) delta)) target_exponent))).

(** * Boundaries *)

Record boundaries : Type := mk_boundaries { b_w : diyfp; b_minus : diyfp; b_plus : diyfp }.

(** [reinterpret_bits<std::uint64_t>] of a positive finite double. *)
Definition reinterpret_bits (m e : Z) : Z :=
  if m <? 2 ^ 52 then m else (e + 1075) * 2 ^ 52 + (m - 2 ^ 52).

Definition kPrecision : Z := 53.
Definition kBias : Z := 1024 - 1 + (kPrecision - 1).
Definition kMinExp : Z := 1 - kBias.
Definition kHiddenBit : Z := Z.shiftl 1 (kPrecision - 1).

Definition compute_boundaries (value : spec_float) : res boundaries :=
  match value with
  | S754_finite false m e =>
      let bits := reinterpret_bits (Zpos m) e in
      let E := Z.shiftr bits (kPrecision - 1) in
      let F := Z.land bits (kHiddenBit - 1) in
      let is_denormal := E =? 0 in
      let v := if is_denormal then mk_diyfp F kMinExp
               else mk_diyfp (u64 (F + kHiddenBit)) (E - kBias) in
      let lower_boundary_is_closer := (F =? 0) && (1 <? E) in
      let m_plus := mk_diyfp (u64 (2 * df v + 1)) (de v - 1) in
      let m_minus := if lower_boundary_is_closer
                     then mk_diyfp (u64 (4 * df v - 1)) (de v - 2)
                     else mk_diyfp (u64 (2 * df v - 1)) (de v - 1) in
      w_plus ← normalize m_plus;
      w_minus ← normalize_to m_minus (de w_plus);
      w ← normalize v;
      Ret (mk_boundaries w w_minus w_plus)
  | _ => Abort
  end.

(** * Cached powers of ten *)

Record cached_power : Type := mk_cached_power { cp_f : Z; cp_e : Z; cp_k : Z }.

Definition kAlpha : Z := -60.
Definition kGamma : Z := -32.

Definition kCachedPowers : list cached_power :=
  [ mk_cached_power 0xAB70FE17C79AC6CA (-1060) (-300);
    mk_cached_power 0xFF77B1FCBEBCDC4F (-1034) (-292);
    mk_cached_power 0xBE5691EF416BD60C (-1007) (-284);
    mk_cached_power 0x8DD01FAD907FFC3C (-980) (-276);
    mk_cached_power 0xD3515C2831559A83 (-954) (-268);
    mk_cached_power 0x9D71AC8FADA6C9B5 (-927) (-260);
    mk_cached_power 0xEA9C227723EE8BCB (-901) (-252);
    mk_cached_power 0xAECC49914078536D (-874) (-244);
    mk_cached_power 0x823C12795DB6CE57 (-847) (-236);
    mk_cached_power 0xC21094364DFB5637 (-821) (-228);
    mk_cached_power 0x9096EA6F3848984F (-794) (-220);
    mk_cached_power 0xD77485CB25823AC7 (-768) (-212);
    mk_cached_power 0xA086CFCD97BF97F4 (-741) (-204);
    mk_cached_power 0xEF340A98172AACE5 (-715) (-196);
    mk_cached_power 0xB23867FB2A35B28E (-688) (-188);
    mk_cached_power 0x84C8D4DFD2C63F3B (-661) (-180);
    mk_cached_power 0xC5DD44271AD3CDBA (-635) (-172);
    mk_cached_power 0x936B9FCEBB25C996 (-608) (-164);
    mk_cached_power 0xDBAC6C247D62A584 (-582) (-156);
    mk_cached_power 0xA3AB66580D5FDAF6 (-555) (-148);
    mk_cached_power 0xF3E2F893DEC3F126 (-529) (-140);
    mk_cached_power 0xB5B5ADA8AAFF80B8 (-502) (-132);
    mk_cached_power 0x87625F056C7C4A8B (-475) (-124);
    mk_cached_power 0xC9BCFF6034C13053 (-449) (-116);
    mk_cached_power 0x964E858C91BA2655 (-422) (-108);
    mk_cached_power 0xDFF9772470297EBD (-396) (-100);
    mk_cached_power 0xA6DFBD9FB8E5B88F (-369) (-92);
    mk_cached_power 0xF8A95FCF88747D94 (-343) (-84);
    mk_cached_power 0xB94470938FA89BCF (-316) (-76);
    mk_cached_power 0x8A08F0F8BF0F156B (-289) (-68);
    mk_cached_power 0xCDB02555653131B6 (-263) (-60);
    mk_cached_power 0x993FE2C6D07B7FAC (-236) (-52);
    mk_cached_power 0xE45C10C42A2B3B06 (-210) (-44);
    mk_cached_power 0xAA242499697392D3 (-183) (-36);
    mk_cached_power 0xFD87B5F28300CA0E (-157) (-28);
    mk_cached_power 0xBCE5086492111AEB (-130) (-20);
    mk_cached_power 0x8CBCCC096F5088CC (-103) (-12);
    mk_cached_power 0xD1B71758E219652C (-77) (-4);
    mk_cached_power 0x9C40000000000000 (-50) 4;
    mk_cached_power 0xE8D4A51000000000 (-24) 12;
    mk_cached_power 0xAD78EBC5AC620000 3 20;
    mk_cached_power 0x813F3978F8940984 30 28;
    mk_cached_power 0xC097CE7BC90715B3 56 36;
    mk_cached_power 0x8F7E32CE7BEA5C70 83 44;
    mk_cached_power 0xD5D238A4ABE98068 109 52;
    mk_cached_power 0x9F4F2726179A2245 136 60;
    mk_cached_power 0xED63A231D4C4FB27 162 68;
    mk_cached_power 0xB0DE65388CC8ADA8 189 76;
    mk_cached_power 0x83C7088E1AAB65DB 216 84;
    mk_cached_power 0xC45D1DF942711D9A 242 92;
    mk_cached_power 0x924D692CA61BE758 269 100;
    mk_cached_power 0xDA01EE641A708DEA 295 108;
    mk_cached_power 0xA26DA3999AEF774A 322 116;
    mk_cached_power 0xF209787BB47D6B85 348 124;
    mk_cached_power 0xB454E4A179DD1877 375 132;
    mk_cached_power 0x865B86925B9BC5C2 402 140;
    mk_cached_power 0xC83553C5C8965D3D 428 148;
    mk_cached_power 0x952AB45CFA97A0B3 455 156;
    mk_cached_power 0xDE469FBD99A05FE3 481 164;
    mk_cached_power 0xA59BC234DB398C25 508 172;
    mk_cached_power 0xF6C69A72A3989F5C 534 180;
    mk_cached_power 0xB7DCBF5354E9BECE 561 188;
    mk_cached_power 0x88FCF317F22241E2 588 196;
    mk_cached_power 0xCC20CE9BD35C78A5 614 204;
    mk_cached_power 0x98165AF37B2153DF 641 212;
    mk_cached_power 0xE2A0B5DC971F303A 667 220;
    mk_cached_power 0xA8D9D1535CE3B396 694 228;
    mk_cached_power 0xFB9B7CD9A4A7443C 720 236;
    mk_cached_power 0xBB764C4CA7A44410 747 244;
    mk_cached_power 0x8BAB8EEFB6409C1A 774 252;
    mk_cached_power 0xD01FEF10A657842C 800 260;
    mk_cached_power 0x9B10A4E5E9913129 827 268;
    mk_cached_power 0xE7109BFBA19C0C9D 853 276;
    mk_cached_power 0xAC2820D9623BF429 880 284;
    mk_cached_power 0x80444B5E7AA7CF85 907 292;
    mk_cached_power 0xBF21E44003ACDD2D 933 300;
    mk_cached_power 0x8E679C2F5E44FF8F 960 308;
    mk_cached_power 0xD433179D9C8CB841 986 316;
    mk_cached_power 0x9E19DB92B4E31BA9 1013 324 ].

(** [int] division truncates. *)
Definition get_cached_power_for_binary_exponent (e : Z) : res cached_power :=
  assert (-1500 <=? e) (assert (e <=? 1500)
  (let f := kAlpha - e - 1 in
   let k := Z.quot (f * 78913) (Z.shiftl 1 18) + (if 0 <? f then 1 else 0) in
   let index := Z.quot (300 + k + (8 - 1)) 8 in
   assert (0 <=? index)
   match kCachedPowers !! Z.to_nat index with
   | Some cached =>
       assert (kAlpha <=? cp_e cached + e + 64)
       (assert (cp_e cached + e + 64 <=? kGamma) (Ret cached))
   | None => Abort
   end)).

(** * Digit generation *)

(** The number of digits and the power of ten of the first one. *)
Definition find_largest_pow10 (n : Z) : Z * Z :=
  if 1000000000 <=? n then (10, 1000000000)
  else if 100000000 <=? n then (9, 100000000)
  else if 10000000 <=? n then (8, 10000000)
  else if 1000000 <=? n then (7, 1000000)
  else if 100000 <=? n then (6, 100000)
  else if 10000 <=? n then (5, 10000)
  else if 1000 <=? n then (4, 1000)
  else if 100 <=? n then (3, 100)
  else if 10 <=? n then (2, 10)
  else (1, 1).

(** [buf[len - 1]--]. *)
Fixpoint decrement_last (buf : cstring) : cstring :=
  match buf with
  | [] => []
  | [c] => [c - 1]
  | c :: buf' => c :: decrement_last buf'
  end.

(** The last digit is at most '9', and the assertion stops at '0'. *)
Fixpoint grisu2_round_loop (fuel : nat) (buf : cstring) (dist delta rest ten_k : Z) :
    res cstring :=
  match fuel with
  | O => Diverge
  | S fuel' =>
      if (rest <? dist) && (ten_k <=? u64 (delta - rest)) &&
         ((u64 (rest + ten_k) <? dist) ||
          (u64 (rest + ten_k - dist) <? u64 (dist - rest)))
      then
        assert (negb (bool_decide (last buf = Some 48)))
          (grisu2_round_loop fuel' (decrement_last buf) dist delta (u64 (rest + ten_k)) ten_k)
      else Ret buf
  end.

Definition grisu2_round (buf : cstring) (dist delta rest ten_k : Z) : res cstring :=
  assert (1 <=? length buf)%nat
  (assert (dist <=? delta) (assert (rest <=? delta) (assert (0 <? ten_k)
    (grisu2_round_loop 11 buf dist delta rest ten_k)))).

(** [buffer[length++] = c] in a buffer of [cap] characters. *)
Definition push (cap : nat) (buf : cstring) (c : Z) : res cstring :=
  if (length buf <? cap)%nat then Ret (buf ++ [c]) else Undef.

(** What the loop over the integral part ends with: the digits and the decimal
    exponent, or the digits it has when there is no integral part left. *)
Inductive gen_step : Type :=
| Gen_done (buf : cstring) (decimal_exponent : Z)
| Gen_rest (buf : cstring).

(** [while (n > 0)]. *)
Fixpoint digit_gen_integral (n : nat) (cap : nat) (buf : cstring) (decimal_exponent : Z)
    (p1 pow10 p2 dist delta one_e : Z) : res gen_step :=
  match n with
  | O => Ret (Gen_rest buf)
  | S n' =>
      let d := p1 / pow10 in
      let r := p1 mod pow10 in
      assert (d <=? 9)
      (buf ← push cap buf (48 + d);
       let rest := u64 (u64 (Z.shiftl r (- one_e)) + p2) in
       if rest <=? delta then
         let ten_n := u64 (Z.shiftl pow10 (- one_e)) in
         buf ← grisu2_round buf dist delta rest ten_n;
         Ret (Gen_done buf (decimal_exponent + Z.of_nat n'))
       else digit_gen_integral n' cap buf decimal_exponent r (pow10 / 10) p2 dist delta one_e)
  end.

(** [for (;;)]: the digits of the fraction; [delta] grows tenfold per round
    and [p2] stays below [2 ^ 60], so 20 rounds are enough. *)
Fixpoint digit_gen_fraction (fuel : nat) (cap : nat) (buf : cstring) (m : Z)
    (p2 dist delta : Z) (one : diyfp) : res (cstring * Z) :=
  match fuel with
  | O => Diverge
  | S fuel' =>
      assert (p2 <=? Z.quot (2 ^ 64 - 1) 10)
      (let p2 := u64 (p2 * 10) in
       let d := Z.shiftr p2 (- de one) in
       let r := Z.land p2 (df one - 1) in
       assert (d <=? 9)
       (buf ← push cap buf (48 + d);
        let delta := u64 (delta * 10) in
        let dist := u64 (dist * 10) in
        if r <=? delta then
          buf ← grisu2_round buf dist delta r (df one);
          Ret (buf, m + 1)
        else digit_gen_fraction fuel' cap buf (m + 1) r dist delta one))
  end.

Definition grisu2_digit_gen (cap : nat) (decimal_exponent : Z) (M_minus w M_plus : diyfp) :
    res (cstring * Z) :=
  assert (kAlpha <=? de M_plus) (assert (de M_plus <=? kGamma)
  (delta ← diyfp_sub M_plus M_minus;
   dist ← diyfp_sub M_plus w;
   let one := mk_diyfp (u64 (Z.shiftl 1 (- de M_plus))) (de M_plus) in
   let p1 := u32 (Z.shiftr (df M_plus) (- de one)) in
   let p2 := Z.land (df M_plus) (df one - 1) in
   assert (0 <? p1)
   (let '(k, pow10) := find_largest_pow10 p1 in
    s ← digit_gen_integral (Z.to_nat k) cap [] decimal_exponent p1 pow10 p2
          (df dist) (df delta) (de one);
    match s with
    | Gen_done buf decimal_exponent => Ret (buf, decimal_exponent)
    | Gen_rest buf =>
        assert (df delta <? p2)
        ('(buf, m) ← digit_gen_fraction 20 cap buf 0 p2 (df dist) (df delta) one;
         Ret (buf, decimal_exponent - m))
    end))).

(** The overload on boundaries. *)
Definition grisu2_boundaries (cap : nat) (m_minus v m_plus : diyfp) : res (cstring * Z) :=
  assert (de m_plus =? de m_minus) (assert (de m_plus =? de v)
  (cached ← get_cached_power_for_binary_exponent (de m_plus);
   let c_minus_k := mk_diyfp (cp_f cached) (cp_e cached) in
   let w := diyfp_mul v c_minus_k in
   let w_minus := diyfp_mul m_minus c_minus_k in
   let w_plus := diyfp_mul m_plus c_minus_k in
   let M_minus := mk_diyfp (u64 (df w_minus + 1)) (de w_minus) in
   let M_plus := mk_diyfp (u64 (df w_plus - 1)) (de w_plus) in
   grisu2_digit_gen cap (- cp_k cached) M_minus w M_plus)).

(** The digits of a positive finite double and their decimal exponent. *)
Definition grisu2 (cap : nat) (value : spec_float) : res (cstring * Z) :=
  b ← compute_boundaries value;
  grisu2_boundaries cap (b_minus b) (b_w b) (b_plus b).

(** * Formatting *)

Definition append_exponent (e : Z) : res cstring :=
  assert (-1000 <? e) (assert (e <? 1000)
  (let sign := if e <? 0 then 45 else 43 in
   let k := Z.abs e in
   Ret (sign ::
     (if k <? 10 then [48; 48 + k]
      else if k <? 100 then [48 + k / 10; 48 + k mod 10]
      else [48 + k / 100; 48 + k mod 100 / 10; 48 + k mod 100 mod 10])))).

Definition zeros (n : Z) : cstring := repeat 48 (Z.to_nat n).

(** The characters from the start of the buffer to the end that is returned,
    in a buffer of [cap] characters. *)
Definition within (cap : nat) (text : cstring) : res cstring :=
  if (length text <=? cap)%nat then Ret text else Undef.

Definition format_buffer (cap : nat) (buf : cstring) (decimal_exponent min_exp max_exp : Z) :
    res cstring :=
  assert (min_exp <? 0) (assert (0 <? max_exp)
  (let k := Z.of_nat (length buf) in
   let n := k + decimal_exponent in
   if (k <=? n) && (n <=? max_exp) then within cap (buf ++ zeros (n - k) ++ [46; 48])
   else if (0 <? n) && (n <=? max_exp) then
     assert (n <? k)
       (within cap (take (Z.to_nat n) buf ++ 46 :: drop (Z.to_nat n) buf))
   else if (min_exp <? n) && (n <=? 0) then within cap ([48; 46] ++ zeros (- n) ++ buf)
   else
     let buf := if k =? 1 then buf else take 1 buf ++ 46 :: drop 1 buf in
     e ← append_exponent (n - 1);
     within cap (buf ++ 101 :: e))).

Definition digits10 : Z := 15.
Definition max_digits10 : nat := 17.

Definition signbit (value : spec_float) : bool :=
  match value with
  | S754_zero s | S754_infinity s => s
  | S754_nan => false
  | S754_finite s _ _ => s
  end.

(** [to_chars(first, last, value)] with room for [size] characters. *)
Definition to_chars (size : nat) (value : spec_float) : res cstring :=
  assert (isfinite value)
  (let sign := if signbit value then [45] else [] in
   let value := if signbit value then SFopp value else value in
   let cap := (size - length sign)%nat in
   match value with
   | S754_zero _ => text ← within cap [48; 46; 48]; Ret (sign ++ text)
   | _ =>
       assert (max_digits10 <=? cap)%nat
       ('(buf, decimal_exponent) ← grisu2 cap value;
        assert (length buf <=? max_digits10)%nat
        (assert (Z.to_nat (digits10 + 2) <=? cap)%nat
        (assert (2 + 3 + max_digits10 <=? cap)%nat
        (assert (max_digits10 + 6 <=? cap)%nat
          (text ← format_buffer cap buf decimal_exponent (-4) digits10;
           Ret (sign ++ text))))))
   end).
