(* ===== verification/GrisuBounds.v ===== *)
(** Grisu2, the scaling: the boundaries that [compute_boundaries] finds are
    exact, and after multiplication with a cached power of ten they are off
    by less than one unit in the last place. *)

From S2P Require Import Prelude Double JsonValue JsonToChars.

(** * Products *)

Lemma u64_small z : 0 ≤ z < 2 ^ 64 → u64 z = z.
Proof. intros. by apply Z.mod_small. Qed.

Lemma land_low z n : 0 ≤ n → Z.land z (2 ^ n - 1) = z mod 2 ^ n.
Proof. intros. rewrite <- Z.land_ones by done. by rewrite Z.ones_equiv, Z.sub_1_r. Qed.

(** [mul] rounds the upper half of the product, ties up. *)
Lemma diyfp_mul_spec x y :
  0 ≤ df x < 2 ^ 64 → 0 ≤ df y < 2 ^ 64 →
  df (diyfp_mul x y) = (df x * df y + 2 ^ 63) / 2 ^ 64.
Proof.
  intros Hx Hy. unfold diyfp_mul. simpl df.
  change 0xFFFFFFFF with (2 ^ 32 - 1). rewrite !land_low, !Z.shiftr_div_pow2 by lia.
  set (u := df x) in *. set (v := df y) in *.
  pose proof (Z.div_mod u (2 ^ 32) ltac:(lia)) as Eu. pose proof (Z.mod_pos_bound u (2 ^ 32) ltac:(lia)).
  pose proof (Z.div_mod v (2 ^ 32) ltac:(lia)) as Ev. pose proof (Z.mod_pos_bound v (2 ^ 32) ltac:(lia)).
  assert (0 ≤ u / 2 ^ 32 < 2 ^ 32) by (split; [apply Z.div_pos; lia|apply Z.div_lt_upper_bound; lia]).
  assert (0 ≤ v / 2 ^ 32 < 2 ^ 32) by (split; [apply Z.div_pos; lia|apply Z.div_lt_upper_bound; lia]).
  set (uh := u / 2 ^ 32) in *. set (ul := u mod 2 ^ 32) in *.
  set (vh := v / 2 ^ 32) in *. set (vl := v mod 2 ^ 32) in *.
  assert (∀ a b, 0 ≤ a < 2 ^ 32 → 0 ≤ b < 2 ^ 32 → 0 ≤ a * b ≤ (2 ^ 32 - 1) * (2 ^ 32 - 1)) as Hp by nia.
  pose proof (Hp ul vl ltac:(done) ltac:(done)) as Hp0.
  pose proof (Hp ul vh ltac:(done) ltac:(done)) as Hp1.
  pose proof (Hp uh vl ltac:(done) ltac:(done)) as Hp2.
  pose proof (Hp uh vh ltac:(done) ltac:(done)) as Hp3.
  assert (u * v = ul * vl + 2 ^ 32 * (ul * vh + uh * vl) + 2 ^ 64 * (uh * vh)) as ->.
  { rewrite Eu, Ev. ring. }
  rewrite !(u64_small (_ * _)) by lia.
  set (p0 := ul * vl) in *. set (p1 := ul * vh) in *. set (p2 := uh * vl) in *.
  set (p3 := uh * vh) in *. clearbody p0 p1 p2 p3. clear Hp Eu Ev.
  pose proof (Z.div_mod p0 (2 ^ 32) ltac:(lia)). pose proof (Z.mod_pos_bound p0 (2 ^ 32) ltac:(lia)).
  pose proof (Z.div_mod p1 (2 ^ 32) ltac:(lia)). pose proof (Z.mod_pos_bound p1 (2 ^ 32) ltac:(lia)).
  pose proof (Z.div_mod p2 (2 ^ 32) ltac:(lia)). pose proof (Z.mod_pos_bound p2 (2 ^ 32) ltac:(lia)).
  change (Z.shiftl 1 (64 - 32 - 1)) with (2 ^ 31).
  set (a0 := p0 / 2 ^ 32) in *. set (b0 := p0 mod 2 ^ 32) in *.
  set (a1 := p1 / 2 ^ 32) in *. set (b1 := p1 mod 2 ^ 32) in *.
  set (a2 := p2 / 2 ^ 32) in *. set (b2 := p2 mod 2 ^ 32) in *.
  clearbody a0 b0 a1 b1 a2 b2.
  rewrite (u64_small (a0 + b1 + b2)), (u64_small (a0 + b1 + b2 + 2 ^ 31)) by lia.
  pose proof (Z.div_mod (a0 + b1 + b2 + 2 ^ 31) (2 ^ 32) ltac:(lia)).
  pose proof (Z.mod_pos_bound (a0 + b1 + b2 + 2 ^ 31) (2 ^ 32) ltac:(lia)).
  set (q := (a0 + b1 + b2 + 2 ^ 31) / 2 ^ 32) in *.
  set (r := (a0 + b1 + b2 + 2 ^ 31) mod 2 ^ 32) in *. clearbody q r.
  rewrite u64_small by lia.
  apply (Z.div_unique _ _ _ (b0 + 2 ^ 32 * r)); lia.
Qed.

(** * Normalisation *)

Lemma shiftr63_zero f : 0 ≤ f < 2 ^ 64 → (Z.shiftr f 63 =? 0) = (f <? 2 ^ 63).
Proof.
  intros Hf. rewrite Z.shiftr_div_pow2 by lia.
  destruct (Z.ltb_spec f (2 ^ 63)); [by rewrite Z.div_small by lia|].
  assert (f / 2 ^ 63 = 1) as ->; [|done].
  symmetry. apply (Z.div_unique _ _ _ (f - 2 ^ 63)); lia.
Qed.

Lemma normalize_loop_spec fuel f e :
  0 < f < 2 ^ 64 → 63 - Z.log2 f < Z.of_nat fuel →
  normalize_loop fuel (mk_diyfp f e) =
    Ret (mk_diyfp (f * 2 ^ (63 - Z.log2 f)) (e - (63 - Z.log2 f))).
Proof.
  revert f e. induction fuel as [|fuel IH]; intros f e Hf Hfuel.
  - assert (Z.log2 f < 64) by (apply Z.log2_lt_pow2; lia). lia.
  - cbn [normalize_loop df de]. rewrite shiftr63_zero by lia.
    destruct (Z.ltb_spec f (2 ^ 63)) as [Hlt|Hge].
    + rewrite Z.shiftl_mul_pow2 by lia. change (2 ^ 1) with 2.
      rewrite u64_small by lia.
      assert (Z.log2 (f * 2) = Z.log2 f + 1) as El.
      { rewrite Z.mul_comm, Z.log2_double by lia. done. }
      assert (Z.log2 f < 63) by (apply Z.log2_lt_pow2; lia).
      rewrite IH, El by lia. do 2 f_equal; [|lia].
      rewrite <- Z.mul_assoc. f_equal. change 2 with (2 ^ 1) at 1.
      rewrite <- Z.pow_add_r by lia. f_equal. lia.
    + assert (Z.log2 f = 63) as -> by (apply Z.log2_unique; lia).
      change (2 ^ (63 - 63)) with 1. do 2 f_equal; lia.
Qed.

Lemma normalize_spec f e :
  0 < f < 2 ^ 64 →
  normalize (mk_diyfp f e) =
    Ret (mk_diyfp (f * 2 ^ (63 - Z.log2 f)) (e - (63 - Z.log2 f))).
Proof.
  intros Hf. unfold normalize, assert. simpl df.
  assert ((f =? 0) = false) as -> by lia. simpl negb. cbv iota.
  apply normalize_loop_spec; [done|]. pose proof (Z.log2_nonneg f). lia.
Qed.

(** * Boundaries *)

(** The number of leading zeros of a 64-bit significand. *)
Definition lead (f : Z) : Z := 63 - Z.log2 f.

Lemma lead_range f : 0 < f < 2 ^ 53 → 11 ≤ lead f ≤ 63.
Proof.
  intros Hf. unfold lead. pose proof (Z.log2_nonneg f).
  assert (Z.log2 f < 53) by (apply Z.log2_lt_pow2; lia). lia.
Qed.

Lemma lead_bounds f : 0 < f < 2 ^ 53 → 2 ^ 63 ≤ f * 2 ^ lead f < 2 ^ 64.
Proof.
  intros Hf. pose proof (lead_range f Hf) as Hl. unfold lead in *.
  pose proof (Z.log2_spec f ltac:(lia)) as [H1 H2].
  pose proof (Z.pow_pos_nonneg 2 (63 - Z.log2 f)) as Hp.
  assert (2 ^ Z.log2 f * 2 ^ (63 - Z.log2 f) = 2 ^ 63) as E.
  { rewrite <- Z.pow_add_r by lia. f_equal. lia. }
  unfold Z.succ in H2. rewrite Z.pow_add_r in H2 by lia. nia.
Qed.

(** The exact boundaries, at the exponent of the normalised value. *)
Definition exact_boundaries (f e : Z) : boundaries :=
  let s := lead f in
  mk_boundaries (mk_diyfp (f * 2 ^ s) (e - s))
    (mk_diyfp (if closer f e then (4 * f - 1) * 2 ^ (s - 2) else (2 * f - 1) * 2 ^ (s - 1)) (e - s))
    (mk_diyfp ((2 * f + 1) * 2 ^ (s - 1)) (e - s)).

Lemma normalize_to_spec f e t :
  0 ≤ e - t → 0 ≤ f → f * 2 ^ (e - t) < 2 ^ 64 →
  normalize_to (mk_diyfp f e) t = Ret (mk_diyfp (f * 2 ^ (e - t)) t).
Proof.
  intros Ht Hf Hlt. unfold normalize_to, assert. simpl df; simpl de.
  assert ((0 <=? e - t) = true) as -> by lia. rewrite Z.shiftl_mul_pow2 by done.
  pose proof (Z.pow_pos_nonneg 2 (e - t)).
  rewrite u64_small by nia. rewrite Z.shiftr_div_pow2, Z.div_mul by lia.
  by rewrite Z.eqb_refl.
Qed.

(** The fields of the IEEE representation. *)
Lemma bits_fields f e :
  canonical f e →
  let bits := reinterpret_bits f e in
  let E := Z.shiftr bits 52 in
  let F := Z.land bits (2 ^ 52 - 1) in
  (if E =? 0 then mk_diyfp F (-1074) else mk_diyfp (u64 (F + 2 ^ 52)) (E - 1075)) = mk_diyfp f e ∧
  (F =? 0) && (1 <? E) = closer f e.
Proof.
  intros (Hf & He & Hc). unfold reinterpret_bits, closer.
  rewrite land_low, Z.shiftr_div_pow2 by lia.
  destruct (Z.ltb_spec f (2 ^ 52)) as [Hlt|Hge].
  - rewrite Z.div_small, Z.mod_small by lia. simpl. split; [f_equal; lia|]. lia.
  - assert (((e + 1075) * 2 ^ 52 + (f - 2 ^ 52)) / 2 ^ 52 = e + 1075) as ->
      by (symmetry; apply (Z.div_unique _ _ _ (f - 2 ^ 52)); lia).
    assert (((e + 1075) * 2 ^ 52 + (f - 2 ^ 52)) mod 2 ^ 52 = f - 2 ^ 52) as ->
      by (symmetry; apply (Z.mod_unique _ _ (e + 1075)); lia).
    assert ((e + 1075 =? 0) = false) as -> by lia. rewrite u64_small by lia.
    split; [f_equal; lia|]. lia.
Qed.

Lemma compute_boundaries_spec m e :
  canonical (Zpos m) e →
  compute_boundaries (S754_finite false m e) = Ret (exact_boundaries (Zpos m) e).
Proof.
  intros Hcan. unfold compute_boundaries.
  change (kPrecision - 1) with 52. change kHiddenBit with (2 ^ 52).
  change kMinExp with (-1074). change kBias with 1075.
  destruct (bits_fields (Zpos m) e Hcan) as [Ev Ec]. cbv zeta in Ev, Ec. cbv zeta.
  rewrite Ev, Ec. simpl df; simpl de. clear Ev Ec.
  destruct Hcan as (Hf & He & _). set (f := Zpos m) in *.
  pose proof (lead_range f Hf) as Hl. pose proof (lead_bounds f Hf) as Hb.
  assert (Z.log2 (2 * f + 1) = Z.log2 f + 1) as El by (rewrite Z.log2_succ_double; lia).
  rewrite (u64_small (2 * f + 1)), (normalize_spec (2 * f + 1) (e - 1)), El by lia. cbn [mbind outcome_bind].
  assert (63 - (Z.log2 f + 1) = lead f - 1) as -> by (unfold lead; lia). simpl de.
  replace (e - 1 - (lead f - 1)) with (e - lead f) by lia.
  rewrite (normalize_spec f e) by lia. fold (lead f).
  assert (2 ^ lead f = 4 * 2 ^ (lead f - 2)) as E2.
  { change 4 with (2 ^ 2). rewrite <- Z.pow_add_r by lia. f_equal. lia. }
  assert (2 ^ lead f = 2 * 2 ^ (lead f - 1)) as E1.
  { change 2 with (2 ^ 1) at 2. rewrite <- Z.pow_add_r by lia. f_equal. lia. }
  unfold exact_boundaries. destruct (closer f e).
  - rewrite (u64_small (4 * f - 1)), normalize_to_spec;
      replace (e - 2 - (e - lead f)) with (lead f - 2) by lia; [done|nia..].
  - rewrite (u64_small (2 * f - 1)), normalize_to_spec;
      replace (e - 1 - (e - lead f)) with (lead f - 1) by lia; [done|nia..].
Qed.

(** * Cached powers *)

(** Powers with a common denominator: [p2 x] stands for [2 ^ x] and [p10 y]
    for [10 ^ y], for the exponents that occur. *)
Definition p2 (x : Z) : Z := 2 ^ (1300 + x).
Definition p10 (y : Z) : Z := 10 ^ (700 + y).

(** A cached power is normalised, and within half a unit of the power of ten. *)
Definition accurate (c : cached_power) : bool :=
  (2 ^ 63 <=? cp_f c) && (cp_f c <? 2 ^ 64) &&
  (-1060 <=? cp_e c) && (cp_e c <=? 1013) && (-300 <=? cp_k c) && (cp_k c <=? 324) &&
  (2 * Z.abs (cp_f c * p2 (cp_e c) * p10 0 - p10 (cp_k c) * p2 0) <=? p2 (cp_e c) * p10 0).

(** The last test with the common denominator divided out; [P] is the power of
    ten with the absolute value of the exponent. *)
Definition close_to (c : cached_power) (P : Z) : bool :=
  let '(X, Y) :=
    if 0 <=? cp_k c
    then if 0 <=? cp_e c then (2 ^ cp_e c, P) else (1, P * 2 ^ (- cp_e c))
    else if 0 <=? cp_e c then (0, 1) else (P, 2 ^ (- cp_e c)) in
  2 * Z.abs (cp_f c * X - Y) <=? X.

Definition entry_ok (c : cached_power) (P : Z) : bool :=
  (2 ^ 63 <=? cp_f c) && (cp_f c <? 2 ^ 64) &&
  (-1060 <=? cp_e c) && (cp_e c <=? 1013) && (-300 <=? cp_k c) && (cp_k c <=? 324) && close_to c P.

(** The entries are eight decimal orders apart, so that each power of ten comes
    from the one before. *)
Fixpoint entries_ok (k P : Z) (l : list cached_power) : bool :=
  match l with
  | [] => true
  | c :: l' => (Z.abs (cp_k c) =? k) && entry_ok c P && entries_ok (k + 8) (100000000 * P) l'
  end.

Lemma scale_le s X Y f :
  0 < s → 2 * Z.abs (f * X - Y) ≤ X → 2 * Z.abs (f * (s * X) - s * Y) ≤ s * X.
Proof.
  intros Hs H. replace (f * (s * X) - s * Y) with (s * (f * X - Y)) by ring.
  rewrite Z.abs_mul, (Z.abs_eq s) by lia.
  pose proof (Z.mul_le_mono_nonneg_l _ _ s ltac:(lia) H). lia.
Qed.

Lemma p2_scale x s : 0 ≤ s → -1300 ≤ x → p2 (x + s) = p2 x * 2 ^ s.
Proof. intros. unfold p2. rewrite <- Z.pow_add_r by lia. f_equal. lia. Qed.

Lemma p10_shift x s : 0 ≤ s → -700 ≤ x → p10 (x + s) = p10 x * 10 ^ s.
Proof. intros. unfold p10. rewrite <- Z.pow_add_r by lia. f_equal. lia. Qed.

(** Equal up to the order of the factors. *)
Ltac scaled H :=
  eapply Z.le_trans; [|eapply Z.le_trans; [exact H|]];
  [apply Z.eq_le_incl; do 2 f_equal; ring | apply Z.eq_le_incl; ring].

Lemma entry_accurate c : entry_ok c (10 ^ Z.abs (cp_k c)) = true → accurate c = true.
Proof.
  unfold entry_ok, accurate. rewrite !andb_true_iff. intros [Hr Hc]. split; [done|].
  assert (-1060 ≤ cp_e c ≤ 1013 ∧ -300 ≤ cp_k c ≤ 324) as [He Hk] by (clear Hc; lia). clear Hr.
  unfold close_to in Hc. apply Z.leb_le. rewrite <- Z.mul_assoc, (Z.mul_comm (p10 (cp_k c))).
  assert (0 < p2 (Z.min 0 (cp_e c))) as H2 by (apply Z.pow_pos_nonneg; lia).
  assert (0 < p10 (Z.min 0 (cp_k c))) as H10 by (apply Z.pow_pos_nonneg; lia).
  assert (0 < p2 (Z.min 0 (cp_e c)) * p10 (Z.min 0 (cp_k c))) as Hs by nia.
  destruct (Z.leb_spec 0 (cp_k c)), (Z.leb_spec 0 (cp_e c)); apply Z.leb_le in Hc;
    [| |lia|]; apply (scale_le _ _ _ _ Hs) in Hc;
    rewrite ?(Z.min_l 0 (cp_k c)), ?(Z.min_r 0 (cp_k c)), ?(Z.min_l 0 (cp_e c)),
      ?(Z.min_r 0 (cp_e c)), ?(Z.abs_eq (cp_k c)), ?(Z.abs_neq (cp_k c)) in Hc by lia.
  - pose proof (p2_scale 0 (cp_e c)) as E2. pose proof (p10_shift 0 (cp_k c)) as E10.
    rewrite Z.add_0_l in E2, E10. rewrite E2, E10 by lia. scaled Hc.
  - pose proof (p2_scale (cp_e c) (- cp_e c)) as E2. pose proof (p10_shift 0 (cp_k c)) as E10.
    rewrite Z.add_opp_diag_r in E2. rewrite Z.add_0_l in E10. rewrite E2, E10 by lia. scaled Hc.
  - pose proof (p2_scale (cp_e c) (- cp_e c)) as E2. pose proof (p10_shift (cp_k c) (- cp_k c)) as E10.
    rewrite Z.add_opp_diag_r in E2, E10. rewrite E2, E10 by lia. scaled Hc.
Qed.

Lemma entries_accurate k l :
  0 ≤ k → entries_ok k (10 ^ k) l = true → Forall (λ c, accurate c = true) l.
Proof.
  revert k. induction l as [|c l IH]; intros k Hk; cbn [entries_ok]; [constructor|].
  rewrite !andb_true_iff. intros [[Ek%Z.eqb_eq Hc] Hl]. constructor.
  - apply entry_accurate. by rewrite Ek.
  - apply (IH (k + 8)); [lia|]. by rewrite Z.pow_add_r, Z.mul_comm by lia.
Qed.

(** The table up to 10 ^ -4, upwards in the absolute value, and from 10 ^ 4. *)
Lemma kCachedPowers_accurate : Forall (λ c, accurate c = true) kCachedPowers.
Proof.
  rewrite <- (take_drop 38 kCachedPowers). apply Forall_app. split.
  - rewrite <- (rev_involutive (take 38 kCachedPowers)). apply Forall_rev.
    apply (entries_accurate 4); [lia|]. vm_compute. reflexivity.
  - apply (entries_accurate 4); [lia|]. vm_compute. reflexivity.
Qed.

Lemma cached_power_found :
  forallb (λ i, returns (get_cached_power_for_binary_exponent (Z.of_nat i - 1137)))
    (seq 0 2098) = true.
Proof. vm_compute. reflexivity. Qed.

(** For every exponent of a normalised double there is a cached power that
    brings it into range. *)
Lemma get_cached_power_spec e :
  -1137 ≤ e ≤ 960 →
  ∃ c, get_cached_power_for_binary_exponent e = Ret c ∧ accurate c = true ∧
    -60 ≤ cp_e c + e + 64 ≤ -32.
Proof.
  intros He.
  pose proof (proj1 (forallb_forall _ _) cached_power_found (Z.to_nat (e + 1137))) as H.
  cbv beta in H. rewrite Z2Nat.id in H by lia. replace (e + 1137 - 1137) with e in H by lia.
  specialize (H ltac:(apply in_seq; lia)).
  destruct (get_cached_power_for_binary_exponent e) as [c| | | |] eqn:E; try done.
  exists c. split; [done|]. unfold get_cached_power_for_binary_exponent, assert in E.
  cbv zeta in E. revert E.
  do 3 (match goal with |- (if ?b then _ else _) = _ → _ => destruct b; [|done] end).
  match goal with |- context [kCachedPowers !! ?i] => destruct (kCachedPowers !! i) as [c'|] eqn:El end;
    [|done].
  destruct (kAlpha <=? _) eqn:Ha; [|done]. destruct (_ <=? kGamma) eqn:Hg; [|done].
  intros [= <-]. unfold kAlpha, kGamma in *. split; [|lia].
  by eapply (Forall_lookup_1 _ _ _ _ kCachedPowers_accurate).
Qed.

Lemma p2_pos x : -1300 ≤ x → 0 < p2 x.
Proof. intros. apply Z.pow_pos_nonneg; lia. Qed.

Lemma p10_pos x : -700 ≤ x → 0 < p10 x.
Proof. intros. apply Z.pow_pos_nonneg; lia. Qed.

Lemma p2_mul a b : -1300 ≤ a → -1300 ≤ b → -1300 ≤ a + b → p2 a * p2 b = p2 (a + b) * p2 0.
Proof. intros. unfold p2. rewrite <- !Z.pow_add_r by lia. f_equal. lia. Qed.

Lemma p10_mul a b : -700 ≤ a → -700 ≤ b → -700 ≤ a + b → p10 a * p10 b = p10 (a + b) * p10 0.
Proof. intros. unfold p10. rewrite <- !Z.pow_add_r by lia. f_equal. lia. Qed.

Lemma p2_shift a s : 0 ≤ s → -1300 ≤ a → p2 (a + s) = p2 a * 2 ^ s.
Proof. intros. unfold p2. rewrite <- Z.pow_add_r by lia. f_equal. lia. Qed.

(** The product with a cached power is off by less than one unit. *)
Lemma scaled_close x c :
  0 ≤ x < 2 ^ 64 → accurate c = true →
  let X := (x * cp_f c + 2 ^ 63) / 2 ^ 64 in
  (X - 1) * 2 ^ 64 * p2 (cp_e c) * p10 0 < x * p10 (cp_k c) * p2 0 ∧
  x * p10 (cp_k c) * p2 0 < (X + 1) * 2 ^ 64 * p2 (cp_e c) * p10 0.
Proof.
  intros Hx Hacc. unfold accurate in Hacc. to_prop. cbv zeta.
  pose proof (Z.div_mod (x * cp_f c + 2 ^ 63) (2 ^ 64) ltac:(lia)) as Ed.
  pose proof (Z.mod_pos_bound (x * cp_f c + 2 ^ 63) (2 ^ 64) ltac:(lia)) as Hr.
  set (X := (x * cp_f c + 2 ^ 63) / 2 ^ 64) in *.
  pose proof (p2_pos (cp_e c) ltac:(lia)) as Hp. pose proof (p10_pos 0 ltac:(lia)) as Hq.
  assert (0 < p2 (cp_e c) * p10 0) as Hu by nia.
  set (U := p2 (cp_e c) * p10 0) in *. set (Ht := p10 (cp_k c) * p2 0) in *.
  assert (∀ z, z * 2 ^ 64 * p2 (cp_e c) * p10 0 = z * (2 ^ 64 * U)) as Ez by (intros; unfold U; lia).
  rewrite !Ez. replace (x * p10 (cp_k c) * p2 0) with (x * Ht) by (unfold Ht; lia).
  assert (cp_f c * p2 (cp_e c) * p10 0 = cp_f c * U) as Ef by (unfold U; lia).
  rewrite Ef in *. clearbody U Ht. clear Ez Ef Hp Hq.
  assert (- U ≤ 2 * (cp_f c * U - Ht) ≤ U) as Hd by lia.
  assert (2 * x * (cp_f c * U - Ht) ≤ x * U ∧ - (x * U) ≤ 2 * x * (cp_f c * U - Ht)) as Hxd by nia.
  assert (x * U < 2 ^ 64 * U) as Hxu by nia.
  assert (2 ^ 64 * (X * U) = (x * cp_f c) * U + (2 ^ 63 - (x * cp_f c + 2 ^ 63) mod 2 ^ 64) * U) as EX by nia.
  assert (- 2 ^ 63 * U ≤ (2 ^ 63 - (x * cp_f c + 2 ^ 63) mod 2 ^ 64) * U ≤ 2 ^ 63 * U) as Hb by nia.
  lia.
Qed.
