(* ===== verification/GrisuDigits.v ===== *)
(** Grisu2, the digits: the loops of [grisu2_digit_gen] end, pass their
    assertions, do not overflow, and produce at most 17 digits of a number
    between [M-] and [M+]. *)

From S2P Require Import Prelude Double JsonValue JsonLexer JsonLexerFacts Utf8 JsonTokens.
From S2P Require Import JsonNumbers JsonToChars GrisuBounds.

Abbreviation dv := (digits_value 0).

Lemma dv_snoc b c : dv (b ++ [c]) = dv b * 10 + (c - 48).
Proof. by rewrite digits_value_app. Qed.

Lemma digits_value_acc a s :
  digits_value a s = a * 10 ^ Z.of_nat (length s) + dv s.
Proof.
  revert a. induction s as [|c s IH]; intros a; cbn [digits_value length]; [lia|].
  rewrite (IH (a * 10 + (c - 48))), (IH (0 * 10 + (c - 48))).
  rewrite Nat2Z.inj_succ, Z.pow_succ_r by lia. lia.
Qed.

(** Decimal digits without a leading zero. *)
Definition decimal_digits (buf : cstring) : Prop :=
  match buf with
  | [] => False
  | c :: b => 49 ≤ c ≤ 57 ∧ all_digits b = true
  end.

Lemma decimal_digits_all buf : decimal_digits buf → all_digits buf = true.
Proof.
  destruct buf as [|c b]; [done|]. intros [Hc Hb]. simpl. rewrite Hb, andb_true_r.
  unfold is_digit, in_range. lia.
Qed.

Lemma decimal_digits_lower buf :
  decimal_digits buf → 10 ^ (Z.of_nat (length buf) - 1) ≤ dv buf.
Proof.
  destruct buf as [|c b]; [done|]. intros [Hc Hb]. cbn [digits_value length].
  rewrite digits_value_acc. pose proof (digits_value_nonneg 0 b ltac:(lia) Hb).
  replace (Z.of_nat (S (length b)) - 1) with (Z.of_nat (length b)) by lia.
  pose proof (Z.pow_pos_nonneg 10 (Z.of_nat (length b)) ltac:(lia) ltac:(lia)). nia.
Qed.

Lemma decimal_digits_snoc buf d :
  decimal_digits buf ∨ (buf = [] ∧ 1 ≤ d) → 0 ≤ d ≤ 9 → decimal_digits (buf ++ [48 + d]).
Proof.
  intros [Hb|[-> Hd]] Hd'; [|simpl; split; [lia|done]].
  destruct buf as [|c b]; [done|]. destruct Hb as [Hc Hb]. simpl. split; [done|].
  apply all_digits_snoc; [done|]. unfold is_digit, in_range. lia.
Qed.

(** * Rounding *)

Lemma decrement_last_snoc b c : decrement_last (b ++ [c]) = b ++ [c - 1].
Proof.
  induction b as [|x b IH]; [done|]. simpl. destruct b as [|y b]; [done|]. simpl in *. by rewrite IH.
Qed.

(** Each decrement keeps the number above [M-], so the last digit stays
    positive and the assertion holds. *)
Lemma grisu2_round_loop_spec fuel b d dist delta rest ten :
  0 ≤ rest ≤ delta → 0 ≤ dist ≤ delta → delta < 2 ^ 64 → 0 < ten →
  delta < rest + d * ten → d < Z.of_nat fuel →
  ∃ i, grisu2_round_loop fuel (b ++ [48 + d]) dist delta rest ten = Ret (b ++ [48 + (d - i)]) ∧
    0 ≤ i < d ∧ rest + i * ten ≤ delta.
Proof.
  revert d rest. induction fuel as [|fuel IH]; intros d rest Hrest Hdist Hdelta Hten Hd Hf; [nia|].
  assert (1 ≤ d) as Hd1 by nia. cbn [grisu2_round_loop].
  destruct (_ && _ && _) eqn:Ec.
  - to_prop. rewrite (u64_small (delta - rest)) in * by lia.
    rewrite last_snoc. rewrite bool_decide_eq_false_2 by (intros [= ?]; lia).
    unfold assert. cbn [negb]. rewrite decrement_last_snoc, (u64_small (rest + ten)) by lia.
    replace (48 + d - 1) with (48 + (d - 1)) by lia.
    destruct (IH (d - 1) (rest + ten)) as (i & -> & Hi & Hle); [lia..|].
    exists (i + 1). split; [do 4 f_equal; lia|]. lia.
  - exists 0. split; [do 4 f_equal; lia|]. lia.
Qed.

Lemma grisu2_round_spec b d dist delta rest ten :
  0 ≤ rest ≤ delta → 0 ≤ dist ≤ delta → delta < 2 ^ 64 → 0 < ten →
  delta < rest + d * ten → d ≤ 9 →
  ∃ i, grisu2_round (b ++ [48 + d]) dist delta rest ten = Ret (b ++ [48 + (d - i)]) ∧
    0 ≤ i < d ∧ rest + i * ten ≤ delta.
Proof.
  intros Hrest Hdist Hdelta Hten Hd Hd9. unfold grisu2_round, assert.
  rewrite length_app. simpl length.
  assert ((1 <=? length b + 1)%nat = true) as -> by (apply Nat.leb_le; lia).
  assert ((dist <=? delta) = true) as -> by lia. assert ((rest <=? delta) = true) as -> by lia.
  assert ((0 <? ten) = true) as -> by lia.
  apply grisu2_round_loop_spec; lia.
Qed.

(** The digits after rounding. *)
Lemma rounded_digits buf d i :
  decimal_digits (buf ++ [48 + d]) → 0 ≤ i < d → d ≤ 9 →
  decimal_digits (buf ++ [48 + (d - i)]).
Proof.
  intros Hd Hi Hd9. apply decimal_digits_snoc; [|lia].
  destruct buf as [|c b]; [right; split; [done|lia]|left].
  simpl in *. destruct Hd as [Hc Hb]. split; [done|].
  unfold all_digits in *. rewrite forallb_app in Hb. by to_prop.
Qed.

(** * The loops *)

Section loops.
  Context (cap : nat) (Mp delta dist q : Z).
  Hypothesis (Hcap : (17 ≤ cap)%nat).
  Hypothesis (HMp : 0 ≤ Mp < 2 ^ 64).
  Hypothesis (Hdist : 0 ≤ dist ≤ delta).
  Hypothesis (Hdelta : 0 < delta < Mp).
  Hypothesis (Hwide : Mp < delta * 10 ^ 16).
  Hypothesis (Hq : 32 ≤ q ≤ 60).

Abbreviation one := (2 ^ q).

Lemma one_range : 2 ^ 32 ≤ one ≤ 2 ^ 60.
Proof. split; apply Z.pow_le_mono_r; lia. Qed.

(** While the rest is above [delta] there are at most 16 digits. *)
Lemma few_digits buf t u r :
  decimal_digits buf → 0 < t → 0 < u → Mp * t = dv buf * u + r → delta * t < r < u →
  (length buf ≤ 16)%nat.
Proof.
  intros Hb Ht Hu EM Hr. destruct (Nat.le_gt_cases (length buf) 16) as [|Hlen]; [done|exfalso].
  pose proof (decimal_digits_lower buf Hb) as Hl.
  pose proof (Z.pow_le_mono_r 10 16 (Z.of_nat (length buf) - 1) ltac:(lia) ltac:(lia)) as Hp.
  assert (10 ^ 16 * u ≤ dv buf * u) as H1 by (apply Z.mul_le_mono_nonneg_r; lia).
  assert (delta * t * 10 ^ 16 < u * 10 ^ 16) as H2 by (apply Z.mul_lt_mono_pos_r; lia).
  assert (Mp * t < delta * 10 ^ 16 * t) as H3 by (apply Z.mul_lt_mono_pos_r; lia).
  nia.
Qed.

(** What the generation promises: digits [buf] of a number [buf * 10 ^ j]
    between [M-] and [M+]. *)
Definition in_interval (buf : cstring) (j : Z) : Prop :=
  decimal_digits buf ∧ (length buf ≤ 17)%nat ∧ -40 ≤ j ≤ 40 ∧
  (Mp - delta) * 10 ^ Z.max 0 (- j) ≤ dv buf * 10 ^ Z.max 0 j * one ≤ Mp * 10 ^ Z.max 0 (- j).

Lemma push_ok buf c : (length buf ≤ 16)%nat → push cap buf c = Ret (buf ++ [c]).
Proof. intros H. unfold push. assert ((length buf <? cap)%nat = true) as ->; [|done]. apply Nat.ltb_lt. lia. Qed.

Lemma digit_gen_integral_spec n buf dexp p1 p2 :
  0 ≤ p2 < one → 0 ≤ p1 < 10 ^ Z.of_nat n → (n ≤ 10)%nat →
  Mp = (dv buf * 10 ^ Z.of_nat n + p1) * one + p2 →
  (buf = [] ∧ (0 < n)%nat ∧ 10 ^ Z.of_nat (pred n) ≤ p1) ∨
    (decimal_digits buf ∧ delta < p1 * one + p2) →
  (∃ buf' j, digit_gen_integral n cap buf dexp p1 (10 ^ Z.of_nat (pred n)) p2 dist delta (- q) =
      Ret (Gen_done buf' (dexp + j)) ∧ in_interval buf' j) ∨
  (∃ buf', digit_gen_integral n cap buf dexp p1 (10 ^ Z.of_nat (pred n)) p2 dist delta (- q) =
      Ret (Gen_rest buf') ∧ decimal_digits buf' ∧ Mp = dv buf' * one + p2 ∧ delta < p2).
Proof.
  pose proof one_range as Hone. revert buf p1. induction n as [|n IH]; intros buf p1 Hp2 Hp1 Hn EM Hst.
  { right. exists buf. split; [done|]. change (10 ^ Z.of_nat 0) with 1 in *.
    destruct Hst as [(_ & ? & _)|[Hb Hr]]; [lia|]. assert (p1 = 0) as -> by lia.
    split; [done|]. lia. }
  cbn [digit_gen_integral pred] in *. rewrite Nat2Z.inj_succ, Z.pow_succ_r in Hp1, EM by lia.
  set (P := 10 ^ Z.of_nat n) in *.
  assert (0 < P) as HP by (apply Z.pow_pos_nonneg; lia).
  pose proof (Z.div_mod p1 P ltac:(lia)) as Ep. pose proof (Z.mod_pos_bound p1 P HP) as Hr.
  set (d := p1 / P) in *. set (r := p1 mod P) in *.
  assert (0 ≤ d ≤ 9) as Hd by nia.
  unfold assert. assert ((d <=? 9) = true) as -> by lia.
  assert ((length buf ≤ 16)%nat) as Hlen.
  { destruct Hst as [(-> & _)|[Hb Hrest]]; [simpl; lia|].
    apply (few_digits buf 1 (10 * P * one) (p1 * one + p2)); [done|lia..|]. nia. }
  rewrite push_ok by done. cbn [mbind outcome_bind].
  assert (dv (buf ++ [48 + d]) = dv buf * 10 + d) as Edv by (rewrite dv_snoc; lia).
  assert (Mp = (dv (buf ++ [48 + d]) * P + r) * one + p2) as EM' by (rewrite Edv, EM, Ep; ring).
  assert (0 ≤ dv buf) as Hdv0.
  { destruct Hst as [(-> & _)|[Hb _]]; [done|].
    apply digits_value_nonneg; [lia|by apply decimal_digits_all]. }
  assert (decimal_digits (buf ++ [48 + d])) as Hdig.
  { apply decimal_digits_snoc; [|done]. destruct Hst as [(-> & _ & Hp)|[Hb _]]; [|by left].
    right. split; [done|]. nia. }
  assert (0 ≤ r * one + p2 ≤ Mp) as Hrest by nia.
  rewrite !Z.opp_involutive, !Z.shiftl_mul_pow2 by lia.
  rewrite (u64_small (r * one)), (u64_small (r * one + p2)) by nia.
  destruct (r * one + p2 <=? delta) eqn:Ele; to_prop.
  - left. assert (P * one ≤ Mp) as HPM.
    { pose proof (decimal_digits_lower _ Hdig) as Hlow. rewrite length_app in Hlow. simpl in Hlow.
      pose proof (Z.pow_pos_nonneg 10 (Z.of_nat (length buf + 1) - 1) ltac:(lia) ltac:(lia)). nia. }
    rewrite (u64_small (P * one)) by nia.
    assert (delta < r * one + p2 + d * (P * one)) as Hbig.
    { destruct Hst as [(-> & _)|[_ Hb]]; [|nia]. change (dv []) with 0 in *. nia. }
    destruct (grisu2_round_spec buf d dist delta (r * one + p2) (P * one))
      as (i & -> & Hi & Hile); [lia|lia|lia|nia|lia|lia|].
    cbn [mbind outcome_bind]. exists (buf ++ [48 + (d - i)]), (Z.of_nat n).
    split; [done|]. split; [by apply rounded_digits; [..|lia]|].
    split; [rewrite length_app; simpl; lia|]. split; [lia|].
    rewrite Z.max_l, Z.max_r by lia. change (10 ^ 0) with 1. fold P.
    assert (dv (buf ++ [48 + (d - i)]) = dv buf * 10 + d - i) as -> by (rewrite dv_snoc; lia).
    rewrite Edv in EM'. nia.
  - assert (P / 10 = 10 ^ Z.of_nat (pred n) ∨ n = O) as HP10.
    { destruct n as [|n']; [by right|left]. unfold P. rewrite Nat2Z.inj_succ, Z.pow_succ_r by lia.
      rewrite Z.mul_comm, Z.div_mul by lia. done. }
    assert (r < P) as HrP by lia.
    destruct n as [|n'].
    + right. exists (buf ++ [48 + d]). cbn [digit_gen_integral]. split; [done|]. split; [done|].
      unfold P in *. change (10 ^ Z.of_nat 0) with 1 in *. assert (r = 0) as Er by lia.
      rewrite Er in *. lia.
    + destruct HP10 as [->|]; [|lia]. apply IH; [lia|unfold P in *; lia|lia|done|].
      right. split; [done|lia].
Qed.

Lemma digit_gen_fraction_spec fuel buf m p2 dl ds :
  0 ≤ p2 < one → decimal_digits buf → 0 ≤ m → m + Z.of_nat fuel ≤ 20 →
  dl = delta * 10 ^ m → ds = dist * 10 ^ m →
  Mp * 10 ^ m = dv buf * one + p2 → dl < p2 → 2 ^ 60 ≤ dl * 10 ^ Z.of_nat fuel →
  ∃ buf' m', digit_gen_fraction fuel cap buf m p2 ds dl (mk_diyfp one (- q)) = Ret (buf', m') ∧
    in_interval buf' (- m').
Proof.
  pose proof one_range as Hone. revert buf m p2 dl ds.
  induction fuel as [|fuel IH]; intros buf m p2 dl ds Hp2 Hb Hm Hf Edl Eds EM Hlt Hfuel.
  { change (10 ^ Z.of_nat 0) with 1 in Hfuel. lia. }
  cbn [digit_gen_fraction df de].
  assert (0 < 10 ^ m) as Hpm by (apply Z.pow_pos_nonneg; lia).
  assert (0 < dl) as Hdl by nia. assert (0 ≤ ds ≤ dl) as Hds by nia.
  unfold assert. change (Z.quot (2 ^ 64 - 1) 10) with 1844674407370955161.
  assert ((p2 <=? 1844674407370955161) = true) as -> by lia.
  rewrite (u64_small (p2 * 10)), (u64_small (dl * 10)), (u64_small (ds * 10)) by lia.
  rewrite Z.opp_involutive, Z.shiftr_div_pow2, land_low by lia.
  pose proof (Z.div_mod (p2 * 10) one ltac:(lia)) as Ep.
  pose proof (Z.mod_pos_bound (p2 * 10) one ltac:(lia)) as Hr.
  set (d := p2 * 10 / one) in *. set (r := p2 * 10 mod one) in *.
  assert (0 ≤ d ≤ 9) as Hd by nia. assert ((d <=? 9) = true) as -> by lia.
  rewrite push_ok by (apply (few_digits buf (10 ^ m) one p2); [done|lia..]).
  cbn [mbind outcome_bind].
  assert (length buf ≤ 16)%nat as Hlen by (apply (few_digits buf (10 ^ m) one p2); [done|lia..]).
  assert (10 ^ (m + 1) = 10 * 10 ^ m) as Em by (rewrite Z.pow_add_r by lia; lia).
  assert (Mp * 10 ^ (m + 1) = (dv buf * 10 + d) * one + r) as EM'.
  { rewrite Em. transitivity (10 * (Mp * 10 ^ m)); [ring|]. rewrite EM. lia. }
  destruct (r <=? dl * 10) eqn:Ele; to_prop.
  - destruct (grisu2_round_spec buf d (ds * 10) (dl * 10) r one)
      as (i & -> & Hi & Hile); [lia..|].
    cbn [mbind outcome_bind]. exists (buf ++ [48 + (d - i)]), (m + 1).
    split; [done|]. split.
    { apply rounded_digits; [|lia..]. apply decimal_digits_snoc; [by left|lia]. }
    split; [rewrite length_app; simpl; lia|]. split; [lia|].
    rewrite Z.opp_involutive, (Z.max_r 0 (m + 1)), Z.max_l by lia. change (10 ^ 0) with 1.
    assert (dv (buf ++ [48 + (d - i)]) = dv buf * 10 + d - i) as -> by (rewrite dv_snoc; lia).
    assert (delta * 10 ^ (m + 1) = dl * 10) as Edl' by (rewrite Em, Edl; ring).
    rewrite Z.mul_sub_distr_r, Edl', EM'. nia.
  - rewrite Nat2Z.inj_succ, Z.pow_succ_r in Hfuel by lia.
    apply IH; try lia.
    + apply decimal_digits_snoc; [by left|lia].
    + rewrite EM', dv_snoc. do 2 f_equal. lia.
Qed.

(** The digits of the integral part and, when they are not enough, those of
    the fraction. *)
Lemma grisu2_digit_gen_spec dexp M_minus w :
  M_minus = Mp - delta → w = Mp - dist → 2 ^ 61 ≤ Mp →
  ∃ buf j, grisu2_digit_gen cap dexp (mk_diyfp M_minus (- q)) (mk_diyfp w (- q))
      (mk_diyfp Mp (- q)) = Ret (buf, dexp + j) ∧ in_interval buf j.
Proof.
  intros Em Ew Hbig. pose proof one_range as Hone. unfold grisu2_digit_gen, assert, kAlpha, kGamma.
  cbn [de df]. assert ((-60 <=? - q) = true) as -> by lia. assert ((- q <=? -32) = true) as -> by lia.
  unfold diyfp_sub, assert. cbn [de df]. rewrite !Z.eqb_refl.
  assert ((M_minus <=? Mp) = true) as -> by lia. assert ((w <=? Mp) = true) as -> by lia.
  cbn [mbind outcome_bind df]. rewrite (u64_small (Mp - M_minus)), (u64_small (Mp - w)) by lia.
  replace (Mp - M_minus) with delta by lia. replace (Mp - w) with dist by lia.
  rewrite Z.opp_involutive, Z.shiftl_1_l, (u64_small one) by lia.
  rewrite Z.shiftr_div_pow2, land_low by lia.
  pose proof (Z.div_mod Mp one ltac:(lia)) as Ep. pose proof (Z.mod_pos_bound Mp one ltac:(lia)) as Hr.
  set (p1 := Mp / one) in *. set (p2 := Mp mod one) in *.
  assert (0 < p1 < 2 ^ 32) as Hp1 by nia.
  assert (u32 p1 = p1) as -> by (apply Z.mod_small; lia).
  assert ((0 <? p1) = true) as -> by lia.
  assert (∃ n, find_largest_pow10 p1 = (Z.of_nat n, 10 ^ Z.of_nat (pred n)) ∧ (0 < n ≤ 10)%nat ∧
    10 ^ Z.of_nat (pred n) ≤ p1 < 10 ^ Z.of_nat n) as (n & -> & Hn & Hpn).
  { unfold find_largest_pow10. repeat case_if; to_prop;
      [exists 10%nat|exists 9%nat|exists 8%nat|exists 7%nat|exists 6%nat|exists 5%nat
      |exists 4%nat|exists 3%nat|exists 2%nat|exists 1%nat]; (split; [done|]); simpl; lia. }
  rewrite Nat2Z.id.
  destruct (digit_gen_integral_spec n [] dexp p1 p2) as [(buf & j & -> & Hi)|(buf & -> & Hb & EM & Hlt)];
    [lia|lia|lia|change (dv []) with 0; lia|left; split; [done|]; lia|..]; cbn [mbind outcome_bind].
  - eauto.
  - assert ((delta <? p2) = true) as -> by lia.
    destruct (digit_gen_fraction_spec 20 buf 0 p2 delta dist) as (buf' & m & -> & Hi);
      try done; try lia.
    cbn [mbind outcome_bind]. exists buf', (- m). split; [|done]. do 3 f_equal.
Qed.
End loops.
