(* ===== verification/Grisu.v ===== *)
(** Grisu2 is correct: for every positive finite double it produces digits of
    a number strictly between the double's rounding boundaries. *)

From S2P Require Import Prelude Double JsonValue JsonLexer JsonLexerFacts Utf8 JsonTokens.
From S2P Require Import JsonNumbers JsonToChars GrisuBounds GrisuDigits.

(** * Removing the scaling *)

Section unscale.
  Context (a x M pj pk pd pq pce pmew pew p20 q0 T : Z).
  Hypothesis (Hpos : 0 < pj ∧ 0 < pk ∧ 0 < pd ∧ 0 < pq ∧ 0 < pce ∧ 0 < pmew ∧ 0 < pew ∧
                     0 < p20 ∧ 0 < q0 ∧ 0 < T).
  Hypothesis (E1 : pq * (T * pce) = pmew * p20).
  Hypothesis (E2 : pmew * pew = p20 * p20).
  Hypothesis (E3 : pd * pk = pj * q0).

Lemma unscale_lt :
  a * pj * pq ≤ M * q0 * p20 → M * T * pce * q0 < x * pk * p20 →
  a * pd * p20 < x * pew * q0.
Proof.
  intros H1 H2. destruct Hpos as (?&?&?&?&?&?&?&?&?&?).
  assert (a * pj * (pmew * p20) < x * pk * p20 * p20) as S1.
  { rewrite <- E1. pose proof (Z.mul_le_mono_nonneg_r _ _ (T * pce) ltac:(lia) H1).
    pose proof (proj1 (Z.mul_lt_mono_pos_r p20 _ _ ltac:(lia)) H2). lia. }
  assert (a * pj * pmew < x * pk * p20) as S2 by (apply (Z.mul_lt_mono_pos_r p20); lia).
  assert (a * pj * p20 < x * pew * pk) as S3.
  { apply (Z.mul_lt_mono_pos_r p20); [lia|].
    pose proof (proj1 (Z.mul_lt_mono_pos_r pew _ _ ltac:(lia)) S2).
    assert (a * pj * pmew * pew = a * pj * p20 * p20) by (rewrite <- !Z.mul_assoc, E2; ring). lia. }
  apply (Z.mul_lt_mono_pos_r pk); [lia|].
  pose proof (proj1 (Z.mul_lt_mono_pos_r q0 _ _ ltac:(lia)) S3).
  assert (a * pd * p20 * pk = a * p20 * (pj * q0)) by (rewrite <- E3; ring). lia.
Qed.

Lemma unscale_gt :
  M * q0 * p20 ≤ a * pj * pq → x * pk * p20 < M * T * pce * q0 →
  x * pew * q0 < a * pd * p20.
Proof.
  intros H1 H2. destruct Hpos as (?&?&?&?&?&?&?&?&?&?).
  assert (x * pk * p20 * p20 < a * pj * (pmew * p20)) as S1.
  { rewrite <- E1. pose proof (Z.mul_le_mono_nonneg_r _ _ (T * pce) ltac:(lia) H1).
    pose proof (proj1 (Z.mul_lt_mono_pos_r p20 _ _ ltac:(lia)) H2). lia. }
  assert (x * pk * p20 < a * pj * pmew) as S2 by (apply (Z.mul_lt_mono_pos_r p20); lia).
  assert (x * pew * pk < a * pj * p20) as S3.
  { apply (Z.mul_lt_mono_pos_r p20); [lia|].
    pose proof (proj1 (Z.mul_lt_mono_pos_r pew _ _ ltac:(lia)) S2).
    assert (a * pj * pmew * pew = a * pj * p20 * p20) by (rewrite <- !Z.mul_assoc, E2; ring). lia. }
  apply (Z.mul_lt_mono_pos_r pk); [lia|].
  pose proof (proj1 (Z.mul_lt_mono_pos_r q0 _ _ ltac:(lia)) S3).
  assert (a * pd * p20 * pk = a * p20 * (pj * q0)) by (rewrite <- E3; ring). lia.
Qed.
End unscale.

(** The interval of the digits, over a common denominator. *)
Lemma p10_scale j :
  -700 ≤ j → ∃ c, 0 < c ∧ p10 j = c * 10 ^ Z.max 0 j ∧ p10 0 = c * 10 ^ Z.max 0 (- j).
Proof.
  intros Hj. exists (10 ^ (700 + Z.min 0 j)). unfold p10.
  split; [apply Z.pow_pos_nonneg; lia|]. rewrite <- !Z.pow_add_r by lia. split; f_equal; lia.
Qed.

Lemma p2_q q : 0 ≤ q → p2 q = p2 0 * 2 ^ q.
Proof. intros. rewrite <- (p2_shift 0) by lia. done. Qed.

(** [a * 10 ^ d] lies strictly between the boundaries of [f * 2 ^ e]. *)
Definition rounds_to (a d f e : Z) : Prop :=
  (if closer f e
   then (4 * f - 1) * p2 e * p10 0 < 4 * a * p10 d * p2 0
   else (2 * f - 1) * p2 e * p10 0 < 2 * a * p10 d * p2 0) ∧
  2 * a * p10 d * p2 0 < (2 * f + 1) * p2 e * p10 0.

Section scaled.
  Context (f e : Z) (c : cached_power).
  Hypothesis (Hcan : canonical f e).
  Hypothesis (Hacc : accurate c = true).

Abbreviation s := (lead f).
Abbreviation q := (- (cp_e c + (e - s) + 64)).
Abbreviation X x := ((x * cp_f c + 2 ^ 63) / 2 ^ 64).

Hypothesis (Hq : 32 ≤ q ≤ 60).

Lemma scaled_exponents :
  11 ≤ s ≤ 63 ∧ -1137 ≤ e - s ≤ 960 ∧ -1060 ≤ cp_e c ≤ 1013 ∧ -300 ≤ cp_k c ≤ 324.
Proof.
  destruct Hcan as (Hf & He & _). pose proof (lead_range f Hf). unfold accurate in Hacc.
  to_prop. lia.
Qed.

(** A number between the scaled boundaries, each moved by one unit inwards,
    lies strictly between the exact ones. *)
Lemma scaled_between x M a j (upper : bool) :
  0 ≤ x < 2 ^ 64 → -40 ≤ j ≤ 40 →
  (if upper then M = X x - 1 ∧ a * 10 ^ Z.max 0 j * 2 ^ q ≤ M * 10 ^ Z.max 0 (- j)
   else M = X x + 1 ∧ M * 10 ^ Z.max 0 (- j) ≤ a * 10 ^ Z.max 0 j * 2 ^ q) →
  if upper then a * p10 (j - cp_k c) * p2 0 < x * p2 (e - s) * p10 0
  else x * p2 (e - s) * p10 0 < a * p10 (j - cp_k c) * p2 0.
Proof.
  intros Hx Hj HM. destruct scaled_exponents as (Hs & Hew & Hce & Hck).
  destruct (p10_scale j ltac:(lia)) as (u & Hu & Ej & E0).
  pose proof (p2_q q ltac:(lia)) as Eq. pose proof (p2_pos 0 ltac:(lia)) as Hp20.
  destruct (scaled_close x c Hx Hacc) as [Hlo Hhi]. cbv zeta in Hlo, Hhi.
  assert (p2 q * (2 ^ 64 * p2 (cp_e c)) = p2 (- (e - s)) * p2 0) as E1.
  { rewrite (Z.mul_comm (2 ^ 64)), <- p2_shift, p2_mul by lia. do 2 f_equal. lia. }
  assert (p2 (- (e - s)) * p2 (e - s) = p2 0 * p2 0) as E2.
  { rewrite p2_mul by lia. do 2 f_equal. lia. }
  assert (p10 (j - cp_k c) * p10 (cp_k c) = p10 j * p10 0) as E3.
  { rewrite p10_mul by lia. do 2 f_equal. lia. }
  assert (0 < u * p2 0) as Hup by nia.
  assert (0 < p10 j ∧ 0 < p10 (cp_k c) ∧ 0 < p10 (j - cp_k c) ∧ 0 < p2 q ∧ 0 < p2 (cp_e c) ∧
    0 < p2 (- (e - s)) ∧ 0 < p2 (e - s) ∧ 0 < p2 0 ∧ 0 < p10 0 ∧ 0 < 2 ^ 64) as Hpos.
  { split_and!; first [apply p2_pos; lia | apply p10_pos; lia | done]. }
  destruct upper; destruct HM as [EM HM];
    pose proof (Z.mul_le_mono_nonneg_r _ _ (u * p2 0) ltac:(lia) HM) as HM'.
  - apply (unscale_lt _ _ M _ _ _ _ _ _ _ _ _ _ Hpos E1 E2 E3).
    + rewrite Eq, Ej, E0. lia.
    + rewrite EM. exact Hlo.
  - apply (unscale_gt _ _ M _ _ _ _ _ _ _ _ _ _ Hpos E1 E2 E3).
    + rewrite Eq, Ej, E0. lia.
    + rewrite EM. exact Hhi.
Qed.

(** The scaled boundaries fulfil what the digit generation needs. *)
Lemma scaled_interval :
  let b := exact_boundaries f e in
  let Mp := X (df (b_plus b)) - 1 in
  let Mm := X (df (b_minus b)) + 1 in
  let W := X (df (b_w b)) in
  0 ≤ df (b_minus b) < 2 ^ 64 ∧ 0 ≤ df (b_w b) < 2 ^ 64 ∧ 0 ≤ df (b_plus b) < 2 ^ 64 ∧
  2 ^ 61 ≤ Mp < 2 ^ 64 ∧ Mm ≤ W ≤ Mp ∧ 0 < Mm < Mp ∧ Mp < (Mp - Mm) * 10 ^ 16.
Proof.
  destruct scaled_exponents as (Hs & _). destruct Hcan as (Hf & He & _).
  pose proof (lead_bounds f Hf) as Hb.
  assert (2 ^ 63 ≤ cp_f c < 2 ^ 64) as HC by (unfold accurate in Hacc; to_prop; lia).
  cbv zeta. unfold exact_boundaries. cbn [b_plus b_minus b_w df].
  assert (2 ^ s = 2 * 2 ^ (s - 1)) as E1.
  { change 2 with (2 ^ 1) at 2. rewrite <- Z.pow_add_r by lia. f_equal. lia. }
  assert (2 ^ (s - 1) = 2 * 2 ^ (s - 2)) as E2.
  { change 2 with (2 ^ 1) at 2. rewrite <- Z.pow_add_r by lia. f_equal. lia. }
  assert (2 ^ 9 ≤ 2 ^ (s - 2)) as Hh by (apply Z.pow_le_mono_r; lia).
  assert (2 ^ 64 = 2 ^ (64 - s) * 2 ^ s) as E64 by (rewrite <- Z.pow_add_r by lia; f_equal; lia).
  assert (f < 2 ^ (64 - s)) as Hf64 by nia.
  assert (closer f e = true → 2 ^ (s - 2) = 2 ^ 9 ∧ f * 2 ^ s = 2 ^ 63) as Hcl.
  { unfold closer. intros Hc. assert (f = 2 ^ 52) as Ef by lia. rewrite Ef. split; done. }
  assert (2 * 2 ^ s ≤ f * 2 ^ s + 2 ^ s) as Hf1 by nia.
  set (g := 2 ^ (s - 2)) in *. set (xw := f * 2 ^ s) in *.
  assert (xw + 4 * g ≤ 2 ^ 64) as Htop by (unfold xw; nia).
  replace ((2 * f + 1) * 2 ^ (s - 1)) with (xw + 2 * g) by (unfold xw; lia).
  assert ((if closer f e then (4 * f - 1) * g else (2 * f - 1) * 2 ^ (s - 1)) =
    (if closer f e then xw - g else xw - 2 * g)) as ->.
  { destruct (closer f e); unfold xw; lia. }
  set (C := cp_f c) in *. clearbody xw. 
  assert (4 * g ≤ xw + 4 * g) by lia.
  assert (2 ^ 9 * C ≤ g * C) as HgC by nia. assert (2 ^ 63 * C ≤ xw * C) as HxC by nia.
  assert ((xw + 4 * g) * C ≤ 2 ^ 64 * C) as HtC by nia.
  pose proof (Z.div_mod ((xw + 2 * g) * C + 2 ^ 63) (2 ^ 64) ltac:(lia)).
  pose proof (Z.mod_pos_bound ((xw + 2 * g) * C + 2 ^ 63) (2 ^ 64) ltac:(lia)).
  pose proof (Z.div_mod (xw * C + 2 ^ 63) (2 ^ 64) ltac:(lia)).
  pose proof (Z.mod_pos_bound (xw * C + 2 ^ 63) (2 ^ 64) ltac:(lia)).
  destruct (closer f e).
  - destruct (Hcl eq_refl) as [Eg Exw]. rewrite Eg, Exw in *.
    pose proof (Z.div_mod ((2 ^ 63 - 2 ^ 9) * C + 2 ^ 63) (2 ^ 64) ltac:(lia)).
    pose proof (Z.mod_pos_bound ((2 ^ 63 - 2 ^ 9) * C + 2 ^ 63) (2 ^ 64) ltac:(lia)). lia.
  - pose proof (Z.div_mod ((xw - 2 * g) * C + 2 ^ 63) (2 ^ 64) ltac:(lia)).
    pose proof (Z.mod_pos_bound ((xw - 2 * g) * C + 2 ^ 63) (2 ^ 64) ltac:(lia)). lia.
Qed.
End scaled.

Lemma grisu2_spec cap m e :
  (17 ≤ cap)%nat → canonical (Zpos m) e →
  ∃ buf d, grisu2 cap (S754_finite false m e) = Ret (buf, d) ∧ decimal_digits buf ∧
    (length buf ≤ 17)%nat ∧ -400 ≤ d ≤ 400 ∧ rounds_to (dv buf) d (Zpos m) e.
Proof.
  intros Hcap Hcan. set (f := Zpos m) in *. unfold grisu2.
  rewrite compute_boundaries_spec by done. cbn [mbind outcome_bind].
  fold f. pose proof Hcan as (Hf & He & Hn). pose proof (lead_range f Hf) as Hl.
  destruct (get_cached_power_spec (e - lead f) ltac:(lia)) as (c & Ec & Hacc & Hq).
  pose proof (scaled_interval f e c Hcan Hacc ltac:(lia)) as Hint. cbv zeta in Hint.
  pose proof (scaled_exponents f e c Hcan Hacc ltac:(lia)) as Hexp.
  unfold grisu2_boundaries, assert.
  set (b := exact_boundaries f e) in *.
  assert (de (b_plus b) = e - lead f) as Ep by done. assert (de (b_minus b) = e - lead f) as Em by done.
  assert (de (b_w b) = e - lead f) as Ew by done.
  rewrite Ep, Em, Ew, !Z.eqb_refl, Ec. cbn [mbind outcome_bind].
  assert (2 ^ 63 ≤ cp_f c < 2 ^ 64) as HC by (unfold accurate in Hacc; to_prop; lia).
  destruct Hint as (Hxm & Hxw & Hxp & HMp & HW & HMm & Hwide).
  rewrite !diyfp_mul_spec by (cbn [df]; lia). cbn [df].
  assert (∀ x, de x = e - lead f →
    de (diyfp_mul x (mk_diyfp (cp_f c) (cp_e c))) = - - (cp_e c + (e - lead f) + 64)) as Ede.
  { intros x Hx. unfold diyfp_mul. cbn [de]. lia. }
  rewrite !Ede by done.
  set (Xp := (df (b_plus b) * cp_f c + 2 ^ 63) / 2 ^ 64) in *.
  set (Xm := (df (b_minus b) * cp_f c + 2 ^ 63) / 2 ^ 64) in *.
  set (Xw := (df (b_w b) * cp_f c + 2 ^ 63) / 2 ^ 64) in *.
  rewrite (u64_small (Xp - 1)), (u64_small (Xm + 1)) by lia.
  assert (diyfp_mul (b_w b) (mk_diyfp (cp_f c) (cp_e c)) =
    mk_diyfp Xw (- - (cp_e c + (e - lead f) + 64))) as ->.
  { pose proof (diyfp_mul_spec (b_w b) (mk_diyfp (cp_f c) (cp_e c)) Hxw ltac:(cbn [df]; lia)) as E.
    cbn [df] in E. fold Xw in E. rewrite <- (Ede (b_w b) Ew), <- E. by destruct (diyfp_mul _ _). }
  destruct (grisu2_digit_gen_spec cap (Xp - 1) (Xp - 1 - (Xm + 1)) (Xp - 1 - Xw)
    (- (cp_e c + (e - lead f) + 64)) Hcap) with (dexp := - cp_k c) (M_minus := Xm + 1) (w := Xw)
    as (buf & j & -> & Hdig & Hlen & Hj & Hlo & Hhi); [lia..|].
  exists buf, (- cp_k c + j). split; [done|]. split; [done|]. split; [done|]. split; [lia|].
  replace (- cp_k c + j) with (j - cp_k c) by lia.
  pose proof (scaled_between f e c Hcan Hacc ltac:(lia) (df (b_plus b)) (Xp - 1) (dv buf) j true
    Hxp Hj (conj eq_refl Hhi)) as Hup. cbv iota in Hup.
  replace (Xp - 1 - (Xp - 1 - (Xm + 1))) with (Xm + 1) in Hlo by lia.
  pose proof (scaled_between f e c Hcan Hacc ltac:(lia) (df (b_minus b)) (Xm + 1) (dv buf) j false
    Hxm Hj (conj eq_refl Hlo)) as Hdn. cbv iota in Hdn.
  assert (∀ n, 0 ≤ n ≤ lead f → 2 ^ n * (2 ^ (lead f - n) * p2 (e - lead f)) = p2 e) as Ep2.
  { intros n Hn'. replace (p2 e) with (p2 (e - lead f + lead f)) by (f_equal; lia).
    rewrite p2_shift, Z.mul_assoc, <- Z.pow_add_r by lia. rewrite Z.mul_comm. do 2 f_equal. lia. }
  pose proof (Ep2 1 ltac:(lia)) as Ep1. pose proof (Ep2 2 ltac:(lia)) as Ep2'.
  change (2 ^ 1) with 2 in Ep1. change (2 ^ 2) with 4 in Ep2'.
  unfold b, exact_boundaries in Hup, Hdn. cbn [b_plus b_minus df] in Hup, Hdn.
  unfold rounds_to. split.
  - destruct (closer f e); [rewrite <- Ep2'|rewrite <- Ep1]; lia.
  - rewrite <- Ep1. lia.
Qed.
