(* ===== verification/FloatText.v ===== *)
(** The text of a double: [format_buffer] writes the digits of Grisu2 as a
    JSON number, and reading it back gives the same double. *)

From S2P Require Import Prelude Double JsonValue JsonLexer JsonLexerFacts Utf8 JsonTokens.
From S2P Require Import JsonNumbers JsonToChars GrisuBounds GrisuDigits Grisu.

(** * Numbers between the boundaries are read as the double *)

Lemma nearest_double_rounds neg a d f e :
  0 < a → -700 ≤ d → canonical f e → rounds_to a d f e →
  nearest_double neg a d = S754_finite neg (Z.to_pos f) e.
Proof.
  intros Ha Hd Hcan [Hlo Hhi]. destruct a as [|a|a]; try lia. unfold nearest_double.
  assert ((if 0 <=? d then round_ratio neg (Z.pos a * 10 ^ d) 1
           else round_ratio neg (Z.pos a) (10 ^ (- d))) =
    round_ratio neg (Z.pos a * 10 ^ Z.max 0 d) (10 ^ Z.max 0 (- d))) as ->.
  { destruct (Z.leb_spec 0 d); [rewrite Z.max_r, Z.max_l by lia|rewrite Z.max_l, Z.max_r by lia];
      change (10 ^ 0) with 1; rewrite ?Z.mul_1_r; done. }
  destruct (p10_scale d Hd) as (c & Hc & Ed & E0). rewrite Ed, E0 in *.
  assert (0 < 10 ^ Z.max 0 d) by (apply Z.pow_pos_nonneg; lia).
  assert (0 < 10 ^ Z.max 0 (- d)) by (apply Z.pow_pos_nonneg; lia).
  pose proof Hcan as (_ & He & _).
  apply round_ratio_between; [nia|done|done|]. unfold p2 in *. split.
  - destruct (closer f e); (apply (scaled_lt 1300 e); [lia..|]);
      (apply (Z.mul_lt_mono_pos_r c); [done|]); rewrite Z.add_0_r in *; lia.
  - apply (scaled_gt 1300 e); [lia..|].
    apply (Z.mul_lt_mono_pos_r c); [done|]. rewrite Z.add_0_r in *; lia.
Qed.

Lemma rounds_to_same a d a' d' f e :
  a' * p10 d' = a * p10 d → rounds_to a d f e → rounds_to a' d' f e.
Proof.
  intros E. unfold rounds_to.
  rewrite <- (Z.mul_assoc 2 a'), <- (Z.mul_assoc 4 a'), E, !Z.mul_assoc. done.
Qed.

(** * The syntax of the text *)

Lemma run_num_any1 nt d t :
  all_digits d = true → run_num scan_number_any1 nt (d ++ t) = run_num scan_number_any1 nt t.
Proof.
  revert nt. induction d as [|c d IH]; intros nt Hd; simpl in *; [done|]. to_prop.
  rewrite H. by apply IH.
Qed.

Lemma run_num_decimal2 d t :
  all_digits d = true →
  run_num scan_number_decimal2 token_type.value_float (d ++ t) =
  run_num scan_number_decimal2 token_type.value_float t.
Proof.
  induction d as [|c d IH]; intros Hd; simpl in *; [done|]. to_prop. rewrite H. by apply IH.
Qed.

Lemma run_num_any2 d :
  all_digits d = true →
  run_num scan_number_any2 token_type.value_float d = Some token_type.value_float.
Proof. induction d as [|c d IH]; intros Hd; simpl in *; [done|]. to_prop. rewrite H. by apply IH. Qed.

Lemma run_num_exponent nt es d :
  (es = [] ∨ es = [43] ∨ es = [45]) → d ≠ [] → all_digits d = true →
  run_num scan_number_exponent nt (es ++ d) = Some token_type.value_float.
Proof.
  intros Hes Hd Hdd. destruct d as [|c d]; [done|]. simpl in Hdd. to_prop.
  assert ((c =? 43) || (c =? 45) = false) as Hc by (unfold is_digit, in_range in H; lia).
  destruct Hes as [->|[-> | ->]]; simpl; rewrite ?Hc, H; by apply run_num_any2.
Qed.

(** The integral part of a number: a zero, or digits without a leading one. *)
Definition int_digits (i : cstring) : Prop := i = [48] ∨ decimal_digits i.

Lemma int_digits_all i : int_digits i → all_digits i = true ∧ i ≠ [].
Proof. intros [->|Hi]; [done|]. split; [by apply decimal_digits_all|by destruct i]. Qed.

(** The text continues with a fraction or an exponent. *)
Definition float_tail (f ex : cstring) (has_frac : bool) : Prop :=
  all_digits f = true ∧ exp_text ex ∧ (has_frac = true → f ≠ []) ∧
  (has_frac = false → f = [] ∧ ex ≠ []).

Lemma run_num_tail s f ex has_frac :
  s = scan_number_zero ∨ s = scan_number_any1 → float_tail f ex has_frac → ∀ nt,
  run_num s nt ((if has_frac then 46 :: f else []) ++ ex) = Some token_type.value_float.
Proof.
  intros Hs (Hf & Hex & Hfrac & Hnof) nt.
  assert (∀ s nt, s = scan_number_zero ∨ s = scan_number_any1 ∨ s = scan_number_decimal2 → ex ≠ [] →
    run_num s nt ex = Some token_type.value_float) as Hexp.
  { intros s' nt' Hs' Hne. destruct Hex as [->|(e & es & d & -> & He & Hes & Hd & Hdd)]; [done|].
    assert (num_next s' e = Some scan_number_exponent) as Hn
      by (destruct He as [-> | ->], Hs' as [->|[->| ->]]; done).
    cbn [run_num]. rewrite Hn. by apply run_num_exponent. }
  destruct has_frac; [|destruct (Hnof eq_refl) as [-> Hne]; apply Hexp; naive_solver].
  destruct f as [|c f]; [by specialize (Hfrac eq_refl)|]. simpl in Hf. to_prop.
  assert (run_num s nt ((46 :: c :: f) ++ ex) =
    run_num scan_number_decimal2 token_type.value_float (f ++ ex)) as ->.
  { simpl. by destruct Hs as [-> | ->]; simpl; rewrite H. }
  rewrite run_num_decimal2 by done. destruct (decide (ex = [])) as [->|Hne]; [done|].
  apply Hexp; auto.
Qed.

Lemma number_text_float neg i f ex has_frac :
  int_digits i → float_tail f ex has_frac →
  number_text (sign_text neg ++ i ++ (if has_frac then 46 :: f else []) ++ ex) =
    Some token_type.value_float.
Proof.
  intros Hi Ht. set (t := (if has_frac then 46 :: f else []) ++ ex).
  assert (∃ c r s, i = c :: r ∧ (s = scan_number_zero ∨ s = scan_number_any1) ∧
    num_start c = Some s ∧ (c =? 45) = false ∧ num_next scan_number_minus c = Some s ∧
    ∀ nt, run_num s nt (r ++ t) = Some token_type.value_float)
    as (c & r & s & -> & Hs & Hst & Hc & Hm & Hrun).
  { destruct Hi as [->|Hi].
    - exists 48, [], scan_number_zero. split_and!; try done; [auto|].
      intros nt. apply run_num_tail; auto.
    - destruct i as [|c r]; [done|]. destruct Hi as [Hc Hr].
      exists c, r, scan_number_any1. unfold num_start, num_next, in_range.
      assert ((c =? 45) = false) as -> by lia. assert ((c =? 48) = false) as -> by lia.
      assert ((49 <=? c) && (c <=? 57) = true) as -> by lia. split_and!; try done; [auto|].
      intros nt. rewrite run_num_any1 by done. apply run_num_tail; auto. }
  destruct neg; cbn [sign_text app number_text].
  - change (num_start 45) with (Some scan_number_minus). cbn [run_num]. rewrite Hm. apply Hrun.
  - rewrite Hst. apply Hrun.
Qed.

(** * [append_exponent] and [format_buffer] *)

Lemma digit_char k : 0 ≤ k ≤ 9 → is_digit (48 + k) = true.
Proof. unfold is_digit, in_range. lia. Qed.

Lemma append_exponent_spec e :
  -1000 < e < 1000 →
  ∃ t, append_exponent e = Ret t ∧ exp_text (101 :: t) ∧ exp_value (101 :: t) = e ∧
    (length t ≤ 4)%nat.
Proof.
  intros He. unfold append_exponent, assert.
  assert ((-1000 <? e) = true) as -> by lia. assert ((e <? 1000) = true) as -> by lia.
  eexists. split; [done|].
  set (k := Z.abs e). set (ds := if k <? 10 then _ else _).
  assert (all_digits ds = true ∧ ds ≠ [] ∧ digits_value 0 ds = k ∧ (length ds ≤ 3)%nat)
    as (Hd & Hne & Hv & Hl).
  { unfold ds. assert (0 ≤ k < 1000) by lia.
    pose proof (Z.div_mod k 10 ltac:(lia)). pose proof (Z.mod_pos_bound k 10 ltac:(lia)).
    pose proof (Z.div_mod k 100 ltac:(lia)). pose proof (Z.mod_pos_bound k 100 ltac:(lia)).
    pose proof (Z.div_mod (k mod 100) 10 ltac:(lia)).
    pose proof (Z.mod_pos_bound (k mod 100) 10 ltac:(lia)).
    repeat case_if; to_prop; unfold all_digits; cbn [forallb digits_value length];
      rewrite ?digit_char by lia; (split; [done|]); (split; [done|]); lia. }
  assert (exp_text (101 :: (if e <? 0 then 45 else 43) :: ds)) as Hex.
  { right. exists 101, [if e <? 0 then 45 else 43], ds. split_and!; auto.
    destruct (e <? 0); auto. }
  split; [done|]. split; [|simpl; lia].
  unfold exp_value. destruct (Z.ltb_spec e 0); simpl span_sign; cbv iota beta; rewrite Hv; lia.
Qed.

Lemma zeros_digits n : all_digits (zeros n) = true.
Proof. unfold zeros, all_digits. induction (Z.to_nat n); [done|]. simpl. by rewrite IHn0. Qed.

Lemma dv_zeros n : dv (zeros n) = 0.
Proof. unfold zeros. induction (Z.to_nat n) as [|k IH]; [done|]. simpl repeat. exact IH. Qed.

Lemma zeros_length n : 0 ≤ n → Z.of_nat (length (zeros n)) = n.
Proof. intros. unfold zeros. rewrite repeat_length. lia. Qed.

Lemma dv_app a b : dv (a ++ b) = dv a * 10 ^ Z.of_nat (length b) + dv b.
Proof. by rewrite digits_value_app, digits_value_acc. Qed.

Lemma within_ok cap t : (length t ≤ cap)%nat → within cap t = Ret t.
Proof. intros H. unfold within. by apply Nat.leb_le in H as ->. Qed.

Lemma decimal_digits_app a b :
  decimal_digits a → all_digits b = true → decimal_digits (a ++ b).
Proof.
  destruct a as [|c a]; [done|]. intros [Hc Ha] Hb. split; [done|].
  unfold all_digits in *. by rewrite forallb_app, Ha, Hb.
Qed.

Lemma decimal_digits_take n buf :
  decimal_digits buf → (0 < n)%nat →
  decimal_digits (take n buf) ∧ all_digits (drop n buf) = true.
Proof.
  intros Hb Hn. destruct buf as [|c b]; [done|]. destruct n as [|n]; [lia|]. simpl.
  destruct Hb as [Hc Hb]. rewrite <- (take_drop n b) in Hb. unfold all_digits in *.
  rewrite forallb_app in Hb. to_prop. split; [by split|done].
Qed.

(** The text is a float whose digits and exponent denote [buf * 10 ^ d]. *)
Lemma format_buffer_spec cap buf d :
  (24 ≤ cap)%nat → decimal_digits buf → (length buf ≤ 17)%nat → -400 ≤ d ≤ 400 →
  ∃ (i f ex : cstring) (has_frac : bool), format_buffer cap buf d (-4) digits10 =
      Ret (i ++ (if has_frac then 46 :: f else []) ++ ex) ∧
    int_digits i ∧ float_tail f ex has_frac ∧
    let d' := exp_value ex - Z.of_nat (length f) in
    dv (i ++ f) * p10 d' = dv buf * p10 d ∧ 0 < dv (i ++ f) ∧ -700 ≤ d'.
Proof.
  intros Hcap Hb Hlen Hd. pose proof (decimal_digits_all buf Hb) as Hall.
  pose proof (decimal_digits_lower buf Hb) as Hlow.
  assert (0 < dv buf) as Hpos.
  { pose proof (Z.pow_nonneg 10 (Z.of_nat (length buf) - 1) ltac:(lia)).
    destruct buf as [|c b]; [done|]. simpl length in Hlow.
    pose proof (Z.pow_pos_nonneg 10 (Z.of_nat (S (length b)) - 1) ltac:(lia) ltac:(lia)). lia. }
  assert (0 < length buf)%nat as Hl0 by (destruct buf; [done|simpl; lia]).
  unfold format_buffer, assert, digits10. cbn [Z.ltb].
  change (-4 <? 0) with true. change (0 <? 15) with true. cbv iota.
  set (k := Z.of_nat (length buf)) in *. set (n := k + d).
  destruct ((k <=? n) && (n <=? 15)) eqn:E1; [|destruct ((0 <? n) && (n <=? 15)) eqn:E2;
    [|destruct ((-4 <? n) && (n <=? 0)) eqn:E3]]; to_prop.
  - exists (buf ++ zeros d), [48], [], true. replace (n - k) with d by lia.
    rewrite within_ok, <- !app_assoc; [|rewrite !length_app; pose proof (zeros_length d); simpl; lia].
    split; [done|]. split; [right; apply decimal_digits_app; auto using zeros_digits|].
    split; [by split_and!; [|left|..]|].
    rewrite (app_assoc buf), !dv_app, dv_zeros, zeros_length by lia. cbn [exp_value length].
    change (dv [48]) with 0. change (10 ^ Z.of_nat 1) with 10.
    pose proof (Z.pow_pos_nonneg 10 d ltac:(lia) ltac:(lia)).
    assert (p10 d = 10 ^ d * 10 * p10 (-1)) as ->.
    { unfold p10. change 10 with (10 ^ 1) at 3. rewrite <- !Z.pow_add_r by lia. f_equal. lia. }
    cbv zeta. change (0 - Z.of_nat 1) with (-1). split; [ring|]. lia.
  - assert ((n <? k) = true) as -> by lia.
    destruct (decimal_digits_take (Z.to_nat n) buf Hb ltac:(lia)) as [Ht Hdr].
    exists (take (Z.to_nat n) buf), (drop (Z.to_nat n) buf), [], true.
    rewrite within_ok, app_nil_r by (rewrite length_app; simpl; rewrite length_take, length_drop; lia).
    split; [done|]. split; [by right|].
    assert (drop (Z.to_nat n) buf ≠ []) as Hne.
    { intros E%(f_equal length). rewrite length_drop in E. simpl in E. lia. }
    split; [by split_and!; [|left|..]|]. rewrite take_drop, length_drop. simpl exp_value.
    cbv zeta. replace (0 - Z.of_nat (length buf - Z.to_nat n)) with d by lia. split_and!; [done|lia..].
  - exists [48], (zeros (- n) ++ buf), [], true.
    rewrite within_ok, app_nil_r;
      [|rewrite !length_app; pose proof (zeros_length (- n)); simpl; lia].
    split; [done|]. split; [by left|].
    assert (all_digits (zeros (- n) ++ buf) = true) as Hza.
    { unfold all_digits. rewrite forallb_app. fold (all_digits (zeros (- n))) (all_digits buf).
      by rewrite zeros_digits, Hall. }
    assert (zeros (- n) ++ buf ≠ []) as Hne.
    { intros E%(f_equal length). rewrite length_app in E. simpl in E. lia. }
    split; [by split_and!; [|left|..]|].
    assert (dv ([48] ++ zeros (- n) ++ buf) = dv buf) as ->.
    { rewrite dv_app, (dv_app (zeros _)), dv_zeros. change (dv [48]) with 0. lia. }
    rewrite length_app. simpl exp_value. cbv zeta.
    rewrite Nat2Z.inj_add, zeros_length by lia.
    replace (0 - (- n + Z.of_nat (length buf))) with d by lia. split_and!; [done|lia..].
  - destruct (append_exponent_spec (n - 1) ltac:(lia)) as (ex & -> & Hex & Hev & Hel).
    cbn [mbind outcome_bind].
    destruct (k =? 1) eqn:Ek; to_prop.
    + exists buf, [], (101 :: ex), false.
      rewrite within_ok by (rewrite length_app; simpl; lia).
      split; [done|]. split; [by right|]. split; [by split_and!|].
      cbv zeta. rewrite app_nil_r, Hev. simpl length.
      replace (n - 1 - Z.of_nat 0) with d by lia. split_and!; [done|lia..].
    + destruct (decimal_digits_take 1 buf Hb ltac:(lia)) as [Ht Hdr].
      exists (take 1 buf), (drop 1 buf), (101 :: ex), true.
      rewrite within_ok, <- app_assoc; 
        [|repeat (rewrite !length_app || cbn [length app]); rewrite length_take, length_drop; lia].
      split; [done|]. split; [by right|].
      assert (drop 1 buf ≠ []) as Hne.
      { intros E%(f_equal length). rewrite length_drop in E. simpl in E. lia. }
      split; [by split_and!|]. cbv zeta. rewrite take_drop, Hev, length_drop.
      replace (n - 1 - Z.of_nat (length buf - 1)) with d by lia. split_and!; [done|lia..].
Qed.

Lemma within_length cap t t' : within cap t = Ret t' → (length t' ≤ cap)%nat.
Proof. unfold within. case_if; [|done]. intros [= <-]. by apply Nat.leb_le. Qed.

Lemma format_buffer_length cap buf d lo hi t :
  format_buffer cap buf d lo hi = Ret t → (length t ≤ cap)%nat.
Proof.
  unfold format_buffer, assert. do 2 (case_if; [|done]).
  case_if; [apply within_length|]. case_if; [case_if; [apply within_length|done]|].
  case_if; [apply within_length|]. destruct (append_exponent _); try done. apply within_length.
Qed.

(** * Printing and reading back *)

(** The finite doubles; significand and exponent are those of the format. *)
Definition finite_double (x : spec_float) : Prop :=
  match x with
  | S754_zero _ => True
  | S754_finite _ m e => canonical (Zpos m) e
  | _ => False
  end.

Lemma to_chars_number x :
  finite_double x → ∃ t, to_chars 64 x = Ret t ∧ (length t ≤ 64)%nat ∧
    number_json t = Some (J_number_float x).
Proof.
  destruct x as [neg| | |neg m e]; try done; intros Hx.
  { destruct neg; eexists; (split; [done|]); split; [simpl; lia|done|simpl; lia|done]. }
  simpl in Hx. unfold to_chars, assert. cbn [isfinite signbit]. cbv zeta.
  set (cap := (64 - length (if neg then [45%Z] else []))%nat).
  assert (63 ≤ cap)%nat as Hcap by (unfold cap; destruct neg; simpl; lia).
  assert ((if neg then SFopp (S754_finite neg m e) else S754_finite neg m e) =
    S754_finite false m e) as -> by (by destruct neg). cbv iota beta.
  assert ((max_digits10 <=? cap)%nat = true) as -> by (apply Nat.leb_le; unfold max_digits10; lia).
  destruct (grisu2_spec cap m e ltac:(lia) Hx) as (buf & d & -> & Hdig & Hlen & Hd & Hr).
  cbn [mbind outcome_bind]. unfold max_digits10.
  assert ((length buf <=? 17)%nat = true) as -> by (apply Nat.leb_le; lia).
  assert ((Z.to_nat (digits10 + 2) <=? cap)%nat = true) as -> by (apply Nat.leb_le; unfold digits10; lia).
  assert ((2 + 3 + 17 <=? cap)%nat = true) as -> by (apply Nat.leb_le; unfold digits10; lia).
  assert ((17 + 6 <=? cap)%nat = true) as -> by (apply Nat.leb_le; unfold digits10; lia).
  destruct (format_buffer_spec cap buf d ltac:(lia) Hdig Hlen Hd)
    as (i & f & ex & hf & Efmt & Hi & Ht & Hval & Hpos & Hd').
  pose proof (format_buffer_length _ _ _ _ _ _ Efmt) as Hl.
  rewrite Efmt. cbn [mbind outcome_bind]. eexists. split; [done|].
  split; [rewrite length_app; unfold cap in *; destruct neg; simpl in *; lia|].
  change (if neg then [45] else []) with (sign_text neg).
  unfold number_json. rewrite number_text_float by done. unfold float_json.
  destruct (int_digits_all i Hi) as [Hia Hin]. destruct Ht as (Hf & Hex & _ & Hnf).
  rewrite c_strtod_parts by (try done; intros; by apply Hnf). cbn [fst].
  rewrite (nearest_double_rounds neg _ _ (Zpos m) e Hpos Hd' Hx).
  - done.
  - by apply (rounds_to_same (dv buf) d).
Qed.
