(* ===== verification/JsonSerializer.v ===== *)
(** Serialization in framework/json.hpp: [serializer] with its string
    escaping, the UTF-8 automaton, integer and float output, and
    [basic_json::dump].

    The output adapter appends to a string.  [string_buffer] is the characters
    written to it so far, [number_buffer] its 64 characters; what is behind
    the end of a buffer is undefined behaviour. *)

From S2P Require Import Prelude JsonValue JsonToChars.

Inductive error_handler_t : Type := strict | replace | ignore.

#[export] Instance error_handler_eq_dec : EqDecision error_handler_t.
Proof. solve_decision. Defined.

(** * The UTF-8 automaton *)

Definition UTF8_ACCEPT : Z := 0.
Definition UTF8_REJECT : Z := 1.

Definition utf8d : list Z :=
  [ 0; 0; 0; 0; 0; 0; 0; 0; 0; 0; 0; 0; 0; 0; 0; 0; 0; 0; 0; 0; 0; 0; 0; 0; 0; 0; 0; 0; 0; 0; 0; 0;
    0; 0; 0; 0; 0; 0; 0; 0; 0; 0; 0; 0; 0; 0; 0; 0; 0; 0; 0; 0; 0; 0; 0; 0; 0; 0; 0; 0; 0; 0; 0; 0;
    0; 0; 0; 0; 0; 0; 0; 0; 0; 0; 0; 0; 0; 0; 0; 0; 0; 0; 0; 0; 0; 0; 0; 0; 0; 0; 0; 0; 0; 0; 0; 0;
    0; 0; 0; 0; 0; 0; 0; 0; 0; 0; 0; 0; 0; 0; 0; 0; 0; 0; 0; 0; 0; 0; 0; 0; 0; 0; 0; 0; 0; 0; 0; 0;
    1; 1; 1; 1; 1; 1; 1; 1; 1; 1; 1; 1; 1; 1; 1; 1; 9; 9; 9; 9; 9; 9; 9; 9; 9; 9; 9; 9; 9; 9; 9; 9;
    7; 7; 7; 7; 7; 7; 7; 7; 7; 7; 7; 7; 7; 7; 7; 7; 7; 7; 7; 7; 7; 7; 7; 7; 7; 7; 7; 7; 7; 7; 7; 7;
    8; 8; 2; 2; 2; 2; 2; 2; 2; 2; 2; 2; 2; 2; 2; 2; 2; 2; 2; 2; 2; 2; 2; 2; 2; 2; 2; 2; 2; 2; 2; 2;
    10; 3; 3; 3; 3; 3; 3; 3; 3; 3; 3; 3; 3; 4; 3; 3;
    11; 6; 6; 6; 5; 8; 8; 8; 8; 8; 8; 8; 8; 8; 8; 8;
    0; 1; 2; 3; 5; 8; 7; 1; 1; 1; 4; 6; 1; 1; 1; 1;
    1; 1; 1; 1; 1; 1; 1; 1; 1; 1; 1; 1; 1; 1; 1; 1; 1; 0; 1; 1; 1; 1; 1; 0; 1; 0; 1; 1; 1; 1; 1; 1;
    1; 2; 1; 1; 1; 1; 1; 2; 1; 2; 1; 1; 1; 1; 1; 1; 1; 1; 1; 1; 1; 1; 1; 2; 1; 1; 1; 1; 1; 1; 1; 1;
    1; 2; 1; 1; 1; 1; 1; 1; 1; 2; 1; 1; 1; 1; 1; 1; 1; 1; 1; 1; 1; 1; 1; 3; 1; 3; 1; 1; 1; 1; 1; 1;
    1; 3; 1; 1; 1; 1; 1; 3; 1; 3; 1; 1; 1; 1; 1; 1; 1; 3; 1; 1; 1; 1; 1; 1; 1; 1; 1; 1; 1; 1; 1; 1 ].

(** The new state and code point. *)
Definition decode (state codep byte : Z) : res (Z * Z) :=
  match utf8d !! Z.to_nat byte with
  | Some type =>
      let codep :=
        if negb (state =? UTF8_ACCEPT)
        then Z.lor (Z.land byte 0x3f) (u32 (Z.shiftl codep 6))
        else Z.land (Z.shiftr 0xFF type) byte in
      match utf8d !! Z.to_nat (256 + state * 16 + type) with
      | Some state => Ret (state, codep)
      | None => Abort
      end
  | None => Abort
  end.

(** * Strings *)

Definition nibble_upper (d : Z) : Z := if d <? 10 then 48 + d else 55 + d.
Definition nibble_lower (d : Z) : Z := if d <? 10 then 48 + d else 87 + d.

Definition hex_bytes (byte : Z) : cstring := [nibble_upper (byte / 16); nibble_upper (byte mod 16)].

(** [snprintf] of a 16-bit number as a backslash, u and four hexadecimal digits. *)
Definition u_escape (z : Z) : cstring :=
  let z := wrap_u 16 z in
  [92; 117; nibble_lower (z / 4096); nibble_lower (z / 256 mod 16);
   nibble_lower (z / 16 mod 16); nibble_lower (z mod 16)].

(** [string_buffer.size()]. *)
Definition buffer_size : nat := 512.

(** Writes [text] behind the buffer's [bytes]; the write touches [room]
    characters, one more than [text] has when [snprintf] ends it with a zero. *)
Definition emit (room : nat) (text buf : cstring) : res cstring :=
  if (length buf + room <=? buffer_size)%nat then Ret (buf ++ text) else Undef.

(** The inner switch on an accepted code point. *)
Definition escape_codepoint (ensure_ascii : bool) (codepoint byte : Z) (buf : cstring) :
    res cstring :=
  if codepoint =? 0x08 then emit 2 [92; 98] buf
  else if codepoint =? 0x09 then emit 2 [92; 116] buf
  else if codepoint =? 0x0A then emit 2 [92; 110] buf
  else if codepoint =? 0x0C then emit 2 [92; 102] buf
  else if codepoint =? 0x0D then emit 2 [92; 114] buf
  else if codepoint =? 0x22 then emit 2 [92; 34] buf
  else if codepoint =? 0x5C then emit 2 [92; 92] buf
  else if (codepoint <=? 0x1F) || (ensure_ascii && (0x7F <=? codepoint)) then
    if codepoint <=? 0xFFFF then emit 7 (u_escape codepoint) buf
    else emit 13 (u_escape (0xD7C0 + Z.shiftr codepoint 10) ++
                  u_escape (0xDC00 + Z.land codepoint 0x3FF)) buf
  else emit 1 [byte] buf.

(** The local variables of [dump_escaped] and the output. *)
Record esc_state : Type := mk_esc {
  es_codepoint : Z;
  es_state : Z;
  es_buffer : cstring;
  es_last_accept : nat;
  es_undumped : nat;
  es_out : cstring
}.

(** The buffer is written out when fewer than 13 characters are left in it. *)
Definition flush (buf out : cstring) : cstring * cstring :=
  if (buffer_size - length buf <? 13)%nat then ([], out ++ buf) else (buf, out).

Definition replacement (ensure_ascii : bool) : cstring :=
  if ensure_ascii then str "\ufffd" else [0xEF; 0xBF; 0xBD].

(** [case UTF8_REJECT] for the handlers that go on; the flag says whether the
    byte is read again. *)
Definition reject_byte (error_handler : error_handler_t) (ensure_ascii : bool) (st : esc_state) :
    res (bool * esc_state) :=
  let again := (0 <? es_undumped st)%nat in
  let buf := take (es_last_accept st) (es_buffer st) in
  if bool_decide (error_handler = replace) then
    buf ← emit (length (replacement ensure_ascii)) (replacement ensure_ascii) buf;
    let '(buf, out) := flush buf (es_out st) in
    Ret (again, mk_esc (es_codepoint st) UTF8_ACCEPT buf (length buf) 0 out)
  else Ret (again, mk_esc (es_codepoint st) UTF8_ACCEPT buf (es_last_accept st) 0 (es_out st)).

(** One iteration at the byte [byte] with index [i]: whether it is read again. *)
Definition dump_escaped_step (error_handler : error_handler_t) (ensure_ascii : bool)
    (i : nat) (byte : Z) (st : esc_state) : res (bool * esc_state) :=
  '(state, codepoint) ← decode (es_state st) (es_codepoint st) byte;
  let st := mk_esc codepoint state (es_buffer st) (es_last_accept st) (es_undumped st)
              (es_out st) in
  if state =? UTF8_ACCEPT then
    buf ← escape_codepoint ensure_ascii codepoint byte (es_buffer st);
    let '(buf, out) := flush buf (es_out st) in
    Ret (false, mk_esc codepoint state buf (length buf) 0 out)
  else if state =? UTF8_REJECT then
    if bool_decide (error_handler = strict) then
      Throw (create_type_error 316 (str "invalid UTF-8 byte at index " ++
               decimal (Z.of_nat i) ++ str ": 0x" ++ hex_bytes byte))
    else reject_byte error_handler ensure_ascii st
  else
    buf ← (if negb ensure_ascii then emit 1 [byte] (es_buffer st) else Ret (es_buffer st));
    Ret (false, mk_esc codepoint state buf (es_last_accept st) (S (es_undumped st)) (es_out st)).

(** The loop over the string.  A byte is read again at most once, after a byte
    that was not, so twice the length is enough fuel. *)
Fixpoint dump_escaped_loop (fuel : nat) (error_handler : error_handler_t) (ensure_ascii : bool)
    (i : nat) (s : cstring) (st : esc_state) : res esc_state :=
  match s with
  | [] => Ret st
  | byte :: s' =>
      match fuel with
      | O => Diverge
      | S fuel' =>
          '(again, st) ← dump_escaped_step error_handler ensure_ascii i byte st;
          if again : bool
          then dump_escaped_loop fuel' error_handler ensure_ascii i s st
          else dump_escaped_loop fuel' error_handler ensure_ascii (S i) s' st
      end
  end.

(** After the loop: the rest of the buffer, or an incomplete sequence. *)
Definition dump_escaped_end (error_handler : error_handler_t) (ensure_ascii : bool)
    (s : cstring) (st : esc_state) : res cstring :=
  if es_state st =? UTF8_ACCEPT then Ret (es_out st ++ es_buffer st)
  else
    match error_handler with
    | strict =>
        Throw (create_type_error 316 (str "incomplete UTF-8 string; last byte: 0x" ++
                 hex_bytes (List.last s 0)))
    | ignore => Ret (es_out st ++ take (es_last_accept st) (es_buffer st))
    | replace =>
        Ret (es_out st ++ take (es_last_accept st) (es_buffer st) ++ replacement ensure_ascii)
    end.

(** What [dump_escaped] appends to the output [out]. *)
Definition dump_escaped (error_handler : error_handler_t) (ensure_ascii : bool) (s out : cstring) :
    res cstring :=
  st ← dump_escaped_loop (2 * length s) error_handler ensure_ascii 0 s
         (mk_esc 0 UTF8_ACCEPT [] 0 0 out);
  dump_escaped_end error_handler ensure_ascii s st.

(** * Integers *)

(** At most five rounds for a 64-bit number. *)
Fixpoint count_digits_loop (fuel : nat) (x n_digits : Z) : res Z :=
  match fuel with
  | O => Diverge
  | S fuel' =>
      if x <? 10 then Ret n_digits
      else if x <? 100 then Ret (n_digits + 1)
      else if x <? 1000 then Ret (n_digits + 2)
      else if x <? 10000 then Ret (n_digits + 3)
      else count_digits_loop fuel' (x / 10000) (n_digits + 4)
  end.

Definition count_digits (x : Z) : res Z := count_digits_loop 5 x 1.

Definition digits_to_99 (i : Z) : Z * Z := (48 + i / 10, 48 + i mod 10).

(** [*(--buffer_ptr) = c]. *)
Definition push_back (c : Z) (st : nat * cstring) : res (nat * cstring) :=
  let '(p, nb) := st in
  match p with
  | O => Undef
  | S p' => if (p' <? length nb)%nat then Ret (p', <[p' := c]> nb) else Undef
  end.

(** [while (abs_value >= 100)]: ten rounds at most, as [abs_value] loses two
    of its twenty digits in each. *)
Fixpoint dump_integer_loop (fuel : nat) (abs_value : Z) (st : nat * cstring) :
    res (Z * (nat * cstring)) :=
  match fuel with
  | O => Diverge
  | S fuel' =>
      if 100 <=? abs_value then
        let '(d0, d1) := digits_to_99 (abs_value mod 100) in
        st ← push_back d1 st;
        st ← push_back d0 st;
        dump_integer_loop fuel' (abs_value / 100) st
      else Ret (abs_value, st)
  end.

Definition remove_sign (x : Z) : res Z :=
  assert ((x <? 0) && (x <? 2 ^ 63 - 1)) (Ret (u64 (u64 (- (x + 1)) + 1))).

(** The text written and the buffer afterwards; a [NumberType] without sign
    has no negative [x]. *)
Definition dump_integer (x : Z) (number_buffer : cstring) : res (cstring * cstring) :=
  if x =? 0 then Ret ([48], number_buffer)
  else
    '(number_buffer, abs_value, n_chars) ←
      (if x <? 0 then
         abs_value ← remove_sign x;
         n ← count_digits abs_value;
         Ret (<[0%nat := 45]> number_buffer, abs_value, 1 + n)
       else
         let abs_value := u64 x in
         n ← count_digits abs_value;
         Ret (number_buffer, abs_value, n));
    assert (n_chars <? Z.of_nat (length number_buffer) - 1)
    ('(abs_value, st) ← dump_integer_loop 10 abs_value (Z.to_nat n_chars, number_buffer);
     st ← (if 10 <=? abs_value then
             let '(d0, d1) := digits_to_99 abs_value in
             st ← push_back d1 st;
             push_back d0 st
           else push_back (48 + abs_value) st);
     Ret (take (Z.to_nat n_chars) (st : nat * cstring).2, st.2)).

(** * Values *)

Record serializer : Type := mk_serializer {
  o : cstring;
  number_buffer : cstring;
  indent_string : cstring
}.

Definition init_serializer (indent_char : Z) : serializer :=
  mk_serializer [] (repeat 0 64) (repeat indent_char 512).

Definition write (text : cstring) (s : serializer) : serializer :=
  mk_serializer (o s ++ text) (number_buffer s) (indent_string s).

(** [o->write_characters(indent_string.c_str(), n)]: the string and its final
    zero can be read. *)
Definition write_indent (n : Z) (s : serializer) : res serializer :=
  if n <=? Z.of_nat (length (indent_string s)) + 1
  then Ret (write (take (Z.to_nat n) (indent_string s ++ [0])) s)
  else Undef.

(** [if (indent_string.size() < new_indent) indent_string.resize(2 * size, ' ')]. *)
Definition grow_indent (new_indent : Z) (s : serializer) : serializer :=
  if Z.of_nat (length (indent_string s)) <? new_indent
  then mk_serializer (o s) (number_buffer s)
         (indent_string s ++ repeat 32 (length (indent_string s)))
  else s.

Definition write_integer (x : Z) (s : serializer) : res serializer :=
  '(text, nb) ← dump_integer x (number_buffer s);
  Ret (mk_serializer (o s ++ text) nb (indent_string s)).

(** [dump_float]: the text is made at the front of [number_buffer]. *)
Definition write_float (x : spec_float) (s : serializer) : res serializer :=
  if negb (isfinite x) then Ret (write (str "null") s)
  else
    text ← to_chars (length (number_buffer s)) x;
    Ret (mk_serializer (o s ++ text) (text ++ drop (length text) (number_buffer s))
           (indent_string s)).

Section dump.
  Context (error_handler : error_handler_t) (ensure_ascii : bool).

Definition write_escaped (t : cstring) (s : serializer) : res serializer :=
  out ← dump_escaped error_handler ensure_ascii t (o s);
  Ret (mk_serializer out (number_buffer s) (indent_string s)).

(** The bytes of a binary value, with [sep] between them. *)
Fixpoint write_bytes (sep bytes : cstring) (s : serializer) : res serializer :=
  match bytes with
  | [] => Ret s
  | b :: bytes' =>
      s ← write_integer b s;
      match bytes' with [] => Ret s | _ => write_bytes sep bytes' (write sep s) end
  end.

Definition write_subtype (subtype : option Z) (s : serializer) : res serializer :=
  match subtype with
  | Some t => write_integer t s
  | None => Ret (write (str "null") s)
  end.

Definition dump_binary (pretty_print : bool) (indent_step current_indent : Z)
    (b : cstring) (subtype : option Z) (s : serializer) : res serializer :=
  if pretty_print then
    let s := write [123; 10] s in
    let new_indent := u32 (current_indent + indent_step) in
    let s := grow_indent new_indent s in
    s ← write_indent new_indent s;
    let s := write ([34] ++ str "bytes" ++ [34; 58; 32; 91]) s in
    s ← write_bytes [44; 32] b s;
    let s := write [93; 44; 10] s in
    s ← write_indent new_indent s;
    let s := write ([34] ++ str "subtype" ++ [34; 58; 32]) s in
    s ← write_subtype subtype s;
    let s := write [10] s in
    s ← write_indent current_indent s;
    Ret (write [125] s)
  else
    let s := write ([123; 34] ++ str "bytes" ++ [34; 58; 91]) s in
    s ← write_bytes [44] b s;
    let s := write ([93; 44; 34] ++ str "subtype" ++ [34; 58]) s in
    s ← write_subtype subtype s;
    Ret (write [125] s).

(** The key between quotes, and the colon. *)
Definition write_key (pretty_print : bool) (k : cstring) (s : serializer) : res serializer :=
  s ← write_escaped k (write [34] s);
  Ret (write (if pretty_print then [34; 58; 32] else [34; 58]) s).

(** The loops over an object's members and an array's elements: the first
    [n - 1] and the last one, which no comma follows. *)
Section containers.
  Context (dump_value : json → serializer → res serializer).
  Context (pretty_print : bool) (new_indent : Z).

Definition separator : cstring := if pretty_print then [44; 10] else [44].

Fixpoint dump_members (m : list (cstring * json)) (s : serializer) : res serializer :=
  match m with
  | [] => Ret s
  | (k, v) :: m' =>
      s ← (if pretty_print then write_indent new_indent s else Ret s);
      s ← write_key pretty_print k s;
      s ← dump_value v s;
      match m' with
      | [] => Ret s
      | _ => dump_members m' (write separator s)
      end
  end.

Fixpoint dump_elements (l : list json) (s : serializer) : res serializer :=
  match l with
  | [] => Ret s
  | v :: l' =>
      s ← (if pretty_print then write_indent new_indent s else Ret s);
      s ← dump_value v s;
      match l' with
      | [] => Ret s
      | _ => dump_elements l' (write separator s)
      end
  end.

(** The opening bracket, and the closing one at the outer indentation. *)
Definition open_bracket (c : Z) (s : serializer) : serializer :=
  if pretty_print then grow_indent new_indent (write [c; 10] s) else write [c] s.

Definition close_bracket (c current_indent : Z) (s : serializer) : res serializer :=
  s ← (if pretty_print then write_indent current_indent (write [10] s) else Ret s);
  Ret (write [c] s).
End containers.

Fixpoint dump (pretty_print : bool) (indent_step : Z) (val : json) (current_indent : Z)
    (s : serializer) {struct val} : res serializer :=
  let new_indent := if pretty_print then u32 (current_indent + indent_step) else current_indent in
  match val with
  | J_object [] => Ret (write [123; 125] s)
  | J_object m =>
      s ← dump_members (λ v, dump pretty_print indent_step v new_indent) pretty_print new_indent m
            (open_bracket pretty_print new_indent 123 s);
      close_bracket pretty_print 125 current_indent s
  | J_array [] => Ret (write [91; 93] s)
  | J_array l =>
      s ← dump_elements (λ v, dump pretty_print indent_step v new_indent) pretty_print new_indent l
            (open_bracket pretty_print new_indent 91 s);
      close_bracket pretty_print 93 current_indent s
  | J_string t =>
      s ← write_escaped t (write [34] s);
      Ret (write [34] s)
  | J_binary b subtype => dump_binary pretty_print indent_step current_indent b subtype s
  | J_boolean b => Ret (write (str (if b then "true" else "false")) s)
  | J_number_integer z | J_number_unsigned z => write_integer z s
  | J_number_float f => write_float f s
  | J_discarded => Ret (write (str "<discarded>") s)
  | J_null => Ret (write (str "null") s)
  end.
End dump.

(** [basic_json::dump]. *)
Definition json_dump (indent indent_char : Z) (ensure_ascii : bool)
    (error_handler : error_handler_t) (j : json) : res cstring :=
  s ← (if 0 <=? indent
       then dump error_handler ensure_ascii true (u32 indent) j 0 (init_serializer indent_char)
       else dump error_handler ensure_ascii false 0 j 0 (init_serializer indent_char));
  Ret (o s).
