(* ===== verification/JsonIntegerText.v ===== *)
(** [dump_integer] writes the decimal notation of every 64-bit number: the
    digit count is right, the pointer stays inside [number_buffer], and the
    two-digits-at-a-time loop produces the same text as division by ten. *)

From S2P Require Import Prelude Double JsonValue JsonLexer JsonLexerFacts Utf8 JsonTokens.
From S2P Require Import JsonNumbers JsonToChars GrisuBounds GrisuDigits JsonSerializer.

(** * Decimal notation *)

Lemma dec_loop_app fuel n acc : dec_loop fuel n acc = dec_loop fuel n [] ++ acc.
Proof.
  revert n acc. induction fuel as [|fuel IH]; intros n acc; simpl; [done|].
  case_if; [done|]. rewrite IH, (IH _ [_]), <- app_assoc. done.
Qed.

Lemma dec_loop_fuel f f' n acc :
  0 ≤ n < 2 ^ Z.of_nat f → n < 2 ^ Z.of_nat f' → (0 < f)%nat → (0 < f')%nat →
  dec_loop f n acc = dec_loop f' n acc.
Proof.
  revert f' n acc. induction f as [|f IH]; intros f' n acc Hn Hn' Hf Hf'; [lia|].
  destruct f' as [|f']; [lia|]. cbn [dec_loop]. case_if; [done|]. to_prop.
  rewrite Nat2Z.inj_succ, Z.pow_succ_r in Hn, Hn' by lia.
  assert (0 < n / 10 ∧ n / 10 * 10 ≤ n) as Hd.
  { pose proof (Z.div_mod n 10 ltac:(lia)). pose proof (Z.mod_pos_bound n 10 ltac:(lia)). lia. }
  assert (f ≠ O) by (intros ->; simpl in Hn; lia).
  assert (f' ≠ O) by (intros ->; simpl in Hn'; lia). apply IH; lia.
Qed.

Lemma log2_fuel n : 0 ≤ n → n < 2 ^ Z.of_nat (S (Z.to_nat (Z.log2 n))).
Proof.
  intros Hn. pose proof (Z.log2_nonneg n).
  destruct (Z.eq_dec n 0) as [->|]; [done|].
  rewrite Nat2Z.inj_succ, Z2Nat.id by lia. apply Z.log2_spec. lia.
Qed.

Lemma decimal_small n : 0 ≤ n < 10 → decimal n = [48 + n].
Proof.
  intros Hn. unfold decimal. cbn [dec_loop]. rewrite Z.mod_small by lia.
  by assert ((n <? 10) = true) as -> by lia.
Qed.

Lemma decimal_snoc n : 10 ≤ n → decimal n = decimal (n / 10) ++ [48 + n mod 10].
Proof.
  intros Hn. unfold decimal at 1. cbn [dec_loop]. assert ((n <? 10) = false) as -> by lia.
  rewrite dec_loop_app. f_equal. unfold decimal.
  pose proof (Z.div_mod n 10 ltac:(lia)). pose proof (Z.mod_pos_bound n 10 ltac:(lia)).
  assert (3 ≤ Z.log2 n) as Hlog by (change 3 with (Z.log2 8); apply Z.log2_le_mono; lia).
  apply dec_loop_fuel; [split; [lia|]|apply log2_fuel; lia|lia|lia].
  rewrite Z2Nat.id by lia. pose proof (Z.log2_spec n ltac:(lia)) as [_ Hl].
  rewrite Z.pow_succ_r in Hl by lia. lia.
Qed.

Lemma decimal_snoc2 n :
  100 ≤ n → decimal n = decimal (n / 100) ++ [48 + n mod 100 / 10; 48 + n mod 100 mod 10].
Proof.
  intros Hn. pose proof (Z.div_mod n 10 ltac:(lia)). pose proof (Z.mod_pos_bound n 10 ltac:(lia)).
  rewrite decimal_snoc, (decimal_snoc (n / 10)) by lia.
  rewrite <- app_assoc. simpl.
  assert (n / 10 / 10 = n / 100) as -> by (rewrite Z.div_div by lia; done).
  assert (n / 10 mod 10 = n mod 100 / 10 ∧ n mod 10 = n mod 100 mod 10) as [-> ->]; [|done].
  Z.to_euclidean_division_equations. lia.
Qed.

Lemma decimal_two n : 10 ≤ n < 100 → decimal n = [48 + n / 10; 48 + n mod 10].
Proof.
  intros Hn. rewrite decimal_snoc by lia. rewrite decimal_small; [done|].
  split; [apply Z.div_pos; lia|apply Z.div_lt_upper_bound; lia].
Qed.

Lemma decimal_length_10 n : 10 ≤ n → length (decimal n) = S (length (decimal (n / 10))).
Proof. intros. rewrite decimal_snoc, length_app by done. simpl. lia. Qed.

Lemma count_digits_loop_spec fuel x k :
  0 ≤ x < 10000 ^ Z.of_nat fuel → (0 < fuel)%nat →
  count_digits_loop fuel x k = Ret (k - 1 + Z.of_nat (length (decimal x))).
Proof.
  revert x k. induction fuel as [|fuel IH]; intros x k Hx Hf; [lia|]. cbn [count_digits_loop].
  case_if; [|case_if; [|case_if; [|case_if]]]; to_prop.
  - rewrite decimal_small by lia. f_equal. simpl. lia.
  - rewrite decimal_length_10, decimal_small by (Z.to_euclidean_division_equations; lia). f_equal. simpl. lia.
  - rewrite decimal_length_10, decimal_length_10, decimal_small
      by (Z.to_euclidean_division_equations; lia). f_equal. simpl. lia.
  - rewrite decimal_length_10, decimal_length_10, decimal_length_10, decimal_small
      by (Z.to_euclidean_division_equations; lia). f_equal. simpl. lia.
  - rewrite Nat2Z.inj_succ, Z.pow_succ_r in Hx by lia.
    assert (0 < x / 10000 < 10000 ^ Z.of_nat fuel) as Hx'.
    { pose proof (Z.div_mod x 10000 ltac:(lia)). pose proof (Z.mod_pos_bound x 10000 ltac:(lia)). nia. }
    destruct fuel as [|fuel]; [simpl in Hx'; lia|].
    rewrite IH by lia. rewrite (decimal_length_10 x), (decimal_length_10 (x / 10)),
      (decimal_length_10 (x / 10 / 10)), (decimal_length_10 (x / 10 / 10 / 10))
      by (Z.to_euclidean_division_equations; lia).
    assert (x / 10 / 10 / 10 / 10 = x / 10000) as -> by (rewrite !Z.div_div by lia; done).
    f_equal. lia.
Qed.

Lemma count_digits_spec x :
  0 ≤ x < 2 ^ 64 → count_digits x = Ret (Z.of_nat (length (decimal x))).
Proof.
  intros Hx. unfold count_digits. rewrite count_digits_loop_spec; [f_equal; lia| |lia].
  change (10000 ^ Z.of_nat 5) with 100000000000000000000. lia.
Qed.

(** * Filling the buffer from the back *)

Lemma push_back_spec (a j : cstring) x t c :
  push_back c (length (a ++ j ++ [x]), a ++ (j ++ [x]) ++ t) =
    Ret (length (a ++ j), a ++ j ++ c :: t).
Proof.
  unfold push_back.
  replace (length (a ++ j ++ [x])) with (S (length (a ++ j))) by (rewrite !length_app; simpl; lia).
  assert ((length (a ++ j) <? length (a ++ (j ++ [x]) ++ t))%nat = true) as ->.
  { apply Nat.ltb_lt. rewrite !length_app. simpl. lia. }
  replace (a ++ (j ++ [x]) ++ t) with ((a ++ j) ++ x :: t) by (by rewrite <- !app_assoc).
  rewrite insert_app_r_alt, Nat.sub_diag by lia. by rewrite <- app_assoc.
Qed.

Lemma split_last2 (j : cstring) n :
  length j = S (S n) → ∃ j' x y, j = j' ++ [x; y] ∧ length j' = n.
Proof.
  intros Hj. exists (take n j).
  assert (∃ x y, drop n j = [x; y]) as (x & y & Hd).
  { assert (length (drop n j) = 2%nat) as Hl by (rewrite length_drop; lia).
    destruct (drop n j) as [|x [|y [|]]]; try done. eauto. }
  exists x, y. rewrite <- Hd, take_drop. split; [done|]. rewrite length_take. lia.
Qed.

(** Two digits at a time. *)
Lemma push_back2_spec (a j : cstring) x y t d0 d1 :
  (st ← push_back d1 (length (a ++ j ++ [x; y]), a ++ (j ++ [x; y]) ++ t); push_back d0 st) =
    Ret (length (a ++ j), a ++ j ++ d0 :: d1 :: t).
Proof.
  replace (j ++ [x; y]) with ((j ++ [x]) ++ [y]) by (by rewrite <- app_assoc).
  rewrite push_back_spec. cbn [mbind outcome_bind].
  apply push_back_spec.
Qed.

Lemma dump_integer_loop_spec fuel a v j t :
  0 ≤ v < 100 ^ Z.of_nat fuel → length j = length (decimal v) → (0 < fuel)%nat →
  ∃ v' j' t', dump_integer_loop fuel v (length (a ++ j), a ++ j ++ t) =
      Ret (v', (length (a ++ j'), a ++ j' ++ t')) ∧
    0 ≤ v' < 100 ∧ decimal v ++ t = decimal v' ++ t' ∧ length j' = length (decimal v').
Proof.
  revert v j t. induction fuel as [|fuel IH]; intros v j t Hv Hj Hf; [lia|].
  cbn [dump_integer_loop]. case_if; to_prop.
  - rewrite Nat2Z.inj_succ, Z.pow_succ_r in Hv by lia.
    assert (0 < v / 100 < 100 ^ Z.of_nat fuel) as Hv'.
    { pose proof (Z.div_mod v 100 ltac:(lia)). pose proof (Z.mod_pos_bound v 100 ltac:(lia)). nia. }
    assert (fuel ≠ O) as Hf' by (intros ->; simpl in Hv'; lia).
    rewrite decimal_snoc2, length_app in Hj by lia. simpl in Hj.
    destruct (split_last2 j (length (decimal (v / 100)))) as (j' & x & y & -> & Hj'); [lia|].
    unfold digits_to_99.
    pose proof (push_back2_spec a j' x y t (48 + v mod 100 / 10) (48 + v mod 100 mod 10)) as E.
    destruct (push_back _ _) as [st| | | |] eqn:Ep; try done. cbn [mbind outcome_bind] in *. rewrite E.
    cbn [mbind outcome_bind].
    destruct (IH (v / 100) j' (48 + v mod 100 / 10 :: 48 + v mod 100 mod 10 :: t))
      as (v' & j2 & t' & -> & Hv2 & Et & Hj2); [lia|done|lia|].
    exists v', j2, t'. split; [done|]. split; [done|]. split; [|done].
    rewrite <- Et, (decimal_snoc2 v), <- app_assoc by lia. done.
  - exists v, j, t. split; [done|]. split; [lia|]. done.
Qed.

(** The text of a number of either sign. *)
Definition int_text (x : Z) : cstring := if x <? 0 then 45 :: decimal (- x) else decimal x.

(** The digits of [v] behind the first [length a] characters. *)
Lemma dump_digits_spec a v nb :
  0 ≤ v < 2 ^ 64 → (length a + length (decimal v) ≤ length nb)%nat → take (length a) nb = a →
  ∃ nb', ('(v, st) ← dump_integer_loop 10 v ((length a + length (decimal v))%nat, nb);
          (if 10 <=? v then
             let '(d0, d1) := digits_to_99 v in st ← push_back d1 st; push_back d0 st
           else push_back (48 + v) st)) = Ret (length a, nb') ∧
    take (length a + length (decimal v)) nb' = a ++ decimal v ∧ length nb' = length nb.
Proof.
  intros Hv Hl Ha. set (n := length (decimal v)) in *.
  set (j := take n (drop (length a) nb)). set (t := drop (length a + n) nb).
  assert (nb = a ++ j ++ t) as Enb.
  { unfold j, t. rewrite <- Ha at 1. rewrite <- drop_drop, take_drop, take_drop. done. }
  assert (length j = n) as Hj by (unfold j; rewrite length_take, length_drop; lia).
  clearbody j t. assert (length nb = length (a ++ decimal v ++ t)) as Hlen.
  { rewrite Enb, !length_app. unfold n in *. lia. }
  rewrite Hlen, Enb. clear Hlen Enb Ha Hl.
  replace (length a + n)%nat with (length (a ++ j)) by (rewrite length_app; lia).
  destruct (dump_integer_loop_spec 10 a v j t) as (v' & j' & t' & -> & Hv' & Et & Hj');
    [split; [lia|]; change (100 ^ Z.of_nat 10) with 100000000000000000000; lia|done|lia|].
  cbn [mbind outcome_bind].
  assert (∀ nb', nb' = a ++ decimal v' ++ t' →
    take (length (a ++ j)) nb' = a ++ decimal v ∧ length nb' = length (a ++ decimal v ++ t)) as Hres.
  { intros nb' ->. rewrite <- Et. split; [|done].
    replace (length (a ++ j)) with (length (a ++ decimal v)) by (rewrite !length_app; unfold n in *; lia).
    by rewrite app_assoc, take_app_length. }
  case_if; to_prop.
  - rewrite (decimal_two v') in Hj', Hres by lia. simpl in Hj'.
    destruct (split_last2 j' 0 Hj') as (j2 & x & y & -> & Hj2). destruct j2; [|done].
    unfold digits_to_99.
    pose proof (push_back2_spec a [] x y t' (48 + v' / 10) (48 + v' mod 10)) as E.
    rewrite app_nil_r in E. eexists. split; [exact E|]. by apply Hres.
  - rewrite (decimal_small v') in Hj', Hres by lia. destruct j' as [|x [|]]; try done.
    pose proof (push_back_spec a [] x t' (48 + v')) as E. rewrite app_nil_r in E.
    eexists. split; [exact E|]. by apply Hres.
Qed.

Lemma decimal_length n : 0 ≤ n < 2 ^ 64 → (length (decimal n) ≤ 20)%nat.
Proof.
  intros Hn. destruct (Z.eq_dec n 0) as [->|Hne]; [vm_compute; lia|].
  destruct (decimal_spec n) as (c & d & -> & Hd & Hv & Hz); [lia|].
  assert (decimal_digits (c :: d)) as Hdig.
  { simpl in Hd. apply andb_true_iff in Hd as [Hc Hd]. unfold is_digit, in_range in Hc.
    split; [|done]. assert (c ≠ 48) by naive_solver. lia. }
  pose proof (decimal_digits_lower _ Hdig) as Hlow. rewrite Hv in Hlow.
  destruct (Nat.le_gt_cases (length (c :: d)) 20) as [|Hgt]; [done|exfalso].
  pose proof (Z.pow_le_mono_r 10 20 (Z.of_nat (length (c :: d)) - 1) ltac:(lia) ltac:(lia)). lia.
Qed.

Lemma remove_sign_spec x : - 2 ^ 63 ≤ x < 0 → remove_sign x = Ret (- x).
Proof.
  intros Hx. unfold remove_sign, assert.
  assert ((x <? 0) && (x <? 2 ^ 63 - 1) = true) as -> by lia.
  rewrite (u64_small (- (x + 1))), u64_small by lia. f_equal. lia.
Qed.

(** The common end of both signs. *)
Lemma dump_integer_tail a v nb :
  0 ≤ v < 2 ^ 64 → (length a ≤ 1)%nat → length nb = 64%nat → take (length a) nb = a →
  ∃ nb', assert (Z.of_nat (length a) + Z.of_nat (length (decimal v)) <? Z.of_nat (length nb) - 1)
    ('(abs_value, st) ←
        dump_integer_loop 10 v
          (Z.to_nat (Z.of_nat (length a) + Z.of_nat (length (decimal v))), nb);
     st ← (if 10 <=? abs_value then
             let '(d0, d1) := digits_to_99 abs_value in
             st ← push_back d1 st;
             push_back d0 st
           else push_back (48 + abs_value) st);
     Ret (take (Z.to_nat (Z.of_nat (length a) + Z.of_nat (length (decimal v))))
            (st : nat * cstring).2, st.2)) = Ret (a ++ decimal v, nb') ∧ length nb' = 64%nat.
Proof.
  intros Hv Ha Hnb Hta. pose proof (decimal_length v Hv) as Hl. unfold assert.
  assert ((Z.of_nat (length a) + Z.of_nat (length (decimal v)) <? Z.of_nat (length nb) - 1) = true)
    as -> by lia.
  rewrite <- Nat2Z.inj_add, Nat2Z.id.
  destruct (dump_digits_spec a v nb Hv ltac:(lia) Hta) as (nb' & E & Ht & Hl').
  destruct (dump_integer_loop 10 v _) as [[v' st]| | | |]; try done. cbn [mbind outcome_bind] in *.
  rewrite E. cbn [mbind outcome_bind snd]. rewrite Ht. exists nb'. split; [done|lia].
Qed.

Lemma dump_integer_ok x nb :
  - 2 ^ 63 ≤ x < 2 ^ 64 → length nb = 64%nat →
  ∃ nb', dump_integer x nb = Ret (int_text x, nb') ∧ length nb' = 64%nat.
Proof.
  intros Hx Hnb. unfold dump_integer, int_text.
  destruct (Z.eqb_spec x 0) as [->|Hne]; [by exists nb|].
  destruct (Z.ltb_spec x 0).
  - rewrite remove_sign_spec by lia. cbn [mbind outcome_bind].
    rewrite count_digits_spec by lia. cbn [mbind outcome_bind].
    destruct (dump_integer_tail [45] (- x) (<[0%nat:=45]> nb)) as (nb' & E & Hl);
      [lia|done|by rewrite length_insert|by destruct nb|].
    rewrite length_insert in *. eauto.
  - rewrite u64_small by lia. rewrite count_digits_spec by lia. cbn [mbind outcome_bind].
    destruct (dump_integer_tail [] x nb) as (nb' & E & Hl); [lia|simpl; lia|done|done|].
    eauto.
Qed.
