(* ===== verification/JsonStringText.v ===== *)
(** The serializer's strings: the table of [decode] is the automaton of
    well-formed UTF-8, with the same byte ranges as the lexer's switch, and
    [dump_escaped] writes the escapes of the well-formed sequences of a
    string; its 512 characters of buffer are never exceeded. *)

From S2P Require Import Prelude Utf8 Double JsonValue JsonLexer JsonLexerFacts JsonTokens.
From S2P Require Import JsonToChars GrisuBounds JsonSerializer.

(** * The automaton *)

Definition C : Z * Z := (0x80, 0xBF).

(** The continuation bytes a state waits for. *)
Definition state_ranges (s : Z) : option (list (Z * Z)) :=
  match s with
  | 0 => Some []
  | 2 => Some [C]
  | 3 => Some [C; C]
  | 4 => Some [(0xA0, 0xBF); C]
  | 5 => Some [(0x80, 0x9F); C]
  | 6 => Some [(0x90, 0xBF); C; C]
  | 7 => Some [C; C; C]
  | 8 => Some [(0x80, 0x8F); C; C]
  | _ => None
  end.

(** The state after a byte, from the ranges. *)
Definition next_ranges (s b : Z) : option (list (Z * Z)) :=
  if s =? 0 then (if b <? 0x80 then Some [] else lead_ranges b)
  else match state_ranges s with
       | Some ((lo, hi) :: rs) => if in_range lo hi b then Some rs else None
       | _ => None
       end.

Definition next_state (s b : Z) : option Z :=
  match utf8d !! Z.to_nat b with
  | Some type => utf8d !! Z.to_nat (256 + s * 16 + type)
  | None => None
  end.

Definition bytes_list : list Z := map Z.of_nat (seq 0 256).

Lemma in_bytes_list b : is_byte b = true → In b bytes_list.
Proof.
  unfold is_byte. intros. to_prop. apply in_map_iff. exists (Z.to_nat b).
  split; [lia|]. apply in_seq. lia.
Qed.

Definition good_state (s : Z) : bool := (s =? 0) || in_range 2 8 s.

(** The table checked against the ranges, state by state and byte by byte. *)
Lemma utf8d_checked :
  forallb (λ s, forallb (λ b,
    match next_state s b with
    | Some s' => if good_state s' then bool_decide (state_ranges s' = next_ranges s b)
                 else (s' =? 1) && bool_decide (next_ranges s b = None)
    | None => false
    end) bytes_list) [0; 2; 3; 4; 5; 6; 7; 8] = true.
Proof. vm_compute. reflexivity. Qed.

Lemma next_state_spec s b :
  good_state s = true → is_byte b = true →
  ∃ s', next_state s b = Some s' ∧
    match next_ranges s b with
    | Some rs => good_state s' = true ∧ state_ranges s' = Some rs
    | None => s' = 1
    end.
Proof.
  intros Hs Hb. pose proof utf8d_checked as Hc. rewrite forallb_forall in Hc.
  assert (In s [0; 2; 3; 4; 5; 6; 7; 8]) as Hin.
  { unfold good_state, in_range in Hs. simpl. lia. }
  specialize (Hc s Hin). cbv beta in Hc. rewrite forallb_forall in Hc.
  specialize (Hc b (in_bytes_list b Hb)). cbv beta in Hc.
  destruct (next_state s b) as [s'|]; [|done]. exists s'. split; [done|].
  destruct (good_state s') eqn:E.
  - apply bool_decide_eq_true in Hc. rewrite <- Hc.
    unfold good_state, in_range in E.
    assert (s' = 0 ∨ s' = 2 ∨ s' = 3 ∨ s' = 4 ∨ s' = 5 ∨ s' = 6 ∨ s' = 7 ∨ s' = 8) as Hs' by lia.
    destruct_or! Hs'; subst; done.
  - apply andb_true_iff in Hc as [H1 H2]. apply bool_decide_eq_true in H2. rewrite H2. lia.
Qed.

(** The bits a byte contributes. *)
Definition next_codepoint (s cp b : Z) : Z :=
  if s =? 0 then
    (if b <? 0x80 then b else if b <? 0xE0 then b - 0xC0 else if b <? 0xF0 then b - 0xE0 else b - 0xF0)
  else cp * 64 + (b - 0x80).

Lemma lead_codepoint_checked :
  forallb (λ b, match next_ranges 0 b, utf8d !! Z.to_nat b with
                | Some _, Some type => Z.land (Z.shiftr 0xFF type) b =? next_codepoint 0 0 b
                | None, Some _ => true
                | _, None => false
                end) bytes_list = true.
Proof. vm_compute. reflexivity. Qed.

Lemma next_range_cont s b rs : s ≠ 0 → next_ranges s b = Some rs → 0x80 ≤ b ≤ 0xBF.
Proof.
  intros Hs. unfold next_ranges. assert ((s =? 0) = false) as -> by lia.
  unfold state_ranges, C, in_range. repeat case_match; intros; simplify_eq; to_prop; lia.
Qed.

Lemma decode_ok s cp b rs :
  good_state s = true → is_byte b = true → 0 ≤ cp < 2 ^ 24 → next_ranges s b = Some rs →
  ∃ s', decode s cp b = Ret (s', next_codepoint s cp b) ∧ good_state s' = true ∧
    state_ranges s' = Some rs.
Proof.
  intros Hs Hb Hcp Hrs. destruct (next_state_spec s b Hs Hb) as (s' & Hn & Hs').
  rewrite Hrs in Hs'. exists s'. split; [|done]. unfold decode, next_state in *.
  destruct (utf8d !! Z.to_nat b) as [type|] eqn:Et; [|done]. cbv zeta. rewrite Hn.
  do 2 f_equal. unfold UTF8_ACCEPT. destruct (Z.eqb_spec s 0) as [->|Hne]; cbn [negb].
  - pose proof (proj1 (forallb_forall _ _) lead_codepoint_checked b (in_bytes_list b Hb)) as Hl.
    cbv beta in Hl. rewrite Hrs, Et in Hl. by apply Z.eqb_eq in Hl.
  - unfold next_codepoint. assert ((s =? 0) = false) as -> by lia.
    pose proof (next_range_cont s b rs Hne Hrs) as Hc.
    change 0x3f with (2 ^ 6 - 1). rewrite land_low, Z.shiftl_mul_pow2 by lia.
    unfold u32, wrap_u. rewrite (Z.mod_small (cp * 2 ^ 6)) by lia.
    assert (b mod 2 ^ 6 = b - 0x80) as -> by (symmetry; apply (Z.mod_unique _ _ 2); lia).
    rewrite Z.lor_comm, lor_shift_low by lia. lia.
Qed.

Lemma decode_reject s cp b :
  good_state s = true → is_byte b = true → next_ranges s b = None →
  ∃ cp', decode s cp b = Ret (1, cp').
Proof.
  intros Hs Hb Hrs. destruct (next_state_spec s b Hs Hb) as (s' & Hn & Hs').
  rewrite Hrs in Hs'. subst. unfold decode, next_state in *.
  destruct (utf8d !! Z.to_nat b); [|done]. cbv zeta. rewrite Hn. eauto.
Qed.

(** * Well-formed and ill-formed pieces of a string *)

(** The longest prefix of [s] in the ranges, whether it is complete, and the
    rest. *)
Fixpoint take_ranges (rs : list (Z * Z)) (s : cstring) : cstring * bool * cstring :=
  match rs with
  | [] => ([], true, s)
  | (lo, hi) :: rs' =>
      match s with
      | [] => ([], false, [])
      | b :: s' =>
          if in_range lo hi b
          then let '(m, ok, rest) := take_ranges rs' s' in (b :: m, ok, rest)
          else ([], false, s)
      end
  end.

(** The first sequence of [b :: s]: well-formed, or the longest start of one. *)
Definition next_chunk (b : Z) (s : cstring) : bool * cstring * cstring :=
  match next_ranges 0 b with
  | Some rs => let '(m, ok, rest) := take_ranges rs s in (ok, b :: m, rest)
  | None => (false, [b], s)
  end.

(** The code point of a sequence, byte by byte. *)
Definition add_byte (cp b : Z) : Z := cp * 64 + (b - 0x80).

(** The text a well-formed sequence is written as. *)
Definition esc_text (ensure_ascii : bool) (g : cstring) : cstring :=
  let cp := group_codepoint g in
  if cp =? 0x08 then [92; 98]
  else if cp =? 0x09 then [92; 116]
  else if cp =? 0x0A then [92; 110]
  else if cp =? 0x0C then [92; 102]
  else if cp =? 0x0D then [92; 114]
  else if cp =? 0x22 then [92; 34]
  else if cp =? 0x5C then [92; 92]
  else if (cp <=? 0x1F) || (ensure_ascii && (0x7F <=? cp)) then
    if cp <=? 0xFFFF then u_escape cp
    else u_escape (0xD7C0 + Z.shiftr cp 10) ++ u_escape (0xDC00 + Z.land cp 0x3FF)
  else g.

Lemma take_ranges_app rs s m ok rest :
  take_ranges rs s = (m, ok, rest) → s = m ++ rest ∧ (length m ≤ length rs)%nat ∧
    (ok = true → Forall2 (λ r b, in_range r.1 r.2 b = true) rs m).
Proof.
  revert s m ok rest. induction rs as [|[lo hi] rs IH]; intros s m ok rest; simpl.
  - intros [= <- <- <-]. split; [done|]. split; [simpl; lia|]. constructor.
  - destruct s as [|b s]; [intros [= <- <- <-]; split; [done|]; split; [simpl; lia|done]|].
    case_if; [|intros [= <- <- <-]; split; [done|]; split; [simpl; lia|done]].
    destruct (take_ranges rs s) as [[m' ok'] rest'] eqn:E. intros [= <- <- <-].
    destruct (IH _ _ _ _ E) as (-> & Hl & Hok). split; [done|]. split; [simpl; lia|].
    intros Ht. constructor; auto.
Qed.

(** A complete piece is well-formed. *)
Lemma next_chunk_group b s g rest :
  is_byte b = true → next_chunk b s = (true, g, rest) → utf8_group g = true ∧ b :: s = g ++ rest.
Proof.
  intros Hb. unfold next_chunk, next_ranges. rewrite Z.eqb_refl.
  destruct (Z.ltb_spec b 0x80) as [Hlt|Hge].
  - simpl. intros [= <- <-]. split; [|done]. unfold is_byte in Hb. simpl. unfold in_range. lia.
  - destruct (lead_ranges b) as [rs|] eqn:El; [|done].
    destruct (take_ranges rs s) as [[m ok] rest'] eqn:E. intros [= -> <- <-].
    destruct (take_ranges_app _ _ _ _ _ E) as (-> & _ & HF). specialize (HF eq_refl).
    split; [|done]. revert El. unfold lead_ranges, is_byte in *.
    repeat case_if; intros; simplify_eq;
      repeat match goal with H : Forall2 _ _ _ |- _ => inversion H; clear H; subst end;
      simpl in *; utf8_unfold; simpl in *; lia.
Qed.

Lemma take_ranges_all rs m rest :
  Forall2 (λ r b, in_range r.1 r.2 b = true) rs m → take_ranges rs (m ++ rest) = (m, true, rest).
Proof.
  induction 1 as [|[lo hi] b rs m Hb _ IH]; simpl; [done|]. simpl in Hb. by rewrite Hb, IH.
Qed.

Lemma group_next_chunk g rest :
  utf8_group g = true → ∃ b s, g ++ rest = b :: s ∧ next_chunk b s = (true, g, rest).
Proof.
  intros Hg. destruct g as [|b m]; [done|]. exists b, (m ++ rest). split; [done|].
  unfold next_chunk, next_ranges. rewrite Z.eqb_refl. destruct m as [|b1 m'].
  - simpl in Hg. unfold in_range in Hg. assert ((b <? 0x80) = true) as -> by lia. done.
  - destruct (lead_ranges_group b (b1 :: m') Hg) as (rs & El & HF); [done|]. rewrite El.
    assert ((b <? 0x80) = false) as ->.
    { revert El. unfold lead_ranges, in_range. repeat case_if; to_prop; intros; simplify_eq; lia. }
    by rewrite take_ranges_all.
Qed.

Lemma group_codepoint_fold b m :
  utf8_group (b :: m) = true → foldl add_byte (next_codepoint 0 0 b) m = group_codepoint (b :: m).
Proof.
  intros Hg. unfold next_codepoint. rewrite Z.eqb_refl.
  destruct m as [|b1 [|b2 [|b3 [|]]]]; simpl in *; try done; unfold add_byte; utf8_unfold.
  - by assert ((b <? 128) = true) as -> by lia.
  - assert ((b <? 128) = false) as -> by lia. by assert ((b <? 224) = true) as -> by lia.
  - assert ((b <? 128) = false) as -> by lia. assert ((b <? 224) = false) as -> by lia.
    assert ((b <? 240) = true) as -> by lia. lia.
  - assert ((b <? 128) = false) as -> by lia. assert ((b <? 224) = false) as -> by lia.
    assert ((b <? 240) = false) as -> by lia. lia.
Qed.

(** * The loop *)

Section loop.
  Context (h : error_handler_t) (ea : bool).

Abbreviation L := (λ fuel, dump_escaped_loop fuel h ea).

(** The bytes of an unfinished sequence in the buffer. *)
Definition part (m : cstring) : cstring := if ea then [] else m.

Lemma part_app a b : part (a ++ b) = part a ++ part b.
Proof. unfold part. by destruct ea. Qed.

Lemma emit_ok room text buf : (length buf + room ≤ 512)%nat → emit room text buf = Ret (buf ++ text).
Proof. intros H. unfold emit, buffer_size. by apply Nat.leb_le in H as ->. Qed.

(** A byte inside a sequence. *)
Lemma step_inside i b st s' cp' :
  decode (es_state st) (es_codepoint st) b = Ret (s', cp') → s' ≠ 0 → s' ≠ 1 →
  (length (es_buffer st) + 1 ≤ 512)%nat →
  dump_escaped_step h ea i b st =
    Ret (false, mk_esc cp' s' (es_buffer st ++ part [b]) (es_last_accept st)
           (S (es_undumped st)) (es_out st)).
Proof.
  intros Hd H0 H1 Hl. unfold dump_escaped_step. rewrite Hd. cbn [mbind outcome_bind].
  unfold UTF8_ACCEPT, UTF8_REJECT, part. cbn [es_state es_buffer es_undumped es_last_accept es_out].
  assert ((s' =? 0) = false) as -> by lia. assert ((s' =? 1) = false) as -> by lia.
  destruct ea; cbn [negb]; [by rewrite app_nil_r|]. by rewrite emit_ok by done.
Qed.

(** After the last byte of a sequence. *)
Definition accepted (cp b : Z) (buf out : cstring) : res esc_state :=
  buf ← escape_codepoint ea cp b buf;
  let '(buf, out) := flush buf out in
  Ret (mk_esc cp 0 buf (length buf) 0 out).

Lemma step_accept i b st cp' :
  decode (es_state st) (es_codepoint st) b = Ret (0, cp') →
  dump_escaped_step h ea i b st =
    (st' ← accepted cp' b (es_buffer st) (es_out st); Ret (false, st')).
Proof.
  intros Hd. unfold dump_escaped_step, accepted. rewrite Hd. cbn [mbind outcome_bind].
  unfold UTF8_ACCEPT. rewrite Z.eqb_refl. cbn [es_buffer es_out].
  destruct (escape_codepoint _ _ _ _); try done. cbn [mbind outcome_bind].
  by destruct (flush _ _).
Qed.

Lemma good_ne s rs r : good_state s = true → state_ranges s = Some (r :: rs) → s ≠ 0 ∧ s ≠ 1.
Proof. intros _. by split; intros ->. Qed.

(** From inside a sequence that waits for the ranges [rs]. *)
Lemma ranges_run rs s t m ok rest fuel i st :
  es_state st = s → good_state s = true → state_ranges s = Some rs → rs ≠ [] →
  0 ≤ es_codepoint st < 2 ^ (24 - 6 * Z.of_nat (length rs)) → (length rs ≤ 3)%nat →
  (length (es_buffer st) + length rs ≤ 512)%nat → forallb is_byte t = true →
  take_ranges rs t = (m, ok, rest) →
  if ok : bool then
    ∃ m0 b, m = m0 ++ [b] ∧
      L (length m + fuel)%nat i t st =
        (st' ← accepted (foldl add_byte (es_codepoint st) m) b (es_buffer st ++ part m0) (es_out st);
         L fuel (i + length m)%nat rest st')
  else
    ∃ s' cp', good_state s' = true ∧ s' ≠ 0 ∧
      (rest = [] ∨ ∃ b r, rest = b :: r ∧ next_ranges s' b = None) ∧
      L (length m + fuel)%nat i t st =
        L fuel (i + length m)%nat rest
          (mk_esc cp' s' (es_buffer st ++ part m) (es_last_accept st)
             (es_undumped st + length m) (es_out st)).
Proof.
  revert s t m ok rest i st.
  induction rs as [|[lo hi] rs IH]; intros s t m ok rest i st Hst Hs Hrs Hne Hcp Hlen Hbuf Hb Ht; [done|].
  assert (s ≠ 0) as Hs0 by (by eapply good_ne).
  assert (mk_esc (es_codepoint st) s (es_buffer st ++ part []) (es_last_accept st)
    (es_undumped st + 0) (es_out st) = st) as Hsame.
  { destruct st; simpl in *. unfold part. subst. rewrite Nat.add_0_r. destruct ea; by rewrite app_nil_r. }
  assert (∀ b, next_ranges s b = if in_range lo hi b then Some rs else None) as Hnext.
  { intros b. unfold next_ranges. assert ((s =? 0) = false) as -> by lia. by rewrite Hrs. }
  simpl in Ht. destruct t as [|b t].
  { injection Ht as <- <- <-. exists s, (es_codepoint st). split; [done|]. split; [done|].
    split; [by left|]. simpl. by rewrite Hsame, Nat.add_0_r. }
  specialize (Hnext b). destruct (in_range lo hi b).
  2:{ injection Ht as <- <- <-. exists s, (es_codepoint st). split; [done|]. split; [done|].
      split; [right; eauto|]. simpl length. by rewrite Hsame, Nat.add_0_r. }
  destruct (take_ranges rs t) as [[m' ok'] rest'] eqn:Et. injection Ht as <- <- <-.
  cbn [length] in Hcp, Hlen, Hbuf. simpl in Hb. apply andb_true_iff in Hb as [Hb Hbt].
  assert (2 ^ (24 - 6 * Z.of_nat (S (length rs))) * 64 = 2 ^ (24 - 6 * Z.of_nat (length rs))) as Ep.
  { change 64 with (2 ^ 6). rewrite <- Z.pow_add_r by lia. f_equal. lia. }
  assert (2 ^ (24 - 6 * Z.of_nat (length rs)) ≤ 2 ^ 24) as Hp24 by (apply Z.pow_le_mono_r; lia).
  destruct (decode_ok s (es_codepoint st) b rs Hs Hb ltac:(lia) Hnext) as (s' & Hd & Hs' & Hrs').
  assert (next_codepoint s (es_codepoint st) b = add_byte (es_codepoint st) b) as En.
  { unfold next_codepoint. by assert ((s =? 0) = false) as -> by lia. }
  rewrite En, <- Hst in Hd. pose proof (next_range_cont s b rs Hs0 Hnext) as Hcont.
  cbn [length Nat.add]. cbn [dump_escaped_loop].
  destruct rs as [|r rs].
  - simpl in Et. injection Et as <- <- <-. exists [], b. split; [done|].
    assert (s' = 0) as -> by (unfold state_ranges in Hrs'; repeat case_match; simplify_eq; done).
    rewrite (step_accept i b st _ Hd).
    replace (i + S (length ([] : cstring)))%nat with (S i) by (simpl; lia).
    assert (es_buffer st ++ part [] = es_buffer st) as -> by (unfold part; destruct ea; by rewrite app_nil_r).
    change (foldl add_byte (es_codepoint st) [b]) with (add_byte (es_codepoint st) b).
    by destruct (accepted (add_byte (es_codepoint st) b) b (es_buffer st) (es_out st)).
  - destruct (good_ne s' rs r Hs' Hrs') as [Hs'0 Hs'1].
    rewrite (step_inside i b st s' _ Hd Hs'0 Hs'1) by lia. cbn [mbind outcome_bind].
    match goal with |- context [dump_escaped_loop _ _ _ (S i) t ?x] => set (st1 := x) end.
    pose proof (IH s' t m' ok' rest' (S i) st1 eq_refl Hs' Hrs' ltac:(done)) as IH'.
    cbn [st1 es_codepoint es_buffer es_undumped es_last_accept es_out] in IH'.
    rewrite length_app in IH'.
    assert (length (part [b]) ≤ 1)%nat as Hp1 by (unfold part; destruct ea; simpl; lia).
    specialize (IH' ltac:(unfold add_byte; lia) ltac:(simpl in *; lia) ltac:(simpl in *; lia) Hbt Et).
    replace (i + S (length m'))%nat with (S i + length m')%nat by lia.
    destruct ok'.
    + destruct IH' as (m0 & b' & -> & IH'). exists (b :: m0), b'. split; [done|].
      rewrite IH'. change (b :: m0) with ([b] ++ m0). by rewrite part_app, <- app_assoc.
    + destruct IH' as (s2 & cp2 & Hg & Hne2 & Hr & IH'). exists s2, cp2.
      split; [done|]. split; [done|]. split; [done|]. rewrite IH'.
      change (b :: m') with ([b] ++ m'). rewrite part_app, <- app_assoc.
      by replace (S (es_undumped st) + length m')%nat with (es_undumped st + S (length m'))%nat by lia.
Qed.

(** Between two sequences: the buffer has room for one more. *)
Definition ready (st : esc_state) : Prop :=
  es_state st = 0 ∧ es_undumped st = 0%nat ∧ es_last_accept st = length (es_buffer st) ∧
  (length (es_buffer st) ≤ 499)%nat.

Definition emitted (st : esc_state) : cstring := es_out st ++ es_buffer st.

Lemma flush_ready cp buf out :
  (length buf ≤ 512)%nat →
  ∃ st, (let '(buf, out) := flush buf out in
         Ret (E := json_exn) (mk_esc cp 0 buf (length buf) 0 out)) = Ret st ∧
    ready st ∧ emitted st = out ++ buf.
Proof.
  intros Hl. unfold flush, buffer_size. destruct (512 - length buf <? 13)%nat eqn:E.
  - eexists. split; [done|]. split; [by repeat split; simpl; lia|]. unfold emitted. simpl.
    by rewrite app_nil_r.
  - apply Nat.ltb_ge in E. eexists. split; [done|]. split; [|done]. repeat split; simpl; lia.
Qed.

(** The last byte of a well-formed sequence completes its text. *)
Lemma accepted_group g0 b buf out :
  utf8_group (g0 ++ [b]) = true → (length buf ≤ 499)%nat →
  ∃ st, accepted (group_codepoint (g0 ++ [b])) b (buf ++ part g0) out = Ret st ∧ ready st ∧
    emitted st = out ++ buf ++ esc_text ea (g0 ++ [b]).
Proof.
  intros Hg Hl.
  assert (∃ buf', escape_codepoint ea (group_codepoint (g0 ++ [b])) b (buf ++ part g0) = Ret buf' ∧
    buf' = buf ++ esc_text ea (g0 ++ [b]) ∧ (length buf' ≤ 512)%nat) as (buf' & E & Hb & Hl').
  { assert (group_codepoint (g0 ++ [b]) < 0x80 → g0 = []) as Hone.
    { destruct g0 as [|b0 [|b1 [|b2 [|b3 g1]]]]; simpl in *; try done; [utf8_unfold; lia..|].
      by destruct g1. }
    assert (length g0 ≤ 3)%nat as Hg0.
    { destruct g0 as [|b0 [|b1 [|b2 [|b3 g1]]]]; simpl in *; try lia. by destruct g1. }
    assert (0 ≤ group_codepoint (g0 ++ [b])) as Hcp0.
    { pose proof (group_codepoint_scalar _ Hg) as Hsc. unfold scalar, in_range in Hsc. lia. }
    unfold escape_codepoint, esc_text.
    set (cp := group_codepoint (g0 ++ [b])) in *.
    assert (length (buf ++ part g0) ≤ 502)%nat as Hlb
      by (rewrite length_app; unfold part; destruct ea; simpl; lia).
    repeat (match goal with |- context [cp =? ?n] => destruct (Z.eqb_spec cp n) end;
      [rewrite Hone by lia; unfold part; destruct ea; rewrite app_nil_r, emit_ok by lia;
       eexists; (split; [done|]); (split; [done|]); rewrite length_app; simpl; lia|]).
    destruct (Z.leb_spec cp 0x1F) as [Hlow|Hhigh].
    - rewrite Hone by lia. assert ((cp <=? 0xFFFF) = true) as -> by lia. cbn [orb].
      unfold part; destruct ea; rewrite app_nil_r, emit_ok by lia;
        eexists; (split; [done|]); (split; [done|]); rewrite length_app; simpl; lia.
    - cbn [orb]. unfold part. destruct ea; cbn [andb].
      + rewrite app_nil_r. destruct (Z.leb_spec 0x7F cp).
        * case_if; rewrite emit_ok by lia; eexists; (split; [done|]); (split; [done|]);
            rewrite !length_app; simpl; lia.
        * rewrite Hone, emit_ok by lia. eexists; (split; [done|]); (split; [done|]).
          rewrite length_app. simpl. lia.
      + rewrite emit_ok by (rewrite length_app; lia). eexists. split; [done|].
        rewrite <- app_assoc. split; [done|]. rewrite !length_app in *. simpl. lia. }
  unfold accepted. rewrite E. cbn [mbind outcome_bind].
  destruct (flush_ready (group_codepoint (g0 ++ [b])) buf' out Hl') as (st & -> & Hr & He).
  exists st. split; [done|]. split; [done|]. by rewrite He, Hb.
Qed.

Lemma lead_codepoint_small b rs :
  is_byte b = true → next_ranges 0 b = Some rs → rs ≠ [] →
  0 ≤ next_codepoint 0 0 b < 2 ^ 6 ∧ (length rs ≤ 3)%nat.
Proof.
  unfold is_byte, next_ranges, next_codepoint. rewrite Z.eqb_refl. intros Hb.
  case_if; [intros [= <-]; done|]. intros El _. split.
  - revert El. unfold lead_ranges, in_range. repeat case_if; intros; simplify_eq; lia.
  - revert El. unfold lead_ranges. repeat case_if; intros; simplify_eq; simpl; lia.
Qed.

Lemma lead_pow (rs : list (Z * Z)) : (length rs ≤ 3)%nat → 2 ^ 6 ≤ 2 ^ (24 - 6 * Z.of_nat (length rs)).
Proof. intros. apply Z.pow_le_mono_r; lia. Qed.

(** From a ready state into a sequence of several bytes. *)
Lemma lead_step i b rs st :
  ready st → is_byte b = true → next_ranges 0 b = Some rs → rs ≠ [] →
  ∃ s', good_state s' = true ∧ state_ranges s' = Some rs ∧
    dump_escaped_step h ea i b st =
      Ret (false, mk_esc (next_codepoint 0 0 b) s' (es_buffer st ++ part [b])
             (es_last_accept st) 1 (es_out st)).
Proof.
  intros (Hs & Hu & Hla & Hl) Hb Hrs Hne.
  destruct (decode_ok 0 0 b rs eq_refl Hb ltac:(lia) Hrs) as (s' & Hd & Hg & Hr).
  assert (decode (es_state st) (es_codepoint st) b = Ret (s', next_codepoint 0 0 b)) as Hd'.
  { rewrite Hs. unfold decode in *. exact Hd. }
  destruct rs as [|r rs]; [done|]. destruct (good_ne s' rs r Hg Hr) as [H0 H1].
  exists s'. split; [done|]. split; [done|].
  rewrite (step_inside i b st s' _ Hd' H0 H1) by lia. by rewrite Hu.
Qed.

(** A well-formed piece: its text is emitted. *)
Lemma chunk_ok b s g rest fuel i st :
  ready st → forallb is_byte (b :: s) = true → next_chunk b s = (true, g, rest) →
  ∃ st', L (length g + fuel)%nat i (b :: s) st = L fuel (i + length g)%nat rest st' ∧ ready st' ∧
    emitted st' = emitted st ++ esc_text ea g.
Proof.
  intros Hr Hb Hc. simpl in Hb. apply andb_true_iff in Hb as [Hb Hbs].
  destruct (next_chunk_group b s g rest Hb Hc) as [Hg _]. pose proof Hr as (Hs & Hu & Hla & Hl).
  unfold next_chunk in Hc. destruct (next_ranges 0 b) as [rs|] eqn:Ers; [|done].
  destruct (take_ranges rs s) as [[m ok] rest'] eqn:Et. injection Hc as -> <- <-.
  cbn [length Nat.add dump_escaped_loop].
  destruct (decide (rs = [])) as [->|Hne].
  - simpl in Et. injection Et as <- <-.
    destruct (decode_ok 0 0 b [] eq_refl Hb ltac:(lia) Ers) as (s' & Hd & Hgs & Hr').
    assert (s' = 0) as -> by (unfold state_ranges in Hr'; repeat case_match; simplify_eq; done).
    rewrite (step_accept i b st (next_codepoint 0 0 b)) by (by rewrite Hs).
    destruct (accepted_group [] b (es_buffer st) (es_out st) Hg Hl) as (st' & E & Hr2 & He).
    cbn [app] in E, He. rewrite <- (group_codepoint_fold b [] Hg) in E.
    change (foldl add_byte (next_codepoint 0 0 b) []) with (next_codepoint 0 0 b) in E.
    unfold part in E.
    replace (es_buffer st ++ (if ea then [] else [])) with (es_buffer st) in E
      by (destruct ea; by rewrite app_nil_r).
    rewrite E. cbn [mbind outcome_bind]. exists st'.
    replace (i + S (length ([] : cstring)))%nat with (S i) by (simpl; lia).
    split; [done|]. split; [done|]. unfold emitted at 2. by rewrite He, app_assoc.
  - destruct (lead_step i b rs st Hr Hb Ers Hne) as (s' & Hgs & Hrs' & ->).
    cbn [mbind outcome_bind].
    destruct (lead_codepoint_small b rs Hb Ers Hne) as [Hcp Hlen].
    pose proof (lead_pow rs Hlen) as Hpow.
    match goal with |- context [dump_escaped_loop _ _ _ (S i) s ?x] => set (st1 := x) end.
    pose proof (ranges_run rs s' s m true rest' fuel (S i) st1 eq_refl Hgs Hrs' Hne) as Hrun.
    cbn [st1 es_codepoint es_buffer es_undumped es_last_accept es_out] in Hrun.
    assert (length (part [b]) ≤ 1)%nat as Hp1 by (unfold part; destruct ea; simpl; lia).
    rewrite length_app in Hrun.
    destruct (Hrun ltac:(lia) Hlen ltac:(lia) Hbs Et) as (m0 & b' & -> & E).
    rewrite <- app_assoc, <- part_app in E.
    change (b :: m0 ++ [b']) with ((b :: m0) ++ [b']) in *.
    destruct (accepted_group (b :: m0) b' (es_buffer st) (es_out st) Hg Hl) as (st' & Ea & Hr2 & He).
    pose proof (group_codepoint_fold b (m0 ++ [b']) Hg) as Efold.
    change (b :: m0 ++ [b']) with ((b :: m0) ++ [b']) in Efold. rewrite <- Efold in Ea.
    change ([b] ++ m0) with (b :: m0) in E.
    rewrite Ea in E. cbn [mbind outcome_bind] in E. exists st'. rewrite E.
    replace (i + S (length (m0 ++ [b'])))%nat with (S i + length (m0 ++ [b']))%nat by lia.
    split; [done|]. split; [done|]. unfold emitted at 2. by rewrite He, app_assoc.
Qed.

(** What a handler that goes on puts in the place of an ill-formed piece. *)
Definition ill_formed_text : cstring := if bool_decide (h = replace) then replacement ea else [].

Lemma reject_ready st :
  (length (take (es_last_accept st) (es_buffer st)) ≤ 499)%nat →
  es_last_accept st = length (take (es_last_accept st) (es_buffer st)) →
  ∃ st', reject_byte h ea st = Ret ((0 <? es_undumped st)%nat, st') ∧ ready st' ∧
    emitted st' = es_out st ++ take (es_last_accept st) (es_buffer st) ++ ill_formed_text.
Proof.
  intros Hl Hla. unfold reject_byte, ill_formed_text.
  set (buf := take (es_last_accept st) (es_buffer st)) in *. case_bool_decide.
  - assert (length (replacement ea) ≤ 6)%nat as Hrep by (destruct ea; simpl; lia).
    rewrite emit_ok by lia. cbn [mbind outcome_bind].
    destruct (flush_ready (es_codepoint st) (buf ++ replacement ea) (es_out st))
      as (st' & E & Hr & He); [rewrite length_app; lia|].
    exists st'. unfold UTF8_ACCEPT. destruct (flush _ _) as [buf' out']. injection E as <-.
    split; [done|]. split; [done|]. done.
  - eexists. split; [done|]. split; [by repeat split; simpl|]. unfold emitted. simpl.
    by rewrite app_nil_r.
Qed.

Lemma step_reject i b st cp' :
  decode (es_state st) (es_codepoint st) b = Ret (1, cp') →
  (h = strict ∧ ∃ e, dump_escaped_step h ea i b st = Throw (type_error 316 e)) ∨
  (h ≠ strict ∧ dump_escaped_step h ea i b st =
    reject_byte h ea (mk_esc cp' 1 (es_buffer st) (es_last_accept st) (es_undumped st) (es_out st))).
Proof.
  intros Hd. unfold dump_escaped_step. rewrite Hd. cbn [mbind outcome_bind].
  unfold UTF8_ACCEPT, UTF8_REJECT. cbn [Z.eqb Pos.eqb].
  case_bool_decide; [left; split; [done|]; by eexists|by right].
Qed.

(** The end of the string inside a sequence. *)
Definition incomplete (st st2 : esc_state) : Prop :=
  es_state st2 ≠ 0 ∧ es_out st2 = es_out st ∧
  take (es_last_accept st2) (es_buffer st2) = es_buffer st.

Definition bad_run (i : nat) (s : cstring) (st : esc_state) (g rest : cstring) (k : nat) : Prop :=
  ∀ fuel,
    (rest = [] ∧ ∃ st2, L (k + fuel)%nat i s st = Ret st2 ∧ incomplete st st2) ∨
    (h = strict ∧ ∃ e, L (k + fuel)%nat i s st = Throw (type_error 316 e)) ∨
    (h ≠ strict ∧ ∃ st', L (k + fuel)%nat i s st = L fuel (i + length g)%nat rest st' ∧
       ready st' ∧ emitted st' = emitted st ++ ill_formed_text).

Lemma take_part (buf m : cstring) n : n = length buf → take n (buf ++ part m) = buf.
Proof. intros ->. apply take_app_length. Qed.

(** Rejecting a byte in the middle of a sequence: it is read again. *)
Lemma reject_again i b r st st2 cp fuel s' u m :
  ready st → is_byte b = true → next_ranges s' b = None → good_state s' = true →
  st2 = mk_esc cp s' (es_buffer st ++ part m) (es_last_accept st) (S u) (es_out st) →
  (h = strict ∧ ∃ e, L (S fuel) i (b :: r) st2 = Throw (type_error 316 e)) ∨
  (h ≠ strict ∧ ∃ st', L (S fuel) i (b :: r) st2 = L fuel i (b :: r) st' ∧
     ready st' ∧ emitted st' = emitted st ++ ill_formed_text).
Proof.
  intros (Hs & Hu & Hla & Hl) Hb Hn Hg ->. destruct (decode_reject s' cp b Hg Hb Hn) as (cp' & Hd).
  cbn [dump_escaped_loop].
  destruct (step_reject i b (mk_esc cp s' (es_buffer st ++ part m) (es_last_accept st)
    (S u) (es_out st)) cp' Hd) as [[Hh [e ->]]|[Hh ->]]; [left; eauto|].
  right. split; [done|]. cbn [es_buffer es_last_accept es_undumped es_out].
  destruct (reject_ready (mk_esc cp' 1 (es_buffer st ++ part m) (es_last_accept st)
    (S u) (es_out st))) as (st' & -> & Hr & He); cbn [es_buffer es_last_accept es_out];
    rewrite ?take_part by done; [lia|done|].
  cbn [es_undumped mbind outcome_bind]. exists st'. split; [done|]. split; [done|].
  rewrite He. cbn [es_buffer es_last_accept es_out]. rewrite take_part by done.
  unfold emitted. by rewrite app_assoc.
Qed.

Lemma chunk_bad b s g rest i st :
  ready st → forallb is_byte (b :: s) = true → next_chunk b s = (false, g, rest) →
  ∃ k, (k ≤ 2 * length g)%nat ∧ bad_run i (b :: s) st g rest k.
Proof.
  intros Hr Hb Hc. simpl in Hb. apply andb_true_iff in Hb as [Hb Hbs].
  pose proof Hr as (Hs & Hu & Hla & Hl). unfold next_chunk in Hc.
  destruct (next_ranges 0 b) as [rs|] eqn:Ers.
  2:{ injection Hc as <- <-. exists 1%nat. split; [simpl; lia|]. intros fuel. right.
      destruct (decode_reject 0 (es_codepoint st) b eq_refl Hb Ers) as (cp' & Hd).
      rewrite <- Hs in Hd. cbn [Nat.add dump_escaped_loop].
      destruct (step_reject i b st cp' Hd) as [[Hh [e ->]]|[Hh ->]]; [left; eauto|].
      right. split; [done|].
      destruct (reject_ready (mk_esc cp' 1 (es_buffer st) (es_last_accept st)
        (es_undumped st) (es_out st))) as (st' & -> & Hr' & He);
        cbn [es_buffer es_last_accept es_out]; rewrite ?Hla, ?take_ge by lia; [lia|done|].
      cbn [es_undumped mbind outcome_bind]. rewrite Hu. cbn [Nat.ltb Nat.leb].
      exists st'. simpl length. rewrite Nat.add_1_r. split; [done|]. split; [done|].
      rewrite He. cbn [es_buffer es_last_accept es_out]. rewrite Hla, take_ge by lia.
      unfold emitted. by rewrite app_assoc. }
  destruct (take_ranges rs s) as [[m ok] rest'] eqn:Et. injection Hc as -> <- <-.
  destruct (decide (rs = [])) as [->|Hne]; [by simpl in Et|].
  exists (S (S (length m))). split; [simpl; lia|]. intros fuel.
  destruct (lead_step i b rs st Hr Hb Ers Hne) as (s' & Hgs & Hrs' & Estep).
  destruct (lead_codepoint_small b rs Hb Ers Hne) as [Hcp Hlen].
  pose proof (lead_pow rs Hlen) as Hpow.
  set (st1 := mk_esc (next_codepoint 0 0 b) s' (es_buffer st ++ part [b]) (es_last_accept st) 1
    (es_out st)) in *.
  pose proof (ranges_run rs s' s m false rest' (S fuel) (S i) st1 eq_refl Hgs Hrs' Hne) as Hrun.
  cbn [st1 es_codepoint es_buffer es_undumped es_last_accept es_out] in Hrun.
  assert (length (part [b]) ≤ 1)%nat as Hp1 by (unfold part; destruct ea; simpl; lia).
  rewrite length_app in Hrun.
  destruct (Hrun ltac:(lia) Hlen ltac:(lia) Hbs Et) as (s2 & cp2 & Hg2 & Hne2 & Hrest & E).
  assert (L (S (S (length m)) + fuel)%nat i (b :: s) st = L (length m + S fuel)%nat (S i) s st1) as ->.
  { replace (S (S (length m)) + fuel)%nat with (S (length m + S fuel)) by lia.
    cbn [dump_escaped_loop]. by rewrite Estep. }
  rewrite E, <- app_assoc, <- part_app. change ([b] ++ m) with (b :: m).
  destruct (take_ranges_app _ _ _ _ _ Et) as (Esm & _).
  destruct Hrest as [->|(b' & r & -> & Hn)].
  - left. split; [done|]. eexists. split; [done|]. split; [done|]. split; [done|].
    cbn [es_last_accept es_buffer]. by apply take_part.
  - right. replace (S i + length m)%nat with (i + length (b :: m))%nat by (simpl; lia).
    assert (is_byte b' = true) as Hb'.
    { rewrite Esm, forallb_app in Hbs. simpl in Hbs. by to_prop. }
    change (1 + length m)%nat with (S (length m)).
    by eapply (reject_again _ b' r st).
Qed.
End loop.

(** * Whole strings *)

(** The pieces of a string, each with whether it is well-formed. *)
Fixpoint pieces_loop (fuel : nat) (s : cstring) : list (bool * cstring) :=
  match fuel, s with
  | S fuel', b :: s' =>
      let '(ok, g, rest) := next_chunk b s' in (ok, g) :: pieces_loop fuel' rest
  | _, _ => []
  end.

Definition pieces (s : cstring) : list (bool * cstring) := pieces_loop (length s) s.

Definition piece_text (h : error_handler_t) (ea : bool) (p : bool * cstring) : cstring :=
  if p.1 then esc_text ea p.2 else ill_formed_text h ea.

Lemma next_chunk_app b s ok g rest :
  next_chunk b s = (ok, g, rest) → b :: s = g ++ rest ∧ (0 < length g)%nat.
Proof.
  unfold next_chunk. destruct (next_ranges 0 b) as [rs|].
  - destruct (take_ranges rs s) as [[m ok'] rest'] eqn:E. intros [= <- <- <-].
    destruct (take_ranges_app _ _ _ _ _ E) as (-> & _). split; [done|]. simpl. lia.
  - intros [= <- <- <-]. split; [done|]. simpl. lia.
Qed.

Lemma next_chunk_bytes b s ok g rest :
  next_chunk b s = (ok, g, rest) → forallb is_byte (b :: s) = true → forallb is_byte rest = true.
Proof.
  intros H Hb. destruct (next_chunk_app _ _ _ _ _ H) as [E _].
  rewrite E, forallb_app in Hb. by to_prop.
Qed.

Lemma pieces_loop_fuel f f' s :
  (length s ≤ f)%nat → (length s ≤ f')%nat → pieces_loop f s = pieces_loop f' s.
Proof.
  revert f' s. induction f as [|f IH]; intros f' s Hf Hf'.
  - destruct s; [|simpl in Hf; lia]. by destruct f'.
  - destruct s as [|b s]; [by destruct f'|]. destruct f' as [|f']; [simpl in Hf'; lia|].
    cbn [pieces_loop]. destruct (next_chunk b s) as [[ok g] rest] eqn:E.
    destruct (next_chunk_app _ _ _ _ _ E) as [Es Hg].
    assert (length (b :: s) = length (g ++ rest)) as Hl by (by rewrite Es).
    rewrite length_app in Hl. simpl in *. rewrite (IH f') by lia. done.
Qed.

Lemma pieces_cons b s ok g rest :
  next_chunk b s = (ok, g, rest) → pieces (b :: s) = (ok, g) :: pieces rest.
Proof.
  intros E. unfold pieces. cbn [length pieces_loop]. rewrite E. f_equal.
  destruct (next_chunk_app _ _ _ _ _ E) as [Es Hg].
  assert (length (b :: s) = length (g ++ rest)) as Hl by (by rewrite Es).
  rewrite length_app in Hl. simpl in *. apply pieces_loop_fuel; lia.
Qed.

(** A string is valid UTF-8 when all its pieces are well-formed. *)
Lemma pieces_valid s :
  forallb is_byte s = true → forallb fst (pieces s) = utf8_valid s.
Proof.
  remember (length s) as n eqn:Hn. revert s Hn.
  induction (lt_wf n) as [n _ IH]. intros s -> Hb. destruct s as [|b s]; [done|].
  destruct (next_chunk b s) as [[ok g] rest] eqn:E. rewrite (pieces_cons _ _ _ _ _ E).
  destruct (next_chunk_app _ _ _ _ _ E) as [Es Hg].
  assert (length rest < length (b :: s))%nat as Hl by (rewrite Es, length_app; lia).
  cbn [forallb fst]. rewrite (IH _ Hl rest eq_refl (next_chunk_bytes _ _ _ _ _ E Hb)).
  destruct ok; cbn [andb].
  - simpl in Hb. apply andb_true_iff in Hb as [Hb _].
    destruct (next_chunk_group _ _ _ _ Hb E) as [Hgr ->]. by rewrite utf8_valid_app.
  - symmetry. apply not_true_is_false. intros Hv.
    destruct (utf8_valid_split _ Hv) as (g' & s' & Es' & Hg' & _); [done|].
    destruct (group_next_chunk g' s' Hg') as (b0 & s0 & Eb & Ec).
    rewrite <- Es' in Eb. injection Eb as <- <-. rewrite E in Ec. by injection Ec.
Qed.

Section whole.
  Context (h : error_handler_t) (ea : bool).

(** What is left to emit for [s], from a ready state: the loop's end gives the
    text of the pieces, or the strict handler throws. *)
Lemma dump_escaped_loop_spec s s0 fuel i st :
  forallb is_byte s = true → ready st → (2 * length s ≤ fuel)%nat →
  (st' ← dump_escaped_loop fuel h ea i s st; dump_escaped_end h ea s0 st') =
    Ret (emitted st ++ concat (map (piece_text h ea) (pieces s))) ∧
    (h = strict → forallb fst (pieces s) = true) ∨
  h = strict ∧ forallb fst (pieces s) = false ∧
    ∃ e, (st' ← dump_escaped_loop fuel h ea i s st; dump_escaped_end h ea s0 st') =
      Throw (type_error 316 e).
Proof.
  remember (length s) as n eqn:Hn. revert s Hn fuel i st.
  induction (lt_wf n) as [n _ IH]. intros s -> fuel i st Hb Hr Hf. destruct s as [|b s].
  { left. split; [|done]. destruct fuel; cbn [dump_escaped_loop mbind outcome_bind];
      unfold dump_escaped_end, UTF8_ACCEPT; destruct Hr as (-> & _); by rewrite app_nil_r. }
  destruct (next_chunk b s) as [[ok g] rest] eqn:E. rewrite (pieces_cons _ _ _ _ _ E).
  destruct (next_chunk_app _ _ _ _ _ E) as [Es Hg].
  assert (length (b :: s) = length g + length rest)%nat as Hl by (rewrite Es, length_app; lia).
  pose proof (next_chunk_bytes _ _ _ _ _ E Hb) as Hbr. cbn [map concat forallb fst].
  destruct ok.
  - destruct (chunk_ok h ea b s g rest (fuel - length g) i st Hr Hb E) as (st' & EL & Hr' & He).
    replace (length g + (fuel - length g))%nat with fuel in EL by lia. rewrite EL.
    destruct (IH (length rest) ltac:(lia) rest eq_refl (fuel - length g)%nat (i + length g)%nat st'
      Hbr Hr' ltac:(lia)) as [[-> Hs]|(Hh & Hp & e & ->)].
    + left. split; [|done]. rewrite He, <- app_assoc. done.
    + right. split; [done|]. split; [done|]. by exists e.
  - destruct (chunk_bad h ea b s g rest i st Hr Hb E) as (k & Hk & Hrun).
    specialize (Hrun (fuel - k)%nat). replace (k + (fuel - k))%nat with fuel in Hrun by lia.
    destruct Hrun as [(-> & st2 & -> & Hs2 & Ho & Ht)|[(Hh & e & ->)|(Hh & st' & -> & Hr' & He)]].
    + cbn [mbind outcome_bind]. unfold dump_escaped_end, UTF8_ACCEPT.
      assert ((es_state st2 =? 0) = false) as -> by lia. rewrite Ho, Ht.
      unfold piece_text, ill_formed_text, emitted. cbn [fst].
      destruct h; [right; split; [done|]; split; [done|]; by eexists|left..].
      * split; [|done]. rewrite bool_decide_eq_true_2 by done. simpl. by rewrite !app_nil_r, app_assoc.
      * split; [|done]. rewrite bool_decide_eq_false_2 by done. simpl. by rewrite !app_nil_r.
    + right. split; [done|]. split; [done|]. by exists e.
    + destruct (IH (length rest) ltac:(lia) rest eq_refl (fuel - k)%nat (i + length g)%nat st'
        Hbr Hr' ltac:(lia)) as [[-> Hs]|(Hh' & _)]; [|done].
      left. split; [|done]. rewrite He, <- app_assoc. done.
Qed.

Lemma init_ready out : ready (mk_esc 0 UTF8_ACCEPT [] 0 0 out).
Proof. repeat split; simpl; lia. Qed.

Lemma dump_escaped_pieces s out :
  forallb is_byte s = true →
  dump_escaped h ea s out = Ret (out ++ concat (map (piece_text h ea) (pieces s))) ∧
    (h = strict → utf8_valid s = true) ∨
  h = strict ∧ utf8_valid s = false ∧ ∃ e, dump_escaped h ea s out = Throw (type_error 316 e).
Proof.
  intros Hb. rewrite <- (pieces_valid s Hb). unfold dump_escaped.
  pose proof (dump_escaped_loop_spec s s (2 * length s) 0 _ Hb (init_ready out) ltac:(lia)) as H.
  unfold emitted in H. cbn [es_out es_buffer] in H. rewrite app_nil_r in H. exact H.
Qed.
End whole.

(** * The lexer reads the text back *)

Lemma hex_digit_nibble d : 0 ≤ d ≤ 15 → hex_digit (nibble_lower d) = Some d.
Proof.
  intros Hd. assert (d = 0 ∨ d = 1 ∨ d = 2 ∨ d = 3 ∨ d = 4 ∨ d = 5 ∨ d = 6 ∨ d = 7 ∨ d = 8 ∨
    d = 9 ∨ d = 10 ∨ d = 11 ∨ d = 12 ∨ d = 13 ∨ d = 14 ∨ d = 15) as H by lia.
  by destruct_or! H; subst.
Qed.

Lemma u_escape_hex4 z : 0 ≤ z ≤ 0xFFFF → ∃ x, u_escape z = 92 :: 117 :: x ∧ hex4 x z.
Proof.
  intros Hz. unfold u_escape, wrap_u. rewrite Z.mod_small by lia. eexists. split; [done|].
  unfold hex4. do 8 eexists. split; [done|].
  split; [apply hex_digit_nibble; Z.to_euclidean_division_equations; lia|].
  split; [apply hex_digit_nibble; Z.to_euclidean_division_equations; lia|].
  split; [apply hex_digit_nibble; Z.to_euclidean_division_equations; lia|].
  split; [apply hex_digit_nibble; Z.to_euclidean_division_equations; lia|].
  Z.to_euclidean_division_equations; lia.
Qed.

Lemma esc_text_unit ea g : utf8_group g = true → esc_unit (esc_text ea g) g.
Proof.
  intros Hg. pose proof (group_codepoint_scalar g Hg) as Hsc.
  pose proof (group_codepoint_bytes g Hg) as Eg. unfold esc_text.
  set (cp := group_codepoint g) in *.
  assert (0 ≤ cp ≤ 0x10FFFF) as Hcp by (unfold scalar, in_range in Hsc; lia).
  repeat (match goal with |- context [cp =? ?n] => destruct (Z.eqb_spec cp n) as [E|] end;
    [rewrite <- Eg, E; apply esc_simple; simpl; tauto|]).
  case_if.
  - destruct (Z.leb_spec cp 0xFFFF) as [Hle|Hgt].
    + destruct (u_escape_hex4 cp ltac:(lia)) as (x & -> & Hx). rewrite <- Eg. by apply esc_u.
    + assert (Z.shiftr cp 10 = cp / 1024 ∧ Z.land cp 0x3FF = cp mod 1024) as [-> ->].
      { split; [by rewrite Z.shiftr_div_pow2|]. by apply (Z.land_ones cp 10). }
      pose proof (Z.div_mod cp 1024 ltac:(lia)) as Ed.
      pose proof (Z.mod_pos_bound cp 1024 ltac:(lia)) as Hm.
      destruct (u_escape_hex4 (0xD7C0 + cp / 1024) ltac:(lia)) as (x & -> & Hx).
      destruct (u_escape_hex4 (0xDC00 + cp mod 1024) ltac:(lia)) as (y & -> & Hy).
      rewrite <- Eg.
      assert (cp = 0x10000 + (0xD7C0 + cp / 1024 - 0xD800) * 0x400 +
        (0xDC00 + cp mod 1024 - 0xDC00)) as E by lia.
      rewrite E. apply (esc_pair x y); [done|done|unfold in_range; lia|unfold in_range; lia].
  - destruct g as [|b [|b1 g]]; [done| |].
    + unfold cp in *. simpl in *. apply esc_plain; unfold in_range in *; lia.
    + apply esc_group; [done|simpl; lia].
Qed.

(** The text of a valid string, between quotes, denotes the string. *)
Lemma pieces_escapes ea s :
  utf8_valid s = true → escapes (concat (map (piece_text strict ea) (pieces s))) s.
Proof.
  revert s. apply utf8_valid_ind; [constructor|]. intros g s Hg Hs IH.
  destruct (group_next_chunk g s Hg) as (b & s' & Es & Ec).
  rewrite Es, (pieces_cons _ _ _ _ _ Ec), <- Es. cbn [map concat piece_text fst snd].
  constructor; [by apply esc_text_unit|done].
Qed.

(** The text of any string denotes its repaired form. *)
Definition repaired_piece (h : error_handler_t) (p : bool * cstring) : cstring :=
  if p.1 then p.2 else if bool_decide (h = replace) then [0xEF; 0xBF; 0xBD] else [].

Definition repaired (h : error_handler_t) (s : cstring) : cstring :=
  concat (map (repaired_piece h) (pieces s)).

Lemma replacement_unit ea : esc_unit (replacement ea) [0xEF; 0xBF; 0xBD].
Proof.
  destruct ea; [|apply esc_group; [done|simpl; lia]].
  assert (hex4 (str "fffd") 0xFFFD) as Hh by (by do 8 eexists).
  exact (esc_u _ _ Hh eq_refl).
Qed.

Lemma pieces_repaired h ea s :
  forallb is_byte s = true →
  escapes (concat (map (piece_text h ea) (pieces s))) (repaired h s) ∧
  utf8_valid (repaired h s) = true.
Proof.
  remember (length s) as n eqn:Hn. revert s Hn.
  induction (lt_wf n) as [n _ IH]. intros s -> Hb. destruct s as [|b s]; [split; [constructor|done]|].
  destruct (next_chunk b s) as [[ok g] rest] eqn:E. unfold repaired.
  rewrite (pieces_cons _ _ _ _ _ E). cbn [map concat].
  destruct (next_chunk_app _ _ _ _ _ E) as [Es Hg].
  assert (length rest < length (b :: s))%nat as Hl by (rewrite Es, length_app; lia).
  destruct (IH _ Hl rest eq_refl (next_chunk_bytes _ _ _ _ _ E Hb)) as [IH1 IH2].
  unfold piece_text at 1, repaired_piece at 1 3, ill_formed_text. cbn [fst snd].
  fold (repaired h rest). destruct ok.
  - simpl in Hb. apply andb_true_iff in Hb as [Hb _].
    destruct (next_chunk_group _ _ _ _ Hb E) as [Hgr _].
    split; [constructor; [by apply esc_text_unit|done]|]. by rewrite utf8_valid_app.
  - case_bool_decide; [|done].
    split; [constructor; [apply replacement_unit|done]|]. by rewrite utf8_valid_app.
Qed.
