(* ===== verification/JsonRoundTrip.v ===== *)
(** What [dump] writes is a JSON text, compact or indented, and [parse] reads
    the value back: numbers keep their value and type up to the sign class of
    integers, strings their bytes, objects their members. *)

From S2P Require Import Prelude Utf8 Double JsonValue JsonLexer JsonLexerFacts JsonTokens.
From S2P Require Import JsonNumbers JsonParser JsonParserFacts JsonHandlers JsonGrammar.
From S2P Require Import JsonToChars GrisuBounds GrisuDigits Grisu FloatText.
From S2P Require Import JsonSerializer JsonIntegerText JsonStringText.

(** * What is read back *)

(** The value [parse] builds from the text of [dump]: integers that are not
    negative come back unsigned, numbers that are not finite as null, binary
    values as objects, and strings repaired by the error handler. *)
Fixpoint canon (h : error_handler_t) (j : json) : json :=
  match j with
  | J_object m =>
      J_object (build_object (map (λ kv, (repaired h kv.1, canon h kv.2)) m) [])
  | J_array l => J_array (map (canon h) l)
  | J_string s => J_string (repaired h s)
  | J_number_integer z => if z <? 0 then J_number_integer z else J_number_unsigned z
  | J_number_float f => if isfinite f then J_number_float f else J_null
  | J_binary b subtype =>
      J_object [(str "bytes", J_array (map J_number_unsigned b));
                (str "subtype", match subtype with
                                | Some t => J_number_unsigned t
                                | None => J_null
                                end)]
  | _ => j
  end.

(** A node that can be written: no discarded value, and under the strict
    handler only valid UTF-8. *)
Definition node_dumpable (h : error_handler_t) (j : json) : bool :=
  match j with
  | J_discarded => false
  | J_string s => negb (bool_decide (h = strict)) || utf8_valid s
  | J_object m => negb (bool_decide (h = strict)) || forallb (λ kv, utf8_valid kv.1) m
  | _ => true
  end.

Definition dumpable (h : error_handler_t) (j : json) : bool := json_forall (node_dumpable h) j.

(** * Doubles of the format *)

Lemma valid_binary_finite f :
  valid_binary 53 1024 f = true → isfinite f = true → finite_double f.
Proof.
  destruct f as [| | |s m e]; try done. cbn [valid_binary finite_double]. intros Hb _.
  unfold bounded, canonical_mantissa, fexp, emin in Hb. apply andb_true_iff in Hb as [H1 H2].
  apply Z.eqb_eq in H1. apply Z.leb_le in H2. rewrite digits2_pos_log2 in H1.
  pose proof (Z.log2_spec (Zpos m) ltac:(lia)) as [Hl Hu]. pose proof (Z.log2_nonneg (Zpos m)).
  assert (Z.log2 (Zpos m) ≤ 52) as Hle by lia.
  pose proof (Z.pow_le_mono_r 2 (Z.succ (Z.log2 (Zpos m))) 53 ltac:(lia) ltac:(lia)).
  split; [lia|]. split; [lia|].
  destruct (Z.eq_dec e (-1074)); [by right|left].
  assert (Z.log2 (Zpos m) = 52) as E by lia. by rewrite E in Hl.
Qed.

(** Equality of texts up to association. *)
Ltac app_norm := repeat (rewrite <- !app_assoc || simpl); done.

(** * Steps of the output *)

Definition ser_ok (s : serializer) : Prop :=
  length (number_buffer s) = 64%nat ∧ (512 ≤ length (indent_string s))%nat ∧
  spaces (indent_string s).

(** [s'] is [s] with [t] written; the indentation string may have grown. *)
Definition emits (s s' : serializer) (t : cstring) : Prop :=
  o s' = o s ++ t ∧ ser_ok s' ∧ (length (indent_string s) ≤ length (indent_string s'))%nat.

Lemma emits_trans s1 s2 s3 t u : emits s1 s2 t → emits s2 s3 u → emits s1 s3 (t ++ u).
Proof.
  intros (E1 & _ & L1) (E2 & Hok & L2). split; [by rewrite E2, E1, app_assoc|].
  split; [done|lia].
Qed.

Lemma emits_ok s s' t : emits s s' t → ser_ok s'.
Proof. by intros (_ & ? & _). Qed.

Lemma emits_len s s' t :
  emits s s' t → (length (indent_string s) ≤ length (indent_string s'))%nat.
Proof. by intros (_ & _ & ?). Qed.

Lemma write_emits t s : ser_ok s → emits s (write t s) t.
Proof. by intros Hok. Qed.

Lemma write_integer_emits x s :
  ser_ok s → - 2 ^ 63 ≤ x < 2 ^ 64 →
  ∃ s', write_integer x s = Ret s' ∧ emits s s' (int_text x).
Proof.
  intros (Hnb & Hi & Hsp) Hx. unfold write_integer.
  destruct (dump_integer_ok x (number_buffer s) Hx Hnb) as (nb & -> & Hl).
  eexists. split; [done|]. by repeat split.
Qed.

Lemma int_text_number x :
  - 2 ^ 63 ≤ x < 2 ^ 64 →
  number_json (int_text x) = Some (if x <? 0 then J_number_integer x else J_number_unsigned x).
Proof.
  intros Hx. unfold int_text. destruct (Z.ltb_spec x 0).
  - apply number_json_negative; [unfold in_s; lia|done].
  - apply number_json_unsigned. unfold in_u. lia.
Qed.

Lemma write_float_emits f s :
  ser_ok s → valid_binary 53 1024 f = true →
  ∃ s' t, write_float f s = Ret s' ∧ emits s s' t ∧
    jtext (if isfinite f then J_number_float f else J_null) t.
Proof.
  intros Hok Hf. unfold write_float. destruct (isfinite f) eqn:Efin; cbn [negb].
  - destruct (to_chars_number f (valid_binary_finite f Hf Efin)) as (t & Et & Hl & Hn).
    destruct Hok as (Hnb & Hi & Hsp). rewrite Hnb, Et. cbn [mbind outcome_bind].
    eexists _, t. split; [done|]. split; [|by do 2 constructor].
    repeat split; simpl; try done. rewrite length_app, length_drop. lia.
  - eexists _, _. split; [done|]. split; [by apply write_emits|]. do 2 constructor.
Qed.

Lemma take_spaces n ws : spaces ws → spaces (take n ws).
Proof.
  unfold spaces. intros H. rewrite <- (take_drop n ws), forallb_app in H. by to_prop.
Qed.

Lemma write_indent_emits n s :
  ser_ok s → 0 ≤ n ≤ Z.of_nat (length (indent_string s)) →
  ∃ s' ws, write_indent n s = Ret s' ∧ emits s s' ws ∧ spaces ws.
Proof.
  intros Hok Hn. unfold write_indent.
  assert ((n <=? Z.of_nat (length (indent_string s)) + 1) = true) as -> by lia.
  rewrite take_app_le by lia. eexists _, _. split; [done|].
  split; [by apply write_emits|]. apply take_spaces. apply Hok.
Qed.

Lemma spaces_app a b : spaces a → spaces b → spaces (a ++ b).
Proof. unfold spaces. intros Ha Hb. by rewrite forallb_app, Ha, Hb. Qed.

(** The string grows enough for one more level of at most 512 characters. *)
Lemma grow_indent_ok cur step s :
  ser_ok s → 0 ≤ cur ≤ Z.of_nat (length (indent_string s)) → 0 ≤ step ≤ 512 →
  ser_ok (grow_indent (u32 (cur + step)) s) ∧ o (grow_indent (u32 (cur + step)) s) = o s ∧
  (length (indent_string s) ≤ length (indent_string (grow_indent (u32 (cur + step)) s)))%nat ∧
  0 ≤ u32 (cur + step) ≤ Z.of_nat (length (indent_string (grow_indent (u32 (cur + step)) s))).
Proof.
  intros (Hnb & Hi & Hsp) Hcur Hstep. unfold grow_indent.
  assert (0 ≤ u32 (cur + step) ≤ cur + step) as Hu.
  { unfold u32, wrap_u. split; [apply Z.mod_pos_bound; lia|apply Z.mod_le; lia]. }
  case_if; to_prop.
  - cbn [indent_string o number_buffer]. split.
    { repeat split; cbn [number_buffer indent_string]; [done|rewrite length_app; lia|].
      apply spaces_app; [done|]. unfold spaces. apply forallb_forall. intros c Hc.
      by apply repeat_spec in Hc as ->. }
    split; [done|]. rewrite length_app, repeat_length. lia.
  - split; [done|]. split; [done|]. lia.
Qed.

Section dump.
  Context (h : error_handler_t) (ea : bool).

Lemma write_escaped_emits k s :
  ser_ok s → forallb is_byte k = true → negb (bool_decide (h = strict)) || utf8_valid k = true →
  ∃ s' t, write_escaped h ea k s = Ret s' ∧ emits s s' t ∧ escapes t (repaired h k).
Proof.
  intros Hok Hb Hv. unfold write_escaped.
  destruct (dump_escaped_pieces h ea k (o s) Hb) as [[-> _]|(Hh & Hf & _)].
  - cbn [mbind outcome_bind]. eexists _, _. split; [done|]. split; [exact (write_emits _ s Hok)|].
    by apply pieces_repaired.
  - rewrite Hf, orb_false_r in Hv. rewrite bool_decide_eq_true_2 in Hv; done.
Qed.

Lemma write_key_emits pretty k s :
  ser_ok s → forallb is_byte k = true → negb (bool_decide (h = strict)) || utf8_valid k = true →
  ∃ s' kt, write_key h ea pretty k s = Ret s' ∧ escapes kt (repaired h k) ∧
    emits s s' (34 :: kt ++ 34 :: 58 :: (if pretty then [32] else [])).
Proof.
  intros Hok Hb Hv. unfold write_key.
  destruct (write_escaped_emits k (write [34] s) (emits_ok _ _ _ (write_emits _ _ Hok)) Hb Hv)
    as (s' & kt & -> & Hem & Hesc). cbn [mbind outcome_bind].
  eexists _, kt. split; [done|]. split; [done|].
  pose proof (emits_trans _ _ _ _ _ (write_emits [34] s Hok) Hem) as H1.
  pose proof (emits_trans _ _ _ _ _ H1
    (write_emits (if pretty then [34; 58; 32] else [34; 58]) s' (emits_ok _ _ _ Hem))) as H2.
  rewrite <- app_assoc in H2. by destruct pretty.
Qed.

(** * Containers *)

(** A value's writer: from any state with enough indentation it writes a text
    of the value. *)
Definition writes (dv : serializer → res serializer) (cur : Z) (j : json) : Prop :=
  ∀ s, ser_ok s → cur ≤ Z.of_nat (length (indent_string s)) →
  ∃ s' t, dv s = Ret s' ∧ emits s s' t ∧ jtext j t.

Lemma maybe_indent (pretty : bool) n s :
  ser_ok s → 0 ≤ n ≤ Z.of_nat (length (indent_string s)) →
  ∃ s' ws, (if pretty then write_indent n s else Ret s) = Ret s' ∧ emits s s' ws ∧ spaces ws.
Proof.
  intros Hok Hn. destruct pretty; [by apply write_indent_emits|].
  exists s, []. split; [done|]. split; [|done]. split; [by rewrite app_nil_r|]. done.
Qed.

Lemma separator_text pretty : ∃ nl, separator pretty = 44 :: nl ∧ spaces nl.
Proof. destruct pretty; [by exists [10]|by exists []]. Qed.

Lemma dump_elements_emits dv pretty n l js s :
  l ≠ [] → Forall2 (λ v j, writes (dv v) n j) l js →
  ser_ok s → 0 ≤ n ≤ Z.of_nat (length (indent_string s)) →
  ∃ s' t, dump_elements dv pretty n l s = Ret s' ∧ emits s s' t ∧
    ∀ ws0 ws1, spaces ws0 → spaces ws1 → jelems js (ws0 ++ t ++ ws1).
Proof.
  intros Hne HF. revert s. induction HF as [|v j l js Hv HF IH]; intros s Hok Hn; [done|].
  cbn [dump_elements].
  destruct (maybe_indent pretty n s Hok Hn) as (s1 & ind & -> & Hem1 & Hind). cbn [mbind outcome_bind].
  pose proof (emits_len _ _ _ Hem1).
  destruct (Hv s1 (emits_ok _ _ _ Hem1) ltac:(lia)) as (s2 & t & -> & Hem2 & Ht).
  cbn [mbind outcome_bind]. pose proof (emits_trans _ _ _ _ _ Hem1 Hem2) as Hem12.
  destruct l as [|v' l].
  - inversion HF; subst. exists s2, (ind ++ t). split; [done|]. split; [done|].
    intros ws0 ws1 Hs0 Hs1. rewrite <- app_assoc, app_assoc.
    constructor; [by apply spaces_app|done|done].
  - destruct (separator_text pretty) as (nl & Esep & Hnl). rewrite Esep.
    pose proof (write_emits (44 :: nl) s2 (emits_ok _ _ _ Hem2)) as Hem3.
    pose proof (emits_trans _ _ _ _ _ Hem12 Hem3) as Hem13. pose proof (emits_len _ _ _ Hem13).
    destruct (IH ltac:(done) (write (44 :: nl) s2) (emits_ok _ _ _ Hem3) ltac:(lia))
      as (s' & t' & -> & Hem4 & Hjs).
    exists s', ((ind ++ t) ++ (44 :: nl) ++ t'). split; [done|].
    split; [rewrite app_assoc; by eapply emits_trans|].
    intros ws0 ws1 Hs0 Hs1.
    replace (ws0 ++ ((ind ++ t) ++ (44 :: nl) ++ t') ++ ws1)
      with ((ws0 ++ ind) ++ t ++ [] ++ 44 :: (nl ++ t' ++ ws1))
      by app_norm.
    constructor; [by apply spaces_app|done|done|by apply Hjs].
Qed.

Lemma dump_members_emits dv pretty n m ms s :
  m ≠ [] →
  Forall2 (λ kv kj, writes (dv kv.2) n kj.2 ∧ kj.1 = repaired h kv.1 ∧
    forallb is_byte kv.1 = true ∧
    negb (bool_decide (h = strict)) || utf8_valid kv.1 = true) m ms →
  ser_ok s → 0 ≤ n ≤ Z.of_nat (length (indent_string s)) →
  ∃ s' t, dump_members h ea dv pretty n m s = Ret s' ∧ emits s s' t ∧
    ∀ ws0 ws1, spaces ws0 → spaces ws1 → jmembers ms (ws0 ++ t ++ ws1).
Proof.
  intros Hne HF. revert s.
  induction HF as [|[k v] [k' j] m ms (Hv & Ek & Hkb & Hkv) HF IH]; intros s Hok Hn; [done|].
  cbn [dump_members fst snd] in *.
  destruct (maybe_indent pretty n s Hok Hn) as (s1 & ind & -> & Hem1 & Hind). cbn [mbind outcome_bind].
  destruct (write_key_emits pretty k s1 (emits_ok _ _ _ Hem1) Hkb Hkv) as (s2 & kt & -> & Hesc & Hem2).
  cbn [mbind outcome_bind]. pose proof (emits_trans _ _ _ _ _ Hem1 Hem2) as Hem12.
  pose proof (emits_len _ _ _ Hem12).
  destruct (Hv s2 (emits_ok _ _ _ Hem2) ltac:(lia)) as (s3 & t & -> & Hem3 & Ht).
  cbn [mbind outcome_bind]. pose proof (emits_trans _ _ _ _ _ Hem12 Hem3) as Hem13.
  set (sp := if pretty then [32] else []) in *.
  assert (spaces sp) as Hsp by (unfold sp; by destruct pretty).
  rewrite <- Ek in Hesc. destruct m as [|kv m].
  - inversion HF; subst ms. eexists s3, _. split; [done|]. split; [exact Hem13|].
    intros ws0 ws1 Hs0 Hs1.
    replace (ws0 ++ ((ind ++ 34 :: kt ++ 34 :: 58 :: sp) ++ t) ++ ws1)
      with ((ws0 ++ ind) ++ 34 :: kt ++ 34 :: [] ++ 58 :: sp ++ t ++ ws1)
      by app_norm.
    constructor; try done. by apply spaces_app.
  - destruct (separator_text pretty) as (nl & Esep & Hnl). rewrite Esep.
    pose proof (write_emits (44 :: nl) s3 (emits_ok _ _ _ Hem3)) as Hem4.
    pose proof (emits_trans _ _ _ _ _ Hem13 Hem4) as Hem14. pose proof (emits_len _ _ _ Hem14).
    destruct (IH ltac:(done) (write (44 :: nl) s3) (emits_ok _ _ _ Hem4) ltac:(lia))
      as (s' & t' & -> & Hem5 & Hms).
    eexists s', _. split; [done|]. split; [by eapply emits_trans|].
    intros ws0 ws1 Hs0 Hs1.
    replace (ws0 ++ ((((ind ++ 34 :: kt ++ 34 :: 58 :: sp) ++ t) ++ 44 :: nl) ++ t') ++ ws1)
      with ((ws0 ++ ind) ++ 34 :: kt ++ 34 :: [] ++ 58 :: sp ++ t ++ [] ++ 44 :: (nl ++ t' ++ ws1))
      by app_norm.
    constructor; try done; [by apply spaces_app|by apply Hms].
Qed.

(** The brackets around the elements or members. *)
Lemma brackets_emit (Q : cstring → Prop) (pretty : bool) cur step c1 c2 body s :
  ser_ok s → 0 ≤ cur ≤ Z.of_nat (length (indent_string s)) → 0 ≤ step ≤ 512 →
  let n := if pretty then u32 (cur + step) else cur in
  (∀ s, ser_ok s → 0 ≤ n ≤ Z.of_nat (length (indent_string s)) →
     ∃ s' t, body s = Ret s' ∧ emits s s' t ∧ Q t) →
  ∃ s' t ws0 ws1, (s ← body (open_bracket pretty n c1 s); close_bracket pretty c2 cur s) = Ret s' ∧
    emits s s' (c1 :: (ws0 ++ t ++ ws1) ++ [c2]) ∧ spaces ws0 ∧ spaces ws1 ∧ Q t.
Proof.
  intros Hok Hcur Hstep n Hbody.
  assert (∃ ws0, emits s (open_bracket pretty n c1 s) (c1 :: ws0) ∧ spaces ws0 ∧
    0 ≤ n ≤ Z.of_nat (length (indent_string (open_bracket pretty n c1 s)))) as (ws0 & Hem0 & Hws0 & Hn).
  { unfold open_bracket, n. destruct pretty.
    - pose proof (write_emits [c1; 10] s Hok) as Hw.
      destruct (grow_indent_ok cur step (write [c1; 10] s) (emits_ok _ _ _ Hw) Hcur Hstep)
        as (Hg & Ho & Hl & Hu).
      exists [10]. split; [|split; [done|lia]]. split; [by rewrite Ho|]. split; [done|exact Hl].
    - exists []. split; [by apply write_emits|]. split; [done|]. exact Hcur. }
  destruct (Hbody _ (emits_ok _ _ _ Hem0) Hn) as (s2 & t & -> & Hem2 & HQ).
  pose proof (emits_trans _ _ _ _ _ Hem0 Hem2) as Hem02. pose proof (emits_len _ _ _ Hem02).
  cbn [mbind outcome_bind]. unfold close_bracket.
  assert (∃ s3 ws1, (if pretty then write_indent cur (write [10] s2) else Ret s2) = Ret s3 ∧
    emits s2 s3 ws1 ∧ spaces ws1) as (s3 & ws1 & -> & Hem3 & Hws1).
  { destruct pretty.
    - pose proof (write_emits [10] s2 (emits_ok _ _ _ Hem2)) as Hw.
      destruct (write_indent_emits cur (write [10] s2) (emits_ok _ _ _ Hw)) as (s3 & ws & -> & Hem & Hws);
        [cbn [write indent_string]; lia|].
      exists s3, ([10] ++ ws). split; [done|]. split; [by eapply emits_trans|]. by apply spaces_app.
    - exists s2, []. split; [done|]. split; [|done].
      split; [by rewrite app_nil_r|]. split; [by eapply emits_ok|done]. }
  cbn [mbind outcome_bind]. eexists _, t, ws0, ws1. split; [done|].
  split.
  { pose proof (emits_trans _ _ _ _ _ (emits_trans _ _ _ _ _ Hem02 Hem3)
      (write_emits [c2] s3 (emits_ok _ _ _ Hem3))) as Hall.
    replace (c1 :: (ws0 ++ t ++ ws1) ++ [c2]) with ((((c1 :: ws0) ++ t) ++ ws1) ++ [c2])
      by app_norm. exact Hall. }
  done.
Qed.

(** * Binary values *)

Lemma write_bytes_elements b bs ws s :
  forallb is_byte (b :: bs) = true → spaces ws → ser_ok s →
  ∃ s' t, write_bytes (44 :: ws) (b :: bs) s = Ret s' ∧ emits s s' t ∧
    ∀ ws0, spaces ws0 → jelems (map J_number_unsigned (b :: bs)) (ws0 ++ t).
Proof.
  intros Hb Hws. revert b s Hb. induction bs as [|b' bs IH]; intros b s Hb Hok;
    cbn [write_bytes map forallb] in *; apply andb_true_iff in Hb as [Hb Hbs];
    (assert (0 ≤ b < 256) as Hr by (unfold is_byte in Hb; lia));
    destruct (write_integer_emits b s Hok ltac:(lia)) as (s1 & -> & Hem); cbn [mbind outcome_bind];
    pose proof (int_text_number b ltac:(lia)) as Hn;
    (assert ((b <? 0) = false) as Hneg by lia); rewrite Hneg in Hn.
  - exists s1, (int_text b). split; [done|]. split; [done|]. intros ws0 Hws0.
    rewrite <- (app_nil_r (int_text b)). constructor; [done|by do 2 constructor|done].
  - pose proof (write_emits (44 :: ws) s1 (emits_ok _ _ _ Hem)) as Hem2.
    destruct (IH b' (write (44 :: ws) s1) Hbs (emits_ok _ _ _ Hem2)) as (s' & t & -> & Hem3 & Hj).
    eexists s', _. split; [done|].
    split; [by eapply emits_trans; [eapply emits_trans|]|]. intros ws0 Hws0.
    replace (ws0 ++ (int_text b ++ 44 :: ws) ++ t) with (ws0 ++ int_text b ++ [] ++ 44 :: ws ++ t)
      by app_norm.
    constructor; [done|by do 2 constructor|done|by apply Hj].
Qed.

Lemma write_bytes_emits ws b s :
  forallb is_byte b = true → spaces ws → ser_ok s →
  ∃ s' t, write_bytes (44 :: ws) b s = Ret s' ∧ emits s s' t ∧
    jtext (J_array (map J_number_unsigned b)) (91 :: t ++ [93]).
Proof.
  intros Hb Hws Hok. destruct b as [|b bs].
  - exists s, []. split; [done|]. split; [by split; [rewrite app_nil_r|]|].
    by apply (jt_array_empty []).
  - destruct (write_bytes_elements b bs ws s Hb Hws Hok) as (s' & t & E & Hem & Hj).
    exists s', t. split; [done|]. split; [done|]. apply jt_array. by apply (Hj []).
Qed.

Definition subtype_json (subtype : option Z) : json :=
  match subtype with Some t => J_number_unsigned t | None => J_null end.

Lemma write_subtype_emits subtype s :
  match subtype with Some t => in_u 64 t | None => true end = true → ser_ok s →
  ∃ s' t, write_subtype subtype s = Ret s' ∧ emits s s' t ∧ jtext (subtype_json subtype) t.
Proof.
  intros Hs Hok. destruct subtype as [t|]; cbn [write_subtype subtype_json].
  - unfold in_u in Hs. to_prop.
    destruct (write_integer_emits t s Hok ltac:(lia)) as (s' & -> & Hem).
    exists s', (int_text t). split; [done|]. split; [done|]. do 2 constructor.
    rewrite int_text_number by lia. by assert ((t <? 0) = false) as -> by lia.
  - eexists _, _. split; [done|]. split; [by apply write_emits|]. do 2 constructor.
Qed.

Lemma plain_escapes s :
  forallb (λ c, in_range 0x20 0x7F c && negb (c =? 34) && negb (c =? 92)) s = true → escapes s s.
Proof.
  induction s as [|c s IH]; cbn [forallb]; [constructor|]. intros [Hc Hs]%andb_true_iff. to_prop.
  apply (escapes_app [c] [c]); [|auto]. constructor; [done|lia..].
Qed.

(** The members of a binary value's object. *)
Lemma binary_text b subtype ws0 ws1 ws2 ws3 ws4 tb ts :
  spaces ws0 → spaces ws1 → spaces ws2 → spaces ws3 → spaces ws4 →
  jtext (J_array (map J_number_unsigned b)) (91 :: tb ++ [93]) → jtext (subtype_json subtype) ts →
  jtext (canon h (J_binary b subtype))
    (123 :: (ws0 ++ 34 :: str "bytes" ++ 34 :: [] ++ 58 :: ws1 ++ (91 :: tb ++ [93]) ++ [] ++ 44 ::
       (ws2 ++ 34 :: str "subtype" ++ 34 :: [] ++ 58 :: ws3 ++ ts ++ ws4)) ++ [125]).
Proof.
  intros H0 H1 H2 H3 H4 Hb Hs.
  change (canon h (J_binary b subtype)) with
    (J_object (build_object [(str "bytes", J_array (map J_number_unsigned b));
                             (str "subtype", subtype_json subtype)] [])).
  apply jt_object. constructor; try done; [by apply plain_escapes|].
  constructor; try done. by apply plain_escapes.
Qed.

Lemma dump_binary_writes pretty step cur b subtype :
  0 ≤ step ≤ 512 → 0 ≤ cur → node_wf (J_binary b subtype) = true →
  writes (dump_binary pretty step cur b subtype) cur (canon h (J_binary b subtype)).
Proof.
  intros Hstep Hcur Hwf s Hok Hlen. cbn [node_wf] in Hwf. apply andb_true_iff in Hwf as [Hb Hs].
  unfold dump_binary. destruct pretty.
  - pose proof (write_emits [123; 10] s Hok) as E0.
    destruct (grow_indent_ok cur step (write [123; 10] s) (emits_ok _ _ _ E0) ltac:(simpl; lia) Hstep)
      as (Hg & Ho & Hl & Hu).
    set (s0 := grow_indent (u32 (cur + step)) (write [123; 10] s)) in *.
    assert (emits s s0 [123; 10]) as E1 by (split; [by rewrite Ho|done]).
    destruct (write_indent_emits (u32 (cur + step)) s0 Hg ltac:(lia)) as (s1 & i1 & -> & E2 & Hi1).
    cbn [mbind outcome_bind].
    pose proof (write_emits ([34] ++ str "bytes" ++ [34; 58; 32; 91]) s1 (emits_ok _ _ _ E2)) as E3.
    destruct (write_bytes_emits [32] b _ Hb eq_refl (emits_ok _ _ _ E3)) as (s2 & tb & -> & E4 & Hjb).
    cbn [mbind outcome_bind].
    pose proof (write_emits [93; 44; 10] s2 (emits_ok _ _ _ E4)) as E5.
    pose proof (emits_len _ _ _ E2). pose proof (emits_len _ _ _ E4).
    destruct (write_indent_emits (u32 (cur + step)) (write [93; 44; 10] s2) (emits_ok _ _ _ E5))
      as (s3 & i2 & -> & E6 & Hi2); [simpl in *; lia|]. cbn [mbind outcome_bind].
    pose proof (write_emits ([34] ++ str "subtype" ++ [34; 58; 32]) s3 (emits_ok _ _ _ E6)) as E7.
    destruct (write_subtype_emits subtype _ Hs (emits_ok _ _ _ E7)) as (s4 & ts & -> & E8 & Hjs).
    cbn [mbind outcome_bind].
    pose proof (write_emits [10] s4 (emits_ok _ _ _ E8)) as E9.
    pose proof (emits_len _ _ _ E1). pose proof (emits_len _ _ _ E6). pose proof (emits_len _ _ _ E8).
    destruct (write_indent_emits cur (write [10] s4) (emits_ok _ _ _ E9))
      as (s5 & i3 & -> & E10 & Hi3); [simpl in *; lia|]. cbn [mbind outcome_bind].
    pose proof (write_emits [125] s5 (emits_ok _ _ _ E10)) as E11.
    eexists _, _. split; [done|]. split.
    { eapply emits_trans; [|exact E11]. eapply emits_trans; [|exact E10].
      eapply emits_trans; [|exact E9]. eapply emits_trans; [|exact E8].
      eapply emits_trans; [|exact E7]. eapply emits_trans; [|exact E6].
      eapply emits_trans; [|exact E5]. eapply emits_trans; [|exact E4].
      eapply emits_trans; [|exact E3]. eapply emits_trans; [exact E1|exact E2]. }
    match goal with |- jtext _ ?t => replace t with
      (123 :: (([10] ++ i1) ++ 34 :: str "bytes" ++ 34 :: [] ++ 58 :: [32] ++ (91 :: tb ++ [93]) ++ [] ++
         44 :: (([10] ++ i2) ++ 34 :: str "subtype" ++ 34 :: [] ++ 58 :: [32] ++ ts ++ ([10] ++ i3)))
         ++ [125]) by app_norm end.
    apply binary_text; try done; by apply spaces_app.
  - pose proof (write_emits ([123; 34] ++ str "bytes" ++ [34; 58; 91]) s Hok) as E1.
    destruct (write_bytes_emits [] b _ Hb eq_refl (emits_ok _ _ _ E1)) as (s2 & tb & -> & E2 & Hjb).
    cbn [mbind outcome_bind].
    pose proof (write_emits ([93; 44; 34] ++ str "subtype" ++ [34; 58]) s2 (emits_ok _ _ _ E2)) as E3.
    destruct (write_subtype_emits subtype _ Hs (emits_ok _ _ _ E3)) as (s4 & ts & -> & E4 & Hjs).
    cbn [mbind outcome_bind]. pose proof (write_emits [125] s4 (emits_ok _ _ _ E4)) as E5.
    eexists _, _. split; [done|]. split.
    { eapply emits_trans; [|exact E5]. eapply emits_trans; [|exact E4].
      eapply emits_trans; [|exact E3]. eapply emits_trans; [exact E1|exact E2]. }
    match goal with |- jtext _ ?t => replace t with
      (123 :: ([] ++ 34 :: str "bytes" ++ 34 :: [] ++ 58 :: [] ++ (91 :: tb ++ [93]) ++ [] ++
         44 :: ([] ++ 34 :: str "subtype" ++ 34 :: [] ++ 58 :: [] ++ ts ++ [])) ++ [125]) by app_norm end.
    by apply binary_text.
Qed.

(** * Values *)

Lemma json_forall_node p j : json_forall p j = true → p j = true.
Proof. destruct j; cbn [json_forall]; intros [? _]%andb_true_iff; done. Qed.

Lemma dump_writes pretty step j :
  0 ≤ step ≤ 512 → json_wf j = true → dumpable h j = true →
  ∀ cur, 0 ≤ cur → writes (dump h ea pretty step j cur) cur (canon h j).
Proof.
  intros Hstep. unfold json_wf, dumpable.
  induction j as [|m IH|l IH|s|b|z|z|f|b st|] using json_rect_nested; intros Hwf Hd cur Hcur;
    pose proof (json_forall_node _ _ Hwf) as Hn; pose proof (json_forall_node _ _ Hd) as Hdn;
    cbn [node_wf node_dumpable] in Hn, Hdn.
  - intros s Hok _. eexists _, _. split; [done|]. split; [by apply write_emits|]. do 2 constructor.
  - intros s Hok Hlen. destruct m as [|kv m].
    { eexists _, _. split; [done|]. split; [by apply write_emits|]. by apply (jt_object_empty []). }
    cbn [json_forall] in Hwf, Hd. apply andb_true_iff in Hwf as [_ Hwf], Hd as [_ Hd], Hn as [_ Hkb].
    set (n := if pretty then u32 (cur + step) else cur).
    set (ms := map (λ kv, (repaired h kv.1, canon h kv.2)) (kv :: m)).
    assert (0 ≤ n) as Hn0.
    { unfold n, u32, wrap_u. destruct pretty; [|lia]. apply Z.mod_pos_bound. lia. }
    assert (Forall2 (λ kv kj, writes (dump h ea pretty step kv.2 n) n kj.2 ∧ kj.1 = repaired h kv.1 ∧
      forallb is_byte kv.1 = true ∧
      negb (bool_decide (h = strict)) || utf8_valid kv.1 = true) (kv :: m) ms) as HF.
    { unfold ms. clear Hlen ms. revert IH Hwf Hd Hkb Hdn. generalize (kv :: m). clear kv m.
      induction 1 as [|kv m Hkv _ IHm]; [constructor|]. cbn [forallb map].
      intros [Hw1 Hw2]%andb_true_iff [Hd1 Hd2]%andb_true_iff [Hk1 Hk2]%andb_true_iff Hdn.
      constructor; [|apply IHm; try done].
      - split; [by apply Hkv|]. split; [done|]. split; [done|].
        destruct (negb _); [done|]. cbn [orb] in *. by to_prop.
      - destruct (negb _); [done|]. cbn [orb] in *. by to_prop. }
    destruct (brackets_emit (λ t, ∀ ws0 ws1, spaces ws0 → spaces ws1 → jmembers ms (ws0 ++ t ++ ws1))
      pretty cur step 123 125
      (dump_members h ea (λ v, dump h ea pretty step v n) pretty n (kv :: m)) s Hok
      ltac:(lia) Hstep) as (s' & t & ws0 & ws1 & E & Hem & Hw0 & Hw1 & HQ).
    { fold n. intros s0 Hok0 Hn. by apply dump_members_emits. }
    fold n in E. eexists s', _. split; [exact E|]. split; [exact Hem|].
    apply jt_object. by apply HQ.
  - intros s Hok Hlen. destruct l as [|v l].
    { eexists _, _. split; [done|]. split; [by apply write_emits|]. by apply (jt_array_empty []). }
    cbn [json_forall] in Hwf, Hd. apply andb_true_iff in Hwf as [_ Hwf], Hd as [_ Hd].
    set (n := if pretty then u32 (cur + step) else cur).
    assert (0 ≤ n) as Hn0.
    { unfold n, u32, wrap_u. destruct pretty; [|lia]. apply Z.mod_pos_bound. lia. }
    assert (Forall2 (λ v j, writes (dump h ea pretty step v n) n j) (v :: l) (map (canon h) (v :: l)))
      as HF.
    { clear Hlen. revert IH Hwf Hd. generalize (v :: l). clear v l.
      induction 1 as [|v l Hv _ IHl]; [constructor|]. cbn [forallb map].
      intros [Hw1 Hw2]%andb_true_iff [Hd1 Hd2]%andb_true_iff. constructor; auto. }
    destruct (brackets_emit
      (λ t, ∀ ws0 ws1, spaces ws0 → spaces ws1 → jelems (map (canon h) (v :: l)) (ws0 ++ t ++ ws1))
      pretty cur step 91 93
      (dump_elements (λ v, dump h ea pretty step v n) pretty n (v :: l)) s Hok
      ltac:(lia) Hstep) as (s' & t & ws0 & ws1 & E & Hem & Hw0 & Hw1 & HQ).
    { fold n. intros s0 Hok0 Hn'. by apply dump_elements_emits. }
    fold n in E. eexists s', _. split; [exact E|]. split; [exact Hem|].
    apply jt_array. by apply HQ.
  - intros s0 Hok _. cbn [dump].
    pose proof (write_emits [34] s0 Hok) as E1.
    destruct (write_escaped_emits s _ (emits_ok _ _ _ E1) Hn Hdn) as (s1 & t & -> & E2 & Ht).
    cbn [mbind outcome_bind]. pose proof (write_emits [34] s1 (emits_ok _ _ _ E2)) as E3.
    eexists _, _. split; [done|]. split; [by eapply emits_trans; [eapply emits_trans|]|].
    constructor. by constructor.
  - intros s Hok _. destruct b; (eexists _, _; split; [done|]; split; [by apply write_emits|]);
      do 2 constructor.
  - intros s Hok _. unfold in_s in Hn. cbn [dump canon].
    destruct (write_integer_emits z s Hok ltac:(lia)) as (s' & -> & Hem).
    eexists _, _. split; [done|]. split; [done|]. do 2 constructor. apply int_text_number. lia.
  - intros s Hok _. unfold in_u in Hn. cbn [dump canon].
    destruct (write_integer_emits z s Hok ltac:(lia)) as (s' & -> & Hem).
    eexists _, _. split; [done|]. split; [done|]. do 2 constructor.
    rewrite int_text_number by lia. by assert ((z <? 0) = false) as -> by lia.
  - intros s Hok _. by apply write_float_emits.
  - by apply dump_binary_writes.
  - done.
Qed.
End dump.

(** * Reading back what was written *)

Lemma init_ser_ok c : is_space c = true → ser_ok (init_serializer c).
Proof.
  intros Hc. split; [done|]. split; [cbn [init_serializer indent_string]; by rewrite repeat_length|].
  unfold spaces. apply forallb_forall. intros x Hx. by apply repeat_spec in Hx as ->.
Qed.

Lemma json_dump_text h ea indent c j :
  indent ≤ 512 → is_space c = true → json_wf j = true → dumpable h j = true →
  ∃ t, json_dump indent c ea h j = Ret t ∧ jtext (canon h j) t.
Proof.
  intros Hind Hc Hwf Hd. unfold json_dump. pose proof (init_ser_ok c Hc) as Hok.
  destruct (Z.leb_spec 0 indent).
  - assert (u32 indent = indent) as Eu by (apply Z.mod_small; lia). rewrite Eu.
    destruct (dump_writes h ea true indent j ltac:(lia) Hwf Hd 0 ltac:(lia) _ Hok ltac:(simpl; lia))
      as (s' & t & -> & (Ho & _) & Ht).
    cbn [mbind outcome_bind]. rewrite Ho. eauto.
  - destruct (dump_writes h ea false 0 j ltac:(lia) Hwf Hd 0 ltac:(lia) _ Hok ltac:(simpl; lia))
      as (s' & t & -> & (Ho & _) & Ht).
    cbn [mbind outcome_bind]. rewrite Ho. eauto.
Qed.

(** * The value read back equals the value written *)

Lemma repaired_valid h s : utf8_valid s = true → repaired h s = s.
Proof.
  revert s. apply utf8_valid_ind; [done|]. intros g s Hg Hs IH.
  destruct (group_next_chunk g s Hg) as (b & s' & Es & Ec). unfold repaired in *.
  rewrite Es, (pieces_cons _ _ _ _ _ Ec), <- Es. cbn [map concat]. by rewrite IH.
Qed.

(** Storing members in key order keeps them. *)
Lemma build_object_sorted ms m :
  keys_sorted (m ++ ms) = true → build_object ms m = m ++ ms.
Proof.
  revert m. induction ms as [|[k v] ms IH]; intros m Hs; [by rewrite app_nil_r|].
  change (build_object ((k, v) :: ms) m) with (build_object ms (obj_set k v m)).
  assert (forallb (λ kv, cs_ltb kv.1 k) m = true) as Hk.
  { clear IH. induction m as [|[k1 v1] m IHm]; [done|]. cbn [app keys_sorted forallb fst] in *.
    apply andb_true_iff in Hs as [H1 H2]. rewrite IHm by done.
    rewrite forallb_app in H1. cbn [forallb fst] in H1. to_prop. by rewrite H0. }
  rewrite obj_set_snoc by done. rewrite IH by (by rewrite <- app_assoc). by rewrite <- app_assoc.
Qed.

(** Values that JSON text can represent. *)
Definition node_textual (j : json) : bool :=
  match j with
  | J_number_float f => isfinite f
  | J_binary _ _ | J_discarded => false
  | _ => true
  end.

Lemma keys_sorted_map (f : json → json) m :
  keys_sorted (map (λ kv, (kv.1, f kv.2)) m) = keys_sorted m.
Proof.
  induction m as [|[k v] m IH]; [done|]. cbn [map keys_sorted fst snd]. rewrite IH. f_equal.
  clear IH. induction m as [|[k1 v1] m IHm]; [done|]. cbn [map forallb fst snd]. by rewrite IHm.
Qed.

Lemma json_eqb_canon j :
  json_wf j = true → dumpable strict j = true → json_forall node_textual j = true →
  json_eqb (canon strict j) j = true.
Proof.
  unfold json_wf, dumpable.
  induction j as [|m IH|l IH|s|b|z|z|f|b st|] using json_rect_nested; intros Hwf Hd Ht;
    pose proof (json_forall_node _ _ Hwf) as Hn; pose proof (json_forall_node _ _ Hd) as Hdn;
    pose proof (json_forall_node _ _ Ht) as Htn;
    cbn [node_wf node_dumpable node_textual] in Hn, Hdn, Htn; try done.
  - cbn [json_forall] in Hwf, Hd, Ht. apply andb_true_iff in Hwf as [_ Hwf], Hd as [_ Hd],
      Ht as [_ Ht], Hn as [Hsorted _]. cbn [bool_decide] in Hdn.
    cbn [canon].
    assert (map (λ kv, (repaired strict kv.1, canon strict kv.2)) m =
      map (λ kv, (kv.1, canon strict kv.2)) m) as ->.
    { apply map_ext_in. intros [k v] Hin. rewrite repaired_valid; [done|].
      simpl in Hdn. rewrite forallb_forall in Hdn. by apply (Hdn (k, v)). }
    rewrite build_object_sorted by (cbn [app]; by rewrite (keys_sorted_map (canon strict))). cbn [app].
    clear Hsorted Hdn. induction IH as [|[k v] m Hv Hm IHm]; [done|].
    cbn [map forallb fst snd] in *. to_prop. cbn [json_eqb] in *.
    rewrite cs_eqb_refl, Hv by done. by apply IHm.
  - cbn [json_forall] in Hwf, Hd, Ht. apply andb_true_iff in Hwf as [_ Hwf], Hd as [_ Hd], Ht as [_ Ht].
    cbn [canon]. induction IH as [|v l Hv Hl IHl]; [done|].
    cbn [map forallb] in *. to_prop. cbn [json_eqb] in *. rewrite Hv by done. by apply IHl.
  - cbn [canon json_eqb]. rewrite repaired_valid; [by rewrite cs_eqb_refl|]. by simpl in Hdn.
  - cbn [canon json_eqb]. by destruct b.
  - cbn [canon]. unfold in_s in Hn. destruct (Z.ltb_spec z 0); cbn [json_eqb]; [by rewrite Z.eqb_refl|].
    rewrite wrap_s_small; [by rewrite Z.eqb_refl|lia|unfold in_s; lia].
  - cbn [canon json_eqb]. by rewrite Z.eqb_refl.
  - cbn [canon]. rewrite Htn. cbn [json_eqb]. unfold SFeqb. rewrite SFcompare_refl; [done|].
    by destruct f.
Qed.
