(* ===== verification/JsonTyping.v ===== *)
(** What [parse] returns is well typed: integers fit their 64 bits, doubles
    are doubles of the format, strings and keys are valid UTF-8, and the keys
    of every object are sorted.  The proof goes from the lexer, whose token
    buffer and numbers are so typed when the token is a string or a number,
    through the parser, which passes them to the SAX handler, to the DOM
    builder, which only stores what it is given.  It is partial: that a result
    exists is [JsonParserFacts]. *)

From S2P Require Import Prelude Utf8 Double JsonValue JsonLexer JsonLexerFacts JsonTokens.
From S2P Require Import JsonNumbers JsonParser JsonStored JsonParserFacts JsonHandlers JsonGrammar.
From S2P Require Import JsonSerializer.
From S2P Require Import JsonToChars JsonStringText JsonRoundTrip.

(** * Doubles *)

Lemma canonical_valid neg f e : canonical (Zpos f) e → valid_binary 53 1024 (S754_finite neg f e) = true.
Proof.
  intros (Hf & He & Hc). cbn [valid_binary]. unfold bounded, canonical_mantissa, fexp, emin.
  rewrite digits2_pos_log2. apply andb_true_iff. split; [|lia]. apply Z.eqb_eq.
  assert (Z.log2 (Zpos f) < 53) by (apply Z.log2_lt_pow2; lia).
  destruct Hc as [Hc|Hc]; [|lia].
  assert (52 ≤ Z.log2 (Zpos f)) by (apply Z.log2_le_pow2; lia). lia.
Qed.

(** The significand before it is renormalised. *)
Lemma round_ratio_significand N D :
  0 < N → 0 < D →
  let E := Z.max (ratio_log2 N D - 52) (-1074) in
  let q := round_half_even (N * 2 ^ Z.max 0 (- E)) (D * 2 ^ Z.max 0 E) in
  0 ≤ q ≤ 2 ^ 53 ∧ (-1074 < E → 2 ^ 52 ≤ q).
Proof.
  intros HN HD E q. pose proof (Z.log2_nonneg N) as HlN. pose proof (Z.log2_nonneg D) as HlD.
  set (s := Z.log2 N + Z.log2 D + 1 + 1100).
  pose proof (ratio_log2_spec N D s HN HD ltac:(lia)) as (Hsk & Hk1 & Hk2).
  set (k := ratio_log2 N D) in *. assert (E = Z.max (k - 52) (-1074)) as HE by done.
  assert (0 ≤ s + E) as HsE by lia.
  pose proof (pow2_pos (Z.max 0 E) ltac:(lia)) as HpE.
  assert (N * 2 ^ Z.max 0 (- E) ≤ 2 ^ 53 * (D * 2 ^ Z.max 0 E)) as Hhi.
  { apply Z.lt_le_incl. rewrite Z.mul_assoc. apply (scaled_gt s E); [lia..|].
    eapply Z.lt_le_trans; [exact Hk2|].
    rewrite (Z.mul_comm (2 ^ 53)), <- Z.mul_assoc, <- pow2_split by lia.
    apply Z.mul_le_mono_nonneg_l; [lia|]. apply Z.pow_le_mono_r; lia. }
  split.
  - pose proof (round_half_even_bounds (N * 2 ^ Z.max 0 (- E)) (D * 2 ^ Z.max 0 E) 0 (2 ^ 53)).
    pose proof (pow2_pos (Z.max 0 (- E)) ltac:(lia)). nia.
  - intros HE'. apply (round_half_even_bounds _ _ (2 ^ 52) (2 ^ 53)); [nia| |exact Hhi].
    apply Z.nlt_ge. rewrite Z.mul_assoc. rewrite (scaled_gt s E) by lia. apply Z.nlt_ge.
    etrans; [|exact Hk1]. rewrite (Z.mul_comm (2 ^ 52)), <- Z.mul_assoc, <- pow2_split by lia.
    apply Z.mul_le_mono_nonneg_l; [lia|]. apply Z.pow_le_mono_r; lia.
Qed.

Lemma round_ratio_valid neg N D :
  0 < N → 0 < D → valid_binary 53 1024 (round_ratio neg N D) = true.
Proof.
  intros HN HD. pose proof (round_ratio_significand N D HN HD) as [Hq Hl]. unfold round_ratio.
  set (E := Z.max (ratio_log2 N D - 52) (-1074)) in *. set (q := round_half_even _ _) in *.
  destruct (Z.eqb_spec q (2 ^ 53)) as [Eq|Eq].
  - change (2 ^ 52) with (Zpos 4503599627370496) in *. cbv iota beta.
    destruct (Z.ltb_spec 971 (E + 1)); [done|].
    apply canonical_valid. unfold canonical. lia.
  - destruct q as [|f|f] eqn:Ef; [done| |lia]. destruct (Z.ltb_spec 971 E); [done|].
    apply canonical_valid. unfold canonical. lia.
Qed.

Lemma nearest_double_valid neg m e : valid_binary 53 1024 (nearest_double neg m e) = true.
Proof.
  unfold nearest_double. destruct m as [|m|m]; [done| |done].
  destruct (Z.leb_spec 0 e); apply round_ratio_valid; lia.
Qed.

(** * Tokens *)

(** The token buffer of a string in the making. *)
Definition buf_ok (lx : lexer) : Prop :=
  utf8_valid (token_buffer lx) = true ∧ decimal_point_position lx = None.

(** What a token carries. *)
Definition token_ok (t : token_type.t) (lx : lexer) : Prop :=
  match t with
  | token_type.value_string => utf8_valid (get_string lx) = true
  | token_type.value_integer => in_s 64 (value_integer lx) = true
  | token_type.value_unsigned => in_u 64 (value_unsigned lx) = true
  | token_type.value_float => valid_binary 53 1024 (value_float lx) = true
  | _ => True
  end.

Lemma utf8_valid_snoc a g : utf8_valid a = true → utf8_group g = true → utf8_valid (a ++ g) = true.
Proof.
  intros Ha Hg. revert a Ha. apply utf8_valid_ind.
  - rewrite <- (app_nil_r ([] ++ g)). by rewrite utf8_valid_app.
  - intros g' s Hg' Hs IH. by rewrite <- app_assoc, utf8_valid_app.
Qed.

(** Reading does not touch the token buffer. *)
Lemma get_buffer lx :
  token_buffer (get lx).2 = token_buffer lx ∧
  decimal_point_position (get lx).2 = decimal_point_position lx.
Proof. unfold get. by destruct (if next_unget lx then _ else _). Qed.

Lemma get_same lx c lx' :
  get lx = (c, lx') →
  token_buffer lx' = token_buffer lx ∧ decimal_point_position lx' = decimal_point_position lx.
Proof. intros E. pose proof (get_buffer lx) as H. by rewrite E in H. Qed.

Lemma get_buf_ok lx c lx' : get lx = (c, lx') → buf_ok lx → buf_ok lx'.
Proof. intros [E1 E2]%get_same. unfold buf_ok. by rewrite E1, E2. Qed.

Lemma get_codepoint_loop_buffer fs cp lx :
  buf_ok lx → ensures (get_codepoint_loop fs cp lx) (λ r, buf_ok r.2).
Proof.
  revert cp lx. induction fs as [|f fs IH]; intros cp lx H; cbn [get_codepoint_loop].
  { by apply ensures_assert. }
  destruct (get lx) as [c lx'] eqn:E. apply (get_buf_ok _ _ _ E) in H. case_match; auto.
Qed.

(** A round of the string loop keeps the buffer valid, or ends the token. *)
Definition step_typed (s : step) : Prop :=
  match s with
  | Go lx => buf_ok lx
  | Stop token_type.value_string lx => buf_ok lx
  | Stop t _ => t = token_type.parse_error
  end.

Lemma loop_typed fuel body lx :
  (∀ lx, buf_ok lx → ensures (body lx) step_typed) → buf_ok lx →
  ensures (loop fuel body lx) (λ r, step_typed (Stop r.1 r.2)).
Proof.
  intros Hbody. revert lx. induction fuel as [|fuel IH]; intros lx H; cbn [loop]; [done|].
  eapply ensures_bind; [by apply Hbody|]. intros [lx'|t lx'] Hs; [by apply IH|done].
Qed.

Lemma add_all_buffer bs lx :
  forallb is_byte bs = true →
  token_buffer (add_all lx bs) = token_buffer lx ++ bs ∧
  decimal_point_position (add_all lx bs) = decimal_point_position lx.
Proof.
  revert lx. induction bs as [|b bs IH]; intros lx; cbn [add_all forallb].
  - by rewrite app_nil_r.
  - intros [Hb Hbs]%andb_true_iff. destruct (IH (add lx b) Hbs) as [-> ->].
    cbn [add set_buffer token_buffer decimal_point_position].
    by rewrite <- app_assoc, wrap_byte.
Qed.

Lemma add_all_buf_ok g lx : utf8_group g = true → buf_ok lx → buf_ok (add_all lx g).
Proof.
  intros Hg [Hv Hd]. destruct (add_all_buffer g lx (utf8_group_bytes g Hg)) as [E1 E2].
  unfold buf_ok. rewrite E1, E2. split; [by apply utf8_valid_snoc|done].
Qed.

Lemma add_buf_ok c lx : in_range 0 0x7F c = true → buf_ok lx → buf_ok (add lx c).
Proof. intros Hc. exact (add_all_buf_ok [c] lx Hc). Qed.

(** Splits off the next read of the goal and carries the buffer along. *)
Ltac get_step :=
  match goal with
  | H : buf_ok ?lx |- context [get ?lx] =>
      let c := fresh "c" in let lx' := fresh "lx" in let E := fresh "E" in
      destruct (get lx) as [c lx'] eqn:E; apply (get_buf_ok _ _ _ E) in H; clear E
  end.

Lemma get_codepoint_typed lx : buf_ok lx → ensures (get_codepoint lx) (λ r, buf_ok r.2).
Proof. intros H. apply ensures_assert. intros _. by apply get_codepoint_loop_buffer. Qed.

Lemma scan_unicode_escape_typed lx : buf_ok lx → ensures (scan_unicode_escape lx) step_typed.
Proof.
  intros H. unfold scan_unicode_escape.
  eapply ensures_bind; [by apply get_codepoint_typed|]. intros [c1 lx1] H1. cbn [snd] in H1.
  case_if; [done|]. case_if.
  - get_step. case_if; [done|]. get_step. case_if; [done|].
    eapply ensures_bind; [by apply get_codepoint_typed|]. intros [c2 lx9] H2. cbn [snd] in H2.
    case_if; [done|]. case_if; [|done]. rewrite surrogate_codepoint by done.
    apply ensures_assert. intros _. apply add_all_buf_ok; [|done].
    apply codepoint_bytes_group. unfold scalar. clear H1 H2 H. zify_bool. lia.
  - case_if; [done|]. apply ensures_assert. intros Hr. apply add_all_buf_ok; [|done].
    apply codepoint_bytes_group. unfold scalar. clear H1 H. zify_bool. lia.
Qed.

Lemma scan_escape_typed lx : buf_ok lx → ensures (scan_escape lx) step_typed.
Proof.
  intros H. unfold scan_escape. get_step.
  repeat (case_if; [by apply add_buf_ok|]).
  case_if; [by apply scan_unicode_escape_typed|done].
Qed.

(** The bytes after a lead byte, when they are all in range. *)
Lemma next_byte_loop_bytes ranges lx lx' :
  forallb (λ r, (0 <=? r.1) && (r.2 <? 256)) ranges = true →
  next_byte_loop ranges lx = (true, lx') →
  ∃ bs, Forall2 (λ r b, in_range r.1 r.2 b = true) ranges bs ∧
    token_buffer lx' = token_buffer lx ++ bs ∧
    decimal_point_position lx' = decimal_point_position lx.
Proof.
  revert lx. induction ranges as [|[lo hi] ranges IH]; intros lx Hr.
  - intros [= <-]. exists []. by rewrite app_nil_r.
  - cbn [next_byte_loop forallb fst snd] in *. apply andb_true_iff in Hr as [Hb Hr].
    destruct (get lx) as [c lx1] eqn:E. apply get_same in E as [E1 E2].
    destruct (in_range lo hi c) eqn:Ec; [|done].
    intros (bs & HF & Hb1 & Hd1)%IH; [|done]. exists (c :: bs). split; [by constructor|].
    cbn [add set_buffer token_buffer decimal_point_position] in Hb1, Hd1.
    rewrite wrap_byte in Hb1 by (clear - Hb Ec; zify_bool; lia).
    rewrite Hb1, Hd1, E1, E2, <- app_assoc. done.
Qed.

Ltac split_ranges :=
  repeat match goal with
  | H : Forall2 _ [] _ |- _ => apply Forall2_nil_inv_l in H as ->
  | H : Forall2 _ (_ :: _) _ |- _ => apply Forall2_cons_inv_l in H as (? & ? & ? & H & ->)
  end.

(** The ranges of a lead byte are those of the well-formed sequences. *)
Lemma ranges_group c ranges bs :
  lead_ranges c = Some ranges → Forall2 (λ r b, in_range r.1 r.2 b = true) ranges bs →
  utf8_group (c :: bs) = true.
Proof.
  unfold lead_ranges. intros Hl HF.
  repeat match type of Hl with
  | (if ?b then _ else _) = _ => destruct b eqn:?; [injection Hl as <-|]
  end; [..|done]; split_ranges; cbn [fst snd utf8_group] in *; utf8_unfold; lia.
Qed.

Lemma lead_ranges_bytes c ranges :
  lead_ranges c = Some ranges →
  is_byte c = true ∧ forallb (λ r, (0 <=? r.1) && (r.2 <? 256)) ranges = true.
Proof.
  unfold lead_ranges. intros Hl.
  repeat match type of Hl with
  | (if ?b then _ else _) = _ => destruct b eqn:?; [injection Hl as <-|]
  end; [..|done]; (split; [|done]); unfold in_range, is_byte in *; lia.
Qed.

Lemma scan_multibyte_typed lx : buf_ok lx → ensures (scan_multibyte lx) step_typed.
Proof.
  intros [Hv Hd]. unfold scan_multibyte.
  destruct (lead_ranges (current lx)) as [ranges|] eqn:El; [|done].
  destruct (lead_ranges_bytes _ _ El) as [Hb Hr]. rewrite (next_byte_in_range_lead _ _ _ El). cbn [mbind outcome_bind].
  destruct (next_byte_loop ranges (add lx (current lx))) as [[] lx'] eqn:E; [|done].
  apply next_byte_loop_bytes in E as (bs & HF & E1 & E2); [|done].
  cbn [add set_buffer token_buffer decimal_point_position] in E1, E2.
  rewrite wrap_byte, <- app_assoc in E1 by done. split; [|by rewrite E2].
  rewrite E1. apply utf8_valid_snoc; [done|]. by eapply ranges_group.
Qed.

Lemma scan_string_step_typed lx : buf_ok lx → ensures (scan_string_step lx) step_typed.
Proof.
  intros H. unfold scan_string_step. get_step.
  case_if; [done|]. case_if; [done|]. case_if; [by apply scan_escape_typed|].
  case_if; [done|]. case_if; [|by apply scan_multibyte_typed].
  apply add_buf_ok; [|done]. clear H. zify_bool. lia.
Qed.

Lemma scan_string_typed lx : ensures (scan_string lx) (λ r, token_ok r.1 r.2).
Proof.
  unfold scan_string. apply ensures_assert. intros _.
  eapply ensures_mono; [apply loop_typed; [apply scan_string_step_typed|done]|].
  intros [t lx'] Hs. cbn [fst snd] in *. destruct t; try done.
  destruct Hs as [Hv Hd]. unfold token_ok, get_string. by rewrite Hd.
Qed.

Lemma span_digits_digits s : all_digits (span_digits s).1 = true.
Proof.
  induction s as [|c s IH]; [done|]. cbn [span_digits]. destruct (is_digit c) eqn:Ec; [|done].
  destruct (span_digits s) as [d r]. cbn [fst] in *. unfold all_digits. cbn [forallb].
  by rewrite Ec.
Qed.

Lemma c_strtoull_typed s x rest : c_strtoull s = (x, false, rest) → in_u 64 x = true.
Proof.
  unfold c_strtoull. pose proof (span_digits_digits s) as Hd.
  destruct (span_digits s) as [d r]. pose proof (digits_value_nonneg 0 d ltac:(lia) Hd).
  unfold in_u. case_if; [|done]. intros [= <- <-]. lia.
Qed.

Lemma c_strtoll_typed s x rest : c_strtoll s = (x, false, rest) → in_s 64 x = true.
Proof.
  unfold c_strtoll. destruct (span_sign s) as [neg s']. destruct (span_digits s') as [d r].
  cbv zeta. generalize (if neg then - digits_value 0 d else digits_value 0 d). intros v.
  unfold in_s. case_if; [done|]. case_if; [intros [= <- <-]; lia|done].
Qed.

Lemma c_strtod_typed dp s : valid_binary 53 1024 (c_strtod dp s).1 = true.
Proof.
  unfold c_strtod. destruct (span_sign s) as [neg s']. destruct (span_digits s') as [i s1].
  destruct (match s1 with [] => _ | _ => _ end) as [f s2].
  destruct (match s2 with [] => _ | _ => _ end) as [e s3]. apply nearest_double_valid.
Qed.

Lemma scan_number_done_typed nt lx : ensures (scan_number_done nt lx) (λ r, token_ok r.1 r.2).
Proof.
  unfold scan_number_done. eapply ensures_bind; [apply ensures_true|]. intros lx1 _. cbv zeta.
  pose proof (c_strtod_typed (decimal_point_char lx1) (token_buffer lx1)) as Hf.
  destruct (c_strtod (decimal_point_char lx1) (token_buffer lx1)) as [f rest]. cbn [fst] in Hf.
  destruct nt; try (by apply ensures_assert).
  - destruct (c_strtoull (token_buffer lx1)) as [[x []] rest'] eqn:E; apply ensures_assert; intros _.
    + by apply ensures_assert.
    + by apply c_strtoull_typed in E.
  - destruct (c_strtoll (token_buffer lx1)) as [[x []] rest'] eqn:E; apply ensures_assert; intros _.
    + by apply ensures_assert.
    + by apply c_strtoll_typed in E.
Qed.

Lemma scan_number_typed lx : ensures (scan_number lx) (λ r, token_ok r.1 r.2).
Proof.
  assert (∀ fuel s nt lx, ensures (scan_number_loop fuel s nt lx) (λ r, token_ok r.1 r.2)) as Hl.
  { induction fuel as [|fuel IH]; intros s nt lx'; [done|]. cbn [scan_number_loop].
    destruct (scan_number_step s lx'); [apply IH|apply scan_number_done_typed|done]. }
  unfold scan_number. cbv zeta. repeat (case_if; [apply Hl|]). done.
Qed.

(** Whatever the state it starts in, a scan that yields a string or a number
    yields a typed one. *)
Lemma scan_typed lx : ensures (scan lx) (λ r, token_ok r.1 r.2).
Proof.
  assert (∀ lit t lx, token_ok t = (λ _, True) →
    ensures (scan_literal lit t lx) (λ r, token_ok r.1 r.2)) as Hlit.
  { intros lit t lx' Ht. unfold scan_literal. destruct (str lit) as [|l rest]; [done|].
    apply ensures_assert. intros _. cbn [ensures]. generalize lx'. clear lx'.
    induction rest as [|c rest IH]; intros lx'; cbn [scan_literal_loop fst snd]; [by rewrite Ht|].
    destruct (get lx') as [c' lx2]. case_if; [done|apply IH]. }
  unfold scan. eapply ensures_bind; [apply ensures_true|]. intros [b lx1] _. case_if; [done|].
  eapply ensures_bind; [apply ensures_true|]. intros lx2 _.
  eapply ensures_bind; [apply ensures_true|]. intros [ok lx3] _. destruct ok; [|done].
  unfold scan_token. do 6 (case_if; [done|]). do 3 (case_if; [by apply Hlit|]).
  case_if; [apply scan_string_typed|]. case_if; [apply scan_number_typed|]. by case_if.
Qed.

(** * The parser passes typed arguments *)

Definition parser_typed (p : parser) : Prop := token_ok (last_token p) (m_lexer p).

Lemma get_token_typed p : ensures (get_token p) parser_typed.
Proof.
  unfold get_token. eapply ensures_bind; [apply scan_typed|]. by intros [t lx].
Qed.

(** A handler keeps [I] when the arguments of its events are typed. *)
Class SAXTyped {S : Type} `{SAX S} (I : S → Prop) := {
  typed_null s : I s → ensures (sax_null s) (λ r, I r.2);
  typed_boolean b s : I s → ensures (sax_boolean b s) (λ r, I r.2);
  typed_integer z s : in_s 64 z = true → I s → ensures (sax_number_integer z s) (λ r, I r.2);
  typed_unsigned z s : in_u 64 z = true → I s → ensures (sax_number_unsigned z s) (λ r, I r.2);
  typed_float f t s : valid_binary 53 1024 f = true → isfinite f = true → I s →
    ensures (sax_number_float f t s) (λ r, I r.2);
  typed_string v s : utf8_valid v = true → I s → ensures (sax_string v s) (λ r, I r.2);
  typed_start_object s : I s → ensures (sax_start_object s) (λ r, I r.2);
  typed_key v s : utf8_valid v = true → I s → ensures (sax_key v s) (λ r, I r.2);
  typed_end_object s : I s → ensures (sax_end_object s) (λ r, I r.2);
  typed_start_array s : I s → ensures (sax_start_array s) (λ r, I r.2);
  typed_end_array s : I s → ensures (sax_end_array s) (λ r, I r.2);
  typed_parse_error pos t e s : I s → ensures (sax_parse_error pos t e s) (λ r, I r.2)
}.

Section parser_typed.
  Context {S : Type} `{SAX S} (I : S → Prop) `{!SAXTyped I}.

Definition pstep_typed (s : pstep S) : Prop :=
  match s with
  | P_continue ps => I (ps_sax ps) ∧ (ps_skip ps = false → parser_typed (ps_parser ps))
  | P_evaluate sax _ => I sax
  | P_return _ sax _ => I sax
  end.

Lemma give_up_typed p e sax : I sax → ensures (give_up_with (report p e sax) p) pstep_typed.
Proof.
  intros Hi. eapply ensures_bind; [by apply typed_parse_error|]. by intros [b s].
Qed.

Lemma checked_typed r p k :
  ensures r (λ r, I r.2) → (∀ s, I s → ensures (k s) pstep_typed) →
  ensures (checked r p k) pstep_typed.
Proof.
  intros Hr Hk. eapply ensures_bind; [exact Hr|]. intros [[] s] Hs; [by apply Hk|done].
Qed.

Ltac next_token :=
  eapply ensures_bind; [apply get_token_typed|];
  let p := fresh "p" in let Hp := fresh "Hp" in intros p Hp.

Lemma typed_string_token p :
  last_token p = token_type.value_string → parser_typed p →
  utf8_valid (get_string (m_lexer p)) = true.
Proof. unfold parser_typed. by intros ->. Qed.

Lemma parse_member_typed p st sax :
  last_token p = token_type.value_string → parser_typed p → I sax →
  ensures (parse_member p st sax) pstep_typed.
Proof.
  intros Ht Hp Hi. apply checked_typed; [apply typed_key; auto using typed_string_token|].
  intros s Hs. next_token. case_if; [by apply give_up_typed|]. by next_token.
Qed.

Lemma parse_value_typed p st sax :
  parser_typed p → I sax → ensures (parse_value p st sax) pstep_typed.
Proof.
  intros Hp Hi. unfold parse_value.
  assert (∀ r, ensures r (λ r, I r.2) →
    ensures (checked r p (λ sax, Ret (P_evaluate sax p))) pstep_typed) as Hval.
  { intros r Hr. by apply checked_typed. }
  unfold parser_typed, token_ok in Hp. destruct (last_token p) eqn:Et;
    try (by apply give_up_typed);
    try (apply Hval; auto using typed_null, typed_boolean, typed_integer, typed_unsigned, typed_string).
  - case_if; [by apply give_up_typed|]. apply Hval. apply typed_float; [done| |done].
    by apply negb_false_iff.
  - apply checked_typed; [by apply typed_start_array|]. intros s Hs. next_token. case_if; [|done].
    apply checked_typed; [by apply typed_end_array|done].
  - apply checked_typed; [by apply typed_start_object|]. intros s Hs. next_token.
    case_if; [apply checked_typed; [by apply typed_end_object|done]|].
    case_if; [by apply give_up_typed|]. apply parse_member_typed; [|done..]. by to_prop.
  - case_if; by apply give_up_typed.
Qed.

Lemma evaluate_state_typed p st sax : I sax → ensures (evaluate_state p st sax) pstep_typed.
Proof.
  intros Hi. unfold evaluate_state. destruct st as [|[] st]; [done|..]; next_token.
  - case_if; [by next_token|]. case_if; [|by apply give_up_typed].
    by apply checked_typed; [apply typed_end_array|].
  - case_if.
    + next_token. case_if; [by apply give_up_typed|]. apply parse_member_typed; [|done..].
      by to_prop.
    + case_if; [|by apply give_up_typed]. by apply checked_typed; [apply typed_end_object|].
Qed.

Lemma sax_parse_loop_typed fuel ps :
  pstep_typed (P_continue ps) → ensures (sax_parse_loop fuel ps) (λ r, I r.1.2).
Proof.
  revert ps. induction fuel as [|fuel IH]; intros [sax p st skip] [Hi Hp]; [done|].
  cbn [sax_parse_loop ps_sax ps_skip ps_parser] in *.
  eapply ensures_bind with (Q := pstep_typed); [|intros [ps'|s p'|b s p'] Hs; [by apply IH|done..]].
  unfold sax_parse_step. destruct skip; [by apply evaluate_state_typed|].
  eapply ensures_bind; [by apply parse_value_typed; [apply Hp|]|].
  intros [ps'|s p'|b s p'] Hs; [done|by apply evaluate_state_typed|done].
Qed.

Lemma sax_parse_internal_typed p sax :
  parser_typed p → I sax → ensures (sax_parse_internal p sax) (λ r, I r.1.2).
Proof. intros Hp Hi. by apply sax_parse_loop_typed. Qed.
End parser_typed.

(** * The DOM builder stores typed values *)

Definition node_typed (j : json) : bool :=
  node_wf j && node_dumpable strict j && node_textual j.

(** Well formed, writable under the strict handler, and without the nodes a
    JSON text cannot denote. *)
Definition json_typed (j : json) : bool := json_forall node_typed j.

(** What the text parser stores: UTF-8 keys and leaves of these kinds. *)
Definition leaf_textual (j : json) : bool := negb (is_structured j) && node_typed j.

Lemma json_typed_stored j : json_typed j = stored utf8_valid leaf_textual j.
Proof.
  apply json_forall_ext. intros []; try done; unfold node_typed;
    cbn [node_stored node_wf node_dumpable node_textual].
  rewrite bool_decide_eq_true_2, andb_true_r by done. cbn [negb orb].
  rewrite <- andb_assoc. f_equal. induction m as [|[k v] m IH]; [done|]. cbn [forallb fst].
  destruct (utf8_valid k) eqn:E; [by rewrite (utf8_valid_bytes k E)|]. by rewrite !andb_false_r.
Qed.

Definition member_typed (kv : cstring * json) : bool := utf8_valid kv.1 && json_typed kv.2.

Lemma json_typed_object m :
  json_typed (J_object m) = true ↔ keys_sorted m = true ∧ forallb member_typed m = true.
Proof.
  rewrite json_typed_stored, stored_object. unfold member_stored, member_typed.
  do 2 f_equiv. induction m as [|kv m IH]; [done|]. cbn [forallb]. by rewrite IH, json_typed_stored.
Qed.

Lemma json_typed_array l :
  json_typed (J_array l) = true ↔ Forall (λ x, json_typed x = true) l.
Proof.
  rewrite json_typed_stored, stored_array. by setoid_rewrite json_typed_stored.
Qed.

Lemma obj_find_typed k m x :
  json_typed (J_object m) = true → obj_find k m = Some x → json_typed x = true.
Proof.
  rewrite !json_typed_stored. intros [_ Hm]%stored_object Hx.
  by eapply obj_find_stored in Hx as [_ ?].
Qed.

(** The value under construction is typed, and an error is only remembered
    when it is not thrown. *)
Definition dom_typed (ae : bool) (d : json_sax_dom_parser) : Prop :=
  json_typed (root d) = true ∧ allow_exceptions d = ae ∧ (ae = true → errored d = false).

Section dom_typed.
  Context (ae : bool).

(** An event that keeps the value typed and does not touch the flags. *)
Lemma plain_typed ev d :
  plain ev → (stored utf8_valid leaf_textual (root d) = true →
    ensures (ev d) (λ r, stored utf8_valid leaf_textual (root r.2) = true)) →
  dom_typed ae d → ensures (ev d) (λ r, dom_typed ae r.2).
Proof.
  intros Hp Hev (Hr & Ha & He). rewrite json_typed_stored in Hr. specialize (Hp d).
  specialize (Hev Hr). destruct (ev d) as [[b d']| | | |]; try done.
  destruct Hp as (_ & He' & Ha' & _). split; [by rewrite json_typed_stored|].
  cbn [snd]. by rewrite Ha', He'.
Qed.

Lemma dom_parse_error_typed e d :
  dom_typed ae d → ensures (dom_parse_error e d) (λ r, dom_typed ae r.2).
Proof.
  intros (Hd & Ha & He). unfold dom_parse_error. cbn [allow_exceptions]. rewrite Ha.
  by destruct ae.
Qed.

#[export] Instance dom_sax_typed : SAXTyped (dom_typed ae).
Proof.
  split; cbn; intros; try (by apply dom_parse_error_typed); (apply plain_typed; [|intros Hr|done]);
    eauto using plain_value, plain_start, plain_key, plain_end;
    try (by apply dom_start_stored); try (by apply dom_end_stored); try (by apply dom_key_stored);
    (apply dom_value_stored; [|done]); (apply stored_leaf; [done|]);
    unfold leaf_textual, node_typed; cbn [is_structured node_wf node_dumpable node_textual]; try done.
  - by rewrite H.
  - by rewrite H.
  - by rewrite H, H0.
  - by rewrite utf8_valid_bytes, H, orb_true_r.
Qed.
End dom_typed.

(** * Parsing a text *)

(** Only a [parse] without exceptions returns the discarded value. *)
Lemma json_parse_typed dp input ae ic :
  ensures (json_parse dp input ae ic)
    (λ j, json_typed j = true ∨ (ae = false ∧ j = J_discarded)).
Proof.
  unfold json_parse, init_parser. eapply ensures_bind; [apply get_token_typed|]. intros p Hp.
  unfold parser_parse. eapply ensures_bind; [by apply (sax_parse_internal_typed (dom_typed ae))|].
  intros [[b d] p'] Hd. cbn [fst snd] in Hd.
  eapply ensures_bind with (Q := dom_typed ae).
  - unfold require_end. eapply ensures_bind; [apply ensures_true|]. intros p1 _. case_if; [|done].
    eapply ensures_bind; [by apply dom_parse_error_typed|]. by intros [b' d'].
  - intros d' (Hr & _ & He). destruct (errored d'); [right|by left].
    split; [|done]. destruct ae; [|done]. by specialize (He eq_refl).
Qed.

(** The three requirements the writing theorems have. *)
Lemma json_typed_parts j :
  json_typed j = true →
  json_wf j = true ∧ dumpable strict j = true ∧ json_forall node_textual j = true.
Proof.
  intros [[H1 H2]%(json_forall_and (λ x, node_wf x) (λ x, node_dumpable strict x)) H3]%(json_forall_and (λ x, node_wf x && node_dumpable strict x) node_textual).
  done.
Qed.


(** * Writing a typed value *)

Lemma canon_typed_object m :
  json_typed (J_object m) = true →
  canon strict (J_object m) = J_object (map (λ kv, (kv.1, canon strict kv.2)) m).
Proof.
  intros [Hs Hm]%json_typed_object. cbn [canon]. f_equal.
  assert (map (λ kv, (repaired strict kv.1, canon strict kv.2)) m =
    map (λ kv, (kv.1, canon strict kv.2)) m) as ->.
  { apply map_ext_in. intros kv Hin. rewrite forallb_forall in Hm. specialize (Hm kv Hin).
    unfold member_typed in Hm. to_prop. by rewrite repaired_valid. }
  apply build_object_sorted. cbn [app]. by rewrite keys_sorted_map.
Qed.

(** What is read back from a text is written as the same text again. *)
Lemma dump_canon h ea pretty step j :
  json_typed j = true →
  ∀ cur s, dump h ea pretty step (canon strict j) cur s = dump h ea pretty step j cur s.
Proof.
  induction j as [|m IH|l IH|t|b|z|z|f|b st|] using json_rect_nested; intros Hj cur s; try done.
  - rewrite canon_typed_object by done. apply json_typed_object in Hj as [_ Hm].
    destruct m as [|kv m]; [done|]. cbn [dump].
    set (n := if pretty then u32 (cur + step) else cur).
    set (kvs := kv :: m) in *. change (map _ kvs) with (map (λ kv, (kv.1, canon strict kv.2)) kvs).
    assert (∀ s, dump_members h ea (λ v, dump h ea pretty step v n) pretty n
        (map (λ kv, (kv.1, canon strict kv.2)) kvs) s =
      dump_members h ea (λ v, dump h ea pretty step v n) pretty n kvs s) as E; [|by rewrite <- E].
    clear s. generalize dependent kvs. clear. intros kvs.
    induction 1 as [|[k v] m Hv Hm IH]; intros Hty s; [done|].
    cbn [forallb] in Hty. apply andb_true_iff in Hty as [Hkv Hty].
    unfold member_typed in Hkv. cbn [fst snd] in *. apply andb_true_iff in Hkv as [_ Hkv].
    cbn [map dump_members fst snd]. do 2 (apply outcome_bind_ext; intros ?). rewrite Hv by done.
    apply outcome_bind_ext; intros ?. destruct m as [|kv' m']; [done|]. by apply (IH Hty).
  - apply json_typed_array in Hj. destruct l as [|x l]; [done|]. cbn [canon map dump].
    set (n := if pretty then u32 (cur + step) else cur).
    set (xs := x :: l) in *. change (canon strict x :: map (canon strict) l) with (map (canon strict) xs).
    assert (∀ s, dump_elements (λ v, dump h ea pretty step v n) pretty n (map (canon strict) xs) s =
      dump_elements (λ v, dump h ea pretty step v n) pretty n xs s) as E; [|by rewrite <- E].
    clear s. generalize dependent xs. clear. intros xs.
    induction 1 as [|v m Hv Hm IH]; intros Hty s; [done|]. inversion_clear Hty as [|? ? Hx Hty'].
    cbn [map dump_elements]. apply outcome_bind_ext; intros ?. rewrite Hv by done.
    apply outcome_bind_ext; intros ?. destruct m as [|kv' m']; [done|]. by apply (IH Hty').
  - apply json_typed_parts in Hj as (_ & Hd%json_forall_node & _). cbn [canon].
    by rewrite repaired_valid by (by simpl in Hd).
  - cbn [canon]. by destruct (z <? 0).
  - apply json_typed_parts in Hj as (_ & _ & Ht%json_forall_node). cbn [node_textual] in Ht.
    cbn [canon]. by rewrite Ht.
  - by apply json_typed_parts in Hj as (_ & _ & Ht%json_forall_node).
Qed.

Lemma json_dump_canon indent c ea h j :
  json_typed j = true → json_dump indent c ea h (canon strict j) = json_dump indent c ea h j.
Proof. intros Hj. unfold json_dump. by case_if; rewrite dump_canon. Qed.

(** A member of a typed object is typed. *)
Lemma at_key_const_typed j k v :
  json_typed j = true → at_key_const j k = Ret v → json_typed v = true.
Proof.
  intros Hj. unfold at_key_const. destruct j; try done.
  destruct (obj_find k m) as [x|] eqn:E; [|done]. intros [= <-]. by eapply obj_find_typed.
Qed.
