(* ===== verification/JsonPointer.v ===== *)
(** JSON pointers of framework/json.hpp: the escaping of reference tokens, the
    parser and the printer of pointers, array indices, and the checked access
    through a pointer.

    A [json_pointer] is its list of reference tokens.  A reference into a
    document is modelled by what is done with it: [get_checked] reads the value
    it refers to, [modify] replaces it. *)

From S2P Require Import Prelude JsonValue JsonLexer.

Abbreviation res := (outcome json_exn).

(** * Escaping *)

(** The text after the prefix [f], if [s] begins with it. *)
Fixpoint strip_prefix (f s : cstring) : option cstring :=
  match f, s with
  | [], _ => Some s
  | c :: f', d :: s' => if c =? d then strip_prefix f' s' else None
  | _ :: _, [] => None
  end.

(** The search goes on behind the text that was put in.  Each round reads a
    character, [f] being non-empty, so the fuel is the length of [s]. *)
Fixpoint replace_loop (fuel : nat) (f t s : cstring) : cstring :=
  match fuel with
  | O => s
  | S fuel' =>
      match s with
      | [] => []
      | c :: s' =>
          match strip_prefix f s with
          | Some rest => t ++ replace_loop fuel' f t rest
          | None => c :: replace_loop fuel' f t s'
          end
      end
  end.

Definition replace_substring (s f t : cstring) : cstring := replace_loop (length s) f t s.

Definition escape (s : cstring) : cstring :=
  replace_substring (replace_substring s (str "~") (str "~0")) (str "/") (str "~1").

Definition unescape (s : cstring) : cstring :=
  replace_substring (replace_substring s (str "~1") (str "/")) (str "~0") (str "~").

(** * Pointers *)

Definition json_pointer : Type := list cstring.

(** The token up to the next slash, and what follows that slash. *)
Fixpoint next_token (s : cstring) : cstring * option cstring :=
  match s with
  | [] => ([], None)
  | c :: s' =>
      if c =? 47 then ([], Some s')
      else let '(t, r) := next_token s' in (c :: t, r)
  end.

(** Every [~] is followed by [0] or [1]. *)
Fixpoint escapes_ok (t : cstring) : bool :=
  match t with
  | [] => true
  | c :: t' =>
      (if c =? 126 then match t' with d :: _ => (d =? 48) || (d =? 49) | [] => false end else true)
      && escapes_ok t'
  end.

(** Each round ends at a slash, so the fuel is the length of the text. *)
Fixpoint split_loop (fuel : nat) (s : cstring) : res json_pointer :=
  match fuel with
  | O => Diverge
  | S fuel' =>
      let '(token, rest) := next_token s in
      if negb (escapes_ok token)
      then Throw (create_parse_error_at 108 0 (str "escape character '~' must be followed with '0' or '1'"))
      else
        match rest with
        | None => Ret [unescape token]
        | Some s' => tokens ← split_loop fuel' s'; Ret (unescape token :: tokens)
        end
  end.

Definition split (reference_string : cstring) : res json_pointer :=
  match reference_string with
  | [] => Ret []
  | c :: s =>
      if negb (c =? 47)
      then Throw (create_parse_error_at 107 1
             (str "JSON pointer must be empty or begin with '/' - was: '" ++ reference_string ++ str "'"))
      else split_loop (S (length s)) s
  end.

Definition to_string (ptr : json_pointer) : cstring :=
  foldl (λ a b, a ++ str "/" ++ escape b) [] ptr.

(** [pop_back] and [back]. *)
Definition no_parent : json_exn := create_out_of_range 405 (str "JSON pointer has no parent").

Definition back (ptr : json_pointer) : res cstring :=
  match last ptr with Some t => Ret t | None => Throw no_parent end.

Definition pop_back (ptr : json_pointer) : res json_pointer :=
  match ptr with [] => Throw no_parent | _ => Ret (removelast ptr) end.

Definition top (ptr : json_pointer) : res json_pointer :=
  match ptr with [] => Throw no_parent | t :: _ => Ret [t] end.

(** * Array indices *)

(** Text that begins with something else than a digit has one character here,
    in which [strtoull] finds no number. *)
Definition array_index (s : cstring) : res Z :=
  if (1 <? length s)%nat && bool_decide (head s = Some 48)
  then Throw (create_parse_error_at 106 0 (str "array index '" ++ s ++ str "' must not begin with '0'"))
  else if (1 <? length s)%nat && negb (match head s with Some c => in_range 49 57 c | None => false end)
  then Throw (create_parse_error_at 109 0 (str "array index '" ++ s ++ str "' is not a number"))
  else
    let '(res, erange, rest) := c_strtoull s in
    if bool_decide (s = []) || erange || negb (bool_decide (rest = []))
    then Throw (create_out_of_range 404 (str "unresolved reference token '" ++ s ++ str "'"))
    else if 2 ^ 64 - 1 <=? res
    then Throw (create_out_of_range 410 (str "array index " ++ s ++ str " exceeds size_type"))
    else Ret res.

(** * Checked access *)

Definition index_out_of_range (idx : Z) : json_exn :=
  create_out_of_range 401 (str "array index " ++ decimal idx ++ str " is out of range").

(** [at(key)] of an object and [at(idx)] of an array. *)
Definition at_member (m : list (cstring * json)) (key : cstring) : res json :=
  match obj_find key m with
  | Some v => Ret v
  | None => Throw (create_out_of_range 403 (str "key '" ++ key ++ str "' not found"))
  end.

Definition at_element (l : list json) (idx : Z) : res json :=
  if Z.of_nat (length l) <=? idx then Throw (index_out_of_range idx)
  else match l !! Z.to_nat idx with Some v => Ret v | None => Undef end.

(** One round of the loop: the child that a token refers to. *)
Definition child (reference_token : cstring) (j : json) : res json :=
  match j with
  | J_object m => at_member m reference_token
  | J_array l =>
      if cs_eqb reference_token (str "-")
      then Throw (create_out_of_range 402
             (str "array index '-' (" ++ decimal (Z.of_nat (length l)) ++ str ") is out of range"))
      else idx ← array_index reference_token; at_element l idx
  | _ => Throw (create_out_of_range 404 (str "unresolved reference token '" ++ reference_token ++ str "'"))
  end.

(** The document after an assignment to that child. *)
Definition put_child (reference_token : cstring) (v j : json) : json :=
  match j with
  | J_object m => J_object (obj_set reference_token v m)
  | J_array l =>
      match array_index reference_token with
      | Ret idx => J_array (<[Z.to_nat idx := v]> l)
      | _ => j
      end
  | _ => j
  end.

Fixpoint get_checked (ptr : json_pointer) (j : json) : res json :=
  match ptr with
  | [] => Ret j
  | t :: ptr' => c ← child t j; get_checked ptr' c
  end.

Fixpoint modify (ptr : json_pointer) (f : json → res json) (j : json) : res json :=
  match ptr with
  | [] => f j
  | t :: ptr' => c ← child t j; c' ← modify ptr' f c; Ret (put_child t c' j)
  end.

(** [contains] of a pointer: the indices are checked by hand before
    [array_index], which may still throw. *)
Definition index_text_ok (t : cstring) : bool :=
  match t with
  | [] => true
  | [c] => in_range 48 57 c
  | c :: t' => in_range 49 57 c && forallb (in_range 48 57) t'
  end.

Fixpoint contains_ptr (ptr : json_pointer) (j : json) : res bool :=
  match ptr with
  | [] => Ret true
  | t :: ptr' =>
      match j with
      | J_object m =>
          match obj_find t m with
          | None => Ret false
          | Some v => contains_ptr ptr' v
          end
      | J_array l =>
          if cs_eqb t (str "-") then Ret false
          else if negb (index_text_ok t) then Ret false
          else
            idx ← array_index t;
            if Z.of_nat (length l) <=? idx then Ret false
            else match l !! Z.to_nat idx with Some v => contains_ptr ptr' v | None => Undef end
      | _ => Ret false
      end
  end.
