(* ===== verification/JsonPatch.v ===== *)
(** JSON patches of framework/json.hpp: [patch], [diff] and [merge_patch]. *)

From S2P Require Import Prelude JsonValue JsonLexer JsonSerializer JsonPointer.

(** * Changes of a container *)

(** [object->erase(it)]. *)
Definition obj_erase (k : cstring) (m : list (cstring * json)) : list (cstring * json) :=
  List.filter (λ kv, negb (cs_eqb kv.1 k)) m.

(** [erase(idx)] of an array. *)
Definition erase_index (idx : Z) (l : list json) : res (list json) :=
  if Z.of_nat (length l) <=? idx then Throw (index_out_of_range idx)
  else Ret (delete (Z.to_nat idx) l).

(** [insert(begin() + idx, val)] of an array. *)
Definition insert_index (idx : nat) (val : json) (l : list json) : list json :=
  take idx l ++ val :: drop idx l.

(** * Operations *)

Inductive patch_operations : Type :=
| op_add | op_remove | op_replace | op_move | op_copy | op_test | op_invalid.

Definition get_op (op : cstring) : patch_operations :=
  if cs_eqb op (str "add") then op_add
  else if cs_eqb op (str "remove") then op_remove
  else if cs_eqb op (str "replace") then op_replace
  else if cs_eqb op (str "move") then op_move
  else if cs_eqb op (str "copy") then op_copy
  else if cs_eqb op (str "test") then op_test
  else op_invalid.

(** What [operation_add] does to the parent. *)
Definition add_child (last_path : cstring) (val parent : json) : res json :=
  match parent with
  | J_null | J_object _ =>
      '(parent, _) ← at_key parent last_path;
      match parent with
      | J_object m => Ret (J_object (obj_set last_path val m))
      | _ => Abort
      end
  | J_array l =>
      if cs_eqb last_path (str "-") then Ret (J_array (l ++ [val]))
      else
        idx ← array_index last_path;
        if Z.of_nat (length l) <? idx then Throw (index_out_of_range idx)
        else Ret (J_array (insert_index (Z.to_nat idx) val l))
  | _ => Abort
  end.

Definition operation_add (ptr : json_pointer) (val result : json) : res json :=
  match ptr with
  | [] => Ret val
  | _ =>
      top_pointer ← top ptr;
      _ ← (if bool_decide (top_pointer = ptr) then Ret J_null else get_checked top_pointer result);
      last_path ← back ptr;
      ptr ← pop_back ptr;
      modify ptr (add_child last_path val) result
  end.

(** What [operation_remove] does to the parent; a parent that is neither an
    object nor an array is left as it is. *)
Definition remove_child (last_path : cstring) (parent : json) : res json :=
  match parent with
  | J_object m =>
      match obj_find last_path m with
      | Some _ => Ret (J_object (obj_erase last_path m))
      | None => Throw (create_out_of_range 403 (str "key '" ++ last_path ++ str "' not found"))
      end
  | J_array l => idx ← array_index last_path; l ← erase_index idx l; Ret (J_array l)
  | _ => Ret parent
  end.

Definition operation_remove (ptr : json_pointer) (result : json) : res json :=
  last_path ← back ptr;
  ptr ← pop_back ptr;
  modify ptr (remove_child last_path) result.

(** * Applying a patch *)

(** A member of the operation [val]. *)
Definition get_value (op member : cstring) (string_type : bool) (val : list (cstring * json)) : res json :=
  let error_msg := if cs_eqb op (str "op") then str "operation"
                   else str "operation '" ++ op ++ str "'" in
  match obj_find member val with
  | None => Throw (create_parse_error_at 105 0 (error_msg ++ str " must have member '" ++ member ++ str "'"))
  | Some v =>
      if string_type && negb (is_string v)
      then Throw (create_parse_error_at 105 0 (error_msg ++ str " must have string member '" ++ member ++ str "'"))
      else Ret v
  end.

Definition get_string (op member : cstring) (val : list (cstring * json)) : res cstring :=
  v ← get_value op member true val; get_std_string v.

(** The comparison of a [test]: only [out_of_range] counts as a failure. *)
Definition test_value (ptr : json_pointer) (val : list (cstring * json)) (result : json) : res bool :=
  match (v ← get_checked ptr result; w ← get_value (str "test") (str "value") false val;
         Ret (json_eqb v w)) with
  | Throw (out_of_range _ _) => Ret false
  | r => r
  end.

Definition not_an_operation : json_exn :=
  create_parse_error_at 104 0 (str "JSON patch must be an array of objects").

(** One round of the loop in [patch_inplace]. *)
Definition patch_step (result val : json) : res json :=
  match val with
  | J_object m =>
      op ← get_string (str "op") (str "op") m;
      path ← get_string op (str "path") m;
      ptr ← split path;
      match get_op op with
      | op_add => v ← get_value (str "add") (str "value") false m; operation_add ptr v result
      | op_remove => operation_remove ptr result
      | op_replace =>
          v ← get_value (str "replace") (str "value") false m;
          modify ptr (λ _, Ret v) result
      | op_move =>
          from_path ← get_string (str "move") (str "from") m;
          from_ptr ← split from_path;
          v ← get_checked from_ptr result;
          result ← operation_remove from_ptr result;
          operation_add ptr v result
      | op_copy =>
          from_path ← get_string (str "copy") (str "from") m;
          from_ptr ← split from_path;
          v ← get_checked from_ptr result;
          operation_add ptr v result
      | op_test =>
          success ← test_value ptr m result;
          if negb success then
            text ← json_dump (-1) 32 false strict val;
            Throw (create_other_error 501 (str "unsuccessful: " ++ text))
          else Ret result
      | op_invalid => Throw (create_parse_error_at 105 0 (str "operation value '" ++ op ++ str "' is invalid"))
      end
  | _ => Throw not_an_operation
  end.

Fixpoint patch_loop (vals : list json) (result : json) : res json :=
  match vals with
  | [] => Ret result
  | val :: vals' => result ← patch_step result val; patch_loop vals' result
  end.

Definition patch (j json_patch : json) : res json :=
  match json_patch with
  | J_array vals => patch_loop vals j
  | _ => Throw not_an_operation
  end.

(** * Creating a patch *)

Definition make_op (op : string) (path : cstring) (value : option json) : json :=
  J_object ((str "op", J_string (str op)) :: (str "path", J_string path)
            :: match value with Some v => [(str "value", v)] | None => [] end).

(** Operations that remove the elements from [i] on, each put before the ones
    that came before it. *)
Fixpoint remove_elements (path : cstring) (i n : nat) (acc : list json) : list json :=
  match n with
  | O => acc
  | S n' =>
      remove_elements path (S i) n'
        (make_op "remove" (path ++ str "/" ++ decimal (Z.of_nat i)) None :: acc)
  end.

Fixpoint diff (source target : json) (path : cstring) : list json :=
  if json_eqb source target then []
  else if negb (bool_decide (json_type source = json_type target))
  then [make_op "replace" path (Some target)]
  else
    match source, target with
    | J_array l, J_array r =>
        (fix common (i : nat) (l r : list json) : list json :=
           match l, r with
           | x :: l', y :: r' =>
               diff x y (path ++ str "/" ++ decimal (Z.of_nat i)) ++ common (S i) l' r'
           | _, _ => []
           end) 0%nat l r
        ++ remove_elements path (length r) (length l - length r) []
        ++ map (λ v, make_op "add" (path ++ str "/-") (Some v)) (drop (length l) r)
    | J_object l, J_object r =>
        (fix members (l : list (cstring * json)) : list json :=
           match l with
           | [] => []
           | (k, v) :: l' =>
               match obj_find k r with
               | Some w => diff v w (path ++ str "/" ++ escape k)
               | None => [make_op "remove" (path ++ str "/" ++ escape k) None]
               end ++ members l'
           end) l
        ++ map (λ kv, make_op "add" (path ++ str "/" ++ escape kv.1) (Some kv.2))
             (List.filter (λ kv, negb (contains source kv.1)) r)
    | _, _ => [make_op "replace" path (Some target)]
    end.

(** * Merge patches *)

(** [operator[](key).merge_patch(value)] on a member that may be new. *)
Fixpoint merge_patch (j apply_patch : json) : json :=
  match apply_patch with
  | J_object p =>
      J_object
        ((fix go (p m : list (cstring * json)) : list (cstring * json) :=
            match p with
            | [] => m
            | (k, v) :: p' =>
                go p' (if is_null v then obj_erase k m
                       else obj_set k (merge_patch (default J_null (obj_find k m)) v) m)
            end) p (match j with J_object m => m | _ => [] end))
  | _ => apply_patch
  end.
