(* ===== verification/JsonPatchFacts.v ===== *)
(** JSON pointers and patches: a pointer is printed and read back, and the patch
    that [diff] makes leads from one document to the other. *)

From S2P Require Import Prelude JsonValue JsonLexer JsonLexerFacts JsonTokens JsonSerializer.
From S2P Require Import JsonNumbers JsonStored JsonTyping JsonPointer JsonPatch.

(** * Escaping *)

Definition replace_char (c : Z) (t s : cstring) : cstring :=
  concat (map (λ d, if c =? d then t else [d]) s).

Lemma replace_one c t s : replace_substring s [c] t = replace_char c t s.
Proof.
  unfold replace_substring, replace_char. induction s as [|d s IH]; [done|].
  cbn [length replace_loop strip_prefix map concat]. destruct (c =? d); by rewrite IH.
Qed.

Definition escape_char (c : Z) : cstring :=
  if 126 =? c then [126; 48] else if 47 =? c then [126; 49] else [c].

Lemma escape_chars s : escape s = concat (map escape_char s).
Proof.
  unfold escape. change (str "~") with [126]. change (str "/") with [47].
  change (str "~0") with [126; 48]. change (str "~1") with [126; 49].
  rewrite !replace_one. unfold replace_char. induction s as [|c s IH]; [done|].
  cbn [map concat]. rewrite map_app, concat_app, IH. f_equal. unfold escape_char.
  destruct (Z.eqb_spec 126 c) as [<-|]; [done|].
  cbn [map concat app]. by destruct (47 =? c).
Qed.

(** Text with only the tildes escaped. *)
Definition tilde_char (c : Z) : cstring := if 126 =? c then [126; 48] else [c].

(** The first replacement of [unescape] on escaped text. *)
Lemma unescape_slashes s fuel :
  (length (concat (map escape_char s)) ≤ fuel)%nat →
  replace_loop fuel [126; 49] [47] (concat (map escape_char s)) =
  concat (map tilde_char s).
Proof.
  revert fuel. induction s as [|c s IH]; intros fuel Hf; [by destruct fuel|].
  cbn [map concat] in *. unfold escape_char at 1. unfold escape_char at 1 in Hf.
  unfold tilde_char at 1.
  destruct (Z.eqb_spec 126 c) as [<-|Hc].
  - destruct fuel as [|[|fuel]]; [cbn in Hf; lia..|]. cbn. rewrite IH by (cbn in Hf; lia). done.
  - destruct (Z.eqb_spec 47 c) as [<-|Hs].
    + destruct fuel as [|fuel]; [cbn in Hf; lia|]. cbn. rewrite IH by (cbn in Hf; lia). done.
    + destruct fuel as [|fuel]; [cbn in Hf; lia|]. cbn [app replace_loop strip_prefix].
      rewrite (proj2 (Z.eqb_neq 126 c)) by done. rewrite IH by (cbn in Hf; lia). done.
Qed.

Lemma unescape_tildes s fuel :
  (length (concat (map tilde_char s)) ≤ fuel)%nat →
  replace_loop fuel [126; 48] [126] (concat (map tilde_char s)) = s.
Proof.
  revert fuel. induction s as [|c s IH]; intros fuel Hf; [by destruct fuel|].
  cbn [map concat] in *. unfold tilde_char at 1. unfold tilde_char at 1 in Hf.
  destruct (Z.eqb_spec 126 c) as [<-|Hc].
  - destruct fuel as [|fuel]; [cbn in Hf; lia|]. cbn. rewrite IH by (cbn in Hf; lia). done.
  - destruct fuel as [|fuel]; [cbn in Hf; lia|]. cbn [app replace_loop strip_prefix].
    rewrite (proj2 (Z.eqb_neq 126 c)) by done. rewrite IH by (cbn in Hf; lia). done.
Qed.

Lemma unescape_escape s : unescape (escape s) = s.
Proof.
  rewrite escape_chars. unfold unescape, replace_substring. change (str "~") with [126].
  change (str "/") with [47]. change (str "~0") with [126; 48]. change (str "~1") with [126; 49].
  rewrite unescape_slashes by done. by apply unescape_tildes.
Qed.

Lemma escape_escapes_ok s : escapes_ok (escape s) = true.
Proof.
  rewrite escape_chars. induction s as [|c s IH]; [done|]. cbn [map concat]. unfold escape_char at 1.
  destruct (Z.eqb_spec 126 c) as [<-|Hc]; [by cbn|]. destruct (Z.eqb_spec 47 c); [by cbn|].
  cbn [app escapes_ok]. rewrite IH. by rewrite (proj2 (Z.eqb_neq c 126)).
Qed.

Lemma next_token_escape s rest :
  next_token (escape s) = (escape s, None) ∧ next_token (escape s ++ 47 :: rest) = (escape s, Some rest).
Proof.
  rewrite escape_chars. induction s as [|c s [IH1 IH2]]; [done|]. cbn [map concat].
  set (e := concat (map escape_char s)) in *. unfold escape_char.
  destruct (Z.eqb_spec 126 c) as [<-|Hc]; [cbn; by rewrite IH1, IH2|].
  destruct (Z.eqb_spec 47 c) as [<-|Hs]; [cbn; by rewrite IH1, IH2|].
  cbn [app next_token]. rewrite (proj2 (Z.eqb_neq c 47)) by done. by rewrite IH1, IH2.
Qed.

(** Characters that need no escape. *)
Lemma escape_plain s : forallb (λ c, negb (126 =? c) && negb (47 =? c)) s = true → escape s = s.
Proof.
  rewrite escape_chars. induction s as [|c s IH]; [done|]. cbn [map concat forallb].
  intros [[H1 H2]%andb_true_iff Hs]%andb_true_iff. unfold escape_char at 1.
  apply negb_true_iff in H1, H2. rewrite H1, H2, IH by done. done.
Qed.

(** * Pointers *)

Definition token_text (t : cstring) : cstring := 47 :: escape t.

Lemma to_string_tokens ptr : to_string ptr = concat (map token_text ptr).
Proof.
  unfold to_string. change (str "/") with [47].
  assert (∀ a, foldl (λ a b, a ++ [47] ++ escape b) a ptr = a ++ concat (map token_text ptr)) as ->.
  { induction ptr as [|t ptr IH]; intros a; cbn; [by rewrite app_nil_r|]. rewrite IH. by rewrite <- app_assoc. }
  done.
Qed.

Lemma to_string_snoc ptr t : to_string (ptr ++ [t]) = to_string ptr ++ str "/" ++ escape t.
Proof. unfold to_string. by rewrite foldl_app. Qed.

Lemma split_loop_tokens fuel t ptr :
  (length ptr < fuel)%nat →
  split_loop fuel (escape t ++ concat (map token_text ptr)) = Ret (t :: ptr).
Proof.
  revert t ptr. induction fuel as [|fuel IH]; intros t ptr Hf; [lia|]. destruct ptr as [|u ptr].
  - cbn [map concat]. rewrite app_nil_r. cbn [split_loop].
    rewrite (proj1 (next_token_escape t [])), escape_escapes_ok. cbn [negb]. by rewrite unescape_escape.
  - cbn [map concat]. unfold token_text at 1. cbn [app split_loop]. rewrite (proj2 (next_token_escape t _)), escape_escapes_ok.
    cbn [negb]. rewrite IH by (cbn in Hf; lia). cbn [mbind outcome_bind]. by rewrite unescape_escape.
Qed.

Lemma split_to_string ptr : split (to_string ptr) = Ret ptr.
Proof.
  rewrite to_string_tokens. destruct ptr as [|t ptr]; [done|].
  cbn [map concat]. unfold token_text at 1. cbn [app split].
  rewrite Z.eqb_refl. cbn [negb]. apply split_loop_tokens. rewrite length_app.
  assert (length ptr ≤ length (concat (map token_text ptr)))%nat; [|lia].
  clear t. induction ptr as [|t ptr IH]; cbn; [lia|]. rewrite length_app. lia.
Qed.

(** * Array indices *)

Lemma array_index_decimal i : 0 ≤ i < 2 ^ 64 - 1 → array_index (decimal i) = Ret i.
Proof.
  intros Hi. destruct (decimal_spec i) as (c & d & E & Hd & Hv & Hz); [lia|]. rewrite E.
  unfold array_index. change (head (c :: d)) with (Some c).
  assert (is_digit c = true) as Hc by (unfold all_digits in Hd; cbn [forallb] in Hd; by apply andb_true_iff in Hd as [? _]).
  unfold c_strtoull. rewrite span_digits_all, Hv by done. rewrite (proj2 (Z.ltb_lt i (2 ^ 64))) by lia.
  rewrite (bool_decide_eq_false_2 (c :: d = [])) by done. rewrite (bool_decide_eq_true_2 ([] = [])) by done.
  cbn [orb negb]. rewrite (proj2 (Z.leb_gt (2 ^ 64 - 1) i)) by lia.
  destruct (decide (c = 48)) as [->|Hne].
  { destruct (Hz eq_refl) as [_ ->]. done. }
  rewrite (bool_decide_eq_false_2 (Some c = Some 48)), andb_false_r by congruence.
  assert (in_range 49 57 c = true) as ->; [|by rewrite andb_false_r].
  unfold is_digit, in_range in *. to_prop. lia.
Qed.

Lemma decimal_plain i : 0 ≤ i → escape (decimal i) = decimal i ∧ cs_eqb (decimal i) (str "-") = false.
Proof.
  intros Hi. destruct (decimal_spec i Hi) as (c & d & E & Hd & _). rewrite E. split.
  - apply escape_plain. apply forallb_forall. intros x Hx. unfold all_digits in Hd.
    rewrite forallb_forall in Hd. specialize (Hd x Hx). unfold is_digit, in_range in Hd. to_prop.
    apply andb_true_iff. split; apply negb_true_iff; lia.
  - apply bool_decide_eq_false. intros [= -> ->]. by cbn in Hd.
Qed.

(** * Edits *)

(** The operations that [diff] makes, with their pointers as tokens. *)
Inductive edit : Type :=
| Add (p : json_pointer) (v : json)
| Remove (p : json_pointer)
| Replace (p : json_pointer) (v : json).

Definition edit_json (e : edit) : json :=
  match e with
  | Add p v => make_op "add" (to_string p) (Some v)
  | Remove p => make_op "remove" (to_string p) None
  | Replace p v => make_op "replace" (to_string p) (Some v)
  end.

Definition run_edit (e : edit) (j : json) : res json :=
  match e with
  | Add p v => operation_add p v j
  | Remove p => operation_remove p j
  | Replace p v => modify p (λ _, Ret v) j
  end.

Fixpoint run_edits (es : list edit) (j : json) : res json :=
  match es with
  | [] => Ret j
  | e :: es' => j ← run_edit e j; run_edits es' j
  end.

Lemma make_op_members op path value :
  let m := (str "op", J_string (str op)) :: (str "path", J_string path)
           :: match value with Some v => [(str "value", v)] | None => [] end in
  make_op op path value = J_object m ∧
  get_string (str "op") (str "op") m = Ret (str op) ∧
  (∀ o, get_string o (str "path") m = Ret path) ∧
  (∀ o v, value = Some v → get_value o (str "value") false m = Ret v).
Proof. cbv zeta. split; [done|]. split; [done|]. split; [done|]. by intros o v ->. Qed.

Lemma patch_step_edit e j : patch_step j (edit_json e) = run_edit e j.
Proof.
  destruct e as [p v|p|p v]; cbn [edit_json];
    match goal with |- patch_step j (make_op ?op ?path ?value) = _ =>
      destruct (make_op_members op path value) as (-> & Hop & Hpath & Hval) end;
    unfold patch_step; rewrite Hop; cbn [mbind outcome_bind]; rewrite Hpath;
    cbn [mbind outcome_bind]; rewrite split_to_string; cbn [mbind outcome_bind run_edit].
  - change (get_op (str "add")) with op_add. cbn iota. by rewrite (Hval _ v).
  - by change (get_op (str "remove")) with op_remove.
  - change (get_op (str "replace")) with op_replace. cbn iota. by rewrite (Hval _ v).
Qed.

Lemma patch_loop_edits es j : patch_loop (map edit_json es) j = run_edits es j.
Proof.
  revert j. induction es as [|e es IH]; intros j; cbn [map patch_loop run_edits]; [done|].
  rewrite patch_step_edit. destruct (run_edit e j) as [j'| | | |]; cbn; auto.
Qed.

Lemma run_edits_app es1 es2 j :
  run_edits (es1 ++ es2) j = (j ← run_edits es1 j; run_edits es2 j).
Proof.
  revert j. induction es1 as [|e es1 IH]; intros j; cbn [app run_edits]; [done|].
  destruct (run_edit e j) as [j'| | | |]; cbn; auto.
Qed.

(** * Edits below a child *)

Definition under (p : json_pointer) (e : edit) : edit :=
  match e with
  | Add q v => Add (p ++ q) v
  | Remove q => Remove (p ++ q)
  | Replace q v => Replace (p ++ q) v
  end.

(** An edit that does not replace the whole document by adding to it. *)
Definition inner (e : edit) : Prop := match e with Add [] _ => False | _ => True end.

Lemma under_inner k p e : inner (under (k :: p) e).
Proof. by destruct e. Qed.

Lemma run_under k e j c c' :
  child k j = Ret c → inner e → run_edit e c = Ret c' →
  run_edit (under [k] e) j = Ret (put_child k c' j).
Proof.
  intros Hc Hi. assert (∀ p f, modify p f c = Ret c' → modify (k :: p) f j = Ret (put_child k c' j)) as Hm.
  { intros p f E. cbn [modify]. rewrite Hc. cbn [mbind outcome_bind]. by rewrite E. }
  destruct e as [p v|p|p v]; cbn [run_edit under app].
  - destruct p as [|t p]; [done|]. unfold operation_add. cbn [top mbind outcome_bind].
    assert (back (k :: t :: p) = back (t :: p)) as Eb by done.
    assert (pop_back (k :: t :: p) = (q ← pop_back (t :: p); Ret (k :: q))) as Ep by done.
    rewrite Eb, Ep. clear Eb Ep. rewrite (bool_decide_eq_false_2 ([k] = k :: t :: p)) by done.
    assert (get_checked [k] j = Ret c) as -> by (cbn [get_checked]; by rewrite Hc). cbn [mbind outcome_bind].
    destruct (bool_decide _); [cbn [mbind outcome_bind]|];
      [|destruct (get_checked [t] c); cbn [mbind outcome_bind]; [|done..]];
      (destruct (back (t :: p)) as [b| | | |]; cbn [mbind outcome_bind pop_back]; [|done..]); apply Hm.
  - destruct p as [|t p]; [done|]. unfold operation_remove.
    assert (back (k :: t :: p) = back (t :: p)) as -> by done.
    assert (pop_back (k :: t :: p) = (q ← pop_back (t :: p); Ret (k :: q))) as -> by done.
    destruct (back (t :: p)) as [b| | | |]; cbn [mbind outcome_bind pop_back]; [|done..]. apply Hm.
  - apply Hm.
Qed.

(** The laws of a child: read after write, write after write, and that the
    value that is there can be written. *)
Definition container (j : json) : Prop :=
  match j with J_object m => keys_sorted m = true | J_array _ => True | _ => False end.

(** A key among larger ones than [k]. *)
Lemma obj_find_after k k' v m :
  forallb (λ kv, cs_ltb k kv.1) m = true → obj_find k' m = Some v → cs_ltb k k' = true.
Proof.
  induction m as [|[k1 v1] m IH]; cbn [forallb obj_find]; [done|]. intros [H1 H2]%andb_true_iff.
  destruct (cs_eqb k' k1) eqn:E; [|auto]. by apply cs_eqb_true in E as ->.
Qed.

Lemma obj_set_same k v m : keys_sorted m = true → obj_find k m = Some v → obj_set k v m = m.
Proof.
  induction m as [|[k1 v1] m IH]; cbn [obj_find obj_set keys_sorted]; [done|].
  intros [Ha Hs]%andb_true_iff. destruct (cs_eqb k k1) eqn:E.
  - apply cs_eqb_true in E as ->. intros [= ->]. by rewrite cs_ltb_irrefl.
  - intros Hf. pose proof (obj_find_after _ _ _ _ Ha Hf) as Hlt.
    by rewrite (cs_ltb_asym _ _ Hlt), Hlt, IH.
Qed.

Lemma child_array k l c :
  child k (J_array l) = Ret c →
  ∃ i, array_index k = Ret (Z.of_nat i) ∧ l !! i = Some c ∧ cs_eqb k (str "-") = false.
Proof.
  cbn [child]. destruct (cs_eqb k (str "-")); [done|]. destruct (array_index k) as [z| | | |] eqn:E; try done.
  cbn [mbind outcome_bind]. unfold at_element. destruct (Z.leb_spec (Z.of_nat (length l)) z); [done|].
  destruct (l !! Z.to_nat z) as [x|] eqn:Ex; [|done]. intros [= ->]. exists (Z.to_nat z).
  rewrite Z2Nat.id; [done|]. revert E. unfold array_index, c_strtoull.
  destruct (_ && _); [done|]. destruct (_ && _); [done|].
  pose proof (span_digits_digits k) as Hd. destruct (span_digits k) as [d r]. cbn [fst] in Hd.
  pose proof (digits_value_nonneg 0 d ltac:(lia) Hd).
  destruct (digits_value 0 d <? 2 ^ 64); destruct (_ || _); try done; destruct (_ <=? _); try done;
    intros [= <-]; lia.
Qed.

Lemma child_laws k j c v :
  container j → child k j = Ret c →
  container (put_child k v j) ∧ child k (put_child k v j) = Ret v ∧
  (∀ w, put_child k w (put_child k v j) = put_child k w j) ∧ put_child k c j = j.
Proof.
  intros Hj Hc. destruct j as [|m|l| | | | | | |]; try done; cbn [container] in Hj.
  - cbn [child put_child container] in *. unfold at_member in *.
    destruct (obj_find k m) as [x|] eqn:E; [|done]. injection Hc as ->. repeat split.
    + by apply obj_set_sorted.
    + by rewrite obj_find_set_eq.
    + intros w. by rewrite obj_set_set.
    + by rewrite obj_set_same.
  - destruct (child_array k l c Hc) as (i & Ei & Hi & Hk). cbn [put_child]. rewrite Ei, Nat2Z.id.
    pose proof (lookup_lt_Some _ _ _ Hi) as Hlt. repeat split.
    + cbn [child]. rewrite Hk, Ei. cbn [mbind outcome_bind]. unfold at_element.
      rewrite length_insert, (proj2 (Z.leb_gt _ _)) by lia.
      rewrite Nat2Z.id, list_lookup_insert_eq by done. done.
    + intros w. cbn [put_child]. by rewrite Ei, Nat2Z.id, list_insert_insert_eq.
    + by rewrite list_insert_id.
Qed.

Lemma run_edits_under k es j c c' :
  container j → child k j = Ret c → Forall inner es → run_edits es c = Ret c' →
  run_edits (map (under [k]) es) j = Ret (put_child k c' j).
Proof.
  revert j c. induction es as [|e es IH]; intros j c Hj Hc Hi; cbn [map run_edits].
  { intros [= <-]. by destruct (child_laws k j c c Hj Hc) as (_ & _ & _ & ->). }
  apply Forall_cons in Hi as [He Hi]. destruct (run_edit e c) as [c1| | | |] eqn:E1; cbn [mbind outcome_bind]; try done.
  intros E. rewrite (run_under k e j c c1 Hc He E1). cbn [mbind outcome_bind].
  destruct (child_laws k j c c1 Hj Hc) as (Hj1 & Hc1 & Hp & _). by rewrite (IH _ c1 Hj1 Hc1 Hi E), Hp.
Qed.

(** * diff as edits *)

(** The loops of [diff]. *)
Fixpoint diff_common (path : cstring) (i : nat) (l r : list json) : list json :=
  match l, r with
  | x :: l', y :: r' =>
      diff x y (path ++ str "/" ++ decimal (Z.of_nat i)) ++ diff_common path (S i) l' r'
  | _, _ => []
  end.

Fixpoint diff_members (path : cstring) (r l : list (cstring * json)) : list json :=
  match l with
  | [] => []
  | (k, v) :: l' =>
      match obj_find k r with
      | Some w => diff v w (path ++ str "/" ++ escape k)
      | None => [make_op "remove" (path ++ str "/" ++ escape k) None]
      end ++ diff_members path r l'
  end.

Lemma diff_array l r path :
  json_eqb (J_array l) (J_array r) = false →
  diff (J_array l) (J_array r) path =
    diff_common path 0 l r ++ remove_elements path (length r) (length l - length r) []
    ++ map (λ v, make_op "add" (path ++ str "/-") (Some v)) (drop (length l) r).
Proof.
  intros E. cbn [diff]. rewrite E. cbn [json_type]. rewrite bool_decide_eq_true_2 by done. cbn [negb].
  f_equal. generalize 0%nat as i. clear E. revert r.
  induction l as [|x l IH]; intros [|y r] i; try done. cbn [diff_common]. by rewrite <- IH.
Qed.

Lemma diff_object l r path :
  json_eqb (J_object l) (J_object r) = false →
  diff (J_object l) (J_object r) path =
    diff_members path r l
    ++ map (λ kv, make_op "add" (path ++ str "/" ++ escape kv.1) (Some kv.2))
         (List.filter (λ kv, negb (contains (J_object l) kv.1)) r).
Proof.
  intros E. cbn [diff]. rewrite E. cbn [json_type]. rewrite bool_decide_eq_true_2 by done. cbn [negb].
  f_equal. clear E. induction l as [|[k v] l IH]; [done|]. cbn [diff_members]. by rewrite <- IH.
Qed.

(** [es] are the operations [ops] makes at any path. *)
Definition denotes (ops : cstring → list json) (es : list edit) : Prop :=
  Forall inner es ∧ ∀ p, ops (to_string p) = map edit_json (map (under p) es).

Lemma denotes_app f g es1 es2 :
  denotes f es1 → denotes g es2 → denotes (λ path, f path ++ g path) (es1 ++ es2).
Proof.
  intros [H1 E1] [H2 E2]. split; [by apply Forall_app|]. intros p. by rewrite E1, E2, !map_app.
Qed.

Lemma denotes_under f k es :
  denotes f es → denotes (λ path, f (path ++ str "/" ++ escape k)) (map (under [k]) es).
Proof.
  intros [H E]. split.
  - apply Forall_forall. intros e He. apply list_elem_of_In, in_map_iff in He as (e' & <- & _).
    apply under_inner.
  - intros p. rewrite <- to_string_snoc, E, map_map, map_map, map_map. apply map_ext. intros e.
    destruct e; cbn [under edit_json]; by rewrite <- (assoc_L (++)).
Qed.

(** Operations on children. *)
Lemma denotes_children {A} (f : A → cstring → json) (g : A → edit) l :
  (∀ a, inner (g a)) → (∀ a p, f a (to_string p) = edit_json (under p (g a))) →
  denotes (λ path, map (λ a, f a path) l) (map g l).
Proof.
  intros Hi E. split.
  - apply Forall_forall. intros e He. apply list_elem_of_In, in_map_iff in He as (a & <- & _). apply Hi.
  - intros p. rewrite !map_map. apply map_ext. intros a. apply E.
Qed.

Lemma remove_elements_rev path i n acc :
  remove_elements path i n acc =
  map (λ i, make_op "remove" (path ++ str "/" ++ decimal (Z.of_nat i)) None) (rev (seq i n)) ++ acc.
Proof.
  revert i acc. induction n as [|n IH]; intros i acc; cbn [remove_elements seq rev]; [done|].
  by rewrite IH, map_app, <- app_assoc.
Qed.

Lemma denotes_remove_elements i n :
  denotes (λ path, remove_elements path i n [])
    (map (λ i, Remove [decimal (Z.of_nat i)]) (rev (seq i n))).
Proof.
  split.
  - apply Forall_forall. intros e He. apply list_elem_of_In, in_map_iff in He as (a & <- & _). done.
  - intros p. rewrite remove_elements_rev, app_nil_r, !map_map. apply map_ext. intros a.
    cbn [under edit_json]. rewrite to_string_snoc. by rewrite (proj1 (decimal_plain _ (Nat2Z.is_nonneg a))).
Qed.

(** * Running the edits *)

(** Fewer elements than [size_type] can count, as any vector has. *)
Definition node_sized (j : json) : bool :=
  match j with J_array l => Z.of_nat (length l) <? 2 ^ 64 - 1 | _ => true end.

(** Documents that [==] compares to themselves as equal. *)
Definition json_regular (j : json) : bool :=
  json_forall (λ j, node_wf j && node_ordered j && node_sized j) j.

Definition equal (a b : json) : Prop := json_eqb a b = true.

Lemma regular_equal j : json_regular j = true → equal j j.
Proof.
  intros H. apply json_eqb_refl. revert H. apply json_forall_mono. intros x H.
  apply andb_true_iff in H as [H _]. by apply andb_true_iff in H as [_ ?].
Qed.

Lemma regular_array l :
  json_regular (J_array l) = true →
  Z.of_nat (length l) < 2 ^ 64 - 1 ∧ Forall (λ x, json_regular x = true) l.
Proof.
  unfold json_regular. cbn [json_forall node_wf node_ordered node_sized].
  intros [Hn Hc]%andb_true_iff. apply andb_true_iff in Hn as [_ Hn]. split; [lia|].
  apply Forall_forall. intros x Hx. rewrite forallb_forall in Hc. by apply Hc, list_elem_of_In.
Qed.

Lemma regular_object m :
  json_regular (J_object m) = true →
  keys_sorted m = true ∧ Forall (λ kv, json_regular kv.2 = true) m.
Proof.
  unfold json_regular. cbn [json_forall node_wf node_ordered node_sized].
  intros [Hn Hc]%andb_true_iff. rewrite !andb_true_r in Hn. apply andb_true_iff in Hn as [Hn _].
  split; [done|]. apply Forall_forall. intros kv Hkv. rewrite forallb_forall in Hc.
  by apply Hc, list_elem_of_In.
Qed.

Lemma equal_arrays l r : Forall2 equal l r → equal (J_array l) (J_array r).
Proof.
  unfold equal at 2. cbn [json_eqb]. induction 1 as [|x y l r E _ IH]; [done|].
  unfold equal in E. by rewrite E.
Qed.

Lemma run_removes n k l :
  (length l = n + k ∨ k = 0 ∧ length l ≤ n)%nat → Z.of_nat (n + k) ≤ 2 ^ 64 - 1 →
  run_edits (map (λ i, Remove [decimal (Z.of_nat i)]) (rev (seq n k))) (J_array l) = Ret (J_array (take n l)).
Proof.
  revert l. induction k as [|k IH]; intros l Hl Hz.
  { cbn. by rewrite take_ge by lia. }
  rewrite seq_S, rev_app_distr. cbn [rev app map run_edits run_edit].
  unfold operation_remove. cbn [back pop_back last removelast mbind outcome_bind modify remove_child].
  rewrite array_index_decimal by lia. cbn [mbind outcome_bind]. unfold erase_index.
  rewrite (proj2 (Z.leb_gt _ _)) by lia. cbn [mbind outcome_bind]. rewrite Nat2Z.id.
  assert (delete (n + k)%nat l = take (n + k) l) as ->.
  { rewrite delete_take_drop, drop_ge by lia. apply app_nil_r. }
  rewrite IH; [|rewrite length_take; lia|lia]. rewrite take_take. by rewrite Nat.min_l by lia.
Qed.

Lemma run_appends vs l :
  run_edits (map (λ v, Add [str "-"] v) vs) (J_array l) = Ret (J_array (l ++ vs)).
Proof.
  revert l. induction vs as [|v vs IH]; intros l; [cbn; by rewrite app_nil_r|].
  cbn [map run_edits run_edit]. unfold operation_add.
  cbn [top mbind outcome_bind back pop_back last removelast modify add_child].
  rewrite bool_decide_eq_true_2 by done. cbn [mbind outcome_bind].
  change (cs_eqb (str "-") (str "-")) with true. cbn [mbind outcome_bind].
  rewrite IH. by rewrite <- app_assoc.
Qed.

(** What is to be shown of a document. *)
Definition converts (source : json) : Prop :=
  ∀ target, json_regular source = true → json_regular target = true →
  ∃ es r, denotes (diff source target) es ∧ run_edits es source = Ret r ∧ equal r target.

Lemma child_element pre x rest :
  Z.of_nat (length pre) < 2 ^ 64 - 1 →
  child (decimal (Z.of_nat (length pre))) (J_array (pre ++ x :: rest)) = Ret x ∧
  ∀ v, put_child (decimal (Z.of_nat (length pre))) v (J_array (pre ++ x :: rest)) = J_array (pre ++ v :: rest).
Proof.
  intros Hz. cbn [child put_child]. rewrite (proj2 (decimal_plain _ (Nat2Z.is_nonneg _))).
  rewrite array_index_decimal by lia. cbn [mbind outcome_bind]. unfold at_element.
  rewrite length_app. cbn [length]. rewrite (proj2 (Z.leb_gt _ _)) by lia. rewrite !Nat2Z.id.
  rewrite list_lookup_middle by done. split; [done|]. intros v. by rewrite insert_app_r_alt, Nat.sub_diag by done.
Qed.

Lemma common_runs l r pre :
  Forall converts l → Forall (λ x, json_regular x = true) l → Forall (λ x, json_regular x = true) r →
  Z.of_nat (length pre + length l) < 2 ^ 64 - 1 →
  ∃ es rs, denotes (λ path, diff_common path (length pre) l r) es ∧
    run_edits es (J_array (pre ++ l)) = Ret (J_array (pre ++ rs ++ drop (length r) l)) ∧
    Forall2 equal rs (take (length l) r).
Proof.
  revert r pre. induction l as [|x l IH]; intros r pre Hc Hl Hr Hz.
  { exists [], []. cbn. rewrite drop_nil. split; [split; [constructor|done]|]. split; [done|constructor]. }
  destruct r as [|y r].
  { exists [], []. split; [split; [constructor|done]|]. split; [done|constructor]. }
  apply Forall_cons in Hc as [Hx Hc], Hl as [Hlx Hl], Hr as [Hry Hr]. cbn [length] in Hz.
  destruct (Hx y Hlx Hry) as (es1 & x' & Hd1 & Hrun1 & He1).
  destruct (IH r (pre ++ [x']) Hc Hl Hr) as (es2 & rs & Hd2 & Hrun2 & He2).
  { rewrite length_app. cbn. lia. }
  exists (map (under [decimal (Z.of_nat (length pre))]) es1 ++ es2), (x' :: rs). split; [|split].
  - rewrite length_app, Nat.add_1_r in Hd2. cbn [diff_common].
    pose proof (denotes_under _ (decimal (Z.of_nat (length pre))) _ Hd1) as Hu.
    rewrite (proj1 (decimal_plain _ (Nat2Z.is_nonneg (length pre)))) in Hu. by apply denotes_app.
  - rewrite run_edits_app. destruct (child_element pre x l) as [Hch Hput]; [lia|].
    rewrite (run_edits_under _ es1 _ x x'); [|done|done|apply Hd1|done]. cbn [mbind outcome_bind].
    rewrite Hput. rewrite <- app_assoc in Hrun2. cbn [app] in Hrun2. rewrite Hrun2.
    by rewrite <- app_assoc.
  - cbn [take length]. by constructor.
Qed.

Lemma denotes_ext f g es : (∀ path, g path = f path) → denotes f es → denotes g es.
Proof. intros E [H Hf]. split; [done|]. intros p. by rewrite E. Qed.

(** A document that is replaced. *)
Lemma replaced source target :
  json_regular target = true → (∀ path, diff source target path = [make_op "replace" path (Some target)]) →
  ∃ es r, denotes (diff source target) es ∧ run_edits es source = Ret r ∧ equal r target.
Proof.
  intros Ht Hd. exists [Replace [] target], target. split; [|split; [done|by apply regular_equal]].
  split; [repeat constructor|]. intros p. rewrite Hd. cbn [map under edit_json]. by rewrite app_nil_r.
Qed.

(** Equal documents need no edits, documents of different types are replaced. *)
Lemma converts_same_type source :
  (∀ target, json_regular source = true → json_regular target = true →
     json_eqb source target = false → json_type source = json_type target →
     ∃ es r, denotes (diff source target) es ∧ run_edits es source = Ret r ∧ equal r target) →
  converts source.
Proof.
  intros H target Hs Ht.
  assert (∀ path, diff source target path = if json_eqb source target then [] else
    if negb (bool_decide (json_type source = json_type target)) then [make_op "replace" path (Some target)]
    else diff source target path) as Hd.
  { intros path. destruct source; cbn [diff]; destruct (json_eqb _ target); try done; by case_bool_decide. }
  destruct (json_eqb source target) eqn:E.
  { exists [], source. split; [|by split]. split; [constructor|]. intros p. by rewrite Hd. }
  destruct (decide (json_type source = json_type target)) as [Ety|Ety]; [by apply H|].
  apply replaced; [done|]. intros path. rewrite Hd. by rewrite bool_decide_eq_false_2.
Qed.

Lemma array_converts l : Forall converts l → converts (J_array l).
Proof.
  intros Hc. apply converts_same_type. intros target Hs Ht E Ety.
  destruct target as [| |r| | | | | | |]; try done.
  destruct (regular_array _ Hs) as [Hz Hl]. destruct (regular_array _ Ht) as [Hz' Hr].
  destruct (common_runs l r [] Hc Hl Hr) as (es & rs & Hd & Hrun & He); [cbn; lia|].
  assert (length rs = length (take (length l) r)) as Hlen by (by eapply Forall2_length).
  rewrite length_take in Hlen. eexists _, (J_array (rs ++ drop (length l) r)). split; [|split].
  - eapply (denotes_ext (λ path, diff_common path 0 l r ++ remove_elements path (length r) (length l - length r) []
      ++ map (λ v, make_op "add" (path ++ str "/-") (Some v)) (drop (length l) r))).
    { intros path. by apply diff_array. }
    apply denotes_app; [exact Hd|]. apply denotes_app; [apply denotes_remove_elements|].
    apply (denotes_children (λ v path, make_op "add" (path ++ str "/-") (Some v)) (λ v, Add [str "-"] v)); [done|].
    intros v p. cbn [under edit_json]. rewrite to_string_snoc. done.
  - rewrite run_edits_app. cbn [app] in Hrun. rewrite Hrun. cbn [mbind outcome_bind].
    rewrite run_edits_app, run_removes; [|rewrite length_app, length_drop; lia|lia].
    cbn [mbind outcome_bind]. rewrite run_appends. do 3 f_equal.
    destruct (decide (length l ≤ length r)%nat).
    + rewrite drop_ge, app_nil_r by lia. apply take_ge. lia.
    + rewrite take_app_le by lia. apply take_ge. lia.
  - apply equal_arrays. rewrite <- (take_drop (length l) r) at 2. apply Forall2_app; [done|].
    apply Forall_Forall2_diag, Forall_drop. eapply Forall_impl; [done|]. intros x. apply regular_equal.
Qed.

(** * Objects *)

Lemma obj_find_below k m : forallb (λ kv, cs_ltb k kv.1) m = true → obj_find k m = None.
Proof.
  induction m as [|[k1 v1] m IH]; cbn [forallb obj_find]; [done|]. intros [H1 H2]%andb_true_iff.
  destruct (cs_eqb k k1) eqn:E; [|auto]. apply cs_eqb_true in E as ->. by rewrite cs_ltb_irrefl in H1.
Qed.

Lemma obj_find_erase_eq k m : obj_find k (obj_erase k m) = None.
Proof.
  unfold obj_erase. induction m as [|[k1 v1] m IH]; cbn [List.filter fst]; [done|].
  destruct (cs_eqb k1 k) eqn:E; cbn [negb obj_find]; [done|].
  destruct (cs_eqb k k1) eqn:E'; [|done]. apply cs_eqb_true in E' as ->. by rewrite cs_eqb_refl in E.
Qed.

Lemma obj_find_erase_ne k k' m : k' ≠ k → obj_find k' (obj_erase k m) = obj_find k' m.
Proof.
  intros Hne. unfold obj_erase. induction m as [|[k1 v1] m IH]; cbn [List.filter fst]; [done|].
  destruct (cs_eqb k1 k) eqn:E; cbn [negb obj_find]; rewrite IH; [|done].
  apply cs_eqb_true in E as ->. by destruct (cs_eqb k' k) eqn:E'; [apply cs_eqb_true in E' as ->|].
Qed.

Lemma obj_erase_sorted k m : keys_sorted m = true → keys_sorted (obj_erase k m) = true.
Proof.
  unfold obj_erase. induction m as [|[k1 v1] m IH]; cbn [List.filter fst keys_sorted]; [done|].
  intros [Ha Hs]%andb_true_iff. destruct (cs_eqb k1 k); cbn [negb keys_sorted]; [by apply IH|]. rewrite IH by done. rewrite andb_true_r.
  rewrite forallb_forall in *. intros kv [Hkv _]%filter_In. by apply Ha.
Qed.

(** Two sorted objects with related members under every key agree pairwise. *)
Lemma sorted_members (R : json → json → Prop) m r :
  keys_sorted m = true → keys_sorted r = true →
  (∀ k, option_Forall2 R (obj_find k m) (obj_find k r)) → Forall2 (λ x y, x.1 = y.1 ∧ R x.2 y.2) m r.
Proof.
  revert r. induction m as [|[k v] m IH]; intros [|[k' v'] r] Hm Hr H; [done|..].
  - specialize (H k'). cbn in H. rewrite cs_eqb_refl in H. inversion H.
  - specialize (H k). cbn in H. rewrite cs_eqb_refl in H. inversion H.
  - cbn [keys_sorted] in Hm, Hr. apply andb_true_iff in Hm as [Ha Hm], Hr as [Hb Hr].
    assert (k = k') as <-.
    { pose proof (H k) as H1. pose proof (H k') as H2. cbn [obj_find] in H1, H2.
      rewrite cs_eqb_refl in H1, H2. destruct (cs_eqb k k') eqn:E; [by apply cs_eqb_true|].
      assert (cs_eqb k' k = false) as E' by (apply bool_decide_eq_false; apply bool_decide_eq_false in E; congruence).
      rewrite E' in H2. exfalso.
      assert (∃ x, obj_find k r = Some x) as [x Hx] by (inversion H1; eauto).
      assert (∃ y, obj_find k' m = Some y) as [y Hy] by (inversion H2; eauto).
      pose proof (obj_find_after _ _ _ _ Hb Hx) as L1. pose proof (obj_find_after _ _ _ _ Ha Hy).
      pose proof (cs_ltb_asym _ _ L1). congruence. }
    pose proof (H k) as H1. cbn [obj_find] in H1. rewrite cs_eqb_refl in H1.
    constructor; [split; [done|by inversion H1]|]. apply IH; [done|done|]. intros k1.
    destruct (decide (k1 = k)) as [->|Hne].
    + rewrite (obj_find_below _ _ Ha), (obj_find_below _ _ Hb). constructor.
    + specialize (H k1). cbn [obj_find] in H.
      assert (cs_eqb k1 k = false) as E by (by apply bool_decide_eq_false). by rewrite E in H.
Qed.

Lemma equal_objects m r :
  keys_sorted m = true → keys_sorted r = true →
  (∀ k, option_Forall2 equal (obj_find k m) (obj_find k r)) → equal (J_object m) (J_object r).
Proof.
  intros Hm Hr H. pose proof (sorted_members equal m r Hm Hr H) as HF. unfold equal. cbn [json_eqb].
  clear -HF. induction HF as [|[k x] [k' y] m r [Ek Ex] _ IH]; [done|]. cbn [fst snd] in Ek, Ex.
  unfold equal in Ex. by rewrite Ek, cs_eqb_refl, Ex.
Qed.

Lemma obj_find_elem k v m : obj_find k m = Some v → (k, v) ∈ m.
Proof.
  induction m as [|[k1 v1] m IH]; cbn [obj_find]; [done|]. destruct (cs_eqb k k1) eqn:E.
  - apply cs_eqb_true in E as ->. intros [= ->]. left.
  - intros Hf. right. auto.
Qed.

Lemma run_remove_member k v m :
  obj_find k m = Some v → run_edits [Remove [k]] (J_object m) = Ret (J_object (obj_erase k m)).
Proof.
  intros Hf. cbn [run_edits run_edit]. unfold operation_remove.
  cbn [back pop_back last removelast mbind outcome_bind modify remove_child]. by rewrite Hf.
Qed.

(** The first pass: the members of the source. *)
Lemma members_runs r l m :
  Forall (λ kv, converts kv.2) l → Forall (λ kv, json_regular kv.2 = true) l →
  Forall (λ kv, json_regular kv.2 = true) r → keys_sorted l = true → keys_sorted m = true →
  (∀ k v, obj_find k l = Some v → obj_find k m = Some v) →
  ∃ es m', denotes (λ path, diff_members path r l) es ∧
    run_edits es (J_object m) = Ret (J_object m') ∧ keys_sorted m' = true ∧
    ∀ k, match obj_find k l with
         | Some _ => option_Forall2 equal (obj_find k m') (obj_find k r)
         | None => obj_find k m' = obj_find k m
         end.
Proof.
  intros Hc Hl Hr. revert m. induction l as [|[k v] l IH]; intros m Hsl Hsm Hfind.
  { exists [], m. split; [split; [constructor|done]|]. done. }
  apply Forall_cons in Hc as [Hv Hc], Hl as [Hlv Hl]. cbn [snd] in Hv, Hlv.
  cbn [keys_sorted] in Hsl. apply andb_true_iff in Hsl as [Hbelow Hsl].
  pose proof (obj_find_below _ _ Hbelow) as Hk.
  assert (obj_find k m = Some v) as Hkm by (apply Hfind; cbn; by rewrite cs_eqb_refl).
  assert (∃ es1 m1, denotes (λ path, match obj_find k r with
      | Some w => diff v w (path ++ str "/" ++ escape k)
      | None => [make_op "remove" (path ++ str "/" ++ escape k) None] end) es1 ∧
    run_edits es1 (J_object m) = Ret (J_object m1) ∧ keys_sorted m1 = true ∧
    option_Forall2 equal (obj_find k m1) (obj_find k r) ∧
    ∀ k', k' ≠ k → obj_find k' m1 = obj_find k' m) as (es1 & m1 & Hd1 & Hrun1 & Hs1 & He1 & Hne1).
  { destruct (obj_find k r) as [w|] eqn:Ew.
    - assert (json_regular w = true) as Hw.
      { rewrite Forall_forall in Hr. apply (Hr (k, w)). by apply obj_find_elem. }
      destruct (Hv w Hlv Hw) as (es & v' & Hd & Hrun & He).
      exists (map (under [k]) es), (obj_set k v' m). split; [by apply denotes_under|].
      split; [|split; [by apply obj_set_sorted|split]].
      + rewrite (run_edits_under k es _ v v'); [done|done| |apply Hd|done].
        cbn [child]. unfold at_member. by rewrite Hkm.
      + rewrite obj_find_set_eq. by constructor.
      + intros k' Hne. by apply obj_find_set_ne.
    - exists [Remove [k]], (obj_erase k m).
      split; [split; [repeat constructor|]|].
      { intros p. cbn [map under edit_json]. by rewrite to_string_snoc. }
      split; [by eapply run_remove_member|]. split; [by apply obj_erase_sorted|]. split.
      + rewrite obj_find_erase_eq. constructor.
      + intros k' Hne. by apply obj_find_erase_ne. }
  destruct (IH Hc Hl m1 Hsl Hs1) as (es2 & m' & Hd2 & Hrun2 & Hs' & Hf').
  { intros k' v' Hf. assert (k' ≠ k) by (intros ->; congruence). rewrite Hne1 by done.
    apply Hfind. cbn [obj_find]. destruct (cs_eqb k' k) eqn:E; [by apply cs_eqb_true in E|done]. }
  exists (es1 ++ es2), m'. split; [by apply denotes_app|].
  split; [rewrite run_edits_app, Hrun1; done|]. split; [done|]. intros k'. cbn [obj_find].
  specialize (Hf' k'). destruct (cs_eqb k' k) eqn:E.
  - apply cs_eqb_true in E as ->. rewrite Hk in Hf'. by rewrite Hf'.
  - apply bool_decide_eq_false in E. destruct (obj_find k' l); [done|]. by rewrite Hf', Hne1.
Qed.

(** The second pass: the members that are new. *)
Lemma run_add_members vs m :
  keys_sorted m = true → keys_sorted vs = true →
  ∃ m', run_edits (map (λ kv, Add [kv.1] kv.2) vs) (J_object m) = Ret (J_object m') ∧
    keys_sorted m' = true ∧
    ∀ k, obj_find k m' = match obj_find k vs with Some v => Some v | None => obj_find k m end.
Proof.
  revert m. induction vs as [|[k v] vs IH]; intros m Hm Hs; [by exists m|].
  cbn [keys_sorted] in Hs. apply andb_true_iff in Hs as [Hb Hs].
  destruct (IH (obj_set k v m)) as (m' & E & Hs' & Hf); [by apply obj_set_sorted|done|].
  exists m'. split; [|split; [done|]].
  - cbn [map run_edits run_edit fst snd]. unfold operation_add.
    cbn [top mbind outcome_bind back pop_back last removelast modify add_child].
    rewrite bool_decide_eq_true_2 by done. cbn [mbind outcome_bind]. unfold at_key.
    assert (∃ x, obj_find k (obj_emplace_null k m) = Some x) as [x Hx].
    { unfold obj_emplace_null. destruct (obj_find k m) eqn:Ek; [eauto|]. rewrite obj_find_set_eq. eauto. }
    rewrite Hx. cbn [mbind outcome_bind].
    assert (obj_set k v (obj_emplace_null k m) = obj_set k v m) as ->; [|done].
    unfold obj_emplace_null. destruct (obj_find k m); [done|]. apply obj_set_set.
  - intros k'. rewrite Hf. cbn [obj_find]. destruct (cs_eqb k' k) eqn:Ek.
    + apply cs_eqb_true in Ek as ->. by rewrite (obj_find_below _ _ Hb), obj_find_set_eq.
    + apply bool_decide_eq_false in Ek. by rewrite obj_find_set_ne.
Qed.

Lemma filter_members (f : cstring → bool) k r :
  obj_find k (List.filter (λ kv, f kv.1) r) = if f k then obj_find k r else None.
Proof.
  induction r as [|[k1 v1] r IH]; cbn [List.filter fst]; [by destruct (f k)|].
  destruct (f k1) eqn:E1; cbn [obj_find]; rewrite IH; destruct (cs_eqb k k1) eqn:Ek; try done;
    apply cs_eqb_true in Ek as ->; by rewrite E1.
Qed.

Lemma filter_sorted f r : keys_sorted r = true → keys_sorted (List.filter f r) = true.
Proof.
  induction r as [|[k1 v1] r IH]; cbn [List.filter keys_sorted]; [done|]. intros [Ha Hs]%andb_true_iff.
  destruct (f (k1, v1)); cbn [keys_sorted]; [|by apply IH]. rewrite IH by done. rewrite andb_true_r.
  rewrite forallb_forall in *. intros kv [Hkv _]%filter_In. by apply Ha.
Qed.

Lemma object_converts l : Forall (λ kv, converts kv.2) l → converts (J_object l).
Proof.
  intros Hc. apply converts_same_type. intros target Hs Ht E Ety.
  destruct target as [|r| | | | | | | |]; try done.
  destruct (regular_object _ Hs) as [Hsl Hl]. destruct (regular_object _ Ht) as [Hsr Hr].
  destruct (members_runs r l l Hc Hl Hr Hsl Hsl) as (es & m1 & Hd & Hrun & Hs1 & Hf1); [done|].
  set (new := List.filter (λ kv, negb (contains (J_object l) kv.1)) r).
  destruct (run_add_members new m1 Hs1) as (m2 & Hrun2 & Hs2 & Hf2); [by apply filter_sorted|].
  exists (es ++ map (λ kv, Add [kv.1] kv.2) new), (J_object m2). split; [|split].
  - eapply (denotes_ext (λ path, diff_members path r l ++
      map (λ kv, make_op "add" (path ++ str "/" ++ escape kv.1) (Some kv.2)) new)).
    { intros path. by apply diff_object. }
    apply denotes_app; [done|].
    apply (denotes_children (λ kv path, make_op "add" (path ++ str "/" ++ escape kv.1) (Some kv.2))
      (λ kv, Add [kv.1] kv.2)); [done|]. intros kv p. cbn [under edit_json]. by rewrite to_string_snoc.
  - rewrite run_edits_app, Hrun. done.
  - apply equal_objects; [done|done|]. intros k. rewrite Hf2. unfold new.
    rewrite (filter_members (λ k, negb (contains (J_object l) k))). specialize (Hf1 k).
    cbn [contains]. destruct (obj_find k l) as [x|] eqn:Ek; cbn [negb]; [done|].
    destruct (obj_find k r) as [w|] eqn:Ew; [|rewrite Hf1; constructor].
    constructor. apply regular_equal. rewrite Forall_forall in Hr. apply (Hr (k, w)). by apply obj_find_elem.
Qed.

(** * patch and diff *)

Lemma primitive_converts source :
  (∀ target path, json_eqb source target = false → json_type source = json_type target →
     diff source target path = [make_op "replace" path (Some target)]) →
  converts source.
Proof. intros H. apply converts_same_type. intros target _ Ht E Ety. apply replaced; auto. Qed.

Lemma diff_converts source : converts source.
Proof.
  induction source as [|m IH|l IH|s|b|z|z|f|b s|] using json_rect_nested;
    [|by apply object_converts|by apply array_converts|..];
    apply primitive_converts; intros target path E Ety; cbn [diff]; rewrite E;
    rewrite bool_decide_eq_true_2 by done; by destruct target.
Qed.

Lemma patch_diff_equal source target :
  json_regular source = true → json_regular target = true →
  ∃ r, patch source (J_array (diff source target [])) = Ret r ∧ equal r target.
Proof.
  intros Hs Ht. destruct (diff_converts source target Hs Ht) as (es & r & [_ Hd] & Hrun & He).
  exists r. split; [|done]. pose proof (Hd []) as E. change (to_string []) with (nil : cstring) in E.
  cbn [patch]. rewrite E.
  assert (map (under []) es = es) as ->; [|by rewrite patch_loop_edits].
  rewrite <- (map_id es) at 2. apply map_ext. by intros [].
Qed.

(** * Parents that hold no children *)

(** A string, a boolean, a number or a binary value. *)
Definition childless (j : json) : bool := is_primitive j && negb (is_null j).

Lemma modify_at p f j c r :
  get_checked p j = Ret c → f c = Abort ∨ f c = Throw r → modify p f j = f c.
Proof.
  revert j. induction p as [|t p IH]; intros j; cbn [get_checked modify]; [by intros [= ->]|].
  destruct (child t j) as [x| | | |]; try done. cbn [mbind outcome_bind]. intros Hg Hf.
  rewrite (IH x Hg Hf). by destruct Hf as [-> | ->].
Qed.

Lemma wf_child t j c :
  json_wf j = true → child t j = Ret c → container j ∧ json_wf c = true.
Proof.
  unfold json_wf. destruct j as [|m|l| | | | | | |]; try done.
  - cbn [json_forall node_wf container child]. intros [[Hs _]%andb_true_iff Hc]%andb_true_iff.
    unfold at_member. destruct (obj_find t m) as [x|] eqn:E; [|done]. intros [= <-]. split; [done|].
    rewrite forallb_forall in Hc. apply (Hc (t, x)). by apply list_elem_of_In, obj_find_elem.
  - cbn [json_forall node_wf]. intros Hc Hch. destruct (child_array t l c Hch) as (i & _ & Hi & _).
    split; [done|]. cbn [andb] in Hc. rewrite forallb_forall in Hc. apply Hc.
    by eapply list_elem_of_In, list_elem_of_lookup_2.
Qed.

Lemma modify_same p f j c :
  json_wf j = true → get_checked p j = Ret c → f c = Ret c → modify p f j = Ret j.
Proof.
  revert j. induction p as [|t p IH]; intros j Hw; cbn [get_checked modify]; [by intros [= ->]|].
  destruct (child t j) as [x| | | |] eqn:Ex; try done. cbn [mbind outcome_bind]. intros Hg Hf.
  destruct (wf_child t j x Hw Ex) as [Hj Hx]. rewrite (IH x Hx Hg Hf). cbn [mbind outcome_bind].
  by destruct (child_laws t j x x Hj Ex) as (_ & _ & _ & ->).
Qed.

Lemma snoc_parts (p : json_pointer) k :
  p ++ [k] ≠ [] ∧ back (p ++ [k]) = Ret k ∧ pop_back (p ++ [k]) = Ret p.
Proof.
  split; [by destruct p|]. unfold back. rewrite last_snoc. split; [done|].
  unfold pop_back. rewrite removelast_last. by destruct p.
Qed.

(** * Merge patches *)

(** The loop of [merge_patch] over the members of the patch. *)
Fixpoint merge_members (p m : list (cstring * json)) : list (cstring * json) :=
  match p with
  | [] => m
  | (k, v) :: p' =>
      merge_members p' (if is_null v then obj_erase k m
                        else obj_set k (merge_patch (default J_null (obj_find k m)) v) m)
  end.

Lemma merge_patch_object j p :
  merge_patch j (J_object p) = J_object (merge_members p (match j with J_object m => m | _ => [] end)).
Proof.
  done.
Qed.

(** What the loop does to one member. *)
Definition merged (p m : list (cstring * json)) (k : cstring) : option json :=
  match obj_find k p with
  | Some v => if is_null v then None else Some (merge_patch (default J_null (obj_find k m)) v)
  | None => obj_find k m
  end.

Lemma merge_members_find p m :
  keys_sorted p = true → keys_sorted m = true →
  keys_sorted (merge_members p m) = true ∧ ∀ k, obj_find k (merge_members p m) = merged p m k.
Proof.
  revert m. induction p as [|[k v] p IH]; intros m Hp Hm; [done|].
  cbn [keys_sorted] in Hp. apply andb_true_iff in Hp as [Hb Hp]. cbn [merge_members].
  set (m1 := if is_null v then _ else _).
  assert (keys_sorted m1 = true ∧ (∀ k', k' ≠ k → obj_find k' m1 = obj_find k' m) ∧
    obj_find k m1 = if is_null v then None else Some (merge_patch (default J_null (obj_find k m)) v))
    as (Hm1 & Hne & Heq).
  { unfold m1. destruct (is_null v).
    - split; [by apply obj_erase_sorted|]. split; [intros; by apply obj_find_erase_ne|]. apply obj_find_erase_eq.
    - split; [by apply obj_set_sorted|]. split; [intros; by apply obj_find_set_ne|]. apply obj_find_set_eq. }
  destruct (IH m1 Hp Hm1) as [Hs Hf]. split; [done|]. intros k'. rewrite Hf. unfold merged. cbn [obj_find].
  destruct (cs_eqb k' k) eqn:E.
  - apply cs_eqb_true in E as ->. by rewrite (obj_find_below _ _ Hb).
  - apply bool_decide_eq_false in E. by rewrite (Hne k' E).
Qed.

Lemma wf_members m k v :
  json_wf (J_object m) = true → obj_find k m = Some v → json_wf v = true.
Proof.
  intros Hw Hf. destruct (wf_child k (J_object m) v Hw) as [_ ?]; [|done].
  cbn [child]. unfold at_member. by rewrite Hf.
Qed.

(** Applying a merge patch a second time changes nothing. *)
Lemma merge_patch_idempotent p j :
  json_wf p = true → json_wf j = true → merge_patch (merge_patch j p) p = merge_patch j p.
Proof.
  revert j. induction p as [|p IH|l IH|s|b|z|z|f|b s|] using json_rect_nested; intros j Hp Hj; try done.
  rewrite !merge_patch_object. f_equal. set (m := match j with J_object m => m | _ => [] end).
  assert (json_wf (J_object m) = true) as Hm by (by destruct j).
  assert (∀ m, json_wf (J_object m) = true → keys_sorted m = true) as Hsort.
  { intros m' [[Hs _]%andb_true_iff _]%andb_true_iff. done. }
  destruct (merge_members_find p m) as [Hs1 Hf1]; [by apply Hsort..|].
  destruct (merge_members_find p (merge_members p m)) as [Hs2 Hf2]; [by apply Hsort|done|].
  assert (Forall2 (λ x y : cstring * json, x.1 = y.1 ∧ x.2 = y.2)
    (merge_members p (merge_members p m)) (merge_members p m)) as HF.
  { apply (sorted_members eq); [done|done|]. intros k. rewrite Hf2. unfold merged at 1. rewrite !Hf1.
    unfold merged. destruct (obj_find k p) as [v|] eqn:Ev; [|destruct (obj_find k m); by constructor].
    destruct (is_null v) eqn:En; [constructor|]. cbn [default]. constructor.
    rewrite Forall_forall in IH. apply (IH (k, v) (obj_find_elem _ _ _ Ev));
      [by apply (wf_members p k v)|].
    destruct (obj_find k m) as [x|] eqn:Ex; [|done]. by apply (wf_members m k x). }
  revert HF. generalize (merge_members p (merge_members p m)) (merge_members p m). clear. intros l1 l2.
  induction 1 as [|[k x] [k' y] ? ? [Ek Ex] _ IH]; [done|]. cbn in Ek, Ex. by rewrite Ek, Ex, IH.
Qed.

(** * Membership through a pointer *)

Lemma span_digits_parts s : s = (span_digits s).1 ++ (span_digits s).2.
Proof.
  induction s as [|c s IH]; cbn [span_digits]; [done|]. destruct (is_digit c); [|done].
  destruct (span_digits s) as [d r]. cbn [fst snd app] in *. by rewrite <- IH.
Qed.

Lemma array_index_text t z : array_index t = Ret z → index_text_ok t = true.
Proof.
  unfold array_index, c_strtoull. pose proof (span_digits_parts t) as Ht.
  pose proof (span_digits_digits t) as Hd. destruct (span_digits t) as [d r]. cbn [fst snd] in *.
  destruct (_ && _); [done|]. destruct (_ && _) eqn:E; [done|].
  destruct (digits_value 0 d <? 2 ^ 64); [|by rewrite orb_true_r].
  destruct (bool_decide (t = [])) eqn:Et; [by apply bool_decide_eq_true in Et as ->|].
  cbn [orb]. destruct (bool_decide (r = [])) eqn:Hr; cbn [negb]; [|done].
  apply bool_decide_eq_true in Hr as ->. rewrite app_nil_r in Ht. subst d.
  intros _. unfold all_digits, is_digit in Hd. destruct t as [|c [|c' t]]; [done| |].
  - cbn [forallb] in Hd. cbn [index_text_ok]. by apply andb_true_iff in Hd as [? _].
  - cbn [length Nat.ltb head] in E. cbn [index_text_ok]. cbn [forallb] in Hd.
    apply andb_true_iff in Hd as [_ Hd]. apply andb_true_iff. split; [|done].
    destruct (in_range 49 57 c); [done|]. by cbn in E.
Qed.

(** Where [contains] answers, it tells whether the pointer can be resolved. *)
Lemma contains_ptr_get ptr j b :
  contains_ptr ptr j = Ret b → b = true ↔ ∃ v, get_checked ptr j = Ret v.
Proof.
  revert j. induction ptr as [|t ptr IH]; intros j; cbn [contains_ptr get_checked].
  { intros [= <-]. split; [by exists j|done]. }
  assert (∀ r : res json, (∀ v, r ≠ Ret v) → Ret (E := json_exn) false = Ret b → b = true ↔ ∃ v, r = Ret v) as Hno.
  { intros r Hr [= <-]. split; [done|]. by intros [v Hv%Hr]. }
  destruct j as [|m|l| | | | | | |]; try (apply Hno; by intros v).
  - cbn [child]. unfold at_member. destruct (obj_find t m) as [x|]; cbn [mbind outcome_bind]; [apply IH|].
    apply Hno. by intros v.
  - cbn [child]. destruct (cs_eqb t (str "-")); [apply Hno; by intros v|].
    destruct (index_text_ok t) eqn:Et; cbn [negb].
    + destruct (array_index t) as [i| | | |] eqn:Ei; cbn [mbind outcome_bind]; try done.
      unfold at_element. destruct (_ <=? i); [apply Hno; by intros v|].
      destruct (l !! Z.to_nat i); [apply IH|done].
    + apply Hno. intros v. destruct (array_index t) as [i| | | |] eqn:Ei; cbn [mbind outcome_bind]; try done.
      apply array_index_text in Ei. congruence.
Qed.
