(* ===== verification/JsonProperties.v ===== *)
(** What the JSON library promises its clients: [dump] and [parse] are inverse
    to each other, every text has exactly one outcome at every entry point,
    numbers and strings survive printing, element access behaves as a map. *)

From S2P Require Import Prelude Utf8 Double JsonValue JsonLexer JsonLexerFacts JsonTokens.
From S2P Require Import JsonNumbers JsonParser JsonParserFacts JsonHandlers JsonGrammar.
From S2P Require Import JsonToChars GrisuBounds GrisuDigits Grisu FloatText.
From S2P Require Import JsonSerializer JsonIntegerText JsonStringText JsonRoundTrip JsonTyping.

(** A bare text, without white space around it. *)
Lemma parse_bare dp ic ae j t :
  dp_ok dp = true → jtext j t → json_parse dp t ae ic = Ret j.
Proof.
  intros Hdp Ht. pose proof (json_parse_text dp ic Hdp j t [] [] ae eq_refl Ht eq_refl) as E.
  cbn [app] in E. by rewrite app_nil_r in E.
Qed.

(** * Values and texts *)

(** C1: for a well-formed value that the error handler can write (nothing in it
    is discarded and, with the handler [strict], every string and key is valid
    UTF-8), compact or indented by at most 512 with a white-space character,
    and with either character policy, [dump] writes a text that [parse] reads
    back, in every locale whose decimal point is one byte that is no digit, [e]
    or [E], to the canonical form of the value: integers that are not negative
    are unsigned, numbers that are not finite are null, binary values are
    objects, and strings are repaired as the handler says. *)
Theorem dump_parse_canonical dp ic ae h ea indent c j :
  dp_ok dp = true → indent ≤ 512 → is_space c = true →
  json_wf j = true → dumpable h j = true →
  ∃ t, json_dump indent c ea h j = Ret t ∧ json_parse dp t ae ic = Ret (canon h j).
Proof.
  intros Hdp Hi Hc Hwf Hd. destruct (json_dump_text h ea indent c j Hi Hc Hwf Hd) as (t & -> & Ht).
  exists t. split; [done|]. by apply parse_bare.
Qed.

Definition sample : json :=
  J_object [(str "a", J_array [J_number_integer (-7); J_number_unsigned (2 ^ 64 - 1); J_null]);
            (str "b", J_string (str "x"))].

Lemma dump_parse_canonical_witness :
  ∃ t, json_dump 4 32 true strict sample = Ret t ∧
    json_parse 46 t true false = Ret (canon strict sample).
Proof. apply (dump_parse_canonical 46 false true strict true 4 32 sample); vm_compute; done. Defined.

(** On values JSON can represent (finite numbers, no binary, valid
    UTF-8), parsing the dumped text yields a value that [operator==] calls
    equal to the original. *)
Theorem dump_parse_equal dp ic ae ea indent c j :
  dp_ok dp = true → indent ≤ 512 → is_space c = true →
  json_wf j = true → dumpable strict j = true → json_forall node_textual j = true →
  ∃ t j', json_dump indent c ea strict j = Ret t ∧ json_parse dp t ae ic = Ret j' ∧
    json_eqb j' j = true.
Proof.
  intros Hdp Hi Hc Hwf Hd Ht.
  destruct (json_dump_text strict ea indent c j Hi Hc Hwf Hd) as (t & -> & Hj).
  exists t, (canon strict j). split; [done|]. split; [by apply parse_bare|].
  by apply json_eqb_canon.
Qed.

Lemma dump_parse_equal_witness :
  ∃ t j', json_dump (-1) 32 false strict sample = Ret t ∧ json_parse 44 t false true = Ret j' ∧
    json_eqb j' sample = true.
Proof. apply (dump_parse_equal 44 true false false (-1) 32 sample); vm_compute; done. Defined.



(** C4: in a locale whose decimal point is one byte that is no digit, [e] or
    [E], parsing ends on every byte string, none of the assertions of the lexer
    and the parser fails, nothing undefined is reached, and the entry points
    agree: [accept] is true exactly when [parse] returns a value, and without
    exceptions [parse] returns the same value, or the discarded value where it
    would throw. *)
Theorem parse_outcome dp ic input :
  dp_ok dp = true → forallb is_byte input = true →
  ∃ b : bool, accept dp input ic = Ret b ∧
    if b then ∃ j, json_parse dp input true ic = Ret j ∧ json_parse dp input false ic = Ret j
    else (∃ e, json_parse dp input true ic = Throw e) ∧
         json_parse dp input false ic = Ret J_discarded.
Proof.
  intros Hdp Hb. pose proof (entry_points_agree dp ic Hdp input Hb) as H.
  destruct (json_parse dp input true ic) as [j|e| | |]; try done; destruct H as [-> ->];
    [exists true|exists false]; eauto.
Qed.

Lemma parse_outcome_witness :
  ∃ b : bool, accept 46 (str "[1, 2,") false = Ret b ∧
    if b then ∃ j, json_parse 46 (str "[1, 2,") true false = Ret j ∧
                   json_parse 46 (str "[1, 2,") false false = Ret j
    else (∃ e, json_parse 46 (str "[1, 2,") true false = Throw e) ∧
         json_parse 46 (str "[1, 2,") false false = Ret J_discarded.
Proof. apply (parse_outcome 46 false (str "[1, 2,")); vm_compute; done. Defined.

(** * Numbers *)

(** C5: a finite double is printed in at most 64 characters, and reading the
    text in any locale with a decimal point of one byte that is no digit, [e]
    or [E] gives back the same double, bit for bit. *)
Theorem float_text_roundtrip x :
  finite_double x →
  ∃ t, to_chars 64 x = Ret t ∧ (length t ≤ 64)%nat ∧
    ∀ dp ic ae, dp_ok dp = true → json_parse dp t ae ic = Ret (J_number_float x).
Proof.
  intros Hx. destruct (to_chars_number x Hx) as (t & Ht & Hlen & Hnum). exists t.
  split; [done|]. split; [done|]. intros dp ic ae Hdp. apply parse_bare; [done|].
  by do 2 constructor.
Qed.

(** One tenth, the smallest subnormal and the like are such doubles. *)
Lemma float_text_roundtrip_witness :
  ∃ t, to_chars 64 (S754_finite false 7205759403792794 (-56)) = Ret t ∧ (length t ≤ 64)%nat ∧
    ∀ dp ic ae, dp_ok dp = true →
      json_parse dp t ae ic = Ret (J_number_float (S754_finite false 7205759403792794 (-56))).
Proof.
  apply (float_text_roundtrip (S754_finite false 7205759403792794 (-56))).
  vm_compute. intuition congruence.
Defined.

(** C6: Grisu2 on a positive double runs within its 64-bit arithmetic and its
    buffer of 17 characters, and the digits and exponent it produces denote a
    decimal number whose nearest double is the one printed. *)
Theorem grisu2_nearest m e :
  canonical (Zpos m) e →
  ∃ buf d, grisu2 max_digits10 (S754_finite false m e) = Ret (buf, d) ∧
    decimal_digits buf ∧ (length buf ≤ max_digits10)%nat ∧
    nearest_double false (dv buf) d = S754_finite false m e.
Proof.
  intros Hc. destruct (grisu2_spec max_digits10 m e ltac:(reflexivity) Hc)
    as (buf & d & Hg & Hd & Hl & Hb & Hr).
  exists buf, d. repeat (split; [done|]).
  pose proof (decimal_digits_lower buf Hd) as Hlow.
  assert (0 < dv buf) as Hpos.
  { destruct buf as [|c b]; [done|]. cbn [length] in Hlow.
    pose proof (Z.pow_pos_nonneg 10 (Z.of_nat (S (length b)) - 1) ltac:(lia) ltac:(lia)). lia. }
  by rewrite (nearest_double_rounds false (dv buf) d (Zpos m) e Hpos ltac:(lia) Hc Hr).
Qed.

Lemma grisu2_nearest_witness :
  ∃ buf d, grisu2 max_digits10 (S754_finite false 1 (-1074)) = Ret (buf, d) ∧
    decimal_digits buf ∧ (length buf ≤ max_digits10)%nat ∧
    nearest_double false (dv buf) d = S754_finite false 1 (-1074).
Proof. apply (grisu2_nearest 1 (-1074)). unfold canonical. lia. Defined.

(** [dump_integer] writes every signed or unsigned 64-bit integer, the
    smallest one included, in decimal through its 64-character buffer, and
    the text is read back as the same number. *)
Theorem integer_text_roundtrip x nb :
  - 2 ^ 63 ≤ x < 2 ^ 64 → length nb = 64%nat →
  ∃ t nb', dump_integer x nb = Ret (t, nb') ∧ length nb' = 64%nat ∧ t = int_text x ∧
    ∀ dp ic ae, dp_ok dp = true → json_parse dp t ae ic =
      Ret (if x <? 0 then J_number_integer x else J_number_unsigned x).
Proof.
  intros Hx Hnb. destruct (dump_integer_ok x nb Hx Hnb) as (nb' & Hd & Hl).
  exists (int_text x), nb'. repeat (split; [done|]). intros dp ic ae Hdp.
  apply parse_bare; [done|]. do 2 constructor. by apply int_text_number.
Qed.

Lemma integer_text_roundtrip_witness :
  ∃ t nb', dump_integer (- 2 ^ 63) (repeat 0 64) = Ret (t, nb') ∧ length nb' = 64%nat ∧
    t = int_text (- 2 ^ 63) ∧
    ∀ dp ic ae, dp_ok dp = true → json_parse dp t ae ic =
      Ret (if - 2 ^ 63 <? 0 then J_number_integer (- 2 ^ 63) else J_number_unsigned (- 2 ^ 63)).
Proof. apply (integer_text_roundtrip (- 2 ^ 63) (repeat 0 64)); [lia|reflexivity]. Defined.

(** * Strings *)

(** C8: with the strict handler, [dump_escaped] writes a string exactly when
    it is valid UTF-8, and the written text in quotes is read back as the same
    bytes; for any other string it throws type_error 316. *)
Theorem dump_escaped_strict ea s out :
  forallb is_byte s = true →
  if utf8_valid s
  then ∃ t, dump_escaped strict ea s out = Ret (out ++ t) ∧
    ∀ dp ic ae, dp_ok dp = true → json_parse dp (34 :: t ++ [34]) ae ic = Ret (J_string s)
  else ∃ e, dump_escaped strict ea s out = Throw (type_error 316 e).
Proof.
  intros Hb. destruct (dump_escaped_pieces strict ea s out Hb) as [[Hd Hv]|(_ & -> & He)]; [|done].
  specialize (Hv eq_refl). rewrite Hv. eexists. split; [exact Hd|].
  intros dp ic ae Hdp. apply parse_bare; [done|]. do 2 constructor. by apply pieces_escapes.
Qed.

Lemma dump_escaped_strict_witness :
  ∃ e, dump_escaped strict false [0xC0; 0x80] [] = Throw (type_error 316 e).
Proof. exact (dump_escaped_strict false [0xC0; 0x80] [] eq_refl). Defined.

(** The other handlers never throw: the text in quotes is read back as
    the string with every maximal ill-formed part replaced by U+FFFD or left
    out, which is valid UTF-8 and unchanged on valid strings. *)
Theorem dump_escaped_lenient h ea s out :
  h ≠ strict → forallb is_byte s = true →
  utf8_valid (repaired h s) = true ∧ (utf8_valid s = true → repaired h s = s) ∧
  ∃ t, dump_escaped h ea s out = Ret (out ++ t) ∧
    ∀ dp ic ae, dp_ok dp = true →
      json_parse dp (34 :: t ++ [34]) ae ic = Ret (J_string (repaired h s)).
Proof.
  intros Hh Hb. destruct (pieces_repaired h ea s Hb) as [He Hv].
  split; [done|]. split; [apply repaired_valid|].
  destruct (dump_escaped_pieces h ea s out Hb) as [[Hd _]|(-> & _)]; [|done].
  eexists. split; [exact Hd|]. intros dp ic ae Hdp. apply parse_bare; [done|].
  by do 2 constructor.
Qed.

Lemma dump_escaped_lenient_witness :
  utf8_valid (repaired replace [97; 0xE2; 0x82; 98]) = true ∧
  (utf8_valid [97; 0xE2; 0x82; 98] = true → repaired replace [97; 0xE2; 0x82; 98] = [97; 0xE2; 0x82; 98]) ∧
  ∃ t, dump_escaped replace true [97; 0xE2; 0x82; 98] [] = Ret ([] ++ t) ∧
    ∀ dp ic ae, dp_ok dp = true → json_parse dp (34 :: t ++ [34]) ae ic =
      Ret (J_string (repaired replace [97; 0xE2; 0x82; 98])).
Proof. apply (dump_escaped_lenient replace true [97; 0xE2; 0x82; 98] []); done. Defined.

Definition printable (b : Z) : bool := in_range 32 126 b.

Lemma nibble_printable d : 0 ≤ d ≤ 15 → printable (nibble_lower d) = true.
Proof. intros H. unfold printable, in_range, nibble_lower. case_if; to_prop; zify_bool; lia. Qed.

Lemma u_escape_printable z : forallb printable (u_escape z) = true.
Proof.
  unfold u_escape, wrap_u. pose proof (Z.mod_pos_bound z (2 ^ 16) ltac:(lia)) as Hz.
  set (w := z mod 2 ^ 16) in *. cbn [forallb].
  rewrite !nibble_printable; [done|..]; try (pose proof (Z.mod_pos_bound w 16 ltac:(lia)); lia);
    try (pose proof (Z.mod_pos_bound (w / 16) 16 ltac:(lia)); lia);
    try (pose proof (Z.mod_pos_bound (w / 256) 16 ltac:(lia)); lia).
  split; [apply Z.div_pos; lia|]. apply Z.lt_succ_r, Z.div_lt_upper_bound; lia.
Qed.

Lemma ascii_group g : utf8_group g = true → group_codepoint g < 0x7F → g = [group_codepoint g].
Proof.
  unfold utf8_group, group_codepoint. destruct g as [|b0 [|b1 [|b2 [|b3 [|]]]]]; try done.
  - unfold group2, cont, in_range. intros H. to_prop. lia.
  - unfold group3, cont, in_range. intros H Hc. exfalso. revert H. zify_bool. lia.
  - unfold group4, cont, in_range. intros H Hc. exfalso. revert H. zify_bool. lia.
Qed.

Lemma esc_text_printable g : utf8_group g = true → forallb printable (esc_text true g) = true.
Proof.
  intros Hg. unfold esc_text. cbv zeta. repeat case_if; try done;
    rewrite ?forallb_app, ?u_escape_printable; try done.
  cbn [andb] in *. to_prop. rewrite (ascii_group g Hg) by lia.
  cbn [forallb]. rewrite andb_true_r. unfold printable, in_range. zify_bool. lia.
Qed.

(** With [ensure_ascii] every handler writes printable ASCII only. *)
Theorem dump_escaped_ascii h s out out' :
  forallb is_byte s = true → dump_escaped h true s out = Ret out' →
  ∃ t, out' = out ++ t ∧ forallb printable t = true.
Proof.
  intros Hb Hd. destruct (dump_escaped_pieces h true s out Hb) as [[E _]|(_ & _ & e & E)];
    rewrite E in Hd; simplify_eq. eexists. split; [done|]. clear E.
  remember (length s) as n eqn:Hn. revert s Hn Hb.
  induction (lt_wf n) as [n _ IH]. intros [|b s] -> Hb; [done|].
  destruct (next_chunk b s) as [[ok g] rest] eqn:E. rewrite (pieces_cons _ _ _ _ _ E).
  destruct (next_chunk_app _ _ _ _ _ E) as [Es Hg]. cbn [map concat]. rewrite forallb_app.
  rewrite (IH (length rest)) by
    (try (by eapply next_chunk_bytes); try done; rewrite Es, length_app; lia).
  rewrite andb_true_r. unfold piece_text, ill_formed_text. cbn [fst snd]. destruct ok.
  - apply esc_text_printable. simpl in Hb. to_prop. by eapply next_chunk_group.
  - by case_bool_decide.
Qed.

Lemma dump_escaped_ascii_witness :
  ∃ t, str "\u20ac" = [] ++ t ∧ forallb printable t = true.
Proof. apply (dump_escaped_ascii strict [0xE2; 0x82; 0xAC] [] (str "\u20ac")); vm_compute; done. Defined.

(** * Limits of the library *)

(** The indentation string has 512 characters and is doubled only once,
    so indenting by more than 1025 columns reads behind its end. *)
Theorem dump_wide_indent_undefined indent c ea h v l :
  1025 < indent < 2 ^ 32 → json_dump indent c ea h (J_array (v :: l)) = Undef.
Proof.
  intros Hi. unfold json_dump. assert ((0 <=? indent) = true) as -> by lia.
  cbn [dump mbind outcome_bind]. assert (u32 indent = indent) as -> by (apply Z.mod_small; lia).
  assert (u32 (0 + indent) = indent) as -> by (apply Z.mod_small; lia).
  unfold open_bracket, grow_indent. cbn [write init_serializer indent_string].
  rewrite repeat_length. change (Z.of_nat 512) with 512.
  assert ((512 <? indent) = true) as -> by lia.
  cbn [dump_elements]. unfold write_indent. cbn [indent_string]. rewrite length_app, !repeat_length.
  change (Z.of_nat (512 + 512) + 1) with 1025.
  by assert ((indent <=? 1025) = false) as -> by lia.
Qed.

Lemma dump_wide_indent_undefined_witness :
  json_dump 1026 32 false strict (J_array [J_null]) = Undef.
Proof. apply (dump_wide_indent_undefined 1026 32 false strict J_null []). lia. Defined.

(** [operator==] converts the unsigned operand to a signed number, so it
    calls a signed and an unsigned integer equal when they are congruent
    modulo 2^64; below 2^63 that is equality of the numbers. *)
Theorem mixed_sign_equality u i :
  in_u 64 u = true → in_s 64 i = true →
  (json_eqb (J_number_unsigned u) (J_number_integer i) = true ↔ u mod 2 ^ 64 = i mod 2 ^ 64) ∧
  json_eqb (J_number_integer i) (J_number_unsigned u) =
    json_eqb (J_number_unsigned u) (J_number_integer i) ∧
  (u < 2 ^ 63 → json_eqb (J_number_unsigned u) (J_number_integer i) = (u =? i)).
Proof.
  unfold in_u, in_s. intros Hu Hi. to_prop. cbn [json_eqb].
  split; [|split; [apply Z.eqb_sym|intros; rewrite wrap_s_small; [done|lia|unfold in_s; lia]]].
  rewrite Z.eqb_eq. unfold wrap_s. change (2 ^ (64 - 1)) with (2 ^ 63) in *.
  rewrite (Z.mod_small u) by lia.
  assert (i mod 2 ^ 64 = if i <? 0 then i + 2 ^ 64 else i) as ->.
  { destruct (Z.ltb_spec i 0); [|apply Z.mod_small; lia].
    rewrite <- (Z.mod_add i 1 (2 ^ 64)) by lia. apply Z.mod_small. lia. }
  assert ((u + 2 ^ 63) mod 2 ^ 64 = if u <? 2 ^ 63 then u + 2 ^ 63 else u - 2 ^ 63) as ->.
  { destruct (Z.ltb_spec u (2 ^ 63)); [apply Z.mod_small; lia|].
    rewrite <- (Z.mod_add (u + 2 ^ 63) (-1) (2 ^ 64)) by lia. rewrite Z.mod_small by lia. lia. }
  destruct (Z.ltb_spec i 0), (Z.ltb_spec u (2 ^ 63)); lia.
Qed.

Lemma mixed_sign_equality_witness :
  json_eqb (J_number_unsigned (2 ^ 64 - 1)) (J_number_integer (-1)) = true.
Proof. apply (mixed_sign_equality (2 ^ 64 - 1) (-1)); vm_compute; done. Defined.

(** * Element access *)

Lemma obj_emplace_null_find k k' m :
  obj_find k' (obj_emplace_null k m) =
  if cs_eqb k k' then Some (default J_null (obj_find k m)) else obj_find k' m.
Proof.
  unfold obj_emplace_null. destruct (cs_eqb k k') eqn:E.
  - apply cs_eqb_true in E as <-. destruct (obj_find k m) eqn:Ef; [done|].
    by rewrite obj_find_set_eq.
  - apply bool_decide_eq_false in E. destruct (obj_find k m); [done|]. by apply obj_find_set_ne.
Qed.

Lemma obj_set_forall (p : cstring * json → bool) k v m :
  p (k, v) = true → forallb p m = true → forallb p (obj_set k v m) = true.
Proof.
  intros Hk. induction m as [|[k1 v1] m IH]; simpl; [by rewrite Hk|].
  intros [H1 H2]%andb_true_iff. destruct (cs_ltb k k1) eqn:E1; simpl; [by rewrite Hk, H1, H2|].
  destruct (cs_ltb k1 k) eqn:E2; simpl; [by rewrite H1, IH|].
  by rewrite <- (cs_ltb_total k k1 E1 E2), Hk, H2.
Qed.

Lemma obj_emplace_null_wf k m :
  forallb is_byte k = true → json_wf (J_object m) = true →
  json_wf (J_object (obj_emplace_null k m)) = true.
Proof.
  intros Hk Hm. unfold obj_emplace_null. destruct (obj_find k m); [done|].
  unfold json_wf in *. cbn [json_forall node_wf] in *. to_prop.
  rewrite obj_set_sorted, !obj_set_forall by done. done.
Qed.

(** [operator[](key)] on an object or null yields a well-formed object
    that has the member, null if it is new, and keeps all others; on any other
    value it throws type_error 305. *)
Theorem member_access j k :
  json_wf j = true → forallb is_byte k = true →
  if is_object j || is_null j
  then ∃ j' v, at_key j k = Ret (j', v) ∧ json_wf j' = true ∧ at_key_const j' k = Ret v ∧
    (contains j k = false → v = J_null) ∧
    ∀ k', k ≠ k' → contains j' k' = contains j k' ∧
      (contains j k' = true → at_key_const j' k' = at_key_const j k')
  else ∃ w, at_key j k = Throw (type_error 305 w).
Proof.
  intros Hj Hk. set (m := match j with J_object m => m | _ => [] end).
  assert (is_object j || is_null j = true → ∃ v,
    at_key j k = Ret (J_object (obj_emplace_null k m), v) ∧
    v = default J_null (obj_find k m)) as Ha.
  { destruct j; try done; intros _; unfold at_key; rewrite obj_emplace_null_find, cs_eqb_refl; eauto. }
  destruct (is_object j || is_null j) eqn:E; [|destruct j; try done; by eexists].
  destruct (Ha eq_refl) as (v & -> & Hv). exists (J_object (obj_emplace_null k m)), v.
  split; [done|]. split; [apply obj_emplace_null_wf; [done|by destruct j]|].
  unfold at_key_const at 1. rewrite obj_emplace_null_find, cs_eqb_refl, <- Hv. split; [done|].
  split.
  { intros Hc. rewrite Hv. destruct j; try done. unfold m. simpl in Hc. by destruct (obj_find k m0). }
  intros k' Hne. assert (cs_eqb k k' = false) as Hf by (by apply bool_decide_eq_false).
  unfold contains, at_key_const. rewrite obj_emplace_null_find, Hf. by destruct j.
Qed.

Lemma member_access_witness :
  ∃ j' v, at_key sample (str "c") = Ret (j', v) ∧ json_wf j' = true ∧
    at_key_const j' (str "c") = Ret v ∧ (contains sample (str "c") = false → v = J_null) ∧
    ∀ k', str "c" ≠ k' → contains j' k' = contains sample k' ∧
      (contains sample k' = true → at_key_const j' k' = at_key_const sample k').
Proof. exact (member_access sample (str "c") eq_refl eq_refl). Defined.

(** * Typing *)

(** C32: what [parse] returns is well typed.  On every byte string it returns
    a value whose integers fit 64 bits, whose doubles are finite doubles of
    the format, whose strings and keys are valid UTF-8 and whose objects have
    sorted, distinct keys; or it throws, which it does only with exceptions
    allowed; without them it returns the discarded value instead. *)
Theorem parse_typed dp input ae ic :
  dp_ok dp = true → forallb is_byte input = true →
  match json_parse dp input ae ic with
  | Ret j => json_typed j = true ∨ (ae = false ∧ j = J_discarded)
  | Throw _ => ae = true
  | _ => False
  end.
Proof.
  intros Hdp Hb. pose proof (json_parse_typed dp input ae ic) as Hty.
  pose proof (entry_points_agree dp ic Hdp input Hb) as Ha.
  destruct ae; [by destruct (json_parse dp input true ic)|].
  destruct (json_parse dp input true ic); try done; by destruct Ha as [_ Ha]; rewrite Ha in *.
Qed.

Definition text_with_surrogates : cstring :=
  str "[-9223372036854775808, 18446744073709551616, " ++ [34] ++ str "\ud83d\ude00" ++ [34; 93].

Lemma parse_typed_witness :
  match json_parse 46 text_with_surrogates true false with
  | Ret j => json_typed j = true ∨ (true = false ∧ j = J_discarded)
  | Throw _ => true = true
  | _ => False
  end.
Proof. apply (parse_typed 46 text_with_surrogates true false); vm_compute; done. Defined.

(** Printing normalises a document.  What [parse] returned can always be
    printed under the strict handler; the text parses to a value [operator==]
    calls equal to the first, and printing that value gives the same text
    again. *)
Theorem parse_dump_normal dp dp' ic ic' ae ea indent c input j :
  dp_ok dp = true → dp_ok dp' = true → indent ≤ 512 → is_space c = true →
  json_parse dp input true ic = Ret j →
  ∃ t j', json_dump indent c ea strict j = Ret t ∧ json_parse dp' t ae ic' = Ret j' ∧
    json_eqb j' j = true ∧ json_dump indent c ea strict j' = Ret t.
Proof.
  intros Hdp Hdp' Hi Hc Hp. pose proof (json_parse_typed dp input true ic) as Hty.
  rewrite Hp in Hty. destruct Hty as [Hty|[[=] _]].
  destruct (json_typed_parts j Hty) as (Hwf & Hd & Ht).
  destruct (json_dump_text strict ea indent c j Hi Hc Hwf Hd) as (t & Et & Hj).
  exists t, (canon strict j). split; [done|]. split; [by apply parse_bare|].
  split; [by apply json_eqb_canon|]. by rewrite json_dump_canon.
Qed.

Lemma parse_dump_normal_witness :
  ∃ t j', json_dump (-1) 32 true strict
      (J_array [J_number_integer 0; J_object [(str "k", J_null)]]) = Ret t ∧
    json_parse 44 t true true = Ret j' ∧
    json_eqb j' (J_array [J_number_integer 0; J_object [(str "k", J_null)]]) = true ∧
    json_dump (-1) 32 true strict j' = Ret t.
Proof.
  apply (parse_dump_normal 46 44 false true true true (-1) 32
    (str "[-0, {" ++ [34; 107; 34] ++ str ": null}]")); vm_compute; done.
Defined.
