(* ===== verification/JsonPatchProperties.v ===== *)
(** What JSON pointers and patches promise: [diff] and [patch] are inverse to each
    other, and what happens below a value that has no children. *)

From S2P Require Import Prelude JsonValue JsonLexer JsonSerializer JsonPointer JsonPatch JsonPatchFacts.

(** C19: The patch that [diff] makes from one document to another, whatever their
    shapes and keys (also keys with slashes and tildes, which the paths of the
    patch escape), applies to the first document without an error and leads to
    a document that is equal to the second. *)
Theorem patch_diff source target :
  json_regular source = true → json_regular target = true →
  ∃ r, patch source (J_array (diff source target [])) = Ret r ∧ json_eqb r target = true.
Proof. apply patch_diff_equal. Qed.

Definition before : json :=
  J_object [(str "-", J_array [J_null; J_number_integer (-1); J_array [J_boolean true]]);
            (str "a/b~1", J_object [(str "x", J_string (str "y"))]);
            (str "gone", J_null)].

Definition after : json :=
  J_object [(str "", J_number_unsigned 7);
            (str "-", J_array [J_null; J_array []]);
            (str "a/b~1", J_object [(str "x", J_string (str "z")); (str "y", J_array [J_null])])].

Lemma patch_diff_witness :
  ∃ r, patch before (J_array (diff before after [])) = Ret r ∧ json_eqb r after = true.
Proof. apply (patch_diff before after); vm_compute; reflexivity. Defined.

(** An operation below a value that cannot have children.  Where a pointer
    leads to a string, a boolean, a number or a binary value, adding a child to
    it fails an assertion instead of throwing, and removing one from it leaves
    the document as it was instead of reporting that nothing is there. *)
Theorem patch_below_primitive j ptr parent key value :
  json_wf j = true → get_checked ptr j = Ret parent → childless parent = true →
  let path := to_string (ptr ++ [key]) in
  patch j (J_array [make_op "add" path (Some value)]) = Abort ∧
  patch j (J_array [make_op "remove" path None]) = Ret j.
Proof.
  intros Hw Hg Hp path. destruct (snoc_parts ptr key) as (Hne & Hb & Hpop). split.
  - change [make_op "add" path (Some value)] with (map edit_json [Add (ptr ++ [key]) value]).
    cbn [patch]. rewrite patch_loop_edits. cbn [run_edits run_edit]. unfold operation_add.
    destruct (ptr ++ [key]) as [|t q] eqn:Eq; [done|]. cbn [top mbind outcome_bind].
    assert (t :: q = [t] ∨ ∃ x, get_checked [t] j = Ret x) as Htop.
    { destruct ptr as [|t' ptr]; [injection Eq as <- <-; by left|right].
      injection Eq as <- _. cbn [get_checked] in *. destruct (child t' j) as [c| | | |]; [|done..]. by eexists. }
    assert (∀ k : res json, (_ ← (if bool_decide ([t] = t :: q) then Ret J_null else get_checked [t] j); k) = k)
      as ->.
    { intros k. case_bool_decide as Ht; [done|]. destruct Htop as [Htop|[x ->]]; [by rewrite Htop in Ht|done]. }
    rewrite Hb. cbn [mbind outcome_bind]. rewrite Hpop. cbn [mbind outcome_bind].
    rewrite (modify_at ptr _ j parent no_parent Hg); [|left]; by destruct parent.
  - change [make_op "remove" path None] with (map edit_json [Remove (ptr ++ [key])]).
    cbn [patch]. rewrite patch_loop_edits. cbn [run_edits run_edit]. unfold operation_remove.
    rewrite Hb. cbn [mbind outcome_bind]. rewrite Hpop. cbn [mbind outcome_bind].
    rewrite (modify_same ptr _ j parent); [done|done|done|by destruct parent].
Qed.

Lemma patch_below_primitive_witness :
  let path := to_string ([str "a/b~1"; str "x"] ++ [str "k"]) in
  patch before (J_array [make_op "add" path (Some J_null)]) = Abort ∧
  patch before (J_array [make_op "remove" path None]) = Ret before.
Proof.
  apply (patch_below_primitive before [str "a/b~1"; str "x"] (J_string (str "y")) (str "k") J_null);
    vm_compute; reflexivity.
Defined.
