(* ===== verification/CraieClient.v ===== *)
(** The Craie test client, 20251113-CraieLibProject/main.cpp: a thread that
    watches a command file and turns changes of its JSON value into calls of
    CraieLib, and a main loop that polls the library sixty times a second.

    CraieLib, the vehicle-information server and Qt are not part of the
    repository: the result code of a library call is a parameter [craie] that
    may depend on everything that happened before.  What the program does is a
    trace of library calls, log lines and sleeps. *)

From stdpp Require Import relations.
From S2P Require Import Prelude JsonValue JsonLexer JsonParser JsonSerializer JsonIntegerText.

(** * What can be observed *)

Inductive push_json_type : Type := Poi | LLM.

Inductive call : Type :=
| init_context
| deinit_context
| SetDrivingState (course : Z)
| request_push_json (text : cstring) (type : push_json_type)
| ResetCraieConfig
| StartPairingTablet
| request_event (mode : Z)
| request_push_summary (text : cstring) (seat : Z)
| request_push_image (name path : cstring)
| get_all_craie_config.

Inductive priority : Type := LOG_INFO | LOG_WARNING | LOG_ERR.

Inductive event : Type :=
| Call (c : call) (result : Z)
| Syslog (p : priority) (text : cstring)
| Sleep (ms : Z).

(** [c_str()] seen by a C function: the string up to its first zero. *)
Fixpoint c_str (s : cstring) : cstring :=
  match s with
  | [] => []
  | c :: s' => if c =? 0 then [] else c :: c_str s'
  end.

(** [std::exception::what()]. *)
Definition what (e : json_exn) : cstring :=
  match e with
  | parse_error _ _ w | type_error _ w | out_of_range _ w | other_error _ w => w
  end.

(** * Commands

    The static variables [previousState] and [hasPrevious] and the trace; an
    exception leaves the state as it was when it was thrown. *)

Record client : Type := mk_client {
  previousState : json;
  hasPrevious : bool;
  trace : list event
}.

Definition init_client : client := mk_client J_null false [].

Definition cmd (A : Type) : Type := client → outcome json_exn A * client.

#[export] Instance cmd_ret : MRet cmd := λ A a st, (Ret a, st).
#[export] Instance cmd_bind : MBind cmd := λ A B f m st,
  match m st with
  | (Ret a, st) => f a st
  | (Throw e, st) => (Throw e, st)
  | (Abort, st) => (Abort, st)
  | (Undef, st) => (Undef, st)
  | (Diverge, st) => (Diverge, st)
  end.

Definition lift {A} (r : outcome json_exn A) : cmd A := λ st, (r, st).

Definition emit_event (e : event) : cmd unit :=
  λ st, (Ret tt, mk_client (previousState st) (hasPrevious st) (trace st ++ [e])).

Definition syslog (p : priority) (text : cstring) : cmd unit := emit_event (Syslog p text).

Definition skip : cmd unit := mret tt.

Section client.
  (** The result code of a call after a trace, and the code of success. *)
  Context (craie : list event → call → Z) (Ok : Z).

Definition invoke (c : call) : cmd Z := λ st,
  let r := craie (trace st) c in
  (Ret r, mk_client (previousState st) (hasPrevious st) (trace st ++ [Call c r])).

Definition json_changed (j : json) (key : cstring) : cmd bool := λ st,
  if negb (hasPrevious st) then (Ret false, st)
  else if negb (contains (previousState st) key) then (Ret true, st)
  else if negb (contains j key) then (Ret false, st)
  else match at_key_const j key, at_key (previousState st) key with
       | Ret v, Ret (prev, old) => (Ret (json_neb v old), mk_client prev (hasPrevious st) (trace st))
       | Ret _, Throw e | Throw e, _ => (Throw e, st)
       | _, _ => (Abort, st)
       end.

(** [if (json_changed(j, key)) { if (j.contains(key)) { body } }]. *)
Definition when_changed (j : json) (key : string) (body : json → cmd unit) : cmd unit :=
  changed ← json_changed j (str key);
  if (changed : bool) then
    if contains j (str key) then v ← lift (at_key_const j (str key)); body v else skip
  else skip.

Definition driving_state (v : json) : cmd unit :=
  v ← lift (get_int v);
  _ ← invoke (SetDrivingState v);
  syslog LOG_INFO (str "SetDrivingState(" ++ int_text v ++ str ")").

(** [dump()] of a block, pushed to the library; [what] is named in the log. *)
Definition push_block (type : push_json_type) (name : string) (v : json) : cmd unit :=
  raw ← lift (json_dump (-1) 32 false strict v);
  res ← invoke (request_push_json (c_str raw) type);
  if negb (res =? Ok) then
    syslog LOG_ERR (str "Failed to send " ++ str name ++ str " (code " ++ int_text res ++ str ")")
  else skip.

Definition poi_list (j : json) : cmd unit :=
  if contains j (str "poi_list") then
    _ ← syslog LOG_INFO (str "Preparing POI list JSON to send...");
    poiJson ← lift (at_key_const j (str "poi_list"));
    push_block Poi "POI JSON" poiJson
  else skip.

(** A command that is carried out when its flag is not zero. *)
Definition flagged (c : call) (name : string) (v : json) : cmd unit :=
  v ← lift (get_int v);
  if negb (v =? 0) then
    r ← invoke c;
    syslog LOG_INFO (str name ++ str "() -> " ++ int_text r)
  else skip.

Definition tablet_display_mode (v : json) : cmd unit :=
  v ← lift (get_int v);
  r ← invoke (request_event v);
  syslog LOG_INFO
    (str "request_event(TabletDisplayMode=" ++ int_text v ++ str ") -> " ++ int_text r).

Definition text_summary (s : json) : cmd unit :=
  if negb (contains s (str "text")) || negb (contains s (str "seat_id")) then
    syslog LOG_ERR (str "text_summary missing fields {text, seat_id}")
  else
    '(s, text) ← lift (at_key s (str "text"));
    summary ← lift (get_std_string text);
    '(s, seat) ← lift (at_key s (str "seat_id"));
    seatId ← lift (get_int seat);
    r ← invoke (request_push_summary (c_str summary) seatId);
    syslog LOG_INFO (str "request_push_summary(text=" ++ [34] ++ c_str summary ++ [34] ++
      str ", seat=" ++ int_text seatId ++ str ") -> " ++ int_text r).

(** [imagePath.find_last_of] a slash or backslash: what follows the last one. *)
Fixpoint image_name (path : cstring) : option cstring :=
  match path with
  | [] => None
  | c :: rest =>
      match image_name rest with
      | Some n => Some n
      | None => if (c =? 47) || (c =? 92) then Some rest else None
      end
  end.

Definition push_image (j : json) : cmd unit :=
  changed ← json_changed j (str "image");
  if (changed : bool) then
    if contains j (str "image") then
      v ← lift (at_key_const j (str "image"));
      if is_string v then
        imagePath ← lift (get_std_string v);
        let imageName := match image_name imagePath with Some n => n | None => imagePath end in
        res ← invoke (request_push_image (c_str imageName) (c_str imagePath));
        if negb (res =? Ok) then
          syslog LOG_ERR (str "Failed to send image (code " ++ int_text res ++ str ")")
        else skip
      else skip
    else skip
  else skip.

Definition remember_state (j : json) : cmd unit := λ st, (Ret tt, mk_client j true (trace st)).

Definition process_json_commands (j : json) : cmd unit :=
  _ ← when_changed j "driving_state" driving_state;
  _ ← poi_list j;
  _ ← when_changed j "reset_craie_config" (flagged ResetCraieConfig "ResetCraieConfig");
  _ ← when_changed j "start_pairing_tablet" (flagged StartPairingTablet "StartPairingTablet");
  _ ← when_changed j "tablet_display_mode" tablet_display_mode;
  _ ← when_changed j "text_summary" text_summary;
  _ ← push_image j;
  _ ← when_changed j "llm" (push_block LLM "LLM");
  remember_state j.

(** [send_json_file], given the bytes of the file if it can be opened. *)
Definition send_json_file (filePath : cstring) (file : option cstring) : cmd unit :=
  match file with
  | None => syslog LOG_ERR (str "Cannot open JSON file: " ++ c_str filePath)
  | Some [] => syslog LOG_WARNING (str "JSON file " ++ c_str filePath ++ str " is empty")
  | Some jsonStr =>
      res ← invoke (request_push_json (c_str jsonStr) Poi);
      if res =? Ok then
        syslog LOG_INFO (str "Successfully sent JSON from file: " ++ c_str filePath)
      else
        syslog LOG_ERR (str "Failed to send JSON from file " ++ c_str filePath ++
          str " (code " ++ int_text res ++ str ")")
  end.
End client.

(** * The watcher thread *)

(** What one round of the loop finds in the file system: whether the file
    exists, its write time (nothing if asking throws) and, if it can be
    opened, its bytes. *)
Record fs_view : Type := mk_view {
  exists_file : bool;
  last_write_time : option Z;
  content : option cstring
}.

(** The local variables of [watch_json_command_file]. *)
Record watcher : Type := mk_watcher {
  lastWriteTime : Z;
  firstRun : bool
}.

Definition init_watcher : watcher := mk_watcher 0 true.

Section watcher.
  Context (craie : list event → call → Z) (Ok : Z).
  (** The decimal point of the locale, and the path of the command file. *)
  Context (dp : Z) (filePath : cstring).

(** [try { parse; process } catch (std::exception& e) { syslog }]. *)
Definition reload (text : cstring) : cmd unit := λ st,
  match (j ← lift (json_parse dp text true false); process_json_commands craie Ok j) st with
  | (Throw e, st) => syslog LOG_ERR (str "JSON parse error: " ++ c_str (what e)) st
  | r => r
  end.

(** One round; [Throw] is an exception that leaves the thread's function. *)
Definition watch_round (v : fs_view) (w : watcher) : client → outcome unit watcher * client := λ st,
  if exists_file v then
    match last_write_time v with
    | None => (Throw tt, st)
    | Some writeTime =>
        if firstRun w || negb (writeTime =? lastWriteTime w) then
          let w := mk_watcher writeTime false in
          let '(_, st) := syslog LOG_INFO
            (str "Detected JSON file update, reloading: " ++ c_str filePath) st in
          match content v with
          | None =>
              let '(_, st) := syslog LOG_ERR
                (str "Could not open JSON file: " ++ c_str filePath) st in (Ret w, st)
          | Some text =>
              match reload text st with
              | (Ret _, st) => let '(_, st) := emit_event (Sleep 200) st in (Ret w, st)
              | (Throw _, st) => (Throw tt, st)
              | (Abort, st) => (Abort, st)
              | (Undef, st) => (Undef, st)
              | (Diverge, st) => (Diverge, st)
              end
          end
        else let '(_, st) := emit_event (Sleep 200) st in (Ret w, st)
    end
  else let '(_, st) := emit_event (Sleep 200) st in (Ret w, st).

(** The loop, as long as [g_running] is set: one view for every round. *)
Fixpoint watch_json_command_file (views : list fs_view) (w : watcher) (st : client) :
    outcome unit watcher * client :=
  match views with
  | [] => (Ret w, st)
  | v :: views' =>
      match watch_round v w st with
      | (Ret w, st) => watch_json_command_file views' w st
      | r => r
      end
  end.
End watcher.

(** * The main loop *)

(** The fields of [AllCraieConfig] that are read. *)
Record sound_seat_config : Type := mk_sound {
  driver_source : Z;
  front_left_source : Z;
  rear_left_source : Z;
  rear_right_source : Z
}.

Definition cfg_zero : sound_seat_config := mk_sound 0 0 0 0.

(** [poll_server_state] with its static [frameCount]: [ret] and [cfg] are what
    the library answers. *)
Definition poll_server_state (Ok ret : Z) (cfg : sound_seat_config) (frameCount : Z) :
    Z * list event :=
  let called := Call get_all_craie_config ret in
  if negb (ret =? Ok) then
    (frameCount, [called; Syslog LOG_WARNING (str "get_all_craie_config returned " ++ int_text ret)])
  else
    let frameCount := frameCount + 1 in
    if frameCount <? 60 then (frameCount, [called])
    else (0, [called;
              Syslog LOG_INFO (str "---- CraieConfig Snapshot ----");
              Syslog LOG_INFO (str "Music share state: driver=" ++ int_text (driver_source cfg) ++
                str ", frontLeft=" ++ int_text (front_left_source cfg) ++
                str ", rearLeft=" ++ int_text (rear_right_source cfg) ++
                str ", rearRight=" ++ int_text (rear_left_source cfg));
              Syslog LOG_INFO (str "------------------------------")]).

(** [start_server] returns 0 or -1. *)
Definition start_server (Ok res : Z) : Z * list event :=
  if negb (res =? Ok)
  then (-1, [Call init_context res; Syslog LOG_ERR (str "init_context failed with code: " ++ int_text res)])
  else (0, [Call init_context res; Syslog LOG_INFO (str "CraieLib initialized successfully")]).

Definition stop_server (res : Z) : list event :=
  [Call deinit_context res; Syslog LOG_INFO (str "CraieLib deinitialized")].

Definition handle_sigint_log (sig : Z) : event :=
  Syslog LOG_INFO (str "Caught signal " ++ int_text sig ++ str ", stopping...").

Definition EXIT_SUCCESS : Z := 0.
Definition EXIT_FAILURE : Z := 1.

(** * The process: the main thread, the watcher and the signal handler *)

Inductive main_pc : Type :=
| Starting
| Polling              (** about to read [g_running] *)
| In_poll              (** in the body of the loop *)
| Stopped              (** after [stop_server], before the locals are destroyed *)
| Exited (code : Z)
| Terminated.          (** [std::terminate] or a failed assertion *)

Inductive watch_pc : Type :=
| Not_started
| At_test (w : watcher)    (** about to read [g_running] *)
| In_round (w : watcher)   (** in the body of the loop *)
| Finished.

Record process : Type := mk_process {
  g_running : bool;
  main : main_pc;
  frameCount : Z;
  watch : watch_pc;
  cl : client
}.

Definition log_events (es : list event) (c : client) : client :=
  mk_client (previousState c) (hasPrevious c) (trace c ++ es).

(** [setup_syslog] and the first line of [main]. *)
Definition prologue : list event :=
  [Syslog LOG_INFO (str "Syslog initialized");
   Syslog LOG_INFO (str "Starting CraieLib test client...")].

Definition init_process : process :=
  mk_process true Starting 0 Not_started (log_events prologue init_client).

(** A [std::thread] that was started and neither joined nor detached: its
    destructor calls [std::terminate], whether or not its function returned. *)
Definition joinable (w : watch_pc) : bool :=
  match w with Not_started => false | _ => true end.

Definition alive (p : process) : bool :=
  match main p with Exited _ | Terminated => false | _ => true end.

Section process.
  Context (craie : list event → call → Z) (Ok : Z).
  Context (dp : Z) (filePath : cstring).

Inductive step : process → process → Prop :=
| step_start_failed r c :
    let res := craie (trace c) init_context in
    (start_server Ok res).1 ≠ 0 →
    step (mk_process r Starting 0 Not_started c)
         (mk_process r (Exited EXIT_FAILURE) 0 Not_started
           (log_events ((start_server Ok res).2 ++
              [Syslog LOG_ERR (str "Failed to initialize CraieLib, exiting.")]) c))
| step_start r c :
    let res := craie (trace c) init_context in
    (start_server Ok res).1 = 0 →
    step (mk_process r Starting 0 Not_started c)
         (mk_process r Polling 0 (At_test init_watcher) (log_events (start_server Ok res).2 c))
| step_poll_test n w c :
    step (mk_process true Polling n w c) (mk_process true In_poll n w c)
| step_poll r n w c cfg :
    let polled := poll_server_state Ok (craie (trace c) get_all_craie_config) cfg n in
    step (mk_process r In_poll n w c)
         (mk_process r Polling polled.1 w (log_events (polled.2 ++ [Sleep (1000 / 60)]) c))
| step_signal p sig :
    alive p = true →
    step p (mk_process false (main p) (frameCount p) (watch p) (log_events [handle_sigint_log sig] (cl p)))
| step_watch_test m n w c :
    alive (mk_process true m n (At_test w) c) = true →
    step (mk_process true m n (At_test w) c) (mk_process true m n (In_round w) c)
| step_watch_end m n w c :
    alive (mk_process false m n (At_test w) c) = true →
    step (mk_process false m n (At_test w) c) (mk_process false m n Finished c)
| step_watch_round r m n w c v w' c' :
    alive (mk_process r m n (In_round w) c) = true →
    watch_round craie Ok dp filePath v w c = (Ret w', c') →
    step (mk_process r m n (In_round w) c) (mk_process r m n (At_test w') c')
| step_watch_dies r m n w c v o c' :
    alive (mk_process r m n (In_round w) c) = true →
    watch_round craie Ok dp filePath v w c = (o, c') → o = Throw tt ∨ o = Abort →
    step (mk_process r m n (In_round w) c) (mk_process r Terminated n (In_round w) c')
| step_stop n w c :
    step (mk_process false Polling n w c)
         (mk_process false Stopped n w
           (log_events (stop_server (craie (trace c) deinit_context) ++
              [Syslog LOG_INFO (str "CraieLib test client stopped.")]) c))
| step_return r n w c :
    step (mk_process r Stopped n w c)
         (mk_process r (if joinable w then Terminated else Exited EXIT_SUCCESS) n w c).

Definition reachable (p : process) : Prop := rtc step init_process p.
End process.
