(* ===== verification/CraieProperties.v ===== *)
(** What the Craie test client does: the calls that a change of the command
    file causes, what happens on malformed files, and how the threads end. *)

From stdpp Require Import relations.
From S2P Require Import Prelude Utf8 JsonValue JsonLexer JsonLexerFacts JsonParser.
From S2P Require Import JsonGrammar JsonSerializer JsonIntegerText JsonRoundTrip JsonTyping.
From S2P Require Import CraieClient.

(** * Abstract specification of [process_json_commands] *)

(** The library calls of a trace. *)
Definition calls (t : list event) : list call :=
  omap (λ e, match e with Call c _ => Some c | _ => None end) t.

Lemma calls_app t t' : calls (t ++ t') = calls t ++ calls t'.
Proof. unfold calls. by rewrite omap_app. Qed.

(** A key counts as changed when there is a previous document and the new one
    has the key with a different value. *)
Definition changed (has : bool) (prev j : json) (key : string) : bool :=
  match has, at_key_const j (str key), at_key_const prev (str key) with
  | true, Ret v, Ret old => json_neb v old
  | true, Ret _, _ => true
  | _, _, _ => false
  end.

(** A specification is the calls to make and how it ends. *)
Abbreviation spec := (list call * outcome json_exn unit)%type.

Definition nothing : spec := ([], Ret tt).

Definition then_spec (a b : spec) : spec :=
  match a with
  | (cs, Ret _) => (cs ++ b.1, b.2)
  | _ => a
  end.

Definition from {A} (r : outcome json_exn A) (f : A → spec) : spec :=
  match r with
  | Ret a => f a
  | Throw e => ([], Throw e)
  | Abort => ([], Abort)
  | Undef => ([], Undef)
  | Diverge => ([], Diverge)
  end.

Definition on_change (has : bool) (prev j : json) (key : string) (f : json → spec) : spec :=
  if changed has prev j key then from (at_key_const j (str key)) f else nothing.

Definition spec_push (type : push_json_type) (v : json) : spec :=
  from (json_dump (-1) 32 false strict v) (λ raw, ([request_push_json (c_str raw) type], Ret tt)).

Definition spec_flag (c : call) (v : json) : spec :=
  from (get_int v) (λ n, if n =? 0 then nothing else ([c], Ret tt)).

Definition spec_summary (s : json) : spec :=
  if contains s (str "text") && contains s (str "seat_id") then
    from (t ← at_key_const s (str "text"); get_std_string t) (λ text,
    from (t ← at_key_const s (str "seat_id"); get_int t) (λ seat,
      ([request_push_summary (c_str text) seat], Ret tt)))
  else nothing.

Definition spec_image (v : json) : spec :=
  match v with
  | J_string path => ([request_push_image (c_str (default path (image_name path))) (c_str path)], Ret tt)
  | _ => nothing
  end.

Definition commands (has : bool) (prev j : json) : spec :=
  foldr then_spec nothing
    [on_change has prev j "driving_state" (λ v, from (get_int v) (λ n, ([SetDrivingState n], Ret tt)));
     if contains j (str "poi_list") then from (at_key_const j (str "poi_list")) (spec_push Poi) else nothing;
     on_change has prev j "reset_craie_config" (spec_flag ResetCraieConfig);
     on_change has prev j "start_pairing_tablet" (spec_flag StartPairingTablet);
     on_change has prev j "tablet_display_mode" (λ v, from (get_int v) (λ n, ([request_event n], Ret tt)));
     on_change has prev j "text_summary" spec_summary;
     on_change has prev j "image" spec_image;
     on_change has prev j "llm" (spec_push LLM)].

(** * Refinement *)

Lemma contains_member j k : contains j k = returns (at_key_const j k).
Proof. destruct j; try done. simpl. by destruct (obj_find k m). Qed.

Lemma at_key_present j k v :
  at_key_const j k = Ret v → at_key j k = Ret (j, v).
Proof.
  destruct j; try done. unfold at_key_const, at_key, obj_emplace_null.
  destruct (obj_find k m) eqn:E; [|done]. cbv zeta. rewrite E. by intros [= ->].
Qed.

Section refinement.
  Context (craie : list event → call → Z) (Ok : Z).
  (** The remembered state, which no command before the last one changes. *)
  Context (has : bool) (prev : json).

(** A command does what a specification says. *)
Definition does (m : cmd unit) (s : spec) : Prop :=
  ∀ t, ∃ es, m (mk_client prev has t) = (s.2, mk_client prev has (t ++ es)) ∧ calls es = s.1.

Lemma does_skip : does skip nothing.
Proof. intros t. exists []. by rewrite app_nil_r. Qed.

Lemma does_syslog p x : does (syslog p x) nothing.
Proof. intros t. by eexists. Qed.

Lemma does_bind m1 m2 s1 s2 : does m1 s1 → does m2 s2 → does (_ ← m1; m2) (then_spec s1 s2).
Proof.
  intros H1 H2 t. unfold mbind, cmd_bind. destruct (H1 t) as (es & -> & Hes).
  destruct s1 as [cs [[]| | | |]]; cbn [fst snd then_spec] in *; eauto.
  destruct (H2 (t ++ es)) as (es2 & -> & Hes2).
  exists (es ++ es2). by rewrite app_assoc, calls_app, Hes, Hes2.
Qed.

Lemma does_lift {A} (r : outcome json_exn A) (f : A → cmd unit) (g : A → spec) :
  (∀ a, r = Ret a → does (f a) (g a)) → does (a ← lift r; f a) (from r g).
Proof.
  intros H t. unfold mbind, cmd_bind, lift. destruct r; [by apply H|..];
    exists []; by rewrite app_nil_r.
Qed.

Lemma does_invoke c (f : Z → cmd unit) :
  (∀ r, does (f r) nothing) → does (r ← invoke craie c; f r) ([c], Ret tt).
Proof.
  intros H t. unfold mbind, cmd_bind, invoke. cbv zeta. cbn [fst snd previousState hasPrevious trace].
  destruct (H (craie t c) (t ++ [Call c (craie t c)])) as (es & -> & Hes).
  exists (Call c (craie t c) :: es). rewrite <- app_assoc. split; [done|].
  change (c :: calls es = [c]). by rewrite Hes.
Qed.

(** [json_changed] only reads, although [previousState[key]] could insert. *)
Lemma json_changed_reads j key t :
  ∃ b, json_changed j (str key) (mk_client prev has t) = (Ret b, mk_client prev has t) ∧
    b && contains j (str key) = changed has prev j key.
Proof.
  unfold json_changed, changed. rewrite !contains_member. cbn [hasPrevious previousState].
  destruct has; cbn [negb]; [|by eexists].
  destruct (at_key_const prev (str key)) as [old| | | |] eqn:Eo;
    cbn [returns negb]; [|by destruct (at_key_const j (str key)); eexists..].
  destruct (at_key_const j (str key)) as [v| | | |] eqn:Ev; cbn [returns negb];
    [|by eexists..].
  rewrite (at_key_present _ _ _ Eo). eexists. split; [done|]. by rewrite andb_true_r.
Qed.

Lemma does_when_changed j key body f :
  (∀ v, does (body v) (f v)) → does (when_changed j key body) (on_change has prev j key f).
Proof.
  intros Hb t. unfold when_changed, mbind, cmd_bind.
  destruct (json_changed_reads j key t) as (b & -> & Hb'). unfold on_change. rewrite <- Hb'.
  destruct b; cbn [andb]; [|apply does_skip].
  destruct (contains j (str key)); [|apply does_skip].
  exact (does_lift _ _ _ (λ a _, Hb a) t).
Qed.

(** ** The single commands *)

Lemma does_driving_state v :
  does (driving_state craie v) (from (get_int v) (λ n, ([SetDrivingState n], Ret tt))).
Proof. apply does_lift. intros n _. apply does_invoke. intros _. apply does_syslog. Qed.

Lemma does_tablet_display_mode v :
  does (tablet_display_mode craie v) (from (get_int v) (λ n, ([request_event n], Ret tt))).
Proof. apply does_lift. intros n _. apply does_invoke. intros r. apply does_syslog. Qed.

Lemma does_flagged c name v : does (flagged craie c name v) (spec_flag c v).
Proof.
  apply does_lift. intros n _. destruct (n =? 0); cbn [negb]; [apply does_skip|].
  apply does_invoke. intros r. apply does_syslog.
Qed.

Lemma does_push_block type name v : does (push_block craie Ok type name v) (spec_push type v).
Proof.
  apply does_lift. intros raw _. apply does_invoke. intros r.
  destruct (r =? Ok); [apply does_skip|apply does_syslog].
Qed.

Lemma nothing_then s : then_spec nothing s = s.
Proof. by destruct s. Qed.

Lemma does_poi_list j :
  does (poi_list craie Ok j)
    (if contains j (str "poi_list") then from (at_key_const j (str "poi_list")) (spec_push Poi)
     else nothing).
Proof.
  unfold poi_list. destruct (contains j (str "poi_list")); [|apply does_skip].
  rewrite <- nothing_then. apply does_bind; [apply does_syslog|].
  apply does_lift. intros v _. apply does_push_block.
Qed.

Lemma does_text_summary s : does (text_summary craie s) (spec_summary s).
Proof.
  unfold text_summary, spec_summary. rewrite !contains_member.
  destruct (at_key_const s (str "text")) as [x| | | |] eqn:E1; cbn [returns negb orb andb];
    try apply does_syslog.
  destruct (at_key_const s (str "seat_id")) as [y| | | |] eqn:E2; cbn [returns negb orb andb];
    try apply does_syslog.
  rewrite (at_key_present _ _ _ E1). cbn [mbind outcome_bind].
  apply (does_lift (get_std_string x)). intros text _. rewrite (at_key_present _ _ _ E2).
  apply (does_lift (get_int y)). intros seat _. apply does_invoke. intros r. apply does_syslog.
Qed.

Lemma does_push_image j : does (push_image craie Ok j) (on_change has prev j "image" spec_image).
Proof.
  intros t. unfold push_image, mbind at 1, cmd_bind at 1.
  destruct (json_changed_reads j "image" t) as (b & -> & Hb). unfold on_change. rewrite <- Hb.
  destruct b; cbn [andb]; [|apply does_skip].
  destruct (contains j (str "image")); [|apply does_skip].
  apply does_lift. intros v _. destruct v; try apply does_skip.
  cbn [is_string has_type get_std_string]. unfold is_string, has_type.
  cbn [json_type bool_decide decide decide_rel].
  apply (does_invoke _ _). intros r. destruct (r =? Ok); [apply does_skip|apply does_syslog].
Qed.
End refinement.

Section properties.
  Context (craie : list event → call → Z) (Ok : Z).
  Context (dp : Z) (filePath : cstring).

(** ** The whole document *)

Lemma process_does j prev has t :
  ∃ es, calls es = (commands has prev j).1 ∧
    process_json_commands craie Ok j (mk_client prev has t) =
    ((commands has prev j).2,
     match (commands has prev j).2 with
     | Ret _ => mk_client j true (t ++ es)
     | _ => mk_client prev has (t ++ es)
     end).
Proof.
  set (m := (_ ← when_changed j "driving_state" (driving_state craie);
    _ ← poi_list craie Ok j;
    _ ← when_changed j "reset_craie_config" (flagged craie ResetCraieConfig "ResetCraieConfig");
    _ ← when_changed j "start_pairing_tablet" (flagged craie StartPairingTablet "StartPairingTablet");
    _ ← when_changed j "tablet_display_mode" (tablet_display_mode craie);
    _ ← when_changed j "text_summary" (text_summary craie);
    _ ← push_image craie Ok j;
    _ ← when_changed j "llm" (push_block craie Ok LLM "LLM"); skip) : cmd unit).
  assert (∀ st, process_json_commands craie Ok j st = (_ ← m; remember_state j) st) as ->.
  { intros st. unfold process_json_commands, m, mbind, cmd_bind.
    repeat match goal with
      |- (let (_, _) := ?x in _) = _ => destruct x as [[?| | | |] ?]; [|reflexivity..] end.
    reflexivity. }
  assert (does has prev m (commands has prev j)) as Hm.
  { unfold m, commands. cbn [foldr]. repeat apply does_bind;
      first [apply does_push_image|apply does_poi_list|apply does_skip
            |apply does_when_changed; intros];
      eauto using does_driving_state, does_flagged, does_tablet_display_mode,
        does_text_summary, does_push_block. }
  destruct (Hm t) as (es & E & Hes). exists es. split; [done|].
  unfold mbind, cmd_bind. rewrite E. by destruct (commands has prev j) as [cs [[]| | | |]].
Qed.
(** C14: loading a file does exactly what the abstract specification says.
    The commands of the changed keys are called in the fixed order; if all
    succeed the document is remembered, and if one throws, the calls made so
    far stand, the error is logged and the remembered document is kept.  A
    file that does not parse changes nothing. *)
Theorem reload_refines prev has t text :
  let load := reload craie Ok dp text (mk_client prev has t) in
  let failed e := Syslog LOG_ERR (str "JSON parse error: " ++ c_str (what e)) in
  match json_parse dp text true false with
  | Ret j =>
      ∃ es, calls es = (commands has prev j).1 ∧
        load = match (commands has prev j).2 with
               | Ret _ => (Ret tt, mk_client j true (t ++ es))
               | Throw e => (Ret tt, mk_client prev has ((t ++ es) ++ [failed e]))
               | o => (o, mk_client prev has (t ++ es))
               end
  | Throw e => load = (Ret tt, mk_client prev has (t ++ [failed e]))
  | Abort => load = (Abort, mk_client prev has t)
  | Undef => load = (Undef, mk_client prev has t)
  | Diverge => load = (Diverge, mk_client prev has t)
  end.
Proof.
  unfold reload, mbind, cmd_bind, lift. destruct (json_parse dp text true false) as [j| | | |]; try done.
  destruct (process_does j prev has t) as (es & Hes & E). exists es. split; [done|]. rewrite E.
  by destruct (commands has prev j) as [cs [[]| | | |]].
Qed.

Lemma member_ordered j k v :
  json_forall node_ordered j = true → at_key_const j k = Ret v → json_forall node_ordered v = true.
Proof.
  destruct j as [|m| | | | | | | |]; try done. cbn [json_forall]. intros [_ H]%andb_true_iff.
  unfold at_key_const. induction m as [|[k' v'] m IH]; [done|].
  cbn [obj_find forallb snd] in *. to_prop. destruct (cs_eqb k k'); [by intros [= ->]|]. by apply IH.
Qed.

(** Nothing counts as changed on the first load or on an equal document. *)
Lemma unchanged_key has prev j key :
  has = false ∨ prev = j ∧ json_forall node_ordered j = true → changed has prev j key = false.
Proof.
  intros [->|[-> Ho]]; [done|]. unfold changed. destruct has; [|done].
  destruct (at_key_const j (str key)) as [v| | | |] eqn:E; try done.
  unfold json_neb. destruct (compares_unordered v v); [done|].
  by rewrite json_eqb_refl by (by eapply member_ordered).
Qed.

(** The first document, and a document equal to the one before, cause no
    calls but the POI list, which is sent again on every load. *)
Theorem repeated_document prev has j t :
  has = false ∨ prev = j ∧ json_forall node_ordered j = true →
  ∃ es st', process_json_commands craie Ok j (mk_client prev has t) = st' ∧
    trace st'.2 = t ++ es ∧
    match at_key_const j (str "poi_list") with
    | Ret v => ∀ raw, json_dump (-1) 32 false strict v = Ret raw →
        calls es = [request_push_json (c_str raw) Poi] ∧ st' = (Ret tt, mk_client j true (t ++ es))
    | _ => calls es = [] ∧ st' = (Ret tt, mk_client j true (t ++ es))
    end.
Proof.
  intros H. destruct (process_does j prev has t) as (es & Hes & E). exists es. eexists.
  split; [exact E|]. split; [by destruct (commands has prev j).2|]. revert Hes.
  unfold commands, on_change. rewrite !(unchanged_key has prev j _ H). cbn [foldr].
  rewrite !nothing_then, contains_member.
  destruct (at_key_const j (str "poi_list")) as [v| | | |]; cbn [returns]; try (by intros ->).
  unfold spec_push. cbn [from]. intros Hes raw Hraw. revert Hes. rewrite Hraw. cbn. by intros ->.
Qed.

Lemma c_str_text t : forallb text_byte t = true → c_str t = t.
Proof.
  induction t as [|c t IH]; simpl; [done|]. unfold text_byte. intros H. to_prop.
  assert ((c =? 0) = false) as -> by lia. by rewrite IH.
Qed.

(** A writable block reaches the library whole. *)
Lemma typed_block_arrives type name v prev has t :
  dp_ok dp = true → json_wf v = true → dumpable strict v = true →
  json_forall node_textual v = true →
  ∃ raw j' es, json_dump (-1) 32 false strict v = Ret raw ∧
    push_block craie Ok type name v (mk_client prev has t) = (Ret tt, mk_client prev has (t ++ es)) ∧
    calls es = [request_push_json raw type] ∧
    json_parse dp raw true false = Ret j' ∧ json_eqb j' v = true.
Proof.
  intros Hdp Hwf Hd Ht.
  destruct (json_dump_text strict false (-1) 32 v ltac:(lia) eq_refl Hwf Hd) as (raw & Hraw & Hj).
  destruct (does_push_block craie Ok has prev type name v t) as (es & E & Hes).
  unfold spec_push in E, Hes. rewrite Hraw in E, Hes. cbn [from fst snd] in E, Hes.
  rewrite (c_str_text raw (proj1 grammar_bytes _ _ Hj)) in Hes.
  exists raw, (canon strict v), es. repeat (split; [done|]).
  split; [|by apply json_eqb_canon].
  pose proof (json_parse_text dp false Hdp _ raw [] [] true eq_refl Hj eq_refl) as Ep.
  cbn [app] in Ep. by rewrite app_nil_r in Ep.
Qed.
(** A block of the command file (the POI list, the LLM data) that is
    pushed to the library arrives whole, whatever the file holds: writing the
    block does not fail, its text has no zero byte at which the library would
    stop, and parsing it gives a value equal to the block. *)
Theorem pushed_block_arrives type name file doc key v prev has t :
  dp_ok dp = true → json_parse dp file true false = Ret doc → at_key_const doc key = Ret v →
  ∃ raw j' es, json_dump (-1) 32 false strict v = Ret raw ∧
    push_block craie Ok type name v (mk_client prev has t) = (Ret tt, mk_client prev has (t ++ es)) ∧
    calls es = [request_push_json raw type] ∧
    json_parse dp raw true false = Ret j' ∧ json_eqb j' v = true.
Proof.
  intros Hdp Hp Hk. pose proof (json_parse_typed dp file true false) as Hty.
  rewrite Hp in Hty. destruct Hty as [Hty|[[=] _]].
  apply (at_key_const_typed _ key v) in Hty; [|done].
  destruct (json_typed_parts v Hty) as (Hwf & Hd & Ht). by apply typed_block_arrives.
Qed.
End properties.

(** A library where every call succeeds with code 0. *)
Definition all_ok (t : list event) (c : call) : Z := 0.

Definition doc (members : list (string * json)) : json :=
  J_object (map (λ kv, (str kv.1, kv.2)) members).

Definition driving_doc : json := doc [("driving_state", J_number_unsigned 2)].

Lemma repeated_document_witness :
  ∃ es st', process_json_commands all_ok 0 driving_doc (mk_client driving_doc true []) = st' ∧
    trace st'.2 = [] ++ es ∧
    match at_key_const driving_doc (str "poi_list") with
    | Ret v => ∀ raw, json_dump (-1) 32 false strict v = Ret raw →
        calls es = [request_push_json (c_str raw) Poi] ∧
        st' = (Ret tt, mk_client driving_doc true ([] ++ es))
    | _ => calls es = [] ∧ st' = (Ret tt, mk_client driving_doc true ([] ++ es))
    end.
Proof. apply (repeated_document all_ok 0 driving_doc true driving_doc []). by right. Defined.

(** A file with a block of data for the language model. *)
Definition llm_file : cstring :=
  [123; 34] ++ str "llm" ++ [34; 58; 123; 34] ++ str "q" ++ [34; 58; 34] ++ str "caf\u00e9" ++ [34; 125; 125].

Definition llm_block : json := doc [("q", J_string (str "caf" ++ [195; 169]))].

Lemma pushed_block_arrives_witness :
  ∃ raw j' es, json_dump (-1) 32 false strict llm_block = Ret raw ∧
    push_block all_ok 0 LLM "LLM" llm_block (mk_client J_null false []) =
      (Ret tt, mk_client J_null false ([] ++ es)) ∧
    calls es = [request_push_json raw LLM] ∧
    json_parse 46 raw true false = Ret j' ∧ json_eqb j' llm_block = true.
Proof.
  apply (pushed_block_arrives all_ok 0 46 LLM "LLM" llm_file (doc [("llm", llm_block)]) (str "llm"));
    vm_compute; done.
Defined.

(** * The watcher *)

Section watching.
  Context (craie : list event → call → Z) (Ok : Z).
  Context (dp : Z) (filePath : cstring).

Lemma watch_round_idle v w st wt :
  exists_file v = true → last_write_time v = Some wt → firstRun w = false → lastWriteTime w = wt →
  watch_round craie Ok dp filePath v w st =
    (Ret w, mk_client (previousState st) (hasPrevious st) (trace st ++ [Sleep 200])).
Proof.
  intros He Hw Hf Hl. unfold watch_round. rewrite He, Hw, Hf, Hl, Z.eqb_refl. by destruct w.
Qed.

(** Rounds that find the file unchanged only sleep. *)
Lemma watch_idle views w st wt :
  Forall (λ v, exists_file v = true ∧ last_write_time v = Some wt) views →
  firstRun w = false → lastWriteTime w = wt →
  watch_json_command_file craie Ok dp filePath views w st =
    (Ret w, mk_client (previousState st) (hasPrevious st)
              (trace st ++ replicate (length views) (Sleep 200))).
Proof.
  intros Hv Hf Hl. revert st. induction Hv as [|v views [He Hw] Hv IH]; intros st.
  - cbn. rewrite app_nil_r. by destruct st.
  - cbn [watch_json_command_file]. rewrite (watch_round_idle v w st wt He Hw Hf Hl), IH.
    cbn [previousState hasPrevious trace length replicate]. by rewrite <- app_assoc.
Qed.

(** C17: an update that cannot be opened when it is noticed is lost: as long
    as the write time stays the same, no later round reads the file, whatever
    it then contains. *)
Theorem unopened_update_lost v views w st wt :
  exists_file v = true → last_write_time v = Some wt → content v = None →
  firstRun w = true ∨ lastWriteTime w ≠ wt →
  Forall (λ v, exists_file v = true ∧ last_write_time v = Some wt) views →
  watch_json_command_file craie Ok dp filePath (v :: views) w st =
    (Ret (mk_watcher wt false),
     mk_client (previousState st) (hasPrevious st)
       (trace st ++ [Syslog LOG_INFO (str "Detected JSON file update, reloading: " ++ c_str filePath);
                     Syslog LOG_ERR (str "Could not open JSON file: " ++ c_str filePath)] ++
        replicate (length views) (Sleep 200))).
Proof.
  intros He Hw Hc Hn Hv. cbn [watch_json_command_file]. unfold watch_round. rewrite He, Hw, Hc.
  assert (firstRun w || negb (wt =? lastWriteTime w) = true) as ->.
  { destruct Hn as [->|Hn]; [done|]. apply orb_true_iff. right. apply negb_true_iff. lia. }
  cbv iota zeta beta delta [syslog emit_event].
  rewrite (watch_idle views _ _ wt Hv) by done. cbn [previousState hasPrevious trace].
  by rewrite <- !app_assoc.
Qed.
End watching.

Lemma unopened_update_lost_witness :
  watch_json_command_file all_ok 0 46 (str "f") [mk_view true (Some 5) None; mk_view true (Some 5) (Some (str "{}"))]
    init_watcher init_client =
    (Ret (mk_watcher 5 false),
     mk_client J_null false
       ([] ++ [Syslog LOG_INFO (str "Detected JSON file update, reloading: " ++ c_str (str "f"));
               Syslog LOG_ERR (str "Could not open JSON file: " ++ c_str (str "f"))] ++
        replicate 1 (Sleep 200))).
Proof.
  apply (unopened_update_lost all_ok 0 46 (str "f") (mk_view true (Some 5) None)
    [mk_view true (Some 5) (Some (str "{}"))] init_watcher init_client 5); try done; [by left|].
  by repeat constructor.
Defined.

Section failing.
  Context (craie : list event → call → Z) (Ok : Z) (dp : Z).

Lemma reload_throws text j prev has t cs e :
  json_parse dp text true false = Ret j → commands has prev j = (cs, Throw e) →
  ∃ es, calls es = cs ∧
    reload craie Ok dp text (mk_client prev has t) = (Ret tt, mk_client prev has (t ++ es)).
Proof.
  intros Hp Hc. destruct (process_does craie Ok j prev has t) as (es & Hes & E).
  rewrite Hc in E, Hes. exists (es ++ [Syslog LOG_ERR (str "JSON parse error: " ++ c_str (what e))]).
  rewrite calls_app, Hes. split; [apply app_nil_r|].
  unfold reload, mbind, cmd_bind, lift. rewrite Hp, E. unfold syslog, emit_event. cbn.
  by rewrite <- app_assoc.
Qed.

(** A document with a bad command is loaded as if for the first time
    whenever the file is written again: the calls that precede the bad
    command are made once more by every load. *)
Theorem failed_document_repeats text j prev has t cs e :
  json_parse dp text true false = Ret j → commands has prev j = (cs, Throw e) →
  ∃ t1 t2, reload craie Ok dp text (mk_client prev has t) = (Ret tt, mk_client prev has t1) ∧
    reload craie Ok dp text (mk_client prev has t1) = (Ret tt, mk_client prev has t2) ∧
    calls t2 = calls t ++ cs ++ cs.
Proof.
  intros Hp Hc. destruct (reload_throws text j prev has t cs e Hp Hc) as (es1 & H1 & E1).
  destruct (reload_throws text j prev has (t ++ es1) cs e Hp Hc) as (es2 & H2 & E2).
  do 2 eexists. repeat (split; [eassumption|]). by rewrite !calls_app, H1, H2, <- app_assoc.
Qed.
End failing.

(** The second command is a list where a number is expected. *)
Lemma failed_document_repeats_witness :
  ∃ t1 t2,
    let text := [123] ++ [34] ++ str "driving_state" ++ [34] ++ str ":1," ++
                [34] ++ str "tablet_display_mode" ++ [34] ++ str ":[]}" in
    reload all_ok 0 46 text (mk_client (J_object []) true []) = (Ret tt, mk_client (J_object []) true t1) ∧
    reload all_ok 0 46 text (mk_client (J_object []) true t1) = (Ret tt, mk_client (J_object []) true t2) ∧
    calls t2 = calls [] ++ [SetDrivingState 1] ++ [SetDrivingState 1].
Proof.
  eapply (failed_document_repeats all_ok 0 46 _
    (doc [("driving_state", J_number_unsigned 1); ("tablet_display_mode", J_array [])])
    (J_object []) true [] [SetDrivingState 1]); vm_compute; reflexivity.
Defined.

(** * Polling *)

(** A run of polls that the library answers with success. *)
Fixpoint poll_all (Ok : Z) (cfgs : list sound_seat_config) (n : Z) : Z * list event :=
  match cfgs with
  | [] => (n, [])
  | cfg :: cfgs' =>
      let '(n, es) := poll_server_state Ok Ok cfg n in
      let '(n, es') := poll_all Ok cfgs' n in
      (n, es ++ es')
  end.

Definition is_snapshot (e : event) : bool :=
  match e with
  | Syslog LOG_INFO t => cs_eqb t (str "---- CraieConfig Snapshot ----")
  | _ => false
  end.

Definition snapshots (es : list event) : Z := Z.of_nat (length (List.filter is_snapshot es)).

Lemma poll_step Ok cfg n :
  0 ≤ n < 60 →
  ∃ es, poll_server_state Ok Ok cfg n = ((n + 1) mod 60, es) ∧ snapshots es = (n + 1) / 60.
Proof.
  intros Hn. unfold poll_server_state. rewrite Z.eqb_refl. cbn [negb].
  destruct (Z.ltb_spec (n + 1) 60).
  - eexists. rewrite Z.mod_small, Z.div_small by lia. done.
  - replace (n + 1) with 60 by lia. eexists. split; [done|]. unfold snapshots.
    cbn [List.filter is_snapshot]. unfold cs_eqb. rewrite bool_decide_eq_true_2 by done.
    rewrite bool_decide_eq_false_2 by (intros Heq; by apply (f_equal head) in Heq).
    by rewrite bool_decide_eq_false_2 by (vm_compute; discriminate).
Qed.

(** Of the successful polls exactly every sixtieth logs a snapshot, and
    the frame counter never leaves 0..59. *)
Theorem snapshot_every_sixtieth Ok cfgs n :
  0 ≤ n < 60 →
  (poll_all Ok cfgs n).1 = (n + Z.of_nat (length cfgs)) mod 60 ∧
  snapshots (poll_all Ok cfgs n).2 = (n + Z.of_nat (length cfgs)) / 60.
Proof.
  revert n. induction cfgs as [|cfg cfgs IH]; intros n Hn.
  { cbn. rewrite Z.add_0_r, Z.mod_small, Z.div_small by lia. done. }
  cbn [poll_all]. destruct (poll_step Ok cfg n Hn) as (es & -> & Hes).
  pose proof (Z.mod_pos_bound (n + 1) 60 ltac:(lia)) as Hb. destruct (IH _ Hb) as [IH1 IH2].
  destruct (poll_all Ok cfgs ((n + 1) mod 60)) as [n' es']. cbn [fst snd length] in *.
  assert ((n + 1) mod 60 + Z.of_nat (length cfgs) =
    n + Z.of_nat (Datatypes.S (length cfgs)) + - ((n + 1) / 60) * 60) as Ea.
  { pose proof (Z.div_mod (n + 1) 60 ltac:(lia)). lia. }
  rewrite Ea in IH1, IH2. rewrite Z.mod_add in IH1 by lia. rewrite Z.div_add in IH2 by lia.
  split; [done|]. unfold snapshots in *. rewrite List.filter_app, length_app. lia.
Qed.

Lemma snapshot_every_sixtieth_witness :
  (poll_all 0 (replicate 130 cfg_zero) 0).1 = (0 + Z.of_nat (length (replicate 130 cfg_zero))) mod 60 ∧
  snapshots (poll_all 0 (replicate 130 cfg_zero) 0).2 =
    (0 + Z.of_nat (length (replicate 130 cfg_zero))) / 60.
Proof. apply (snapshot_every_sixtieth 0 (replicate 130 cfg_zero) 0). lia. Defined.

(** * The life of the process *)

(** The calls a document can cause. *)
Definition client_call (c : call) : Prop :=
  match c with init_context | deinit_context | get_all_craie_config => False | _ => True end.

Definition client_spec (s : spec) : Prop := Forall client_call s.1.

Lemma client_then a b : client_spec a → client_spec b → client_spec (then_spec a b).
Proof.
  destruct a as [cs [[]| | | |]]; try done. unfold client_spec. cbn. intros. by apply Forall_app.
Qed.

Lemma client_from {A} (r : outcome json_exn A) f :
  (∀ a, client_spec (f a)) → client_spec (from r f).
Proof. destruct r; cbn; auto; by constructor. Qed.

Lemma client_change has prev j key f :
  (∀ v, client_spec (f v)) → client_spec (on_change has prev j key f).
Proof. intros H. unfold on_change. case_match; [by apply client_from|by constructor]. Qed.

Lemma client_one c : client_call c → client_spec ([c], Ret tt).
Proof. by repeat constructor. Qed.

Lemma commands_client has prev j : client_spec (commands has prev j).
Proof.
  assert (client_spec nothing) as Hn by constructor.
  assert (∀ type v, client_spec (spec_push type v)) as Hp.
  { intros. apply client_from. intros. by apply client_one. }
  assert (∀ c v, client_call c → client_spec (spec_flag c v)) as Hf.
  { intros. apply client_from. intros. case_match; [done|by apply client_one]. }
  unfold commands. cbn [foldr].
  repeat apply client_then; try done; try (apply client_change; intros v).
  - apply client_from. intros. by apply client_one.
  - case_match; [by apply client_from|done].
  - by apply Hf.
  - by apply Hf.
  - apply client_from. intros. by apply client_one.
  - unfold spec_summary. case_match; [|done]. do 2 (apply client_from; intros). by apply client_one.
  - destruct v; try done. by apply client_one.
  - done.
Qed.

Section process.
  Context (craie : list event → call → Z) (Ok : Z).
  Context (dp : Z) (filePath : cstring).

(** A round of the watcher adds to the trace, and only calls of documents. *)
Definition adds (c c' : client) : Prop :=
  ∃ es, trace c' = trace c ++ es ∧ Forall client_call (calls es).

Lemma adds_trans c1 c2 c3 : adds c1 c2 → adds c2 c3 → adds c1 c3.
Proof.
  intros (es1 & E1 & H1) (es2 & E2 & H2). exists (es1 ++ es2). rewrite E2, E1, app_assoc.
  split; [done|]. rewrite calls_app. by apply Forall_app.
Qed.

Lemma adds_event e c : (∀ cc r, e ≠ Call cc r) → adds c (emit_event e c).2.
Proof.
  intros He. exists [e]. split; [done|]. destruct e as [cc r| |]; [by destruct (He cc r)|..]; constructor.
Qed.

Lemma reload_adds text c : adds c (reload craie Ok dp text c).2.
Proof.
  destruct c as [prev has t]. unfold reload, mbind, cmd_bind, lift.
  destruct (json_parse dp text true false) as [j| | | |];
    try (exists []; split; [by rewrite app_nil_r|constructor]); [|by apply adds_event].
  destruct (process_does craie Ok j prev has t) as (es & Hes & ->).
  pose proof (commands_client has prev j) as Hc. unfold client_spec in Hc. rewrite <- Hes in Hc.
  destruct (commands has prev j).2; try (by exists es).
  apply (adds_trans _ (mk_client prev has (t ++ es))); [by exists es|by apply adds_event].
Qed.

Lemma watch_round_adds v w c : adds c (watch_round craie Ok dp filePath v w c).2.
Proof.
  unfold watch_round. assert (∀ c, adds c c) as Hr.
  { intros. exists []. by rewrite app_nil_r. }
  destruct (exists_file v); [|by apply adds_event].
  destruct (last_write_time v) as [wt|]; [|apply Hr].
  destruct (_ || _); [|by apply adds_event]. cbv zeta.
  unfold syslog, emit_event. cbv beta iota.
  set (c1 := mk_client (previousState c) (hasPrevious c) (trace c ++ _)).
  assert (adds c c1) as H1 by (by apply adds_event).
  destruct (content v) as [text|].
  - pose proof (reload_adds text c1) as H2. eapply adds_trans; [exact H1|].
    destruct (reload craie Ok dp text c1) as [[[]| | | |] c2]; try exact H2.
    eapply adds_trans; [exact H2|by apply adds_event].
  - eapply adds_trans; [exact H1|by apply adds_event].
Qed.
Definition is_deinit (c : call) : bool := match c with deinit_context => true | _ => false end.

Definition deinits (t : list event) : nat := length (List.filter is_deinit (calls t)).

Lemma deinits_app t t' : deinits (t ++ t') = (deinits t + deinits t')%nat.
Proof. unfold deinits. by rewrite calls_app, List.filter_app, length_app. Qed.

Lemma deinits_adds c c' : adds c c' → deinits (trace c') = deinits (trace c).
Proof.
  intros (es & -> & H). rewrite deinits_app. unfold deinits at 2.
  induction H as [|cc l Hc _ IH]; [cbn; lia|]. cbn [List.filter]. by destruct cc.
Qed.

Lemma poll_deinits ret cfg n : deinits (poll_server_state Ok ret cfg n).2 = 0%nat.
Proof. unfold poll_server_state. by repeat case_match. Qed.

Lemma start_deinits res : deinits (start_server Ok res).2 = 0%nat.
Proof. unfold start_server. by case_match. Qed.

(** Where the main thread is determines what the threads can be. *)
Definition process_inv (p : process) : Prop :=
  match main p with
  | Starting => watch p = Not_started ∧ deinits (trace (cl p)) = 0%nat
  | Polling | In_poll => joinable (watch p) = true ∧ deinits (trace (cl p)) = 0%nat
  | Stopped => joinable (watch p) = true ∧ g_running p = false ∧ deinits (trace (cl p)) = 1%nat
  | Exited code => code = EXIT_FAILURE ∧ deinits (trace (cl p)) = 0%nat
  | Terminated => (deinits (trace (cl p)) ≤ 1)%nat
  end.

Lemma process_inv_step p p' : step craie Ok dp filePath p p' → process_inv p → process_inv p'.
Proof.
  assert (∀ t e, deinits (t ++ [e]) = (deinits t + if e is Call deinit_context _ then 1 else 0)%nat) as Hone.
  { intros t e. rewrite deinits_app. f_equal. by destruct e as [[]| |]. }
  unfold process_inv.
  destruct 1 as [r c res Hs|r c res Hs|n w c|r n w c cfg polled|p sig Ha|m n w c Ha|m n w c Ha
    |r m n w c v w' c' Ha Hr|r m n w c v oo c' Ha Hr Ho|n w c|r n w c];
    cbn [main watch cl g_running log_events trace].
  - intros [_ Hd]. split; [done|]. by rewrite app_assoc, Hone, deinits_app, Hd, start_deinits.
  - intros [_ Hd]. split; [done|]. by rewrite deinits_app, Hd, start_deinits.
  - done.
  - intros [Hj Hd]. split; [done|]. rewrite app_assoc, Hone, deinits_app, Hd. unfold polled. by rewrite poll_deinits.
  - unfold alive in Ha. rewrite Hone. unfold handle_sigint_log. rewrite Nat.add_0_r.
    destruct (main p); try done. by intros (? & _ & ?).
  - destruct m; naive_solver.
  - destruct m; naive_solver.
  - pose proof (deinits_adds _ _ (watch_round_adds v w c)) as Hd.
    rewrite Hr in Hd. cbn [snd] in Hd. rewrite Hd. destruct m; naive_solver.
  - pose proof (deinits_adds _ _ (watch_round_adds v w c)) as Hd.
    rewrite Hr in Hd. cbn [snd] in Hd. rewrite Hd. unfold alive in Ha. cbn [main] in Ha. destruct m; try done; intuition lia.
  - intros [Hj Hd]. split; [done|]. split; [done|].
    by rewrite app_assoc, Hone, deinits_app, Hd.
  - intros (-> & _ & Hd). lia.
Qed.

Lemma reachable_inv p : reachable craie Ok dp filePath p → process_inv p.
Proof.
  unfold reachable. intros H. remember init_process as p0 eqn:E.
  assert (process_inv p0) as H0 by (by subst). clear E.
  induction H as [p|p1 p2 p3 Hs _ IH]; [done|]. eauto using process_inv_step.
Qed.
(** C20: the process never exits with success.  It ends with failure when the
    library cannot be initialised; otherwise the watcher thread is still
    joinable when [main] returns, and its destructor terminates the process. *)
Theorem never_exits_normally p :
  reachable craie Ok dp filePath p →
  (∀ code, main p = Exited code → code = EXIT_FAILURE) ∧
  (main p = Stopped → ∀ p', step craie Ok dp filePath p p' → main p' = Stopped ∨ main p' = Terminated).
Proof.
  intros Hr%reachable_inv. split.
  { unfold process_inv in Hr. intros code E. rewrite E in Hr. by destruct Hr. }
  intros E p' Hs. unfold process_inv in Hr. rewrite E in Hr.
  destruct Hs; cbn [main watch] in *; try done; auto. destruct Hr as (-> & _). auto.
Qed.

(** C21: [deinit_context] is called at most once, only after the signal handler
    has cleared [g_running], and never while the main loop runs. *)
Theorem deinit_once p :
  reachable craie Ok dp filePath p →
  (deinits (trace (cl p)) ≤ 1)%nat ∧
  (main p = Polling ∨ main p = In_poll → deinits (trace (cl p)) = 0%nat) ∧
  (main p = Stopped → g_running p = false ∧ deinits (trace (cl p)) = 1%nat).
Proof.
  intros Hr%reachable_inv. unfold process_inv in Hr. destruct (main p); naive_solver lia.
Qed.
End process.

(** A run that is stopped while the watcher is in a round. *)
Definition poi_text : cstring := [123; 34] ++ str "poi_list" ++ [34] ++ str ":1}".

Definition started_client : client := 
  log_events (start_server 0 0).2 (log_events prologue init_client).
Definition signalled_client : client := log_events [handle_sigint_log 2] started_client.
Definition stopped_client : client :=
  log_events (stop_server 0 ++ [Syslog LOG_INFO (str "CraieLib test client stopped.")]) signalled_client.

Lemma stopped_reachable w :
  w = At_test init_watcher ∨ w = In_round init_watcher →
  reachable all_ok 0 46 (str "commands.json") (mk_process false Stopped 0 w stopped_client).
Proof.
  intros Hw. unfold reachable.
  apply (rtc_l _ _ (mk_process true Polling 0 (At_test init_watcher) started_client));
    [by apply (step_start all_ok 0)|].
  transitivity (mk_process true Polling 0 w started_client).
  { destruct Hw as [-> | ->]; [done|]. apply rtc_once. by apply step_watch_test. }
  apply (rtc_l _ _ (mk_process false Polling 0 w signalled_client)).
  { exact (step_signal all_ok 0 46 (str "commands.json") (mk_process true Polling 0 w started_client) 2 eq_refl). }
  apply rtc_once. apply (step_stop all_ok 0 46 (str "commands.json")).
Qed.

Lemma never_exits_normally_witness :
  (∀ code, main (mk_process false Stopped 0 (At_test init_watcher) stopped_client) = Exited code →
    code = EXIT_FAILURE) ∧
  (Stopped = Stopped → ∀ p',
    step all_ok 0 46 (str "commands.json")
      (mk_process false Stopped 0 (At_test init_watcher) stopped_client) p' →
    main p' = Stopped ∨ main p' = Terminated).
Proof.
  apply (never_exits_normally all_ok 0 46 (str "commands.json")
    (mk_process false Stopped 0 (At_test init_watcher) stopped_client)).
  apply stopped_reachable. by left.
Defined.

Lemma deinit_once_witness :
  (deinits (trace stopped_client) ≤ 1)%nat ∧
  (Stopped = Polling ∨ Stopped = In_poll → deinits (trace stopped_client) = 0%nat) ∧
  (Stopped = Stopped → false = false ∧ deinits (trace stopped_client) = 1%nat).
Proof.
  apply (deinit_once all_ok 0 46 (str "commands.json")
    (mk_process false Stopped 0 (At_test init_watcher) stopped_client)).
  apply stopped_reachable. by left.
Defined.

(** Stopping races with the watcher: a round that began before the signal
    may call the library after [deinit_context]. *)
Theorem call_after_deinit :
  ∃ p, reachable all_ok 0 46 (str "commands.json") p ∧
    calls (trace (cl p)) = [init_context; deinit_context; request_push_json (str "1") Poi].
Proof.
  exists (mk_process false Stopped 0 (At_test (mk_watcher 7 false))
    (watch_round all_ok 0 46 (str "commands.json") (mk_view true (Some 7) (Some poi_text))
      init_watcher stopped_client).2).
  split; [|vm_compute; reflexivity].
  eapply rtc_r; [apply (stopped_reachable (In_round init_watcher)); by right|].
  eapply (step_watch_round _ _ _ _ _ _ _ _ _ (mk_view true (Some 7) (Some poi_text)));
    [done|vm_compute; reflexivity].
Qed.
