(* ===== verification/AsioBuffers.v ===== *)
(** Buffer sequences of Asio (20251411-SocketC++/Boost-Asio/include/asio):
    [buffer_size], [operator+], [buffer_copy] (buffer.hpp), the proxy
    [consuming_buffers] that a composed read or write walks along
    (detail/consuming_buffers.hpp) with its specialisations for one and for
    two buffers, and the completion conditions (completion_condition.hpp).

    A buffer is the bytes it refers to; sizes are natural numbers, since the
    buffers of a sequence fit into memory. *)

From S2P Require Import Prelude.

#[local] Open Scope nat_scope.

(** * Buffers *)

Abbreviation buffer := (list Z).

(** [b + n], which stops at the end of the buffer. *)
Definition buffer_plus (b : buffer) (n : nat) : buffer :=
  let offset := if n <? length b then n else length b in drop offset b.

(** [asio::buffer(b, max_size)]. *)
Definition buffer_limit (b : buffer) (max_size : nat) : buffer :=
  take (if length b <? max_size then length b else max_size) b.

Fixpoint buffer_size (bs : list buffer) : nat :=
  match bs with
  | [] => 0
  | b :: bs' => length b + buffer_size bs'
  end.

(** * [consuming_buffers] *)

Record consuming_buffers : Type := mk_consuming {
  buffers : list buffer;
  total_size : nat;
  total_consumed : nat;
  next_elem : nat;
  next_elem_offset : nat
}.

Definition init_consuming (bs : list buffer) : consuming_buffers :=
  mk_consuming bs (buffer_size bs) 0 0 0.

Definition empty (cb : consuming_buffers) : bool := total_size cb <=? total_consumed cb.

(** The loop of [prepare]; [room] is how many more elements the result holds. *)
Fixpoint prepare_loop (next : list buffer) (elem_offset max_size room : nat) : list buffer :=
  match next with
  | [] => []
  | b :: next' =>
      if (0 <? max_size) && (0 <? room) then
        let elem := buffer_limit (buffer_plus b elem_offset) max_size in
        let max_size := max_size - length elem in
        if 0 <? length elem then elem :: prepare_loop next' 0 max_size (room - 1)
        else prepare_loop next' 0 max_size room
      else []
  end.

(** [max_buffers] is the capacity of [prepared_buffers], at most 16. *)
Definition prepare (max_buffers : nat) (cb : consuming_buffers) (max_size : nat) : list buffer :=
  prepare_loop (drop (next_elem cb) (buffers cb)) (next_elem_offset cb) max_size max_buffers.

Fixpoint consume_loop (next : list buffer) (size elem offset : nat) : nat * nat :=
  match next with
  | [] => (elem, offset)
  | b :: next' =>
      if 0 <? size then
        let next_buf := buffer_plus b offset in
        if size <? length next_buf then (elem, offset + size)
        else consume_loop next' (size - length next_buf) (S elem) 0
      else (elem, offset)
  end.

Definition consume (cb : consuming_buffers) (size : nat) : consuming_buffers :=
  let '(elem, offset) :=
    consume_loop (drop (next_elem cb) (buffers cb)) size (next_elem cb) (next_elem_offset cb) in
  mk_consuming (buffers cb) (total_size cb) (total_consumed cb + size) elem offset.

(** The specialisations for a single buffer and for an array of two, which
    only count. *)
Definition single_prepare (b : buffer) (consumed max_size : nat) : buffer :=
  buffer_limit (buffer_plus b consumed) max_size.

Definition pair_prepare (b0 b1 : buffer) (consumed max_size : nat) : buffer * buffer :=
  let r0 := buffer_limit (buffer_plus b0 consumed) max_size in
  let r1 := buffer_limit
    (buffer_plus b1 (if consumed <? length b0 then 0 else consumed - length b0))
    (max_size - length r0) in
  (r0, r1).

(** * Completion conditions *)

Definition default_max_transfer_size : nat := Z.to_nat 65536.

(** An [error_code]; 0 is success. *)
Abbreviation error_code := Z.

Inductive completion_condition : Type :=
| transfer_all
| transfer_at_least (minimum : nat)
| transfer_exactly (size : nat).

(** The maximum size of the next transfer; 0 ends the operation. *)
Definition next_transfer (c : completion_condition) (err : error_code) (bytes_transferred : nat) : nat :=
  let failed := negb (err =? 0)%Z in
  match c with
  | transfer_all => if failed then 0 else default_max_transfer_size
  | transfer_at_least minimum =>
      if failed || (minimum <=? bytes_transferred) then 0 else default_max_transfer_size
  | transfer_exactly size =>
      if failed || (size <=? bytes_transferred) then 0
      else if size - bytes_transferred <? default_max_transfer_size
           then size - bytes_transferred else default_max_transfer_size
  end.

(** * [buffer_copy] *)

(** [memcpy] of the bytes that fit: the target afterwards and their number. *)
Definition buffer_copy_1 (target source : buffer) : buffer * nat :=
  let n := if length target <? length source then length target else length source in
  (take n source ++ drop n target, n).

(** The loop over both sequences, at an offset in the first target and in the
    first source.  The result is the targets afterwards and the number of
    bytes copied.  Every round but the last finishes a target or a source. *)
Fixpoint buffer_copy_loop (fuel : nat) (target_offset : nat) (targets : list buffer)
    (source_offset : nat) (sources : list buffer) (max_bytes total : nat) :
    outcome Empty_set (list buffer * nat) :=
  match fuel with
  | O => Diverge
  | S fuel' =>
      match targets, sources with
      | t :: targets', s :: sources' =>
          if total =? max_bytes then Ret (targets, total)
          else
            let target_buffer := buffer_plus t target_offset in
            let source_buffer := buffer_plus s source_offset in
            let '(copied, n) :=
              buffer_copy_1 target_buffer (buffer_limit source_buffer (max_bytes - total)) in
            let t' := take target_offset t ++ copied in
            let '(source_offset, sources) :=
              if n =? length source_buffer then (0, sources') else (source_offset + n, sources) in
            if n =? length target_buffer then
              '(rest, total) ← buffer_copy_loop fuel' 0 targets' source_offset sources max_bytes (total + n);
              Ret (t' :: rest, total)
            else
              buffer_copy_loop fuel' (target_offset + n) (t' :: targets') source_offset sources
                max_bytes (total + n)
      | _, _ => Ret (targets, total)
      end
  end.

Definition buffer_copy (targets sources : list buffer) (max_bytes_to_copy : nat) :
    outcome Empty_set (list buffer * nat) :=
  buffer_copy_loop (S (length targets + length sources)) 0 targets 0 sources max_bytes_to_copy 0.

(** * Lemmas *)

Lemma buffer_plus_drop b n : buffer_plus b n = drop n b.
Proof.
  unfold buffer_plus. destruct (Nat.ltb_spec n (length b)); [done|].
  by rewrite !drop_ge by lia.
Qed.

Lemma buffer_limit_take b n : buffer_limit b n = take n b.
Proof.
  unfold buffer_limit. destruct (Nat.ltb_spec (length b) n); [|done]. by rewrite !take_ge by lia.
Qed.

Lemma buffer_size_concat bs : buffer_size bs = length (concat bs).
Proof. induction bs as [|b bs IH]; [done|]. cbn [buffer_size concat]. by rewrite length_app, IH. Qed.

(** The bytes that are still to be transferred. *)
Definition remaining (cb : consuming_buffers) : buffer :=
  drop (next_elem_offset cb) (concat (drop (next_elem cb) (buffers cb))).

(** The position is inside an element, or at the start of one, and agrees with
    the counters. *)
Record consuming_ok (cb : consuming_buffers) : Prop := {
  ok_size : total_size cb = length (concat (buffers cb));
  ok_remaining : remaining cb = drop (total_consumed cb) (concat (buffers cb));
  ok_offset : next_elem_offset cb = 0 ∨
    ∃ b, buffers cb !! next_elem cb = Some b ∧ next_elem_offset cb < length b
}.

Lemma init_consuming_ok bs : consuming_ok (init_consuming bs).
Proof. split; [apply buffer_size_concat|done|by left]. Qed.

Lemma empty_remaining cb : consuming_ok cb → empty cb = true ↔ remaining cb = [].
Proof.
  intros [H1 H2 _]. unfold empty. rewrite Nat.leb_le, H1, H2. split; [by apply drop_ge|].
  intros E. apply (f_equal length) in E. rewrite length_drop in E. simpl in E. lia.
Qed.

Lemma head_drop {A} (l : list A) i x : l !! i = Some x → head (drop i l) = Some x.
Proof. intros H. by rewrite head_lookup, lookup_drop, Nat.add_0_r. Qed.

(** ** [prepare] *)

Lemma prepare_loop_spec next off max room :
  off ≤ length (default [] (head next)) →
  ∃ n, concat (prepare_loop next off max room) = take n (drop off (concat next)) ∧ n ≤ max ∧
    (0 < max → 0 < room → drop off (concat next) ≠ [] → 0 < n).
Proof.
  revert off max room. induction next as [|b next IH]; intros off max room Hoff.
  { exists 0. rewrite take_0. split; [done|]. split; [lia|]. cbn. by rewrite drop_nil. }
  cbn [prepare_loop]. destruct ((0 <? max) && (0 <? room)) eqn:E.
  2:{ exists 0. rewrite take_0. split; [done|]. split; [lia|]. intros Hm Hr.
      apply Nat.ltb_lt in Hm, Hr. by rewrite Hm, Hr in E. }
  apply andb_true_iff in E as [Hmax _]. apply Nat.ltb_lt in Hmax.
  rewrite buffer_plus_drop, buffer_limit_take. cbn [concat head default] in *.
  rewrite drop_app_le by done. set (d := drop off b). set (e := take max d).
  assert (length e = min max (length d)) as Hle by apply length_take.
  destruct (Nat.ltb_spec 0 (length e)).
  - destruct (IH 0 (max - length e) (room - 1) ltac:(lia)) as (n & E & Hn & _). rewrite drop_0 in E.
    cbn [concat]. rewrite E. exists (length e + n). split; [|lia].
    destruct (decide (max ≤ length d)).
    + assert (n = 0) as -> by lia. rewrite take_0, app_nil_r, take_app_le by lia.
      f_equal. lia.
    + assert (e = d) as -> by (apply take_ge; lia). by rewrite take_app_add.
  - destruct (IH 0 (max - length e) room ltac:(lia)) as (n & E & Hn & Hp). rewrite drop_0 in E, Hp.
    rewrite E. exists n. assert (d = []) as Ed by (apply nil_length_inv; lia).
    rewrite Ed. cbn [app]. split; [done|]. split; [lia|]. intros. apply Hp; [|done..].
    rewrite Hle, Ed. cbn. lia.
Qed.

Lemma prepare_spec k cb max :
  consuming_ok cb →
  ∃ n, concat (prepare k cb max) = take n (remaining cb) ∧ n ≤ max ∧
    (0 < max → 0 < k → remaining cb ≠ [] → 0 < n).
Proof.
  intros [_ _ Ho]. apply prepare_loop_spec. destruct Ho as [->|(b & Hb & Hlt)]; [lia|].
  rewrite (head_drop _ _ _ Hb). cbn. lia.
Qed.

(** ** [consume] *)

Lemma consume_loop_spec next size elem off :
  off = 0 ∨ off < length (default [] (head next)) →
  size ≤ length (drop off (concat next)) →
  ∃ k off', consume_loop next size elem off = (elem + k, off') ∧
    drop off' (concat (drop k next)) = drop size (drop off (concat next)) ∧
    (off' = 0 ∨ ∃ b, next !! k = Some b ∧ off' < length b).
Proof.
  revert size elem off. induction next as [|b next IH]; intros size elem off Hoff Hs.
  { exists 0, off. rewrite Nat.add_0_r. cbn in *. rewrite drop_nil in *. cbn in Hs.
    assert (size = 0) as -> by lia. split; [done|]. split; [by rewrite !drop_nil|]. left.
    destruct Hoff; lia. }
  assert (off ≤ length b) as Hob by (cbn in Hoff; lia).
  cbn [consume_loop concat] in *. rewrite buffer_plus_drop. rewrite drop_app_le in * by done.
  destruct (Nat.ltb_spec 0 size).
  - destruct (Nat.ltb_spec size (length (drop off b))).
    + exists 0, (off + size). rewrite Nat.add_0_r, length_drop in *. split; [done|].
      rewrite drop_0. cbn [concat]. rewrite drop_app_le, <- drop_drop by lia.
      rewrite drop_app_le by (rewrite length_drop; lia). split; [done|]. right. exists b. split; [done|lia].
    + rewrite length_app in Hs.
      destruct (IH (size - length (drop off b)) (S elem) 0) as (k & off' & E & Hd & Ho).
      { by left. } { rewrite drop_0. lia. }
      exists (S k), off'. rewrite E. split; [f_equal; lia|]. split; [|done].
      cbn [drop]. rewrite Hd, drop_0, drop_app_ge by lia. done.
  - exists 0, off. rewrite Nat.add_0_r. assert (size = 0) as -> by lia. split; [done|].
    rewrite !drop_0. cbn [concat]. rewrite drop_app_le by done. split; [done|].
    destruct Hoff as [->|Hoff]; [by left|]. right. by exists b.
Qed.

Lemma consume_spec cb n :
  consuming_ok cb → n ≤ length (remaining cb) →
  consuming_ok (consume cb n) ∧ remaining (consume cb n) = drop n (remaining cb) ∧
  buffers (consume cb n) = buffers cb ∧ total_consumed (consume cb n) = total_consumed cb + n.
Proof.
  intros [H1 H2 Ho] Hn. unfold consume.
  assert (next_elem_offset cb = 0 ∨
    next_elem_offset cb < length (default [] (head (drop (next_elem cb) (buffers cb))))) as Ho'.
  { destruct Ho as [->|(b & Hb & Hlt)]; [by left|]. right.
    by rewrite (head_drop _ _ _ Hb). }
  destruct (consume_loop_spec (drop (next_elem cb) (buffers cb)) n (next_elem cb) (next_elem_offset cb)
    Ho' Hn) as (k & off' & -> & Hd & Hoff).
  fold (remaining cb) in Hd. rewrite drop_drop in Hd.
  assert (remaining (mk_consuming (buffers cb) (total_size cb) (total_consumed cb + n)
    (next_elem cb + k) off') = drop n (remaining cb)) as Er by exact Hd.
  split; [|split; [exact Er|split; reflexivity]]. split; [exact H1| |].
  - rewrite Er, H2, drop_drop. done.
  - destruct Hoff as [->|(b & Hb & Hlt)]; [by left|]. right. exists b.
    by rewrite lookup_drop in Hb.
Qed.

(** ** Few buffers *)

(** When the result can hold them all, [prepare] takes as much as it may. *)
Lemma prepare_loop_all next off max room :
  off ≤ length (default [] (head next)) → length next ≤ room →
  concat (prepare_loop next off max room) = take max (drop off (concat next)).
Proof.
  revert off max room. induction next as [|b next IH]; intros off max room Hoff Hr.
  { cbn. by rewrite drop_nil, take_nil. }
  cbn [length] in Hr. cbn [prepare_loop]. assert ((0 <? room) = true) as -> by (apply Nat.ltb_lt; lia).
  destruct (Nat.ltb_spec 0 max); cbn [andb]; [|by assert (max = 0) as -> by lia].
  rewrite buffer_plus_drop, buffer_limit_take. cbn [concat head default] in *.
  rewrite drop_app_le by done. set (d := drop off b). set (e := take max d).
  assert (length e = min max (length d)) as Hle by apply length_take.
  assert (take max (d ++ concat next) = e ++ take (max - length e) (concat next)) as ->.
  { rewrite take_app. fold e. f_equal. f_equal. lia. }
  destruct (Nat.ltb_spec 0 (length e)); cbn [concat].
  - by rewrite IH, drop_0 by lia.
  - rewrite IH, drop_0 by lia. assert (e = []) as -> by (apply nil_length_inv; lia). done.
Qed.

Lemma prepare_all k cb max :
  consuming_ok cb → length (buffers cb) ≤ k →
  concat (prepare k cb max) = take max (drop (total_consumed cb) (concat (buffers cb))).
Proof.
  intros [_ <- Ho] Hk. unfold prepare, remaining. apply prepare_loop_all; [|rewrite length_drop; lia].
  destruct Ho as [->|(b & Hb & Hlt)]; [lia|]. rewrite (head_drop _ _ _ Hb). cbn. lia.
Qed.

Lemma pair_prepare_spec b0 b1 consumed max :
  (pair_prepare b0 b1 consumed max).1 ++ (pair_prepare b0 b1 consumed max).2 =
  take max (drop consumed (b0 ++ b1)).
Proof.
  unfold pair_prepare. cbv zeta. cbn [fst snd]. rewrite !buffer_plus_drop, !buffer_limit_take.
  rewrite drop_app, take_app, !length_take. f_equal. f_equal; [lia|].
  destruct (Nat.ltb_spec consumed (length b0)); f_equal; lia.
Qed.

(** ** [buffer_copy] *)

Lemma buffer_copy_1_spec t s :
  buffer_copy_1 t s = (take (min (length t) (length s)) s ++ drop (min (length t) (length s)) t,
                       min (length t) (length s)).
Proof.
  unfold buffer_copy_1. destruct (Nat.ltb_spec (length t) (length s));
    [rewrite Nat.min_l by lia|rewrite Nat.min_r by lia]; done.
Qed.

(** Where the source stands after a round. *)
Lemma next_source n (s : buffer) soff (sources : list buffer) :
  soff ≤ length s → n ≤ length (drop soff s) →
  ∃ soff' sources',
    (if n =? length (drop soff s) then (0, sources) else (soff + n, s :: sources)) = (soff', sources') ∧
    drop soff' (concat sources') = drop n (drop soff (concat (s :: sources))) ∧
    soff' ≤ length (default [] (head sources')) ∧ length sources' ≤ S (length sources) ∧
    (n = length (drop soff s) → length sources' ≤ length sources).
Proof.
  intros Hs Hn. cbn [concat]. rewrite drop_app_le by done.
  destruct (Nat.eqb_spec n (length (drop soff s))) as [E|E].
  - do 2 eexists. split; [done|]. rewrite drop_0, drop_app_ge, E, Nat.sub_diag, drop_0 by lia.
    split; [done|]. split; [lia|]. split; [lia|]. intros. lia.
  - rewrite length_drop in *. do 2 eexists. split; [done|]. cbn [concat head default length].
    rewrite drop_app_le, <- drop_drop, (drop_app_le (drop soff s)) by (rewrite ?length_drop; lia).
    split; [done|]. unfold id. split; [lia|]. split; [lia|]. intros. lia.
Qed.

Lemma copy_split {A} (d e : list A) n n' :
  n + n' ≤ length e →
  take n e ++ take n' (drop n e) ++ drop n' (drop n d) = take (n + n') e ++ drop (n + n') d.
Proof.
  intros H. rewrite drop_drop, app_assoc. f_equal.
  rewrite <- (take_drop n e) at 3. rewrite take_app_add' by (rewrite length_take; lia). done.
Qed.

Lemma min_step k a b total max :
  k ≤ a → k ≤ b → total + k ≤ max →
  k + min (min (a - k) (b - k)) (max - (total + k)) = min (min a b) (max - total).
Proof. lia. Qed.

Lemma buffer_copy_loop_spec fuel off targets soff sources max total :
  off ≤ length (default [] (head targets)) → soff ≤ length (default [] (head sources)) →
  total ≤ max →
  length targets + length sources < fuel ∨ (total = max ∧ 0 < fuel) →
  let T := drop off (concat targets) in
  let s := drop soff (concat sources) in
  let n := min (min (length T) (length s)) (max - total) in
  ∃ ts, buffer_copy_loop fuel off targets soff sources max total = Ret (ts, total + n) ∧
    concat ts = take off (concat targets) ++ take n s ++ drop n T ∧
    map length ts = map length targets.
Proof.
  revert off targets soff sources total. induction fuel as [|fuel IH];
    intros off targets soff sources total Ho Hso Ht Hf T s n; [lia|].
  assert (∀ m, m = 0 → n = m → ∃ ts, Ret (E := Empty_set) (targets, total) = Ret (ts, total + n) ∧
    concat ts = take off (concat targets) ++ take n s ++ drop n T ∧
    map length ts = map length targets) as Hstop.
  { intros ? -> ->. exists targets. rewrite Nat.add_0_r. split; [done|]. split; [|done].
    rewrite take_0. cbn [app]. unfold T. by rewrite drop_0, take_drop. }
  cbn [buffer_copy_loop]. destruct targets as [|t targets].
  { apply (Hstop 0); [done|]. unfold n, T. cbn. rewrite drop_nil. cbn. lia. }
  destruct sources as [|src sources].
  { apply (Hstop 0); [done|]. unfold n, s. cbn. rewrite drop_nil. cbn. lia. }
  destruct (Nat.eqb_spec total max) as [E|Hne]; [apply (Hstop 0); [done|]; lia|].
  destruct Hf as [Hf|[? _]]; [|done]. clear Hstop.
  cbn [head default length] in Ho, Hso, Hf. unfold id in Ho, Hso.
  rewrite !buffer_plus_drop, buffer_limit_take, buffer_copy_1_spec, length_take.
  set (d := drop off t). set (e := drop soff src).
  set (k := min (length d) (min (max - total) (length e))).
  assert (T = d ++ concat targets) as ET by (unfold T; cbn [concat]; by rewrite drop_app_le).
  assert (s = e ++ concat sources) as Es by (unfold s; cbn [concat]; by rewrite drop_app_le).
  destruct (next_source k src soff sources Hso ltac:(fold e; lia)) as
    (soff' & sources' & Enext & Hsrc & Hso' & Hl & Hl').
  fold s in Hsrc. fold e in Enext, Hl'. cbv zeta. rewrite Enext. clear Enext.
  assert (take k (take (max - total) e) = take k e) as -> by (rewrite take_take; f_equal; lia).
  assert (length (take off t) = off) as Hoff by (rewrite length_take; lia).
  assert (length (take k e) = k) as Hke by (rewrite length_take; lia).
  assert (length t = off + length d) as Hlt by (unfold d; rewrite length_drop; lia).
  assert (total + k ≤ max) as Hk by lia.
  destruct (Nat.eqb_spec k (length d)) as [Ed|Ed].
  - destruct (IH 0 targets soff' sources' (total + k) ltac:(lia) Hso' Hk ltac:(left; lia))
      as (ts & Eq & Ec & Em).
    rewrite drop_0, Hsrc in Eq, Ec.
    set (n2 := min (min (length (concat targets)) (length (drop k s))) (max - (total + k))) in *. rewrite Eq. cbn [mbind outcome_bind].
    assert (k + n2 = n) as En.
    { unfold n, n2. rewrite length_drop, ET, Es, !length_app. lia. }
    eexists. split; [do 2 f_equal; lia|]. cbn [concat map]. rewrite Ec, Em. cbn [app]. split.
    + rewrite take_app_le, <- app_assoc by lia. f_equal. rewrite drop_ge, app_nil_r by lia.
      assert (concat targets = drop k T) as -> by (rewrite ET, drop_app_ge, Ed, Nat.sub_diag; [done|lia]).
      assert (take k e = take k s) as -> by (rewrite Es, take_app_le; [done|lia]).
      rewrite take_0. cbn [app]. rewrite copy_split by (rewrite Es, length_app; unfold n2; rewrite length_drop, Es, length_app; lia).
      by rewrite En.
    + f_equal. rewrite !length_app, length_drop, Hoff, Hke. lia.
  - set (t' := take off t ++ take k e ++ drop k d).
    assert (length t' = length t) as Hlt'.
    { unfold t'. rewrite !length_app, length_drop, Hoff, Hke. lia. }
    assert (length sources' ≤ length sources ∨ total + k = max) as Hor.
    { destruct (decide (k = length e)); [left; by apply Hl'|right; lia]. }
    destruct (IH (off + k) (t' :: targets) soff' sources' (total + k)) as (ts & Eq & Ec & Em).
    { cbn. unfold id. lia. } { done. } { done. } { cbn [length]. lia. }
    assert (drop (off + k) (concat (t' :: targets)) = drop k T) as EdT.
    { cbn [concat]. rewrite ET, !drop_app_le by lia. f_equal. unfold t'.
      rewrite app_assoc, drop_app_ge by (rewrite length_app; lia).
      by rewrite length_app, Hoff, Hke, Nat.sub_diag, drop_0. }
    rewrite EdT, Hsrc in Eq, Ec.
    set (n2 := min (min (length (drop k T)) (length (drop k s))) (max - (total + k))) in *. rewrite Eq.
    assert (k + n2 = n) as En.
    { unfold n, n2. rewrite !length_drop. apply min_step; [| |done];
        rewrite ?ET, ?Es, length_app; unfold k; clear; lia. }
    eexists. split; [do 2 f_equal; lia|]. rewrite Ec, Em. cbn [map]. rewrite Hlt'. split; [|done].
    cbn [concat]. rewrite !take_app_le by lia. unfold t'.
    rewrite (app_assoc (take off t)), take_app_le by (rewrite length_app; lia).
    rewrite (take_ge (take off t ++ take k e)) by (rewrite length_app; lia).
    rewrite <- app_assoc. f_equal.
    assert (take k e = take k s) as -> by (rewrite Es, take_app_le; [done|lia]).
    rewrite copy_split by (unfold n2; rewrite !length_drop; lia). by rewrite En.
Qed.
