(* ===== verification/AsioTransfer.v ===== *)
(** The composed synchronous operations of Asio: [asio::write] (impl/write.hpp)
    and [asio::read] (impl/read.hpp), which call [write_some] or [read_some]
    until the completion condition is met, against the interface of a stream
    socket. *)

From S2P Require Import Prelude AsioBuffers.

#[local] Open Scope nat_scope.

(** * Streams *)

(** [SyncWriteStream] and [SyncReadStream].  A read is told how many bytes the
    buffers hold. *)
Class Stream (S : Type) := {
  write_some : list buffer → S → nat * error_code * S;
  read_some : nat → S → buffer * error_code * S
}.

(** What a blocking stream socket promises: it transfers no more than it is
    given, at least one byte without an error and none with one, and what it
    reports is what it transferred. *)
Class StreamLaws (S : Type) `{Stream S} := {
  sent : S → buffer;
  received : S → buffer;
  write_some_law bs s n ec s' :
    write_some bs s = (n, ec, s') →
    n ≤ buffer_size bs ∧ (ec = 0%Z → 0 < buffer_size bs → 0 < n) ∧ (ec ≠ 0%Z → n = 0) ∧
    sent s' = sent s ++ take n (concat bs) ∧ received s' = received s;
  read_some_law size s d ec s' :
    read_some size s = (d, ec, s') →
    length d ≤ size ∧ (ec = 0%Z → 0 < size → 0 < length d) ∧ (ec ≠ 0%Z → d = []) ∧
    received s' = received s ++ d ∧ sent s' = sent s
}.

(** What the sockets of Asio do besides: nothing, when there is nothing to
    transfer. *)
Class EmptyLaws (S : Type) `{Stream S} := {
  write_empty bs s : buffer_size bs = 0 → write_some bs s = (0, 0%Z, s);
  read_empty s : read_some 0 s = ([], 0%Z, s)
}.

(** * The loop *)

Section transfer.
  Context {S : Type} (step : list buffer → S → nat * error_code * S).
  Context (cond : completion_condition) (max_buffers : nat).

(** [while (!tmp.empty()) { ... }]. *)
Fixpoint transfer_loop (fuel : nat) (tmp : consuming_buffers) (ec : error_code) (s : S) :
    outcome Empty_set (nat * error_code * S) :=
  match fuel with
  | O => Diverge
  | Datatypes.S fuel' =>
      if empty tmp then Ret (total_consumed tmp, ec, s)
      else
        let max_size := next_transfer cond ec (total_consumed tmp) in
        if 0 <? max_size then
          let '(n, ec, s) := step (prepare max_buffers tmp max_size) s in
          transfer_loop fuel' (consume tmp n) ec s
        else Ret (total_consumed tmp, ec, s)
  end.

(** The body of the loop and its tests on their own: the result of the loop, or
    the variables for another round. *)
Definition transfer_round (tmp : consuming_buffers) (ec : error_code) (s : S) :
    nat * error_code * S + consuming_buffers * error_code * S :=
  if empty tmp then inl (total_consumed tmp, ec, s)
  else
    let max_size := next_transfer cond ec (total_consumed tmp) in
    if 0 <? max_size then
      let '(n, ec, s) := step (prepare max_buffers tmp max_size) s in
      inr (consume tmp n, ec, s)
    else inl (total_consumed tmp, ec, s).

Lemma transfer_loop_round fuel tmp ec s :
  transfer_loop (Datatypes.S fuel) tmp ec s =
  match transfer_round tmp ec s with
  | inl r => Ret r
  | inr (tmp, ec, s) => transfer_loop fuel tmp ec s
  end.
Proof.
  unfold transfer_round. cbn [transfer_loop]. destruct (empty tmp); [done|]. cbv zeta.
  destruct (0 <? _); [|done]. by destruct (step _ s) as [[n ec'] s'].
Qed.

(** Without an error every round moves a byte, and an error ends the loop. *)
Definition transfer_fuel (bs : list buffer) : nat := 2 + buffer_size bs.

Definition transfer (bs : list buffer) (s : S) : outcome Empty_set (nat * error_code * S) :=
  transfer_loop (transfer_fuel bs) (init_consuming bs) 0 s.
End transfer.

Section operations.
  Context {S : Type} `{Stream S}.

(** [asio::write(s, buffers, completion_condition, ec)]. *)
Definition write_cond (cond : completion_condition) (max_buffers : nat) (bs : list buffer) (s : S) :
    outcome Empty_set (nat * error_code * S) :=
  transfer write_some cond max_buffers bs s.

(** [asio::write(s, buffers)], which throws the error. *)
Definition write_throw (max_buffers : nat) (bs : list buffer) (s : S) :
    outcome (error_code * S) (nat * S) :=
  match write_cond transfer_all max_buffers bs s with
  | Ret (n, ec, s) => if (ec =? 0)%Z then Ret (n, s) else Throw (ec, s)
  | Throw e => match e with end
  | Abort => Abort
  | Undef => Undef
  | Diverge => Diverge
  end.

(** [detail::read_buffer_seq]: the bytes stored so far go with the stream. *)
Definition read_step (bs : list buffer) (sd : S * buffer) : nat * error_code * (S * buffer) :=
  let '(d, ec, s) := read_some (buffer_size bs) sd.1 in
  (length d, ec, (s, sd.2 ++ d)).

(** The buffers afterwards are the bytes read and what was behind them. *)
Definition read_cond (cond : completion_condition) (max_buffers : nat) (bs : list buffer) (s : S) :
    outcome Empty_set (nat * error_code * (S * buffer)) :=
  transfer read_step cond max_buffers bs (s, []).
End operations.

(** * Correctness of the loop *)

(** What a completion condition asks of the number of bytes. *)
Definition met (cond : completion_condition) (size n : nat) : Prop :=
  match cond with
  | transfer_all => n = size
  | transfer_at_least minimum => min minimum size ≤ n
  | transfer_exactly k => n = min k size
  end.

Definition limit (cond : completion_condition) (size : nat) : nat :=
  match cond with transfer_exactly k => min k size | _ => size end.

Lemma next_transfer_error c ec n : ec ≠ 0%Z → next_transfer c ec n = 0.
Proof.
  intros He. unfold next_transfer. apply Z.eqb_neq in He. rewrite He. by destruct c.
Qed.

Lemma next_transfer_stop c n size :
  n ≤ limit c size → next_transfer c 0 n = 0 → met c size n.
Proof.
  unfold next_transfer, default_max_transfer_size.
  destruct c as [|m|k]; cbn [limit met Z.eqb negb orb]; intros Hn; [done|..].
  - destruct (Nat.leb_spec m n); [lia|done].
  - destruct (Nat.leb_spec k n); [lia|].
    destruct (Nat.ltb_spec (k - n) (Z.to_nat 65536)); lia.
Qed.

Lemma next_transfer_limit c n size x :
  n ≤ limit c size → x ≤ next_transfer c 0 n → x ≤ size - n → n + x ≤ limit c size.
Proof.
  unfold next_transfer. destruct c as [|m|k]; cbn [limit Z.eqb negb orb]; intros Hn; try lia.
  destruct (Nat.leb_spec k n); [lia|]. destruct (Nat.ltb_spec (k - n) default_max_transfer_size); lia.
Qed.

Section spec.
  Context {S : Type} (step : list buffer → S → nat * error_code * S).
  Context (cond : completion_condition) (max_buffers : nat) (Hk : 0 < max_buffers).
  (** The bytes of the sequence, and what holds after a number of them. *)
  Context (data : buffer) (P : nat → S → Prop).
  Hypothesis step_law : ∀ c bs s n ec s',
    P c s → (∃ m, concat bs = take m (drop c data)) → step bs s = (n, ec, s') →
    n ≤ buffer_size bs ∧ (ec = 0%Z → 0 < buffer_size bs → 0 < n) ∧ P (c + n) s'.

Lemma transfer_loop_spec fuel tmp ec s :
  consuming_ok tmp → concat (buffers tmp) = data → P (total_consumed tmp) s →
  total_consumed tmp ≤ limit cond (length data) →
  length (remaining tmp) + 1 < fuel ∨ (ec ≠ 0%Z ∧ 0 < fuel) →
  ∃ n ec' s', transfer_loop step cond max_buffers fuel tmp ec s = Ret (n, ec', s') ∧
    P n s' ∧ n ≤ limit cond (length data) ∧ (ec' = 0%Z → met cond (length data) n).
Proof.
  revert tmp ec s. induction fuel as [|fuel IH]; intros tmp ec s Hok Hdata HP Hlim Hf; [lia|].
  pose proof (ok_remaining tmp Hok) as Hrem. rewrite Hdata in Hrem.
  cbn [transfer_loop]. destruct (empty tmp) eqn:Ee.
  { do 3 eexists. split; [done|]. split; [done|]. split; [done|]. intros _.
    apply (empty_remaining tmp Hok) in Ee. rewrite Hrem in Ee. apply (f_equal length) in Ee.
    rewrite length_drop in Ee. cbn in Ee. destruct cond; cbn in *; lia. }
  assert (remaining tmp ≠ []) as Hne.
  { intros E. apply (empty_remaining tmp Hok) in E. congruence. }
  destruct (Nat.ltb_spec 0 (next_transfer cond ec (total_consumed tmp))) as [Hpos|Hzero].
  - destruct (decide (ec = 0%Z)) as [->|Hec]; [|rewrite next_transfer_error in Hpos by done; lia].
    destruct Hf as [Hf|[? _]]; [|done].
    set (max := next_transfer cond 0 (total_consumed tmp)) in *.
    destruct (prepare_spec max_buffers tmp max Hok) as (m & Em & Hm & Hprog).
    rewrite Hrem in Em.
    destruct (step (prepare max_buffers tmp max) s) as [[n ec1] s1] eqn:Es.
    destruct (step_law _ _ _ _ _ _ HP ltac:(by exists m) Es) as (Hn & Hgo & HP').
    rewrite buffer_size_concat, Em, length_take, <- Hrem in Hn.
    destruct (consume_spec tmp n Hok ltac:(lia)) as (Hok' & Hr' & Hb' & Hc').
    assert (length (remaining tmp) = length data - total_consumed tmp) as Hlen
      by (by rewrite Hrem, length_drop).
    apply IH; [done|by rewrite Hb'|by rewrite Hc'| |].
    + rewrite Hc'. apply next_transfer_limit; [done|fold max; lia|lia].
    + rewrite Hr', length_drop. destruct (decide (ec1 = 0%Z)) as [->|]; [left|right; split; [done|lia]].
      assert (0 < n); [|lia]. apply Hgo; [done|].
      rewrite buffer_size_concat, Em, length_take, <- Hrem.
      assert (0 < m) by (by apply Hprog). destruct (remaining tmp); [done|]. cbn [length] in *. lia.
  - do 3 eexists. split; [done|]. split; [done|]. split; [done|]. intros ->.
    apply next_transfer_stop; [done|lia].
Qed.

Lemma transfer_spec bs s :
  concat bs = data → P 0 s →
  ∃ n ec s', transfer step cond max_buffers bs s = Ret (n, ec, s') ∧
    P n s' ∧ n ≤ limit cond (length data) ∧ (ec = 0%Z → met cond (length data) n).
Proof.
  intros Hd HP. unfold transfer, transfer_fuel. apply transfer_loop_spec; [apply init_consuming_ok|done|done| |].
  - cbn. lia.
  - left. unfold remaining. cbn [init_consuming next_elem_offset next_elem buffers].
    rewrite !drop_0, Hd, buffer_size_concat, Hd. lia.
Qed.
End spec.

(** * The operations *)

Section laws.
  Context {S : Type} `{StreamLaws S}.
  Context (cond : completion_condition) (max_buffers : nat) (Hk : 0 < max_buffers).

Lemma write_cond_spec bs s :
  ∃ n ec s', write_cond cond max_buffers bs s = Ret (n, ec, s') ∧
    sent s' = sent s ++ take n (concat bs) ∧ received s' = received s ∧
    n ≤ limit cond (buffer_size bs) ∧ (ec = 0%Z → met cond (buffer_size bs) n).
Proof.
  unfold write_cond. rewrite !buffer_size_concat.
  destruct (transfer_spec write_some cond max_buffers Hk (concat bs)
    (λ c s', sent s' = sent s ++ take c (concat bs) ∧ received s' = received s)) with (bs := bs) (s := s)
    as (n & ec & s' & E & [Hs Hr] & Hn & Hm); [|done|by rewrite take_0, app_nil_r|by eauto 10].
  intros c bs' s1 n ec s2 [Hs Hr] [m Em] Hw.
  destruct (write_some_law _ _ _ _ _ Hw) as (H1 & H2 & _ & H3 & H4). split; [done|]. split; [done|].
  rewrite H4, H3, Hs, Em, <- app_assoc. split; [|done]. f_equal.
  rewrite buffer_size_concat, Em, length_take in H1.
  rewrite take_take, Nat.min_l by lia. by rewrite take_take_drop.
Qed.

Lemma read_cond_spec bs s :
  ∃ n ec s' d, read_cond cond max_buffers bs s = Ret (n, ec, (s', d)) ∧
    length d = n ∧ received s' = received s ++ d ∧ sent s' = sent s ∧
    n ≤ limit cond (buffer_size bs) ∧ (ec = 0%Z → met cond (buffer_size bs) n).
Proof.
  unfold read_cond. rewrite !buffer_size_concat.
  destruct (transfer_spec read_step cond max_buffers Hk (concat bs)
    (λ c sd, length sd.2 = c ∧ received sd.1 = received s ++ sd.2 ∧ sent sd.1 = sent s))
    with (bs := bs) (s := (s, [] : buffer))
    as (n & ec & [s' d] & E & (Hl & Hr & Hs) & Hn & Hm); [|done|by rewrite app_nil_r|by eauto 15].
  intros c bs' [s1 d1] n ec sd2 (Hl & Hr & Hs) [m Em]. unfold read_step. cbn [fst snd] in *.
  destruct (read_some (buffer_size bs') s1) as [[d ec'] s2] eqn:Er. intros [= <- <- <-].
  destruct (read_some_law _ _ _ _ _ Er) as (H1 & H2 & _ & H3 & H4). cbn [fst snd].
  split; [done|]. split; [done|]. rewrite length_app, Hl, H3, Hr, H4, app_assoc. done.
Qed.
(** One round of [asio::write] with [transfer_all]: it sends the next of the
    remaining bytes, at least one of them unless there is an error; the loop
    ends when none remain or behind an error. *)
Lemma write_round_spec tmp ec s :
  consuming_ok tmp →
  match transfer_round write_some transfer_all max_buffers tmp ec s with
  | inl (_, ec', s') => ec' = ec ∧ s' = s ∧ (ec = 0%Z → remaining tmp = [])
  | inr (tmp', ec', s') =>
      ec = 0%Z ∧ consuming_ok tmp' ∧ received s' = received s ∧
      ∃ n, n ≤ length (remaining tmp) ∧ remaining tmp' = drop n (remaining tmp) ∧
        sent s' = sent s ++ take n (remaining tmp) ∧ (ec' = 0%Z → 0 < n)
  end.
Proof.
  intros Hok. unfold transfer_round. destruct (empty tmp) eqn:Ee.
  { split_and!; [done..|]. intros _. by apply (empty_remaining tmp Hok). }
  cbv zeta. destruct (decide (ec = 0%Z)) as [->|Hec]; cycle 1.
  { by rewrite next_transfer_error. }
  destruct (Nat.ltb_spec 0 (next_transfer transfer_all 0 (total_consumed tmp))) as [Hpos|Hz];
    [|by unfold next_transfer, default_max_transfer_size in Hz; cbn in Hz; lia].
  set (max := next_transfer transfer_all 0 (total_consumed tmp)) in *.
  destruct (prepare_spec max_buffers tmp max Hok) as (m & Em & Hm & Hprog).
  destruct (write_some (prepare max_buffers tmp max) s) as [[n ec1] s1] eqn:Es.
  destruct (write_some_law _ _ _ _ _ Es) as (Hn & Hgo & _ & Hsent & Hrec).
  rewrite buffer_size_concat, Em, length_take in Hn.
  destruct (consume_spec tmp n Hok ltac:(lia)) as (Hok' & Hr' & _ & _).
  split_and!; [done..|]. exists n. split_and!; [lia|done|by rewrite Hsent, Em, take_take, Nat.min_l by lia|].
  intros ->. apply Hgo; [done|]. rewrite buffer_size_concat, Em, length_take.
  assert (remaining tmp ≠ []) as Hne.
  { intros E. apply (empty_remaining tmp Hok) in E. congruence. }
  assert (0 < m) by (by apply Hprog). destruct (remaining tmp); [done|]. cbn [length]. lia.
Qed.
End laws.
