(* ===== verification/EchoServer.v ===== *)
(** The echo server on Asio sockets,
    20251106-SocketC/src/server/coroutine_tasks_server.cpp: [main] accepts
    clients and starts a detached thread for each, which runs [doit] and
    [str_echo].  The sockets are any stream of [AsioTransfer]. *)

From stdpp Require Import relations.
From S2P Require Import Prelude JsonValue JsonIntegerText AsioBuffers AsioTransfer.

#[local] Open Scope nat_scope.

Inductive log_line : Type :=
| Log_info (text : cstring)
| Log_warning (text : cstring)
| Log_err (text : cstring).

(** What a round of the loop in [str_echo] leads to. *)
Inductive round (S : Type) : Type :=
| Round_again (s : S) (log : list log_line)
| Round_break (s : S) (log : list log_line)
| Round_throw (s : S).
Arguments Round_again {S} s log.
Arguments Round_break {S} s log.
Arguments Round_throw {S} s.

(** The size of the array in [str_echo]. *)
Definition echo_buf_size : nat := Z.to_nat 4096.

(** How [str_echo] stands after some rounds. *)
Inductive echo_status : Type := Echo_running | Echo_done | Echo_threw.

Section echo.
  Context {S : Type} `{Stream S}.
  (** The error codes that are told apart, and their texts. *)
  Context (error_eof error_interrupted : error_code) (message : error_code → cstring).

(** The round up to the call of [asio::write], if it comes to that. *)
Definition echo_read (s : S) : buffer * S + round S :=
  let '(buf, ec, s) := read_some echo_buf_size s in
  if (ec =? 0)%Z && (0 <? length buf) then inl (buf, s)
  else inr
    (if (ec =? error_eof)%Z then
       Round_break s [Log_info (str "Client closed connection -> Stop this thread")]
     else if (ec =? error_interrupted)%Z then
       Round_again s [Log_warning (str "User interrupt -> Ignore")]
     else Round_break s [Log_err (str "Error: " ++ message ec ++ str " -> Stop this thread")]).

Definition echo_round (s : S) : round S :=
  match echo_read s with
  | inl (buf, s) =>
      match write_throw 1 [buf] s with
      | Ret (_, s) => Round_again s []
      | Throw (_, s) => Round_throw s
      | _ => Round_throw s   (* [write] always ends: [write_throw_spec] *)
      end
  | inr r => r
  end.

(** [str_echo] for at most [fuel] rounds: a client may keep it running as long
    as it likes. *)
Fixpoint str_echo (fuel : nat) (s : S) (log : list log_line) : echo_status * S * list log_line :=
  match fuel with
  | O => (Echo_running, s, log)
  | Datatypes.S fuel' =>
      match echo_round s with
      | Round_again s l => str_echo fuel' s (log ++ l)
      | Round_break s l => (Echo_done, s, log ++ l)
      | Round_throw s => (Echo_threw, s, log)
      end
  end.

(** * The server *)

(** A client thread runs [doit]; the socket it closes afterwards was moved
    into [str_echo], so closing it does nothing.  Between two calls of
    [write_some] the thread is inside [asio::write], whose variables are the
    buffers that remain and the last error. *)
Inductive session : Type :=
| Session_reading (s : S)
| Session_writing (tmp : consuming_buffers) (ec : error_code) (s : S)
| Session_ended (s : S).

Definition session_stream (c : session) : S :=
  match c with Session_reading s | Session_writing _ _ s | Session_ended s => s end.

Record server : Type := mk_server {
  alive : bool;            (** [false] after [std::terminate] *)
  sessions : list session;
  slog : list log_line
}.

Definition init_server : server := mk_server true [] [].

(** [main] up to the loop: without a bound acceptor it returns 1. *)
Definition start_server (bound : bool) : server + Z * list log_line :=
  if bound then inl init_server
  else inr (1%Z, [Log_err (str "We got an Error while setting up the server: ")]).

Definition accepted_line (ip : cstring) (port : Z) : log_line :=
  Log_info (str "Accepted connection from " ++ ip ++ str ":" ++ int_text port).

(** The exception's text is an argument that the format does not use. *)
Definition accept_failed_line : log_line :=
  Log_err (str "We got an Error while running the server to handle client A: ").

(** [fresh] holds of a socket that has just been accepted. *)
Context (fresh : S → Prop).

Inductive server_step : server → server → Prop :=
| server_accept cs log s ip port :
    fresh s →
    server_step (mk_server true cs log)
      (mk_server true (cs ++ [Session_reading s]) (log ++ [accepted_line ip port]))
| server_accept_failed cs log :
    server_step (mk_server true cs log) (mk_server true cs (log ++ [accept_failed_line]))
| server_thread_failed cs log ip port :
    server_step (mk_server true cs log)
      (mk_server true cs (log ++ [accepted_line ip port; accept_failed_line]))
| server_read cs log i s buf s' :
    cs !! i = Some (Session_reading s) → echo_read s = inl (buf, s') →
    server_step (mk_server true cs log)
      (mk_server true (<[i := Session_writing (init_consuming [buf]) 0 s']> cs) log)
| server_again cs log i s s' l :
    cs !! i = Some (Session_reading s) → echo_read s = inr (Round_again s' l) →
    server_step (mk_server true cs log) (mk_server true (<[i := Session_reading s']> cs) (log ++ l))
| server_break cs log i s s' l :
    cs !! i = Some (Session_reading s) → echo_read s = inr (Round_break s' l) →
    server_step (mk_server true cs log) (mk_server true (<[i := Session_ended s']> cs) (log ++ l))
| server_write cs log i tmp ec s tmp' ec' s' :
    cs !! i = Some (Session_writing tmp ec s) →
    transfer_round write_some transfer_all 1 tmp ec s = inr (tmp', ec', s') →
    server_step (mk_server true cs log) (mk_server true (<[i := Session_writing tmp' ec' s']> cs) log)
| server_written cs log i tmp ec s n s' :
    cs !! i = Some (Session_writing tmp ec s) →
    transfer_round write_some transfer_all 1 tmp ec s = inl (n, 0%Z, s') →
    server_step (mk_server true cs log) (mk_server true (<[i := Session_reading s']> cs) log)
| server_throw cs log i tmp ec s n ec' s' :
    cs !! i = Some (Session_writing tmp ec s) →
    transfer_round write_some transfer_all 1 tmp ec s = inl (n, ec', s') → ec' ≠ 0%Z →
    server_step (mk_server true cs log) (mk_server false (<[i := Session_ended s']> cs) log).
End echo.

(** * A socket that follows a script

    The kernel's side of a connection: chunks that arrive, and how much each
    send takes, or the error it gives; by default sends take everything and
    the peer closes after its last chunk. *)

Inductive read_event : Type := Chunk (d : buffer) | Read_error (ec : error_code).
Inductive write_event : Type := Take (n : nat) | Write_error (ec : error_code).

Record script : Type := mk_script {
  reads : list read_event;
  writes : list write_event;
  script_sent : buffer;
  script_received : buffer
}.

(** The value of [asio::error::eof] in its category. *)
Definition script_eof : error_code := 2%Z.

Definition nonzero (ec : error_code) : error_code := if (ec =? 0)%Z then 1%Z else ec.

Definition script_write (bs : list buffer) (s : script) : nat * error_code * script :=
  let taken n ws := mk_script (reads s) ws (script_sent s ++ take n (concat bs)) (script_received s) in
  match writes s with
  | [] => (buffer_size bs, 0%Z, taken (buffer_size bs) [])
  | Take n :: ws => let n := min (Datatypes.S n) (buffer_size bs) in (n, 0%Z, taken n ws)
  | Write_error ec :: ws => (0, nonzero ec, taken 0 ws)
  end.

Fixpoint drop_empty (rs : list read_event) : list read_event :=
  match rs with
  | Chunk [] :: rs' => drop_empty rs'
  | _ => rs
  end.

Definition script_read (size : nat) (s : script) : buffer * error_code * script :=
  let got d rs := mk_script rs (writes s) (script_sent s) (script_received s ++ d) in
  match drop_empty (reads s) with
  | [] => ([], script_eof, got [] [])
  | Chunk d :: rs => (take size d, 0%Z, got (take size d) (drop_empty (Chunk (drop size d) :: rs)))
  | Read_error ec :: rs => ([], nonzero ec, got [] rs)
  end.

#[export] Instance script_stream : Stream script :=
  {| write_some := script_write; read_some := script_read |}.

Lemma nonzero_ne ec : nonzero ec ≠ 0%Z.
Proof. unfold nonzero. by destruct (Z.eqb_spec ec 0). Qed.

Lemma script_write_law bs s n ec s' :
  script_write bs s = (n, ec, s') →
  n ≤ buffer_size bs ∧ (ec = 0%Z → 0 < buffer_size bs → 0 < n) ∧ (ec ≠ 0%Z → n = 0) ∧
  script_sent s' = script_sent s ++ take n (concat bs) ∧ script_received s' = script_received s.
Proof.
  unfold script_write. destruct (writes s) as [|[k|e] ws]; intros [= <- <- <-];
    cbn [script_sent script_received].
  - split; [done|]. split; [auto|]. by split.
  - change (match buffer_size bs with 0 => 0 | Datatypes.S m' => Datatypes.S (min k m') end)
      with (min (Datatypes.S k) (buffer_size bs)).
    split; [lia|]. split; [intros _ Hb; lia|]. by split.
  - split; [lia|]. split; [intros Ez; by destruct (nonzero_ne e)|]. by split.
Qed.

Lemma drop_empty_head rs d rs' : drop_empty rs = Chunk d :: rs' → d ≠ [].
Proof.
  induction rs as [|[[|x d'] |e] rs IH]; cbn; try done. by intros [= <- _].
Qed.

Lemma script_read_law size s d ec s' :
  script_read size s = (d, ec, s') →
  length d ≤ size ∧ (ec = 0%Z → 0 < size → 0 < length d) ∧ (ec ≠ 0%Z → d = []) ∧
  script_received s' = script_received s ++ d ∧ script_sent s' = script_sent s.
Proof.
  unfold script_read. destruct (drop_empty (reads s)) as [|[c|e] rs] eqn:E;
    intros [= <- <- <-]; cbn [script_sent script_received].
  - split; [cbn; lia|]. by split.
  - rewrite length_take. split; [lia|]. split; [|by split]. intros _ Hs.
    apply drop_empty_head in E. destruct c; [done|]. cbn [length]. lia.
  - split; [cbn; lia|]. split; [intros Ez; by destruct (nonzero_ne e)|]. by split.
Qed.

#[export] Instance script_laws : StreamLaws script := {|
  sent := script_sent;
  received := script_received;
  write_some_law := script_write_law;
  read_some_law := script_read_law
|}.

(** * What the server does *)

Section spec.
  Context {S : Type} `{StreamLaws S}.
  Context (error_eof error_interrupted : error_code) (message : error_code → cstring).

Abbreviation echo_round := (echo_round error_eof error_interrupted message).
Abbreviation echo_read := (echo_read error_eof error_interrupted message).

Lemma write_throw_spec k bs (s : S) :
  0 < k →
  ∃ n s', sent s' = sent s ++ take n (concat bs) ∧ received s' = received s ∧
    ((write_throw k bs s = Ret (n, s') ∧ n = buffer_size bs) ∨
     (∃ ec, write_throw k bs s = Throw (ec, s') ∧ ec ≠ 0%Z)).
Proof.
  intros Hk. unfold write_throw.
  destruct (write_cond_spec transfer_all k Hk bs s) as (n & ec & s' & -> & Hs & Hr & _ & Hm).
  exists n, s'. split; [done|]. split; [done|]. destruct (Z.eqb_spec ec 0) as [Hec|Hec];
    [left; split; [done|]; by apply Hm|right; by exists ec].
Qed.

(** What is read is at most a block; nothing is read otherwise. *)
Lemma echo_read_spec (s : S) :
  match echo_read s with
  | inl (d, s') => 0 < length d ≤ echo_buf_size ∧ received s' = received s ++ d ∧ sent s' = sent s
  | inr (Round_again s' _) | inr (Round_break s' _) => received s' = received s ∧ sent s' = sent s
  | inr (Round_throw _) => False
  end.
Proof.
  unfold EchoServer.echo_read. destruct (read_some echo_buf_size s) as [[d ec] s1] eqn:Er.
  destruct (read_some_law _ _ _ _ _ Er) as (Hl & Hgo & Hnone & Hr & Hs).
  assert (0 < echo_buf_size) as Hsize by (unfold echo_buf_size; lia).
  destruct (Z.eqb_spec ec 0) as [->|Hec].
  - assert ((0 <? length d) = true) as -> by (apply Nat.ltb_lt; auto). cbn [andb]. by auto.
  - cbn [andb]. rewrite (Hnone Hec), app_nil_r in Hr.
    destruct (ec =? error_eof)%Z; [done|]. by destruct (ec =? error_interrupted)%Z.
Qed.

(** One round echoes what it reads, all of it unless the write throws. *)
Lemma echo_round_spec (s : S) :
  match echo_round s with
  | Round_again s' _ => ∃ d, received s' = received s ++ d ∧ sent s' = sent s ++ d
  | Round_break s' _ => received s' = received s ∧ sent s' = sent s
  | Round_throw s' => ∃ d n, received s' = received s ++ d ∧ sent s' = sent s ++ take n d
  end.
Proof.
  unfold EchoServer.echo_round. pose proof (echo_read_spec s) as He.
  destruct (echo_read s) as [[d s1]|[s1 l|s1 l|s1]]; [|exists []; by rewrite !app_nil_r|done|done].
  destruct He as (_ & Hr & Hs).
  destruct (write_throw_spec 1 [d] s1 ltac:(lia)) as (n & s2 & Hs2 & Hr2 & Hw).
  cbn [concat buffer_size] in *. rewrite app_nil_r in Hs2. rewrite Hr in Hr2. rewrite Hs in Hs2.
  destruct Hw as [[-> ->]|(ec & -> & _)]; [|eauto].
  exists d. rewrite Nat.add_0_r, take_ge in Hs2 by lia. done.
Qed.
End spec.
