(* ===== verification/AsioProperties.v ===== *)
(** What Asio's composed operations and the echo server on top of them
    promise: the buffer cursor, the specialised cursors, copying, complete
    reads and writes, and that every byte received is sent back. *)

From stdpp Require Import relations.
From S2P Require Import Prelude AsioBuffers AsioTransfer EchoServer.

#[local] Open Scope nat_scope.

(** * The cursor *)

Lemma consume_all_spec bs ns cb :
  consuming_ok cb → buffers cb = bs → total_consumed cb + sum_list ns ≤ buffer_size bs →
  consuming_ok (foldl consume cb ns) ∧ buffers (foldl consume cb ns) = bs ∧
  total_consumed (foldl consume cb ns) = total_consumed cb + sum_list ns.
Proof.
  revert cb. induction ns as [|n ns IH]; intros cb Hok Hb Hs; cbn [foldl sum_list] in *.
  { split; [done|]. split; [done|lia]. }
  assert (n ≤ length (remaining cb)) as Hn.
  { rewrite (ok_remaining cb Hok), length_drop, Hb, <- buffer_size_concat. cbn in Hs. lia. }
  destruct (consume_spec cb n Hok Hn) as (Hok' & _ & Hb' & Hc').
  destruct (IH (consume cb n) Hok') as (H1 & H2 & H3); [by rewrite Hb'|cbn in *; lia|].
  split; [done|]. split; [done|]. cbn in *. lia.
Qed.

(** C23: after any number of bytes has been consumed piece by piece,
    [consuming_buffers] stands at that position of the concatenated buffers:
    it is empty exactly at the end, and [prepare] yields the bytes from there
    on, no more than asked for, and some unless there are none. *)
Theorem consuming_buffers_cursor bs ns :
  sum_list ns ≤ buffer_size bs →
  let cb := foldl consume (init_consuming bs) ns in
  total_consumed cb = sum_list ns ∧ (empty cb = true ↔ sum_list ns = buffer_size bs) ∧
  ∀ k max, ∃ n, concat (prepare k cb max) = take n (drop (sum_list ns) (concat bs)) ∧ n ≤ max ∧
    (0 < max → 0 < k → sum_list ns < buffer_size bs → 0 < n).
Proof.
  intros Hs cb. destruct (consume_all_spec bs ns (init_consuming bs)) as (Hok & Hb & Hc);
    [apply init_consuming_ok|done|done|]. fold cb in Hok, Hb, Hc. cbn [init_consuming total_consumed] in Hc.
  split; [done|]. pose proof (ok_remaining cb Hok) as Hr. rewrite Hb, Hc in Hr. cbn in Hr.
  rewrite (empty_remaining cb Hok), Hr. split.
  - rewrite buffer_size_concat in *. split; [|intros ->; by apply drop_ge].
    intros E. apply (f_equal length) in E. rewrite length_drop in E. cbn in E. lia.
  - intros k max. destruct (prepare_spec k cb max Hok) as (n & En & Hn & Hp).
    rewrite Hr in En, Hp. exists n. split; [done|]. split; [done|]. intros. apply Hp; [done..|].
    intros E. apply (f_equal length) in E. rewrite length_drop, <- buffer_size_concat in E. cbn in E. lia.
Qed.

Lemma consuming_buffers_cursor_witness :
  let cb := foldl consume (init_consuming [[1; 2; 3]; []; [4; 5]]%Z) [1; 2] in
  total_consumed cb = 3 ∧ (empty cb = true ↔ 3 = 5) ∧
  ∀ k max, ∃ n, concat (prepare k cb max) = take n (drop 3 [1; 2; 3; 4; 5]%Z) ∧ n ≤ max ∧
    (0 < max → 0 < k → 3 < 5 → 0 < n).
Proof. apply (consuming_buffers_cursor [[1; 2; 3]; []; [4; 5]]%Z [1; 2]). cbn. lia. Defined.

(** The specialisations for one buffer and for arrays of two, which only
    count bytes, prepare the same bytes as the general cursor. *)
Theorem specialised_cursors b0 b1 ns max :
  (sum_list ns ≤ length b0 →
   single_prepare b0 (sum_list ns) max =
   concat (prepare 1 (foldl consume (init_consuming [b0]) ns) max)) ∧
  (sum_list ns ≤ length b0 + length b1 →
   let p := pair_prepare b0 b1 (sum_list ns) max in
   p.1 ++ p.2 = concat (prepare 2 (foldl consume (init_consuming [b0; b1]) ns) max)).
Proof.
  split; intros Hs.
  - destruct (consume_all_spec [b0] ns (init_consuming [b0])) as (Hok & Hb & Hc);
      [apply init_consuming_ok|done|cbn in *; lia|].
    rewrite prepare_all by (rewrite ?Hb; done). rewrite Hb, Hc. unfold single_prepare.
    rewrite buffer_plus_drop, buffer_limit_take. cbn. by rewrite app_nil_r.
  - destruct (consume_all_spec [b0; b1] ns (init_consuming [b0; b1])) as (Hok & Hb & Hc);
      [apply init_consuming_ok|done|cbn in *; lia|].
    rewrite prepare_all by (rewrite ?Hb; done). rewrite Hb, Hc. cbv zeta. rewrite pair_prepare_spec.
    cbn. by rewrite app_nil_r.
Qed.

Lemma specialised_cursors_witness :
  (sum_list [1; 1] ≤ 1 → single_prepare [1]%Z (sum_list [1; 1]) 4 =
   concat (prepare 1 (foldl consume (init_consuming [[1]%Z]) [1; 1]) 4)) ∧
  (sum_list [1; 1] ≤ 3 → let p := pair_prepare [1]%Z [2; 3]%Z (sum_list [1; 1]) 4 in
   p.1 ++ p.2 = concat (prepare 2 (foldl consume (init_consuming [[1]%Z; [2; 3]%Z]) [1; 1]) 4)).
Proof. exact (specialised_cursors [1]%Z [2; 3]%Z [1; 1] 4). Defined.

(** [buffer_copy] ends, copies the smallest of the three sizes in order,
    leaves the rest of the target alone and keeps every buffer's size. *)
Theorem buffer_copy_correct targets sources max :
  let n := min (min (buffer_size targets) (buffer_size sources)) max in
  ∃ ts, buffer_copy targets sources max = Ret (ts, n) ∧
    concat ts = take n (concat sources) ++ drop n (concat targets) ∧
    map length ts = map length targets.
Proof.
  intros n. unfold buffer_copy.
  destruct (buffer_copy_loop_spec (S (length targets + length sources)) 0 targets 0 sources max 0)
    as (ts & E & Ec & Em); try lia.
  rewrite !drop_0 in E, Ec. rewrite Nat.sub_0_r in E, Ec.
  rewrite <- !buffer_size_concat in E, Ec. fold n in E, Ec. eauto.
Qed.

(** * Reads and writes *)

Section operations.
  Context {S : Type} `{StreamLaws S}.

(** C26: [asio::write] ends on every stream; what the stream got is a prefix of
    the buffers of the reported length, never beyond the completion condition,
    and without an error the condition is met.  The overload that throws
    returns only when everything was written. *)
Theorem write_delivers cond k bs (s : S) :
  0 < k →
  (∃ n ec s', write_cond cond k bs s = Ret (n, ec, s') ∧
     sent s' = sent s ++ take n (concat bs) ∧ n ≤ limit cond (buffer_size bs) ∧
     (ec = 0%Z → met cond (buffer_size bs) n)) ∧
  match write_throw k bs s with
  | Ret (n, s') => n = buffer_size bs ∧ sent s' = sent s ++ concat bs
  | Throw (ec, s') => ec ≠ 0%Z ∧ ∃ n, sent s' = sent s ++ take n (concat bs)
  | _ => False
  end.
Proof.
  intros Hk. split.
  - destruct (write_cond_spec cond k Hk bs s) as (n & ec & s' & E & Hs & _ & Hn & Hm). eauto 10.
  - destruct (write_throw_spec k bs s Hk) as (n & s' & Hs & _ & [[-> ->]|(ec & -> & Hec)]); [|eauto].
    split; [done|]. by rewrite take_ge in Hs by (by rewrite buffer_size_concat).
Qed.

(** [asio::read] ends on every stream; the bytes it stores are exactly
    those the stream delivered, in order, as many as it reports and no more
    than the condition asks for, and without an error the condition is met. *)
Theorem read_fills cond k bs (s : S) :
  0 < k →
  ∃ n ec s' d, read_cond cond k bs s = Ret (n, ec, (s', d)) ∧
    length d = n ∧ received s' = received s ++ d ∧ sent s' = sent s ∧
    n ≤ limit cond (buffer_size bs) ∧ (ec = 0%Z → met cond (buffer_size bs) n).
Proof. intros Hk. by apply read_cond_spec. Qed.
End operations.

(** A peer that sends two chunks and takes three bytes at first. *)
Definition two_chunks : script := mk_script [Chunk [1; 2; 3]%Z; Chunk [4]%Z] [Take 2] [] [].

Lemma write_delivers_witness :
  (∃ n ec s', write_cond (transfer_at_least 2) 16 [[7; 8]; [9; 10]]%Z two_chunks = Ret (n, ec, s') ∧
     sent s' = sent two_chunks ++ take n (concat [[7; 8]; [9; 10]]%Z) ∧
     n ≤ limit (transfer_at_least 2) 4 ∧ (ec = 0%Z → met (transfer_at_least 2) 4 n)) ∧
  match write_throw 16 [[7; 8]; [9; 10]]%Z two_chunks with
  | Ret (n, s') => n = 4 ∧ sent s' = sent two_chunks ++ concat [[7; 8]; [9; 10]]%Z
  | Throw (ec, s') => ec ≠ 0%Z ∧ ∃ n, sent s' = sent two_chunks ++ take n (concat [[7; 8]; [9; 10]]%Z)
  | _ => False
  end.
Proof. apply (write_delivers (transfer_at_least 2) 16 [[7; 8]; [9; 10]]%Z two_chunks). lia. Defined.

Lemma read_fills_witness :
  ∃ n ec s' d, read_cond transfer_all 16 [[0; 0]; [0; 0]]%Z two_chunks = Ret (n, ec, (s', d)) ∧
    length d = n ∧ received s' = received two_chunks ++ d ∧ sent s' = sent two_chunks ∧
    n ≤ limit transfer_all 4 ∧ (ec = 0%Z → met transfer_all 4 n).
Proof. apply (read_fills transfer_all 16 [[0; 0]; [0; 0]]%Z two_chunks). lia. Defined.

(** * The echo server *)

Section server.
  Context {S : Type} `{StreamLaws S}.
  Context (error_eof error_interrupted : error_code) (message : error_code → cstring).

(** However long [str_echo] runs, it has sent back every byte it received,
    in order and nothing else; if a write throws, what was sent is a prefix of
    what was received. *)
Theorem str_echo_echoes fuel (s : S) log :
  let '(status, s', _) := str_echo error_eof error_interrupted message fuel s log in
  ∃ d n, received s' = received s ++ d ∧ sent s' = sent s ++ take n d ∧
    (status ≠ Echo_threw → length d ≤ n).
Proof.
  revert s log. induction fuel as [|fuel IH]; intros s log; cbn [str_echo].
  { exists [], 0. by rewrite !app_nil_r. }
  pose proof (echo_round_spec error_eof error_interrupted message s) as Hr.
  destruct (echo_round error_eof error_interrupted message s) as [s1 l|s1 l|s1].
  - destruct Hr as (d & Hr & Hs). specialize (IH s1 (log ++ l)).
    destruct (str_echo _ _ _ fuel s1 (log ++ l)) as [[status s2] l2].
    destruct IH as (d' & n & Hr' & Hs' & Hn). exists (d ++ d'), (length d + n).
    rewrite Hr', Hr, Hs', Hs, take_app_add, <- !app_assoc. split; [done|]. split; [done|].
    intros Ht. specialize (Hn Ht). rewrite length_app. lia.
  - destruct Hr as [-> ->]. exists [], 0. by rewrite !app_nil_r.
  - destruct Hr as (d & n & -> & ->). by exists d, n.
Qed.

Context (fresh : S → Prop).
Hypothesis fresh_empty : ∀ s, fresh s → sent s = received s.

Abbreviation step := (server_step error_eof error_interrupted message fresh).

(** A client that is not being answered has got back all it sent; to one that
    is, what remains of the block is yet to be sent. *)
Definition echoed (c : session) : Prop :=
  match c with
  | Session_reading s | Session_ended s => sent s = received s
  | Session_writing tmp _ s =>
      consuming_ok tmp ∧ length (remaining tmp) ≤ echo_buf_size ∧ sent s ++ remaining tmp = received s
  end.

Definition owes_prefix (c : session) : Prop := sent (session_stream c) `prefix_of` received (session_stream c).

Lemma echoed_prefix c : echoed c → owes_prefix c.
Proof.
  unfold owes_prefix. destruct c as [s|tmp ec s|s]; cbn [echoed session_stream]; [by intros ->| |by intros ->].
  intros (_ & _ & <-). by apply prefix_app_r.
Qed.

Lemma reading_session (c : session) s :
  c = Session_reading s → echoed c →
  match echo_read error_eof error_interrupted message s with
  | inl (buf, s') => echoed (Session_writing (init_consuming [buf]) 0 s')
  | inr (Round_again s' _) | inr (Round_break s' _) => sent s' = received s'
  | inr (Round_throw _) => False
  end.
Proof.
  intros -> He. cbn in He. pose proof (echo_read_spec error_eof error_interrupted message s) as Hr.
  destruct (echo_read error_eof error_interrupted message s) as [[d s1]|[s1 l|s1 l|s1]];
    [|destruct Hr; congruence..|done].
  destruct Hr as (Hd & Hr & Hs). cbn [echoed].
  assert (remaining (init_consuming [d]) = d) as ->.
  { unfold remaining. cbn [init_consuming next_elem_offset next_elem buffers]. rewrite !drop_0. cbn. by rewrite app_nil_r. }
  split_and!; [apply init_consuming_ok|lia|congruence].
Qed.

(** A round of the write leads from an echoed session to one; only an error
    of [write_some] makes it end while bytes remain. *)
Lemma writing_session tmp ec (s : S) :
  echoed (Session_writing tmp ec s) →
  match transfer_round write_some transfer_all 1 tmp ec s with
  | inl (_, ec', s') => s' = s ∧ ec' = ec ∧ (ec = 0%Z → sent s' = received s')
  | inr (tmp', ec', s') =>
      ec = 0%Z ∧ received s' = received s ∧ echoed (Session_writing tmp' ec' s') ∧
      (ec' = 0%Z → length (remaining tmp') < length (remaining tmp))
  end.
Proof.
  intros (Hok & Hl & He). pose proof (write_round_spec 1 ltac:(lia) tmp ec s Hok) as Hw.
  destruct (transfer_round write_some transfer_all 1 tmp ec s) as [[[n ec'] s']|[[tmp' ec'] s']].
  - destruct Hw as (-> & -> & Hz). split_and!; [done..|]. intros Ez. by rewrite (Hz Ez), app_nil_r in He.
  - destruct Hw as (-> & Hok' & Hrec & n & Hn & Hrem & Hsent & Hpos). split_and!; [done|done| |].
    + cbn [echoed]. rewrite Hrem, Hsent, Hrec, <- He, <- app_assoc, take_drop, length_drop.
      split_and!; [done|lia|done].
    + intros Hz. rewrite Hrem, length_drop. specialize (Hpos Hz). lia.
Qed.

Definition server_ok (st : server) : Prop :=
  Forall owes_prefix (sessions st) ∧ (alive st = true → Forall echoed (sessions st)).

Lemma server_ok_echoed (st : server) : Forall echoed (sessions st) → server_ok st.
Proof. intros He. split; [|done]. eapply Forall_impl; [done|apply echoed_prefix]. Qed.

Lemma server_ok_step st st' : step st st' → server_ok st → server_ok st'.
Proof.
  intros Hs [_ Hst].
  destruct Hs as [cs log s ip port Hf|cs log|cs log ip port|cs log i s buf s' Hi Hr|cs log i s s' l Hi Hr
    |cs log i s s' l Hi Hr|cs log i tmp ec s tmp' ec' s' Hi Hr|cs log i tmp ec s n s' Hi Hr
    |cs log i tmp ec s n ec' s' Hi Hr Hec]; specialize (Hst eq_refl); cbn [sessions] in Hst.
  2,3: by apply server_ok_echoed.
  { apply server_ok_echoed. cbn [sessions]. apply Forall_app. split; [done|]. repeat constructor. by apply fresh_empty. }
  1-3: pose proof (reading_session _ _ eq_refl (Forall_lookup_1 _ _ _ _ Hst Hi)) as Hc; rewrite Hr in Hc;
    apply server_ok_echoed; by apply Forall_insert.
  all: pose proof (writing_session _ _ _ (Forall_lookup_1 _ _ _ _ Hst Hi)) as Hc; rewrite Hr in Hc.
  - apply server_ok_echoed, Forall_insert; [done|]. by destruct Hc as (_ & _ & ? & _).
  - apply server_ok_echoed, Forall_insert; [done|]. destruct Hc as (-> & <- & Hc). by apply Hc.
  - split; [|done]. cbn [sessions]. destruct Hc as (-> & -> & _). apply Forall_insert.
    + eapply Forall_impl; [done|apply echoed_prefix].
    + by apply (echoed_prefix (Session_writing tmp ec s)), (Forall_lookup_1 _ _ _ _ Hst Hi).
Qed.

(** A client that is being answered gets its whole block, by steps of its own
    thread, unless a write fails and ends the server. *)
Lemma answer_ends n st i tmp ec (s : S) :
  alive st = true → sessions st !! i = Some (Session_writing tmp ec s) →
  echoed (Session_writing tmp ec s) → length (remaining tmp) ≤ n →
  ∃ st', rtc step st st' ∧
    (alive st' = false ∨
     ∃ s', sessions st' !! i = Some (Session_reading s') ∧ received s' = received s ∧ sent s' = received s).
Proof.
  revert st tmp ec s. induction n as [n IH] using lt_wf_ind. intros [al cs log] tmp ec s Ha Hi He Hn.
  cbn [alive sessions] in *. subst al. pose proof (lookup_lt_Some _ _ _ Hi) as Hlt.
  pose proof (writing_session tmp ec s He) as Hw.
  destruct (transfer_round write_some transfer_all 1 tmp ec s) as [[[m ec'] s']|[[tmp' ec'] s']] eqn:Er.
  - destruct Hw as (-> & -> & Hz). destruct (decide (ec = 0%Z)) as [->|Hec].
    + eexists. split; [by apply rtc_once; eapply server_written|]. right. exists s. cbn [sessions].
      rewrite list_lookup_insert_eq by done. by rewrite Hz.
    + eexists. split; [by apply rtc_once; eapply server_throw|]. by left.
  - destruct Hw as (-> & Hrec & He' & Hless).
    assert (step (mk_server true cs log) (mk_server true (<[i := Session_writing tmp' ec' s']> cs) log)) as Hstep
      by (by eapply server_write).
    destruct (decide (ec' = 0%Z)) as [->|Hec'].
    + destruct (IH (length (remaining tmp')) ltac:(specialize (Hless eq_refl); lia)
        (mk_server true (<[i := Session_writing tmp' 0%Z s']> cs) log) tmp' 0%Z s' eq_refl) as (st' & Hst' & Hend);
        [by apply list_lookup_insert_eq|done|done|].
      exists st'. split; [by eapply rtc_l|]. by rewrite <- Hrec.
    + pose proof (writing_session tmp' ec' s' He') as Hw2.
      destruct (transfer_round write_some transfer_all 1 tmp' ec' s') as [[[m ec2] s2]|[[tmp2 ec2] s2]] eqn:Er2;
        [|by destruct Hw2].
      destruct Hw2 as (-> & -> & _). eexists. split.
      * eapply rtc_l; [done|]. apply rtc_once. eapply server_throw; [by apply list_lookup_insert_eq|done|done].
      * by left.
Qed.

(** C29: in every state of the server and of its interleaved client threads,
    what a client has got back is a prefix of what it sent; and as long as the
    server runs, a client to which the server is not writing, be it served or
    finished, has got back exactly what it sent, while to one to which it is
    writing exactly the rest of one block of at most 4096 bytes is yet to be
    sent, which its thread does unless a write fails and ends the server. *)
Theorem server_echoes st :
  rtc step init_server st →
  Forall owes_prefix (sessions st) ∧
  (alive st = true →
   Forall echoed (sessions st) ∧
   ∀ i tmp ec s, sessions st !! i = Some (Session_writing tmp ec s) →
     ∃ st', rtc step st st' ∧
       (alive st' = false ∨
        ∃ s', sessions st' !! i = Some (Session_reading s') ∧ received s' = received s ∧ sent s' = received s)).
Proof.
  intros Hr. assert (server_ok st) as [Hp He].
  { revert st Hr. refine (rtc_ind_r (R := step) server_ok init_server _ _); [by repeat constructor|].
    intros x y _ Hs. by apply server_ok_step. }
  split; [done|]. intros Ha. split; [by apply He|]. intros i tmp ec s Hi.
  apply (answer_ends (length (remaining tmp)) st i tmp ec s Ha Hi); [|done]. by eapply Forall_lookup_1; [apply He|].
Qed.
End server.

Definition no_message (ec : error_code) : cstring := [].

(** A socket of [script] that has just been accepted. *)
Definition fresh_script (s : script) : Prop := script_sent s = [] ∧ script_received s = [].

(** A client that sends two bytes, of which the first call of [write_some]
    takes one: the server between the two calls. *)
Definition slow_reader : script := mk_script [Chunk [7; 8]%Z] [Take 0] [] [].

Definition half_answered : server :=
  mk_server true [Session_writing (consume (init_consuming [[7; 8]%Z]) 1) 0 (mk_script [] [] [7]%Z [7; 8]%Z)]
    [accepted_line (str "10.0.0.1") 5000].

Lemma half_answered_reachable : rtc (server_step 2 4 no_message fresh_script) init_server half_answered.
Proof.
  eapply rtc_l; [apply (server_accept 2 4 no_message _ [] [] slow_reader (str "10.0.0.1") 5000); done|].
  eapply rtc_l; [apply (server_read 2 4 no_message _ _ _ 0 slow_reader [7; 8]%Z (mk_script [] [Take 0] [] [7; 8]%Z)); done|].
  apply rtc_once. unfold half_answered.
  refine (server_write 2 4 no_message fresh_script [_] [_] 0 _ 0 _ _ 0 _ _ _); [done|vm_compute; reflexivity].
Qed.

(** Between the calls the client has one of its two bytes; then it gets the
    other. *)
Lemma server_echoes_witness :
  Forall owes_prefix (sessions half_answered) ∧ Forall echoed (sessions half_answered) ∧
  ∃ st', rtc (server_step 2 4 no_message fresh_script) half_answered st' ∧
    (alive st' = false ∨
     ∃ s', sessions st' !! 0 = Some (Session_reading s') ∧ received s' = [7; 8]%Z ∧ sent s' = [7; 8]%Z).
Proof.
  destruct (server_echoes 2 4 no_message fresh_script) with (st := half_answered) as [Hp Ha].
  - intros s [E1 E2]. cbn. by rewrite E1, E2.
  - apply half_answered_reachable.
  - destruct (Ha eq_refl) as [He Hw]. split; [done|]. split; [done|]. exact (Hw 0 _ _ _ eq_refl).
Defined.

(** A peer that resets the connection before it takes the echo. *)
Definition resetting : script := mk_script [Chunk [1]%Z] [Write_error 104%Z] [] [].

(** An error while writing to one client ends the whole server: the
    exception leaves the thread's function.  Another client, whose bytes have
    not been read yet, gets nothing. *)
Theorem failing_client_kills_server :
  ∃ st : @server script, rtc (server_step 2 4 no_message fresh_script) init_server st ∧
    alive st = false ∧ sessions st !! 1 = Some (Session_reading two_chunks) ∧
    (∀ st', ¬ server_step 2 4 no_message fresh_script st st').
Proof.
  eexists. split.
  - eapply rtc_l; [apply (server_accept 2 4 no_message _ [] [] resetting [] 1); done|].
    eapply rtc_l; [apply (server_accept 2 4 no_message _ _ _ two_chunks [] 2); done|].
    eapply rtc_l; [apply (server_read 2 4 no_message _ _ _ 0 resetting [1]%Z
      (mk_script [] [Write_error 104%Z] [] [1]%Z)); done|].
    eapply rtc_l; [apply (server_write 2 4 no_message _ _ _ 0 (init_consuming [[1]%Z]) 0
      (mk_script [] [Write_error 104%Z] [] [1]%Z)); done|].
    apply rtc_once. by eapply (server_throw 2 4 no_message _ _ _ 0).
  - split; [done|]. split; [done|]. intros st' Hs. inversion Hs.
Qed.

(** * The echo ends when its client does *)

Definition event_weight (e : read_event) : nat :=
  match e with Chunk d => 1 + length d | Read_error _ => 1 end.

Definition weight (rs : list read_event) : nat := sum_list_with event_weight rs.

Lemma drop_empty_weight rs : weight (drop_empty rs) ≤ weight rs.
Proof.
  induction rs as [|[[|x d]|e] rs IH]; cbn in *; unfold weight in *; cbn; lia.
Qed.

Lemma script_read_weight size s d ec s' :
  0 < size → script_read size s = (d, ec, s') →
  (ec = script_eof ∧ d = []) ∨ weight (reads s') < weight (reads s).
Proof.
  intros Hsize. unfold script_read. pose proof (drop_empty_weight (reads s)) as Hw.
  destruct (drop_empty (reads s)) as [|[c|e] rs] eqn:E; intros [= <- <- <-]; [by left|right..];
    cbn [reads].
  - pose proof (drop_empty_weight (Chunk (drop size c) :: rs)) as Hd.
    apply drop_empty_head in E. destruct c as [|x c]; [done|].
    eapply Nat.le_lt_trans; [exact Hd|]. unfold weight in *. cbn [sum_list_with event_weight] in *.
    rewrite length_drop. cbn [length] in *. lia.
  - unfold weight in *. cbn in *. lia.
Qed.

Lemma transfer_loop_reads cond k fuel tmp ec (s : script) :
  match transfer_loop write_some cond k fuel tmp ec s with
  | Ret (_, _, s') => reads s' = reads s
  | _ => True
  end.
Proof.
  revert tmp ec s. induction fuel as [|fuel IH]; intros tmp ec s; [done|].
  cbn [transfer_loop]. destruct (empty tmp); [done|]. destruct (0 <? _); [|done].
  destruct (write_some (prepare k tmp _) s) as [[n ec'] s1] eqn:E.
  assert (reads s1 = reads s) as <-; [|apply IH].
  cbn in E. unfold script_write in E. by destruct (writes s) as [|[]]; simplify_eq.
Qed.

Lemma script_write_reads k bs (s : script) :
  match write_throw k bs s with
  | Ret (_, s') | Throw (_, s') => reads s' = reads s
  | _ => True
  end.
Proof.
  unfold write_throw, write_cond, transfer.
  pose proof (transfer_loop_reads transfer_all k (transfer_fuel bs) (init_consuming bs) 0 s) as Hr.
  destruct (transfer_loop _ _ _ _ _ _ _) as [[[n ec] s']|[]| | |]; try done. by destruct (ec =? 0)%Z.
Qed.

(** On a connection that delivers finitely much, [str_echo] ends: after
    as many rounds as there are chunks, errors and bytes, plus one, it has
    stopped or thrown. *)
Theorem str_echo_ends error_interrupted message (s : script) fuel log :
  weight (reads s) < fuel →
  (str_echo script_eof error_interrupted message fuel s log).1.1 ≠ Echo_running.
Proof.
  revert s log. induction fuel as [|fuel IH]; intros s log Hf; [lia|].
  assert (0 < echo_buf_size) as Hsize by (unfold echo_buf_size; lia).
  cbn [str_echo]. unfold echo_round, echo_read. destruct (read_some echo_buf_size s) as [[d ec] s1] eqn:Er.
  destruct (script_read_weight _ _ _ _ _ Hsize Er) as [[-> ->]|Hw]; [done|].
  destruct ((ec =? 0)%Z && (0 <? length d)).
  - pose proof (script_write_reads 1 [d] s1) as Hr.
    destruct (write_throw 1 [d] s1) as [[n s2]|[e s2]| | |]; try done. apply IH. rewrite Hr. lia.
  - destruct (ec =? script_eof)%Z; [done|]. destruct (ec =? error_interrupted)%Z; [|done].
    apply IH. lia.
Qed.

Lemma str_echo_ends_witness :
  (str_echo script_eof 4 no_message 7 two_chunks []).1.1 ≠ Echo_running.
Proof. apply (str_echo_ends 4 no_message two_chunks 7 []). vm_compute. lia. Defined.
