(* ===== verification/AsioDynamic.v ===== *)
(** Buffers that grow while data is read into them: the interface of dynamic
    buffers, [basic_streambuf] (basic_streambuf.hpp) and
    [dynamic_string_buffer] (buffer.hpp) in both of its roles.

    Pointers into the memory of a buffer are offsets.  The growth of the
    capacity of a vector or string is a parameter. *)

From S2P Require Import Prelude AsioBuffers.

#[local] Open Scope nat_scope.

(** The exception [std::length_error]. *)
Inductive length_error : Type := too_long.

Abbreviation result := (outcome length_error).

(** * The interface

    [request n] makes room for [n] bytes, [deliver n d] stores the bytes [d]
    that were read into it and gives back the rest.  For a buffer of the first
    version these are [prepare] and [commit], for one of the second [grow] and
    [shrink]. *)
Class DynamicBuffer (B : Type) := {
  size : B → nat;
  max_size : B → nat;
  capacity : B → nat;
  data : B → buffer;
  request : nat → B → result B;
  deliver : nat → buffer → B → result B
}.

(** How much a composed read asks for at once at most. *)
Definition max_request : nat := Z.to_nat 65536.

(** What a dynamic buffer promises, while it is in a good state. *)
Class DynamicBufferLaws (B : Type) `{DynamicBuffer B} := {
  dyn_ok : B → Prop;
  dyn_size b : dyn_ok b → size b = length (data b) ∧ size b ≤ max_size b ∧ size b ≤ capacity b;
  dyn_read n d b :
    dyn_ok b → n ≤ max_size b - size b → n ≤ max_request → length d ≤ n →
    ∃ b1 b2, request n b = Ret b1 ∧ deliver n d b1 = Ret b2 ∧
      dyn_ok b2 ∧ data b2 = data b ++ d ∧ max_size b2 = max_size b;
  dyn_full n b : dyn_ok b → max_size b - size b < n → request n b = Throw too_long
}.

(** [read_size_helper]: how much to read. *)
Definition read_size_helper {B} `{DynamicBuffer B} (limit : nat) (b : B) : nat :=
  min (max 512 (capacity b - size b)) (min limit (max_size b - size b)).

(** * Memory *)

Section memory.
  (** The capacity of a vector that held [cap] elements when it needs [n]. *)
  Context (reallocate : nat → nat → nat) (Hreallocate : ∀ cap n, n ≤ reallocate cap n).

(** [resize(n)], which adds zeros. *)
Definition resize (n : nat) (l : buffer) : buffer := take n l ++ replicate (n - length l) 0%Z.

Definition resized_capacity (n cap : nat) : nat := if n <=? cap then cap else reallocate cap n.

(** Bytes written at an offset. *)
Definition write_at (offset : nat) (d l : buffer) : buffer :=
  take offset l ++ d ++ drop (offset + length d) l.

(** A pointer moved by an [int]: [None] if it leaves the memory before it. *)
Definition bump (p n : nat) : option nat :=
  let p' := (Z.of_nat p + wrap_s 32 (Z.of_nat n))%Z in
  if (0 <=? p')%Z then Some (Z.to_nat p') else None.

(** * Stream buffers *)

Record streambuf : Type := mk_streambuf {
  max_size_ : nat;
  buffer_ : buffer;
  capacity_ : nat;
  gptr : nat;
  egptr : nat;
  pptr : nat;
  epptr : nat
}.

Definition buffer_delta : nat := 128.

Definition new_streambuf (maximum_size : nat) : streambuf :=
  let pend := min maximum_size buffer_delta in
  let len := max pend 1 in
  mk_streambuf maximum_size (replicate len 0%Z) (resized_capacity len 0) 0 0 0 pend.

Definition sb_size (b : streambuf) : nat := pptr b - gptr b.

Definition sb_data (b : streambuf) : buffer := take (pptr b - gptr b) (drop (gptr b) (buffer_ b)).

Definition reserve (n : nat) (b : streambuf) : result streambuf :=
  let gnext := gptr b in
  let pnext := pptr b in
  let pend := epptr b in
  if n <=? pend - pnext then Ret b
  else
    let '(pnext, mem) :=
      if 0 <? gnext
      then (pnext - gnext, write_at 0 (take (pnext - gnext) (drop gnext (buffer_ b))) (buffer_ b))
      else (pnext, buffer_ b) in
    if pend - pnext <? n then
      if (n <=? max_size_ b) && (pnext <=? max_size_ b - n) then
        let pend := pnext + n in
        let len := max pend 1 in
        Ret (mk_streambuf (max_size_ b) (resize len mem) (resized_capacity len (capacity_ b))
               0 pnext pnext pend)
      else Throw too_long
    else Ret (mk_streambuf (max_size_ b) mem (capacity_ b) 0 pnext pnext pend).

(** [prepare]; the bytes that are read are stored from [pptr] on. *)
Definition sb_prepare (n : nat) (b : streambuf) : result streambuf := reserve n b.

Definition sb_store (d : buffer) (b : streambuf) : streambuf :=
  mk_streambuf (max_size_ b) (write_at (pptr b) d (buffer_ b)) (capacity_ b)
    (gptr b) (egptr b) (pptr b) (epptr b).

Definition sb_commit (n : nat) (b : streambuf) : result streambuf :=
  let n := min n (epptr b - pptr b) in
  match bump (pptr b) n with
  | Some p => Ret (mk_streambuf (max_size_ b) (buffer_ b) (capacity_ b) (gptr b) p p (epptr b))
  | None => Undef
  end.

Definition sb_consume (n : nat) (b : streambuf) : result streambuf :=
  let egptr := if egptr b <? pptr b then pptr b else egptr b in
  let n := if pptr b <? gptr b + n then pptr b - gptr b else n in
  match bump (gptr b) n with
  | Some g => Ret (mk_streambuf (max_size_ b) (buffer_ b) (capacity_ b) g egptr (pptr b) (epptr b))
  | None => Undef
  end.

(** What [std::istream] and [std::ostream] call; [None] is [eof]. *)
Definition underflow (b : streambuf) : option Z * streambuf :=
  if gptr b <? pptr b
  then (buffer_ b !! gptr b,
        mk_streambuf (max_size_ b) (buffer_ b) (capacity_ b) (gptr b) (pptr b) (pptr b) (epptr b))
  else (None, b).

Definition overflow (c : Z) (b : streambuf) : result streambuf :=
  b ← (if pptr b =? epptr b then
         let buffer_size := pptr b - gptr b in
         if (buffer_size <? max_size_ b) && (max_size_ b - buffer_size <? buffer_delta)
         then reserve (max_size_ b - buffer_size) b
         else reserve buffer_delta b
       else Ret b);
  match bump (pptr b) 1 with
  | Some p =>
      Ret (mk_streambuf (max_size_ b) (write_at (pptr b) [c] (buffer_ b)) (capacity_ b)
             (gptr b) (egptr b) p (epptr b))
  | None => Undef
  end.

#[export] Instance streambuf_dynamic : DynamicBuffer streambuf := {
  size := sb_size;
  max_size := max_size_;
  capacity := capacity_;
  data := sb_data;
  request := sb_prepare;
  deliver _ d b := sb_commit (length d) (sb_store d b)
}.

(** * Strings *)

(** [size_] is [None] while it is the largest [std::size_t]: the string is not
    used as a buffer of the first version. *)
Record string_buffer : Type := mk_string_buffer {
  string_ : buffer;
  string_capacity : nat;
  size_ : option nat;
  string_max : nat
}.

Definition new_string_buffer (s : buffer) (cap maximum_size : nat) : string_buffer :=
  mk_string_buffer s cap None maximum_size.

Definition str_size (b : string_buffer) : nat :=
  match size_ b with
  | Some n => n
  | None => min (length (string_ b)) (string_max b)
  end.

Definition str_capacity (b : string_buffer) : nat := min (string_capacity b) (string_max b).

Definition resize_string (n : nat) (b : string_buffer) (sz : option nat) : string_buffer :=
  mk_string_buffer (resize n (string_ b)) (resized_capacity n (string_capacity b)) sz (string_max b).

(** The first version. *)
Definition str_data (b : string_buffer) : buffer :=
  match size_ b with
  | Some n => buffer_limit (string_ b) n
  | None => string_ b
  end.

Definition str_prepare (n : nat) (b : string_buffer) : result string_buffer :=
  if (string_max b <? str_size b) || (string_max b - str_size b <? n) then Throw too_long
  else
    let size := match size_ b with Some n => n | None => length (string_ b) end in
    Ret (resize_string (size + n) b (Some size)).

(** The bytes are stored behind [size_]. *)
Definition str_store (pos : nat) (d : buffer) (b : string_buffer) : string_buffer :=
  mk_string_buffer (write_at pos d (string_ b)) (string_capacity b) (size_ b) (string_max b).

Definition str_commit (n : nat) (b : string_buffer) : string_buffer :=
  let size := default 0 (size_ b) in
  let size := size + min n (length (string_ b) - size) in
  resize_string size b (Some size).

Definition str_consume (n : nat) (b : string_buffer) : string_buffer :=
  match size_ b with
  | Some size =>
      let consume_length := min n size in
      mk_string_buffer (drop consume_length (string_ b)) (string_capacity b)
        (Some (size - consume_length)) (string_max b)
  | None => mk_string_buffer (drop n (string_ b)) (string_capacity b) None (string_max b)
  end.

(** The second version. *)
Definition str_data_at (pos n : nat) (b : string_buffer) : buffer :=
  buffer_limit (buffer_plus (buffer_limit (string_ b) (string_max b)) pos) n.

Definition str_grow (n : nat) (b : string_buffer) : result string_buffer :=
  if (string_max b <? str_size b) || (string_max b - str_size b <? n) then Throw too_long
  else Ret (resize_string (str_size b + n) b (size_ b)).

Definition str_shrink (n : nat) (b : string_buffer) : string_buffer :=
  resize_string (if str_size b <? n then 0 else str_size b - n) b (size_ b).

(** The string as a buffer of either version. *)
Record string_v1 : Type := as_v1 { v1 : string_buffer }.
Record string_v2 : Type := as_v2 { v2 : string_buffer }.

#[export] Instance string_v1_dynamic : DynamicBuffer string_v1 := {
  size b := str_size (v1 b);
  max_size b := string_max (v1 b);
  capacity b := str_capacity (v1 b);
  data b := str_data (v1 b);
  request n b := b ← str_prepare n (v1 b); Ret (as_v1 b);
  deliver _ d b :=
    Ret (as_v1 (str_commit (length d) (str_store (default 0 (size_ (v1 b))) d (v1 b))))
}.

#[export] Instance string_v2_dynamic : DynamicBuffer string_v2 := {
  size b := str_size (v2 b);
  max_size b := string_max (v2 b);
  capacity b := str_capacity (v2 b);
  data b := str_data_at 0 (str_size (v2 b)) (v2 b);
  request n b := b ← str_grow n (v2 b); Ret (as_v2 b);
  deliver n d b :=
    Ret (as_v2 (str_shrink (n - length d) (str_store (str_size (v2 b) - n) d (v2 b))))
}.
End memory.
