(* ===== verification/AsioDynamicFacts.v ===== *)
(** The dynamic buffers keep their promise: what is delivered is appended to
    the data, and nothing else changes. *)

From S2P Require Import Prelude JsonValue AsioBuffers AsioDynamic.

#[local] Open Scope nat_scope.

(** * Memory *)

Lemma resize_length n l : length (resize n l) = n.
Proof. unfold resize. rewrite length_app, length_take, length_replicate. lia. Qed.

Lemma resize_prefix n m l : m ≤ length l → m ≤ n → take m (resize n l) = take m l.
Proof.
  intros Hl Hn. unfold resize. rewrite take_app_le by (rewrite length_take; lia).
  rewrite take_take. f_equal. lia.
Qed.

Lemma write_at_length p d l : p + length d ≤ length l → length (write_at p d l) = length l.
Proof. intros Hl. unfold write_at. rewrite !length_app, length_take, length_drop. lia. Qed.

Lemma write_at_prefix p d l : p ≤ length l → take (p + length d) (write_at p d l) = take p l ++ d.
Proof.
  intros Hl. unfold write_at. rewrite app_assoc, take_app_length'; [done|].
  rewrite length_app, length_take. lia.
Qed.

Lemma bump_small p n : (Z.of_nat n < 2 ^ 31)%Z → bump p n = Some (p + n).
Proof.
  intros Hn. unfold bump. rewrite wrap_s_small; [|lia|unfold in_s; lia].
  destruct (Z.leb_spec 0 (Z.of_nat p + Z.of_nat n)); [f_equal|]; lia.
Qed.

(** A move by 2 GiB or more, which the [int] turns into a move backwards. *)
Lemma bump_wraps p n :
  (2 ^ 31 ≤ Z.of_nat n < 2 ^ 32)%Z →
  bump p n = if (2 ^ 32 <=? Z.of_nat p + Z.of_nat n)%Z
             then Some (Z.to_nat (Z.of_nat p + Z.of_nat n - 2 ^ 32)) else None.
Proof.
  intros Hn. unfold bump. assert (wrap_s 32 (Z.of_nat n) = Z.of_nat n - 2 ^ 32)%Z as ->.
  { unfold wrap_s. change (2 ^ (32 - 1))%Z with (2 ^ 31)%Z.
    rewrite <- (Z.mod_unique _ (2 ^ 32) 1 (Z.of_nat n + 2 ^ 31 - 2 ^ 32)%Z); lia. }
  destruct (Z.leb_spec (2 ^ 32) (Z.of_nat p + Z.of_nat n)),
    (Z.leb_spec 0 (Z.of_nat p + (Z.of_nat n - 2 ^ 32))); try lia; [|done].
  f_equal. lia.
Qed.

(** Lengths of memory that was resized or written to. *)
Ltac mem_lia :=
  repeat first [rewrite write_at_length | rewrite resize_length | rewrite length_take]; lia.

Section facts.
  Context (reallocate : nat → nat → nat) (Hreallocate : ∀ cap n, n ≤ reallocate cap n).

Lemma resized_capacity_ok n cap : n ≤ resized_capacity reallocate n cap ∧ cap ≤ max (resized_capacity reallocate n cap) cap.
Proof.
  unfold resized_capacity. destruct (Nat.leb_spec n cap); [lia|]. pose proof (Hreallocate cap n). lia.
Qed.

(** * Stream buffers *)

Record streambuf_ok (b : streambuf) : Prop := {
  sb_get : gptr b ≤ pptr b;
  sb_get_end : gptr b ≤ egptr b ≤ pptr b;
  sb_put : pptr b ≤ epptr b;
  sb_memory : length (buffer_ b) = max (epptr b) 1;
  sb_limit : epptr b ≤ max_size_ b;
  sb_room : length (buffer_ b) ≤ capacity_ b
}.

Lemma new_streambuf_ok n : streambuf_ok (new_streambuf reallocate n) ∧ sb_data (new_streambuf reallocate n) = [].
Proof.
  unfold new_streambuf, buffer_delta, sb_data. split; [|done].
  pose proof (resized_capacity_ok (max (min n 128) 1) 0).
  constructor; cbn [gptr egptr pptr epptr buffer_ max_size_ capacity_]; rewrite ?length_replicate; lia.
Qed.

Lemma sb_data_length b : streambuf_ok b → length (sb_data b) = sb_size b.
Proof.
  intros [? ? ? ? ? ?]. unfold sb_data, sb_size. rewrite length_take, length_drop. lia.
Qed.

(** The memory behind [pptr] does not matter. *)
Lemma sb_data_take b : streambuf_ok b → sb_data b = drop (gptr b) (take (pptr b) (buffer_ b)).
Proof. intros [? ? ? ? ? ?]. unfold sb_data. rewrite skipn_firstn_comm. done. Qed.

(** The memory after the contents were moved to its beginning. *)
Definition shifted (b : streambuf) : buffer :=
  if 0 <? gptr b then write_at 0 (take (pptr b - gptr b) (drop (gptr b) (buffer_ b))) (buffer_ b)
  else buffer_ b.

Lemma shifted_spec b :
  streambuf_ok b → length (shifted b) = length (buffer_ b) ∧ take (sb_size b) (shifted b) = sb_data b.
Proof.
  intros Hok. pose proof (sb_data_length b Hok) as Hl. destruct Hok as [? ? ? ? ? ?].
  unfold shifted, sb_size in *. fold (sb_data b). destruct (Nat.ltb_spec 0 (gptr b)).
  - split.
    + apply write_at_length. lia.
    + pose proof (write_at_prefix 0 (sb_data b) (buffer_ b) ltac:(lia)) as Hw. by rewrite Hl, take_0 in Hw.
  - split; [done|]. unfold sb_data. replace (gptr b) with 0 by lia. by rewrite drop_0, Nat.sub_0_r.
Qed.

(** [reserve] after the test for room in the put area. *)
Lemma reserve_eq n b :
  epptr b - pptr b < n → gptr b ≤ pptr b →
  reserve reallocate n b =
    let pnext := sb_size b in
    if epptr b - pnext <? n then
      if (n <=? max_size_ b) && (pnext <=? max_size_ b - n) then
        let len := max (pnext + n) 1 in
        Ret (mk_streambuf (max_size_ b) (resize len (shifted b)) (resized_capacity reallocate len (capacity_ b))
               0 pnext pnext (pnext + n))
      else Throw too_long
    else Ret (mk_streambuf (max_size_ b) (shifted b) (capacity_ b) 0 pnext pnext (epptr b)).
Proof.
  intros Hn Hg. unfold reserve, shifted, sb_size. destruct (Nat.leb_spec n (epptr b - pptr b)); [lia|].
  destruct (Nat.ltb_spec 0 (gptr b)); [done|]. by replace (pptr b - gptr b) with (pptr b) by lia.
Qed.

Lemma reserve_spec n b :
  streambuf_ok b → n ≤ max_size_ b - sb_size b →
  ∃ b', reserve reallocate n b = Ret b' ∧ streambuf_ok b' ∧ sb_data b' = sb_data b ∧
    max_size_ b' = max_size_ b ∧ n ≤ epptr b' - pptr b'.
Proof.
  intros Hok Hn. destruct (shifted_spec b Hok) as [Hl Hd]. pose proof Hok as [? ? ? ? ? ?].
  destruct (Nat.le_gt_cases n (epptr b - pptr b)) as [Hle|Hgt].
  { exists b. unfold reserve. destruct (Nat.leb_spec n (epptr b - pptr b)); [|lia]. done. }
  rewrite reserve_eq by done. cbv zeta. assert (sb_size b ≤ pptr b) by (unfold sb_size; lia).
  destruct (Nat.ltb_spec (epptr b - sb_size b) n).
  - destruct (Nat.leb_spec n (max_size_ b)); [|lia].
    destruct (Nat.leb_spec (sb_size b) (max_size_ b - n)); [|lia]. cbn [andb].
    pose proof (resized_capacity_ok (max (sb_size b + n) 1) (capacity_ b)) as [? _].
    eexists. split; [done|]. split; [|split; [|split; [done|cbn; lia]]].
    + constructor; cbn [gptr egptr pptr epptr buffer_ max_size_ capacity_]; rewrite ?resize_length; lia.
    + unfold sb_data at 1. cbn [gptr pptr buffer_]. rewrite drop_0, Nat.sub_0_r, resize_prefix by lia. done.
  - eexists. split; [done|]. split; [|split; [|split; [done|cbn; lia]]].
    + constructor; cbn [gptr egptr pptr epptr buffer_ max_size_ capacity_]; lia.
    + unfold sb_data at 1. cbn [gptr pptr buffer_]. by rewrite drop_0, Nat.sub_0_r.
Qed.

Lemma reserve_full n b :
  streambuf_ok b → max_size_ b - sb_size b < n → reserve reallocate n b = Throw too_long.
Proof.
  intros [? ? ? ? ? ?] Hn. assert (sb_size b ≤ pptr b) by (unfold sb_size; lia).
  rewrite reserve_eq by lia. cbv zeta. destruct (Nat.ltb_spec (epptr b - sb_size b) n); [|lia].
  destruct (Nat.leb_spec n (max_size_ b)); [|done].
  destruct (Nat.leb_spec (sb_size b) (max_size_ b - n)); [lia|done].
Qed.

(** Bytes stored behind the contents become part of them. *)
Lemma put_data d b e :
  streambuf_ok b → length d ≤ epptr b - pptr b →
  gptr b ≤ e ≤ pptr b + length d →
  let b' := mk_streambuf (max_size_ b) (write_at (pptr b) d (buffer_ b)) (capacity_ b) (gptr b) e
              (pptr b + length d) (epptr b) in
  streambuf_ok b' ∧ sb_data b' = sb_data b ++ d.
Proof.
  intros [? ? ? ? ? ?] Hd He. cbv zeta. split.
  - constructor; cbn [gptr egptr pptr epptr buffer_ max_size_ capacity_]; rewrite ?write_at_length; lia.
  - unfold sb_data. cbn [gptr pptr buffer_ max_size_].
    replace (pptr b + length d - gptr b) with ((pptr b - gptr b) + length d) by lia.
    rewrite !firstn_skipn_comm.
    replace (gptr b + (pptr b - gptr b + length d)) with (pptr b + length d) by lia.
    rewrite write_at_prefix by lia. rewrite drop_app_le by (rewrite length_take; lia).
    by replace (gptr b + (pptr b - gptr b)) with (pptr b) by lia.
Qed.

Lemma commit_spec d b :
  streambuf_ok b → length d ≤ epptr b - pptr b → (Z.of_nat (length d) < 2 ^ 31)%Z →
  ∃ b', sb_commit (length d) (sb_store d b) = Ret b' ∧ streambuf_ok b' ∧
    sb_data b' = sb_data b ++ d ∧ max_size_ b' = max_size_ b.
Proof.
  intros Hok Hd Hi. pose proof Hok as [? ? ? ? ? ?].
  destruct (put_data d b (pptr b + length d) Hok Hd ltac:(lia)) as [Hok' Hd'].
  unfold sb_commit, sb_store. cbn [epptr pptr]. rewrite Nat.min_l, bump_small by done. by eexists.
Qed.

Lemma consume_data n b :
  streambuf_ok b → (Z.of_nat (sb_size b) < 2 ^ 31)%Z →
  ∃ b', sb_consume n b = Ret b' ∧ streambuf_ok b' ∧ sb_data b' = drop n (sb_data b) ∧
    max_size_ b' = max_size_ b.
Proof.
  intros Hok Hi. pose proof (sb_data_length b Hok) as Hl. pose proof Hok as [? ? ? ? ? ?].
  unfold sb_consume. set (m := if pptr b <? gptr b + n then pptr b - gptr b else n).
  assert (m = min n (sb_size b)) as Hm.
  { unfold m, sb_size. destruct (Nat.ltb_spec (pptr b) (gptr b + n)); lia. }
  assert ((if egptr b <? pptr b then pptr b else egptr b) = pptr b) as ->.
  { destruct (Nat.ltb_spec (egptr b) (pptr b)); lia. }
  unfold sb_size in *. rewrite bump_small by lia. eexists. split; [done|]. split; [|split; [|done]].
  - constructor; cbn [gptr egptr pptr epptr buffer_ max_size_ capacity_]; lia.
  - unfold sb_data. cbn [gptr pptr buffer_]. rewrite !firstn_skipn_comm, drop_drop.
    replace (gptr b + m + (pptr b - (gptr b + m))) with (pptr b) by lia.
    replace (gptr b + (pptr b - gptr b)) with (pptr b) by lia.
    destruct (Nat.le_gt_cases n (pptr b - gptr b)); [do 2 f_equal; lia|].
    rewrite !drop_ge; [done|rewrite length_take; lia..].
Qed.

#[export] Instance streambuf_laws : @DynamicBufferLaws streambuf (streambuf_dynamic reallocate).
Proof.
  apply (Build_DynamicBufferLaws _ (streambuf_dynamic reallocate) streambuf_ok).
  - intros b Hok. pose proof (sb_data_length b Hok). destruct Hok as [? ? ? ? ? ?].
    cbn [size max_size capacity data streambuf_dynamic]. unfold sb_size in *. lia.
  - intros n d b Hok Hn Hmax Hd. cbn [size max_size data request deliver streambuf_dynamic] in *.
    destruct (reserve_spec n b Hok Hn) as (b1 & E1 & Hok1 & Hd1 & Hm1 & Hroom).
    destruct (commit_spec d b1 Hok1 ltac:(lia)) as (b2 & E2 & Hok2 & Hd2 & Hm2);
      [unfold max_request in Hmax; lia|].
    exists b1, b2. split_and!; try done; congruence.
  - intros n b Hok Hn. by apply reserve_full.
Defined.

(** A character that is put is appended, as long as there is room. *)
Lemma overflow_spec c b :
  streambuf_ok b →
  if sb_size b <? max_size_ b
  then ∃ b', overflow reallocate c b = Ret b' ∧ streambuf_ok b' ∧ sb_data b' = sb_data b ++ [c] ∧
    max_size_ b' = max_size_ b
  else pptr b = epptr b → overflow reallocate c b = Throw too_long.
Proof.
  intros Hok. unfold overflow. destruct (Nat.ltb_spec (sb_size b) (max_size_ b)) as [Hlt|Hge].
  - assert (∃ b1, (if pptr b =? epptr b then
      if (pptr b - gptr b <? max_size_ b) && (max_size_ b - (pptr b - gptr b) <? buffer_delta)
      then reserve reallocate (max_size_ b - (pptr b - gptr b)) b else reserve reallocate buffer_delta b
      else Ret b) = Ret b1 ∧ streambuf_ok b1 ∧ sb_data b1 = sb_data b ∧ max_size_ b1 = max_size_ b ∧
      1 ≤ epptr b1 - pptr b1) as (b1 & E1 & Hok1 & Hd1 & Hm1 & Hroom).
    { destruct (Nat.eqb_spec (pptr b) (epptr b)) as [Hp|Hp].
      - fold (sb_size b). destruct (Nat.ltb_spec (sb_size b) (max_size_ b)); [|lia]. cbn [andb].
        unfold buffer_delta. destruct (Nat.ltb_spec (max_size_ b - sb_size b) 128).
        + destruct (reserve_spec (max_size_ b - sb_size b) b Hok ltac:(lia)) as (b1 & ? & ? & ? & ? & ?).
          exists b1. split_and!; try done. lia.
        + destruct (reserve_spec 128 b Hok ltac:(lia)) as (b1 & ? & ? & ? & ? & ?).
          exists b1. split_and!; try done. lia.
      - exists b. pose proof Hok as [? ? ? ? ? ?]. split_and!; try done. lia. }
    cbv zeta. rewrite E1. cbn [mbind outcome_bind]. rewrite bump_small by lia. pose proof Hok1 as [? ? ? ? ? ?].
    destruct (put_data [c] b1 (egptr b1) Hok1 Hroom ltac:(cbn [length]; lia)) as [Hok2 Hd2].
    eexists. split; [done|]. split; [exact Hok2|]. split; [|done]. cbn [length] in Hd2. by rewrite Hd2, Hd1.
  - intros Hp. rewrite Hp, Nat.eqb_refl. rewrite <- Hp. cbv zeta. fold (sb_size b).
    destruct (Nat.ltb_spec (sb_size b) (max_size_ b)); [lia|]. cbn [andb].
    rewrite reserve_full; [done|done|]. unfold buffer_delta. lia.
Qed.

(** The character that is got next is the first of the contents. *)
Lemma underflow_spec b :
  streambuf_ok b → (underflow b).1 = head (sb_data b) ∧ streambuf_ok (underflow b).2 ∧
  sb_data (underflow b).2 = sb_data b.
Proof.
  intros [? ? ? ? ? ?]. unfold underflow, sb_data. destruct (Nat.ltb_spec (gptr b) (pptr b)) as [Hlt|Hge].
  - split_and!; [|constructor; cbn; lia|done]. cbn [fst].
    destruct (lookup_lt_is_Some_2 (buffer_ b) (gptr b) ltac:(lia)) as [c Hc].
    rewrite Hc, (drop_S _ c) by done. destruct (pptr b - gptr b) eqn:E; [lia|done].
  - split_and!; [|done|done]. by replace (pptr b - gptr b) with 0 by lia.
Qed.

(** * Strings *)

Record string_ok (b : string_buffer) : Prop := {
  str_length : length (string_ b) ≤ string_capacity b;
  str_limit : match size_ b with
              | Some n => n ≤ length (string_ b) ∧ n ≤ string_max b
              | None => length (string_ b) ≤ string_max b
              end
}.

Lemma new_string_ok s cap n :
  length s ≤ cap → length s ≤ n → string_ok (new_string_buffer s cap n) ∧ str_data (new_string_buffer s cap n) = s.
Proof. intros Hc Hn. split; [by constructor|done]. Qed.

Lemma resize_string_length n b sz :
  length (string_ (resize_string reallocate n b sz)) ≤ string_capacity (resize_string reallocate n b sz).
Proof. cbn. rewrite resize_length. apply resized_capacity_ok. Qed.

Lemma str_data_size b : string_ok b → length (str_data b) = str_size b ∧ str_size b ≤ string_max b ∧
  str_size b ≤ length (string_ b).
Proof.
  intros [Hl Hs]. unfold str_data, str_size. destruct (size_ b) as [n|]; [|lia].
  rewrite buffer_limit_take, length_take. lia.
Qed.

(** The contents without the case distinction. *)
Lemma str_data_take b : string_ok b → str_data b = take (str_size b) (string_ b).
Proof.
  intros [Hl Hs]. unfold str_data, str_size. destruct (size_ b) as [n|]; [apply buffer_limit_take|].
  rewrite Nat.min_l by lia. by rewrite take_ge.
Qed.

Lemma str_read_v1 n d b :
  string_ok b → n ≤ string_max b - str_size b → length d ≤ n →
  ∃ b1, str_prepare reallocate n b = Ret b1 ∧
    let b2 := str_commit reallocate (length d) (str_store (default 0 (size_ b1)) d b1) in
    string_ok b2 ∧ str_data b2 = str_data b ++ d ∧ string_max b2 = string_max b.
Proof.
  intros Hok Hn Hd. pose proof (str_data_size b Hok) as (Hlen & Hmax & Hsz).
  pose proof (str_data_take b Hok) as Htake. unfold str_prepare.
  destruct (Nat.ltb_spec (string_max b) (str_size b)); [lia|].
  destruct (Nat.ltb_spec (string_max b - str_size b) n); [lia|]. cbn [orb].
  assert (match size_ b with Some n0 => n0 | None => length (string_ b) end = str_size b) as ->.
  { destruct Hok as [_ Hs]. unfold str_size. destruct (size_ b); [done|lia]. }
  set (sz := str_size b) in *. eexists. split; [done|]. cbv zeta. unfold str_commit, str_store.
  cbn [size_ string_ string_capacity string_max resize_string].
  unfold default, from_option, id. rewrite write_at_length, resize_length by mem_lia.
  rewrite Nat.min_l by lia. split; [|split; [|done]].
  - constructor; [apply resize_string_length|]. cbn. rewrite resize_length. lia.
  - unfold str_data at 1. cbn [size_ string_ resize_string]. rewrite buffer_limit_take, resize_prefix
      by mem_lia.
    rewrite write_at_prefix by mem_lia. by rewrite resize_prefix, Htake by lia.
Qed.

#[export] Instance string_v1_laws : @DynamicBufferLaws string_v1 (string_v1_dynamic reallocate).
Proof.
  apply (Build_DynamicBufferLaws _ (string_v1_dynamic reallocate) (λ b, string_ok (v1 b))).
  - intros [b] Hok. cbn in *. destruct (str_data_size b Hok) as (Hl & Hm & Hs). destruct Hok as [Hc _].
    unfold str_capacity. lia.
  - intros n d [b] Hok Hn _ Hd. cbn [size max_size data request deliver string_v1_dynamic v1] in *.
    destruct (str_read_v1 n d b Hok Hn Hd) as (b1 & -> & Hok2 & Hd2 & Hm2).
    do 2 eexists. split; [done|]. split; [done|]. done.
  - intros n [b] Hok Hn. cbn [size max_size request string_v1_dynamic v1] in *. unfold str_prepare.
    destruct (Nat.ltb_spec (string_max b - str_size b) n); [|lia]. by rewrite orb_true_r.
Defined.

Lemma str_read_v2 n d b :
  string_ok b → size_ b = None → n ≤ string_max b - str_size b → length d ≤ n →
  ∃ b1, str_grow reallocate n b = Ret b1 ∧
    let b2 := str_shrink reallocate (n - length d) (str_store (str_size b1 - n) d b1) in
    string_ok b2 ∧ size_ b2 = None ∧ string_ b2 = string_ b ++ d ∧ string_max b2 = string_max b.
Proof.
  intros Hok Hv2 Hn Hd. pose proof (str_data_size b Hok) as (Hlen & Hmax & Hsz). unfold str_grow.
  destruct (Nat.ltb_spec (string_max b) (str_size b)); [lia|].
  destruct (Nat.ltb_spec (string_max b - str_size b) n); [lia|]. cbn [orb].
  assert (str_size b = length (string_ b)) as Hs.
  { destruct Hok as [_ Hs]. unfold str_size in *. rewrite Hv2 in *. lia. }
  rewrite Hs in *. set (l := string_ b) in *. eexists. split; [done|]. cbv zeta.
  rewrite Hv2. assert (str_size (resize_string reallocate (length l + n) b None) = length l + n) as ->.
  { unfold str_size. cbn. rewrite resize_length. lia. }
  replace (length l + n - n) with (length l) by lia.
  set (b1 := str_store _ _ _). assert (string_ b1 = write_at (length l) d (resize (length l + n) l)) as Hb1 by done.
  assert (str_size b1 = length l + n) as Hs1 by (unfold str_size; cbn; fold l; mem_lia).
  unfold str_shrink. rewrite Hs1.
  destruct (Nat.ltb_spec (length l + n) (n - length d)); [lia|].
  replace (length l + n - (n - length d)) with (length l + length d) by lia.
  split; [|split; [done|split; [|done]]].
  - constructor; [apply resize_string_length|]. cbn. rewrite resize_length. lia.
  - cbn [string_ resize_string]. rewrite Hb1, <- (take_ge (resize _ _) (length l + length d)) by mem_lia.
    rewrite resize_prefix by mem_lia. rewrite write_at_prefix by mem_lia. rewrite resize_prefix by lia.
    by rewrite take_ge.
Qed.

Lemma str_data_at_all b : string_ok b → size_ b = None → str_data_at 0 (str_size b) b = string_ b.
Proof.
  intros [_ Hs] Hv2. unfold str_data_at, str_size. rewrite Hv2 in *.
  rewrite buffer_plus_drop, !buffer_limit_take, drop_0. rewrite Nat.min_l by lia. rewrite (take_ge (string_ b) (string_max b)) by lia. by rewrite take_ge.
Qed.

#[export] Instance string_v2_laws : @DynamicBufferLaws string_v2 (string_v2_dynamic reallocate).
Proof.
  apply (Build_DynamicBufferLaws _ (string_v2_dynamic reallocate) (λ b, string_ok (v2 b) ∧ size_ (v2 b) = None)).
  - intros [b] [Hok Hv2]. cbn [size max_size capacity data string_v2_dynamic v2] in *.
    rewrite str_data_at_all by done. destruct Hok as [Hc Hs]. rewrite Hv2 in Hs.
    unfold str_capacity, str_size. rewrite Hv2. lia.
  - intros n d [b] [Hok Hv2] Hn _ Hd. cbn [size max_size data request deliver string_v2_dynamic v2] in *.
    destruct (str_read_v2 n d b Hok Hv2 Hn Hd) as (b1 & -> & Hok2 & Hv & Hd2 & Hm2).
    do 2 eexists. split; [done|]. split; [done|]. cbn [v2]. split; [done|]. split; [|done].
    by rewrite !str_data_at_all.
  - intros n [b] [Hok Hv2] Hn. cbn [size max_size request string_v2_dynamic v2] in *. unfold str_grow.
    destruct (Nat.ltb_spec (string_max b - str_size b) n); [|lia]. by rewrite orb_true_r.
Defined.
End facts.
