(* ===== verification/ReadUntil.v ===== *)
(** [asio::read_until] and [asio::async_read_until] (impl/read_until.hpp) for
    a character, a string and a match condition, on any dynamic buffer.

    The functions for the two versions of dynamic buffers differ in how they
    make room, which is in the instances of [DynamicBuffer].  The asynchronous
    operation is the state machine of its function call operator. *)

From S2P Require Import Prelude AsioBuffers AsioTransfer AsioDynamic.

#[local] Open Scope nat_scope.

(** * Searching *)

(** [std::find]: the offset of the element, or the length. *)
Fixpoint std_find (c : Z) (l : buffer) : nat :=
  match l with
  | [] => 0
  | x :: l' => if (x =? c)%Z then 0 else S (std_find c l')
  end.

(** The inner loop of [partial_search]: a full match, a partial one up to the
    end of the first sequence, or none.  [moved] says that [test_iter2] is not
    [first2]. *)
Inductive comparison_at : Type := Full | Partial | Differs.

Fixpoint compare_at (l1 l2 : buffer) (moved : bool) {struct l2} : comparison_at :=
  match l2 with
  | [] => Full
  | y :: l2' =>
      match l1 with
      | [] => if moved then Partial else Differs
      | x :: l1' => if (x =? y)%Z then compare_at l1' l2' true else Differs
      end
  end.

Fixpoint partial_search (l1 l2 : buffer) : nat * bool :=
  match l1 with
  | [] => (0, false)
  | _ :: l1' =>
      match compare_at l1 l2 false with
      | Full => (0, true)
      | Partial => (0, false)
      | Differs => let '(i, full) := partial_search l1' l2 in (S i, full)
      end
  end.

(** What is known after a search: the number of bytes up to the end of the
    match, or where the next search starts. *)
Inductive found : Type :=
| Match (n : nat)
| Next (search_position : nat).

Definition search : Type := buffer → nat → found.

Definition search_char (delim : Z) : search := λ data pos,
  let iter := pos + std_find delim (drop pos data) in
  if negb (iter =? length data) then Match (iter + 1) else Next (length data).

Definition search_string (delim : buffer) : search := λ data pos,
  let '(i, full) := partial_search (drop pos data) delim in
  let first := pos + i in
  if negb (first =? length data) then
    if full then Match (first + length delim) else Next first
  else Next (length data).

(** [match_condition] is given the bytes from [start_pos] on and returns an
    offset from there. *)
Definition search_match (match_condition : buffer → nat * bool) : search := λ data pos,
  let '(i, full) := match_condition (drop pos data) in
  if full then Match (pos + i)
  else if negb (pos + i =? length data) then Next (pos + i)
  else Next (length data).

(** * The synchronous operation *)

Section read_until.
  Context {B S : Type} `{DynamicBuffer B, Stream S}.
  (** The code of [error::not_found] and of [error::operation_aborted]. *)
  Context (not_found operation_aborted : error_code).
  Context (look : search).

Definition bytes_to_read (b : B) : nat := read_size_helper max_request b.

Fixpoint read_until_loop (fuel : nat) (b : B) (s : S) (search_position : nat) :
    result (nat * error_code * B * S) :=
  match fuel with
  | O => Diverge
  | Datatypes.S fuel' =>
      match look (data b) search_position with
      | Match n => Ret (n, 0%Z, b, s)
      | Next search_position =>
          if size b =? max_size b then Ret (0, not_found, b, s)
          else
            let n := bytes_to_read b in
            b ← request n b;
            let '(d, ec, s) := read_some n s in
            b ← deliver n d b;
            if (ec =? 0)%Z then read_until_loop fuel' b s search_position
            else Ret (0, ec, b, s)
      end
  end.

(** Every round adds a byte or ends the loop. *)
Definition read_until_fuel (b : B) : nat := 1 + (max_size b - size b).

Definition read_until (b : B) (s : S) : result (nat * error_code * B * S) :=
  read_until_loop (read_until_fuel b) b s 0.

(** * The asynchronous operation *)

(** The members of the operation: the buffer, [search_position_], which is
    [None] for the value that stands for not found, and [bytes_to_read_]. *)
Record read_until_op : Type := mk_op {
  buffers_ : B;
  search_position_ : option nat;
  bytes_to_read_ : nat
}.

(** What a call of the operation ends with: a read is started, whose
    completion calls the operation again, or the handler is called. *)
Inductive op_action : Type :=
| Start_read (op : read_until_op)
| Call_handler (ec : error_code) (n : nat) (b : B).

(** Behind the loop. *)
Definition op_complete (ec : error_code) (op : read_until_op) : op_action :=
  match search_position_ op with
  | None => Call_handler not_found 0 (buffers_ op)
  | Some n => Call_handler ec (if (ec =? 0)%Z then n else 0) (buffers_ op)
  end.

(** From the beginning of the loop to the next read. *)
Definition op_look (start : bool) (ec : error_code) (op : read_until_op) : result op_action :=
  let b := buffers_ op in
  let op :=
    match look (data b) (default 0 (search_position_ op)) with
    | Match n => mk_op b (Some n) 0
    | Next p =>
        if size b =? max_size b then mk_op b None 0 else mk_op b (Some p) (bytes_to_read b)
    end in
  if negb start && (bytes_to_read_ op =? 0) then Ret (op_complete ec op)
  else
    b ← request (bytes_to_read_ op) b;
    Ret (Start_read (mk_op b (search_position_ op) (bytes_to_read_ op))).

Definition op_start (b : B) : result op_action := op_look true 0%Z (mk_op b (Some 0) 0).

(** The completion of a read, with the bytes that were read; [cancelled] is
    whether a cancellation was requested. *)
Definition op_resume (cancelled : bool) (ec : error_code) (d : buffer) (op : read_until_op) :
    result op_action :=
  b ← deliver (bytes_to_read_ op) d (buffers_ op);
  let op := mk_op b (search_position_ op) (bytes_to_read_ op) in
  if negb (ec =? 0)%Z || (length d =? 0) then Ret (op_complete ec op)
  else if cancelled then Ret (op_complete operation_aborted op)
  else op_look false ec op.

(** The operation on a stream whose reads complete with what [read_some] gives;
    [cancelled] tells of the stream after a read whether a cancellation of the
    operation has been requested. *)
Fixpoint run_op (fuel : nat) (cancelled : S → bool) (a : op_action) (s : S) :
    result (nat * error_code * B * S) :=
  match a with
  | Call_handler ec n b => Ret (n, ec, b, s)
  | Start_read op =>
      match fuel with
      | O => Diverge
      | Datatypes.S fuel' =>
          let '(d, ec, s) := read_some (bytes_to_read_ op) s in
          a ← op_resume (cancelled s) ec d op;
          run_op fuel' cancelled a s
      end
  end.

Definition async_read_until (cancelled : S → bool) (b : B) (s : S) :
    result (nat * error_code * B * S) :=
  a ← op_start b; run_op (read_until_fuel b) cancelled a s.
End read_until.
