(* ===== verification/ReadUntilFacts.v ===== *)
(** [read_until] finds the first match, and the asynchronous operation does
    what the synchronous function does. *)

From S2P Require Import Prelude AsioBuffers AsioTransfer AsioDynamic ReadUntil.

#[local] Open Scope nat_scope.

(** * The searches *)

(** Where a string first occurs, as the number of bytes up to its end. *)
Fixpoint first_occurrence (delim l : buffer) : option nat :=
  match l with
  | [] => None
  | _ :: l' =>
      if bool_decide (delim `prefix_of` l) then Some (length delim)
      else option_map S (first_occurrence delim l')
  end.

(** [first] says what is looked for.  [clear data pos] says that no match
    begins before [pos]; a search from there finds the first one, or tells
    where the next search may start, whatever is appended. *)
Class SearchLaws (look : search) (first : buffer → option nat) := {
  clear : buffer → nat → Prop;
  clear_start data : clear data 0;
  look_match data pos n :
    clear data pos → pos ≤ length data → look data pos = Match n → first data = Some n;
  look_next data pos p :
    clear data pos → pos ≤ length data → look data pos = Next p →
    first data = None ∧ p ≤ length data ∧ ∀ d, clear (data ++ d) p
}.

(** No occurrence begins before a position, whatever follows. *)
Definition none_before (delim data : buffer) (pos : nat) : Prop :=
  ∀ d i, i < pos → ¬ delim `prefix_of` drop i (data ++ d).

Lemma first_occurrence_skip delim data pos :
  none_before delim data pos → pos ≤ length data →
  first_occurrence delim data = option_map (λ n, pos + n) (first_occurrence delim (drop pos data)).
Proof.
  revert data. induction pos as [|pos IH]; intros data Hn Hp.
  { rewrite drop_0. by destruct (first_occurrence delim data). }
  destruct data as [|x data]; [cbn in Hp; lia|]. cbn [first_occurrence drop].
  rewrite bool_decide_eq_false_2.
  2:{ intros Hp0. apply (Hn [] 0); [lia|]. by rewrite app_nil_r. }
  rewrite (IH data).
  - by destruct (first_occurrence delim (drop pos data)).
  - intros d i Hi. apply (Hn d (S i)). lia.
  - cbn in Hp. lia.
Qed.

(** What the comparison at one position tells. *)
Lemma compare_at_spec l1 l2 moved :
  match compare_at l1 l2 moved with
  | Full => l2 `prefix_of` l1
  | Partial => l1 `prefix_of` l2 ∧ length l1 < length l2
  | Differs => (moved = true ∨ l1 ≠ []) → ∀ d, ¬ l2 `prefix_of` l1 ++ d
  end.
Proof.
  revert l1 moved. induction l2 as [|y l2 IH]; intros l1 moved; cbn [compare_at]; [apply prefix_nil|].
  destruct l1 as [|x l1].
  - destruct moved; [|intros [|]; done]. split; [apply prefix_nil|cbn; lia].
  - destruct (Z.eqb_spec x y) as [->|Hne].
    + specialize (IH l1 true). destruct (compare_at l1 l2 true).
      * by apply prefix_cons.
      * destruct IH as [? ?]. split; [by apply prefix_cons|cbn; lia].
      * intros _ d Hp. apply prefix_cons_inv_2 in Hp. apply (IH ltac:(by left) d). done.
    + intros _ d Hp. apply prefix_cons_inv_1 in Hp. congruence.
Qed.

(** A search that does not find: no occurrence, and none begins before the
    offset it returns, whatever follows. *)
Lemma partial_search_spec l delim :
  let '(i, full) := partial_search l delim in
  i ≤ length l ∧
  if full then i < length l ∧ first_occurrence delim l = Some (i + length delim)
  else first_occurrence delim l = None ∧ ∀ d j, j < i → ¬ delim `prefix_of` drop j (l ++ d).
Proof.
  induction l as [|x l IH]; cbn [partial_search].
  { split; [done|]. split; [done|]. lia. }
  pose proof (compare_at_spec (x :: l) delim false) as Hc. cbn [first_occurrence length].
  destruct (compare_at (x :: l) delim false).
  - rewrite bool_decide_eq_true_2 by done. split; [lia|]. split; [lia|]. done.
  - destruct Hc as [Hp Hlt]. split; [lia|]. split; [|lia].
    assert (∀ k, length k < length delim → first_occurrence delim k = None) as Hshort.
    { induction k as [|z k IHk]; cbn [first_occurrence length]; intros Hk; [done|].
      rewrite bool_decide_eq_false_2, IHk; [done|lia|]. intros H%prefix_length. cbn in H. lia. }
    apply (Hshort (x :: l)). done.
  - specialize (Hc ltac:(by right)). pose proof (Hc []) as Hc0. rewrite app_nil_r in Hc0.
    rewrite bool_decide_eq_false_2 by done.
    destruct (partial_search l delim) as [i full]. destruct IH as [Hi IH]. split; [lia|]. destruct full.
    + destruct IH as [Hlt ->]. split; [lia|]. done.
    + destruct IH as [-> IH]. split; [done|]. intros d [|j] Hj; [apply Hc|]. cbn [drop app]. apply IH. lia.
Qed.

#[export] Instance search_string_laws delim : SearchLaws (search_string delim) (first_occurrence delim).
Proof.
  apply (Build_SearchLaws _ _ (none_before delim)).
  - intros data d i Hi. lia.
  - intros data pos n Hc Hp. unfold search_string. rewrite (first_occurrence_skip delim data pos Hc Hp).
    pose proof (partial_search_spec (drop pos data) delim) as Hs. rewrite length_drop in Hs.
    destruct (partial_search (drop pos data) delim) as [i full]. destruct Hs as [Hi Hs].
    destruct (Nat.eqb_spec (pos + i) (length data)); cbn [negb]; [done|]. destruct full; [|done].
    destruct Hs as [_ ->]. cbn. intros [= <-]. f_equal. lia.
  - intros data pos p Hc Hp. unfold search_string. rewrite (first_occurrence_skip delim data pos Hc Hp).
    pose proof (partial_search_spec (drop pos data) delim) as Hs. rewrite length_drop in Hs.
    destruct (partial_search (drop pos data) delim) as [i full]. destruct Hs as [Hi Hs]. intros Hlook.
    assert (full = false ∧ p = pos + i) as [-> ->].
    { revert Hlook. destruct (Nat.eqb_spec (pos + i) (length data)) as [He|He]; cbn [negb].
      - intros [= <-]. split; [|done]. destruct full; [|done]. destruct Hs as [? _]. lia.
      - destruct full; [done|]. by intros [= <-]. }
    destruct Hs as [-> Hs]. split; [done|]. split; [lia|]. intros d d' j Hj. rewrite <- app_assoc.
    destruct (Nat.lt_ge_cases j pos) as [Hlt|Hge]; [by apply Hc|].
    specialize (Hs (d ++ d') (j - pos) ltac:(lia)). rewrite <- drop_app_le, drop_drop in Hs by done.
    by replace (pos + (j - pos)) with j in Hs by lia.
Defined.

(** A character is a string of one character. *)
Lemma std_find_spec c l :
  std_find c l ≤ length l ∧
  first_occurrence [c] l = if std_find c l =? length l then None else Some (std_find c l + 1).
Proof.
  induction l as [|x l [Hl IH]]; [done|]. cbn [std_find first_occurrence length].
  destruct (Z.eqb_spec x c) as [->|Hne].
  - rewrite bool_decide_eq_true_2 by (apply prefix_cons, prefix_nil). split; [lia|done].
  - rewrite bool_decide_eq_false_2 by (intros H%prefix_cons_inv_1; congruence). split; [lia|].
    rewrite IH. cbn [Nat.eqb]. by destruct (std_find c l =? length l).
Qed.

Lemma std_find_none c l d i :
  std_find c l = length l → i < length l → ¬ [c] `prefix_of` drop i (l ++ d).
Proof.
  revert i. induction l as [|x l IH]; intros i; cbn [std_find length app]; [lia|].
  destruct (Z.eqb_spec x c); [lia|]. intros [= Hf] Hi. destruct i as [|i]; cbn [drop].
  - intros H%prefix_cons_inv_1. congruence.
  - apply IH; [done|lia].
Qed.

#[export] Instance search_char_laws c : SearchLaws (search_char c) (first_occurrence [c]).
Proof.
  apply (Build_SearchLaws _ _ (none_before [c])).
  - intros data d i Hi. lia.
  - intros data pos n Hc Hp. unfold search_char. rewrite (first_occurrence_skip [c] data pos Hc Hp).
    destruct (std_find_spec c (drop pos data)) as [Hl ->]. rewrite length_drop in *.
    destruct (Nat.eqb_spec (pos + std_find c (drop pos data)) (length data)); cbn [negb]; [done|].
    intros [= <-]. destruct (Nat.eqb_spec (std_find c (drop pos data)) (length data - pos)); [lia|]. cbn. f_equal. lia.
  - intros data pos p Hc Hp. unfold search_char. rewrite (first_occurrence_skip [c] data pos Hc Hp).
    destruct (std_find_spec c (drop pos data)) as [Hl ->]. rewrite length_drop in *.
    destruct (Nat.eqb_spec (pos + std_find c (drop pos data)) (length data)) as [He|]; cbn [negb]; [|done].
    intros [= <-]. destruct (Nat.eqb_spec (std_find c (drop pos data)) (length data - pos)); [|lia].
    split; [done|]. split; [done|]. intros d d' j Hj. rewrite <- app_assoc.
    destruct (Nat.lt_ge_cases j pos) as [Hlt|Hge]; [by apply Hc|].
    pose proof (std_find_none c (drop pos data) (d ++ d') (j - pos)) as Hs. rewrite length_drop in Hs.
    specialize (Hs ltac:(lia) ltac:(lia)). rewrite <- drop_app_le, drop_drop in Hs by done.
    by replace (pos + (j - pos)) with j in Hs by lia.
Defined.

(** * The loop *)

Section read_until.
  Context {B S : Type} `{DynamicBufferLaws B, StreamLaws S}.
  Context (not_found operation_aborted : error_code) (Hnot_found : not_found ≠ 0%Z).
  Context (look : search) (first : buffer → option nat) `{!SearchLaws look first}.

Abbreviation loop := (read_until_loop not_found look).

(** There is room for what is read, and something is read. *)
Lemma bytes_to_read_spec (b : B) :
  dyn_ok b → size b ≠ max_size b →
  0 < bytes_to_read b ∧ bytes_to_read b ≤ max_size b - size b ∧ bytes_to_read b ≤ max_request.
Proof.
  intros Hok Hne. destruct (dyn_size b Hok) as (_ & Hm & _).
  unfold bytes_to_read, read_size_helper. assert (0 < max_request) by (unfold max_request; lia). lia.
Qed.

(** A round that reads. *)
Lemma read_round (b : B) (s : S) :
  dyn_ok b → size b ≠ max_size b →
  let n := bytes_to_read b in
  ∃ b1 d ec s' b2, request n b = Ret b1 ∧ read_some n s = (d, ec, s') ∧ deliver n d b1 = Ret b2 ∧
    dyn_ok b2 ∧ data b2 = data b ++ d ∧ max_size b2 = max_size b ∧
    received s' = received s ++ d ∧ sent s' = sent s ∧
    (ec = 0%Z → size b < size b2 ∧ d ≠ []) ∧ (ec ≠ 0%Z → d = []).
Proof.
  intros Hok Hne n. destruct (bytes_to_read_spec b Hok Hne) as (Hpos & Hroom & Hmax). fold n in Hpos, Hroom, Hmax.
  destruct (read_some n s) as [[d ec] s'] eqn:Er.
  destruct (read_some_law n s d ec s' Er) as (Hl & Hgo & Hstop & Hrec & Hsent).
  destruct (dyn_read n d b Hok Hroom Hmax Hl) as (b1 & b2 & E1 & E2 & Hok2 & Hd2 & Hm2).
  exists b1, d, ec, s', b2. split_and!; try done. intros ->. specialize (Hgo eq_refl Hpos).
  destruct (dyn_size b Hok) as (-> & _), (dyn_size b2 Hok2) as (-> & _). rewrite Hd2, length_app.
  split; [lia|]. by destruct d; [cbn in Hgo; lia|].
Qed.

(** How a call of [read_until] ends: with the end of the first match, or
    without a match, because the buffer is full or the stream failed. *)
Definition outcome_ok (ec : error_code) (n : nat) (b : B) (s : S) : Prop :=
  if (ec =? 0)%Z then first (data b) = Some n
  else n = 0 ∧ first (data b) = None ∧
    (ec = not_found ∧ size b = max_size b ∨ ∃ k s1, read_some k s1 = ([], ec, s)).

Lemma read_until_loop_spec fuel (b : B) (s : S) pos :
  dyn_ok b → clear (data b) pos → pos ≤ length (data b) → max_size b - size b < fuel →
  ∃ n ec b' s' d, loop fuel b s pos = Ret (n, ec, b', s') ∧ dyn_ok b' ∧
    data b' = data b ++ d ∧ max_size b' = max_size b ∧
    received s' = received s ++ d ∧ sent s' = sent s ∧ outcome_ok ec n b' s'.
Proof.
  revert b s pos. induction fuel as [|fuel IH]; intros b s pos Hok Hc Hp Hf; [lia|]. cbn [read_until_loop].
  destruct (look (data b) pos) as [n|p] eqn:El.
  { exists n, 0%Z, b, s, []. rewrite !app_nil_r. split_and!; try done. by eapply look_match. }
  destruct (look_next (data b) pos p Hc Hp El) as (Hnone & Hp' & Hclear).
  destruct (Nat.eqb_spec (size b) (max_size b)) as [Hfull|Hne].
  { exists 0, not_found, b, s, []. rewrite !app_nil_r. split_and!; try done.
    unfold outcome_ok. destruct (Z.eqb_spec not_found 0); [done|]. split_and!; [done..|by left]. }
  destruct (read_round b s Hok Hne) as (b1 & d & ec & s1 & b2 & E1 & E2 & E3 & Hok2 & Hd2 & Hm2 & Hr1 & Hs1 & Hgo & Hstop).
  cbv zeta. rewrite E1. cbn [mbind outcome_bind]. rewrite E2, E3. cbn [mbind outcome_bind].
  destruct (Z.eqb_spec ec 0) as [->|Hec].
  - destruct (Hgo eq_refl) as [Hlt _]. destruct (dyn_size b2 Hok2) as (_ & Hle2 & _).
    destruct (IH b2 s1 p Hok2) as (n & ec & b' & s' & d' & E & Hok' & Hd' & Hm' & Hr' & Hs' & Ho).
    { rewrite Hd2. apply Hclear. }
    { rewrite Hd2, length_app. lia. }
    { lia. }
    exists n, ec, b', s', (d ++ d'). split_and!; try done; try congruence.
    + by rewrite Hd', Hd2, app_assoc.
    + by rewrite Hr', Hr1, app_assoc.
  - rewrite (Hstop Hec) in *. exists 0, ec, b2, s1, []. split_and!; try done.
    unfold outcome_ok. destruct (Z.eqb_spec ec 0); [done|].
    split_and!; [done|by rewrite Hd2, app_nil_r|right; by do 2 eexists].
Qed.

Lemma read_until_spec (b : B) (s : S) :
  dyn_ok b →
  ∃ n ec b' s' d, read_until not_found look b s = Ret (n, ec, b', s') ∧ dyn_ok b' ∧
    data b' = data b ++ d ∧ max_size b' = max_size b ∧
    received s' = received s ++ d ∧ sent s' = sent s ∧ outcome_ok ec n b' s'.
Proof.
  intros Hok. unfold read_until, read_until_fuel. apply read_until_loop_spec; [done|apply clear_start|lia|lia].
Qed.

(** * The asynchronous operation *)

Abbreviation run := (run_op not_found operation_aborted look).
Abbreviation look_again := (op_look not_found look false 0%Z).

(** From the second search on the operation does exactly what the loop does. *)
Lemma op_loop_equiv fuel (b : B) (s : S) pos k :
  dyn_ok b → max_size b - size b ≤ fuel →
  (a ← look_again (mk_op b (Some pos) k); run fuel (λ _, false) a s) = loop (Datatypes.S fuel) b s pos.
Proof.
  revert b s pos k. induction fuel as [|fuel IH]; intros b s pos k Hok Hf;
    cbn [read_until_loop]; unfold op_look; cbn [buffers_ search_position_ default from_option];
    change (id pos) with pos; (destruct (look (data b) pos) as [n|p]; [done|]);
    (destruct (Nat.eqb_spec (size b) (max_size b)) as [Hfull|Hne]; [done|]);
    destruct (dyn_size b Hok) as (_ & Hle & _); [lia|].
  destruct (bytes_to_read_spec b Hok Hne) as (Hpos & _ & _).
  destruct (read_round b s Hok Hne) as (b1 & d & ec & s1 & b2 & E1 & E2 & E3 & Hok2 & Hd2 & Hm2 & _ & _ & Hgo & Hstop).
  cbn [bytes_to_read_ search_position_ negb andb]. destruct (Nat.eqb_spec (bytes_to_read b) 0); [lia|].
  rewrite E1. cbn [mbind outcome_bind run_op bytes_to_read_]. rewrite E2. unfold op_resume at 1.
  cbn [bytes_to_read_ buffers_ search_position_]. rewrite E3. cbn [mbind outcome_bind].
  destruct (Z.eqb_spec ec 0) as [->|Hec]; cbn [negb orb].
  - destruct (Hgo eq_refl) as [Hlt Hd]. destruct (Nat.eqb_spec (length d) 0) as [Hz|_]; [by destruct d|].
    destruct (dyn_size b2 Hok2) as (_ & Hle2 & _). apply IH; [done|lia].
  - unfold op_complete. cbn [search_position_ buffers_ run_op]. destruct (Z.eqb_spec ec 0); [done|].
    by destruct fuel.
Qed.

Lemma read_until_loop_more fuel (b : B) (s : S) pos r : loop fuel b s pos = Ret r → loop (Datatypes.S fuel) b s pos = Ret r.
Proof.
  revert b s pos. induction fuel as [|fuel IH]; intros b s pos; [done|]. intros Hl.
  change (loop (Datatypes.S (Datatypes.S fuel)) b s pos = Ret r). revert Hl. cbn [read_until_loop].
  destruct (look (data b) pos); [done|]. case_match; [done|].
  destruct (request (bytes_to_read b) b) as [b1| | | |]; cbn [mbind outcome_bind]; try done.
  destruct (read_some (bytes_to_read b) s) as [[d ec] s1].
  destruct (deliver (bytes_to_read b) d b1) as [b2| | | |]; cbn [mbind outcome_bind]; try done.
  case_match; [|done]. apply IH.
Qed.

(** A read of no bytes, as the operation does one at its start if it need not
    read. *)
Context `{!EmptyLaws S}.

Lemma empty_read fuel cancelled (b : B) (s : S) p :
  dyn_ok b →
  ∃ b', dyn_ok b' ∧ data b' = data b ∧ max_size b' = max_size b ∧
    (b1 ← request 0 b; run (Datatypes.S fuel) cancelled (Start_read (mk_op b1 p 0)) s) =
      match p with Some n => Ret (n, 0%Z, b', s) | None => Ret (0, not_found, b', s) end.
Proof.
  intros Hok. destruct (dyn_read 0 [] b Hok ltac:(lia) ltac:(lia) ltac:(done)) as (b1 & b2 & E1 & E2 & Hok2 & Hd2 & Hm2).
  exists b2. rewrite app_nil_r in Hd2. split_and!; try done.
  rewrite E1. cbn [mbind outcome_bind run_op bytes_to_read_]. rewrite read_empty. unfold op_resume.
  cbn [bytes_to_read_ buffers_ search_position_]. rewrite E2. cbn [mbind outcome_bind length Nat.eqb orb negb].
  rewrite orb_true_r. cbn [mbind outcome_bind]. unfold op_complete. cbn [search_position_ buffers_].
  destruct p; by destruct fuel.
Qed.

Lemma async_read_until_equiv (b : B) (s : S) :
  dyn_ok b →
  ∃ n ec b1 b2 s', read_until not_found look b s = Ret (n, ec, b1, s') ∧
    async_read_until not_found operation_aborted look (λ _, false) b s = Ret (n, ec, b2, s') ∧
    dyn_ok b2 ∧ data b2 = data b1 ∧ max_size b2 = max_size b1.
Proof.
  intros Hok. destruct (read_until_spec b s Hok) as (n & ec & b1 & s1 & d & Er & Hok1 & Hd1 & Hm1 & _).
  unfold async_read_until, op_start. destruct (look (data b) 0) as [m|p] eqn:El.
  - destruct (empty_read (max_size b - size b) (λ _, false) b s (Some m) Hok) as (b2 & Hok2 & Hd2 & Hm2 & E2).
    exists m, 0%Z, b, b2, s. split_and!; try done.
    + unfold read_until, read_until_fuel. cbn [Nat.add read_until_loop]. by rewrite El.
    + rewrite <- E2. unfold op_look. cbn [buffers_ search_position_ default from_option]. unfold id. rewrite El.
      cbn [bytes_to_read_ negb andb]. by destruct (request 0 b).
  - destruct (decide (size b = max_size b)) as [Hfull|Hne].
    + destruct (empty_read (max_size b - size b) (λ _, false) b s None Hok) as (b2 & Hok2 & Hd2 & Hm2 & E2).
      exists 0, not_found, b, b2, s. split_and!; try done.
      * unfold read_until, read_until_fuel. cbn [Nat.add read_until_loop]. rewrite El, Hfull.
        by rewrite Nat.eqb_refl.
      * rewrite <- E2. unfold op_look. cbn [buffers_ search_position_ default from_option]. unfold id.
        rewrite El. destruct (Nat.eqb_spec (size b) (max_size b)); [|done]. cbn [bytes_to_read_ negb andb].
        by destruct (request 0 b).
    + exists n, ec, b1, b1, s1. split_and!; try done.
      assert (op_look not_found look true 0%Z (mk_op b (Some 0) 0) = look_again (mk_op b (Some 0) 0)) as ->.
      { destruct (bytes_to_read_spec b Hok Hne) as (Hpos & _ & _). unfold op_look.
        cbn [buffers_ search_position_ default from_option]. unfold id. rewrite El.
        destruct (Nat.eqb_spec (size b) (max_size b)); [done|]. cbn [bytes_to_read_ negb andb].
        by destruct (Nat.eqb_spec (bytes_to_read b) 0); [lia|]. }
      rewrite op_loop_equiv; [|done|unfold read_until_fuel; lia]. by apply read_until_loop_more.
Qed.

(** * Cancellation *)

(** With requests for cancellation the operation still calls its handler once,
    and what was read is in the buffer. *)
Definition cancelled_ok (ec : error_code) (n : nat) (b : B) (s : S) : Prop :=
  outcome_ok ec n b s ∨ ec = operation_aborted ∧ n = 0.

Lemma run_op_spec fuel cancelled (b : B) (s : S) pos k :
  operation_aborted ≠ 0%Z →
  dyn_ok b → clear (data b) pos → pos ≤ length (data b) → max_size b - size b ≤ fuel →
  ∃ n ec b' s' d, (a ← look_again (mk_op b (Some pos) k); run fuel cancelled a s) = Ret (n, ec, b', s') ∧
    dyn_ok b' ∧ data b' = data b ++ d ∧ max_size b' = max_size b ∧
    received s' = received s ++ d ∧ sent s' = sent s ∧ cancelled_ok ec n b' s'.
Proof.
  intros Hab. revert b s pos k. induction fuel as [|fuel IH]; intros b s pos k Hok Hc Hp Hf;
    unfold op_look; cbn [buffers_ search_position_ default from_option]; change (id pos) with pos;
    (destruct (look (data b) pos) as [n|p] eqn:El;
      [exists n, 0%Z, b, s, []; rewrite !app_nil_r; split_and!; try done; left; by eapply look_match|]);
    destruct (look_next (data b) pos p Hc Hp El) as (Hnone & Hp' & Hclear);
    (destruct (Nat.eqb_spec (size b) (max_size b)) as [Hfull|Hne];
      [exists 0, not_found, b, s, []; rewrite !app_nil_r; split_and!; try done; left;
       unfold outcome_ok; destruct (Z.eqb_spec not_found 0); [done|]; split_and!; [done..|by left]|]);
    destruct (dyn_size b Hok) as (_ & Hle & _); [lia|].
  destruct (bytes_to_read_spec b Hok Hne) as (Hpos & _ & _).
  destruct (read_round b s Hok Hne) as (b1 & d & ec & s1 & b2 & E1 & E2 & E3 & Hok2 & Hd2 & Hm2 & Hr1 & Hs1 & Hgo & Hstop).
  cbn [bytes_to_read_ search_position_ negb andb]. destruct (Nat.eqb_spec (bytes_to_read b) 0); [lia|].
  rewrite E1. cbn [mbind outcome_bind run_op bytes_to_read_]. rewrite E2. unfold op_resume at 1.
  cbn [bytes_to_read_ buffers_ search_position_]. rewrite E3. cbn [mbind outcome_bind].
  destruct (Z.eqb_spec ec 0) as [->|Hec]; cbn [negb orb].
  - destruct (Hgo eq_refl) as [Hlt Hd]. destruct (Nat.eqb_spec (length d) 0) as [Hz|_]; [by destruct d|].
    destruct (dyn_size b2 Hok2) as (_ & Hle2 & _). destruct (cancelled s1).
    + exists 0, operation_aborted, b2, s1, d. split_and!; try done; [|by right].
      cbn [mbind outcome_bind]. unfold op_complete. cbn [search_position_ buffers_].
      destruct (Z.eqb_spec operation_aborted 0); [done|]. by destruct fuel.
    + destruct (IH b2 s1 p (bytes_to_read b) Hok2) as (n' & ec' & b' & s' & d' & E & Hok' & Hd' & Hm' & Hr' & Hs' & Ho).
      { rewrite Hd2. apply Hclear. }
      { rewrite Hd2, length_app. lia. }
      { lia. }
      exists n', ec', b', s', (d ++ d'). split_and!; try done; try congruence.
      * by rewrite Hd', Hd2, app_assoc.
      * by rewrite Hr', Hr1, app_assoc.
  - rewrite (Hstop Hec) in *. exists 0, ec, b2, s1, []. split_and!; try done.
    + cbn [mbind outcome_bind]. unfold op_complete. cbn [search_position_ buffers_].
      destruct (Z.eqb_spec ec 0); [done|]. by destruct fuel.
    + left. unfold outcome_ok. destruct (Z.eqb_spec ec 0); [done|].
      split_and!; [done|by rewrite Hd2, app_nil_r|right; by do 2 eexists].
Qed.
End read_until.
