(* ===== verification/AsyncTransfer.v ===== *)
(** The asynchronous composed operations [write_op] (impl/write.hpp) and
    [read_op] (impl/read.hpp), as the state machines of their function call
    operators, and that they do what [asio::write] and [asio::read] do.

    The two operators have the same text but for the operation they start;
    [step] is that operation. *)

From S2P Require Import Prelude AsioBuffers AsioTransfer.

#[local] Open Scope nat_scope.

(** What a call of the operator ends with: an operation on at most [max_size]
    bytes is started, whose completion calls the operator again, or the
    handler is called. *)
Inductive transfer_action : Type :=
| Start_transfer (tmp : consuming_buffers) (max_size : nat)
| Call_handler (ec : error_code) (n : nat).

Section transfer.
  Context {S : Type} (step : list buffer → S → nat * error_code * S).
  Context (cond : completion_condition) (max_buffers : nat) (operation_aborted : error_code).

(** The call that starts the operation: [start] is 1. *)
Definition transfer_start (bs : list buffer) : transfer_action :=
  let tmp := init_consuming bs in
  Start_transfer tmp (next_transfer cond 0%Z (total_consumed tmp)).

(** The completion of an operation on the stream. *)
Definition transfer_resume (cancelled : bool) (ec : error_code) (bytes_transferred : nat)
    (tmp : consuming_buffers) : transfer_action :=
  let tmp := consume tmp bytes_transferred in
  if ((ec =? 0)%Z && (bytes_transferred =? 0)) || empty tmp then Call_handler ec (total_consumed tmp)
  else
    let max_size := next_transfer cond ec (total_consumed tmp) in
    if max_size =? 0 then Call_handler ec (total_consumed tmp)
    else if cancelled then Call_handler operation_aborted (total_consumed tmp)
    else Start_transfer tmp max_size.

(** The operation on a stream; [cancelled] tells of the stream after a step
    whether a cancellation of the operation has been requested. *)
Fixpoint run_transfer (fuel : nat) (cancelled : S → bool) (a : transfer_action) (s : S) :
    outcome Empty_set (nat * error_code * S) :=
  match a with
  | Call_handler ec n => Ret (n, ec, s)
  | Start_transfer tmp max_size =>
      match fuel with
      | O => Diverge
      | Datatypes.S fuel' =>
          let '(n, ec, s) := step (prepare max_buffers tmp max_size) s in
          run_transfer fuel' cancelled (transfer_resume (cancelled s) ec n tmp) s
      end
  end.

Definition async_transfer (cancelled : S → bool) (bs : list buffer) (s : S) :
    outcome Empty_set (nat * error_code * S) :=
  run_transfer (transfer_fuel bs) cancelled (transfer_start bs) s.
End transfer.

(** [async_write] and [async_read]. *)
Section operations.
  Context {S : Type} `{Stream S}.

Definition async_write (operation_aborted : error_code) (cond : completion_condition) (max_buffers : nat)
    (cancelled : S → bool) (bs : list buffer) (s : S) : outcome Empty_set (nat * error_code * S) :=
  async_transfer write_some cond max_buffers operation_aborted cancelled bs s.

Definition async_read (operation_aborted : error_code) (cond : completion_condition) (max_buffers : nat)
    (cancelled : S → bool) (bs : list buffer) (s : S) :
    outcome Empty_set (nat * error_code * (S * buffer)) :=
  async_transfer read_step cond max_buffers operation_aborted (λ sd, cancelled sd.1) bs (s, []).
End operations.

(** * Equivalence *)

Section equivalence.
  Context {S : Type} (step : list buffer → S → nat * error_code * S).
  Context (cond : completion_condition) (max_buffers : nat) (Hk : 0 < max_buffers).
  Context (operation_aborted : error_code).
  (** A step moves no more than it is given, and something if it can. *)
  Hypothesis step_moves : ∀ bs s n ec s', step bs s = (n, ec, s') →
    n ≤ buffer_size bs ∧ (ec = 0%Z → 0 < buffer_size bs → 0 < n).

Abbreviation run := (run_transfer step cond max_buffers operation_aborted).
Abbreviation loop := (transfer_loop step cond max_buffers).

Lemma prepare_progress tmp max :
  consuming_ok tmp → empty tmp = false → 0 < max → 0 < buffer_size (prepare max_buffers tmp max).
Proof.
  intros Hok He Hmax. destruct (prepare_spec max_buffers tmp max Hok) as (m & Em & Hm & Hprog).
  assert (remaining tmp ≠ []) as Hne.
  { intros E. apply (empty_remaining tmp Hok) in E. congruence. }
  rewrite buffer_size_concat, Em, length_take. specialize (Hprog Hmax Hk Hne).
  destruct (remaining tmp); [done|]. cbn. lia.
Qed.

(** From a step on that is not empty the two are the same. *)
Lemma run_equiv fuel tmp s :
  consuming_ok tmp → empty tmp = false → 0 < next_transfer cond 0%Z (total_consumed tmp) →
  run fuel (λ _, false) (Start_transfer tmp (next_transfer cond 0%Z (total_consumed tmp))) s =
    loop (Datatypes.S fuel) tmp 0%Z s.
Proof.
  revert tmp s. induction fuel as [|fuel IH]; intros tmp s Hok He Hmax.
  { cbn [run_transfer transfer_loop]. rewrite He. destruct (Nat.ltb_spec 0 (next_transfer cond 0%Z (total_consumed tmp))); [|lia].
    by destruct (step _ s) as [[n ec] s1]. }
  pose proof (prepare_progress tmp _ Hok He Hmax) as Hpos.
  destruct (prepare_spec max_buffers tmp (next_transfer cond 0%Z (total_consumed tmp)) Hok) as (m & Em & _).
  change (run (Datatypes.S fuel) (λ _, false) (Start_transfer tmp (next_transfer cond 0%Z (total_consumed tmp))) s)
    with (let '(n, ec, s1) := step (prepare max_buffers tmp (next_transfer cond 0%Z (total_consumed tmp))) s in
          run fuel (λ _, false) (transfer_resume cond operation_aborted false ec n tmp) s1).
  cbn [transfer_loop]. rewrite He.
  destruct (Nat.ltb_spec 0 (next_transfer cond 0%Z (total_consumed tmp))); [|lia].
  destruct (step _ s) as [[n ec] s1] eqn:Es. destruct (step_moves _ _ _ _ _ Es) as [Hn Hgo].
  rewrite buffer_size_concat, Em, length_take in Hn.
  destruct (consume_spec tmp n Hok ltac:(lia)) as (Hok' & _ & _ & _).
  unfold transfer_resume. set (tmp' := consume tmp n) in *. destruct (empty tmp') eqn:He'.
  { rewrite orb_true_r. by destruct fuel. }
  rewrite orb_false_r. destruct (Z.eqb_spec ec 0) as [->|Hec].
  - specialize (Hgo eq_refl Hpos). destruct (Nat.eqb_spec n 0); [lia|]. cbn [andb].
    destruct (Nat.eqb_spec (next_transfer cond 0%Z (total_consumed tmp')) 0) as [Hz|Hnz].
    + rewrite Hz. by destruct fuel.
    + rewrite IH by (done || lia). cbn [transfer_loop]. by rewrite He'.
  - cbn [andb]. rewrite (next_transfer_error cond ec) by done. by destruct fuel.
Qed.

Lemma transfer_loop_more fuel tmp ec s r : loop fuel tmp ec s = Ret r → loop (Datatypes.S fuel) tmp ec s = Ret r.
Proof.
  revert tmp ec s. induction fuel as [|fuel IH]; intros tmp ec s Hl; [done|].
  change (loop (Datatypes.S (Datatypes.S fuel)) tmp ec s) with
    (if empty tmp then Ret (total_consumed tmp, ec, s)
     else if 0 <? next_transfer cond ec (total_consumed tmp) then
       let '(n, ec, s) := step (prepare max_buffers tmp (next_transfer cond ec (total_consumed tmp))) s in
       loop (Datatypes.S fuel) (consume tmp n) ec s
     else Ret (total_consumed tmp, ec, s)).
  cbn [transfer_loop] in Hl. destruct (empty tmp); [done|]. destruct (0 <? _); [|done].
  destruct (step _ s) as [[n ec1] s1]. by apply IH.
Qed.

(** A step on no bytes does nothing. *)
Hypothesis step_empty : ∀ bs s, buffer_size bs = 0 → step bs s = (0, 0%Z, s).

Lemma async_transfer_equiv bs s r :
  transfer step cond max_buffers bs s = Ret r →
  async_transfer step cond max_buffers operation_aborted (λ _, false) bs s = Ret r.
Proof.
  intros Ht. pose proof (init_consuming_ok bs) as Hok. unfold async_transfer, transfer_start, transfer_fuel.
  destruct (decide (empty (init_consuming bs) = true ∨ next_transfer cond 0%Z (total_consumed (init_consuming bs)) = 0))
    as [Hend|Hgo].
  - assert (r = (0, 0%Z, s)) as ->.
    { revert Ht. unfold transfer, transfer_fuel. cbn [Nat.add transfer_loop].
      destruct Hend as [-> | ->]; [by intros [= <-]|]. case_match; by intros [= <-]. }
    cbn [Nat.add run_transfer]. rewrite step_empty.
    + unfold transfer_resume. cbn [Z.eqb Nat.eqb andb orb].
      destruct (consume_spec (init_consuming bs) 0 Hok ltac:(lia)) as (_ & _ & _ & ->). done.
    + destruct (prepare_spec max_buffers (init_consuming bs)
        (next_transfer cond 0%Z (total_consumed (init_consuming bs))) Hok) as (m & Em & Hm & _).
      rewrite buffer_size_concat, Em, length_take. destruct Hend as [He|Hz]; [|lia].
      apply (empty_remaining _ Hok) in He. rewrite He. cbn. lia.
  - rewrite run_equiv; [|done|by destruct (empty (init_consuming bs)); [tauto|]|lia].
    by apply transfer_loop_more.
Qed.
End equivalence.

(** * The operations *)

Section laws.
  Context {S : Type} `{StreamLaws S}.
  Context (operation_aborted : error_code) (cond : completion_condition) (max_buffers : nat) (Hk : 0 < max_buffers).
  Context `{!EmptyLaws S}.

Lemma async_write_equiv bs (s : S) :
  async_write operation_aborted cond max_buffers (λ _, false) bs s = write_cond cond max_buffers bs s.
Proof.
  destruct (write_cond_spec cond max_buffers Hk bs s) as (n & ec & s' & E & _). rewrite E.
  unfold async_write. apply async_transfer_equiv; [done| |apply write_empty|done].
  intros bs' s1 n1 ec1 s1' Hw. destruct (write_some_law bs' s1 n1 ec1 s1' Hw) as (? & ? & _). done.
Qed.

Lemma async_read_equiv bs (s : S) r :
  read_cond cond max_buffers bs s = Ret r →
  async_read operation_aborted cond max_buffers (λ _, false) bs s = Ret r.
Proof.
  intros E. unfold async_read. apply async_transfer_equiv; [done| | |exact E].
  - intros bs' [s1 d1] n1 ec1 sd. unfold read_step. cbn [fst snd].
    destruct (read_some (buffer_size bs') s1) as [[d ec] s2] eqn:Er. intros [= <- <- _].
    destruct (read_some_law _ s1 d ec s2 Er) as (? & ? & _). done.
  - intros bs' [s1 d1] Hz. unfold read_step. cbn [fst snd]. rewrite Hz, read_empty. cbn [length]. by rewrite app_nil_r.
Qed.
End laws.
