(* ===== verification/SocketOps.v ===== *)
(** The system calls below Asio's sockets: the synchronous and the
    non-blocking operations of detail/impl/socket_ops.ipp, on a POSIX system,
    against the interface of the kernel, and the socket that
    [reactive_socket_service_base] makes of them.

    Error codes of the system category are the values of [errno] on Linux;
    those of Asio's own category are told apart by [misc_error]. *)

From S2P Require Import Prelude AsioBuffers AsioTransfer.

#[local] Open Scope Z_scope.

(** * Error codes *)

Definition misc_error (value : Z) : error_code := 2 ^ 32 + value.

Definition success : error_code := 0.
Definition interrupted : error_code := 4.
Definition bad_descriptor : error_code := 9.
Definition try_again : error_code := 11.
Definition would_block : error_code := 11.
Definition invalid_argument : error_code := 22.
Definition ENOTTY : error_code := 25.
Definition EPROTO : error_code := 71.
Definition connection_aborted : error_code := 103.
Definition error_eof : error_code := misc_error 2.

(** [would_block] or [try_again]. *)
Definition blocks (ec : error_code) : bool := (ec =? would_block) || (ec =? try_again).

(** * The state of a socket: bits of [state_type] *)

Definition user_set_non_blocking : Z := 1.
Definition internal_non_blocking : Z := 2.
Definition non_blocking : Z := Z.lor user_set_non_blocking internal_non_blocking.
Definition enable_connection_aborted : Z := 4.
Definition user_set_linger : Z := 8.
Definition stream_oriented : Z := 16.
Definition possible_dup : Z := 64.

(** [state & flag]. *)
Definition has (state flag : Z) : bool := negb (Z.land state flag =? 0).

Definition invalid_socket : Z := -1.

(** * The kernel *)

(** The result of a system call: a value or [errno]. *)
Inductive sys (A : Type) : Type :=
| Done (a : A)
| Failed (errno : error_code).
Arguments Done {A} a.
Arguments Failed {A} errno.

Definition O_NONBLOCK : Z := 2048.

(** The system calls on a descriptor; [k_poll] waits for input or, with
    [true], for room for output. *)
Class Kernel (K : Type) := {
  k_recv : Z → nat → K → sys buffer * K;
  k_send : Z → buffer → K → sys nat * K;
  k_poll : Z → bool → Z → K → sys Z * K;
  k_accept : Z → K → sys (Z * cstring) * K;
  k_ioctl_nonblock : Z → bool → K → sys unit * K;
  k_getfl : Z → K → sys Z * K;
  k_setfl : Z → Z → K → sys unit * K;
  k_linger_off : Z → K → sys unit * K;
  k_close : Z → K → sys unit * K
}.

(** [get_last_error]. *)
Definition get_last_error {A} (r : sys A) : error_code :=
  match r with Done _ => success | Failed e => e end.

Section operations.
  Context {K : Type} `{Kernel K}.

(** * Waiting *)

(** [poll_read] and [poll_write]: the result, the error and the kernel. *)
Definition poll_ready (output : bool) (s state msec : Z) (k : K) : Z * error_code * K :=
  if s =? invalid_socket then (-1, bad_descriptor, k)
  else
    let timeout := if has state user_set_non_blocking then 0 else msec in
    let '(r, k) := k_poll s output timeout k in
    match r with
    | Failed e => (-1, e, k)
    | Done n => (n, if (n =? 0) && has state user_set_non_blocking then would_block else success, k)
    end.

Definition poll_read := poll_ready false.
Definition poll_write := poll_ready true.

(** * Receiving *)

(** [sync_recv1]; [sync_recv] differs in that it fills several buffers, which
    hold [size] bytes together. *)
Fixpoint sync_recv_loop (fuel : nat) (s state : Z) (size : nat) (k : K) :
    outcome Empty_set (buffer * error_code * K) :=
  match fuel with
  | O => Diverge
  | S fuel' =>
      let '(r, k) := k_recv s size k in
      match r with
      | Done d =>
          if has state stream_oriented && (length d =? 0)%nat then Ret ([], error_eof, k)
          else Ret (d, success, k)
      | Failed ec =>
          if has state user_set_non_blocking || negb (blocks ec) then Ret ([], ec, k)
          else
            let '(n, ec, k) := poll_read s 0 (-1) k in
            if n <? 0 then Ret ([], ec, k) else sync_recv_loop fuel' s state size k
      end
  end.

Definition sync_recv (fuel : nat) (s state : Z) (size : nat) (k : K) :
    outcome Empty_set (buffer * error_code * K) :=
  if s =? invalid_socket then Ret ([], bad_descriptor, k)
  else if (size =? 0)%nat && has state stream_oriented then Ret ([], success, k)
  else sync_recv_loop fuel s state size k.

(** [non_blocking_recv]: the operation has been performed, or it would block. *)
Fixpoint non_blocking_recv (fuel : nat) (s : Z) (size : nat) (is_stream : bool) (k : K) :
    outcome Empty_set (option (buffer * error_code) * K) :=
  match fuel with
  | O => Diverge
  | S fuel' =>
      let '(r, k) := k_recv s size k in
      match r with
      | Done d =>
          if is_stream && (length d =? 0)%nat then Ret (Some ([], error_eof), k)
          else Ret (Some (d, success), k)
      | Failed ec =>
          if ec =? interrupted then non_blocking_recv fuel' s size is_stream k
          else if blocks ec then Ret (None, k)
          else Ret (Some ([], ec), k)
      end
  end.

(** * Sending *)

Fixpoint sync_send_loop (fuel : nat) (s state : Z) (d : buffer) (k : K) :
    outcome Empty_set (nat * error_code * K) :=
  match fuel with
  | O => Diverge
  | S fuel' =>
      let '(r, k) := k_send s d k in
      match r with
      | Done n => Ret (n, success, k)
      | Failed ec =>
          if has state user_set_non_blocking || negb (blocks ec) then Ret (0%nat, ec, k)
          else
            let '(n, ec, k) := poll_write s 0 (-1) k in
            if n <? 0 then Ret (0%nat, ec, k) else sync_send_loop fuel' s state d k
      end
  end.

Definition sync_send (fuel : nat) (s state : Z) (d : buffer) (k : K) :
    outcome Empty_set (nat * error_code * K) :=
  if s =? invalid_socket then Ret (0%nat, bad_descriptor, k)
  else if (length d =? 0)%nat && has state stream_oriented then Ret (0%nat, success, k)
  else sync_send_loop fuel s state d k.

Fixpoint non_blocking_send (fuel : nat) (s : Z) (d : buffer) (k : K) :
    outcome Empty_set (option (nat * error_code) * K) :=
  match fuel with
  | O => Diverge
  | S fuel' =>
      let '(r, k) := k_send s d k in
      match r with
      | Done n => Ret (Some (n, success), k)
      | Failed ec =>
          if ec =? interrupted then non_blocking_send fuel' s d k
          else if blocks ec then Ret (None, k)
          else Ret (Some (0%nat, ec), k)
      end
  end.

(** * Accepting *)

(** [accept]: the new socket and the address of the peer. *)
Definition accept (s : Z) (k : K) : sys (Z * cstring) * K :=
  if s =? invalid_socket then (Failed bad_descriptor, k) else k_accept s k.

(** Whether an error of [accept] is one to try again after. *)
Definition accept_again (state : Z) (ec : error_code) (nonblocking : bool) : bool :=
  if blocks ec then negb nonblocking
  else if (ec =? connection_aborted) || (ec =? EPROTO) then negb (has state enable_connection_aborted)
  else false.

Fixpoint sync_accept (fuel : nat) (s state : Z) (k : K) :
    outcome Empty_set (sys (Z * cstring) * K) :=
  match fuel with
  | O => Diverge
  | S fuel' =>
      let '(r, k) := accept s k in
      match r with
      | Done new_socket => Ret (Done new_socket, k)
      | Failed ec =>
          if negb (accept_again state ec (has state user_set_non_blocking)) then Ret (Failed ec, k)
          else
            let '(n, ec, k) := poll_read s 0 (-1) k in
            if n <? 0 then Ret (Failed ec, k) else sync_accept fuel' s state k
      end
  end.

Fixpoint non_blocking_accept (fuel : nat) (s state : Z) (k : K) :
    outcome Empty_set (option (sys (Z * cstring)) * K) :=
  match fuel with
  | O => Diverge
  | S fuel' =>
      let '(r, k) := accept s k in
      match r with
      | Done new_socket => Ret (Some (Done new_socket), k)
      | Failed ec =>
          if ec =? interrupted then non_blocking_accept fuel' s state k
          else if accept_again state ec false then Ret (None, k)
          else Ret (Some (Failed ec), k)
      end
  end.

(** * Modes *)

(** [ioctl] with [FIONBIO], or [fcntl] for a descriptor that may be shared or
    does not know [FIONBIO]: whether it worked, the error and the kernel.  The
    error is left as it was while no call is made. *)
Definition set_mode (s state : Z) (value : bool) (ec : error_code) (k : K) : bool * error_code * K :=
  let '(ok, ec, k) :=
    if has state possible_dup then (true, ec, k)
    else
      let '(r, k) := k_ioctl_nonblock s value k in
      match r with Done _ => (true, success, k) | Failed e => (false, e, k) end in
  if has state possible_dup || (ec =? ENOTTY) then
    let '(r, k) := k_getfl s k in
    match r with
    | Failed e => (false, e, k)
    | Done fl =>
        let flag := if value then Z.lor fl O_NONBLOCK else Z.ldiff fl O_NONBLOCK in
        if negb (flag =? fl) then
          let '(r, k) := k_setfl s flag k in
          match r with Done _ => (true, success, k) | Failed e => (false, e, k) end
        else (true, success, k)
    end
  else (ok, ec, k).

(** The result, the state of the socket, the error and the kernel. *)
Definition set_user_non_blocking (s state : Z) (value : bool) (ec : error_code) (k : K) :
    bool * Z * error_code * K :=
  if s =? invalid_socket then (false, state, bad_descriptor, k)
  else
    let '(ok, ec, k) := set_mode s state value ec k in
    if ok : bool then
      (true, if value then Z.lor state user_set_non_blocking
             else Z.ldiff state (Z.lor user_set_non_blocking internal_non_blocking), ec, k)
    else (false, state, ec, k).

Definition set_internal_non_blocking (s state : Z) (value : bool) (ec : error_code) (k : K) :
    bool * Z * error_code * K :=
  if s =? invalid_socket then (false, state, bad_descriptor, k)
  else if negb value && has state user_set_non_blocking then (false, state, invalid_argument, k)
  else
    let '(ok, ec, k) := set_mode s state value ec k in
    if ok : bool then
      (true, if value then Z.lor state internal_non_blocking
             else Z.ldiff state internal_non_blocking, ec, k)
    else (false, state, ec, k).

(** What [close] does to put the descriptor back into blocking mode; errors
    are left to the second attempt at closing it. *)
Definition back_to_blocking (s state : Z) (k : K) : K :=
  let '(ec, k) :=
    if has state possible_dup then (success, k)
    else let '(r, k) := k_ioctl_nonblock s false k in (get_last_error r, k) in
  if has state possible_dup || (ec =? ENOTTY) then
    let '(r, k) := k_getfl s k in
    match r with
    | Failed _ => k
    | Done fl => (k_setfl s (Z.ldiff fl O_NONBLOCK) k).2
    end
  else k.

(** [close]: whether it worked, the state of the socket, the error and the
    kernel. *)
Definition close (s state : Z) (destruction : bool) (ec : error_code) (k : K) :
    bool * Z * error_code * K :=
  if s =? invalid_socket then (true, state, ec, k)
  else
    let k := if destruction && has state user_set_linger then (k_linger_off s k).2 else k in
    let '(r, k) := k_close s k in
    let ec := get_last_error r in
    match r with
    | Done _ => (true, state, ec, k)
    | Failed _ =>
        if blocks ec then
          let k := back_to_blocking s state k in
          let state := Z.ldiff state non_blocking in
          let '(r, k) := k_close s k in
          (match r with Done _ => true | Failed _ => false end, state, get_last_error r, k)
        else (false, state, ec, k)
    end.
End operations.

(** * The socket *)

(** An open TCP socket in the kernel [K]: [do_open] gives its state the flag
    [stream_oriented], and no operation takes it away. *)
Record tcp_socket (K : Type) : Type := mk_socket {
  socket_ : Z;
  state_ : Z;
  kernel : K;
  is_open_stream : negb (socket_ =? invalid_socket) && has state_ stream_oriented = true
}.
Arguments mk_socket {K} socket_ state_ kernel is_open_stream.
Arguments socket_ {K} t.
Arguments state_ {K} t.
Arguments kernel {K} t.
Arguments is_open_stream {K} t.

Definition with_kernel {K} (t : tcp_socket K) (k : K) : tcp_socket K :=
  mk_socket (socket_ t) (state_ t) k (is_open_stream t).

(** [patience s k] is how often the kernel [k] may still report the
    descriptor [s] as ready and then refuse the transfer. *)
Section socket.
  Context {K : Type} `{Kernel K} (patience : Z → K → nat).

(** [receive] and [send] of [reactive_socket_service_base], as [read_some] and
    [write_some] call them.  The adapter of the buffers passes on at most 64
    of them, which is what the composed operations prepare. *)
Definition socket_read (size : nat) (t : tcp_socket K) : buffer * error_code * tcp_socket K :=
  match sync_recv (S (patience (socket_ t) (kernel t))) (socket_ t) (state_ t) size (kernel t) with
  | Ret (d, ec, k) => (d, ec, with_kernel t k)
  | _ => ([], bad_descriptor, t)   (* not with [PatientKernel]: [sync_recv_spec] *)
  end.

Definition socket_write (bs : list buffer) (t : tcp_socket K) : nat * error_code * tcp_socket K :=
  match sync_send (S (patience (socket_ t) (kernel t))) (socket_ t) (state_ t) (concat bs) (kernel t) with
  | Ret (n, ec, k) => (n, ec, with_kernel t k)
  | _ => (0%nat, bad_descriptor, t)   (* not with [PatientKernel]: [sync_send_spec] *)
  end.

Definition socket_stream : Stream (tcp_socket K) :=
  {| write_some := socket_write; read_some := socket_read |}.
End socket.
