(* ===== verification/SocketOpsFacts.v ===== *)
(** What the operations of [SocketOps] promise on a kernel that keeps the
    rules of POSIX sockets: the synchronous calls transfer what they report,
    and end unless the kernel goes on to report a descriptor as ready and to
    refuse the transfer; a socket that the user has not made non-blocking
    reports that it would block only when [poll] itself has failed so; the
    mode of the descriptor agrees with the state of the socket; and on a
    kernel that refuses finitely often the socket is a stream in the sense of
    [AsioTransfer]. *)

From S2P Require Import Prelude AsioBuffers AsioTransfer SocketOps.

#[local] Open Scope Z_scope.

(** * The kernel *)

(** The documented behaviour of the system calls: a call that fails sets
    [errno] and transfers nothing, and [poll] transfers nothing. *)
Class KernelLaws (K : Type) `{Kernel K} := {
  k_received : Z → K → buffer;
  k_sent : Z → K → buffer;
  (** whether the open file has the flag [O_NONBLOCK] *)
  k_nonblocking : Z → K → bool;
  recv_law s size k r k' :
    k_recv s size k = (r, k') →
    k_sent s k' = k_sent s k ∧
    match r with
    | Done d => (length d ≤ size)%nat ∧ k_received s k' = k_received s k ++ d
    | Failed e => e ≠ 0 ∧ k_received s k' = k_received s k
    end;
  send_law s d k r k' :
    k_send s d k = (r, k') →
    k_received s k' = k_received s k ∧
    match r with
    | Done n => (n ≤ length d)%nat ∧ ((0 < length d)%nat → (0 < n)%nat) ∧
                k_sent s k' = k_sent s k ++ take n d
    | Failed e => e ≠ 0 ∧ k_sent s k' = k_sent s k
    end;
  poll_law s out msec k r k' :
    k_poll s out msec k = (r, k') →
    k_sent s k' = k_sent s k ∧ k_received s k' = k_received s k ∧
    match r with Done n => 0 ≤ n | Failed e => e ≠ 0 end;
  ioctl_law s value k r k' :
    k_ioctl_nonblock s value k = (r, k') →
    match r with
    | Done _ => k_nonblocking s k' = value
    | Failed e => e ≠ 0 ∧ k_nonblocking s k' = k_nonblocking s k
    end;
  getfl_law s k r k' :
    k_getfl s k = (r, k') →
    k_nonblocking s k' = k_nonblocking s k ∧
    match r with
    | Done fl => has fl O_NONBLOCK = k_nonblocking s k
    | Failed e => e ≠ 0
    end;
  setfl_law s fl k r k' :
    k_setfl s fl k = (r, k') →
    match r with
    | Done _ => k_nonblocking s k' = has fl O_NONBLOCK
    | Failed e => e ≠ 0 ∧ k_nonblocking s k' = k_nonblocking s k
    end
}.

(** A kernel that refuses a transfer on a descriptor it has just reported as
    ready only a bounded number of times.  Nothing obliges a kernel to this;
    it is what makes a socket a stream on which every composed operation
    ends. *)
Class PatientKernel (K : Type) `{Kernel K} := {
  patience : Z → K → nat;
  recv_patience s size k e k1 n k2 :
    k_recv s size k = (Failed e, k1) → blocks e = true → k_poll s false (-1) k1 = (Done n, k2) →
    (patience s k2 < patience s k)%nat;
  send_patience s d k e k1 n k2 :
    k_send s d k = (Failed e, k1) → blocks e = true → k_poll s true (-1) k1 = (Done n, k2) →
    (patience s k2 < patience s k)%nat
}.

(** * Flags *)

(** [flag] is one bit. *)
Lemma has_bit state i : 0 ≤ i → has state (2 ^ i) = Z.testbit state i.
Proof.
  intros Hi. unfold has. destruct (Z.testbit state i) eqn:E.
  - apply negb_true_iff, Z.eqb_neq. intros H0.
    assert (Z.testbit (Z.land state (2 ^ i)) i = true) as Ht.
    { by rewrite Z.land_spec, E, Z.pow2_bits_true. }
    by rewrite H0, Z.bits_0 in Ht.
  - apply negb_false_iff, Z.eqb_eq, Z.bits_inj'. intros j Hj.
    rewrite Z.land_spec, Z.bits_0, Z.pow2_bits_eqb by lia.
    destruct (Z.eqb_spec i j) as [<-|]; [by rewrite E|apply andb_false_r].
Qed.

(** [non_blocking] is bit 0 or bit 1. *)
Lemma has_non_blocking state : has state non_blocking = Z.testbit state 0 || Z.testbit state 1.
Proof.
  rewrite <- (has_bit state 0), <- (has_bit state 1) by lia. unfold has.
  change non_blocking with (Z.lor (2 ^ 0) (2 ^ 1)). rewrite Z.land_lor_distr_r.
  destruct (Z.eqb_spec (Z.lor (Z.land state (2 ^ 0)) (Z.land state (2 ^ 1))) 0) as [E|E].
  - apply Z.lor_eq_0_iff in E as [-> ->]. done.
  - destruct (Z.eqb_spec (Z.land state (2 ^ 0)) 0) as [E0|]; [|done].
    destruct (Z.eqb_spec (Z.land state (2 ^ 1)) 0) as [E1|]; [|done].
    by rewrite E0, E1 in E.
Qed.

Lemma has_O_NONBLOCK fl : has fl O_NONBLOCK = Z.testbit fl 11.
Proof. by apply (has_bit fl 11). Qed.

Lemma has_user state : has state user_set_non_blocking = Z.testbit state 0.
Proof. by apply (has_bit state 0). Qed.

Lemma has_possible_dup state : has state possible_dup = Z.testbit state 6.
Proof. by apply (has_bit state 6). Qed.

(** * Transfers *)

Section transfers.
  Context {K : Type} `{KernelLaws K}.

(** [poll_ready] as the loops call it. *)
Lemma poll_ready_cases out s k n ec k' :
  s ≠ invalid_socket → poll_ready out s 0 (-1) k = (n, ec, k') →
  k_sent s k' = k_sent s k ∧ k_received s k' = k_received s k ∧
  ((n < 0 ∧ ec ≠ 0 ∧ k_poll s out (-1) k = (Failed ec, k')) ∨ (0 ≤ n ∧ k_poll s out (-1) k = (Done n, k'))).
Proof.
  intros Hs. unfold poll_ready. apply Z.eqb_neq in Hs. rewrite Hs.
  change (has 0 user_set_non_blocking) with false. cbv iota.
  destruct (k_poll s out (-1) k) as [r k1] eqn:E.
  destruct (poll_law _ _ _ _ _ _ E) as (H1 & H2 & H3).
  destruct r as [m|e]; intros [= <- <- <-]; split; [done| |done|].
  - split; [done|]. by right.
  - split; [done|]. left. split; [lia|done].
Qed.

(** [n] times in a row the kernel refuses a transfer and then reports the
    descriptor as ready for it. *)
Fixpoint refused_recv (n : nat) (s : Z) (size : nat) (k : K) : bool :=
  match n with
  | O => true
  | S n =>
      match k_recv s size k with
      | (Failed ec, k) =>
          blocks ec && match k_poll s false (-1) k with (Done _, k) => refused_recv n s size k | _ => false end
      | _ => false
      end
  end.

Fixpoint refused_send (n : nat) (s : Z) (d : buffer) (k : K) : bool :=
  match n with
  | O => true
  | S n =>
      match k_send s d k with
      | (Failed ec, k) =>
          blocks ec && match k_poll s true (-1) k with (Done _, k) => refused_send n s d k | _ => false end
      | _ => false
      end
  end.

(** What may make a call report that it would block. *)
Definition may_block (out : bool) (s state : Z) (ec : error_code) : Prop :=
  has state user_set_non_blocking = true ∨ ∃ k1 k2 : K, k_poll s out (-1) k1 = (Failed ec, k2).

(** What [sync_recv] has done when it returns. *)
Definition recv_ok (s state : Z) (size : nat) (k : K) (d : buffer) (ec : error_code) (k' : K) : Prop :=
  (length d ≤ size)%nat ∧ k_received s k' = k_received s k ++ d ∧ k_sent s k' = k_sent s k ∧
  (ec ≠ 0 → d = []) ∧
  (ec = 0 → has state stream_oriented = true → (0 < size)%nat → (0 < length d)%nat) ∧
  (blocks ec = true → may_block false s state ec).

(** Nothing was received. *)
Lemma recv_ok_nil s state size k ec k' :
  k_received s k' = k_received s k → k_sent s k' = k_sent s k →
  (ec = 0 → has state stream_oriented = true → size = 0%nat) →
  (blocks ec = true → may_block false s state ec) → recv_ok s state size k [] ec k'.
Proof.
  intros Hr Hs He Hb. unfold recv_ok. rewrite app_nil_r. split_and!; try done; [cbn; lia|].
  intros E Ho. rewrite (He E Ho). lia.
Qed.

Lemma sync_recv_loop_spec fuel s state size k :
  s ≠ invalid_socket → refused_recv fuel s size k = false →
  ∃ d ec k', sync_recv_loop fuel s state size k = Ret (d, ec, k') ∧ recv_ok s state size k d ec k'.
Proof.
  intros Hs. revert k. induction fuel as [|fuel IH]; intros k; cbn [refused_recv]; [done|].
  cbn [sync_recv_loop]. destruct (k_recv s size k) as [r k1] eqn:Er.
  destruct (recv_law _ _ _ _ _ Er) as [Hsent Hr]. destruct r as [d|e]; intros Hf.
  - destruct Hr as [Hl Hd].
    destruct (has state stream_oriented) eqn:Ho; cbn [andb].
    + destruct (Nat.eqb_spec (length d) 0) as [E|E].
      * apply nil_length_inv in E as ->. rewrite app_nil_r in Hd.
        do 3 eexists. split; [done|]. by apply recv_ok_nil.
      * do 3 eexists. split; [done|]. unfold recv_ok. repeat split; try done; lia.
    + do 3 eexists. split; [done|]. unfold recv_ok. rewrite Ho. repeat split; done.
  - destruct Hr as [He Hrec]. destruct (has state user_set_non_blocking) eqn:Eu; cbn [orb].
    { do 3 eexists. split; [done|]. apply recv_ok_nil; [done..|]. by left. }
    destruct (blocks e) eqn:Eb; cbn [negb andb] in *.
    2:{ do 3 eexists. split; [done|]. apply recv_ok_nil; [done..|congruence]. }
    destruct (poll_read s 0 (-1) k1) as [[n ec] k2] eqn:Ep.
    destruct (poll_ready_cases _ _ _ _ _ _ Hs Ep) as (H1 & H2 & [(Hn & Hec & Hp)|[Hn Hp]]).
    + rewrite (proj2 (Z.ltb_lt _ _) Hn). do 3 eexists. split; [done|].
      apply recv_ok_nil; [congruence|congruence|done|]. right. by exists k1, k2.
    + rewrite (proj2 (Z.ltb_ge _ _) Hn). rewrite Hp in Hf.
      destruct (IH k2 Hf) as (d & ec' & k' & E & Hok). exists d, ec', k'. split; [done|].
      unfold recv_ok in *. by rewrite <- Hsent, <- H1, <- Hrec, <- H2.
Qed.

Lemma sync_recv_spec fuel s state size k :
  refused_recv fuel s size k = false →
  ∃ d ec k', sync_recv fuel s state size k = Ret (d, ec, k') ∧ recv_ok s state size k d ec k'.
Proof.
  intros Hf. unfold sync_recv. destruct (Z.eqb_spec s invalid_socket) as [|Hs].
  { do 3 eexists. split; [done|]. by apply recv_ok_nil. }
  destruct (Nat.eqb_spec size 0) as [->|]; cbn [andb]; [|by apply sync_recv_loop_spec].
  destruct (has state stream_oriented); [|by apply sync_recv_loop_spec].
  do 3 eexists. split; [done|]. by apply recv_ok_nil.
Qed.

(** What [sync_send] has done when it returns. *)
Definition send_ok (s state : Z) (d : buffer) (k : K) (n : nat) (ec : error_code) (k' : K) : Prop :=
  (n ≤ length d)%nat ∧ k_sent s k' = k_sent s k ++ take n d ∧ k_received s k' = k_received s k ∧
  (ec ≠ 0 → n = 0%nat) ∧ (ec = 0 → (0 < length d)%nat → (0 < n)%nat) ∧
  (blocks ec = true → may_block true s state ec).

(** Nothing was sent. *)
Lemma send_ok_0 s state d k ec k' :
  k_received s k' = k_received s k → k_sent s k' = k_sent s k → (ec = 0 → length d = 0%nat) →
  (blocks ec = true → may_block true s state ec) → send_ok s state d k 0 ec k'.
Proof.
  intros Hr Hs He Hb. unfold send_ok. rewrite take_0, app_nil_r. split_and!; try done; [lia|].
  intros E. rewrite (He E). lia.
Qed.

Lemma sync_send_loop_spec fuel s state d k :
  s ≠ invalid_socket → refused_send fuel s d k = false →
  ∃ n ec k', sync_send_loop fuel s state d k = Ret (n, ec, k') ∧ send_ok s state d k n ec k'.
Proof.
  intros Hs. revert k. induction fuel as [|fuel IH]; intros k; cbn [refused_send]; [done|].
  cbn [sync_send_loop]. destruct (k_send s d k) as [r k1] eqn:Er.
  destruct (send_law _ _ _ _ _ Er) as [Hrec Hr]. destruct r as [n|e]; intros Hf.
  - destruct Hr as (Hl & Hpos & Hd). do 3 eexists. split; [done|]. unfold send_ok. by repeat split.
  - destruct Hr as [He Hsent]. destruct (has state user_set_non_blocking) eqn:Eu; cbn [orb].
    { do 3 eexists. split; [done|]. apply send_ok_0; [done..|]. by left. }
    destruct (blocks e) eqn:Eb; cbn [negb andb] in *.
    2:{ do 3 eexists. split; [done|]. apply send_ok_0; [done..|congruence]. }
    destruct (poll_write s 0 (-1) k1) as [[n ec] k2] eqn:Ep.
    destruct (poll_ready_cases _ _ _ _ _ _ Hs Ep) as (H1 & H2 & [(Hn & Hec & Hp)|[Hn Hp]]).
    + rewrite (proj2 (Z.ltb_lt _ _) Hn). do 3 eexists. split; [done|].
      apply send_ok_0; [congruence|congruence|done|]. right. by exists k1, k2.
    + rewrite (proj2 (Z.ltb_ge _ _) Hn). rewrite Hp in Hf.
      destruct (IH k2 Hf) as (m & ec' & k' & E & Hok). exists m, ec', k'. split; [done|].
      unfold send_ok in *. by rewrite <- Hrec, <- H2, <- Hsent, <- H1.
Qed.

Lemma sync_send_spec fuel s state d k :
  refused_send fuel s d k = false →
  ∃ n ec k', sync_send fuel s state d k = Ret (n, ec, k') ∧ send_ok s state d k n ec k'.
Proof.
  intros Hf. unfold sync_send. destruct (Z.eqb_spec s invalid_socket) as [|Hs].
  { do 3 eexists. split; [done|]. by apply send_ok_0. }
  destruct (Nat.eqb_spec (length d) 0) as [E|]; cbn [andb]; [|by apply sync_send_loop_spec].
  destruct (has state stream_oriented); [|by apply sync_send_loop_spec].
  do 3 eexists. split; [done|]. by apply send_ok_0.
Qed.

(** A kernel that goes on like this holds a blocking call up. *)
Lemma refused_recv_diverges fuel s state size k :
  s ≠ invalid_socket → has state user_set_non_blocking = false →
  refused_recv fuel s size k = true → sync_recv_loop fuel s state size k = Diverge.
Proof.
  intros Hs Hu. revert k. induction fuel as [|fuel IH]; intros k; cbn [refused_recv sync_recv_loop]; [done|].
  destruct (k_recv s size k) as [[d|e] k1]; [done|]. intros [Eb Hf]%andb_true_iff. rewrite Hu, Eb. cbn [orb negb].
  destruct (poll_read s 0 (-1) k1) as [[n ec] k2] eqn:Ep.
  destruct (poll_ready_cases _ _ _ _ _ _ Hs Ep) as (_ & _ & [(_ & _ & Hp)|[Hn Hp]]); rewrite Hp in Hf; [done|].
  rewrite (proj2 (Z.ltb_ge _ _) Hn). by apply IH.
Qed.

Lemma refused_recv_patient `{!PatientKernel K} fuel s size k :
  (patience s k < fuel)%nat → refused_recv fuel s size k = false.
Proof.
  revert k. induction fuel as [|fuel IH]; intros k Hf; [lia|]. cbn [refused_recv].
  destruct (k_recv s size k) as [[d|e] k1] eqn:Er; [done|]. destruct (blocks e) eqn:Eb; [|done]. cbn [andb].
  destruct (k_poll s false (-1) k1) as [[n|e'] k2] eqn:Ep; [|done].
  pose proof (recv_patience _ _ _ _ _ _ _ Er Eb Ep). apply IH. lia.
Qed.

Lemma refused_send_patient `{!PatientKernel K} fuel s d k :
  (patience s k < fuel)%nat → refused_send fuel s d k = false.
Proof.
  revert k. induction fuel as [|fuel IH]; intros k Hf; [lia|]. cbn [refused_send].
  destruct (k_send s d k) as [[n|e] k1] eqn:Er; [done|]. destruct (blocks e) eqn:Eb; [|done]. cbn [andb].
  destruct (k_poll s true (-1) k1) as [[n|e'] k2] eqn:Ep; [|done].
  pose proof (send_patience _ _ _ _ _ _ _ Er Eb Ep). apply IH. lia.
Qed.
End transfers.

(** * Modes *)

Section modes.
  Context {K : Type} `{KernelLaws K}.

(** The descriptor is in non-blocking mode exactly when the state of the
    socket says so. *)
Definition mode_ok (s state : Z) (k : K) : Prop := k_nonblocking s k = has state non_blocking.

Lemma set_flag_bit fl (value : bool) :
  Z.testbit (if value then Z.lor fl O_NONBLOCK else Z.ldiff fl O_NONBLOCK) 11 = value.
Proof.
  destruct value; [rewrite Z.lor_spec; apply orb_true_r|rewrite Z.ldiff_spec; apply andb_false_r].
Qed.

(** [set_mode] puts the descriptor into the mode or leaves it as it is. *)
Lemma set_mode_spec s state value ec k ok ec' k' :
  set_mode s state value ec k = (ok, ec', k') →
  if ok then ec' = 0 ∧ k_nonblocking s k' = value
  else ec' ≠ 0 ∧ k_nonblocking s k' = k_nonblocking s k.
Proof.
  unfold set_mode.
  assert (∀ k1, k_nonblocking s k1 = k_nonblocking s k →
    (let '(r, k) := k_getfl s k1 in
     match r with
     | Failed e => (false, e, k)
     | Done fl =>
        let flag := if value then Z.lor fl O_NONBLOCK else Z.ldiff fl O_NONBLOCK in
        if negb (flag =? fl) then
          let '(r, k) := k_setfl s flag k in
          match r with Done _ => (true, success, k) | Failed e => (false, e, k) end
        else (true, success, k)
     end) = (ok, ec', k') →
    if ok then ec' = 0 ∧ k_nonblocking s k' = value
    else ec' ≠ 0 ∧ k_nonblocking s k' = k_nonblocking s k) as Hfl.
  { intros k1 Hk1. destruct (k_getfl s k1) as [r k2] eqn:Eg.
    destruct (getfl_law _ _ _ _ Eg) as [Hk2 Hr]. destruct r as [fl|e]; [|intros [= <- <- <-]; by rewrite Hk2].
    cbv zeta. pose proof (set_flag_bit fl value) as Hbit.
    destruct (Z.eqb_spec (if value then Z.lor fl O_NONBLOCK else Z.ldiff fl O_NONBLOCK) fl) as [E|E]; cbn [negb].
    - intros [= <- <- <-]. rewrite E in Hbit. rewrite has_O_NONBLOCK in Hr. by rewrite Hk2, <- Hr.
    - destruct (k_setfl s _ k2) as [[[]|e] k3] eqn:Es; apply setfl_law in Es; intros [= <- <- <-].
      + by rewrite Es, has_O_NONBLOCK.
      + destruct Es as [He Hk3]. by rewrite Hk3, Hk2. }
  destruct (has state possible_dup); cbn [orb]; [by apply Hfl|].
  destruct (k_ioctl_nonblock s value k) as [[[]|e] k1] eqn:Ei; apply ioctl_law in Ei.
  - change (success =? ENOTTY) with false. by intros [= <- <- <-].
  - destruct Ei as [He Hk1]. destruct (e =? ENOTTY); [by apply Hfl|]. intros [= <- <- <-]. done.
Qed.

Lemma user_state_bits state (value : bool) :
  has (if value then Z.lor state user_set_non_blocking
       else Z.ldiff state (Z.lor user_set_non_blocking internal_non_blocking)) non_blocking = value.
Proof.
  rewrite has_non_blocking. destruct value; rewrite ?Z.lor_spec, ?Z.ldiff_spec.
  - change (Z.testbit user_set_non_blocking 0) with true. by rewrite orb_true_r.
  - change (Z.lor user_set_non_blocking internal_non_blocking) with 3. cbn. by rewrite !andb_false_r.
Qed.

Lemma internal_state_bits state (value : bool) :
  negb value && has state user_set_non_blocking = false →
  has (if value then Z.lor state internal_non_blocking
       else Z.ldiff state internal_non_blocking) non_blocking = value.
Proof.
  rewrite has_non_blocking, has_user. destruct value; cbn [negb andb]; rewrite ?Z.lor_spec, ?Z.ldiff_spec.
  - change (Z.testbit internal_non_blocking 1) with true. by rewrite !orb_true_r.
  - intros ->. change (Z.testbit internal_non_blocking 1) with true. cbn. by rewrite andb_false_r.
Qed.

Lemma set_user_non_blocking_spec s state value ec k ok state' ec' k' :
  mode_ok s state k → set_user_non_blocking s state value ec k = (ok, state', ec', k') →
  mode_ok s state' k' ∧
  if ok : bool then ec' = 0 ∧ has state' user_set_non_blocking = value ∧ k_nonblocking s k' = value
  else ec' ≠ 0 ∧ state' = state.
Proof.
  unfold mode_ok, set_user_non_blocking. intros Hm. destruct (s =? invalid_socket).
  { intros [= <- <- <- <-]. done. }
  destruct (set_mode s state value ec k) as [[[] ec1] k1] eqn:E; apply set_mode_spec in E as [He Hk];
    intros [= <- <- <- <-].
  - split; [by rewrite user_state_bits|]. split; [done|]. split; [|done].
    rewrite has_user. destruct value; rewrite ?Z.lor_spec, ?Z.ldiff_spec; [apply orb_true_r|apply andb_false_r].
  - by rewrite Hk.
Qed.

Lemma set_internal_non_blocking_spec s state value ec k ok state' ec' k' :
  mode_ok s state k → set_internal_non_blocking s state value ec k = (ok, state', ec', k') →
  mode_ok s state' k' ∧ has state' user_set_non_blocking = has state user_set_non_blocking ∧
  if ok : bool then ec' = 0 ∧ k_nonblocking s k' = value else ec' ≠ 0 ∧ state' = state.
Proof.
  unfold mode_ok, set_internal_non_blocking. intros Hm. destruct (s =? invalid_socket).
  { intros [= <- <- <- <-]. done. }
  destruct (negb value && has state user_set_non_blocking) eqn:Eu.
  { intros [= <- <- <- <-]. done. }
  destruct (set_mode s state value ec k) as [[[] ec1] k1] eqn:E; apply set_mode_spec in E as [He Hk];
    intros [= <- <- <- <-].
  - split; [by rewrite internal_state_bits|]. split; [|done].
    rewrite !has_user. destruct value; rewrite ?Z.lor_spec, ?Z.ldiff_spec; [apply orb_false_r|apply andb_true_r].
  - by rewrite Hk.
Qed.
End modes.

(** * The socket is a stream *)

Section stream.
  Context {K : Type} `{KernelLaws K, !PatientKernel K}.

#[export] Instance tcp_stream : Stream (tcp_socket K) := socket_stream patience.

Lemma socket_read_spec size (t : tcp_socket K) :
  ∃ d ec k', socket_read patience size t = (d, ec, with_kernel t k') ∧
    recv_ok (socket_ t) (state_ t) size (kernel t) d ec k'.
Proof.
  unfold socket_read.
  destruct (sync_recv_spec (S (patience (socket_ t) (kernel t))) (socket_ t) (state_ t) size (kernel t))
    as (d & ec & k' & -> & Hok); [apply refused_recv_patient; lia|]. by exists d, ec, k'.
Qed.

Lemma socket_write_spec bs (t : tcp_socket K) :
  ∃ n ec k', socket_write patience bs t = (n, ec, with_kernel t k') ∧
    send_ok (socket_ t) (state_ t) (concat bs) (kernel t) n ec k'.
Proof.
  unfold socket_write.
  destruct (sync_send_spec (S (patience (socket_ t) (kernel t))) (socket_ t) (state_ t) (concat bs) (kernel t))
    as (n & ec & k' & -> & Hok); [apply refused_send_patient; lia|]. by exists n, ec, k'.
Qed.

Lemma open_stream (t : tcp_socket K) :
  socket_ t ≠ invalid_socket ∧ has (state_ t) stream_oriented = true.
Proof. pose proof (is_open_stream t) as [Hs%negb_true_iff%Z.eqb_neq Ho]%andb_true_iff. done. Qed.

#[export] Instance tcp_laws : StreamLaws (tcp_socket K).
Proof.
  apply (Build_StreamLaws _ _ (λ t, k_sent (socket_ t) (kernel t)) (λ t, k_received (socket_ t) (kernel t))).
  - intros bs t n ec t' E. cbn in E. destruct (socket_write_spec bs t) as (m & e & k' & Es & Hok).
    rewrite Es in E. injection E as <- <- <-. cbn.
    destruct Hok as (H1 & H2 & H3 & H4 & H5 & _). by rewrite !buffer_size_concat.
  - intros size t d ec t' E. cbn in E. destruct (socket_read_spec size t) as (d' & e & k' & Es & Hok).
    rewrite Es in E. injection E as <- <- <-. cbn.
    destruct Hok as (H1 & H2 & H3 & H4 & H5 & _). destruct (open_stream t). by auto.
Defined.

(** Nothing to transfer is no call of the system. *)
Lemma with_kernel_same (t : tcp_socket K) : with_kernel t (kernel t) = t.
Proof. by destruct t. Qed.

#[export] Instance tcp_empty : EmptyLaws (tcp_socket K).
Proof.
  apply Build_EmptyLaws.
  - intros bs t Hb. destruct (open_stream t) as [Hs%Z.eqb_neq Ho]. cbn. unfold socket_write, sync_send.
    rewrite buffer_size_concat in Hb. rewrite Hs, Ho, Hb. cbn. by rewrite with_kernel_same.
  - intros t. destruct (open_stream t) as [Hs%Z.eqb_neq Ho]. cbn. unfold socket_read, sync_recv.
    rewrite Hs, Ho. cbn. by rewrite with_kernel_same.
Defined.
End stream.

(** * A kernel

    One connection: what each call of [recv] and [send] does, [Later] being a
    call that would block.  Descriptors other than the connection's do not
    exist for it. *)

Inductive recv_event : Type := Arrive (d : buffer) | Recv_later | Recv_fail (ec : error_code).
Inductive send_event : Type := Accepts (n : nat) | Send_later | Send_fail (ec : error_code).

Record sim_kernel : Type := mk_sim {
  sim_in : list recv_event;
  sim_out : list send_event;
  sim_received : buffer;
  sim_sent : buffer;
  sim_flags : Z
}.

Definition nonzero_errno (ec : error_code) : error_code := if ec =? 0 then 1 else ec.

Definition sim_recv (size : nat) (k : sim_kernel) : sys buffer * sim_kernel :=
  match sim_in k with
  | [] => (Done [], k)
  | Arrive d :: rs =>
      (Done (take size d),
       mk_sim (if (size <? length d)%nat then Arrive (drop size d) :: rs else rs) (sim_out k)
         (sim_received k ++ take size d) (sim_sent k) (sim_flags k))
  | Recv_later :: rs => (Failed would_block, mk_sim rs (sim_out k) (sim_received k) (sim_sent k) (sim_flags k))
  | Recv_fail e :: rs =>
      (Failed (nonzero_errno e), mk_sim rs (sim_out k) (sim_received k) (sim_sent k) (sim_flags k))
  end.

Definition sim_send (d : buffer) (k : sim_kernel) : sys nat * sim_kernel :=
  match sim_out k with
  | [] => (Done (length d), mk_sim (sim_in k) [] (sim_received k) (sim_sent k ++ d) (sim_flags k))
  | Accepts n :: ss =>
      let n := min (S n) (length d) in
      (Done n, mk_sim (sim_in k) ss (sim_received k) (sim_sent k ++ take n d) (sim_flags k))
  | Send_later :: ss => (Failed would_block, mk_sim (sim_in k) ss (sim_received k) (sim_sent k) (sim_flags k))
  | Send_fail e :: ss =>
      (Failed (nonzero_errno e), mk_sim (sim_in k) ss (sim_received k) (sim_sent k) (sim_flags k))
  end.

Definition sim_set_flags (fl : Z) (k : sim_kernel) : sys unit * sim_kernel :=
  (Done tt, mk_sim (sim_in k) (sim_out k) (sim_received k) (sim_sent k) fl).

#[export] Instance sim_calls : Kernel sim_kernel := {|
  k_recv _ size k := sim_recv size k;
  k_send _ d k := sim_send d k;
  k_poll _ _ _ k := (Done 1, k);
  k_accept _ k := (Failed invalid_argument, k);
  k_ioctl_nonblock _ value k :=
    sim_set_flags (if value then Z.lor (sim_flags k) O_NONBLOCK else Z.ldiff (sim_flags k) O_NONBLOCK) k;
  k_getfl _ k := (Done (sim_flags k), k);
  k_setfl _ fl k := sim_set_flags fl k;
  k_linger_off _ k := (Done tt, k);
  k_close _ k := (Done tt, k)
|}.

Lemma nonzero_errno_ne e : nonzero_errno e ≠ 0.
Proof. unfold nonzero_errno. by destruct (Z.eqb_spec e 0). Qed.

#[export] Instance sim_laws : KernelLaws sim_kernel.
Proof.
  apply (Build_KernelLaws sim_kernel _ (λ _ k, sim_received k) (λ _ k, sim_sent k)
    (λ _ k, has (sim_flags k) O_NONBLOCK)); cbn.
  - intros _ size k r k'. unfold sim_recv. destruct (sim_in k) as [|[d| |e] rs];
      intros [= <- <-]; cbn [sim_received sim_sent].
    + rewrite app_nil_r. split; [done|]. split; [cbn; lia|done].
    + split; [done|]. split; [rewrite length_take; lia|done].
    + done.
    + split; [done|]. split; [apply nonzero_errno_ne|done].
  - intros _ d k r k'. unfold sim_send. destruct (sim_out k) as [|[n| |e] ss];
      intros [= <- <-]; cbn [sim_received sim_sent].
    + rewrite firstn_all. by repeat split.
    + split; [done|]. destruct (length d) eqn:E; [repeat split; lia|]. repeat split; lia.
    + done.
    + split; [done|]. split; [apply nonzero_errno_ne|done].
  - intros _ _ _ k r k' [= <- <-]. by repeat split.
  - intros _ value k r k' [= <- <-]. cbn. rewrite has_O_NONBLOCK. apply set_flag_bit.
  - intros _ k r k' [= <- <-]. done.
  - intros _ fl k r k' [= <- <-]. done.
Defined.

#[export] Instance sim_patient : PatientKernel sim_kernel.
Proof.
  apply (Build_PatientKernel sim_kernel _ (λ _ k, length (sim_in k) + length (sim_out k))%nat); cbn.
  - intros _ size k e k1 n k2. unfold sim_recv.
    destruct (sim_in k) as [|[d| |e'] rs]; intros [= <- <-] _ [= _ <-]; cbn; lia.
  - intros _ d k e k1 n k2. unfold sim_send.
    destruct (sim_out k) as [|[m| |e'] ss]; intros [= <- <-] _ [= _ <-]; cbn; lia.
Defined.
