(* ===== verification/AsioReadProperties.v ===== *)
(** What [read_until], the asynchronous composed operations and the socket
    calls below them promise. *)

From S2P Require Import Prelude AsioBuffers AsioTransfer AsioDynamic AsioDynamicFacts.
From S2P Require Import ReadUntil ReadUntilFacts AsyncTransfer SocketOps SocketOpsFacts.

#[local] Open Scope nat_scope.

(** * Lines *)

(** [delim] ends after [n] bytes of [l] for the first time. *)
Definition first_end (delim l : buffer) (n : nat) : Prop :=
  n ≤ length l ∧ delim `suffix_of` take n l ∧ ∀ m, m < n → ¬ delim `suffix_of` take m l.

Lemma suffix_take_drop (delim l : buffer) i :
  delim `prefix_of` drop i l → i ≤ length l → delim `suffix_of` take (i + length delim) l.
Proof.
  intros [k Hk] Hi. exists (take i l). rewrite <- (take_drop i l) at 1.
  rewrite take_app, take_take, length_take, (Nat.min_r (i + length delim) i), (Nat.min_l i) by lia.
  replace (i + length delim - i) with (length delim) by lia. by rewrite Hk, take_app_length.
Qed.

Lemma suffix_take_prefix (delim l : buffer) m :
  m ≤ length l → delim `suffix_of` take m l → length delim ≤ m ∧ delim `prefix_of` drop (m - length delim) l.
Proof.
  intros Hm [k Hk]. pose proof (f_equal length Hk) as Hl. rewrite length_app, length_take in Hl.
  split; [lia|]. exists (drop m l). rewrite <- (take_drop m l) at 1. rewrite Hk, <- app_assoc.
  replace (m - length delim) with (length k) by lia. by rewrite drop_app_length.
Qed.

(** [first_occurrence] by the positions at which [delim] begins. *)
Lemma first_occurrence_at delim l :
  match first_occurrence delim l with
  | Some n => ∃ i, n = i + length delim ∧ i < length l ∧ delim `prefix_of` drop i l ∧
                ∀ j, j < i → ¬ delim `prefix_of` drop j l
  | None => ∀ j, j < length l → ¬ delim `prefix_of` drop j l
  end.
Proof.
  induction l as [|x l IH]; cbn [first_occurrence length]; [lia|].
  destruct (bool_decide_reflect (delim `prefix_of` x :: l)) as [Hp|Hp].
  - exists 0. split_and!; [done|lia|done|lia].
  - destruct (first_occurrence delim l) as [n|]; cbn [option_map].
    + destruct IH as (i & -> & Hi & Hpre & Hno). exists (S i). split_and!; [done|lia|done|].
      intros [|j] Hj; [done|]. apply Hno. lia.
    + intros [|j] Hj; [done|]. apply IH. lia.
Qed.

Lemma first_occurrence_some delim l n : first_occurrence delim l = Some n → first_end delim l n.
Proof.
  intros E. pose proof (first_occurrence_at delim l) as H. rewrite E in H.
  destruct H as (i & -> & Hi & Hp & Hno). pose proof (prefix_length _ _ Hp) as Hl. rewrite length_drop in Hl.
  split; [lia|]. split; [apply suffix_take_drop; [done|lia]|]. intros m Hm Hs.
  destruct (suffix_take_prefix delim l m) as [Hd Hpre]; [lia|done|]. apply (Hno (m - length delim)); [lia|done].
Qed.

Lemma first_occurrence_none delim l m :
  first_occurrence delim l = None → delim ≠ [] → ¬ delim `suffix_of` take m l.
Proof.
  intros E Hd Hs. pose proof (first_occurrence_at delim l) as H. rewrite E in H.
  destruct delim as [|c delim]; [done|].
  destruct (Nat.le_gt_cases m (length l)) as [Hm|Hm].
  - destruct (suffix_take_prefix _ l m Hm Hs) as [Hl Hpre].
    apply (H (m - length (c :: delim))); [cbn in *; lia|done].
  - rewrite take_ge in Hs by lia. rewrite <- (firstn_all l) in Hs.
    destruct (suffix_take_prefix _ l (length l) ltac:(done) Hs) as [Hl Hpre].
    apply (H (length l - length (c :: delim))); [cbn in *; lia|done].
Qed.

(** [look] is the search of the overloads of [read_until] for the delimiter. *)
Definition delimiter_search (delim : buffer) (look : search) : Prop :=
  look = search_string delim ∨ ∃ c, delim = [c] ∧ look = search_char c.

(** What holds of all searches with the laws holds of these. *)
Lemma delimiter_search_ind (P : search → Prop) delim look :
  delimiter_search delim look → (∀ look, SearchLaws look (first_occurrence delim) → P look) → P look.
Proof.
  intros [-> | (c & -> & ->)] HP; apply HP; [apply search_string_laws|apply search_char_laws].
Qed.

Section read_until.
  Context {B S : Type} `{DynamicBufferLaws B, StreamLaws S}.
  Context (not_found operation_aborted : error_code).

(** C7: [asio::read_until] with a delimiter, a character or a string, ends on
    every stream and dynamic buffer.  What was read from the stream is
    appended to the buffer and nothing else; without an error the number
    returned is where the delimiter first ends in the buffer, even when it
    arrived in several pieces; with one the number is 0, the delimiter is not
    in the buffer, and the buffer is full or the stream failed with the
    error. *)
Theorem read_until_first_match delim look (b : B) (s : S) :
  not_found ≠ 0%Z → delim ≠ [] → delimiter_search delim look → dyn_ok b →
  ∃ n ec b' s' d, read_until not_found look b s = Ret (n, ec, b', s') ∧
    dyn_ok b' ∧ data b' = data b ++ d ∧ max_size b' = max_size b ∧
    received s' = received s ++ d ∧ sent s' = sent s ∧
    if (ec =? 0)%Z then first_end delim (data b') n
    else n = 0 ∧ (∀ m, ¬ delim `suffix_of` take m (data b')) ∧
      (ec = not_found ∧ size b' = max_size b' ∨ ∃ k s1, read_some k s1 = ([], ec, s')).
Proof.
  intros Hnf Hd Hlook Hok. pattern look. apply (delimiter_search_ind _ delim look Hlook).
  clear look Hlook. intros look Hlook.
  destruct (read_until_spec not_found Hnf look (first_occurrence delim) b s Hok)
    as (n & ec & b' & s' & d & E & Hok' & Hd' & Hm & Hr & Hs & Hout).
  exists n, ec, b', s', d. split_and!; try done. revert Hout. unfold outcome_ok.
  destruct (ec =? 0)%Z; [by apply first_occurrence_some|].
  intros (-> & Hnone & Hcase). split_and!; [done| |done]. intros m. by apply first_occurrence_none.
Qed.
End read_until.

(** A connection on which a line arrives in two pieces, after a call that would
    block, and a stream buffer for at most 1000 bytes. *)
Definition two_pieces : sim_kernel :=
  mk_sim [Recv_later; Arrive [71; 69; 13]%Z; Recv_later; Arrive [10; 72]%Z; Recv_fail 104%Z]
    [Send_later; Accepts 1] [] [] 0%Z.

Definition two_pieces_socket : tcp_socket sim_kernel := mk_socket 5%Z stream_oriented two_pieces eq_refl.

Definition doubling (cap n : nat) : nat := max n (2 * cap).

#[local] Instance test_buffer : DynamicBuffer streambuf := streambuf_dynamic doubling.

Lemma doubling_ok cap n : n ≤ doubling cap n.
Proof. unfold doubling. lia. Qed.

#[local] Instance test_buffer_laws : @DynamicBufferLaws streambuf test_buffer :=
  streambuf_laws doubling doubling_ok.

Definition crlf : buffer := [13; 10]%Z.

Lemma read_until_first_match_witness :
  ∃ n ec b' s' d, read_until 1%Z (search_string crlf) (new_streambuf doubling 1000) two_pieces_socket
      = Ret (n, ec, b', s') ∧
    dyn_ok b' ∧ data b' = data (new_streambuf doubling 1000) ++ d ∧
    max_size b' = max_size (new_streambuf doubling 1000) ∧
    received s' = received two_pieces_socket ++ d ∧ sent s' = sent two_pieces_socket ∧
    if (ec =? 0)%Z then first_end crlf (data b') n
    else n = 0 ∧ (∀ m, ¬ crlf `suffix_of` take m (data b')) ∧
      (ec = 1%Z ∧ size b' = max_size b' ∨ ∃ k s1, read_some k s1 = ([], ec, s')).
Proof.
  apply (read_until_first_match 1%Z crlf (search_string crlf) (new_streambuf doubling 1000) two_pieces_socket);
    [done|done|by left|apply (new_streambuf_ok doubling doubling_ok)].
Defined.

(** What the witness computes. *)
Example two_pieces_line :
  match read_until 1%Z (search_string crlf) (new_streambuf doubling 1000) two_pieces_socket with
  | Ret (n, ec, b', _) => n = 4 ∧ ec = 0%Z ∧ data b' = [71; 69; 13; 10; 72]%Z
  | _ => False
  end.
Proof. vm_compute. done. Qed.

(** * Asynchronous operations *)

Section async.
  Context {B S : Type} `{DynamicBufferLaws B, StreamLaws S}.
  Context (not_found operation_aborted : error_code).

(** C9: [async_read_until] that nobody cancels calls its handler with the
    arguments [read_until] returns, and leaves the same bytes in the buffer and
    the same stream; only the memory of the buffer may differ, since the
    operation begins with an empty read where the function need not read. *)
Theorem async_read_until_agrees `{!EmptyLaws S} delim look (b : B) (s : S) :
  not_found ≠ 0%Z → delimiter_search delim look → dyn_ok b →
  ∃ n ec b1 b2 s', read_until not_found look b s = Ret (n, ec, b1, s') ∧
    async_read_until not_found operation_aborted look (λ _, false) b s = Ret (n, ec, b2, s') ∧
    dyn_ok b2 ∧ data b2 = data b1 ∧ max_size b2 = max_size b1.
Proof.
  intros Hnf Hlook Hok. pattern look. apply (delimiter_search_ind _ delim look Hlook).
  clear look Hlook. intros look Hlook.
  by apply (async_read_until_equiv not_found operation_aborted Hnf look (first_occurrence delim)).
Qed.
End async.

Lemma async_read_until_agrees_witness :
  ∃ n ec b1 b2 s',
    read_until 1%Z (search_char 10%Z) (new_streambuf doubling 4) two_pieces_socket = Ret (n, ec, b1, s') ∧
    async_read_until 1%Z 125%Z (search_char 10%Z) (λ _, false) (new_streambuf doubling 4) two_pieces_socket
      = Ret (n, ec, b2, s') ∧
    dyn_ok b2 ∧ data b2 = data b1 ∧ max_size b2 = max_size b1.
Proof.
  apply (async_read_until_agrees 1%Z 125%Z [10%Z]);
    [done|right; by exists 10%Z|apply (new_streambuf_ok doubling doubling_ok)].
Defined.

Section async_transfer.
  Context {S : Type} `{StreamLaws S, !EmptyLaws S}.

(** C25: [async_write] and [async_read] with any completion condition, when
    nobody cancels them, call their handlers with what [asio::write] and
    [asio::read] return, and have transferred the same bytes. *)
Theorem async_transfers_agree operation_aborted cond k bs (s : S) :
  0 < k →
  async_write operation_aborted cond k (λ _, false) bs s = write_cond cond k bs s ∧
  async_read operation_aborted cond k (λ _, false) bs s = read_cond cond k bs s ∧
  (∃ w, write_cond cond k bs s = Ret w) ∧ ∃ r, read_cond cond k bs s = Ret r.
Proof.
  intros Hk. destruct (write_cond_spec cond k Hk bs s) as (n & ec & s' & Ew & _).
  destruct (read_cond_spec cond k Hk bs s) as (m & ec2 & s2 & d & Er & _).
  split_and!; [by apply async_write_equiv| |by eexists|by eexists].
  rewrite Er. by apply async_read_equiv.
Qed.
End async_transfer.

Lemma async_transfers_agree_witness :
  let bs := [[1; 2]; []; [3; 4; 5; 6]]%Z in
  async_write 125%Z (transfer_at_least 3) 16 (λ _, false) bs two_pieces_socket =
    write_cond (transfer_at_least 3) 16 bs two_pieces_socket ∧
  async_read 125%Z (transfer_at_least 3) 16 (λ _, false) bs two_pieces_socket =
    read_cond (transfer_at_least 3) 16 bs two_pieces_socket ∧
  (∃ w, write_cond (transfer_at_least 3) 16 bs two_pieces_socket = Ret w) ∧
  ∃ r, read_cond (transfer_at_least 3) 16 bs two_pieces_socket = Ret r.
Proof. apply (async_transfers_agree 125%Z (transfer_at_least 3) 16). lia. Defined.

(** What the witness computes: both pieces are read, the second write goes on. *)
Example two_pieces_transfer :
  match async_read 125%Z (transfer_at_least 4) 16 (λ _, false) [[0; 0]; [0; 0; 0; 0]]%Z two_pieces_socket with
  | Ret (n, ec, (_, d)) => n = 5 ∧ ec = 0%Z ∧ d = [71; 69; 13; 10; 72]%Z
  | _ => False
  end.
Proof. vm_compute. done. Qed.

(** * Sockets *)

Section sockets.
  Context {K : Type} `{KernelLaws K}.

(** C36: [sync_recv] and [sync_send] on a kernel with the rules of POSIX
    sockets, on a valid or invalid descriptor, of a stream or not, and in
    either mode, return unless the kernel goes on to refuse the transfer and
    to report the descriptor as ready: they have returned by the first time it
    does not.  They transfer what they report; an error comes with no bytes,
    and on a stream success comes with some unless none were asked for.  The
    socket reports that it would block only if the user has made it
    non-blocking, whatever mode Asio itself has put the descriptor in, or if
    [poll] itself has failed with that error.  Setting either mode keeps the
    descriptor and the state of the socket in agreement, also when it
    fails. *)
Theorem socket_calls s state size d value ec (k : K) fuel :
  (refused_recv fuel s size k = false →
   ∃ d ec k', sync_recv fuel s state size k = Ret (d, ec, k') ∧
     length d ≤ size ∧ k_received s k' = k_received s k ++ d ∧ k_sent s k' = k_sent s k ∧
     (ec ≠ 0%Z → d = []) ∧
     (ec = 0%Z → has state stream_oriented = true → 0 < size → 0 < length d) ∧
     (blocks ec = true →
      has state user_set_non_blocking = true ∨ ∃ k1 k2 : K, k_poll s false (-1)%Z k1 = (Failed ec, k2))) ∧
  (refused_send fuel s d k = false →
   ∃ n ec k', sync_send fuel s state d k = Ret (n, ec, k') ∧
     n ≤ length d ∧ k_sent s k' = k_sent s k ++ take n d ∧ k_received s k' = k_received s k ∧
     (ec ≠ 0%Z → n = 0) ∧ (ec = 0%Z → 0 < length d → 0 < n) ∧
     (blocks ec = true →
      has state user_set_non_blocking = true ∨ ∃ k1 k2 : K, k_poll s true (-1)%Z k1 = (Failed ec, k2))) ∧
  (k_nonblocking s k = has state non_blocking →
   (let '(_, state', _, k') := set_user_non_blocking s state value ec k in
    k_nonblocking s k' = has state' non_blocking) ∧
   (let '(_, state', _, k') := set_internal_non_blocking s state value ec k in
    k_nonblocking s k' = has state' non_blocking ∧
    has state' user_set_non_blocking = has state user_set_non_blocking)).
Proof.
  split; [apply sync_recv_spec|]. split; [apply sync_send_spec|]. intros Hm. split.
  - destruct (set_user_non_blocking s state value ec k) as [[[ok state'] ec'] k'] eqn:E.
    by destruct (set_user_non_blocking_spec _ _ _ _ _ _ _ _ _ Hm E).
  - destruct (set_internal_non_blocking s state value ec k) as [[[ok state'] ec'] k'] eqn:E.
    by destruct (set_internal_non_blocking_spec _ _ _ _ _ _ _ _ _ Hm E) as (? & ? & _).
Qed.
End sockets.

(** A receive is refused once, then gets the first piece; a send is refused
    once, then the kernel takes two bytes. *)
Lemma socket_calls_witness :
  (∃ d ec k', sync_recv 2 5%Z stream_oriented 16 two_pieces = Ret (d, ec, k') ∧
     length d ≤ 16 ∧ k_received 5%Z k' = k_received 5%Z two_pieces ++ d ∧ k_sent 5%Z k' = k_sent 5%Z two_pieces) ∧
  (∃ n ec k', sync_send 2 5%Z stream_oriented crlf two_pieces = Ret (n, ec, k') ∧
     n ≤ length crlf ∧ k_sent 5%Z k' = k_sent 5%Z two_pieces ++ take n crlf) ∧
  (let '(_, state', _, k') := set_user_non_blocking 5%Z stream_oriented true 0%Z two_pieces in
   k_nonblocking 5%Z k' = has state' non_blocking).
Proof.
  destruct (socket_calls 5%Z stream_oriented 16 crlf true 0%Z two_pieces 2) as (Hr & Hs & Hm). split_and!.
  - destruct Hr as (d & ec & k' & E & ? & ? & ? & _); [vm_compute; reflexivity|]. by exists d, ec, k'.
  - destruct Hs as (n & ec & k' & E & ? & ? & _); [vm_compute; reflexivity|]. by exists n, ec, k'.
  - apply Hm. vm_compute. reflexivity.
Defined.
