(* ===== verification/OpQueue.v ===== *)
(** [op_queue] (detail/op_queue.hpp): a queue of operations linked through
    their member [next_], in a memory that several queues share.  The lists of
    [TimerQueue] and [Strand] stand for such queues. *)

From stdpp Require Import gmap.
From S2P Require Import Prelude.

#[local] Open Scope nat_scope.

(** * The code *)

(** Operations by their addresses, and their members [next_]; [None] is the
    null pointer.  An operation that is not in the memory does not exist. *)
Abbreviation operation := nat.
Abbreviation memory := (gmap operation (option operation)).

Record op_queue : Type := mk_op_queue {
  front_ : option operation;
  back_ : option operation
}.

Definition new_op_queue : op_queue := mk_op_queue None None.

Abbreviation result := (outcome Empty_set).

(** [op_queue_access::next], to read and to write. *)
Definition next (o : operation) (m : memory) : result (option operation) :=
  match m !! o with Some n => Ret n | None => Undef end.

Definition set_next (o : operation) (n : option operation) (m : memory) : result memory :=
  match m !! o with Some _ => Ret (<[o := n]> m) | None => Undef end.

Definition front (q : op_queue) : option operation := front_ q.

Definition empty (q : op_queue) : bool := match front_ q with None => true | Some _ => false end.

Definition pop (q : op_queue) (m : memory) : result (op_queue * memory) :=
  match front_ q with
  | None => Ret (q, m)
  | Some tmp =>
      f ← next tmp m;
      let b := match f with None => None | Some _ => back_ q end in
      m ← set_next tmp None m;
      Ret (mk_op_queue f b, m)
  end.

Definition push (h : operation) (q : op_queue) (m : memory) : result (op_queue * memory) :=
  m ← set_next h None m;
  match back_ q with
  | Some b => m ← set_next b (Some h) m; Ret (mk_op_queue (front_ q) (Some h), m)
  | None => Ret (mk_op_queue (Some h) (Some h), m)
  end.

(** [push(q)]: this queue, the other one and the memory. *)
Definition push_queue (other q : op_queue) (m : memory) : result (op_queue * op_queue * memory) :=
  match front_ other with
  | None => Ret (q, other, m)
  | Some other_front =>
      match back_ q with
      | Some b =>
          m ← set_next b (Some other_front) m;
          Ret (mk_op_queue (front_ q) (back_ other), new_op_queue, m)
      | None => Ret (mk_op_queue (Some other_front) (back_ other), new_op_queue, m)
      end
  end.

Definition is_enqueued (o : operation) (q : op_queue) (m : memory) : result bool :=
  n ← next o m;
  Ret (match n with Some _ => true | None => bool_decide (back_ q = Some o) end).

(** The destructor: the operations it destroys, in order; one that has been
    destroyed does not exist any more. *)
Fixpoint destroy_queue (fuel : nat) (q : op_queue) (m : memory) : result (list operation * memory) :=
  match fuel with
  | O => Diverge
  | S fuel' =>
      match front_ q with
      | None => Ret ([], m)
      | Some o =>
          r ← pop q m;
          let '(q, m) := r in
          r ← destroy_queue fuel' q (delete o m);
          let '(l, m) := r in
          Ret (o :: l, m)
      end
  end.

(** * The list of a queue *)

(** The queue's members and the links of its operations are those of [l]. *)
Record represents (m : memory) (q : op_queue) (l : list operation) : Prop := {
  rep_front : front_ q = head l;
  rep_back : back_ q = last l;
  rep_nodup : NoDup l;
  rep_links i o : l !! i = Some o → m !! o = Some (l !! S i)
}.

Lemma new_represents m : represents m new_op_queue [].
Proof. split; [done|done|constructor|done]. Qed.

(** A queue does not notice what happens to other operations. *)
Lemma represents_frame m m' q l :
  represents m q l → (∀ o, o ∈ l → m' !! o = m !! o) → represents m' q l.
Proof.
  intros [Hf Hb Hn Hl] Hm. split; [done..|]. intros i o Ho. rewrite Hm; [by apply Hl|].
  by eapply list_elem_of_lookup_2.
Qed.

Lemma last_lookup_end {A} (l : list A) x : last l = Some x → l !! pred (length l) = Some x.
Proof. by rewrite last_lookup. Qed.

(** Linking the last operation of one chain to the first of another. *)
Lemma links_app (m : memory) (l1 l2 : list operation) b :
  NoDup l1 → last l1 = Some b → (∀ o, o ∈ l1 → o ∈ l2 → False) →
  (∀ i o, l1 !! i = Some o → m !! o = Some (l1 !! S i)) →
  (∀ i o, l2 !! i = Some o → m !! o = Some (l2 !! S i)) →
  ∀ i o, (l1 ++ l2) !! i = Some o → <[b := head l2]> m !! o = Some ((l1 ++ l2) !! S i).
Proof.
  intros Hn Hb Hdisj H1 H2 i o Ho. apply last_lookup_end in Hb.
  pose proof (lookup_lt_Some _ _ _ Hb) as Hlt.
  apply lookup_app_Some in Ho as [Ho|[Hi Ho]].
  - destruct (decide (o = b)) as [->|Hne].
    + assert (i = pred (length l1)) as -> by (by eapply NoDup_lookup).
      rewrite lookup_insert_eq, lookup_app_r by lia. replace (S (pred (length l1)) - length l1) with 0 by lia.
      by destruct l2.
    + rewrite lookup_insert_ne by done. rewrite (H1 i o Ho). pose proof (lookup_lt_Some _ _ _ Ho).
      destruct (decide (S i = length l1)) as [E|].
      * replace (pred (length l1)) with i in Hb by lia. congruence.
      * by rewrite lookup_app_l by lia.
  - rewrite lookup_insert_ne.
    + rewrite (H2 _ o Ho), lookup_app_r by lia. do 2 f_equal. lia.
    + intros ->. apply (Hdisj o); by eapply list_elem_of_lookup_2.
Qed.

(** * The operations *)

Lemma push_spec m q l h :
  represents m q l → is_Some (m !! h) → h ∉ l →
  ∃ q' m', push h q m = Ret (q', m') ∧ represents m' q' (l ++ [h]) ∧ dom m' = dom m ∧
    ∀ o, o ≠ h → o ∉ l → m' !! o = m !! o.
Proof.
  intros [Hf Hb Hn Hl] [n Hh] Hnot. unfold push, set_next. rewrite Hh. cbn [mbind outcome_bind].
  assert (∀ i o, l !! i = Some o → <[h:=None]> m !! o = Some (l !! S i)) as Hl'.
  { intros i o Ho. rewrite lookup_insert_ne; [by apply Hl|]. intros ->. apply Hnot.
    by eapply list_elem_of_lookup_2. }
  assert (NoDup (l ++ [h])) as Hn'.
  { apply NoDup_app. split_and!; [done| |apply NoDup_singleton]. intros o Ho ->%list_elem_of_singleton. done. }
  assert (is_Some (m !! h)) as Hsh by (by eexists). destruct (back_ q) as [b|] eqn:Eb.
  - assert (l !! pred (length l) = Some b) as Hlb by (by apply last_lookup_end).
    pose proof (Hl' _ _ Hlb) as Hmb. rewrite Hmb. cbn [mbind outcome_bind].
    do 2 eexists. split; [done|]. split; [|split].
    + split; cbn [front_ back_]; [rewrite Hf; by destruct l|by rewrite last_snoc|done|].
      apply (links_app _ l [h] b); [done|done| |done|].
      * by intros o Ho ->%list_elem_of_singleton.
      * intros [|i] o; [intros [= <-]; by rewrite lookup_insert_eq|done].
    + assert (b ∈ dom m) by (apply elem_of_dom; apply Hl in Hlb; by eexists).
      assert (h ∈ dom m) by (by apply elem_of_dom). rewrite !dom_insert_L. set_solver.
    + intros o Ho1 Ho2. rewrite !lookup_insert_ne; [done|done|]. intros ->. apply Ho2.
      by eapply list_elem_of_lookup_2.
  - assert (l = []) as -> by (by apply last_None). do 2 eexists. split; [done|]. split; [|split].
    + split; [done|done|done|]. intros [|i] o; [intros [= <-]; cbn; by rewrite lookup_insert_eq|done].
    + assert (h ∈ dom m) by (by apply elem_of_dom). rewrite dom_insert_L. set_solver.
    + intros o Ho _. by rewrite lookup_insert_ne.
Qed.

Lemma pop_spec m q o l :
  represents m q (o :: l) →
  ∃ q' m', pop q m = Ret (q', m') ∧ front q = Some o ∧ represents m' q' l ∧ m' = <[o := None]> m.
Proof.
  intros [Hf Hb Hn Hl]. unfold pop, next, set_next, front. rewrite Hf. cbn [head].
  pose proof (Hl 0 o eq_refl) as Ho. rewrite Ho. cbn [mbind outcome_bind].
  do 2 eexists. split; [done|]. split; [done|]. split; [|done]. apply NoDup_cons in Hn as [Hno Hn].
  change (o :: l) with ([o] ++ l) in Hl. split; cbn [front_ back_]; [|rewrite Hb|done|].
  - by destruct l.
  - by destruct l.
  - intros i x Hx. rewrite lookup_insert_ne; [exact (Hl (S i) x Hx)|]. intros ->. apply Hno.
    by eapply list_elem_of_lookup_2.
Qed.

Lemma pop_empty m q : represents m q [] → pop q m = Ret (q, m) ∧ front q = None.
Proof. intros [Hf _ _ _]. unfold pop, front. by rewrite Hf. Qed.

Lemma push_queue_spec m q l other l2 :
  represents m q l → represents m other l2 → (∀ o, o ∈ l → o ∈ l2 → False) →
  ∃ q' other' m', push_queue other q m = Ret (q', other', m') ∧ represents m' q' (l ++ l2) ∧
    represents m' other' [] ∧ dom m' = dom m ∧ ∀ o, o ∉ l → m' !! o = m !! o.
Proof.
  intros Hq Ho Hdisj. pose proof Hq as [Hf Hb Hn Hl]. pose proof Ho as [Hf2 Hb2 Hn2 Hl2].
  unfold push_queue. rewrite Hf2. destruct l2 as [|x l2].
  { cbn [head]. do 3 eexists. split; [done|]. by rewrite app_nil_r. }
  cbn [head]. assert (NoDup (l ++ x :: l2)) as Hn'.
  { apply NoDup_app. split_and!; [done|by eauto|done]. }
  destruct (back_ q) as [b|] eqn:Eb.
  - assert (l !! pred (length l) = Some b) as Hlb by (by apply last_lookup_end).
    pose proof (Hl _ _ Hlb) as Hmb. unfold set_next. rewrite Hmb. cbn [mbind outcome_bind].
    do 3 eexists. split; [done|]. split_and!; [|by apply new_represents| |].
    + split; cbn [front_ back_]; [rewrite Hf; by destruct l| |done|].
      * rewrite Hb2, last_app_cons. done.
      * by apply (links_app m l (x :: l2) b).
    + assert (b ∈ dom m) by (apply elem_of_dom; by eexists). rewrite dom_insert_L. set_solver.
    + intros o Hno. rewrite lookup_insert_ne; [done|]. intros ->. apply Hno. by eapply list_elem_of_lookup_2.
  - assert (l = []) as -> by (by apply last_None). do 3 eexists. split; [done|].
    split_and!; [|by apply new_represents|done|done]. by split.
Qed.

Lemma is_enqueued_spec m q l o n :
  represents m q l → m !! o = Some n →
  is_enqueued o q m = Ret (match n with Some _ => true | None => bool_decide (o ∈ l) end).
Proof.
  intros [Hf Hb Hn Hl] Ho. unfold is_enqueued, next. rewrite Ho. cbn [mbind outcome_bind].
  destruct n as [n|]; [done|]. f_equal. apply bool_decide_ext. rewrite Hb. split.
  - intros Hlast. apply last_lookup_end in Hlast. by eapply list_elem_of_lookup_2.
  - intros [i Hi]%list_elem_of_lookup. pose proof (Hl i o Hi) as Hm. rewrite Ho in Hm. injection Hm as Hm.
    symmetry in Hm. apply lookup_ge_None in Hm. pose proof (lookup_lt_Some _ _ _ Hi).
    rewrite last_lookup. by replace (pred (length l)) with i by lia.
Qed.

Lemma destroy_queue_spec fuel m q l :
  represents m q l → length l < fuel →
  ∃ m', destroy_queue fuel q m = Ret (l, m') ∧ (∀ o, o ∈ l → m' !! o = None) ∧
    ∀ o, o ∉ l → m' !! o = m !! o.
Proof.
  revert fuel m q. induction l as [|o l IH]; intros [|fuel] m q Hq Hlt; cbn [length] in Hlt; try lia;
    cbn [destroy_queue].
  - rewrite (rep_front _ _ _ Hq). cbn [head]. exists m. split_and!; [done| |done]. intros o []%not_elem_of_nil.
  - rewrite (rep_front _ _ _ Hq). cbn [head].
    pose proof (rep_nodup _ _ _ Hq) as [Hno Hn]%NoDup_cons.
    destruct (pop_spec m q o l Hq) as (q1 & m1 & -> & _ & Hq1 & ->). cbn [mbind outcome_bind].
    destruct (IH fuel (delete o (<[o:=None]> m)) q1) as (m' & -> & Hin & Hout); [|lia|].
    { apply (represents_frame _ _ _ _ Hq1). intros x Hx. rewrite lookup_delete_ne; [done|]. by intros ->. }
    cbn [mbind outcome_bind]. exists m'. split; [done|]. split.
    + intros x [->|Hx]%elem_of_cons; [|by apply Hin]. by rewrite Hout, lookup_delete_eq.
    + intros x [Hne Hx]%not_elem_of_cons. by rewrite Hout, lookup_delete_ne, lookup_insert_ne.
Qed.

(** * Several queues in one memory *)

(** The calls on a family of queues, by their indices. *)
Inductive queue_call : Type :=
| Push (i : nat) (o : operation)
| Pop (i : nat)
| Push_queue (i j : nat).

(** The front a call has seen, the queues and the memory. *)
Definition run_call (c : queue_call) (qs : list op_queue) (m : memory) :
    result (option operation * list op_queue * memory) :=
  match c with
  | Push i o =>
      match qs !! i with
      | Some q => r ← push o q m; let '(q, m) := r in Ret (None, <[i := q]> qs, m)
      | None => Undef
      end
  | Pop i =>
      match qs !! i with
      | Some q => r ← pop q m; let '(q', m) := r in Ret (front q, <[i := q']> qs, m)
      | None => Undef
      end
  | Push_queue i j =>
      match qs !! i, qs !! j with
      | Some q, Some other =>
          r ← push_queue other q m;
          let '(q, other, m) := r in Ret (None, <[j := other]> (<[i := q]> qs), m)
      | _, _ => Undef
      end
  end.

Fixpoint run_calls (cs : list queue_call) (qs : list op_queue) (m : memory) :
    result (list (option operation) * list op_queue * memory) :=
  match cs with
  | [] => Ret ([], qs, m)
  | c :: cs =>
      r ← run_call c qs m; let '(x, qs, m) := r in
      r ← run_calls cs qs m; let '(xs, qs, m) := r in
      Ret (x :: xs, qs, m)
  end.

(** The same on lists: [None] if a queue does not exist, an operation that
    does not exist or is already in a queue is pushed, or a queue is pushed on
    itself. *)
Definition list_call (ops : gset operation) (c : queue_call) (ls : list (list operation)) :
    option (option operation * list (list operation)) :=
  match c with
  | Push i o =>
      l ← ls !! i;
      if bool_decide (o ∈ ops ∧ Forall (λ l, o ∉ l) ls) then Some (None, <[i := l ++ [o]]> ls) else None
  | Pop i => l ← ls !! i; Some (head l, <[i := tail l]> ls)
  | Push_queue i j =>
      l ← ls !! i; l2 ← ls !! j;
      if bool_decide (i ≠ j) then Some (None, <[j := []]> (<[i := l ++ l2]> ls)) else None
  end.

Fixpoint list_calls (ops : gset operation) (cs : list queue_call) (ls : list (list operation)) :
    option (list (option operation) * list (list operation)) :=
  match cs with
  | [] => Some ([], ls)
  | c :: cs =>
      '(x, ls) ← list_call ops c ls; '(xs, ls) ← list_calls ops cs ls; Some (x :: xs, ls)
  end.

(** Every queue has its list, and no operation is in two. *)
Record related (m : memory) (qs : list op_queue) (ls : list (list operation)) : Prop := {
  rel_queues : Forall2 (represents m) qs ls;
  rel_disjoint i j li lj o : ls !! i = Some li → ls !! j = Some lj → o ∈ li → o ∈ lj → i = j
}.

(** One queue changes, and the memory of its operations. *)
Lemma related_insert m m' qs ls i q' l l' :
  related m qs ls → ls !! i = Some l → represents m' q' l' →
  (∀ o, o ∈ l' → o ∈ l ∨ Forall (λ k, o ∉ k) ls) →
  (∀ o, o ∉ l → (∃ k, k ∈ ls ∧ o ∈ k) → m' !! o = m !! o) →
  related m' (<[i := q']> qs) (<[i := l']> ls).
Proof.
  intros [Hq Hd] Hi Hq' Hnew Hm. split.
  - apply Forall2_same_length_lookup. split.
    { rewrite !length_insert. by eapply Forall2_length. }
    intros j q k Hqj Hkj. destruct (decide (j = i)) as [->|Hne].
    + apply lookup_lt_Some in Hi. pose proof Hi as Hi2. rewrite <- (Forall2_length _ _ _ Hq) in Hi2.
      rewrite list_lookup_insert_eq in Hqj by done. rewrite list_lookup_insert_eq in Hkj by done. congruence.
    + rewrite list_lookup_insert_ne in Hqj by done. rewrite list_lookup_insert_ne in Hkj by done.
      apply (represents_frame m); [by eapply Forall2_lookup_lr|]. intros o Ho. apply Hm.
      * intros Hol. by specialize (Hd i j l k o Hi Hkj Hol Ho).
      * exists k. split; [by eapply list_elem_of_lookup_2|done].
  - assert (∀ j k o, j ≠ i → ls !! j = Some k → o ∈ l' → o ∈ k → False) as Hother.
    { intros j k o Hne Hj Ho Hok. destruct (Hnew o Ho) as [Hol|Hnone].
      - by specialize (Hd i j l k o Hi Hj Hol Hok).
      - rewrite Forall_lookup in Hnone. by apply (Hnone j k Hj). }
    intros a b la lb o [(<- & -> & _)|[Hna Ha]]%list_lookup_insert_Some
      [(<- & -> & _)|[Hnb Hb]]%list_lookup_insert_Some Hoa Hob.
    + done.
    + exfalso. by apply (Hother b lb o).
    + exfalso. by apply (Hother a la o).
    + by apply (Hd a b la lb o).
Qed.

(** Both queues of [push] change. *)
Lemma related_push_queue m m' qs ls i j q' other' l l2 :
  related m qs ls → ls !! i = Some l → ls !! j = Some l2 → i ≠ j →
  represents m' q' (l ++ l2) → represents m' other' [] → (∀ o, o ∉ l → m' !! o = m !! o) →
  related m' (<[j := other']> (<[i := q']> qs)) (<[j := []]> (<[i := l ++ l2]> ls)).
Proof.
  intros [Hq Hd] Hi Hj Hij Hq' Hother Hm.
  assert (i < length ls ∧ j < length ls) as [Hil Hjl] by (split; by eapply lookup_lt_Some).
  pose proof (Forall2_length _ _ _ Hq) as Hlen. split.
  - apply Forall2_same_length_lookup. split; [by rewrite !length_insert|].
    intros a x k Hx Hk. destruct (decide (a = j)) as [->|Hnj].
    { rewrite list_lookup_insert_eq in Hx by (rewrite length_insert; lia).
      rewrite list_lookup_insert_eq in Hk by (rewrite length_insert; lia). congruence. }
    rewrite list_lookup_insert_ne in Hx by done. rewrite list_lookup_insert_ne in Hk by done.
    destruct (decide (a = i)) as [->|Hni].
    { rewrite list_lookup_insert_eq in Hx by lia. rewrite list_lookup_insert_eq in Hk by lia. congruence. }
    rewrite list_lookup_insert_ne in Hx by done. rewrite list_lookup_insert_ne in Hk by done.
    apply (represents_frame m); [by eapply Forall2_lookup_lr|]. intros o Ho. apply Hm. intros Hol.
    by specialize (Hd i a l k o Hi Hk Hol Ho).
  - assert (∀ a k o, <[j:=[]]> (<[i:=l ++ l2]> ls) !! a = Some k → o ∈ k →
      ∃ b k', ls !! b = Some k' ∧ o ∈ k' ∧ a = if decide (b = j) then i else b) as Hfrom.
    { intros a k o [(<- & <- & _)|[Hnj Ha]]%list_lookup_insert_Some Ho; [by apply not_elem_of_nil in Ho|].
      apply list_lookup_insert_Some in Ha as [(<- & <- & _)|[Hni Ha]].
      - apply elem_of_app in Ho as [Ho|Ho]; [exists i, l|exists j, l2]; split_and!; try done.
        + by rewrite decide_False.
        + by rewrite decide_True.
      - exists a, k. split_and!; try done. by rewrite decide_False. }
    intros a b la lb o Ha Hb Hoa Hob. destruct (Hfrom a la o Ha Hoa) as (a' & ka & Ha' & Hoa' & ->),
      (Hfrom b lb o Hb Hob) as (b' & kb & Hb' & Hob' & ->).
    by rewrite (Hd a' b' ka kb o Ha' Hb' Hoa' Hob').
Qed.

Lemma run_call_related c m qs ls x ls' :
  related m qs ls → list_call (dom m) c ls = Some (x, ls') →
  ∃ qs' m', run_call c qs m = Ret (x, qs', m') ∧ related m' qs' ls' ∧ dom m' = dom m.
Proof.
  intros Hrel Hc. pose proof Hrel as [Hq Hd].
  assert (∀ i l, ls !! i = Some l → ∃ q, qs !! i = Some q ∧ represents m q l) as Hlook.
  { intros i l Hi. destruct (Forall2_lookup_r _ _ _ _ _ Hq Hi) as (q & ? & ?). by exists q. }
  destruct c as [i o|i|i j]; cbn [list_call run_call] in *.
  - destruct (ls !! i) as [l|] eqn:Hi; cbn [mbind option_bind] in Hc; [|done].
    case_bool_decide as Ho; [|done]. injection Hc as <- <-. destruct Ho as [Ho Hnone].
    destruct (Hlook i l Hi) as (q & -> & Hrep).
    pose proof (proj1 (Forall_lookup _ _) Hnone i l Hi) as Hol. cbn beta in Hol.
    destruct (push_spec m q l o Hrep (proj1 (elem_of_dom _ _) Ho) Hol) as (q' & m' & -> & Hrep' & Hdom & Hm).
    cbn [mbind outcome_bind]. do 2 eexists. split; [done|]. split; [|done].
    eapply related_insert; [done..| |].
    + intros y [Hy| ->%list_elem_of_singleton]%elem_of_app; [by left|by right].
    + intros y Hy (k & [j Hj]%list_elem_of_lookup & Hyk). apply Hm; [|done]. intros ->.
      by apply (proj1 (Forall_lookup _ _) Hnone j k Hj).
  - destruct (ls !! i) as [l|] eqn:Hi; cbn [mbind option_bind] in Hc; [|done]. injection Hc as <- <-.
    destruct (Hlook i l Hi) as (q & -> & Hrep). destruct l as [|o l].
    + destruct (pop_empty m q Hrep) as [-> ->]. cbn [mbind outcome_bind head tail].
      do 2 eexists. split; [done|]. split; [|done]. by eapply related_insert; [done..| |]; auto.
    + destruct (pop_spec m q o l Hrep) as (q' & m' & -> & -> & Hrep' & ->). cbn [mbind outcome_bind head tail].
      do 2 eexists. split; [done|]. split.
      * eapply related_insert; [done..| |]; [intros y Hy; left; by apply elem_of_cons; right|].
        intros y [Hy _]%not_elem_of_cons _. by rewrite lookup_insert_ne.
      * assert (o ∈ dom m); [|rewrite dom_insert_L; set_solver]. apply elem_of_dom.
        eexists. by apply (rep_links _ _ _ Hrep 0).
  - destruct (ls !! i) as [l|] eqn:Hi; cbn [mbind option_bind] in Hc; [|done].
    destruct (ls !! j) as [l2|] eqn:Hj; cbn [mbind option_bind] in Hc; [|done].
    case_bool_decide as Hij; [|done]. injection Hc as <- <-.
    destruct (Hlook i l Hi) as (q & -> & Hrep), (Hlook j l2 Hj) as (q2 & -> & Hrep2).
    assert (∀ o, o ∈ l → o ∈ l2 → False) as Hdisj by (intros o H1 H2; by specialize (Hd i j l l2 o Hi Hj H1 H2)).
    destruct (push_queue_spec m q l q2 l2 Hrep Hrep2 Hdisj) as (q' & q2' & m' & -> & Hrep' & Hrep2' & Hdom & Hm).
    cbn [mbind outcome_bind]. do 2 eexists. split; [done|]. split; [|done].
    apply related_push_queue with (m := m) (l := l) (l2 := l2); done.
Qed.
