(* ===== verification/Strand.v ===== *)
(** Strands: [strand_executor_service] (detail/strand_executor_service.hpp,
    detail/impl/strand_executor_service.hpp and .ipp), which run handlers one
    at a time and in order on an executor with any number of threads.

    The critical sections under the mutex of the strand, and the accesses of
    [ready_queue_] outside, are functions on the strand; the threads that run
    them are stacks of frames of a step relation.  The queues are lists here,
    which [OpQueue] justifies. *)

From S2P Require Import Prelude.

#[local] Open Scope nat_scope.

(** An operation that wraps a handler, by its address. *)
Abbreviation op := nat.

(** * The strand *)

Record strand_impl : Type := mk_strand {
  locked_ : bool;
  shutdown_ : bool;
  waiting_queue_ : list op;
  ready_queue_ : list op
}.

(** What [create_implementation] makes, and the index of its mutex in the pool
    that all strands share; [address] and [salt] are 64-bit numbers. *)
Definition create_implementation : strand_impl := mk_strand false false [] [].

Definition num_mutexes : Z := 193.

Definition mutex_index (address salt : Z) : Z :=
  let w z := (z `mod` 2 ^ 64)%Z in
  let i := w (address + Z.shiftr address 3)%Z in
  let i := Z.lxor i (w (salt + 0x9e3779b9 + w (Z.shiftl i 6) + Z.shiftr i 2)%Z) in
  (i `mod` num_mutexes)%Z.

(** [enqueue] under the mutex: the operation is destroyed, queued for later, or
    the caller has acquired the strand, which then pushes the operation on the
    ready queue without the mutex. *)
Inductive enqueued : Type := Destroyed | Enqueued | Acquired.

Definition enqueue (impl : strand_impl) (o : op) : enqueued * strand_impl :=
  if shutdown_ impl then (Destroyed, impl)
  else if locked_ impl then
    (Enqueued, mk_strand (locked_ impl) (shutdown_ impl) (waiting_queue_ impl ++ [o]) (ready_queue_ impl))
  else (Acquired, mk_strand true (shutdown_ impl) (waiting_queue_ impl) (ready_queue_ impl)).

Definition push_ready (impl : strand_impl) (o : op) : strand_impl :=
  mk_strand (locked_ impl) (shutdown_ impl) (waiting_queue_ impl) (ready_queue_ impl ++ [o]).

Definition push_waiting_to_ready (impl : strand_impl) : bool * strand_impl :=
  let ready := ready_queue_ impl ++ waiting_queue_ impl in
  let more_handlers := match ready with [] => false | _ => true end in
  (more_handlers, mk_strand more_handlers (shutdown_ impl) [] ready).

(** The head of the loop of [run_ready_handlers]. *)
Definition pop_ready (impl : strand_impl) : option (op * strand_impl) :=
  match ready_queue_ impl with
  | [] => None
  | o :: ready => Some (o, mk_strand (locked_ impl) (shutdown_ impl) (waiting_queue_ impl) ready)
  end.

(** The part of [shutdown] for one strand: the operations that are destroyed. *)
Definition shutdown (impl : strand_impl) : list op * strand_impl :=
  (waiting_queue_ impl ++ ready_queue_ impl, mk_strand (locked_ impl) true [] []).

(** * Submitting a function *)

(** [do_execute], for an executor that is never blocking or not, [dispatch],
    [post] and [defer]. *)
Inductive submission : Type := Execute (never_blocking : bool) | Dispatch | Post | Defer.

(** Whether the function runs at once when the thread is in the strand. *)
Definition runs_inside (how : submission) : bool :=
  match how with Execute never => negb never | Dispatch => true | Post | Defer => false end.

(** Whether the executor may run what it is given before it returns. *)
Definition may_run_inline (how : submission) : bool :=
  match how with Execute never => negb never | Dispatch => true | Post | Defer => false end.

(** * Threads *)

(** What a thread is in the middle of, on behalf of the strand: it has acquired
    the strand, in [enqueue] or behind it, it is at the head of the loop of
    [run_ready_handlers], runs a handler, or is in the destructor of
    [on_invoker_exit], before or behind [push_waiting_to_ready]. *)
Inductive frame : Type :=
| Pushing (o : op) (how : submission)
| Scheduling (how : submission)
| Running
| Handler (o : op)
| Exiting
| Rescheduling.

(** The frames of a thread, the innermost first. *)
Abbreviation stack := (list frame).

(** [running_in_this_thread]: the strand's context is on the thread's stack. *)
Definition running_in_this_thread (st : stack) : bool :=
  existsb (λ f, match f with Running => true | _ => false end) st.

(** Code of the user runs: outside the strand, or a handler. *)
Definition user_code (st : stack) : bool :=
  match st with [] => true | Handler _ :: _ => true | _ => false end.

(** The strand, the invokers its executor still has to run, the threads, and
    the history: what [enqueue] was given, in the order of its critical
    sections, what [run_ready_handlers] has started, and what was destroyed. *)
Record system : Type := mk_system {
  impl : strand_impl;
  invokers : nat;
  threads : list stack;
  given : list op;
  started : list op;
  destroyed : list op
}.

Definition init_system (n : nat) : system :=
  mk_system create_implementation 0 (replicate n []) [] [] [].

Definition set_thread (t : nat) (st : stack) (s : system) : system :=
  mk_system (impl s) (invokers s) (<[t := st]> (threads s)) (given s) (started s) (destroyed s).

Definition set_impl (i : strand_impl) (s : system) : system :=
  mk_system i (invokers s) (threads s) (given s) (started s) (destroyed s).

(** What the inner executor is given. *)
Definition submit_invoker (s : system) : system :=
  mk_system (impl s) (S (invokers s)) (threads s) (given s) (started s) (destroyed s).

(** [do_execute], [dispatch], [post] or [defer] on thread [t] up to the end of
    the critical section. *)
Definition submit (t : nat) (st : stack) (how : submission) (o : op) (s : system) : system :=
  if runs_inside how && running_in_this_thread st then set_thread t (Handler o :: st) s
  else
    let '(r, i) := enqueue (impl s) o in
    match r with
    | Destroyed => mk_system i (invokers s) (threads s) (given s ++ [o]) (started s) (destroyed s ++ [o])
    | Enqueued => mk_system i (invokers s) (threads s) (given s ++ [o]) (started s) (destroyed s)
    | Acquired =>
        mk_system i (invokers s) (<[t := Pushing o how :: st]> (threads s)) (given s ++ [o])
          (started s) (destroyed s)
    end.

(** A round of the loop of [run_ready_handlers] on thread [t]. *)
Definition run_ready_handlers (t : nat) (st : stack) (s : system) : system :=
  match pop_ready (impl s) with
  | Some (o, i) =>
      mk_system i (invokers s) (<[t := Handler o :: Running :: st]> (threads s)) (given s)
        (started s ++ [o]) (destroyed s)
  | None => set_thread t (Exiting :: st) s
  end.

(** The destructor of [on_invoker_exit] up to the end of the critical section. *)
Definition on_invoker_exit (t : nat) (st : stack) (s : system) : system :=
  let '(more, i) := push_waiting_to_ready (impl s) in
  set_thread t (if more : bool then Rescheduling :: st else st) (set_impl i s).

(** What the threads do for the strand. *)
Inductive service_step : system → system → Prop :=
| step_push s t st o how :
    threads s !! t = Some (Pushing o how :: st) →
    service_step s (set_thread t (Scheduling how :: st) (set_impl (push_ready (impl s) o) s))
| step_schedule s t st how :
    threads s !! t = Some (Scheduling how :: st) →
    service_step s (set_thread t st (submit_invoker s))
| step_schedule_inline s t st how :
    threads s !! t = Some (Scheduling how :: st) → may_run_inline how = true →
    service_step s (set_thread t (Running :: st) s)
| step_invoke i n ts giv sta des t st :
    ts !! t = Some st → user_code st = true →
    service_step (mk_system i (S n) ts giv sta des)
      (mk_system i n (<[t := Running :: st]> ts) giv sta des)
| step_round s t st :
    threads s !! t = Some (Running :: st) →
    service_step s (run_ready_handlers t st s)
| step_return s t st o :
    threads s !! t = Some (Handler o :: st) →
    service_step s (set_thread t st s)
| step_throw s t st o :   (* a handler throws; the invoker lets the exception through *)
    threads s !! t = Some (Handler o :: Running :: st) →
    service_step s (set_thread t (Exiting :: st) s)
| step_exit s t st :
    threads s !! t = Some (Exiting :: st) →
    service_step s (on_invoker_exit t st s)
| step_reschedule s t st :
    threads s !! t = Some (Rescheduling :: st) →
    service_step s (set_thread t st (submit_invoker s)).

Inductive strand_step : system → system → Prop :=
| step_service s s' : service_step s s' → strand_step s s'
| step_submit s t st how o :   (* code of the user submits a function *)
    threads s !! t = Some st → user_code st = true →
    strand_step s (submit t st how o s)
| step_shutdown s :   (* the context shuts its services down when no thread runs it *)
    Forall (λ st, st = []) (threads s) →
    strand_step s
      (let '(ops, i) := shutdown (impl s) in
       mk_system i (invokers s) (threads s) (given s) (started s) (destroyed s ++ ops))
| step_discard i n ts giv sta des :   (* the context destroys what it has not run *)
    shutdown_ i = true →
    strand_step (mk_system i (S n) ts giv sta des) (mk_system i n ts giv sta des).
