(* ===== verification/StrandFacts.v ===== *)
(** The invariant of a strand: its lock is one token, which is an invoker that
    its executor has to run or a thread in the strand's code, and while the
    context is not shut down the handlers that were started, are about to be
    queued, are ready and are waiting are, in this order, those that were
    given to the strand. *)

From stdpp Require Import relations.
From S2P Require Import Prelude Strand.

#[local] Open Scope nat_scope.

(** * Stacks *)

(** What the frame that acquired the strand is about to queue. *)
Definition pushing_of (st : stack) : list op :=
  match st with Pushing o _ :: _ => [o] | _ => [] end.

(** Handlers run above the loop of [run_ready_handlers], and the code of the
    strand is entered from outside. *)
Fixpoint nested (st : stack) : Prop :=
  match st with
  | [] => True
  | Handler _ :: st' => running_in_this_thread st' = true ∧ nested st'
  | _ :: st' => st' = []
  end.

Definition idle_but (n t : nat) (st : stack) : list stack := <[t := st]> (replicate n []).

Lemma idle_but_lookup n t st t' st' :
  idle_but n t st !! t' = Some st' → t' = t ∧ st' = st ∨ t' ≠ t ∧ st' = [].
Proof.
  unfold idle_but. intros [[<- [<- _]]|[Hne [-> _]%lookup_replicate]]%list_lookup_insert_Some; auto.
Qed.

Lemma idle_lookup n t (st : stack) : replicate n [] !! t = Some st → st = [] ∧ t < n.
Proof. by intros [-> ?]%lookup_replicate. Qed.

Lemma idle_but_insert n t st st' : <[t := st']> (idle_but n t st) = idle_but n t st'.
Proof. apply list_insert_insert_eq. Qed.

Lemma idle_but_nil n t : idle_but n t [] = replicate n [].
Proof.
  apply list_eq. intros i. unfold idle_but. destruct (decide (i = t)) as [->|].
  - destruct (decide (t < n)).
    + rewrite list_lookup_insert_eq by (by rewrite length_replicate). by rewrite lookup_replicate_2.
    + by rewrite list_insert_ge by (rewrite length_replicate; lia).
  - by rewrite list_lookup_insert_ne.
Qed.

(** * The invariant *)

(** Where the handlers are; [p] is the one about to be queued. *)
Definition order (sh : bool) (p r w giv sta des : list op) : Prop :=
  if sh then p = [] ∧ r = [] ∧ w = [] ∧ sta ++ des ≡ₚ giv
  else des = [] ∧ (p ≠ [] → r = []) ∧ sta ++ p ++ r ++ w = giv.

Inductive strand_ok (n : nat) : system → Prop :=
| ok_free lk sh giv sta des :
    order sh [] [] [] giv sta des → (lk = true → sh = true) →
    strand_ok n (mk_system (mk_strand lk sh [] []) 0 (replicate n []) giv sta des)
| ok_scheduled sh w r giv sta des :
    order sh [] r w giv sta des →
    strand_ok n (mk_system (mk_strand true sh w r) 1 (replicate n []) giv sta des)
| ok_held t st sh w r giv sta des :
    t < n → st ≠ [] → nested st → order sh (pushing_of st) r w giv sta des →
    strand_ok n (mk_system (mk_strand true sh w r) 0 (idle_but n t st) giv sta des).

(** Another thread than the one in the strand only submits. *)
Lemma order_enqueue sh p r w giv sta des o :
  order sh p r w giv sta des →
  if sh then order sh p r w (giv ++ [o]) sta (des ++ [o]) else order sh p r (w ++ [o]) (giv ++ [o]) sta des.
Proof.
  unfold order. destruct sh.
  - intros (-> & -> & -> & Hp). split_and!; try done. by rewrite app_assoc, Hp.
  - intros (-> & Hr & <-). split_and!; try done. by rewrite !app_assoc.
Qed.

(** What is submitted while the strand is locked waits, or is destroyed. *)
Lemma submit_locked t st how o sh w r k ts giv sta des :
  runs_inside how && running_in_this_thread st = false →
  submit t st how o (mk_system (mk_strand true sh w r) k ts giv sta des) =
    if sh then mk_system (mk_strand true sh w r) k ts (giv ++ [o]) sta (des ++ [o])
    else mk_system (mk_strand true sh (w ++ [o]) r) k ts (giv ++ [o]) sta des.
Proof. intros Hin. unfold submit. rewrite Hin. by destruct sh. Qed.

Lemma submit_ok n s t st how o :
  strand_ok n s → threads s !! t = Some st → user_code st = true → strand_ok n (submit t st how o s).
Proof.
  intros [lk sh giv sta des Ho Hlk|sh w r giv sta des Ho|t0 st0 sh w r giv sta des Ht0 Hst0 Hn0 Ho]
    Hst Hu; cbn [threads] in Hst.
  - apply idle_lookup in Hst as [-> Ht]. unfold submit. cbn [running_in_this_thread existsb].
    rewrite andb_false_r. unfold enqueue. cbn [impl shutdown_ locked_ waiting_queue_ ready_queue_ app].
    destruct sh.
    + apply ok_free; [by apply (order_enqueue true)|done].
    + destruct lk; [by discriminate Hlk|]. apply (ok_held n t); [done..|]. cbn [pushing_of].
      destruct Ho as (-> & _ & <-). split_and!; try done. by rewrite !app_nil_r.
  - apply idle_lookup in Hst as [-> Ht]. rewrite submit_locked by apply andb_false_r.
    apply order_enqueue with (o := o) in Ho. destruct sh; by apply ok_scheduled.
  - destruct (runs_inside how && running_in_this_thread st) eqn:Hin.
    + unfold submit. rewrite Hin. apply andb_true_iff in Hin as [_ Hin].
      apply idle_but_lookup in Hst as [[-> ->]|[_ ->]]; [|done].
      unfold set_thread. cbn [impl invokers threads given started destroyed]. rewrite idle_but_insert.
      apply ok_held; [done..| |]; cbn [nested pushing_of]; [done|].
      destruct st0 as [|[]]; done.
    + rewrite submit_locked by done. apply order_enqueue with (o := o) in Ho.
      destruct sh; by apply ok_held.
Qed.

(** The thread in the strand and its innermost frame. *)
Lemma held_thread n t st t' f st' :
  idle_but n t st !! t' = Some (f :: st') → t' = t ∧ st = f :: st'.
Proof. by intros [[-> <-]|[_ ?]]%idle_but_lookup. Qed.

(** The token moves within the strand. *)
Ltac held :=
  cbn [impl invokers threads given started destroyed set_thread set_impl submit_invoker]; rewrite idle_but_insert.

Lemma service_step_ok n s s' : strand_ok n s → service_step s s' → strand_ok n s'.
Proof.
  intros Hok Hstep. destruct Hstep as
    [s t st o how Ht|s t st how Ht|s t st how Ht Hin|i k ts giv sta des t st Ht Hu
    |s t st Ht|s t st o Ht|s t st o Ht|s t st Ht|s t st Ht];
    inversion Hok as [lk sh giv0 sta0 des0 Ho Hlk E|sh w r giv0 sta0 des0 Ho E
      |t0 st0 sh w r giv0 sta0 des0 Ht0 Hst0 Hn0 Ho E]; subst; cbn [threads] in Ht;
    try (apply idle_lookup in Ht as [? _]; congruence);
    try (apply held_thread in Ht as [-> ->]; cbn [nested] in Hn0).
  - subst st. unfold set_impl, set_thread, push_ready. held. cbn [impl].
    apply ok_held; [done..|]. cbn [pushing_of] in *. destruct sh; [by destruct Ho|].
    destruct Ho as (-> & Hr & <-). rewrite Hr by done. by split_and!.
  - subst st. unfold submit_invoker, set_thread. held. rewrite idle_but_nil. by apply ok_scheduled.
  - subst st. unfold set_thread. held. by apply ok_held.
  - apply idle_lookup in Ht as [-> Ht]. by apply (ok_held n t).
  - subst st. unfold run_ready_handlers, pop_ready. cbn [impl ready_queue_]. destruct r as [|o r].
    + unfold set_thread. held. by apply ok_held.
    + held. apply ok_held; [done..|]. cbn [pushing_of] in *. destruct sh; [by destruct Ho as (_ & ? & _)|].
      destruct Ho as (-> & _ & <-). split_and!; try done. cbn. by rewrite <- app_assoc.
  - unfold set_thread. held. destruct Hn0 as [Hin Hn0].
    destruct st as [|f st]; [done|]. apply ok_held; [done..|].
    destruct f; try done. by cbn [nested] in Hn0; subst st.
  - unfold set_thread. held. destruct Hn0 as [_ ->]. by apply ok_held.
  - subst st. unfold on_invoker_exit, push_waiting_to_ready. cbn [impl ready_queue_ waiting_queue_ shutdown_].
    destruct (r ++ w) as [|o q] eqn:Eq; unfold set_thread, set_impl; held.
    + apply app_nil in Eq as [-> ->]. rewrite idle_but_nil. by apply ok_free.
    + apply ok_held; [done..|]. cbn [pushing_of] in *. rewrite <- Eq.
      destruct sh; [destruct Ho as (_ & -> & -> & _); done|].
      destruct Ho as (-> & _ & <-). split_and!; try done. by rewrite app_nil_r.
  - subst st. unfold submit_invoker, set_thread. held. rewrite idle_but_nil. by apply ok_scheduled.
Qed.

Lemma idle_threads n t st : t < n → Forall (λ st, st = []) (idle_but n t st) → st = [].
Proof.
  intros Ht Hall. rewrite Forall_lookup in Hall. apply (Hall t). unfold idle_but.
  apply list_lookup_insert_eq. by rewrite length_replicate.
Qed.

Lemma strand_step_ok n s s' : strand_ok n s → strand_step s s' → strand_ok n s'.
Proof.
  intros Hok Hstep. destruct Hstep as [s s' Hs|s t st how o Ht Hu|s Hidle|i k ts giv sta des Hsh].
  - by eapply service_step_ok.
  - by apply submit_ok.
  - assert (∀ sh r w giv sta des, order sh [] r w giv sta des →
      order true [] [] [] giv sta (des ++ w ++ r)) as Hshut.
    { intros [] r w giv sta des; unfold order.
      - intros (_ & -> & -> & Hp). by rewrite app_nil_r.
      - intros (-> & _ & <-). split_and!; try done. cbn. by rewrite (comm (++) w r). }
    destruct Hok as [lk sh giv sta des Ho Hlk|sh w r giv sta des Ho|t st sh w r giv sta des Ht Hst _ _];
      unfold shutdown; cbn [impl invokers threads given started destroyed waiting_queue_ ready_queue_ locked_].
    + apply ok_free; [by apply (Hshut sh)|done].
    + apply ok_scheduled. by apply (Hshut sh).
    + by apply idle_threads in Hidle.
  - inversion Hok as [|sh w r giv0 sta0 des0 Ho E|]; subst. cbn [shutdown_] in Hsh. subst sh.
    destruct Ho as (_ & -> & -> & Hp). by apply ok_free.
Qed.

Lemma init_system_ok n : strand_ok n (init_system n).
Proof. by apply ok_free. Qed.

Lemma reachable_ok n s : rtc strand_step (init_system n) s → strand_ok n s.
Proof.
  intros Hr. remember (init_system n) as s0 eqn:E. assert (strand_ok n s0) as Hok by (subst; apply init_system_ok).
  clear E. induction Hr as [|s1 s2 s3 Hs _ IH]; [done|]. by eapply IH, strand_step_ok.
Qed.

(** * Work *)

(** An upper bound for the steps that are left if nothing is submitted: a
    handler moves from waiting to ready and from there to a frame, and a round
    of the executor is paid for by a handler. *)
Definition frame_work (r : list op) (f : frame) : nat :=
  match f with
  | Pushing _ _ => 16
  | Scheduling _ => 5
  | Handler _ => 5
  | Rescheduling => 4
  | Running => 2
  | Exiting => match r with [] => 1 | _ => 6 end
  end.

Definition stack_work (r : list op) (st : stack) : nat := sum_list (frame_work r <$> st).

Definition work (s : system) : nat :=
  20 * length (waiting_queue_ (impl s)) + 10 * length (ready_queue_ (impl s)) + 3 * invokers s +
  sum_list (stack_work (ready_queue_ (impl s)) <$> threads s).

Lemma idle_work r n : sum_list (stack_work r <$> replicate n []) = 0.
Proof. rewrite fmap_replicate, sum_list_replicate. cbn. lia. Qed.

Lemma idle_but_work r n t st : t < n → sum_list (stack_work r <$> idle_but n t st) = stack_work r st.
Proof.
  revert t. induction n as [|n IH]; intros t Ht; [lia|]. destruct t as [|t].
  - change (stack_work r st + sum_list (stack_work r <$> replicate n []) = stack_work r st).
    rewrite idle_work. lia.
  - change (stack_work r [] + sum_list (stack_work r <$> idle_but n t st) = stack_work r st).
    by rewrite IH by lia.
Qed.

Lemma service_step_work n s s' : strand_ok n s → service_step s s' → work s' < work s.
Proof.
  intros Hok Hstep. destruct Hstep as
    [s t st o how Ht|s t st how Ht|s t st how Ht Hin|i k ts giv sta des t st Ht Hu
    |s t st Ht|s t st o Ht|s t st o Ht|s t st Ht|s t st Ht];
    inversion Hok as [lk sh giv0 sta0 des0 Ho Hlk E|sh w r giv0 sta0 des0 Ho E
      |t0 st0 sh w r giv0 sta0 des0 Ht0 Hst0 Hn0 Ho E]; subst; cbn [threads] in Ht;
    try (apply idle_lookup in Ht as [? _]; congruence);
    try (apply held_thread in Ht as [-> ->]; cbn [nested] in Hn0);
    unfold run_ready_handlers, on_invoker_exit, pop_ready, push_waiting_to_ready, work;
    unfold set_impl, set_thread, submit_invoker, push_ready;
    cbn [impl invokers threads given started destroyed waiting_queue_ ready_queue_ shutdown_ locked_].
  - subst st. rewrite idle_but_insert, !idle_but_work by done. rewrite length_app. cbn. lia.
  - subst st. rewrite idle_but_insert, !idle_but_work by done. cbn. lia.
  - subst st. rewrite idle_but_insert, !idle_but_work by done. cbn. lia.
  - apply idle_lookup in Ht as [-> Ht]. change (<[t:=[Running]]> (replicate n [])) with (idle_but n t [Running]).
    rewrite idle_but_work, idle_work by done. cbn. lia.
  - subst st. destruct r as [|o r];
      cbn [impl invokers threads given started destroyed waiting_queue_ ready_queue_ shutdown_ locked_];
      rewrite idle_but_insert, !idle_but_work by done; cbn; lia.
  - rewrite idle_but_insert, !idle_but_work by done. unfold stack_work. cbn. lia.
  - destruct Hn0 as [_ ->]. rewrite idle_but_insert, !idle_but_work by done. cbn. destruct r; lia.
  - subst st. destruct (r ++ w) as [|o q] eqn:Eq;
      cbn [impl invokers threads given started destroyed waiting_queue_ ready_queue_ shutdown_ locked_];
      rewrite idle_but_insert, !idle_but_work by done; [apply app_nil in Eq as [-> ->]; cbn; lia|].
    cbn.
    apply (f_equal length) in Eq. rewrite length_app in Eq. cbn in Eq. destruct r; cbn in *; lia.
  - subst st. rewrite idle_but_insert, !idle_but_work by done. cbn. lia.
Qed.

(** While the strand has something to do, some thread can do it. *)
Lemma service_progress n s :
  0 < n → strand_ok n s → (∀ s', ¬ service_step s s') →
  invokers s = 0 ∧ threads s = replicate n [] ∧ ready_queue_ (impl s) = [] ∧ waiting_queue_ (impl s) = [].
Proof.
  intros Hn [lk sh giv sta des Ho Hlk|sh w r giv sta des Ho|t st sh w r giv sta des Ht Hst Hnest Ho] Hno;
    cbn [impl invokers threads ready_queue_ waiting_queue_]; [done| |]; exfalso.
  - eapply Hno, (step_invoke _ 0 (replicate n []) giv sta des 0 []); [by apply lookup_replicate_2|done].
  - assert (idle_but n t st !! t = Some st) as Hl.
    { apply list_lookup_insert_eq. by rewrite length_replicate. }
    destruct st as [|f st]; [done|]. destruct f.
    + by eapply Hno, step_push.
    + by eapply Hno, step_schedule.
    + by eapply Hno, step_round.
    + by eapply Hno, step_return.
    + by eapply Hno, step_exit.
    + by eapply Hno, step_reschedule.
Qed.

(** * The mutex *)

Lemma mutex_index_bound address salt : (0 ≤ mutex_index address salt < num_mutexes)%Z.
Proof. apply Z.mod_pos_bound. done. Qed.
