(* ===== verification/StrandProperties.v ===== *)
(** What strands and the queues below them promise. *)

From stdpp Require Import gmap relations.
From S2P Require Import Prelude OpQueue Strand StrandFacts.

#[local] Open Scope nat_scope.

(** * Queues *)

Lemma run_calls_related cs m qs ls xs ls' :
  related m qs ls → list_calls (dom m) cs ls = Some (xs, ls') →
  ∃ qs' m', run_calls cs qs m = Ret (xs, qs', m') ∧ related m' qs' ls' ∧ dom m' = dom m.
Proof.
  revert m qs ls xs. induction cs as [|c cs IH]; intros m qs ls xs Hrel; cbn [list_calls run_calls].
  { intros [= <- <-]. by exists qs, m. }
  destruct (list_call (dom m) c ls) as [[x ls1]|] eqn:E; cbn [mbind option_bind]; [|done].
  destruct (list_calls (dom m) cs ls1) as [[xs1 ls2]|] eqn:E2; cbn [mbind option_bind]; [|done].
  intros [= <- <-]. destruct (run_call_related c m qs ls x ls1 Hrel E) as (qs1 & m1 & -> & Hrel1 & Hdom).
  cbn [mbind outcome_bind]. rewrite <- Hdom in E2.
  destruct (IH m1 qs1 ls1 xs1 Hrel1 E2) as (qs2 & m2 & -> & Hrel2 & Hdom2). cbn [mbind outcome_bind].
  exists qs2, m2. by rewrite Hdom2.
Qed.

(** C27: intrusive queues that share a memory behave as lists: any sequence of
    [push], [pop] and [push] of one queue on another sees the fronts that the
    lists have and leaves queues with the lists' elements, as long as no
    operation is pushed that is in a queue already and no queue is pushed on
    itself.  Every queue can then be destroyed: its destructor ends and
    destroys the elements of its list in order and touches nothing else. *)
Theorem op_queues_are_lists cs m qs ls xs ls' :
  related m qs ls → list_calls (dom m) cs ls = Some (xs, ls') →
  ∃ qs' m', run_calls cs qs m = Ret (xs, qs', m') ∧ related m' qs' ls' ∧
    ∀ i q l, qs' !! i = Some q → ls' !! i = Some l →
      (∀ o n, m' !! o = Some n → n = None → is_enqueued o q m' = Ret (bool_decide (o ∈ l))) ∧
      empty q = bool_decide (l = []) ∧
      ∃ m2, destroy_queue (S (length l)) q m' = Ret (l, m2) ∧
        (∀ o, o ∈ l → m2 !! o = None) ∧ ∀ o, o ∉ l → m2 !! o = m' !! o.
Proof.
  intros Hrel Hc. destruct (run_calls_related cs m qs ls xs ls' Hrel Hc) as (qs' & m' & Hrun & Hrel' & _).
  exists qs', m'. split; [done|]. split; [done|]. intros i q l Hq Hl.
  assert (represents m' q l) as Hrep by (by eapply Forall2_lookup_lr; [apply Hrel'|..]).
  split_and!.
  - intros o n Ho ->. by rewrite (is_enqueued_spec m' q l o None).
  - unfold empty. rewrite (rep_front _ _ _ Hrep). by destruct l.
  - apply destroy_queue_spec; [done|lia].
Qed.

Definition three_operations : memory := {[ 1 := None; 2 := None; 3 := None ]}.

Lemma op_queues_are_lists_witness :
  ∃ qs' m', run_calls [Push 0 1; Push 1 2; Push 1 3; Push_queue 0 1; Pop 0]
      [new_op_queue; new_op_queue] three_operations = Ret ([None; None; None; None; Some 1], qs', m') ∧
    related m' qs' [[2; 3]; []] ∧
    ∀ i q l, qs' !! i = Some q → [[2; 3]; []] !! i = Some l →
      (∀ o n, m' !! o = Some n → n = None → is_enqueued o q m' = Ret (bool_decide (o ∈ l))) ∧
      empty q = bool_decide (l = []) ∧
      ∃ m2, destroy_queue (S (length l)) q m' = Ret (l, m2) ∧
        (∀ o, o ∈ l → m2 !! o = None) ∧ ∀ o, o ∉ l → m2 !! o = m' !! o.
Proof.
  apply (op_queues_are_lists [Push 0 1; Push 1 2; Push 1 3; Push_queue 0 1; Pop 0] three_operations
    [new_op_queue; new_op_queue] [[]; []] [None; None; None; None; Some 1] [[2; 3]; []]).
  - split; [repeat constructor; apply new_represents|].
    intros [|[|i]] [|[|j]] li lj o [= <-] [= <-]; intros []%not_elem_of_nil.
  - vm_compute. reflexivity.
Defined.

(** * Strands *)

(** C31: in every state that the threads of a strand can reach, whatever is
    submitted in whatever way, also from handlers and after shutdown: at most
    one thread is in the strand; a handler runs only there, so
    [running_in_this_thread] tells it; the mutex is that of an existing pool.
    Until shutdown the handlers that were queued are started in the order in
    which they were queued, each once, none is destroyed, and if no thread is
    in the strand and no invoker is due then all have been started.  After
    shutdown each has either been started or destroyed. *)
Theorem strand_exclusive_fifo n s address salt :
  rtc strand_step (init_system n) s →
  (∀ t t' st st', threads s !! t = Some st → threads s !! t' = Some st' → st ≠ [] → st' ≠ [] → t = t') ∧
  (∀ t o st, threads s !! t = Some (Handler o :: st) → running_in_this_thread st = true) ∧
  (0 ≤ mutex_index address salt < num_mutexes)%Z ∧
  if shutdown_ (impl s) then started s ++ destroyed s ≡ₚ given s
  else destroyed s = [] ∧ started s `prefix_of` given s ∧
    (invokers s = 0 → Forall (λ st, st = []) (threads s) → started s = given s ∧ locked_ (impl s) = false).
Proof.
  intros Hok%reachable_ok.
  destruct Hok as [lk sh giv sta des Ho Hlk|sh w r giv sta des Ho|t st sh w r giv sta des Ht Hst Hn Ho];
    cbn [threads impl shutdown_ started destroyed given invokers locked_];
    (split; [|split; [|split; [apply mutex_index_bound|]]]).
  - by intros a b st st' [-> _]%idle_lookup.
  - by intros a o st [? _]%idle_lookup.
  - destruct sh; [by destruct Ho as (_ & _ & _ & ?)|]. destruct Ho as (-> & _ & <-). rewrite !app_nil_r.
    split_and!; [done..|]. intros _ _. split; [done|]. destruct lk; [by discriminate Hlk|done].
  - by intros a b st st' [-> _]%idle_lookup.
  - by intros a o st [? _]%idle_lookup.
  - destruct sh; [by destruct Ho as (_ & _ & _ & ?)|]. destruct Ho as (-> & _ & <-).
    split_and!; [done|by eexists|done].
  - intros a b sa sb [[-> ->]|[_ ->]]%idle_but_lookup [[-> ->]|[_ ->]]%idle_but_lookup; done.
  - intros a o sa [[-> <-]|[_ ?]]%idle_but_lookup; [by destruct Hn|done].
  - destruct sh; [by destruct Ho as (_ & _ & _ & ?)|]. destruct Ho as (-> & _ & <-).
    split_and!; [done|by eexists|]. intros _ Hidle. by apply idle_threads in Hidle.
Qed.

(** Two threads: one posts and starts to run a handler, which submits two
    functions, the other posts meanwhile. *)
Definition busy_strand : system :=
  mk_system (mk_strand true false [8; 9] []) 0 [[Handler 7; Running]; []] [7; 8; 9] [7] [].

Lemma busy_strand_reachable : rtc strand_step (init_system 2) busy_strand.
Proof.
  eapply rtc_l; [by apply (step_submit _ 0 [] Post 7)|].
  eapply rtc_l; [by apply step_service, (step_push _ 0 [] 7 Post)|].
  eapply rtc_l; [by apply step_service, (step_schedule _ 0 [] Post)|].
  eapply rtc_l; [by apply step_service, (step_invoke _ 0 _ _ _ _ 0 [])|].
  eapply rtc_l; [by apply step_service, (step_round _ 0 [])|].
  eapply rtc_l; [by apply (step_submit _ 0 [Handler 7; Running] Defer 8)|].
  eapply rtc_l; [by apply (step_submit _ 0 [Handler 7; Running] Dispatch 5)|].
  eapply rtc_l; [by apply step_service, (step_return _ 0 [Handler 7; Running] 5)|].
  eapply rtc_l; [by apply (step_submit _ 1 [] Dispatch 9)|].
  apply rtc_refl.
Qed.

Lemma strand_exclusive_fifo_witness :
  (∀ t t' st st', threads busy_strand !! t = Some st → threads busy_strand !! t' = Some st' →
     st ≠ [] → st' ≠ [] → t = t') ∧
  (∀ t o st, threads busy_strand !! t = Some (Handler o :: st) → running_in_this_thread st = true) ∧
  (0 ≤ mutex_index 94208 3 < num_mutexes)%Z ∧
  if shutdown_ (impl busy_strand) then started busy_strand ++ destroyed busy_strand ≡ₚ given busy_strand
  else destroyed busy_strand = [] ∧ started busy_strand `prefix_of` given busy_strand ∧
    (invokers busy_strand = 0 → Forall (λ st, st = []) (threads busy_strand) →
     started busy_strand = given busy_strand ∧ locked_ (impl busy_strand) = false).
Proof. apply (strand_exclusive_fifo 2 busy_strand 94208 3). apply busy_strand_reachable. Defined.

(** C28: no handler is left behind: once nothing more is submitted, the threads
    can take at most [work] steps for the strand, whether handlers return or
    throw, and when there is no further step every handler that was queued
    has been started and the strand is free, unless it was shut down. *)
Theorem strand_drains n s :
  0 < n → rtc strand_step (init_system n) s →
  (∀ k s', nsteps service_step k s s' → work s' + k ≤ work s) ∧
  ∀ s', rtc service_step s s' → (∀ s'', ¬ service_step s' s'') →
    invokers s' = 0 ∧ Forall (λ st, st = []) (threads s') ∧
    (shutdown_ (impl s') = false → started s' = given s' ∧ locked_ (impl s') = false).
Proof.
  intros Hn Hok%reachable_ok. split.
  - intros k s' Hs. induction Hs as [s|k s1 s2 s3 H12 _ IH]; [lia|].
    specialize (IH (service_step_ok n s1 s2 Hok H12)). pose proof (service_step_work n s1 s2 Hok H12). lia.
  - intros s' Hs Hend. assert (strand_ok n s') as Hok'.
    { clear Hend. induction Hs as [|s1 s2 s3 H12 _ IH]; [done|]. by eapply IH, service_step_ok. }
    destruct (service_progress n s' Hn Hok' Hend) as (Hi & Ht & Hr & Hw).
    split; [done|]. rewrite Ht. split; [by apply Forall_replicate|]. intros Hsh.
    destruct Hok' as [lk sh giv sta des Ho Hlk|sh w r giv sta des Ho|t st sh w r giv sta des Htn Hst _ _];
      cbn [invokers threads impl shutdown_ started given locked_] in *; [|done|].
    + subst sh. destruct Ho as (-> & _ & <-). rewrite !app_nil_r. split; [done|].
      destruct lk; [by discriminate Hlk|done].
    + exfalso. apply Hst, (idle_threads n t); [done|]. rewrite Ht. by apply Forall_replicate.
Qed.

Lemma strand_drains_witness :
  (∀ k s', nsteps service_step k busy_strand s' → work s' + k ≤ work busy_strand) ∧
  ∀ s', rtc service_step busy_strand s' → (∀ s'', ¬ service_step s' s'') →
    invokers s' = 0 ∧ Forall (λ st, st = []) (threads s') ∧
    (shutdown_ (impl s') = false → started s' = given s' ∧ locked_ (impl s') = false).
Proof. apply (strand_drains 2 busy_strand); [lia|apply busy_strand_reachable]. Defined.
