(* ===== verification/EpollReactor.v ===== *)
(** The descriptors of the epoll reactor (detail/impl/epoll_reactor.ipp): the
    queues of operations that wait for a descriptor, speculative execution,
    registration, and the events that epoll reports, which are edges.

    A function that holds the mutex of the descriptor is one step: the kernel
    may change in between, but what it does then commutes with the rest of the
    function or is noticed by its call of [epoll_ctl]. *)

From S2P Require Import Prelude AsioBuffers SocketOps.

#[local] Open Scope Z_scope.

(** * Events and operations *)

Definition EPOLLIN : Z := 2 ^ 0.
Definition EPOLLPRI : Z := 2 ^ 1.
Definition EPOLLOUT : Z := 2 ^ 2.
Definition EPOLLERR : Z := 2 ^ 3.
Definition EPOLLHUP : Z := 2 ^ 4.
Definition EPOLLET : Z := 2 ^ 31.

(** [connect_op] is [write_op]. *)
Inductive op_type : Type := read_op | write_op | except_op.

#[export] Instance op_type_eq_dec : EqDecision op_type.
Proof. solve_decision. Defined.

Definition flag (j : op_type) : Z :=
  match j with read_op => EPOLLIN | write_op => EPOLLOUT | except_op => EPOLLPRI end.

(** The events that make [perform_io] look at a queue. *)
Definition concerns (events : Z) (j : op_type) : bool := has events (Z.lor (Z.lor (flag j) EPOLLERR) EPOLLHUP).

Record reactor_op : Type := mk_reactor_op {
  op_id : nat;
  cancellation_key_ : nat
}.

#[export] Instance reactor_op_eq_dec : EqDecision reactor_op.
Proof. solve_decision. Defined.

Inductive status : Type := not_done | done | done_and_exhausted.

Definition operation_aborted : error_code := 125.
Definition operation_not_supported : error_code := 95.
Definition EPERM : error_code := 1.

(** * What the operations on sockets return to the reactor *)

Definition reset_edge_on_partial_read : Z := 128.

(** A stream counts as exhausted by a receive operation that got less than it
    asked for, but only one that got nothing if the flag is not set. *)
Definition recv_status (state : Z) (size : nat) (r : option (buffer * error_code)) : status :=
  match r with
  | None => not_done
  | Some (d, _) =>
      if has state stream_oriented &&
         (length d <? (if has state reset_edge_on_partial_read then size else 1))%nat
      then done_and_exhausted else done
  end.

Definition send_status (state : Z) (size : nat) (r : option (nat * error_code)) : status :=
  match r with
  | None => not_done
  | Some (n, _) => if has state stream_oriented && (n <? size)%nat then done_and_exhausted else done
  end.

Section operations.
  Context {K : Type} `{Kernel K}.

(** [do_perform] of the three kinds of operations: the status, what the
    operation has been given, and the kernel. *)
Definition recv_perform (fuel : nat) (s state : Z) (size : nat) (k : K) :
    outcome Empty_set (status * option (buffer * error_code) * K) :=
  match non_blocking_recv fuel s size (has state stream_oriented) k with
  | Ret (r, k) => Ret (recv_status state size r, r, k)
  | _ => Diverge
  end.

Definition send_perform (fuel : nat) (s state : Z) (d : buffer) (k : K) :
    outcome Empty_set (status * option (nat * error_code) * K) :=
  match non_blocking_send fuel s d k with
  | Ret (r, k) => Ret (send_status state (length d) r, r, k)
  | _ => Diverge
  end.

Definition accept_perform (fuel : nat) (s state : Z) (k : K) :
    outcome Empty_set (status * option (sys (Z * cstring)) * K) :=
  match non_blocking_accept fuel s state k with
  | Ret (r, k) => Ret (match r with Some _ => done | None => not_done end, r, k)
  | _ => Diverge
  end.
End operations.

(** * The kernel *)

(** What an operation does to the descriptor when it is performed, and the
    calls of epoll: registering, changing and removing the events, and the
    events that [epoll_wait] reports for the descriptor. *)
Class Epoll (K : Type) := {
  perform : op_type → reactor_op → K → status * error_code * K;
  epoll_ctl_add : Z → K → sys unit * K;
  epoll_ctl_mod : Z → K → sys unit * K;
  epoll_ctl_del : K → sys unit * K;
  epoll_wait : K → Z * K
}.

(** * Descriptors *)

Record descriptor_state : Type := mk_descriptor {
  descriptor_ : Z;
  registered_events_ : Z;
  op_queue_ : op_type → list reactor_op;
  try_speculative_ : op_type → bool;
  shutdown_ : bool
}.

(** An array with one element changed. *)
Definition upd {A} (f : op_type → A) (j : op_type) (a : A) : op_type → A :=
  λ i, if decide (i = j) then a else f i.

Definition set_queue (j : op_type) (q : list reactor_op) (d : descriptor_state) : descriptor_state :=
  mk_descriptor (descriptor_ d) (registered_events_ d) (upd (op_queue_ d) j q) (try_speculative_ d) (shutdown_ d).

Definition set_speculative (j : op_type) (b : bool) (d : descriptor_state) : descriptor_state :=
  mk_descriptor (descriptor_ d) (registered_events_ d) (op_queue_ d) (upd (try_speculative_ d) j b) (shutdown_ d).

Definition set_registered (events : Z) (d : descriptor_state) : descriptor_state :=
  mk_descriptor (descriptor_ d) events (op_queue_ d) (try_speculative_ d) (shutdown_ d).

Section reactor.
  Context {K : Type} `{Epoll K}.

(** The error and the state of the descriptor. *)
Definition register_descriptor (descriptor : Z) (k : K) : error_code * descriptor_state * K :=
  let events := Z.lor (Z.lor (Z.lor (Z.lor EPOLLIN EPOLLERR) EPOLLHUP) EPOLLPRI) EPOLLET in
  let d := mk_descriptor descriptor events (λ _, []) (λ _, true) false in
  let '(r, k) := epoll_ctl_add events k in
  match r with
  | Done _ => (success, d, k)
  | Failed e => if e =? EPERM then (success, set_registered 0 d, k) else (e, d, k)
  end.

(** What [start_op] ends with: the operation waits in a queue, or is completed
    at once with an error code. *)
Inductive started : Type :=
| Waits
| Immediate (ec : error_code).

Definition enqueue_op (j : op_type) (o : reactor_op) (d : descriptor_state) : descriptor_state :=
  set_queue j (op_queue_ d j ++ [o]) d.

(** The result, the descriptor, whether an [epoll_ctl] whose result is ignored
    has failed, and the kernel. *)
Definition start_op (j : op_type) (o : reactor_op) (allow_speculative : bool)
    (data : option descriptor_state) (k : K) : started * option descriptor_state * bool * K :=
  match data with
  | None => (Immediate bad_descriptor, None, false, k)
  | Some d =>
      if shutdown_ d then (Immediate success, Some d, false, k)
      else match op_queue_ d j with
      | _ :: _ => (Waits, Some (enqueue_op j o d), false, k)
      | [] =>
          if allow_speculative &&
             (negb (bool_decide (j = read_op)) || match op_queue_ d except_op with [] => true | _ => false end)
          then
            let '(st, ec, k) :=
              if try_speculative_ d j then perform j o k else (not_done, success, k) in
            match st with
            | done => (Immediate ec, Some d, false, k)
            | done_and_exhausted =>
                (Immediate ec,
                 Some (if negb (registered_events_ d =? 0) then set_speculative j false d else d), false, k)
            | not_done =>
                if registered_events_ d =? 0 then (Immediate operation_not_supported, Some d, false, k)
                else if bool_decide (j = write_op) && negb (has (registered_events_ d) EPOLLOUT) then
                  let events := Z.lor (registered_events_ d) EPOLLOUT in
                  let '(r, k) := epoll_ctl_mod events k in
                  match r with
                  | Done _ =>
                      (Waits, Some (enqueue_op j o (set_registered (Z.lor (registered_events_ d) events) d)),
                       false, k)
                  | Failed e => (Immediate e, Some d, false, k)
                  end
                else (Waits, Some (enqueue_op j o d), false, k)
            end
          else if registered_events_ d =? 0 then (Immediate operation_not_supported, Some d, false, k)
          else
            let d := if bool_decide (j = write_op)
                     then set_registered (Z.lor (registered_events_ d) EPOLLOUT) d else d in
            let '(r, k) := epoll_ctl_mod (registered_events_ d) k in
            (Waits, Some (enqueue_op j o d), match r with Done _ => false | Failed _ => true end, k)
      end
  end.

(** [perform_io]: the loop over a queue: what is completed, the rest of the
    queue and whether the next operation may be tried at once. *)
Fixpoint perform_queue (j : op_type) (q : list reactor_op) (k : K) :
    list (reactor_op * error_code) * list reactor_op * bool * K :=
  match q with
  | [] => ([], [], true, k)
  | o :: q' =>
      let '(st, ec, k) := perform j o k in
      match st with
      | not_done => ([], q, true, k)
      | done_and_exhausted => ([(o, ec)], q', false, k)
      | done => let '(c, r, b, k) := perform_queue j q' k in ((o, ec) :: c, r, b, k)
      end
  end.

Definition perform_type (events : Z) (j : op_type) (d : descriptor_state) (k : K) :
    list (op_type * reactor_op * error_code) * descriptor_state * K :=
  if concerns events j then
    let '(c, r, b, k) := perform_queue j (op_queue_ d j) k in
    (map (λ p, (j, p.1, p.2)) c, set_speculative j b (set_queue j r d), k)
  else ([], d, k).

(** The operations that are completed: the first one by [do_complete], the
    others through the queue of the scheduler. *)
Definition perform_io (events : Z) (d : descriptor_state) (k : K) :
    list (op_type * reactor_op * error_code) * descriptor_state * K :=
  let '(c2, d, k) := perform_type events except_op d k in
  let '(c1, d, k) := perform_type events write_op d k in
  let '(c0, d, k) := perform_type events read_op d k in
  (c2 ++ c1 ++ c0, d, k).

(** [cancel_ops]. *)
Definition all_ops (d : descriptor_state) : list (op_type * reactor_op) :=
  map (pair read_op) (op_queue_ d read_op) ++ map (pair write_op) (op_queue_ d write_op) ++
  map (pair except_op) (op_queue_ d except_op).

Definition empty_queues (d : descriptor_state) : descriptor_state :=
  mk_descriptor (descriptor_ d) (registered_events_ d) (λ _, []) (try_speculative_ d) (shutdown_ d).

Definition cancel_ops (d : descriptor_state) : list (op_type * reactor_op * error_code) * descriptor_state :=
  (map (λ p, (p, operation_aborted)) (all_ops d), empty_queues d).

Fixpoint split_key (key : nat) (q : list reactor_op) : list reactor_op * list reactor_op :=
  match q with
  | [] => ([], [])
  | o :: q' =>
      let '(ops, other_ops) := split_key key q' in
      if (cancellation_key_ o =? key)%nat then (o :: ops, other_ops) else (ops, o :: other_ops)
  end.

Definition cancel_ops_by_key (j : op_type) (key : nat) (d : descriptor_state) :
    list (op_type * reactor_op * error_code) * descriptor_state :=
  let '(ops, other_ops) := split_key key (op_queue_ d j) in
  (map (λ o, (j, o, operation_aborted)) ops, set_queue j other_ops d).

Definition shut_descriptor (d : descriptor_state) : descriptor_state :=
  mk_descriptor (-1) (registered_events_ d) (λ _, []) (try_speculative_ d) true.

Definition deregister_descriptor (closing : bool) (d : descriptor_state) (k : K) :
    list (op_type * reactor_op * error_code) * option descriptor_state * K :=
  if shutdown_ d then ([], None, k)
  else
    let k := if negb closing && negb (registered_events_ d =? 0) then (epoll_ctl_del k).2 else k in
    (map (λ p, (p, operation_aborted)) (all_ops d), Some (shut_descriptor d), k).

(** The operations are destroyed, not completed. *)
Definition deregister_internal_descriptor (d : descriptor_state) (k : K) :
    list (op_type * reactor_op) * option descriptor_state * K :=
  if shutdown_ d then ([], None, k) else (all_ops d, Some (shut_descriptor d), (epoll_ctl_del k).2).

(** * The reactor at work *)

(** A handle to a descriptor, the kernel, the events with which the descriptor
    waits in the queue of the scheduler, those with which threads have taken
    it from there, and the history: what was started, what was completed with
    which error, what was destroyed, and whether an [epoll_ctl] whose result
    is ignored has failed. *)
Record reactor : Type := mk_reactor {
  data : option descriptor_state;
  kern : K;
  queued : option Z;
  running : list Z;
  given : list (op_type * reactor_op);
  completed : list (op_type * reactor_op * error_code);
  destroyed : list (op_type * reactor_op);
  ctl_failed : bool
}.

Definition start (j : op_type) (o : reactor_op) (spec : bool) (r : reactor) : reactor :=
  let '(s, d, failed, k) := start_op j o spec (data r) (kern r) in
  mk_reactor d k (queued r) (running r) (given r ++ [(j, o)])
    (match s with Waits => completed r | Immediate ec => completed r ++ [(j, o, ec)] end)
    (destroyed r) (ctl_failed r || failed).

(** The part of [epoll_reactor::run] for the descriptor: it is queued with the
    events, or they are added to those it is queued with. *)
Definition report (r : reactor) : reactor :=
  let '(events, k) := epoll_wait (kern r) in
  if events =? 0 then mk_reactor (data r) k (queued r) (running r) (given r) (completed r) (destroyed r) (ctl_failed r)
  else
    mk_reactor (data r) k
      (Some (match queued r with None => events | Some e => Z.lor e events end))
      (running r) (given r) (completed r) (destroyed r) (ctl_failed r).

(** [do_complete], with events that a thread has taken. *)
Definition do_complete (events : Z) (rest : list Z) (r : reactor) : reactor :=
  match data r with
  | None => mk_reactor None (kern r) (queued r) rest (given r) (completed r) (destroyed r) (ctl_failed r)
  | Some d =>
      let '(c, d, k) := perform_io events d (kern r) in
      mk_reactor (Some d) k (queued r) rest (given r) (completed r ++ c) (destroyed r) (ctl_failed r)
  end.

(** A function that completes operations of the descriptor. *)
Definition completing (f : descriptor_state → K → list (op_type * reactor_op * error_code) * option descriptor_state * K)
    (r : reactor) : reactor :=
  match data r with
  | None => r
  | Some d =>
      let '(c, d, k) := f d (kern r) in
      mk_reactor d k (queued r) (running r) (given r) (completed r ++ c) (destroyed r) (ctl_failed r)
  end.

Definition deregister_internal (r : reactor) : reactor :=
  match data r with
  | None => r
  | Some d =>
      let '(ops, d, k) := deregister_internal_descriptor d (kern r) in
      mk_reactor d k (queued r) (running r) (given r) (completed r) (destroyed r ++ ops) (ctl_failed r)
  end.

Definition with_kern (k : K) (r : reactor) : reactor :=
  mk_reactor (data r) k (queued r) (running r) (given r) (completed r) (destroyed r) (ctl_failed r).

(** [kernel_event] is what may happen to the descriptor on its own. *)
Context (kernel_event : K → K → Prop).

Inductive reactor_step : reactor → reactor → Prop :=
| step_kernel r k : kernel_event (kern r) k → reactor_step r (with_kern k r)
| step_start r j o spec : reactor_step r (start j o spec r)
| step_report r : reactor_step r (report r)
| step_dequeue r e :
    queued r = Some e →
    reactor_step r (mk_reactor (data r) (kern r) None (e :: running r) (given r) (completed r) (destroyed r) (ctl_failed r))
| step_complete r l1 e l2 : running r = l1 ++ e :: l2 → reactor_step r (do_complete e (l1 ++ l2) r)
| step_cancel r : reactor_step r (completing (λ d k, let '(c, d) := cancel_ops d in (c, Some d, k)) r)
| step_cancel_key r j key :
    reactor_step r (completing (λ d k, let '(c, d) := cancel_ops_by_key j key d in (c, Some d, k)) r)
| step_deregister r closing : reactor_step r (completing (deregister_descriptor closing) r)
| step_deregister_internal r : reactor_step r (deregister_internal r)
| step_cleanup r d :   (* [cleanup_descriptor_data], behind the deregistration *)
    data r = Some d → shutdown_ d = true →
    reactor_step r
      (mk_reactor None (kern r) (queued r) (running r) (given r) (completed r) (destroyed r) (ctl_failed r)).
End reactor.
