(* ===== verification/EpollReactorFacts.v ===== *)
(** The invariants of a descriptor of the epoll reactor: operations are
    neither lost nor duplicated, and no edge is missed. *)

From stdpp Require Import relations.
From S2P Require Import Prelude AsioBuffers SocketOps SocketOpsFacts EpollReactor.

#[local] Open Scope Z_scope.

(** * Events *)

Definition bit (j : op_type) : Z := match j with read_op => 0 | write_op => 2 | except_op => 1 end.

Lemma has_flag e j : has e (flag j) = Z.testbit e (bit j).
Proof. destruct j; [apply (has_bit e 0)|apply (has_bit e 2)|apply (has_bit e 1)]; lia. Qed.

Lemma has_lor_l a b j : has (Z.lor a b) (flag j) = has a (flag j) || has b (flag j).
Proof. rewrite !has_flag. apply Z.lor_spec. Qed.

Lemma has_0 f : has 0 f = false.
Proof. unfold has. by rewrite Z.land_0_l. Qed.

(** A queue that is concerned by some of the events is concerned by all. *)
Lemma concerns_lor a b j : concerns (Z.lor a b) j = concerns a j || concerns b j.
Proof.
  unfold concerns, has. rewrite Z.land_lor_distr_l.
  destruct (Z.eqb_spec (Z.lor (Z.land a (Z.lor (Z.lor (flag j) EPOLLERR) EPOLLHUP))
    (Z.land b (Z.lor (Z.lor (flag j) EPOLLERR) EPOLLHUP))) 0) as [E|E].
  - by apply Z.lor_eq_0_iff in E as [-> ->].
  - destruct (Z.eqb_spec (Z.land a (Z.lor (Z.lor (flag j) EPOLLERR) EPOLLHUP)) 0) as [E1|]; [|done].
    destruct (Z.eqb_spec (Z.land b (Z.lor (Z.lor (flag j) EPOLLERR) EPOLLHUP)) 0) as [E2|]; [|done].
    by rewrite E1, E2 in E.
Qed.

Lemma concerns_0 j : concerns 0 j = false.
Proof. apply has_0. Qed.

(** * The kernel *)

(** [ready j] says that an operation of type [j] would not block, [edge j]
    that epoll has an event for it to report, and [failed j] remembers that a
    call for an operation of that type has found the end of the stream or has
    failed with an error other than that it would block.  An operation that is
    not done, or that exhausts the descriptor, leaves it not ready unless it
    has failed so ([recv_refused], [send_refused] and [accept_refused] are the
    calls behind this; a receive operation on a socket that is configured with
    [reset_edge_on_partial_read], which is off by default, need not do so, as
    it counts a partial read as exhausting); a descriptor that becomes ready has an edge if it is
    registered for it, and so has one whose registration is changed while it
    is ready; an edge lasts until it is reported. *)
Class EpollLaws (K : Type) `{Epoll K} := {
  ready : op_type → K → bool;
  edge : op_type → K → bool;
  failed : op_type → K → bool;
  k_registered : K → Z;
  kernel_event : K → K → Prop;
  kernel_event_law k k' :
    kernel_event k k' →
    k_registered k' = k_registered k ∧
    ∀ i, (edge i k = true → edge i k' = true) ∧ failed i k' = failed i k ∧
      (ready i k' = true → ready i k = true ∨ (has (k_registered k) (flag i) = true → edge i k' = true));
  perform_law j o k st ec k' :
    perform j o k = (st, ec, k') →
    k_registered k' = k_registered k ∧
    (∀ i, (edge i k = true → edge i k' = true) ∧ (failed i k = true → failed i k' = true) ∧
      (ready i k' = true → ready i k = true)) ∧
    (st ≠ done → ready j k' = false ∨ failed j k' = true);
  ctl_add_law events k r k' :
    epoll_ctl_add events k = (r, k') →
    match r with Done _ => k_registered k' = events | Failed e => e ≠ 0 end;
  ctl_mod_law events k r k' :
    epoll_ctl_mod events k = (r, k') →
    match r with
    | Done _ =>
        k_registered k' = events ∧
        ∀ i, ready i k' = ready i k ∧ failed i k' = failed i k ∧ (edge i k = true → edge i k' = true) ∧
          (ready i k = true → has events (flag i) = true → edge i k' = true)
    | Failed e => e ≠ 0 ∧ k' = k
    end;
  wait_law k events k' :
    epoll_wait k = (events, k') →
    k_registered k' = k_registered k ∧
    ∀ i, ready i k' = ready i k ∧ failed i k' = failed i k ∧
      (edge i k = true → concerns events i = true ∨ edge i k' = true)
}.

(** ** The calls behind an operation *)

Section calls.
  Context {K : Type} `{Kernel K}.

(** A receive operation that is not done, or that exhausts the descriptor,
    ended with a call that would block, that failed or that found the end of
    the stream. *)
Lemma recv_refused fuel s state size (k : K) st r k' :
  has state reset_edge_on_partial_read = false →
  recv_perform fuel s state size k = Ret (st, r, k') → st ≠ done →
  ∃ k1 x, k_recv s size k1 = (x, k') ∧
    match x with
    | Failed ec => st = (if blocks ec then not_done else done_and_exhausted)
    | Done d => d = [] ∧ st = done_and_exhausted
    end.
Proof.
  intros Hp. unfold recv_perform, recv_status. revert k.
  induction fuel as [|fuel IH]; intros k; cbn [non_blocking_recv]; [done|].
  destruct (k_recv s size k) as [[d|ec] k1] eqn:E.
  - destruct (has state stream_oriented) eqn:Es; cbn [andb]; [|by intros [= <- <- <-] []].
    destruct (Nat.eqb_spec (length d) 0) as [El|El]; rewrite Hp.
    + intros [= <- <- <-] _. exists k, (Done d). split_and!; [done|by apply nil_length_inv|done].
    + destruct (Nat.ltb_spec (length d) 1) as [?|_]; [lia|]. by intros [= <- <- <-] [].
  - destruct (ec =? interrupted) eqn:Ei; [apply IH|]. destruct (blocks ec) eqn:Eb; intros [= <- <- <-] Hne.
    + exists k, (Failed ec). by rewrite Eb.
    + exists k, (Failed ec). split; [done|]. revert Hne. rewrite Eb, Hp.
      cbn [length]. clear IH. destruct (has state stream_oriented && _); [done|]. by intros [].
Qed.

(** A send operation: the call sent less than it was given, which fills the
    buffer of the socket, would block or failed. *)
Lemma send_refused fuel s state d (k : K) st r k' :
  send_perform fuel s state d k = Ret (st, r, k') → st ≠ done →
  ∃ k1 x, k_send s d k1 = (x, k') ∧
    match x with
    | Failed ec => st = (if blocks ec then not_done else done_and_exhausted)
    | Done n => (n < length d)%nat ∧ st = done_and_exhausted
    end.
Proof.
  unfold send_perform, send_status. revert k.
  induction fuel as [|fuel IH]; intros k; cbn [non_blocking_send]; [done|].
  destruct (k_send s d k) as [[n|ec] k1] eqn:E.
  - destruct (has state stream_oriented); cbn [andb]; [|by intros [= <- <- <-] []].
    destruct (Nat.ltb_spec n (length d)); intros [= <- <- <-] Hne; [|done]. by exists k, (Done n).
  - destruct (ec =? interrupted) eqn:Ei; [apply IH|]. destruct (blocks ec) eqn:Eb; intros [= <- <- <-] Hne.
    + exists k, (Failed ec). by rewrite Eb.
    + exists k, (Failed ec). split; [done|]. revert Hne. rewrite Eb.
      clear IH. destruct (has state stream_oriented && _); [done|]. by intros [].
Qed.

(** An accept operation is not done when the call would block, and also when
    the connection at the head of the queue had been aborted. *)
Lemma accept_refused fuel s state (k : K) st r k' :
  accept_perform fuel s state k = Ret (st, r, k') → st ≠ done →
  st = not_done ∧ ∃ k1 ec, accept s k1 = (Failed ec, k') ∧
    (blocks ec = true ∨ (ec = connection_aborted ∨ ec = EPROTO) ∧ has state enable_connection_aborted = false).
Proof.
  unfold accept_perform. revert k. induction fuel as [|fuel IH]; intros k; cbn [non_blocking_accept]; [done|].
  destruct (accept s k) as [[n|ec] k1] eqn:E; [by intros [= <- <- <-] []|].
  destruct (ec =? interrupted) eqn:Ei; [apply IH|].
  destruct (accept_again state ec false) eqn:Ea; intros [= <- <- <-] Hne; [|done].
  split; [done|]. exists k, ec. split; [done|]. unfold accept_again in Ea.
  destruct (blocks ec); [by left|]. right.
  destruct (Z.eqb_spec ec connection_aborted), (Z.eqb_spec ec EPROTO); cbn [orb] in Ea;
    try done; (split; [auto|by apply negb_true_iff]).
Qed.
End calls.

(** ** What the proofs use of the laws *)

Section due.
  Context {K : Type} `{EpollLaws K}.
  Implicit Types k : K.

(** An operation of the type would not block, and none has failed. *)
Definition due (i : op_type) (k : K) : bool := ready i k && negb (failed i k).

Lemma due_true i k : due i k = true ↔ ready i k = true ∧ failed i k = false.
Proof. unfold due. by rewrite andb_true_iff, negb_true_iff. Qed.

Lemma due_kernel_event k k' :
  kernel_event k k' →
  k_registered k' = k_registered k ∧
  ∀ i, (edge i k = true → edge i k' = true) ∧
    (due i k' = true → due i k = true ∨ (has (k_registered k) (flag i) = true → edge i k' = true)).
Proof.
  intros [Hreg Hk]%kernel_event_law. split; [done|]. intros i. destruct (Hk i) as (He & Hf & Hr).
  split; [done|]. rewrite !due_true, Hf. intros [Hr' ->]. destruct (Hr Hr'); auto.
Qed.

Lemma due_perform j o k st ec k' :
  perform j o k = (st, ec, k') →
  k_registered k' = k_registered k ∧
  (∀ i, (edge i k = true → edge i k' = true) ∧ (due i k' = true → due i k = true)) ∧
  (st ≠ done → due j k' = false).
Proof.
  intros (Hreg & Hk & Hst)%perform_law. split; [done|]. split.
  - intros i. destruct (Hk i) as (He & Hf & Hr). split; [done|]. rewrite !due_true. intros [Hr' Hf'].
    split; [auto|]. destruct (failed i k); [|done]. by rewrite Hf in Hf'.
  - intros Hne. unfold due. destruct (Hst Hne) as [->| ->]; [done|apply andb_false_r].
Qed.

Lemma due_ctl_mod events k r k' :
  epoll_ctl_mod events k = (r, k') →
  match r with
  | Done _ =>
      k_registered k' = events ∧
      ∀ i, due i k' = due i k ∧ (edge i k = true → edge i k' = true) ∧
        (due i k = true → has events (flag i) = true → edge i k' = true)
  | Failed e => e ≠ 0 ∧ k' = k
  end.
Proof.
  intros Hm%ctl_mod_law. destruct r; [|done]. destruct Hm as [Hreg Hk]. split; [done|]. intros i.
  destruct (Hk i) as (Hr & Hf & He & He'). unfold due at 1 2. rewrite Hr, Hf. split_and!; [done..|].
  intros [? _]%due_true. auto.
Qed.

Lemma due_wait k events k' :
  epoll_wait k = (events, k') →
  k_registered k' = k_registered k ∧
  ∀ i, due i k' = due i k ∧ (edge i k = true → concerns events i = true ∨ edge i k' = true).
Proof.
  intros [Hreg Hk]%wait_law. split; [done|]. intros i. destruct (Hk i) as (Hr & Hf & He).
  unfold due. by rewrite Hr, Hf.
Qed.
End due.

Section facts.
  Context {K : Type} `{EpollLaws K}.
  Implicit Types (r : @reactor K) (d : descriptor_state) (k : K).

(** * Operations are conserved *)

Definition waiting (r : @reactor K) : list (op_type * reactor_op) :=
  match data r with Some d => all_ops d | None => [] end.

Definition of_type (j : op_type) (l : list (op_type * reactor_op)) : list reactor_op :=
  omap (λ p, if decide (p.1 = j) then Some p.2 else None) l.

(** Every operation that was started is in one place, and those that wait for
    the same readiness do so in the order in which they were started. *)
Record conserved r : Prop := {
  cons_ops : given r ≡ₚ (completed r).*1 ++ destroyed r ++ waiting r;
  cons_order j d : data r = Some d → op_queue_ d j `sublist_of` of_type j (given r);
  cons_shut d : data r = Some d → shutdown_ d = true → all_ops d = []
}.

Lemma of_type_snoc j i o l : of_type j (l ++ [(i, o)]) = of_type j l ++ (if decide (i = j) then [o] else []).
Proof. unfold of_type. rewrite omap_app. cbn. by destruct (decide (i = j)). Qed.

Lemma upd_eq {A} (f : op_type → A) j a : upd f j a j = a.
Proof. unfold upd. by rewrite decide_True. Qed.

Lemma upd_ne {A} (f : op_type → A) j a i : i ≠ j → upd f j a i = f i.
Proof. intros Hne. unfold upd. by rewrite decide_False. Qed.

Lemma all_ops_enqueue j o d : all_ops (enqueue_op j o d) ≡ₚ (j, o) :: all_ops d.
Proof.
  unfold all_ops, enqueue_op, set_queue. cbn [op_queue_].
  destruct j; rewrite upd_eq, !upd_ne, map_app by done; cbn [map]; rewrite <- Permutation_cons_append; cbn [app];
    by rewrite <- ?Permutation_middle.
Qed.

(** What [perform_queue] completes is the beginning of the queue. *)
Lemma perform_queue_split j q k c rest b k' :
  perform_queue j q k = (c, rest, b, k') → q = c.*1 ++ rest.
Proof.
  revert k c. induction q as [|o q IH]; intros k c; cbn [perform_queue].
  { by intros [= <- <- _ _]. }
  destruct (perform j o k) as [[st ec] k1]. destruct st.
  - by intros [= <- <- _ _].
  - destruct (perform_queue j q k1) as [[[c1 r1] b1] k2] eqn:E. intros [= <- <- <- <-].
    cbn. by rewrite (IH k1 c1 E) at 1.
  - by intros [= <- <- _ _].
Qed.

(** What a type's queue gives to the list of all operations. *)
Lemma all_ops_split j d q1 q2 :
  op_queue_ d j = q1 ++ q2 → all_ops d ≡ₚ map (pair j) q1 ++ all_ops (set_queue j q2 d).
Proof.
  intros E. unfold all_ops, set_queue. cbn [op_queue_].
  destruct j; rewrite upd_eq, !upd_ne, E, map_app, <- ?app_assoc by done; [done| |].
  - apply Permutation_app_swap_app.
  - by rewrite (Permutation_app_swap_app (map (pair write_op) _)), (Permutation_app_swap_app (map (pair read_op) _)).
Qed.

Lemma map_fst_pair {A B} j (l : list (A * B)) : (map (λ p, (j, p.1, p.2)) l).*1 = map (pair (A := op_type) j) l.*1.
Proof. induction l; cbn; congruence. Qed.

Lemma perform_type_conserves e j d k c d' k' :
  perform_type e j d k = (c, d', k') →
  all_ops d ≡ₚ c.*1 ++ all_ops d' ∧ (∀ i, op_queue_ d' i `sublist_of` op_queue_ d i) ∧ shutdown_ d' = shutdown_ d.
Proof.
  unfold perform_type. destruct (concerns e j); [|intros [= <- <- <-]; by split_and!].
  destruct (perform_queue j (op_queue_ d j) k) as [[[c1 r1] b1] k1] eqn:E. intros [= <- <- <-].
  apply perform_queue_split in E. split_and!; [|intros i|done].
  - rewrite map_fst_pair. change (all_ops (set_speculative j b1 (set_queue j r1 d))) with (all_ops (set_queue j r1 d)).
    by apply all_ops_split.
  - cbn [op_queue_ set_queue set_speculative]. destruct (decide (i = j)) as [->|]; [|by rewrite upd_ne].
    rewrite upd_eq, E. by apply sublist_inserts_l.
Qed.

Lemma perform_io_conserves e d k c d' k' :
  perform_io e d k = (c, d', k') →
  all_ops d ≡ₚ c.*1 ++ all_ops d' ∧ (∀ i, op_queue_ d' i `sublist_of` op_queue_ d i) ∧ shutdown_ d' = shutdown_ d.
Proof.
  unfold perform_io. destruct (perform_type e except_op d k) as [[c2 d2] k2] eqn:E2.
  destruct (perform_type e write_op d2 k2) as [[c1 d1] k1] eqn:E1.
  destruct (perform_type e read_op d1 k1) as [[c0 d0] k0] eqn:E0. intros [= <- <- <-].
  apply perform_type_conserves in E2 as (P2 & S2 & Hs2), E1 as (P1 & S1 & Hs1), E0 as (P0 & S0 & Hs0).
  split_and!; [|intros i; by rewrite S0, S1, S2|congruence].
  by rewrite P2, P1, P0, !fmap_app, <- !app_assoc.
Qed.

Lemma split_key_spec key q ops other :
  split_key key q = (ops, other) → q ≡ₚ ops ++ other ∧ other `sublist_of` q.
Proof.
  revert ops other. induction q as [|o q IH]; intros ops other; cbn [split_key]; [by intros [= <- <-]|].
  destruct (split_key key q) as [ops1 other1]. destruct (IH _ _ eq_refl) as [Hp Hs].
  destruct (cancellation_key_ o =? key)%nat; intros [= <- <-].
  - split; [by rewrite Hp|by apply sublist_cons].
  - split; [by rewrite Hp, Permutation_middle|by apply sublist_skip].
Qed.

Lemma all_ops_filter j d ops other :
  op_queue_ d j ≡ₚ ops ++ other → all_ops d ≡ₚ map (pair j) ops ++ all_ops (set_queue j other d).
Proof.
  intros E. transitivity (all_ops (set_queue j (ops ++ other) d)).
  { unfold all_ops, set_queue. cbn [op_queue_]. by destruct j; rewrite upd_eq, !upd_ne, E by done. }
  rewrite (all_ops_split j (set_queue j (ops ++ other) d) ops other).
  - apply Permutation_app_head. unfold all_ops, set_queue. cbn [op_queue_].
    by destruct j; rewrite !upd_eq, !upd_ne by done.
  - cbn [op_queue_ set_queue]. by rewrite upd_eq.
Qed.

Lemma fst_map_pair {A} (l : list A) (e : error_code) : (map (λ p, (p, e)) l).*1 = l.
Proof. induction l; cbn; congruence. Qed.

Lemma all_ops_nil d : (∀ j, op_queue_ d j = []) → all_ops d = [].
Proof. intros E. unfold all_ops. by rewrite !E. Qed.

(** What a completing function must do. *)
Definition conserving
    (f : descriptor_state → K → list (op_type * reactor_op * error_code) * option descriptor_state * K) : Prop :=
  ∀ d k c (od : option descriptor_state) k', f d k = (c, od, k') →
    match od with
    | Some d' => all_ops d ≡ₚ c.*1 ++ all_ops d' ∧ (∀ i, op_queue_ d' i `sublist_of` op_queue_ d i) ∧
        (shutdown_ d' = true → shutdown_ d = true ∨ all_ops d' = [])
    | None => c = [] ∧ shutdown_ d = true
    end.

Lemma cancel_conserving : conserving (λ d k, let '(c, d) := cancel_ops d in (c, Some d, k)).
Proof.
  intros d k c d' k'. unfold cancel_ops. intros [= <- <- <-]. rewrite fst_map_pair.
  rewrite (all_ops_nil (empty_queues d)) by done. rewrite app_nil_r. split_and!; [done| |by right].
  intros i. apply sublist_nil_l.
Qed.

Lemma deregister_conserving closing : conserving (deregister_descriptor closing).
Proof.
  intros d k c d' k'. unfold deregister_descriptor. destruct (shutdown_ d) eqn:Es; [by intros [= <- <- <-]|].
  intros [= <- <- <-]. rewrite fst_map_pair, (all_ops_nil (shut_descriptor d)) by done. rewrite app_nil_r.
  split_and!; [done| |by right]. intros i. apply sublist_nil_l.
Qed.

Lemma cancel_key_conserving j key : conserving (λ d k, let '(c, d) := cancel_ops_by_key j key d in (c, Some d, k)).
Proof.
  intros d k c d' k'. unfold cancel_ops_by_key. destruct (split_key key (op_queue_ d j)) as [ops other] eqn:E.
  intros [= <- <- <-]. apply split_key_spec in E as [Hp Hs].
  assert ((map (λ o, (j, o, operation_aborted)) ops).*1 = map (pair j) ops) as ->.
  { clear. induction ops; cbn; congruence. }
  split_and!; [by apply all_ops_filter| |].
  - intros i. cbn [op_queue_ set_queue]. destruct (decide (i = j)) as [->|]; [by rewrite upd_eq|by rewrite upd_ne].
  - cbn [shutdown_ set_queue]. by left.
Qed.

(** What is in no queue any more when a descriptor is shut down. *)
Lemma conserved_completing f r : conserving f → conserved r → conserved (completing f r).
Proof.
  intros Hf Hr. pose proof Hr as [Hc Ho Hs]. unfold completing, waiting in *.
  destruct (data r) as [d|] eqn:Ed; [|done].
  destruct (f d (kern r)) as [[c od] k'] eqn:Ef. apply Hf in Ef. destruct od as [d'|].
  - destruct Ef as (Hp & Hsub & Hsh). split; unfold waiting; cbn [data kern queued running given completed destroyed ctl_failed].
    + rewrite Hc, Hp, fmap_app, <- !app_assoc. apply Permutation_app_head.
      by rewrite (Permutation_app_swap_app c.*1).
    + intros j ? [= <-]. etrans; [apply Hsub|by apply Ho].
    + intros ? [= <-] Hd. destruct (Hsh Hd) as [Hsd|]; [|done].
      specialize (Hs d eq_refl Hsd). rewrite Hs in Hp. symmetry in Hp.
      by apply Permutation_nil_r, app_nil in Hp as [_ ?].
  - destruct Ef as [-> Hsd]. specialize (Hs d eq_refl Hsd). rewrite Hs in Hc.
    split; unfold waiting; cbn [data kern queued running given completed destroyed ctl_failed]; [by rewrite app_nil_r|done..].
Qed.

Lemma start_op_conserves j o spec d k s od b k' :
  start_op j o spec (Some d) k = (s, od, b, k') →
  ∃ d1, od = Some d1 ∧ shutdown_ d1 = shutdown_ d ∧
    match s with
    | Waits => shutdown_ d = false ∧ op_queue_ d1 = upd (op_queue_ d) j (op_queue_ d j ++ [o])
    | Immediate _ => op_queue_ d1 = op_queue_ d
    end.
Proof.
  unfold start_op. destruct (shutdown_ d) eqn:Es; [intros [= <- <- <- <-]; by eexists|].
  destruct (op_queue_ d j) as [|x q] eqn:Eq; cycle 1.
  { intros [= <- <- <- <-]. eexists. split; [done|]. cbn. by rewrite Eq. }
  destruct (spec && _).
  - destruct (if try_speculative_ d j then perform j o k else (not_done, success, k)) as [[[] ec] k1].
    + destruct (registered_events_ d =? 0); [intros [= <- <- <- <-]; by eexists|].
      destruct (bool_decide (j = write_op) && _).
      * destruct (epoll_ctl_mod _ k1) as [[u|e] k2]; intros [= <- <- <- <-]; eexists; (split; [done|]); cbn; by rewrite ?Eq.
      * intros [= <- <- <- <-]. eexists. split; [done|]. cbn. by rewrite Eq.
    + intros [= <- <- <- <-]. by eexists.
    + intros [= <- <- <- <-]. eexists. split; [done|]. by destruct (negb _).
  - destruct (registered_events_ d =? 0); [intros [= <- <- <- <-]; by eexists|].
    destruct (epoll_ctl_mod _ k) as [u k2]. intros [= <- <- <- <-]. eexists. split; [done|].
    destruct (bool_decide (j = write_op)); cbn; by rewrite Eq.
Qed.

Lemma all_ops_queues d d' : op_queue_ d' = op_queue_ d → all_ops d' = all_ops d.
Proof. intros E. unfold all_ops. by rewrite E. Qed.

Lemma conserved_start j o spec r : conserved r → conserved (start j o spec r).
Proof.
  intros [Hc Ho Hs]. unfold start. destruct (data r) as [d|] eqn:Ed; cycle 1.
  { cbn. unfold waiting in Hc. rewrite Ed in Hc. split; unfold waiting; cbn [data kern queued running given completed destroyed ctl_failed]; [|done..].
    rewrite app_nil_r in *. rewrite Hc, fmap_app, <- !app_assoc. apply Permutation_app_head.
    by rewrite Permutation_app_comm. }
  destruct (start_op j o spec (Some d) (kern r)) as [[[s d'] b] k'] eqn:E.
  destruct (start_op_conserves _ _ _ _ _ _ _ _ _ E) as (d1 & -> & Hsh & Hcase).
  unfold waiting in *. rewrite Ed in Hc. destruct s as [|ec].
  - destruct Hcase as [Hlive Hq]. split; unfold waiting; cbn [data kern queued running given completed destroyed ctl_failed].
    + rewrite Hc, <- !app_assoc. do 2 apply Permutation_app_head.
      rewrite (all_ops_queues (enqueue_op j o d) d1), all_ops_enqueue by done. by rewrite Permutation_app_comm.
    + intros i ? [= <-]. rewrite Hq, of_type_snoc. specialize (Ho i d eq_refl).
      destruct (decide (i = j)) as [->|]; [rewrite upd_eq, decide_True by done; by apply sublist_app|].
      rewrite upd_ne, decide_False by done. by rewrite app_nil_r.
    + intros ? [= <-]. congruence.
  - split; unfold waiting; cbn [data kern queued running given completed destroyed ctl_failed].
    + rewrite Hc, fmap_app, (all_ops_queues d d1 Hcase), <- !app_assoc. cbn.
      apply Permutation_app_head. rewrite app_assoc. by rewrite (Permutation_app_comm _ [(j, o)]).
    + intros i ? [= <-]. rewrite Hcase, of_type_snoc. apply sublist_inserts_r. by apply Ho.
    + intros ? [= <-] Hd. rewrite (all_ops_queues d d1 Hcase). apply Hs; [done|congruence].
Qed.

Lemma conserved_same r r' :
  data r' = data r → given r' = given r → completed r' = completed r → destroyed r' = destroyed r →
  conserved r → conserved r'.
Proof.
  intros Ed Eg Ec Ee [Hc Ho Hs]. split; unfold waiting in *; rewrite Ed, ?Eg, ?Ec, ?Ee; [done|done|done].
Qed.

Lemma conserved_step r r' : conserved r → reactor_step kernel_event r r' → conserved r'.
Proof.
  intros Hr Hstep. destruct Hstep as
    [r k _|r j o spec|r|r e _|r l1 e l2 _|r|r j key|r closing|r|r d Hd Hsd].
  - by apply (conserved_same r).
  - by apply conserved_start.
  - unfold report. destruct (epoll_wait (kern r)) as [ev k]. destruct (ev =? 0); by apply (conserved_same r).
  - by apply (conserved_same r).
  - apply (conserved_same (completing (λ d k, let '(c, d, k) := perform_io e d k in (c, Some d, k)) r)).
    5:{ apply conserved_completing; [|done]. intros d k c od k'.
        destruct (perform_io e d k) as [[c1 d1] k1] eqn:E. intros [= <- <- <-].
        apply perform_io_conserves in E as (? & ? & Hsd). rewrite Hsd. auto. }
    all: unfold do_complete, completing; destruct (data r) as [d|] eqn:Ed; [|by rewrite ?Ed];
      by destruct (perform_io e d (kern r)) as [[c1 d1] k1].
  - apply conserved_completing; [apply cancel_conserving|done].
  - apply conserved_completing; [apply cancel_key_conserving|done].
  - apply conserved_completing; [apply deregister_conserving|done].
  - pose proof Hr as [Hc Ho Hs]. unfold deregister_internal, deregister_internal_descriptor, waiting in *.
    destruct (data r) as [d|] eqn:Ed; [|done]. destruct (shutdown_ d) eqn:Es.
    + rewrite (Hs d eq_refl Es) in Hc.
      split; unfold waiting; cbn [data kern queued running given completed destroyed ctl_failed];
        [by rewrite app_nil_r|done..].
    + split; unfold waiting; cbn [data kern queued running given completed destroyed ctl_failed].
      * rewrite Hc, (all_ops_nil (shut_descriptor d)), app_nil_r by done. done.
      * intros j ? [= <-]. apply sublist_nil_l.
      * by intros ? [= <-].
  - destruct Hr as [Hc Ho Hs]. unfold waiting in Hc. rewrite Hd, (Hs d Hd Hsd) in Hc. by split.
Qed.

(** * Edges *)

(** The events that threads still have to look at. *)
Definition events_of r : list Z := match queued r with Some e => e :: running r | None => running r end.

Definition covered (P : list Z) (k : K) (j : op_type) : Prop :=
  edge j k = true ∨ ∃ e, e ∈ P ∧ concerns e j = true.

(** The registration is what the kernel has, operations wait only for what is
    registered, and where they wait, or are not tried at once, a descriptor
    that is ready has an event that says so. *)
Record watched (d : descriptor_state) (k : K) (P : list Z) : Prop := {
  w_registered : registered_events_ d = 0 ∨
    k_registered k = registered_events_ d ∧ has (registered_events_ d) (flag read_op) = true ∧
    has (registered_events_ d) (flag except_op) = true;
  w_waiting j : op_queue_ d j ≠ [] → has (registered_events_ d) (flag j) = true;
  w_edge j : has (registered_events_ d) (flag j) = true →
    op_queue_ d j ≠ [] ∨ try_speculative_ d j = false → due j k = true → covered P k j
}.

(** Readiness may go, edges and events may come. *)
Lemma watched_mono d k k' P P' :
  k_registered k' = k_registered k →
  (∀ i, has (registered_events_ d) (flag i) = true → due i k' = true → due i k = true ∨ edge i k' = true) →
  (∀ i, covered P k i → covered P' k' i) →
  watched d k P → watched d k' P'.
Proof.
  intros Hk Hready Hcov [Hreg Hw He]. split; [by rewrite Hk|done|].
  intros j Hj Hq Hr. destruct (Hready j Hj Hr) as [Hr'|]; [|by left]. apply Hcov. by apply He.
Qed.

Lemma covered_edges P k k' i : (edge i k = true → edge i k' = true) → covered P k i → covered P k' i.
Proof. intros Hk [He|He]; [left; auto|by right]. Qed.

Lemma watched_kernel d k k' P : kernel_event k k' → watched d k P → watched d k' P.
Proof.
  intros Hk%due_kernel_event Hw. destruct Hk as [Hreg Hk]. eapply watched_mono; [done| | |done].
  - intros i Hi Hr. destruct (proj2 (Hk i) Hr) as [|He]; [by left|]. right. apply He.
    destruct (w_registered _ _ _ Hw) as [E|[E _]]; [by rewrite E, has_0 in Hi|by rewrite E].
  - intros i. apply covered_edges, Hk.
Qed.

(** A kernel in which an operation was performed. *)
Lemma watched_perform d k P j o st ec k' :
  perform j o k = (st, ec, k') → watched d k P → watched d k' P.
Proof.
  intros (Hreg & Hk & _)%due_perform Hw. eapply watched_mono; [done| | |done].
  - intros i _ Hr. left. by apply Hk.
  - intros i. apply covered_edges, Hk.
Qed.

(** An operation is queued where the next edge is not missed. *)
Lemma watched_enqueue d k P j o :
  watched d k P → has (registered_events_ d) (flag j) = true → (due j k = true → covered P k j) →
  watched (enqueue_op j o d) k P.
Proof.
  intros [Hreg Hw He] Hj Hcov. split; cbn [registered_events_ enqueue_op set_queue op_queue_ try_speculative_]; [done| |].
  - intros i. destruct (decide (i = j)) as [->|]; [done|]. rewrite upd_ne by done. apply Hw.
  - intros i Hi. destruct (decide (i = j)) as [->|]; [by intros _|]. rewrite upd_ne by done. by apply He.
Qed.

(** The registration was changed, with success. *)
Lemma watched_mod d k P events u k' :
  epoll_ctl_mod events k = (Done u, k') → watched d k P →
  has events (flag read_op) = true → has events (flag except_op) = true →
  (∀ j, has (registered_events_ d) (flag j) = true → has events (flag j) = true) →
  watched (set_registered events d) k' P ∧ ∀ j, has events (flag j) = true → due j k' = true → covered P k' j.
Proof.
  intros (Hreg' & Hk)%due_ctl_mod [Hreg Hw He] Hin Hpri Hmore.
  assert (∀ j, has events (flag j) = true → due j k' = true → covered P k' j) as Hall.
  { intros j Hj Hr. left. destruct (Hk j) as (Hr' & _ & He'). apply He'; [by rewrite <- Hr'|done]. }
  split; [|done]. split; cbn [registered_events_ set_registered op_queue_ try_speculative_].
  - by right.
  - intros j Hj. by apply Hmore, Hw.
  - intros j Hj _. by apply Hall.
Qed.

Lemma watched_speculative d k P j b :
  watched d k P → (b = false → due j k = true → covered P k j) → watched (set_speculative j b d) k P.
Proof.
  intros [Hreg Hw He] Hb. split; cbn [registered_events_ set_speculative op_queue_ try_speculative_]; [done..|].
  intros i Hi. destruct (decide (i = j)) as [->|]; [rewrite upd_eq|rewrite upd_ne by done; by apply He].
  intros [Hq|Hs]; [apply He; [done|by left]|by apply Hb].
Qed.

(** The attempt at the beginning of [start_op]. *)
Lemma watched_attempt d k P j o st ec k' :
  has (registered_events_ d) (flag j) = false ∨ op_queue_ d j = [] →
  (if try_speculative_ d j then perform j o k else (not_done, success, k)) = (st, ec, k') →
  watched d k P →
  watched d k' P ∧ (st ≠ done → has (registered_events_ d) (flag j) = true → due j k' = true → covered P k' j) ∧
  (st = done_and_exhausted → due j k' = false).
Proof.
  intros Hq Ha Hw. destruct (try_speculative_ d j) eqn:Es.
  - split; [by eapply watched_perform|]. apply due_perform in Ha as (_ & _ & Hst). split.
    + intros Hne _ Hr. by rewrite Hst in Hr.
    + intros ->. by apply Hst.
  - injection Ha as <- <- <-. split; [done|]. split; [|done]. intros _ Hj Hr. apply (w_edge _ _ _ Hw); auto.
Qed.

Lemma lor_twice a b : Z.lor a (Z.lor a b) = Z.lor a b.
Proof. by rewrite Z.lor_assoc, Z.lor_diag. Qed.

Lemma watched_start j o spec d k P s od k' :
  shutdown_ d = false → watched d k P → start_op j o spec (Some d) k = (s, od, false, k') →
  ∃ d', od = Some d' ∧ watched d' k' P.
Proof.
  intros Hsd Hw. unfold start_op. rewrite Hsd. destruct (op_queue_ d j) as [|x q] eqn:Eq; cycle 1.
  { intros [= <- <- <-]. eexists. split; [done|]. assert (op_queue_ d j ≠ []) as Hne by (by rewrite Eq).
    apply watched_enqueue; [done|by apply (w_waiting _ _ _ Hw)|]. apply (w_edge _ _ _ Hw); [|by left].
    by apply (w_waiting _ _ _ Hw). }
  assert (registered_events_ d ≠ 0 → has (registered_events_ d) (flag read_op) = true ∧
    has (registered_events_ d) (flag except_op) = true) as Hbase.
  { intros Hne. by destruct (w_registered _ _ _ Hw) as [|[_ ?]]. }
  destruct (spec && _).
  - destruct (if try_speculative_ d j then perform j o k else (not_done, success, k)) as [[st ec] k1] eqn:Ea.
    destruct (watched_attempt d k P j o st ec k1 ltac:(by right) Ea Hw) as (Hw1 & Hcov & Hex).
    destruct st.
    + destruct (Z.eqb_spec (registered_events_ d) 0) as [E0|E0]; [intros [= <- <- <-]; by eexists|].
      destruct (Hbase E0) as [Hin Hpri]. destruct (bool_decide_reflect (j = write_op)) as [->|Hj]; cbn [andb].
      * destruct (has (registered_events_ d) EPOLLOUT) eqn:Eo; cbn [negb].
        { intros [= <- <- <-]. eexists. split; [done|]. apply watched_enqueue; [done|done|]. by apply Hcov. }
        destruct (epoll_ctl_mod _ k1) as [[u|e] k2] eqn:Em; intros [= <- <- <-]; eexists; (split; [done|]).
        -- rewrite lor_twice.
           assert (∀ i, has (registered_events_ d) (flag i) = true →
             has (Z.lor (registered_events_ d) EPOLLOUT) (flag i) = true) as Hmore.
           { intros i Hi. by rewrite has_lor_l, Hi. }
           destruct (watched_mod d k1 P _ u k2 Em Hw1) as [Hw2 Hall]; [auto..|].
           apply watched_enqueue; [done| |]; cbn [registered_events_ set_registered].
           ++ rewrite has_lor_l. apply orb_true_r.
           ++ apply Hall. rewrite has_lor_l. apply orb_true_r.
        -- apply due_ctl_mod in Em as [_ ->]. done.
      * intros [= <- <- <-]. eexists. split; [done|].
        assert (has (registered_events_ d) (flag j) = true) as Hj' by (by destruct j).
        apply watched_enqueue; [done|done|]. by apply Hcov.
    + intros [= <- <- <-]. by eexists.
    + intros [= <- <- <-]. eexists. split; [done|]. destruct (negb _); [|done].
      apply watched_speculative; [done|]. intros _ Hr. by rewrite Hex in Hr.
  - destruct (Z.eqb_spec (registered_events_ d) 0) as [E0|E0]; [intros [= <- <- <-]; by eexists|].
    destruct (Hbase E0) as [Hin Hpri].
    set (events := if bool_decide (j = write_op) then Z.lor (registered_events_ d) EPOLLOUT else registered_events_ d).
    assert ((if bool_decide (j = write_op) then set_registered (Z.lor (registered_events_ d) EPOLLOUT) d else d) =
      set_registered events d) as ->.
    { subst events. destruct (bool_decide _); [done|]. by destruct d. }
    cbn [registered_events_ set_registered].
    destruct (epoll_ctl_mod events k) as [[u|e] k2] eqn:Em; intros [= <- <- <-]. eexists. split; [done|].
    assert (∀ i, has (registered_events_ d) (flag i) = true → has events (flag i) = true) as Hmore.
    { intros i Hi. subst events. destruct (bool_decide _); [|done]. by rewrite has_lor_l, Hi. }
    assert (has events (flag j) = true) as Hj.
    { subst events. destruct (bool_decide_reflect (j = write_op)) as [->|]; [rewrite has_lor_l; apply orb_true_r|].
      by destruct j. }
    destruct (watched_mod d k P events u k2 Em Hw) as [Hw2 Hall]; [auto..|].
    apply watched_enqueue; [done|done|]. by apply Hall.
Qed.

(** What [perform_queue] leaves: operations wait, or the descriptor counts as
    exhausted, only if it is not ready. *)
Lemma perform_queue_watch j q k c rest b k' :
  perform_queue j q k = (c, rest, b, k') →
  k_registered k' = k_registered k ∧
  (∀ i, (edge i k = true → edge i k' = true) ∧ (due i k' = true → due i k = true)) ∧
  (rest ≠ [] ∨ b = false → due j k' = false).
Proof.
  revert k c. induction q as [|o q IH]; intros k c; cbn [perform_queue].
  { intros [= <- <- <- <-]. split_and!; [done|done|]. by intros [|]. }
  destruct (perform j o k) as [[st ec] k1] eqn:Ep. apply due_perform in Ep as (Hreg & Hk & Hst). destruct st.
  - intros [= <- <- <- <-]. split_and!; [done|done|]. intros _. by apply Hst.
  - destruct (perform_queue j q k1) as [[[c1 r1] b1] k2] eqn:E. intros [= <- <- <- <-].
    destruct (IH k1 c1 E) as (Hreg2 & Hk2 & Hrest). split_and!; [congruence| |done].
    intros i. split; [intros He; by apply Hk2, Hk|intros Hr; by apply Hk, Hk2].
  - intros [= <- <- <- <-]. split_and!; [done|done|]. intros _. by apply Hst.
Qed.

(** As [watched], but for types of operations that are still to be looked at. *)
Record watched_but (todo : op_type → bool) (d : descriptor_state) (k : K) (P : list Z) : Prop := {
  b_registered : registered_events_ d = 0 ∨
    k_registered k = registered_events_ d ∧ has (registered_events_ d) (flag read_op) = true ∧
    has (registered_events_ d) (flag except_op) = true;
  b_waiting j : op_queue_ d j ≠ [] → has (registered_events_ d) (flag j) = true;
  b_edge j : has (registered_events_ d) (flag j) = true →
    op_queue_ d j ≠ [] ∨ try_speculative_ d j = false → due j k = true → covered P k j ∨ todo j = true
}.

Lemma watched_perform_type e todo j d k P c d' k' :
  perform_type e j d k = (c, d', k') → (todo j = true → concerns e j = true) →
  watched_but todo d k P → watched_but (upd todo j false) d' k' P.
Proof.
  intros Hp Htodo [Hreg Hw He]. unfold perform_type in Hp. destruct (concerns e j) eqn:Ec.
  - destruct (perform_queue j (op_queue_ d j) k) as [[[c1 r1] b1] k1] eqn:E. injection Hp as <- <- <-.
    pose proof (perform_queue_split _ _ _ _ _ _ _ E) as Hsplit.
    apply perform_queue_watch in E as (Hk & Hmono & Hrest).
    split; cbn [registered_events_ set_speculative set_queue op_queue_ try_speculative_]; [by rewrite Hk| |].
    + intros i. destruct (decide (i = j)) as [->|]; [rewrite upd_eq|rewrite upd_ne by done; apply Hw].
      intros Hne. apply Hw. rewrite Hsplit. by destruct c1.*1.
    + intros i Hi. destruct (decide (i = j)) as [->|]; [rewrite !upd_eq|rewrite !upd_ne by done].
      * intros Hq Hr. by rewrite (Hrest Hq) in Hr.
      * intros Hq Hr. destruct (He i Hi Hq) as [Hc|]; [by apply Hmono| |by right].
        left. by apply (covered_edges _ k); [apply Hmono|].
  - injection Hp as <- <- <-. split; [done..|]. intros i Hi Hq Hr.
    destruct (He i Hi Hq Hr) as [|Ht]; [by left|]. destruct (decide (i = j)) as [->|]; [by apply Htodo in Ht|].
    right. by rewrite upd_ne.
Qed.

Lemma watched_perform_io e d k P P' c d' k' :
  perform_io e d k = (c, d', k') → (∀ x, x ∈ P → x = e ∨ x ∈ P') → watched d k P → watched d' k' P'.
Proof.
  intros Hp HP [Hreg Hw He].
  assert (watched_but (concerns e) d k P') as Hb.
  { split; [done..|]. intros j Hj Hq Hr. destruct (He j Hj Hq Hr) as [|(x & Hx & Hc)]; [by left; left|].
    destruct (HP x Hx) as [->|]; [by right|]. left. right. by exists x. }
  unfold perform_io in Hp. destruct (perform_type e except_op d k) as [[c2 d2] k2] eqn:E2.
  destruct (perform_type e write_op d2 k2) as [[c1 d1] k1] eqn:E1.
  destruct (perform_type e read_op d1 k1) as [[c0 d0] k0] eqn:E0. injection Hp as <- <- <-.
  apply (watched_perform_type _ _ _ _ _ _ _ _ _ E2) in Hb; [|done].
  apply (watched_perform_type _ _ _ _ _ _ _ _ _ E1) in Hb; [|done].
  apply (watched_perform_type _ _ _ _ _ _ _ _ _ E0) in Hb; [|done].
  destruct Hb as [Hreg0 Hw0 He0]. split; [done..|]. intros j Hj Hq Hr.
  destruct (He0 j Hj Hq Hr) as [|Ht]; [done|]. by destruct j.
Qed.

Lemma perform_io_shutdown e d k c d' k' : perform_io e d k = (c, d', k') → shutdown_ d' = shutdown_ d.
Proof. by intros (_ & _ & ?)%perform_io_conserves. Qed.

(** Fewer operations wait. *)
Lemma watched_fewer d d' k P :
  registered_events_ d' = registered_events_ d → try_speculative_ d' = try_speculative_ d →
  (∀ j, op_queue_ d' j ≠ [] → op_queue_ d j ≠ []) → watched d k P → watched d' k P.
Proof.
  intros Er Es Hq [Hreg Hw He]. split; rewrite ?Er, ?Es; [done|by eauto|].
  intros j Hj Hor. apply He; [done|]. destruct Hor as [Hne|]; [left; auto|by right].
Qed.

(** * The invariant of a reactor *)

Definition edges_ok r : Prop :=
  ∀ d, data r = Some d → shutdown_ d = false → ctl_failed r = false → watched d (kern r) (events_of r).

Lemma edges_completing f r :
  edges_ok r →
  (∀ d k c d' k', f d k = (c, Some d', k') → shutdown_ d' = false →
    shutdown_ d = false ∧ k' = k ∧ registered_events_ d' = registered_events_ d ∧
    try_speculative_ d' = try_speculative_ d ∧ ∀ j, op_queue_ d' j ≠ [] → op_queue_ d j ≠ []) →
  edges_ok (completing f r).
Proof.
  intros Hr Hf. unfold completing. destruct (data r) as [d|] eqn:Ed; [|by intros ? ?; congruence].
  destruct (f d (kern r)) as [[c od] k'] eqn:E. intros d' Hd' Hsd Hctl. cbn in Hd', Hctl. subst od.
  destruct (Hf _ _ _ _ _ E Hsd) as (Hsd0 & -> & Hreg & Hspec & Hq). cbn [kern].
  by eapply watched_fewer; [..|by apply (Hr d)].
Qed.

Lemma edges_step r r' : edges_ok r → reactor_step kernel_event r r' → edges_ok r'.
Proof.
  intros Hr Hstep. destruct Hstep as
    [r k Hk|r j o spec|r|r e Hq|r l1 e l2 Hrun|r|r j key|r closing|r|r d Hd Hsd].
  - intros d Hd Hs Hc. eapply watched_kernel; [done|]. by apply (Hr d).
  - unfold start. destruct (data r) as [d|] eqn:Ed; [|by intros ? [=]].
    destruct (start_op j o spec (Some d) (kern r)) as [[[s od] b] k'] eqn:E.
    intros d' Hd' Hs Hc. cbn in Hd', Hc. subst od. apply orb_false_iff in Hc as [Hc ->].
    assert (shutdown_ d = false) as Hsd.
    { destruct (start_op_conserves _ _ _ _ _ _ _ _ _ E) as (d1 & [= <-] & Hsh & _). congruence. }
    destruct (watched_start _ _ _ _ _ (events_of r) _ _ _ Hsd (Hr d Ed Hsd Hc) E) as (d1 & [= <-] & Hw). done.
  - unfold report. destruct (epoll_wait (kern r)) as [ev k'] eqn:E. apply due_wait in E as [Hreg Hk].
    assert (∀ d P, watched d (kern r) (events_of r) →
      (∀ i, covered (events_of r) (kern r) i → covered P k' i) → watched d k' P) as Hmono.
    { intros d P Hw Hcov. eapply watched_mono; [done| |done|done]. intros i _. rewrite (proj1 (Hk i)). by left. }
    destruct (Z.eqb_spec ev 0) as [->|Hev]; intros d Hd Hs Hc; cbn in Hd, Hc;
      (apply (Hmono d); [by apply (Hr d)|]); intros i [He|(x & Hx & Hcx)].
    + destruct (proj2 (Hk i) He) as [Hc0|]; [by rewrite concerns_0 in Hc0|by left].
    + right. by exists x.
    + destruct (proj2 (Hk i) He) as [Hce|]; [|by left]. right. unfold events_of. cbn [queued running].
      eexists. split; [left|]. destruct (queued r); [by rewrite concerns_lor, Hce, orb_true_r|done].
    + right. unfold events_of in *. cbn [queued running]. destruct (queued r) as [e0|].
      * apply elem_of_cons in Hx as [->|Hx]; [|by exists x; split; [right|]].
        eexists. split; [left|]. by rewrite concerns_lor, Hcx.
      * by exists x; split; [right|].
  - intros d Hd Hs Hc. cbn in Hd, Hc. specialize (Hr d Hd Hs Hc). unfold events_of in *. rewrite Hq in Hr. done.
  - unfold do_complete. destruct (data r) as [d|] eqn:Ed; [|by intros ? [=]].
    destruct (perform_io e d (kern r)) as [[c d'] k'] eqn:E. intros d1 [= <-] Hs Hc. cbn in Hc.
    pose proof (perform_io_shutdown _ _ _ _ _ _ E) as Hsh.
    eapply (watched_perform_io e d (kern r) (events_of r)); [done| |apply (Hr d); congruence].
    unfold events_of. cbn [queued running]. rewrite Hrun. intros x. destruct (queued r); set_solver.
  - apply edges_completing; [done|]. intros d k c d' k'. unfold cancel_ops. intros [= <- <- <-] Hs. by split_and!.
  - apply edges_completing; [done|]. intros d k c d' k'. unfold cancel_ops_by_key.
    destruct (split_key key (op_queue_ d j)) as [ops other] eqn:E. intros [= <- <- <-] Hs.
    split_and!; try done. intros i. cbn [op_queue_ set_queue].
    destruct (decide (i = j)) as [->|]; [rewrite upd_eq|by rewrite upd_ne].
    apply split_key_spec in E as [_ Hsub]. intros Hne Eq. rewrite Eq in Hsub. by apply sublist_nil_r in Hsub.
  - apply edges_completing; [done|]. intros d k c d' k'. unfold deregister_descriptor.
    destruct (shutdown_ d); by intros [= <- <- <-].
  - unfold deregister_internal, deregister_internal_descriptor. destruct (data r) as [d|] eqn:Ed; [|by intros ? ?; congruence].
    destruct (shutdown_ d); intros d' Hd'; cbn in Hd'; [done|]. by injection Hd' as <-.
  - by intros ? [=].
Qed.
End facts.

(** * A descriptor from its registration on *)

Definition new_reactor {K} (d : descriptor_state) (k : K) : @reactor K :=
  mk_reactor (Some d) k None [] [] [] [] false.

Section reachable.
  Context {K : Type} `{EpollLaws K}.

Lemma register_watched fd (k k' : K) d : register_descriptor fd k = (0, d, k') → watched d k' [] ∧ all_ops d = [].
Proof.
  unfold register_descriptor. destruct (epoll_ctl_add _ k) as [[u|e] k1] eqn:E; apply ctl_add_law in E.
  - intros [= <- <-]. split; [|done]. split; cbn [registered_events_ op_queue_ try_speculative_].
    + right. split; [done|]. by rewrite !has_flag.
    + done.
    + by intros j _ [|].
  - destruct (Z.eqb_spec e EPERM) as [->|Hne]; intros [= ? ?]; [|done]. subst. split; [|done].
    split; cbn [registered_events_ set_registered op_queue_ try_speculative_]; [by left|done|by intros j _ [|]].
Qed.

Lemma reachable_watched fd (k0 k : K) d r :
  register_descriptor fd k0 = (0, d, k) → rtc (reactor_step kernel_event) (new_reactor d k) r →
  conserved r ∧ edges_ok r.
Proof.
  intros [Hw Hn]%register_watched Hr. remember (new_reactor d k) as r0 eqn:E0.
  assert (conserved r0 ∧ edges_ok r0) as Hok.
  { subst r0. split.
    - split; [cbn; by rewrite Hn| |by intros ? [= <-]].
      intros j ? [= <-]. assert (op_queue_ d j = []) as ->; [|apply sublist_nil_l].
      unfold all_ops in Hn. apply app_nil in Hn as [H1%map_eq_nil [H2%map_eq_nil H3%map_eq_nil]%app_nil].
      by destruct j.
    - by intros ? [= <-]. }
  clear E0. induction Hr as [|r1 r2 r3 Hs _ IH]; [done|]. destruct Hok as [Hc He].
  apply IH; split; [by eapply conserved_step|by eapply edges_step].
Qed.
End reachable.

(** * A kernel

    How many operations of each type the descriptor can perform, whether the
    peer has closed, the edges that have not been reported, the types of which
    an operation has found the end, and the registration. *)

Record sim_epoll : Type := mk_sim_epoll {
  avail : op_type → nat;
  ended : bool;
  edges : op_type → bool;
  sim_failed : op_type → bool;
  sim_reg : Z
}.

(** As [recv_status] without [reset_edge_on_partial_read]: a receive operation
    exhausts the descriptor when it finds the end; the others when they take
    the last there is. *)
Definition sim_perform (j : op_type) (o : reactor_op) (k : sim_epoll) : status * error_code * sim_epoll :=
  match avail k j with
  | O =>
      if bool_decide (j = read_op) && ended k
      then (done_and_exhausted, error_eof, mk_sim_epoll (avail k) (ended k) (edges k) (upd (sim_failed k) j true) (sim_reg k))
      else (not_done, success, k)
  | S n =>
      (if (n =? 0)%nat && negb (bool_decide (j = read_op)) then done_and_exhausted else done, success,
       mk_sim_epoll (upd (avail k) j n) (ended k) (edges k) (sim_failed k) (sim_reg k))
  end.

Definition sim_ready (j : op_type) (k : sim_epoll) : bool :=
  (0 <? avail k j)%nat || bool_decide (j = read_op) && ended k.

Definition sim_mod (events : Z) (k : sim_epoll) : sys unit * sim_epoll :=
  (Done tt, mk_sim_epoll (avail k) (ended k) (λ i, edges k i || sim_ready i k && has events (flag i)) (sim_failed k) events).

Definition sim_wait (k : sim_epoll) : Z * sim_epoll :=
  (Z.lor (if edges k read_op then EPOLLIN else 0)
     (Z.lor (if edges k write_op then EPOLLOUT else 0) (if edges k except_op then EPOLLPRI else 0)),
   mk_sim_epoll (avail k) (ended k) (λ _, false) (sim_failed k) (sim_reg k)).

(** One more operation of a type can be performed. *)
Definition sim_arrive (j : op_type) (k : sim_epoll) : sim_epoll :=
  mk_sim_epoll (upd (avail k) j (S (avail k j))) (ended k)
    (λ i, edges k i || bool_decide (i = j) && has (sim_reg k) (flag i)) (sim_failed k) (sim_reg k).

(** The peer closes the connection. *)
Definition sim_end (k : sim_epoll) : sim_epoll :=
  mk_sim_epoll (avail k) true
    (λ i, edges k i || bool_decide (i = read_op) && has (sim_reg k) (flag i)) (sim_failed k) (sim_reg k).

#[export] Instance sim_epoll_calls : Epoll sim_epoll := {|
  perform := sim_perform;
  epoll_ctl_add events k := (Done tt, mk_sim_epoll (avail k) (ended k) (edges k) (sim_failed k) events);
  epoll_ctl_mod := sim_mod;
  epoll_ctl_del k := (Done tt, mk_sim_epoll (avail k) (ended k) (λ _, false) (sim_failed k) 0);
  epoll_wait := sim_wait
|}.

Lemma sim_perform_law j o k st ec k' :
  sim_perform j o k = (st, ec, k') →
  sim_reg k' = sim_reg k ∧
  (∀ i, (edges k i = true → edges k' i = true) ∧ (sim_failed k i = true → sim_failed k' i = true) ∧
    (sim_ready i k' = true → sim_ready i k = true)) ∧
  (st ≠ done → sim_ready j k' = false ∨ sim_failed k' j = true).
Proof.
  unfold sim_perform, sim_ready. destruct (avail k j) as [|n] eqn:E.
  - destruct (bool_decide (j = read_op) && ended k) eqn:Ee; intros [= <- <- <-];
      cbn [avail ended edges sim_failed sim_reg].
    + split_and!; [done| |intros _; right; by rewrite upd_eq]. intros i. split_and!; [done| |done].
      destruct (decide (i = j)) as [->|]; [by rewrite upd_eq|by rewrite upd_ne].
    + split_and!; [done|done|]. intros _. left. by rewrite E, Ee.
  - intros [= <- <- <-]. cbn [avail ended edges sim_failed sim_reg]. split_and!; [done| |].
    + intros i. split_and!; [done|done|]. destruct (decide (i = j)) as [->|]; [|by rewrite upd_ne].
      by rewrite E.
    + rewrite upd_eq. destruct (Nat.eqb_spec n 0) as [->|]; [|by intros []].
      destruct (bool_decide_reflect (j = read_op)); [by intros []|]. by left.
Qed.

#[export] Instance sim_epoll_laws : EpollLaws sim_epoll.
Proof.
  apply (Build_EpollLaws sim_epoll _ sim_ready (λ i k, edges k i) (λ i k, sim_failed k i) sim_reg
    (λ k k', k' = sim_end k ∨ ∃ j, k' = sim_arrive j k)).
  - intros k k' [->|[j ->]]; (split; [done|]); intros i; cbn; (split; [by intros ->|]); (split; [done|]);
      unfold sim_ready, sim_arrive, sim_end; cbn.
    + destruct (bool_decide_reflect (i = read_op)) as [->|]; [|by left].
      intros _. right. intros ->. by rewrite orb_true_r.
    + destruct (decide (i = j)) as [->|]; [|rewrite upd_ne by done; by left].
      intros _. right. intros ->. by rewrite bool_decide_eq_true_2, orb_true_r.
  - apply sim_perform_law.
  - by intros events k r k' [= <- <-].
  - intros events k r k' [= <- <-]. split; [done|]. intros i. cbn. split_and!; [done|done|by intros ->|].
    intros -> ->. apply orb_true_r.
  - intros k events k' [= <- <-]. split; [done|]. intros i. split_and!; [done|done|]. intros He. left. cbn in He.
    unfold concerns, has. destruct i; rewrite He;
      destruct (edges k read_op), (edges k write_op), (edges k except_op); done.
Defined.
