(* ===== verification/ReactorProperties.v ===== *)
(** What a descriptor of the epoll reactor promises, for every kernel that
    keeps the laws of edge-triggered epoll. *)

From stdpp Require Import relations.
From S2P Require Import Prelude AsioBuffers SocketOps EpollReactor EpollReactorFacts.

#[local] Open Scope Z_scope.

(** * A run *)

Definition demo_kernel : sim_epoll := mk_sim_epoll (λ _, 0%nat) false (λ _, false) (λ _, false) 0.
Definition demo_descriptor : descriptor_state := (register_descriptor 5 demo_kernel).1.2.
Definition demo_registered : sim_epoll := (register_descriptor 5 demo_kernel).2.

(** A receive operation is started, and then data arrives. *)
Definition demo_reactor : @reactor sim_epoll :=
  let r := start read_op (mk_reactor_op 0 0) true (new_reactor demo_descriptor demo_registered) in
  with_kern (sim_arrive read_op (kern r)) r.

Lemma demo_reactor_reachable :
  rtc (reactor_step kernel_event) (new_reactor demo_descriptor demo_registered) demo_reactor.
Proof.
  eapply rtc_l; [apply (step_start _ _ read_op (mk_reactor_op 0 0) true)|].
  eapply rtc_l; [apply step_kernel; right; by exists read_op|]. apply rtc_refl.
Qed.

(** * Properties *)

Section properties.
  Context {K : Type} `{EpollLaws K}.

(** C12: no edge is missed.  From the registration of a descriptor on, as long
    as it is not shut down and no [epoll_ctl] whose result is ignored has
    failed: operations wait only for events that are registered; and while
    one waits, or the reactor has noted that the descriptor is exhausted, a
    descriptor that is ready for it either has an edge that epoll has yet to
    report, or an event that concerns the queue is on its way to
    [perform_io] -- until an operation of that type has found the end of the
    stream or has failed ([read_after_end_waits] shows that it need not be so
    afterwards).  Sockets are not configured with
    [reset_edge_on_partial_read]. *)
Theorem reactor_no_missed_edge fd (k0 k : K) d0 r d j :
  register_descriptor fd k0 = (0, d0, k) → rtc (reactor_step kernel_event) (new_reactor d0 k) r →
  data r = Some d → shutdown_ d = false → ctl_failed r = false →
  (op_queue_ d j ≠ [] → has (registered_events_ d) (flag j) = true) ∧
  (has (registered_events_ d) (flag j) = true → op_queue_ d j ≠ [] ∨ try_speculative_ d j = false →
   failed j (kern r) = false → ready j (kern r) = true →
   edge j (kern r) = true ∨ ∃ e, e ∈ events_of r ∧ concerns e j = true).
Proof.
  intros Hreg Hr Hd Hs Hf. destruct (reachable_watched fd k0 k d0 r Hreg Hr) as [_ He].
  destruct (He d Hd Hs Hf) as [_ Hw Hedge]. split; [apply Hw|].
  intros Hj Hq Hfail Hready. apply Hedge; [done|done|]. by apply due_true.
Qed.

(** C16: operations are neither lost nor duplicated.  Every operation that was
    started on a descriptor has been completed with an error code, or was
    destroyed with an internal descriptor, or waits, and is so once; those
    that wait for the same readiness are in the order in which they were
    started; and a descriptor that is shut down has none. *)
Theorem reactor_conserves fd (k0 k : K) d0 r :
  register_descriptor fd k0 = (0, d0, k) → rtc (reactor_step kernel_event) (new_reactor d0 k) r →
  given r ≡ₚ (completed r).*1 ++ destroyed r ++ waiting r ∧
  (NoDup (given r) → NoDup ((completed r).*1)) ∧
  (∀ d j, data r = Some d → op_queue_ d j `sublist_of` of_type j (given r)) ∧
  (∀ d, data r = Some d → shutdown_ d = true → all_ops d = []).
Proof.
  intros Hreg Hr. destruct (reachable_watched fd k0 k d0 r Hreg Hr) as [[Hops Hord Hshut] _].
  split_and!; [done| |by intros d j; apply Hord|done].
  rewrite Hops. by intros [? _]%NoDup_app.
Qed.
End properties.

Lemma reactor_no_missed_edge_witness :
  ready read_op (kern demo_reactor) = true ∧
  (edge read_op (kern demo_reactor) = true ∨ ∃ e, e ∈ events_of demo_reactor ∧ concerns e read_op = true).
Proof.
  split; [reflexivity|].
  refine (proj2 (reactor_no_missed_edge 5 demo_kernel demo_registered demo_descriptor demo_reactor
    (enqueue_op read_op (mk_reactor_op 0 0) demo_descriptor) read_op eq_refl demo_reactor_reachable eq_refl eq_refl eq_refl)
    eq_refl _ eq_refl eq_refl).
  left. discriminate.
Defined.

Lemma reactor_conserves_witness :
  given demo_reactor ≡ₚ (completed demo_reactor).*1 ++ destroyed demo_reactor ++ waiting demo_reactor.
Proof.
  exact (proj1 (reactor_conserves 5 demo_kernel demo_registered demo_descriptor demo_reactor eq_refl
    demo_reactor_reachable)).
Defined.

(** * After the end of a stream *)

(** A receive operation waits, the peer closes, epoll reports it and the
    operation is completed with [error_eof]; then another one is started. *)
Definition after_end : @reactor sim_epoll :=
  let r := start read_op (mk_reactor_op 0 0) true (new_reactor demo_descriptor demo_registered) in
  let r := report (with_kern (sim_end (kern r)) r) in
  let r := mk_reactor (data r) (kern r) None [EPOLLIN] (given r) (completed r) (destroyed r) (ctl_failed r) in
  start read_op (mk_reactor_op 1 0) true (do_complete EPOLLIN [] r).

Lemma after_end_reachable :
  rtc (reactor_step kernel_event) (new_reactor demo_descriptor demo_registered) after_end.
Proof.
  eapply rtc_l; [apply (step_start _ _ read_op (mk_reactor_op 0 0) true)|].
  eapply rtc_l; [apply step_kernel; by left|].
  eapply rtc_l; [apply step_report|].
  eapply rtc_l; [apply (step_dequeue _ _ EPOLLIN); reflexivity|].
  eapply rtc_l; [apply (step_complete _ _ [] EPOLLIN []); reflexivity|].
  apply rtc_once, (step_start _ _ read_op (mk_reactor_op 1 0) true).
Qed.

(** The end of the stream counts as an exhausted descriptor: the next receive
    operation is not tried and waits, although the descriptor is readable,
    for an edge that is neither pending nor on its way. *)
Lemma read_after_end_waits :
  ∃ d, rtc (reactor_step kernel_event) (new_reactor demo_descriptor demo_registered) after_end ∧
    data after_end = Some d ∧ op_queue_ d read_op = [mk_reactor_op 1 0] ∧
    completed after_end = [(read_op, mk_reactor_op 0 0, error_eof)] ∧
    ready read_op (kern after_end) = true ∧ failed read_op (kern after_end) = true ∧
    edge read_op (kern after_end) = false ∧ events_of after_end = [].
Proof. eexists. split; [apply after_end_reachable|]. by repeat split. Qed.
