(* ===== verification/Scheduler.v ===== *)
(** The scheduler behind [io_context] (detail/scheduler.hpp,
    detail/impl/scheduler.ipp): a queue of operations that any number of
    threads run, one of which may at times run the reactor, which is an
    operation of the queue as well.

    The critical sections under the mutex are functions on the members of the
    scheduler.  The threads are records of a step relation: what a thread is
    in the middle of, the calls it is in on top of that, and its
    [thread_info].  [posix_event] is modelled with it: a thread that waits on
    the condition variable, and one that was woken but does not have the
    mutex yet, are told apart, and threads may wake up without a signal.
    Whether a thread goes on with [run] or [poll] behind an operation or leaves
    is left to the step, so that one relation covers [run], [run_one], [poll],
    [poll_one] and handlers that throw.  Calls of [run] and [poll] from a
    handler are not modelled. *)

From S2P Require Import Prelude.

#[local] Open Scope Z_scope.

(** * Operations *)

(** The operation that stands for the task, one that a unit of work was
    started for, and the state of a descriptor, which has none. *)
Inductive sched_op : Type :=
| Task
| User (id : nat)
| Descriptor (id : nat).

#[global] Instance sched_op_eq_dec : EqDecision sched_op.
Proof. solve_decision. Defined.

(** * The event *)

(** [posix_event]: [state_] is [signalled] plus twice [waiters]. *)
Record event : Type := mk_event {
  signalled : bool;
  waiters : Z
}.

Definition set_signal (e : event) : event := mk_event true (waiters e).
Definition clear (e : event) : event := mk_event false (waiters e).
Definition add_waiter (e : event) : event := mk_event (signalled e) (waiters e + 1).
Definition remove_waiter (e : event) : event := mk_event (signalled e) (waiters e - 1).

(** [state_ > 1]. *)
Definition have_waiters (e : event) : bool := 0 <? waiters e.

(** * The members *)

Record scheduler : Type := mk_scheduler {
  wakeup_event_ : event;
  task_ : bool;
  task_interrupted_ : bool;
  stopped_ : bool;
  shutdown_ : bool;
  outstanding_work_ : Z;
  op_queue_ : list sched_op
}.

Definition new_scheduler : scheduler := mk_scheduler (mk_event false 0) false true false false 0 [].

Definition with_event (e : event) (s : scheduler) : scheduler :=
  mk_scheduler e (task_ s) (task_interrupted_ s) (stopped_ s) (shutdown_ s) (outstanding_work_ s) (op_queue_ s).

Definition with_interrupted (b : bool) (s : scheduler) : scheduler :=
  mk_scheduler (wakeup_event_ s) (task_ s) b (stopped_ s) (shutdown_ s) (outstanding_work_ s) (op_queue_ s).

Definition with_stopped (b : bool) (s : scheduler) : scheduler :=
  mk_scheduler (wakeup_event_ s) (task_ s) (task_interrupted_ s) b (shutdown_ s) (outstanding_work_ s) (op_queue_ s).

Definition with_work (w : Z) (s : scheduler) : scheduler :=
  mk_scheduler (wakeup_event_ s) (task_ s) (task_interrupted_ s) (stopped_ s) (shutdown_ s) w (op_queue_ s).

Definition with_queue (q : list sched_op) (s : scheduler) : scheduler :=
  mk_scheduler (wakeup_event_ s) (task_ s) (task_interrupted_ s) (stopped_ s) (shutdown_ s) (outstanding_work_ s) q.

Definition is_nil {A} (l : list A) : bool := match l with [] => true | _ => false end.

(** [task_->interrupt()], unless it was interrupted already. *)
Definition interrupt_task (s : scheduler) : scheduler :=
  if negb (task_interrupted_ s) && task_ s then with_interrupted true s else s.

(** * Where threads are *)

(** What a thread does behind an operation: [run] and [poll] go on, and it
    leaves the scheduler if it called [run_one], [poll_one] or [wait_one], or
    if the handler has thrown. *)
Inductive next : Type := N_run | N_poll | N_leave.

#[global] Instance next_eq_dec : EqDecision next.
Proof. solve_decision. Defined.

(** Where a thread is: outside; before it locks the mutex for [do_run_one],
    [do_poll_one] or [do_wait_one]; waiting on the condition variable, without
    and with an end, or woken; in the task, that of [do_run_one],
    [do_poll_one] or [do_wait_one]; behind it; before the second half of
    [task_cleanup]; running an operation; in [work_cleanup], before or behind
    its first half. *)
Inductive phase : Type :=
| Outside
| At_lock
| Poll_lock
| Wait_lock (usec : Z)
| Waiting
| Woken
| Timed_waiting
| Timed_woken
| In_task
| Poll_task
| Wait_task
| Task_returned
| Task_locking
| Front_returned (poll : bool)
| Front_locking (poll : bool)
| Running (o : sched_op)
| Finishing (n : next)
| Pushing (n : next).

#[global] Instance phase_eq_dec : EqDecision phase.
Proof. solve_decision. Defined.

(** * Critical sections

    Those of a thread that looks at the queue end with the phase it is in
    afterwards, and with whether it is to signal the condition variable. *)

Section scheduler.
  (** The configuration of the context. *)
  Context (one_thread_ : bool) (task_usec_ wait_usec_ : Z).

(** [wake_one_thread_and_unlock]; [true] says that the caller is to signal the
    condition variable behind the critical section. *)
Definition wake_one_thread_and_unlock (s : scheduler) : bool * scheduler :=
  if wait_usec_ =? 0 then (false, interrupt_task s)
  else
    let e := set_signal (wakeup_event_ s) in
    if have_waiters e then (true, with_event e s) else (false, interrupt_task (with_event e s)).

(** [stop_all_threads]; the condition variable is broadcast. *)
Definition stop_all_threads (s : scheduler) : scheduler :=
  let s := with_stopped true s in
  interrupt_task (with_event (set_signal (wakeup_event_ s)) s).

Definition init_task (s : scheduler) : bool * scheduler :=
  if negb (shutdown_ s) && negb (task_ s) then
    wake_one_thread_and_unlock
      (mk_scheduler (wakeup_event_ s) true (task_interrupted_ s) (stopped_ s) (shutdown_ s)
         (outstanding_work_ s) (op_queue_ s ++ [Task]))
  else (false, s).

(** [unlock_and_signal_one] and [maybe_unlock_and_signal_one]. *)
Definition signal_one (s : scheduler) : bool * scheduler :=
  let e := set_signal (wakeup_event_ s) in (have_waiters e, with_event e s).

(** An operation that is not the task is taken from the front. *)
Definition run_op (o : sched_op) (q : list sched_op) (s : scheduler) : phase * bool * scheduler :=
  let more_handlers := negb (is_nil q) in
  let s := with_queue q s in
  if more_handlers && negb one_thread_ then
    let '(signal, s) := wake_one_thread_and_unlock s in (Running o, signal, s)
  else (Running o, false, s).

(** The task is taken from the front, to be run for [usec]. *)
Definition run_task (p : phase) (usec : Z) (q : list sched_op) (s : scheduler) : phase * bool * scheduler :=
  let more_handlers := negb (is_nil q) in
  let s := with_interrupted (more_handlers || (usec =? 0)) (with_queue q s) in
  if more_handlers && negb one_thread_ && negb (wait_usec_ =? 0) then
    let '(signal, s) := signal_one s in (p, signal, s)
  else (p, false, s).

(** [do_run_one] from the head of its loop. *)
Definition do_run_one (s : scheduler) : phase * bool * scheduler :=
  if stopped_ s then (Outside, false, s)
  else match op_queue_ s with
  | [] =>
      if wait_usec_ =? 0 then (At_lock, false, s)
      else (Waiting, false, with_event (add_waiter (clear (wakeup_event_ s))) s)
  | Task :: q => run_task In_task task_usec_ q s
  | o :: q => run_op o q s
  end.

(** [do_poll_one] up to the task or the operation. *)
Definition do_poll_one (s : scheduler) : phase * bool * scheduler :=
  if stopped_ s then (Outside, false, s)
  else match op_queue_ s with
  | [] => (Outside, false, s)
  | Task :: q => (Poll_task, false, with_queue q s)
  | o :: q => run_op o q s
  end.

(** [do_wait_one] behind the wait. *)
Definition wait_front (usec : Z) (s : scheduler) : phase * bool * scheduler :=
  match op_queue_ s with
  | [] => (Outside, false, s)
  | Task :: q => run_task Wait_task (if (0 <=? task_usec_) && (task_usec_ <? usec) then task_usec_ else usec) q s
  | o :: q => run_op o q s
  end.

Definition do_wait_one (usec : Z) (s : scheduler) : phase * bool * scheduler :=
  if stopped_ s then (Outside, false, s)
  else match op_queue_ s with
  | [] => (Timed_waiting, false, with_event (add_waiter (clear (wakeup_event_ s))) s)
  | _ => wait_front usec s
  end.

(** [do_poll_one] and [do_wait_one] behind the task, which is in the queue
    again: if there is nothing else, it is left to another thread. *)
Definition front_op (poll : bool) (s : scheduler) : phase * bool * scheduler :=
  match op_queue_ s with
  | [] => (Outside, false, s)
  | Task :: _ =>
      if poll || negb one_thread_ then let '(signal, s) := signal_one s in (Outside, signal, s)
      else (Outside, false, s)
  | o :: q => run_op o q s
  end.

(** * Threads *)

(** Calls on top of that: a signal of the condition variable is due, [stop],
    and the critical section that pushes operations and wakes a thread. *)
Inductive action : Type :=
| A_signal
| A_stop
| A_push (ops : list sched_op).

Record thread : Type := mk_thread {
  base : phase;
  todo : list action;
  private_outstanding_work : Z;
  private_op_queue : list sched_op
}.

Definition at_phase (p : phase) (th : thread) : thread :=
  mk_thread p (todo th) (private_outstanding_work th) (private_op_queue th).

Definition then_do (a : action) (th : thread) : thread :=
  mk_thread (base th) (a :: todo th) (private_outstanding_work th) (private_op_queue th).

Definition if_signal (b : bool) (th : thread) : thread := if b then then_do A_signal th else th.

Definition in_scheduler (th : thread) : bool := match base th with Outside => false | _ => true end.

(** Code of the user runs. *)
Definition user_code (th : thread) : bool :=
  is_nil (todo th) && match base th with Outside => true | Running (User _) => true | _ => false end.

(** The thread behind a critical section. *)
Definition decided (p : phase) (signal : bool) (th : thread) : thread := if_signal signal (at_phase p th).

(** The scheduler, its threads, the units of work that were started for
    operations that are not queued yet or for nothing but to keep the
    scheduler running, and whether a thread has left the scheduler and put
    operations in the queue on its way. *)
Record system : Type := mk_system {
  sched : scheduler;
  threads : list thread;
  pending : Z;
  left_behind : bool
}.

Definition set_thread (t : nat) (th : thread) (s : scheduler) (y : system) : system :=
  mk_system s (<[t := th]> (threads y)) (pending y) (left_behind y).

(** Units of work that are in a list of operations. *)
Fixpoint units (ops : list sched_op) : Z :=
  match ops with
  | [] => 0
  | User _ :: ops' => 1 + units ops'
  | _ :: ops' => units ops'
  end.

(** [post_immediate_completion] and [post_immediate_completions]. *)
Definition post_immediate (ops : list sched_op) (is_continuation : bool) (t : nat) (th : thread) (y : system) :
    system :=
  if (one_thread_ || is_continuation) && in_scheduler th then
    set_thread t (mk_thread (base th) (todo th) (private_outstanding_work th + units ops)
                    (private_op_queue th ++ ops)) (sched y) y
  else
    set_thread t (then_do (A_push ops) th) (with_work (outstanding_work_ (sched y) + units ops) (sched y)) y.

(** [post_deferred_completion] and [post_deferred_completions]; the work was
    started before. *)
Definition post_deferred (ops : list sched_op) (t : nat) (th : thread) (y : system) : system :=
  let y := mk_system (sched y) (threads y) (pending y - units ops) (left_behind y) in
  if is_nil ops then y
  else if one_thread_ && in_scheduler th then
    set_thread t (mk_thread (base th) (todo th) (private_outstanding_work th) (private_op_queue th ++ ops)) (sched y) y
  else set_thread t (then_do (A_push ops) th) (sched y) y.

(** [do_dispatch]. *)
Definition do_dispatch (o : sched_op) (t : nat) (th : thread) (y : system) : system :=
  set_thread t (then_do (A_push [o]) th) (with_work (outstanding_work_ (sched y) + 1) (sched y)) y.

(** [work_finished] on thread [t]. *)
Definition work_finished (s : scheduler) (th : thread) : scheduler * thread :=
  let s := with_work (outstanding_work_ s - 1) s in
  (s, if outstanding_work_ s =? 0 then then_do A_stop th else th).

(** [run], [poll] and [wait_one] up to their critical sections, which is the
    phase [p]. *)
Definition enter (p : phase) (t : nat) (th : thread) (y : system) : system :=
  if outstanding_work_ (sched y) =? 0 then set_thread t (then_do A_stop th) (sched y) y
  else set_thread t (mk_thread p (todo th) 0 []) (sched y) y.

Definition run : nat → thread → system → system := enter At_lock.
Definition poll : nat → thread → system → system := enter Poll_lock.
Definition wait_one (usec : Z) : nat → thread → system → system := enter (Wait_lock usec).

(** A thread looks at the queue in a critical section [f]. *)
Definition look (f : scheduler → phase * bool * scheduler) (t : nat) (th : thread) (s : scheduler) (y : system) :
    system :=
  let '(p, signal, s) := f s in set_thread t (decided p signal th) s y.

(** The first half of [work_cleanup]. *)
Definition work_cleanup (n : next) (th : thread) (s : scheduler) : scheduler * thread :=
  let p := private_outstanding_work th in
  let th := mk_thread (Pushing n) (todo th) 0 (private_op_queue th) in
  if 1 <? p then (with_work (outstanding_work_ s + (p - 1)) s, th)
  else if p <? 1 then work_finished s th
  else (s, th).

(** The second half; without private operations the mutex is not locked, and a
    thread that stays and has locked it goes on with the next operation. *)
Definition push_private (n : next) (t : nat) (th : thread) (y : system) : system :=
  let pq := private_op_queue th in
  let s := with_queue (op_queue_ (sched y) ++ pq) (sched y) in
  let at_ p := mk_thread p (todo th) (private_outstanding_work th) [] in
  match n with
  | N_leave => mk_system s (<[t := at_ Outside]> (threads y)) (pending y) (left_behind y || negb (is_nil pq))
  | N_run => if is_nil pq then set_thread t (at_ At_lock) (sched y) y else look do_run_one t (at_ At_lock) s y
  | N_poll => if is_nil pq then set_thread t (at_ Poll_lock) (sched y) y else look do_poll_one t (at_ Poll_lock) s y
  end.

(** The first half of [task_cleanup], and the second one with what follows it. *)
Definition task_cleanup (p : phase) (th : thread) (s : scheduler) : scheduler * thread :=
  let w := private_outstanding_work th in
  (if 0 <? w then with_work (outstanding_work_ s + w) s else s,
   mk_thread p (todo th) 0 (private_op_queue th)).

Definition requeue_task (f : scheduler → phase * bool * scheduler) (t : nat) (th : thread) (y : system) : system :=
  look f t (mk_thread At_lock (todo th) (private_outstanding_work th) [])
    (with_interrupted true (with_queue (op_queue_ (sched y) ++ private_op_queue th ++ [Task]) (sched y))) y.

(** A thread that was woken in [do_run_one] has the mutex again. *)
Definition resume_wait (t : nat) (th : thread) (y : system) : system :=
  let s := with_event (remove_waiter (wakeup_event_ (sched y))) (sched y) in
  if (0 <? wait_usec_) || signalled (wakeup_event_ s) then look do_run_one t th s y
  else set_thread t (at_phase Waiting th) (with_event (add_waiter (wakeup_event_ s)) s) y.

(** One in [do_wait_one], which waits at most once. *)
Definition resume_timed (t : nat) (th : thread) (y : system) : system :=
  look (wait_front 0) t th (with_event (remove_waiter (wakeup_event_ (sched y))) (sched y)) y.

Definition sleeping (th : thread) : bool := match base th with Waiting | Timed_waiting => true | _ => false end.

Definition wake (th : thread) : thread :=
  match base th with
  | Waiting => at_phase Woken th
  | Timed_waiting => at_phase Timed_woken th
  | _ => th
  end.

(** Where the task leaves its thread, and what follows the lock. *)
Definition behind_task (p : phase) : option phase :=
  match p with
  | In_task => Some Task_returned
  | Poll_task => Some (Front_returned true)
  | Wait_task => Some (Front_returned false)
  | _ => None
  end.

Definition behind_cleanup (p : phase) : option phase :=
  match p with
  | Task_returned => Some Task_locking
  | Front_returned poll => Some (Front_locking poll)
  | _ => None
  end.

Definition done_action (th : thread) : thread :=
  mk_thread (base th) (tail (todo th)) (private_outstanding_work th) (private_op_queue th).

(** [do_complete] of a descriptor: the operations that it has completed, the
    first of which is run at once; without any, [compensating_work_started]. *)
Definition complete_descriptor (n : next) (ops : list nat) (t : nat) (th : thread) (y : system) : system :=
  match ops with
  | [] =>
      set_thread t (mk_thread (Finishing n) (todo th) (private_outstanding_work th + 1) (private_op_queue th))
        (sched y) y
  | o :: ops =>
      post_deferred (map User ops) t (at_phase (Running (User o)) th)
        (mk_system (sched y) (<[t := at_phase (Running (User o)) th]> (threads y)) (pending y - 1) (left_behind y))
  end.

Definition user_op (o : sched_op) : bool := match o with User _ => true | _ => false end.
Definition not_task (o : sched_op) : bool := match o with Task => false | _ => true end.

Inductive sched_step : system → system → Prop :=
(* Calls of the user *)
| step_run y t th :
    threads y !! t = Some th → todo th = [] → base th = Outside → sched_step y (run t th y)
| step_poll y t th :
    threads y !! t = Some th → todo th = [] → base th = Outside → sched_step y (poll t th y)
| step_wait_one y t th usec :
    threads y !! t = Some th → todo th = [] → base th = Outside → sched_step y (wait_one usec t th y)
| step_post y t th ops cont :
    threads y !! t = Some th → user_code th = true → forallb user_op ops = true →
    sched_step y (post_immediate ops cont t th y)
| step_defer y t th ops :
    threads y !! t = Some th → user_code th = true → forallb user_op ops = true → units ops ≤ pending y →
    sched_step y (post_deferred ops t th y)
| step_dispatch y t th id :
    threads y !! t = Some th → user_code th = true → sched_step y (do_dispatch (User id) t th y)
| step_work_started y :
    sched_step y (mk_system (with_work (outstanding_work_ (sched y) + 1) (sched y)) (threads y) (pending y + 1)
                    (left_behind y))
| step_work_finished y t th :
    threads y !! t = Some th → user_code th = true → 0 < pending y →
    sched_step y
      (let '(s, th) := work_finished (sched y) th in
       mk_system s (<[t := th]> (threads y)) (pending y - 1) (left_behind y))
| step_call_stop y t th :
    threads y !! t = Some th → user_code th = true → sched_step y (set_thread t (then_do A_stop th) (sched y) y)
| step_restart y :
    sched_step y (mk_system (with_stopped false (sched y)) (threads y) (pending y) (left_behind y))
| step_init_task y t th :
    threads y !! t = Some th → user_code th = true →
    sched_step y (let '(signal, s) := init_task (sched y) in set_thread t (if_signal signal th) s y)
(* Calls in progress *)
| step_push y t th ops l :
    threads y !! t = Some th → todo th = A_push ops :: l →
    sched_step y
      (let '(signal, s) := wake_one_thread_and_unlock (with_queue (op_queue_ (sched y) ++ ops) (sched y)) in
       set_thread t (if_signal signal (done_action th)) s y)
| step_stop y t th l :
    threads y !! t = Some th → todo th = A_stop :: l →
    sched_step y
      (mk_system (stop_all_threads (sched y)) (map wake (<[t := done_action th]> (threads y))) (pending y)
         (left_behind y))
| step_signal y t th l u tu :
    threads y !! t = Some th → todo th = A_signal :: l →
    <[t := done_action th]> (threads y) !! u = Some tu → sleeping tu = true →
    sched_step y
      (mk_system (sched y) (<[u := wake tu]> (<[t := done_action th]> (threads y))) (pending y) (left_behind y))
| step_signal_nobody y t th l :
    threads y !! t = Some th → todo th = A_signal :: l → Forall (λ tu, sleeping tu = false) (threads y) →
    sched_step y (set_thread t (done_action th) (sched y) y)
(* The threads in the scheduler *)
| step_lock y t th :
    threads y !! t = Some th → todo th = [] → base th = At_lock → sched_step y (look do_run_one t th (sched y) y)
| step_poll_lock y t th :
    threads y !! t = Some th → todo th = [] → base th = Poll_lock → sched_step y (look do_poll_one t th (sched y) y)
| step_wait_lock y t th usec :
    threads y !! t = Some th → todo th = [] → base th = Wait_lock usec →
    sched_step y (look (do_wait_one usec) t th (sched y) y)
| step_spurious y t th :   (* or the end of the time *)
    threads y !! t = Some th → todo th = [] → sleeping th = true → sched_step y (set_thread t (wake th) (sched y) y)
| step_woken y t th :
    threads y !! t = Some th → todo th = [] → base th = Woken → sched_step y (resume_wait t th y)
| step_timed_woken y t th :
    threads y !! t = Some th → todo th = [] → base th = Timed_woken → sched_step y (resume_timed t th y)
| step_task_return y t th p ops :   (* timers and operations have unit of work, descriptors do not *)
    threads y !! t = Some th → todo th = [] → behind_task (base th) = Some p →
    forallb not_task ops = true → units ops ≤ pending y →
    sched_step y
      (mk_system (sched y)
         (<[t := mk_thread p [] (private_outstanding_work th) (private_op_queue th ++ ops)]> (threads y))
         (pending y - units ops) (left_behind y))
| step_task_cleanup y t th p :
    threads y !! t = Some th → todo th = [] → behind_cleanup (base th) = Some p →
    sched_step y (let '(s, th) := task_cleanup p th (sched y) in set_thread t th s y)
| step_requeue_task y t th :
    threads y !! t = Some th → todo th = [] → base th = Task_locking → sched_step y (requeue_task do_run_one t th y)
| step_requeue_front y t th poll :
    threads y !! t = Some th → todo th = [] → base th = Front_locking poll →
    sched_step y (requeue_task (front_op poll) t th y)
| step_descriptor y t th n id ops :
    threads y !! t = Some th → todo th = [] → base th = Running (Descriptor id) →
    Z.of_nat (length ops) ≤ pending y →
    sched_step y (complete_descriptor n ops t th y)
| step_complete y t th id n :
    threads y !! t = Some th → todo th = [] → base th = Running (User id) →
    sched_step y (set_thread t (at_phase (Finishing n) th) (sched y) y)
| step_cleanup y t th n :
    threads y !! t = Some th → todo th = [] → base th = Finishing n →
    sched_step y (let '(s, th) := work_cleanup n th (sched y) in set_thread t th s y)
| step_push_private y t th n :
    threads y !! t = Some th → todo th = [] → base th = Pushing n → sched_step y (push_private n t th y).

Definition init_system (n : nat) : system :=
  mk_system new_scheduler (replicate n (mk_thread Outside [] 0 [])) 0 false.
End scheduler.
