(* ===== verification/SchedulerFacts.v ===== *)
(** The invariants of the scheduler: [outstanding_work_] counts what is left
    to do, and no thread stays blocked while operations are queued. *)

From stdpp Require Import relations.
From S2P Require Import Prelude Scheduler.

#[local] Open Scope Z_scope.

(** * Sums over threads *)

Definition sumZ {A} (f : A → Z) (l : list A) : Z := foldr (λ x z, f x + z) 0 l.

Lemma sumZ_cons {A} (f : A → Z) x l : sumZ f (x :: l) = f x + sumZ f l.
Proof. done. Qed.

Lemma sumZ_insert {A} (f : A → Z) l t x y :
  l !! t = Some x → sumZ f (<[t := y]> l) = sumZ f l - f x + f y.
Proof.
  revert t. induction l as [|z l IH]; intros [|t]; cbn [lookup list_lookup]; try done.
  - intros [= ->]. change (<[0%nat:=y]> (x :: l)) with (y :: l). rewrite !sumZ_cons. lia.
  - intros Ht. change (<[S t:=y]> (z :: l)) with (z :: <[t:=y]> l). rewrite !sumZ_cons, (IH t Ht). lia.
Qed.

Lemma sumZ_map {A} (f : A → Z) (g : A → A) l : (∀ x, f (g x) = f x) → sumZ f (map g l) = sumZ f l.
Proof. intros Hg. induction l as [|x l IH]; [done|]. cbn [map]. by rewrite !sumZ_cons, Hg, IH. Qed.

Lemma sumZ_replicate {A} (f : A → Z) n x : sumZ f (replicate n x) = Z.of_nat n * f x.
Proof. induction n as [|n IH]; [done|]. cbn [replicate]. rewrite sumZ_cons, IH. lia. Qed.

Lemma sumZ_nil {A} (f : A → Z) : sumZ f [] = 0.
Proof. done. Qed.

Lemma sumZ_nonneg {A} (f : A → Z) l : Forall (λ x, 0 ≤ f x) l → 0 ≤ sumZ f l.
Proof. induction 1; [done|]. rewrite sumZ_cons. lia. Qed.

Lemma sumZ_elem {A} (f : A → Z) l x : Forall (λ x, 0 ≤ f x) l → x ∈ l → f x ≤ sumZ f l.
Proof.
  induction 1 as [|y l Hy Hl IH]; [by intros ?%not_elem_of_nil|]. pose proof (sumZ_nonneg f l Hl).
  rewrite sumZ_cons. intros [->|Hx]%elem_of_cons; [lia|]. specialize (IH Hx). lia.
Qed.

#[global] Opaque sumZ.

(** * Work *)

Lemma units_app l1 l2 : units (l1 ++ l2) = units l1 + units l2.
Proof. induction l1 as [|[] l1 IH]; cbn; lia. Qed.

Lemma units_nonneg l : 0 ≤ units l.
Proof. induction l as [|[] l IH]; cbn; lia. Qed.

Lemma units_users ops : units (map User ops) = Z.of_nat (length ops).
Proof. induction ops as [|o ops IH]; [done|]. cbn [map units length]. lia. Qed.

Definition action_units (a : action) : Z := match a with A_push ops => units ops | _ => 0 end.

(** The unit of the operation that a thread runs, until [work_cleanup]. *)
Definition running_unit (p : phase) : Z :=
  match p with Running (User _) => 1 | Finishing _ => 1 | _ => 0 end.

(** What a thread holds of the work that is counted. *)
Definition balance (th : thread) : Z :=
  units (private_op_queue th) + running_unit (base th) + sumZ action_units (todo th) - private_outstanding_work th.

(** The private work of a thread is that of its private operations, but for
    the compensation of a descriptor. *)
Definition work_ok (th : thread) : Prop :=
  let p := private_outstanding_work th in
  match base th with
  | Running (User _) => 0 ≤ p ≤ units (private_op_queue th)
  | Finishing _ => 0 ≤ p ∧ (p ≤ units (private_op_queue th) ∨ p = 1 ∧ private_op_queue th = [])
  | Running Task => False
  | Running (Descriptor _) => p = 0 ∧ private_op_queue th = []
  | Task_returned | Task_locking | Front_returned _ | Front_locking _ | Pushing _ => p = 0
  | _ => p = 0 ∧ private_op_queue th = []
  end.

Lemma actions_nonneg l : 0 ≤ sumZ action_units l.
Proof. apply sumZ_nonneg, Forall_forall. intros [] _; cbn; [lia..|apply units_nonneg]. Qed.

Lemma balance_nonneg th : work_ok th → 0 ≤ balance th.
Proof.
  unfold work_ok, balance. pose proof (actions_nonneg (todo th)). pose proof (units_nonneg (private_op_queue th)).
  destruct (base th) as [| | | | | | | | | | | | | | |[]| |]; cbn [running_unit]; intros; try lia; done.
Qed.

(** A thread that holds no work. *)
Definition idle (th : thread) : Prop :=
  (∀ id, base th ≠ Running (User id)) ∧ units (private_op_queue th) = 0 ∧ sumZ action_units (todo th) = 0.

Lemma balance_idle th : work_ok th → balance th = 0 → idle th.
Proof.
  unfold work_ok, balance, idle. pose proof (actions_nonneg (todo th)). pose proof (units_nonneg (private_op_queue th)).
  destruct (base th) as [| | | | | | | | | | | | | | |[]| |]; cbn [running_unit]; try done; try (intros; split; [done|lia]); try lia.
Qed.

Record work_inv (y : system) : Prop := {
  wi_count : outstanding_work_ (sched y) = pending y + units (op_queue_ (sched y)) + sumZ balance (threads y);
  wi_pending : 0 ≤ pending y;
  wi_threads : Forall work_ok (threads y)
}.

(** One thread and the members of the scheduler change. *)
Lemma work_inv_update y s t th th' p l :
  work_inv y → threads y !! t = Some th → work_ok th' → 0 ≤ p →
  outstanding_work_ s - outstanding_work_ (sched y) =
    p - pending y + units (op_queue_ s) - units (op_queue_ (sched y)) + balance th' - balance th →
  work_inv (mk_system s (<[t := th']> (threads y)) p l).
Proof.
  intros [Hc Hp Ht] Hth Hok Hp' Hd. split; cbn [sched threads pending].
  - rewrite (sumZ_insert _ _ _ _ _ Hth). lia.
  - done.
  - by apply Forall_insert.
Qed.

Lemma work_inv_thread y t th : work_inv y → threads y !! t = Some th → work_ok th.
Proof. intros [_ _ Ht] Hth. by eapply Forall_lookup_1. Qed.

Section work.
  Context (one_thread_ : bool) (task_usec_ wait_usec_ : Z).

(** Critical sections that only wake threads up. *)
Lemma interrupt_task_work s :
  outstanding_work_ (interrupt_task s) = outstanding_work_ s ∧ op_queue_ (interrupt_task s) = op_queue_ s.
Proof. unfold interrupt_task. by destruct (_ && _). Qed.

Lemma wake_work s b s' :
  wake_one_thread_and_unlock wait_usec_ s = (b, s') →
  outstanding_work_ s' = outstanding_work_ s ∧ op_queue_ s' = op_queue_ s.
Proof.
  unfold wake_one_thread_and_unlock. destruct (wait_usec_ =? 0); [intros [= _ <-]; apply interrupt_task_work|].
  destruct (have_waiters _); intros [= _ <-]; [done|]. apply (interrupt_task_work (with_event _ s)).
Qed.

Lemma balance_if_signal b th : balance (if_signal b th) = balance th.
Proof. destruct b; [|done]. unfold balance. cbn. rewrite sumZ_cons. cbn. lia. Qed.

Lemma work_ok_if_signal b th : work_ok th → work_ok (if_signal b th).
Proof. by destruct b. Qed.

(** A critical section that looks at the queue takes an operation at most, for
    the phase it ends with. *)
Record moves (s : scheduler) (p : phase) (s' : scheduler) : Prop := {
  mv_work : outstanding_work_ s' = outstanding_work_ s;
  mv_units : units (op_queue_ s') + running_unit p = units (op_queue_ s);
  mv_phase : match p with Running Task | Finishing _ => False | _ => True end
}.

Definition moving (f : scheduler → phase * bool * scheduler) : Prop := ∀ s p b s', f s = (p, b, s') → moves s p s'.

Lemma run_op_moves s o q p b s' :
  run_op one_thread_ wait_usec_ o q s = (p, b, s') → op_queue_ s = o :: q → o ≠ Task → moves s p s'.
Proof.
  unfold run_op. intros Hr Hq Ho. assert (p = Running o ∧ outstanding_work_ s' = outstanding_work_ s ∧ op_queue_ s' = q)
    as (-> & Hw & Hq').
  { destruct (_ && _); [|by injection Hr as <- <- <-].
    destruct (wake_one_thread_and_unlock _ _) as [b0 s0] eqn:Ew. injection Hr as <- <- <-.
    by apply wake_work in Ew as [-> ->]. }
  split; [done| |by destruct o]. rewrite Hq, Hq'. destruct o; cbn [units running_unit]; [done|lia|lia].
Qed.

Lemma run_task_moves s p0 usec q p b s' :
  run_task one_thread_ wait_usec_ p0 usec q s = (p, b, s') → op_queue_ s = Task :: q →
  p0 = In_task ∨ p0 = Wait_task → moves s p s'.
Proof.
  unfold run_task. intros Hr Hq Hc. assert (p = p0 ∧ outstanding_work_ s' = outstanding_work_ s ∧ op_queue_ s' = q)
    as (-> & Hw & Hq') by (destruct (_ && _ && _); by injection Hr as <- <- <-).
  split; [done|rewrite Hq, Hq'|]; destruct Hc as [->| ->]; cbn [units running_unit]; done || lia.
Qed.

Lemma stays s p s' :
  outstanding_work_ s' = outstanding_work_ s → op_queue_ s' = op_queue_ s → running_unit p = 0 →
  match p with Running Task | Finishing _ => False | _ => True end → moves s p s'.
Proof. intros Ho Hq Hr Hp. split; [done|rewrite Hq; lia|done]. Qed.

Lemma do_run_one_moves : moving (do_run_one one_thread_ task_usec_ wait_usec_).
Proof.
  intros s p b s'. unfold do_run_one. destruct (stopped_ s); [intros [= <- _ <-]; by apply stays|].
  destruct (op_queue_ s) as [|[] q] eqn:Eq.
  - destruct (_ =? 0); intros [= <- _ <-]; by apply stays.
  - intros Hr. eapply run_task_moves; eauto.
  - intros Hr. by eapply run_op_moves.
  - intros Hr. by eapply run_op_moves.
Qed.

Lemma do_poll_one_moves : moving (do_poll_one one_thread_ wait_usec_).
Proof.
  intros s p b s'. unfold do_poll_one. destruct (stopped_ s); [intros [= <- _ <-]; by apply stays|].
  destruct (op_queue_ s) as [|[] q] eqn:Eq.
  - intros [= <- _ <-]. by apply stays.
  - intros [= <- _ <-]. split; [done|rewrite Eq; cbn [with_queue op_queue_ units running_unit]; lia|done].
  - intros Hr. by eapply run_op_moves.
  - intros Hr. by eapply run_op_moves.
Qed.

Lemma wait_front_moves usec : moving (wait_front one_thread_ task_usec_ wait_usec_ usec).
Proof.
  intros s p b s'. unfold wait_front. destruct (op_queue_ s) as [|[] q] eqn:Eq.
  - intros [= <- _ <-]. by apply stays.
  - intros Hr. eapply run_task_moves; eauto.
  - intros Hr. by eapply run_op_moves.
  - intros Hr. by eapply run_op_moves.
Qed.

Lemma do_wait_one_moves usec : moving (do_wait_one one_thread_ task_usec_ wait_usec_ usec).
Proof.
  intros s p b s'. unfold do_wait_one. destruct (stopped_ s); [intros [= <- _ <-]; by apply stays|].
  destruct (op_queue_ s) as [|o q] eqn:Eq; [intros [= <- _ <-]; by apply stays|]. apply wait_front_moves.
Qed.

Lemma front_op_moves front : moving (front_op one_thread_ wait_usec_ front).
Proof.
  intros s p b s'. unfold front_op. destruct (op_queue_ s) as [|[] q] eqn:Eq.
  - intros [= <- _ <-]. by apply stays.
  - destruct (_ || _); intros [= <- _ <-]; by apply stays.
  - intros Hr. by eapply run_op_moves.
  - intros Hr. by eapply run_op_moves.
Qed.

(** The members that a step reads off a record. *)
Ltac fields :=
  cbn [sched threads pending left_behind base todo private_outstanding_work private_op_queue
       outstanding_work_ op_queue_ with_work with_queue with_event with_interrupted with_stopped
       at_phase then_do done_action tail set_thread running_unit] in *.

(** A thread looks at the queue. *)
Lemma work_inv_look f y t th th0 s :
  moving f → work_inv y → threads y !! t = Some th →
  private_outstanding_work th0 = 0 → private_op_queue th0 = [] → running_unit (base th0) = 0 →
  outstanding_work_ s - outstanding_work_ (sched y) =
    units (op_queue_ s) - units (op_queue_ (sched y)) + balance th0 - balance th →
  work_inv (look f t th0 s y).
Proof.
  intros Hf Hy Hth Hp Hq Hr Hd. unfold look. destruct (f s) as [[p b] s'] eqn:E.
  destruct (Hf _ _ _ _ E) as [Ho Hu Hph].
  assert (balance (decided p b th0) = balance th0 + running_unit p) as Hb.
  { unfold decided. rewrite balance_if_signal. unfold balance. fields. rewrite Hr. lia. }
  apply (work_inv_update y s' t th); [done|done| |apply Hy|lia].
  apply work_ok_if_signal. unfold work_ok. fields. rewrite Hp, Hq.
  destruct p as [| | | | | | | | | | | | | | |[]| |]; cbn [units]; try done; lia.
Qed.

Lemma work_inv_members y s l :
  work_inv y → outstanding_work_ s = outstanding_work_ (sched y) → op_queue_ s = op_queue_ (sched y) →
  work_inv (mk_system s (threads y) (pending y) l).
Proof. intros [Hc Hp Ht] Ho Hq. split; fields; [by rewrite Ho, Hq|done..]. Qed.

Lemma user_code_cases th :
  user_code th = true → todo th = [] ∧ (base th = Outside ∨ ∃ id, base th = Running (User id)).
Proof.
  unfold user_code. destruct (todo th); [|done]. destruct (base th) as [| | | | | | | | | | | | | | |[]| |]; try done; eauto.
Qed.

Lemma post_immediate_work ops cont y t th :
  work_inv y → threads y !! t = Some th → user_code th = true →
  work_inv (post_immediate one_thread_ ops cont t th y).
Proof.
  intros Hy Hth Hu. pose proof (work_inv_thread y t th Hy Hth) as Hok.
  apply user_code_cases in Hu as [Htd Hb]. pose proof (units_nonneg ops). unfold post_immediate.
  destruct ((one_thread_ || cont) && in_scheduler th) eqn:Ein.
  - destruct Hb as [Hb|[id Hb]]; [unfold in_scheduler in Ein; by rewrite Hb, andb_false_r in Ein|].
    apply (work_inv_update y _ t th); [done|done| |apply Hy|].
    + unfold work_ok in *. fields. rewrite Hb in *. rewrite units_app. lia.
    + unfold balance. fields. rewrite Hb, units_app. lia.
  - apply (work_inv_update y _ t th); [done|done|done|apply Hy|].
    unfold balance. fields. rewrite sumZ_cons. cbn [action_units]. lia.
Qed.

Lemma post_deferred_work ops y t th p :
  work_inv (mk_system (sched y) (threads y) p (left_behind y)) → threads y !! t = Some th →
  (base th = Outside ∨ ∃ id, base th = Running (User id)) → units ops ≤ p → pending y = p →
  work_inv (post_deferred one_thread_ ops t th y).
Proof.
  intros Hy Hth Hb Hle <-. assert (work_inv y) as Hy' by (by destruct y).
  pose proof (work_inv_thread y t th Hy' Hth) as Hok. pose proof (units_nonneg ops). unfold post_deferred.
  destruct ops as [|o ops]; [by cbn [is_nil units]; rewrite Z.sub_0_r|]. cbn [is_nil].
  destruct (one_thread_ && in_scheduler th) eqn:Ein.
  - destruct Hb as [Hb|[id Hb]]; [unfold in_scheduler in Ein; by rewrite Hb, andb_false_r in Ein|].
    apply (work_inv_update y _ t th); [done|done| |fields; lia|].
    + unfold work_ok in *. fields. rewrite Hb in *. rewrite units_app. lia.
    + unfold balance. fields. rewrite Hb, units_app. lia.
  - apply (work_inv_update y _ t th); [done|done|done|fields; lia|].
    unfold balance. fields. rewrite sumZ_cons. cbn [action_units]. lia.
Qed.

Lemma wake_balance th : balance (wake th) = balance th.
Proof. unfold wake. destruct (base th) eqn:E; try done; unfold balance; fields; by rewrite E. Qed.

Lemma wake_work_ok th : work_ok th → work_ok (wake th).
Proof. unfold wake. destruct (base th) eqn:E; try done; unfold work_ok; fields; by rewrite E. Qed.

Lemma work_finished_spec s th s' th' :
  work_finished s th = (s', th') →
  outstanding_work_ s' = outstanding_work_ s - 1 ∧ op_queue_ s' = op_queue_ s ∧ balance th' = balance th ∧
  (work_ok th → work_ok th').
Proof.
  unfold work_finished. intros [= <- <-]. fields. destruct (_ =? 0); [|done].
  split_and!; [done|done| |done]. unfold balance. fields. rewrite sumZ_cons. cbn [action_units]. lia.
Qed.

(** A step of a thread that keeps the members and moves no work. *)
Lemma work_inv_thread_only y t th th' :
  work_inv y → threads y !! t = Some th → work_ok th' → balance th' = balance th →
  work_inv (set_thread t th' (sched y) y).
Proof. intros Hy Hth Hok Hb. apply (work_inv_update y _ t th); [done|done|done|apply Hy|]. lia. Qed.

Lemma done_action_balance th a l :
  todo th = a :: l → balance (done_action th) = balance th - action_units a.
Proof. intros Ha. unfold balance. fields. rewrite Ha, sumZ_cons. cbn [tail]. lia. Qed.

Lemma resume_wait_work y t th :
  work_inv y → threads y !! t = Some th → base th = Woken →
  work_inv (resume_wait one_thread_ task_usec_ wait_usec_ t th y).
Proof.
  intros Hy Hth Hb. pose proof (work_inv_thread y t th Hy Hth) as Hok. unfold work_ok in Hok. rewrite Hb in Hok.
  destruct Hok as [Hp Hq]. unfold resume_wait. destruct (_ || _).
  - apply (work_inv_look _ y t th); [exact do_run_one_moves|done|done|done|done|by rewrite Hb|]. fields. lia.
  - apply (work_inv_update y _ t th); [done|done|done|apply Hy|].
    unfold balance. fields. rewrite Hb. cbn [running_unit]. lia.
Qed.

Lemma requeue_task_work f y t th :
  moving f → work_inv y → threads y !! t = Some th →
  match base th with Task_locking | Front_locking _ => True | _ => False end → work_inv (requeue_task f t th y).
Proof.
  intros Hf Hy Hth Hb. pose proof (work_inv_thread y t th Hy Hth) as Hok. unfold work_ok in Hok.
  assert (private_outstanding_work th = 0 ∧ running_unit (base th) = 0) as [Hp Hr] by (by destruct (base th)).
  unfold requeue_task. apply (work_inv_look _ y t th); [done|done|done|done|done|done|].
  unfold balance. fields. rewrite Hr, !units_app. cbn [running_unit units]. lia.
Qed.

Lemma push_private_work y t th n :
  work_inv y → threads y !! t = Some th → base th = Pushing n →
  work_inv (push_private one_thread_ task_usec_ wait_usec_ n t th y).
Proof.
  intros Hy Hth Hb. pose proof (work_inv_thread y t th Hy Hth) as Hok. unfold work_ok in Hok. rewrite Hb in Hok.
  assert (∀ f p, moving f → running_unit p = 0 → work_inv (look f t (mk_thread p (todo th) (private_outstanding_work th) [])
    (with_queue (op_queue_ (sched y) ++ private_op_queue th) (sched y)) y)) as Hlook.
  { intros f p Hf Hp. apply (work_inv_look _ y t th); [done|done|done|done|done|done|].
    unfold balance. fields. rewrite Hb, Hp, units_app. cbn [running_unit units]. lia. }
  unfold push_private. destruct n; [destruct (is_nil _) eqn:En..|].
  - apply (work_inv_thread_only y t th); [done|done|done|].
    unfold balance. fields. rewrite Hb. by destruct (private_op_queue th).
  - by apply (Hlook _ At_lock do_run_one_moves).
  - apply (work_inv_thread_only y t th); [done|done|done|].
    unfold balance. fields. rewrite Hb. by destruct (private_op_queue th).
  - by apply (Hlook _ Poll_lock do_poll_one_moves).
  - apply (work_inv_update y _ t th); [done|done|done|apply Hy|].
    unfold balance. fields. rewrite Hb, units_app. cbn [running_unit units]. lia.
Qed.

Lemma work_cleanup_work y t th n :
  work_inv y → threads y !! t = Some th → base th = Finishing n →
  work_inv (let '(s, th) := work_cleanup n th (sched y) in set_thread t th s y).
Proof.
  intros Hy Hth Hb. pose proof (work_inv_thread y t th Hy Hth) as Hok. unfold work_ok in Hok. rewrite Hb in Hok.
  unfold work_cleanup. destruct (1 <? _) eqn:E1; [|destruct (_ <? 1) eqn:E2].
  - apply (work_inv_update y _ t th); [done|done|done|apply Hy|].
    unfold balance. fields. rewrite Hb. cbn [running_unit]. lia.
  - destruct (work_finished _ _) as [s' th'] eqn:Ew. apply work_finished_spec in Ew as (Ho & Hq & Hbal & Hk).
    apply (work_inv_update y _ t th); [done|done|by apply Hk|apply Hy|].
    rewrite Hbal, Ho, Hq. unfold balance. fields. rewrite Hb. cbn [running_unit]. lia.
  - apply (work_inv_update y _ t th); [done|done|done|apply Hy|].
    unfold balance. fields. rewrite Hb. cbn [running_unit]. lia.
Qed.

Lemma complete_descriptor_work y t th n id ops :
  work_inv y → threads y !! t = Some th → base th = Running (Descriptor id) →
  Z.of_nat (length ops) ≤ pending y → work_inv (complete_descriptor one_thread_ n ops t th y).
Proof.
  intros Hy Hth Hb Hle. pose proof (work_inv_thread y t th Hy Hth) as Hok. unfold work_ok in Hok. rewrite Hb in Hok.
  destruct Hok as [Hp Hq]. pose proof Hth as Hlt%lookup_lt_Some. destruct ops as [|o ops]; cbn [complete_descriptor].
  - apply (work_inv_update y _ t th); [done|done| |apply Hy|].
    + unfold work_ok. fields. rewrite Hp, Hq. cbn [units]. split; [lia|by right].
    + unfold balance. fields. rewrite Hb. cbn [running_unit]. lia.
  - cbn [length] in Hle. eapply post_deferred_work; [|by apply list_lookup_insert_eq|by eauto| |done]; fields.
    + apply (work_inv_update y _ t th); [done|done| |lia|].
      * unfold work_ok. fields. rewrite Hp, Hq. cbn [units]. lia.
      * unfold balance. fields. rewrite Hb. cbn [running_unit]. lia.
    + rewrite units_users. lia.
Qed.

Lemma stop_all_work s :
  outstanding_work_ (stop_all_threads s) = outstanding_work_ s ∧ op_queue_ (stop_all_threads s) = op_queue_ s.
Proof. apply (interrupt_task_work (with_event _ (with_stopped true s))). Qed.

Lemma stop_work y t th l :
  work_inv y → threads y !! t = Some th → todo th = A_stop :: l →
  work_inv (mk_system (stop_all_threads (sched y)) (map wake (<[t := done_action th]> (threads y))) (pending y)
              (left_behind y)).
Proof.
  intros [Hc Hp Ht] Hth Ha. pose proof (done_action_balance th _ _ Ha) as Hd. cbn [action_units] in Hd.
  destruct (stop_all_work (sched y)) as [Ho Hq].
  split; fields.
  - rewrite sumZ_map by apply wake_balance. rewrite (sumZ_insert _ _ _ _ _ Hth).
    rewrite Ho, Hq. lia.
  - done.
  - apply Forall_fmap, (Forall_impl work_ok); [|intros ?; apply wake_work_ok].
    apply Forall_insert; [done|]. exact (Forall_lookup_1 _ _ _ _ Ht Hth).
Qed.

Lemma init_task_work s b s' :
  init_task wait_usec_ s = (b, s') →
  outstanding_work_ s' = outstanding_work_ s ∧ units (op_queue_ s') = units (op_queue_ s).
Proof.
  unfold init_task. destruct (_ && _); [|by intros [= _ <-]].
  intros [-> ->]%wake_work. cbn [outstanding_work_ op_queue_]. rewrite units_app. cbn [units]. lia.
Qed.

Lemma enter_work p y t th :
  work_inv y → threads y !! t = Some th → base th = Outside →
  match p with At_lock | Poll_lock | Wait_lock _ => True | _ => False end → work_inv (enter p t th y).
Proof.
  intros Hy Hth Hb Hp. pose proof (work_inv_thread y t th Hy Hth) as Hok. unfold work_ok in Hok. rewrite Hb in Hok.
  destruct Hok as [Hq Hpq]. unfold enter. destruct (_ =? 0); apply (work_inv_thread_only y t th); [done|done| | |done|done| |].
  - unfold work_ok. fields. by rewrite Hb.
  - unfold balance. fields. rewrite sumZ_cons. cbn [action_units]. lia.
  - unfold work_ok. fields. by destruct p.
  - unfold balance. fields. rewrite Hb, Hpq, Hq. by destruct p.
Qed.

Lemma task_return_work y t th p ops :
  work_inv y → threads y !! t = Some th → todo th = [] → behind_task (base th) = Some p → units ops ≤ pending y →
  work_inv (mk_system (sched y)
    (<[t := mk_thread p [] (private_outstanding_work th) (private_op_queue th ++ ops)]> (threads y))
    (pending y - units ops) (left_behind y)).
Proof.
  intros Hy Hth Ht Hb Hle. pose proof (work_inv_thread y t th Hy Hth) as Hok. unfold work_ok in Hok.
  assert (private_outstanding_work th = 0 ∧ private_op_queue th = [] ∧ running_unit (base th) = 0 ∧ running_unit p = 0 ∧
    match p with Task_returned | Front_returned _ => True | _ => False end) as (Hp & Hq & Hr & Hrp & Hph)
    by (destruct (base th); try done; destruct Hok; by injection Hb as <-).
  apply (work_inv_update y _ t th); [done|done| |lia|].
  - unfold work_ok. fields. by destruct p.
  - unfold balance. fields. rewrite Hr, Hrp, Ht, Hq, units_app. cbn [units]. lia.
Qed.

Lemma task_cleanup_work y t th p :
  work_inv y → threads y !! t = Some th → behind_cleanup (base th) = Some p →
  work_inv (let '(s, th) := task_cleanup p th (sched y) in set_thread t th s y).
Proof.
  intros Hy Hth Hb. pose proof (work_inv_thread y t th Hy Hth) as Hok. unfold work_ok in Hok.
  assert (private_outstanding_work th = 0 ∧ running_unit (base th) = 0 ∧ running_unit p = 0 ∧
    match p with Task_locking | Front_locking _ => True | _ => False end) as (Hp & Hr & Hrp & Hph)
    by (destruct (base th); try done; by injection Hb as <-).
  cbn [task_cleanup]. apply (work_inv_update y _ t th); [done|done| |apply Hy|].
  - unfold work_ok. fields. by destruct p.
  - unfold balance. fields. rewrite Hr, Hrp, Hp. cbn. lia.
Qed.

(** A thread that holds nothing and looks at the queue. *)
Lemma look_work f y t th s :
  moving f → work_inv y → threads y !! t = Some th →
  match base th with At_lock | Poll_lock | Wait_lock _ | Timed_woken => True | _ => False end →
  outstanding_work_ s = outstanding_work_ (sched y) → op_queue_ s = op_queue_ (sched y) → work_inv (look f t th s y).
Proof.
  intros Hf Hy Hth Hb Ho Hq. pose proof (work_inv_thread y t th Hy Hth) as Hok. unfold work_ok in Hok.
  assert ((private_outstanding_work th = 0 ∧ private_op_queue th = []) ∧ running_unit (base th) = 0) as [[Hp Hpq] Hr]
    by (by destruct (base th)).
  apply (work_inv_look _ y t th); [done|done|done|done|done|done|rewrite Ho, Hq; lia].
Qed.

(** A signal is given to thread [u]. *)
Lemma signal_work y t th l u tu :
  work_inv y → threads y !! t = Some th → todo th = A_signal :: l →
  <[t := done_action th]> (threads y) !! u = Some tu →
  work_inv (mk_system (sched y) (<[u := wake tu]> (<[t := done_action th]> (threads y))) (pending y) (left_behind y)).
Proof.
  intros Hy Hth Ha Hu. pose proof (work_inv_thread y t th Hy Hth) as Hok.
  pose proof (done_action_balance th _ _ Ha) as Hd. cbn [action_units] in Hd.
  assert (work_inv (set_thread t (done_action th) (sched y) y)) as Hy'
    by (apply (work_inv_thread_only y t th); [done|done|done|lia]).
  apply (work_inv_thread_only _ u tu) with (th' := wake tu) in Hy'; [done|done| |apply wake_balance].
  apply wake_work_ok. eapply (work_inv_thread _ u); [exact Hy'|done].
Qed.

(** Operations are pushed. *)
Lemma push_work y t th ops l :
  work_inv y → threads y !! t = Some th → todo th = A_push ops :: l →
  work_inv (let '(signal, s) := wake_one_thread_and_unlock wait_usec_ (with_queue (op_queue_ (sched y) ++ ops) (sched y)) in
            set_thread t (if_signal signal (done_action th)) s y).
Proof.
  intros Hy Hth Ha. pose proof (work_inv_thread y t th Hy Hth) as Hok.
  destruct (wake_one_thread_and_unlock _ _) as [b s'] eqn:Ew. apply wake_work in Ew as [Ho Hq].
  apply (work_inv_update y _ t th); [done|done|by apply work_ok_if_signal|apply Hy|].
  rewrite balance_if_signal, (done_action_balance _ _ _ Ha), Ho, Hq. fields. rewrite units_app. cbn [action_units]. lia.
Qed.

Lemma work_step y y' : sched_step one_thread_ task_usec_ wait_usec_ y y' → work_inv y → work_inv y'.
Proof.
  intros Hst Hy. destruct Hst as
    [y t th Hth Ht Hb|y t th Hth Ht Hb|y t th usec Hth Ht Hb|y t th ops cont Hth Hu Hops|y t th ops Hth Hu Hops Hle
    |y t th id Hth Hu|y|y t th Hth Hu Hp|y t th Hth Hu|y|y t th Hth Hu|y t th ops l Hth Ha|y t th l Hth Ha
    |y t th l u tu Hth Ha Hu Hw|y t th l Hth Ha _|y t th Hth Ht Hb|y t th Hth Ht Hb|y t th usec Hth Ht Hb
    |y t th Hth Ht Hb|y t th Hth Ht Hb|y t th Hth Ht Hb|y t th p ops Hth Ht Hb Hops Hle|y t th p Hth Ht Hb
    |y t th Hth Ht Hb|y t th front Hth Ht Hb|y t th n id ops Hth Ht Hb Hle|y t th id n Hth Ht Hb|y t th n Hth Ht Hb
    |y t th n Hth Ht Hb];
    try pose proof (work_inv_thread y t th Hy Hth) as Hok.
  1-3: by apply enter_work.
  - by apply post_immediate_work.
  - apply user_code_cases in Hu as [_ Hb]. eapply post_deferred_work; [|done|done|done|done]. by destruct y.
  - apply (work_inv_update y _ t th); [done|done|done|apply Hy|].
    unfold do_dispatch, balance. fields. rewrite sumZ_cons. cbn [action_units units]. lia.
  - destruct Hy as [Hc Hp Ht]. split; fields; [lia|lia|done].
  - destruct (work_finished (sched y) th) as [s' th'] eqn:Ew. apply work_finished_spec in Ew as (Ho & Hq & Hbal & Hk).
    apply (work_inv_update y _ t th); [done|done|by apply Hk|lia|]. rewrite Ho, Hq, Hbal. lia.
  - apply (work_inv_thread_only y t th); [done|done|done|].
    unfold balance. fields. rewrite sumZ_cons. cbn [action_units]. lia.
  - by apply work_inv_members.
  - destruct (init_task wait_usec_ (sched y)) as [b s'] eqn:Ei. apply init_task_work in Ei as [Ho Hq].
    apply (work_inv_update y _ t th); [done|done|by apply work_ok_if_signal|apply Hy|]. rewrite balance_if_signal. lia.
  - by eapply push_work.
  - by eapply stop_work.
  - by eapply signal_work.
  - pose proof (done_action_balance th _ _ Ha) as Hd. cbn [action_units] in Hd.
    apply (work_inv_thread_only y t th); [done|done|done|lia].
  - apply look_work; [exact do_run_one_moves|done|done|by rewrite Hb|done|done].
  - apply look_work; [exact do_poll_one_moves|done|done|by rewrite Hb|done|done].
  - apply look_work; [apply do_wait_one_moves|done|done|by rewrite Hb|done|done].
  - apply (work_inv_thread_only y t th); [done|done|by apply wake_work_ok|apply wake_balance].
  - by apply resume_wait_work.
  - apply look_work; [apply wait_front_moves|done|done|by rewrite Hb|done|done].
  - by apply task_return_work.
  - by apply task_cleanup_work.
  - apply requeue_task_work; [exact do_run_one_moves|done|done|by rewrite Hb].
  - apply requeue_task_work; [apply front_op_moves|done|done|by rewrite Hb].
  - by eapply complete_descriptor_work.
  - apply (work_inv_thread_only y t th); [done|done| |].
    + unfold work_ok in *. fields. rewrite Hb in Hok. lia.
    + unfold balance. fields. by rewrite Hb.
  - by apply work_cleanup_work.
  - by apply push_private_work.
Qed.

Lemma work_init n : work_inv (init_system n).
Proof.
  split; cbn [init_system sched threads pending]; [|done|by apply Forall_replicate].
  cbn [new_scheduler outstanding_work_ op_queue_ units]. rewrite sumZ_replicate.
  unfold balance. fields. rewrite sumZ_nil. cbn [units]. lia.
Qed.

Lemma reachable_work n y : rtc (sched_step one_thread_ task_usec_ wait_usec_) (init_system n) y → work_inv y.
Proof.
  intros Hr. pose proof (work_init n) as Hi. revert Hi. induction Hr as [|y1 y2 y3 Hs _ IH]; [done|].
  intros Hy. eapply IH, work_step; eauto.
Qed.

(** Nothing is left when the count is zero. *)
Lemma no_work_idle y :
  work_inv y → 0 ≤ outstanding_work_ (sched y) ∧
  (outstanding_work_ (sched y) = 0 → pending y = 0 ∧ units (op_queue_ (sched y)) = 0 ∧ Forall idle (threads y)).
Proof.
  intros [Hc Hp Ht]. assert (Forall (λ th, 0 ≤ balance th) (threads y)) as Hb
    by (eapply Forall_impl; [exact Ht|exact balance_nonneg]).
  pose proof (sumZ_nonneg _ _ Hb). pose proof (units_nonneg (op_queue_ (sched y))).
  split; [lia|]. intros E. split; [lia|]. split; [lia|]. apply Forall_forall. intros th Hth.
  rewrite Forall_forall in Ht. pose proof (sumZ_elem _ _ _ Hb Hth). specialize (Ht th Hth).
  apply balance_idle; [done|]. apply balance_nonneg in Ht. lia.
Qed.
End work.
