(* ===== verification/SchedulerWakeups.v ===== *)
(** No lost wake-ups in the scheduler: while operations are queued, a thread
    is on its way to the queue, a thread is about to be woken for them, or no
    thread is blocked.  The task, of which there is one, is run by one thread
    at a time. *)

From stdpp Require Import relations.
From S2P Require Import Prelude Scheduler SchedulerFacts.

#[local] Open Scope Z_scope.

(** * Counting *)

Fixpoint tasks (ops : list sched_op) : Z :=
  match ops with
  | [] => 0
  | Task :: ops' => 1 + tasks ops'
  | _ :: ops' => tasks ops'
  end.

Definition action_tasks (a : action) : Z := match a with A_push ops => tasks ops | _ => 0 end.

(** The thread has the task. *)
Definition has_task (p : phase) : Z :=
  match p with
  | In_task | Poll_task | Wait_task | Task_returned | Task_locking | Front_returned _ | Front_locking _
  | Running Task => 1
  | _ => 0
  end.

Definition task_units (th : thread) : Z :=
  has_task (base th) + tasks (private_op_queue th) + sumZ action_tasks (todo th).

(** The thread is in [posix_event::wait] or [wait_for_usec]. *)
Definition in_wait (th : thread) : Z :=
  match base th with Waiting | Woken | Timed_waiting | Timed_woken => 1 | _ => 0 end.

(** It waits for [do_run_one]. *)
Definition untimed (th : thread) : bool := match base th with Waiting | Woken => true | _ => false end.

(** It runs the task. *)
Definition in_task (th : thread) : bool := match base th with In_task | Poll_task | Wait_task => true | _ => false end.

Definition signals (th : thread) : Prop := A_signal ∈ todo th.

Lemma tasks_app l1 l2 : tasks (l1 ++ l2) = tasks l1 + tasks l2.
Proof. induction l1 as [|[] l1 IH]; cbn; lia. Qed.

Lemma tasks_nonneg l : 0 ≤ tasks l.
Proof. induction l as [|[] l IH]; cbn; lia. Qed.

Lemma tasks_users ops : forallb user_op ops = true → tasks ops = 0.
Proof. induction ops as [|[] ops IH]; cbn; try done. Qed.

Lemma tasks_not ops : forallb not_task ops = true → tasks ops = 0.
Proof. induction ops as [|[] ops IH]; cbn; try done. Qed.

Lemma action_tasks_nonneg l : 0 ≤ sumZ action_tasks l.
Proof. apply sumZ_nonneg, Forall_forall. intros [] _; cbn; [lia..|apply tasks_nonneg]. Qed.

Lemma has_task_le th : 0 ≤ has_task (base th) ≤ task_units th.
Proof.
  unfold task_units. pose proof (action_tasks_nonneg (todo th)). pose proof (tasks_nonneg (private_op_queue th)).
  destruct (base th) as [| | | | | | | | | | | | | | |[]| |]; cbn [has_task]; lia.
Qed.

Lemma task_units_nonneg l : Forall (λ th, 0 ≤ task_units th) l.
Proof. apply Forall_forall. intros th _. pose proof (has_task_le th). lia. Qed.

Lemma in_wait_nonneg l : Forall (λ th, 0 ≤ in_wait th) l.
Proof. apply Forall_forall. intros th _. unfold in_wait. destruct (base th); lia. Qed.

Lemma sumZ_pos {A} (f : A → Z) l : 0 < sumZ f l → Exists (λ x, 0 < f x) l.
Proof.
  induction l as [|x l IH]; [by rewrite sumZ_nil|]. rewrite sumZ_cons. intros Hs.
  destruct (decide (0 < f x)); [by left|right; apply IH; lia].
Qed.

Lemma Exists_insert {A} (P : A → Prop) l t x : (t < length l)%nat → P x → Exists P (<[t := x]> l).
Proof. intros Hl Hx. apply Exists_exists. exists x. split; [|done]. by eapply list_elem_of_lookup_2, list_lookup_insert_eq. Qed.

(** An element that is replaced by one with the property. *)
Lemma Exists_insert_impl {A} (P Q : A → Prop) l t x y :
  l !! t = Some x → (P x → Q y) → (∀ z, P z → Q z) → Exists P l → Exists Q (<[t := y]> l).
Proof.
  intros Hx Hxy HPQ (z & [u Hu]%list_elem_of_lookup_1 & Hz)%Exists_exists. apply Exists_exists.
  destruct (decide (u = t)) as [->|Hne].
  - replace z with x in Hz by congruence. exists y. split; [|auto].
    by eapply list_elem_of_lookup_2, list_lookup_insert_eq, lookup_lt_Some.
  - exists z. split; [|auto]. eapply list_elem_of_lookup_2. by rewrite list_lookup_insert_ne by done.
Qed.

Section wakeups.
  Context (task_usec_ wait_usec_ : Z).

(** * Who is blocked, and who comes *)

(** The thread will look at the queue without being woken by another. *)
Definition arriving (s : scheduler) (th : thread) : bool :=
  match base th with
  | At_lock | Poll_lock | Wait_lock _ | Timed_woken | Poll_task | Task_returned | Task_locking | Front_returned _
  | Front_locking _ | Finishing N_run | Finishing N_poll | Pushing N_run | Pushing N_poll => true
  | Woken => signalled (wakeup_event_ s) || (0 <? wait_usec_)
  | In_task | Wait_task => task_interrupted_ s
  | _ => false
  end.

(** The thread stays where it is until it is woken, or until a time is over;
    [wait_one] does not wait at all if [wait_usec_] is zero. *)
Definition blocked (s : scheduler) (th : thread) : bool :=
  match base th with
  | Waiting => true
  | Timed_waiting => negb (wait_usec_ =? 0)
  | Woken => negb (signalled (wakeup_event_ s) || (0 <? wait_usec_))
  | In_task | Wait_task => negb (task_interrupted_ s)
  | _ => false
  end.

Definition served (y : system) : Prop :=
  Exists (λ th, arriving (sched y) th = true) (threads y) ∨
  (signalled (wakeup_event_ (sched y)) = true ∧ Exists signals (threads y) ∧ Exists (λ th, 0 < in_wait th) (threads y)) ∨
  Forall (λ th, blocked (sched y) th = false) (threads y).

Record calm (y : system) : Prop := {
  c_waiters : waiters (wakeup_event_ (sched y)) = sumZ in_wait (threads y);
  c_nowait : wait_usec_ = 0 → Forall (λ th, untimed th = false) (threads y);
  c_tasks : tasks (op_queue_ (sched y)) + sumZ task_units (threads y) = Z.b2z (task_ (sched y));
  c_stopped : stopped_ (sched y) = true → Forall (λ th, blocked (sched y) th = false) (threads y)
}.

Definition live (y : system) : Prop :=
  calm y ∧ (left_behind y = false → stopped_ (sched y) = false → op_queue_ (sched y) ≠ [] → served y).

(** Signals and interrupts unblock threads. *)
Lemma blocked_mono s s' th :
  (signalled (wakeup_event_ s) = true → signalled (wakeup_event_ s') = true) →
  (task_interrupted_ s = true → task_interrupted_ s' = true) →
  blocked s th = false → blocked s' th = false.
Proof.
  unfold blocked. intros Hs Hi. destruct (base th); try done.
  - destruct (signalled (wakeup_event_ s)); [by rewrite Hs|]. cbn [orb]. intros ->%negb_false_iff. by rewrite orb_true_r.
  - intros ?%negb_false_iff. by rewrite Hi.
  - intros ?%negb_false_iff. by rewrite Hi.
Qed.

(** One thread and the members change. *)
Lemma calm_update y s t th th' p l :
  calm y → threads y !! t = Some th →
  waiters (wakeup_event_ s) - waiters (wakeup_event_ (sched y)) = in_wait th' - in_wait th →
  (wait_usec_ = 0 → untimed th = false → untimed th' = false) →
  tasks (op_queue_ s) - tasks (op_queue_ (sched y)) + task_units th' - task_units th =
    Z.b2z (task_ s) - Z.b2z (task_ (sched y)) →
  (stopped_ s = true → stopped_ (sched y) = true ∧
     (signalled (wakeup_event_ (sched y)) = true → signalled (wakeup_event_ s) = true) ∧
     (task_interrupted_ (sched y) = true → task_interrupted_ s = true) ∧
     (blocked (sched y) th = false → blocked s th' = false)) →
  calm (mk_system s (<[t := th']> (threads y)) p l).
Proof.
  intros [Hw Hn Ht Hs] Hth Hw' Hn' Ht' Hs'. split; cbn [sched threads].
  - rewrite (sumZ_insert _ _ _ _ _ Hth). lia.
  - intros H0. apply Forall_insert; [auto|]. apply Hn'; [done|]. exact (Forall_lookup_1 _ _ _ _ (Hn H0) Hth).
  - rewrite (sumZ_insert _ _ _ _ _ Hth). lia.
  - intros Hst. destruct (Hs' Hst) as (Hst0 & Hsg & Hti & Hb). specialize (Hs Hst0). apply Forall_insert.
    + eapply Forall_impl; [exact Hs|]. intros z. by apply blocked_mono.
    + apply Hb. exact (Forall_lookup_1 _ _ _ _ Hs Hth).
Qed.

(** * Waking *)

(** A thread that runs the task: there is one. *)
Lemma in_task_task y th : calm y → th ∈ threads y → in_task th = true → task_ (sched y) = true.
Proof.
  intros [_ _ Ht _] Hin Hb. pose proof (sumZ_elem task_units (threads y) th (task_units_nonneg _) Hin) as Hle.
  pose proof (has_task_le th) as Hh. pose proof (tasks_nonneg (op_queue_ (sched y))).
  assert (has_task (base th) = 1) as H1 by (unfold in_task in Hb; by destruct (base th)).
  destruct (task_ (sched y)); [done|]. cbn [Z.b2z] in Ht. lia.
Qed.

(** Nobody waits for a signal, and the task, if a thread runs it, was
    interrupted. *)
Lemma nobody_waits_served y :
  calm y → (wait_usec_ = 0 ∨ waiters (wakeup_event_ (sched y)) ≤ 0) →
  (task_ (sched y) = true → task_interrupted_ (sched y) = true) → served y.
Proof.
  intros Hc H0 Hi. destruct (decide (Exists (λ th, in_task th = true) (threads y))) as [He|Hn].
  - left. apply Exists_exists in He as (th & Hin & Hb). apply Exists_exists. exists th. split; [done|].
    specialize (Hi (in_task_task y th Hc Hin Hb)). unfold in_task, arriving in *. by destruct (base th).
  - right; right. apply Forall_forall. intros th Hin.
    assert (in_task th ≠ true) as Hni by (intros Hb; apply Hn, Exists_exists; eauto).
    destruct Hc as [Hw Hnw _ _]. destruct H0 as [H0|H0].
    + specialize (Hnw H0). rewrite Forall_forall in Hnw. specialize (Hnw th Hin).
      unfold blocked, untimed, in_task in *. destruct (base th); try done. by rewrite H0.
    + pose proof (sumZ_elem in_wait (threads y) th (in_wait_nonneg _) Hin) as Hle. unfold in_wait in Hle at 1.
      unfold blocked, in_task in *. destruct (base th); try done; lia.
Qed.

Lemma interrupt_task_members s :
  wakeup_event_ (interrupt_task s) = wakeup_event_ s ∧ task_ (interrupt_task s) = task_ s ∧
  stopped_ (interrupt_task s) = stopped_ s ∧ op_queue_ (interrupt_task s) = op_queue_ s ∧
  (task_interrupted_ s = true → task_interrupted_ (interrupt_task s) = true) ∧
  (task_ s = true → task_interrupted_ (interrupt_task s) = true).
Proof. unfold interrupt_task. by destruct (task_interrupted_ s) eqn:E1, (task_ s) eqn:E2; cbn [negb andb]. Qed.

(** Members that only unblock threads. *)
Lemma calm_members y s l :
  calm y → waiters (wakeup_event_ s) = waiters (wakeup_event_ (sched y)) → op_queue_ s = op_queue_ (sched y) →
  task_ s = task_ (sched y) → stopped_ s = stopped_ (sched y) →
  (signalled (wakeup_event_ (sched y)) = true → signalled (wakeup_event_ s) = true) →
  (task_interrupted_ (sched y) = true → task_interrupted_ s = true) →
  calm (mk_system s (threads y) (pending y) l).
Proof.
  intros [Hw Hn Ht Hs] H1 H2 H3 H4 H5 H6. split; cbn [sched threads]; rewrite ?H1, ?H2, ?H3, ?H4; [done|done|done|].
  intros Hst. eapply Forall_impl; [by apply Hs|]. intros z. by apply blocked_mono.
Qed.

(** The signal that is due is another call of the thread. *)
Lemma calm_then_signal y t th b :
  calm y → threads y !! t = Some th → calm (set_thread t (if_signal b th) (sched y) y).
Proof.
  intros Hy Hth. destruct b; cbn [if_signal].
  2: { unfold set_thread. rewrite list_insert_id by done. by destruct y. }
  apply (calm_update y _ t th); [done|done| |done| |by intros; split_and!].
  - unfold in_wait. cbn [then_do base]. lia.
  - unfold task_units. cbn [if_signal then_do base todo private_op_queue]. rewrite sumZ_cons. cbn [action_tasks]. lia.
Qed.

(** [wake_one_thread_and_unlock] serves the operations in the queue. *)
Lemma wake_live y t th b s :
  calm y → threads y !! t = Some th → wake_one_thread_and_unlock wait_usec_ (sched y) = (b, s) →
  live (set_thread t (if_signal b th) s y).
Proof.
  intros Hy Hth Hw. pose proof Hth as Hlt%lookup_lt_Some.
  assert (∀ s0, waiters (wakeup_event_ s0) = waiters (wakeup_event_ (sched y)) → op_queue_ s0 = op_queue_ (sched y) →
    task_ s0 = task_ (sched y) → stopped_ s0 = stopped_ (sched y) → task_interrupted_ s0 = task_interrupted_ (sched y) →
    (signalled (wakeup_event_ (sched y)) = true → signalled (wakeup_event_ s0) = true) →
    (wait_usec_ = 0 ∨ waiters (wakeup_event_ s0) ≤ 0) → live (set_thread t th (interrupt_task s0) y)) as Hint.
  { intros s0 H1 H2 H3 H4 H5 H6 H7. destruct (interrupt_task_members s0) as (E1 & E2 & E3 & E4 & E5 & E6).
    unfold set_thread. rewrite list_insert_id by done.
    assert (calm (mk_system (interrupt_task s0) (threads y) (pending y) (left_behind y))) as Hc
      by (apply calm_members; [done|congruence..|by rewrite E1|]; intros; apply E5; congruence).
    split; [done|]. intros _ _ _. apply nobody_waits_served; [done| |]; cbn [sched]; rewrite ?E1, ?E2; done. }
  unfold wake_one_thread_and_unlock in Hw. destruct (Z.eqb_spec wait_usec_ 0) as [H0|H0].
  { injection Hw as <- <-. apply Hint; auto. }
  unfold have_waiters in Hw. cbn [set_signal waiters] in Hw. destruct (Z.ltb_spec 0 (waiters (wakeup_event_ (sched y)))).
  - injection Hw as <- <-. split.
    + apply (calm_then_signal (mk_system _ _ _ _) t th true); [|done]. by apply calm_members.
    + intros _ _ _. right; left. cbn [set_thread sched threads with_event wakeup_event_ signalled set_signal].
      split; [done|]. split; [apply Exists_insert; [done|]; by left|].
      eapply (Exists_insert_impl (λ th, 0 < in_wait th)); [done|done|done|]. apply sumZ_pos. by rewrite <- (c_waiters _ Hy).
  - injection Hw as <- <-. apply Hint; auto.
Qed.

(** * A thread that looks at the queue *)

Lemma look_at_phase f p t th s y : look f t (at_phase p th) s y = look f t th s y.
Proof. unfold look. by destruct (f s) as [[? ?] ?]. Qed.

(** What [th] holds of the task in phase [p]. *)
Lemma at_lock_units th p :
  base th = At_lock →
  in_wait th = 0 ∧ untimed th = false ∧ task_units (at_phase p th) = task_units th + has_task p.
Proof. intros Hb. unfold in_wait, untimed, task_units. rewrite Hb. cbn [at_phase base todo private_op_queue has_task]. lia. Qed.

(** The thread ends in phase [p], with a signal to give or not. *)
Lemma calm_decided y t th p b s :
  calm y → threads y !! t = Some th → base th = At_lock →
  waiters (wakeup_event_ s) = waiters (wakeup_event_ (sched y)) + in_wait (at_phase p th) →
  (wait_usec_ = 0 → untimed (at_phase p th) = false) →
  tasks (op_queue_ s) + has_task p = tasks (op_queue_ (sched y)) → task_ s = task_ (sched y) →
  (stopped_ s = true → stopped_ (sched y) = true ∧
     (signalled (wakeup_event_ (sched y)) = true → signalled (wakeup_event_ s) = true) ∧
     (task_interrupted_ (sched y) = true → task_interrupted_ s = true) ∧ blocked s (at_phase p th) = false) →
  calm (set_thread t (decided p b th) s y).
Proof.
  intros Hy Hth Hb Hw Hn Ht Hta Hs. destruct (at_lock_units th p Hb) as (Hw0 & _ & Htu).
  assert (calm (set_thread t (at_phase p th) s y)) as Hc.
  { apply (calm_update y _ t th); [done|done|lia|auto|rewrite Hta; lia|]. intros Hst. destruct (Hs Hst) as (? & ? & ? & ?). auto. }
  apply (calm_then_signal _ t (at_phase p th) b) in Hc; [|by eapply list_lookup_insert_eq, lookup_lt_Some].
  unfold set_thread in *. cbn [threads pending left_behind sched] in *. by rewrite list_insert_insert_eq in Hc.
Qed.

(** [f] keeps the invariant when it is called with the members [s]. *)
Definition lively (f : scheduler → phase * bool * scheduler) (s : scheduler) : Prop :=
  ∀ y t th, sched y = s → calm y → threads y !! t = Some th → base th = At_lock → live (look f t th s y).

(** The thread leaves, and the queue is empty or the scheduler stopped. *)
Lemma leave_live y t th s :
  sched y = s → calm y → threads y !! t = Some th → base th = At_lock → op_queue_ s = [] ∨ stopped_ s = true →
  live (set_thread t (decided Outside false th) s y).
Proof.
  intros Hs Hy Hth Hb Hq. subst s. split.
  - apply calm_decided; try done.
    + unfold in_wait. cbn. lia.
    + cbn. lia.
  - cbn [set_thread sched]. intros _ Hst Hne. destruct Hq; congruence.
Qed.

Lemma run_op_lively o q s : op_queue_ s = o :: q → o ≠ Task → lively (run_op false wait_usec_ o q) s.
Proof.
  intros Hq Ho y t th <- Hy Hth Hb. pose proof Hth as Hlt%lookup_lt_Some.
  assert (calm (set_thread t (at_phase (Running o) th) (with_queue q (sched y)) y)) as Hc.
  { apply (calm_decided y t th (Running o) false); try done.
    - unfold in_wait. cbn. lia.
    - rewrite Hq. cbn [with_queue op_queue_]. destruct o; cbn [tasks has_task]; [done|lia|lia]. }
  unfold look, run_op. rewrite andb_true_r. destruct q as [|o' q]; cbn [is_nil negb].
  - split; [done|]. intros _ _ Hne. by destruct Hne.
  - destruct (wake_one_thread_and_unlock wait_usec_ (with_queue (o' :: q) (sched y))) as [b s] eqn:Hw.
    apply (wake_live (set_thread t (at_phase (Running o) th) (with_queue (o' :: q) (sched y)) y) t
             (at_phase (Running o) th)) in Hw; [|done|by apply list_lookup_insert_eq].
    unfold set_thread in *. cbn [threads pending left_behind sched] in *. by rewrite list_insert_insert_eq in Hw.
Qed.

Lemma run_task_lively p usec q s :
  op_queue_ s = Task :: q → p = In_task ∨ p = Wait_task → (stopped_ s = true → usec = 0) →
  lively (run_task false wait_usec_ p usec q) s.
Proof.
  intros Hq Hp Husec y t th <- Hy Hth Hb. pose proof Hth as Hlt%lookup_lt_Some.
  assert (∀ b e, waiters e = waiters (wakeup_event_ (sched y)) →
    (signalled (wakeup_event_ (sched y)) = true → signalled e = true) →
    live (set_thread t (decided p b th)
      (with_event e (with_interrupted (negb (is_nil q) || (usec =? 0)) (with_queue q (sched y)))) y)) as Hl.
  { intros b e He Hse. split.
    - apply calm_decided; try done.
      + cbn [with_event with_interrupted with_queue wakeup_event_]. rewrite He.
        unfold in_wait. destruct Hp as [->| ->]; cbn [at_phase base]; lia.
      + by destruct Hp as [->| ->].
      + rewrite Hq. destruct Hp as [->| ->]; cbn [with_event with_interrupted with_queue op_queue_ tasks has_task]; lia.
      + cbn [with_event with_interrupted with_queue stopped_ wakeup_event_ task_interrupted_]. intros Hst.
        rewrite (Husec Hst). cbn [Z.eqb]. rewrite orb_true_r. split_and!; try done.
        unfold blocked. cbn [task_interrupted_]. by destruct Hp as [->| ->].
    - intros _ _ Hne. left. cbn [set_thread threads sched]. apply Exists_insert; [done|].
      unfold arriving, decided. destruct q; [by destruct Hne|]. by destruct Hp as [->| ->], b. }
  unfold look, run_task. destruct (_ && _ && _); cbn [signal_one].
  - by apply (Hl _ (set_signal (wakeup_event_ (sched y)))).
  - by apply (Hl false (wakeup_event_ (sched y))).
Qed.

Lemma do_run_one_lively s : lively (do_run_one false task_usec_ wait_usec_) s.
Proof.
  intros y t th <- Hy Hth Hb. unfold look, do_run_one. destruct (stopped_ (sched y)) eqn:Hst.
  { apply leave_live; auto. }
  destruct (op_queue_ (sched y)) as [|[] q] eqn:Hq.
  - destruct (Z.eqb_spec wait_usec_ 0) as [H0|H0]; (split; [|cbn; congruence]); apply calm_decided; try done.
    + unfold in_wait. cbn. lia.
    + cbn. lia.
    + cbn. lia.
    + cbn. congruence.
  - eapply (run_task_lively In_task task_usec_ q); try done; [by left|congruence].
  - by eapply (run_op_lively (User _) q).
  - by eapply (run_op_lively (Descriptor _) q).
Qed.

Lemma do_poll_one_lively s : lively (do_poll_one false wait_usec_) s.
Proof.
  intros y t th <- Hy Hth Hb. unfold look, do_poll_one. destruct (stopped_ (sched y)) eqn:Hst.
  { apply leave_live; auto. }
  destruct (op_queue_ (sched y)) as [|[] q] eqn:Hq.
  - apply leave_live; auto.
  - split.
    + apply calm_decided; try done.
      * unfold in_wait. cbn. lia.
      * rewrite Hq. cbn [with_queue op_queue_ tasks has_task]. lia.
    + intros _ _ _. left. apply Exists_insert; [by eapply lookup_lt_Some|done].
  - by eapply (run_op_lively (User _) q).
  - by eapply (run_op_lively (Descriptor _) q).
Qed.

Lemma wait_front_lively usec s :
  (stopped_ s = true → usec = 0) → lively (wait_front false task_usec_ wait_usec_ usec) s.
Proof.
  intros Hu y t th <- Hy Hth Hb. unfold look, wait_front. destruct (op_queue_ (sched y)) as [|[] q] eqn:Hq.
  - apply leave_live; auto.
  - eapply (run_task_lively Wait_task _ q); try done; [by right|].
    intros Hst. rewrite (Hu Hst). destruct (_ && _) eqn:E; [lia|done].
  - by eapply (run_op_lively (User _) q).
  - by eapply (run_op_lively (Descriptor _) q).
Qed.

Lemma do_wait_one_lively usec s : lively (do_wait_one false task_usec_ wait_usec_ usec) s.
Proof.
  intros y t th Hs Hy Hth Hb. unfold look, do_wait_one. destruct (stopped_ s) eqn:Hst.
  { apply leave_live; auto. }
  destruct (op_queue_ s) as [|o q] eqn:Hq.
  - subst s. split; [|cbn; congruence]. apply calm_decided; try done.
    + cbn. lia.
    + cbn. congruence.
  - eapply (wait_front_lively usec); try done. congruence.
Qed.

(** The task is in the queue, nobody runs it, and a thread that waits is told. *)
Lemma signal_one_live y t th b s :
  calm y → threads y !! t = Some th → base th = At_lock → task_interrupted_ (sched y) = true →
  signal_one (sched y) = (b, s) → live (set_thread t (decided Outside b th) s y).
Proof.
  intros Hy Hth Hb Hi [= <- <-]. pose proof Hth as Hlt%lookup_lt_Some.
  assert (calm (set_thread t (decided Outside (have_waiters (set_signal (wakeup_event_ (sched y)))) th)
    (with_event (set_signal (wakeup_event_ (sched y))) (sched y)) y)) as Hc.
  { apply calm_decided; try done.
    - unfold in_wait. cbn. lia.
    - cbn. lia. }
  split; [done|]. intros _ _ _. destruct (Z.leb_spec (waiters (wakeup_event_ (sched y))) 0) as [Hle|Hlt0].
  - apply nobody_waits_served; [done|by right|done].
  - right; left. cbn [set_thread threads sched with_event wakeup_event_ set_signal signalled]. split; [done|]. split.
    + apply Exists_insert; [done|]. unfold have_waiters. cbn [waiters set_signal].
      destruct (Z.ltb_spec 0 (waiters (wakeup_event_ (sched y)))); [by left|lia].
    + apply sumZ_pos. pose proof (c_waiters _ Hc) as Hw. cbn [set_thread threads sched with_event wakeup_event_ set_signal waiters] in Hw. lia.
Qed.

Lemma front_op_lively front s : task_interrupted_ s = true → lively (front_op false wait_usec_ front) s.
Proof.
  intros Hi y t th <- Hy Hth Hb. unfold look, front_op. destruct (op_queue_ (sched y)) as [|[] q] eqn:Hq.
  - apply leave_live; auto.
  - rewrite orb_true_r. destruct (signal_one (sched y)) as [b s] eqn:E. by eapply signal_one_live.
  - by eapply (run_op_lively (User _) q).
  - by eapply (run_op_lively (Descriptor _) q).
Qed.
(** * The other steps *)

(** Members that differ in the count of work at most. *)
Definition same_members (s s' : scheduler) : Prop :=
  wakeup_event_ s = wakeup_event_ s' ∧ task_ s = task_ s' ∧ task_interrupted_ s = task_interrupted_ s' ∧
  stopped_ s = stopped_ s' ∧ op_queue_ s = op_queue_ s'.

(** A thread that goes on without touching the queue or the event. *)
Lemma live_thread y s t th th' p :
  live y → threads y !! t = Some th → same_members s (sched y) →
  in_wait th' = in_wait th → untimed th' = untimed th → task_units th' = task_units th → (signals th → signals th') →
  (arriving (sched y) th = true → arriving (sched y) th' = true) →
  (blocked (sched y) th = false → blocked (sched y) th' = false) →
  live (mk_system s (<[t := th']> (threads y)) p (left_behind y)).
Proof.
  intros [Hc Hl] Hth (E1 & E2 & E3 & E4 & E5) Hw Hun Ht Hsg Har Hbl.
  assert (∀ z, arriving s z = arriving (sched y) z) as Ha by (intros z; unfold arriving; by rewrite E1, E3).
  assert (∀ z, blocked s z = blocked (sched y) z) as Hb by (intros z; unfold blocked; by rewrite E1, E3).
  split.
  - apply (calm_update y _ t th); [done|done|rewrite E1; lia|by rewrite Hun|rewrite E2, E5; lia|].
    rewrite E1, E3, E4, Hb. by intros; split_and!.
  - cbn [sched threads left_behind]. rewrite E4, E5. intros Hlb Hst Hne.
    destruct (Hl Hlb Hst Hne) as [Hx|[(Hs1 & Hs2 & Hs3)|Hx]]; unfold served; cbn [sched threads].
    + left. eapply (Exists_insert_impl (λ z, arriving (sched y) z = true)); [done|by rewrite Ha|intros; by rewrite Ha|done].
    + right; left. rewrite E1. split; [done|]. split.
      * by eapply (Exists_insert_impl signals).
      * eapply (Exists_insert_impl (λ z, 0 < in_wait z)); [done|by rewrite Hw|done|done].
    + right; right. apply Forall_insert; [|rewrite Hb; apply Hbl; exact (Forall_lookup_1 _ _ _ _ Hx Hth)].
      eapply Forall_impl; [exact Hx|]. intros z. by rewrite Hb.
Qed.

(** Another call of the thread. *)
Lemma live_then_do y s t th a p :
  live y → threads y !! t = Some th → same_members s (sched y) → action_tasks a = 0 →
  live (mk_system s (<[t := then_do a th]> (threads y)) p (left_behind y)).
Proof.
  intros Hy Hth Hs Ha. apply (live_thread y s t th); try done.
  - unfold task_units. cbn [then_do base todo private_op_queue]. rewrite sumZ_cons. lia.
  - unfold signals. cbn [then_do todo]. by right.
Qed.

Lemma live_work y w p : live y → live (mk_system (with_work w (sched y)) (threads y) p (left_behind y)).
Proof. by intros [[] ?]. Qed.

(** A call ends. *)
Lemma done_action_calm y t th a l p :
  calm y → threads y !! t = Some th → todo th = a :: l → action_tasks a = 0 →
  calm (mk_system (sched y) (<[t := done_action th]> (threads y)) p (left_behind y)).
Proof.
  intros Hy Hth Ha H0. apply (calm_update y _ t th); [done|done| |done| |by intros; split_and!].
  - unfold in_wait. cbn [done_action base]. lia.
  - unfold task_units. cbn [done_action base todo private_op_queue]. rewrite Ha, sumZ_cons. cbn [tail]. lia.
Qed.

(** The thread that is woken leaves the wait or will be found signalled. *)
Lemma wake_in_wait th : in_wait (wake th) = in_wait th.
Proof. unfold wake, in_wait. by destruct (base th) eqn:E; rewrite ?E. Qed.

Lemma wake_untimed th : untimed (wake th) = untimed th.
Proof. unfold wake, untimed. by destruct (base th) eqn:E; rewrite ?E. Qed.

Lemma wake_task_units th : task_units (wake th) = task_units th.
Proof. unfold wake. destruct (base th) eqn:E; try done; unfold task_units; cbn [at_phase base]; by rewrite E. Qed.

Lemma wake_todo th : todo (wake th) = todo th.
Proof. unfold wake. by destruct (base th). Qed.

Lemma wake_mono s th :
  (arriving s th = true → arriving s (wake th) = true) ∧ (blocked s th = false → blocked s (wake th) = false).
Proof. unfold wake, arriving, blocked. destruct (base th) eqn:E; rewrite ?E; done. Qed.

(** [stop_all_threads] leaves no thread blocked. *)
Lemma stop_live y t th l :
  calm y → threads y !! t = Some th → todo th = A_stop :: l →
  live (mk_system (stop_all_threads (sched y)) (map wake (<[t := done_action th]> (threads y))) (pending y)
          (left_behind y)).
Proof.
  intros Hy Hth Ha. pose proof (done_action_calm y t th A_stop l (pending y) Hy Hth Ha eq_refl) as Hd.
  set (s0 := with_event (set_signal (wakeup_event_ (sched y))) (with_stopped true (sched y))).
  change (stop_all_threads (sched y)) with (interrupt_task s0).
  destruct (interrupt_task_members s0) as (E1 & E2 & E3 & E4 & E5 & E6). pose proof Hd as [Hw Hn Ht Hs].
  cbn [sched threads] in Hw, Hn, Ht, Hs. split; [split|]; cbn [sched threads]; rewrite ?E1, ?E2, ?E3, ?E4.
  - rewrite sumZ_map by apply wake_in_wait. done.
  - intros H0. apply Forall_fmap. eapply Forall_impl; [exact (Hn H0)|]. intros z. unfold compose. by rewrite wake_untimed.
  - rewrite sumZ_map by apply wake_task_units. done.
  - intros _. apply Forall_fmap, Forall_forall. intros z Hz.
    assert (in_task z = true → task_interrupted_ (interrupt_task s0) = true) as Hi
      by (intros Hb; apply E6; exact (in_task_task _ z Hd Hz Hb)).
    unfold compose, blocked, wake, in_task in *. destruct (base z) eqn:Ez; cbn [base at_phase]; rewrite ?Ez, ?E1; try done;
      by rewrite Hi.
  - done.
Qed.

(** A signal that was due is given to thread [u]. *)
Lemma signal_live y t th l u tu :
  live y → threads y !! t = Some th → todo th = A_signal :: l →
  <[t := done_action th]> (threads y) !! u = Some tu → sleeping tu = true →
  live (mk_system (sched y) (<[u := wake tu]> (<[t := done_action th]> (threads y))) (pending y) (left_behind y)).
Proof.
  intros [Hc Hl] Hth Ha Hu Hb. pose proof (done_action_calm y t th A_signal l (pending y) Hc Hth Ha eq_refl) as Hd.
  pose proof Hu as Hlt%lookup_lt_Some. destruct (wake_mono (sched y) tu) as [Har Hbl]. split.
  - apply (calm_update _ (sched y) u tu (wake tu) (pending y) (left_behind y)) in Hd; [done|done| |by rewrite wake_untimed| |by intros; split_and!].
    + rewrite wake_in_wait. cbn [sched]. lia.
    + rewrite wake_task_units. cbn [sched]. lia.
  - cbn [sched left_behind]. intros Hlb Hst Hne. unfold served. cbn [sched threads].
    destruct (Hl Hlb Hst Hne) as [Hx|[(Hs1 & _)|Hx]].
    + left. eapply (Exists_insert_impl (λ z, arriving (sched y) z = true)); [done|done|done|].
      by eapply (Exists_insert_impl (λ z, arriving (sched y) z = true)).
    + left. apply Exists_insert; [done|]. unfold arriving, wake, sleeping in *.
      destruct (base tu); try done. cbn [at_phase base]. by rewrite Hs1.
    + right; right.
      assert (Forall (λ z, blocked (sched y) z = false) (<[t := done_action th]> (threads y))) as Hf
        by (apply Forall_insert; [done|exact (Forall_lookup_1 _ _ _ _ Hx Hth)]).
      apply Forall_insert; [done|]. apply Hbl. exact (Forall_lookup_1 _ _ _ _ Hf Hu).
Qed.

(** No thread is there to take it. *)
Lemma signal_nobody_live y t th l :
  live y → threads y !! t = Some th → todo th = A_signal :: l → Forall (λ tu, sleeping tu = false) (threads y) →
  live (set_thread t (done_action th) (sched y) y).
Proof.
  intros [Hc Hl] Hth Ha Hn. split; [by eapply done_action_calm|].
  cbn [set_thread sched left_behind]. intros Hlb Hst Hne. unfold served. cbn [sched threads set_thread].
  destruct (Hl Hlb Hst Hne) as [Hx|[(Hs1 & _ & Hw)|Hx]].
  - left. by eapply (Exists_insert_impl (λ z, arriving (sched y) z = true)).
  - left. eapply (Exists_insert_impl (λ z, arriving (sched y) z = true)); [done|done|done|].
    apply Exists_exists in Hw as (z & Hz & Hw). apply Exists_exists. exists z. split; [done|].
    rewrite Forall_forall in Hn. specialize (Hn z Hz). unfold in_wait, arriving, sleeping in *.
    destruct (base z); try lia; try done. by rewrite Hs1.
  - right; right. apply Forall_insert; [done|exact (Forall_lookup_1 _ _ _ _ Hx Hth)].
Qed.

(** Operations are pushed and a thread is woken. *)
Lemma push_live y t th ops l :
  calm y → threads y !! t = Some th → todo th = A_push ops :: l →
  live (let '(signal, s) := wake_one_thread_and_unlock wait_usec_ (with_queue (op_queue_ (sched y) ++ ops) (sched y)) in
        set_thread t (if_signal signal (done_action th)) s y).
Proof.
  intros Hy Hth Ha. pose proof Hth as Hlt%lookup_lt_Some.
  set (y0 := set_thread t (done_action th) (with_queue (op_queue_ (sched y) ++ ops) (sched y)) y).
  assert (calm y0) as Hc.
  { apply (calm_update y _ t th); [done|done| |done| |by intros; split_and!].
    - unfold in_wait. cbn [done_action base with_queue wakeup_event_]. lia.
    - unfold task_units. cbn [done_action base todo private_op_queue with_queue op_queue_ task_].
      rewrite Ha, sumZ_cons, tasks_app. cbn [tail action_tasks]. lia. }
  destruct (wake_one_thread_and_unlock _ _) as [b s] eqn:Hw.
  apply (wake_live y0 t (done_action th)) in Hw; [|done|by apply list_lookup_insert_eq].
  unfold y0, set_thread in Hw. cbn [threads pending left_behind] in Hw. by rewrite list_insert_insert_eq in Hw.
Qed.

(** A thread that comes to look at the queue from elsewhere. *)
Lemma arrive_live f y t th th0 s :
  lively f s → calm (set_thread t (at_phase At_lock th0) s y) → threads y !! t = Some th → live (look f t th0 s y).
Proof.
  intros Hf Hc Hth. pose proof Hth as Hlt%lookup_lt_Some.
  pose proof (Hf (set_thread t (at_phase At_lock th0) s y) t (at_phase At_lock th0) eq_refl Hc (list_lookup_insert_eq _ _ _ Hlt) eq_refl) as Hl.
  rewrite look_at_phase in Hl. unfold look, set_thread in *. cbn [sched threads pending left_behind] in *.
  destruct (f s) as [[? ?] ?]. by rewrite list_insert_insert_eq in Hl.
Qed.

(** It holds no more than it did. *)
Lemma calm_at_lock y t th :
  calm y → threads y !! t = Some th → in_wait th = 0 → has_task (base th) = 0 →
  calm (set_thread t (at_phase At_lock th) (sched y) y).
Proof.
  intros Hy Hth Hw Ht. apply (calm_update y _ t th); [done|done| |done| |by intros; split_and!].
  - rewrite Hw. cbn. lia.
  - unfold task_units. rewrite Ht. cbn [at_phase base todo private_op_queue has_task]. lia.
Qed.

(** It was woken. *)
Lemma calm_resume y t th :
  calm y → threads y !! t = Some th → base th = Woken ∨ base th = Timed_woken →
  calm (set_thread t (at_phase At_lock th) (with_event (remove_waiter (wakeup_event_ (sched y))) (sched y)) y).
Proof.
  intros Hy Hth Hb. apply (calm_update y _ t th); [done|done| |done| |by intros; split_and!].
  - unfold in_wait. cbn [at_phase base with_event wakeup_event_ remove_waiter waiters]. destruct Hb as [->| ->]; lia.
  - unfold task_units. cbn [at_phase base todo private_op_queue with_event op_queue_ task_]. destruct Hb as [->| ->]; cbn [has_task]; lia.
Qed.

Lemma resume_wait_live y t th :
  live y → threads y !! t = Some th → base th = Woken → live (resume_wait false task_usec_ wait_usec_ t th y).
Proof.
  intros Hy Hth Hb. unfold resume_wait. cbn [with_event wakeup_event_ remove_waiter signalled]. destruct (_ || _) eqn:Eor.
  - apply (arrive_live _ y t th); [apply do_run_one_lively| |done]. apply calm_resume; [apply Hy|done|by left].
  - apply orb_false_iff in Eor as [E1 E2]. apply (live_thread y _ t th); [done|done| | | | |done| |].
    + split_and!; try done. destruct (wakeup_event_ (sched y)) as [sg w] eqn:Ee.
      unfold add_waiter, remove_waiter. cbn [with_event wakeup_event_ signalled waiters]. f_equal. lia.
    + unfold in_wait. by rewrite Hb.
    + unfold untimed. by rewrite Hb.
    + unfold task_units. by rewrite Hb.
    + unfold arriving. by rewrite Hb, E1, E2.
    + unfold blocked. by rewrite Hb, E1, E2.
Qed.

Lemma resume_timed_live y t th :
  live y → threads y !! t = Some th → base th = Timed_woken → live (resume_timed false task_usec_ wait_usec_ t th y).
Proof.
  intros [Hy _] Hth Hb. apply (arrive_live _ y t th); [by apply wait_front_lively| |done].
  apply calm_resume; [done|done|by right].
Qed.

Lemma requeue_task_live f y t th :
  (∀ s, task_interrupted_ s = true → lively f s) → live y → threads y !! t = Some th →
  match base th with Task_locking | Front_locking _ => True | _ => False end → live (requeue_task f t th y).
Proof.
  intros Hf [Hy _] Hth Hb. assert (in_wait th = 0 ∧ has_task (base th) = 1) as [Hw Ht]
    by (unfold in_wait; by destruct (base th)).
  unfold requeue_task. apply (arrive_live _ y t th); [by apply Hf| |done].
  apply (calm_update y _ t th); [done|done| |done| |by intros; split_and!].
  - rewrite Hw. cbn. lia.
  - unfold task_units. rewrite Ht. cbn [at_phase with_interrupted with_queue op_queue_ task_ base todo private_op_queue has_task].
    rewrite !tasks_app. cbn [tasks]. lia.
Qed.

(** The private operations of a thread behind an operation. *)
Lemma push_private_calm y t th n p l :
  calm y → threads y !! t = Some th → base th = Pushing n → p = Outside ∨ p = At_lock →
  calm (mk_system (with_queue (op_queue_ (sched y) ++ private_op_queue th) (sched y))
          (<[t := mk_thread p (todo th) (private_outstanding_work th) []]> (threads y)) (pending y) l).
Proof.
  intros Hy Hth Hb Hp. apply (calm_update y _ t th); [done|done| | | |].
  - unfold in_wait at 2. rewrite Hb. destruct Hp as [->| ->]; cbn; lia.
  - by destruct Hp as [->| ->].
  - unfold task_units. rewrite Hb. cbn [with_queue op_queue_ task_ base todo private_op_queue].
    rewrite tasks_app. destruct Hp as [->| ->]; cbn [tasks has_task]; lia.
  - intros Hs. split_and!; try done. by destruct Hp as [->| ->].
Qed.

Lemma push_private_live y t th n :
  live y → threads y !! t = Some th → base th = Pushing n → live (push_private false task_usec_ wait_usec_ n t th y).
Proof.
  intros Hy Hth Hb. assert (∀ p, p = Outside ∧ n = N_leave ∨ p = At_lock ∨ p = Poll_lock → private_op_queue th = [] →
    live (set_thread t (mk_thread p (todo th) (private_outstanding_work th) []) (sched y) y)) as Hn.
  { intros p Hp Hq. assert (in_wait th = 0 ∧ untimed th = false) as [Hw Hu] by (unfold in_wait, untimed; by rewrite Hb).
    apply (live_thread y _ t th); [done|done|done| | | |done| |]; rewrite ?Hw, ?Hu; unfold task_units, arriving; rewrite ?Hb, ?Hq;
      by destruct Hp as [[-> ->]|[->| ->]]. }
  pose proof (proj1 Hy) as Hc. unfold push_private. destruct n; [destruct (is_nil _) eqn:En..|].
  - apply Hn; [by right; left|]. by destruct (private_op_queue th).
  - apply (arrive_live _ y t th); [apply do_run_one_lively| |done]. apply (push_private_calm y t th N_run At_lock); auto.
  - apply Hn; [by right; right|]. by destruct (private_op_queue th).
  - apply (arrive_live _ y t th); [apply do_poll_one_lively| |done]. apply (push_private_calm y t th N_poll At_lock); auto.
  - destruct (private_op_queue th) as [|o pq] eqn:Epq; cbn [is_nil negb].
    + rewrite orb_false_r, app_nil_r. destruct (Hn Outside) as [Hcn Hln]; [by left|done|].
      split; [by destruct Hcn; split|done].
    + rewrite orb_true_r, <- Epq. split; [|done]. apply (push_private_calm y t th N_leave Outside); auto.
Qed.

Lemma init_task_live y t th :
  live y → threads y !! t = Some th →
  live (let '(signal, s) := init_task wait_usec_ (sched y) in set_thread t (if_signal signal th) s y).
Proof.
  intros Hy Hth. unfold init_task. destruct (negb (shutdown_ (sched y)) && negb (task_ (sched y))) eqn:E.
  - apply andb_true_iff in E as [_ E%negb_true_iff].
    match goal with |- context [wake_one_thread_and_unlock _ ?s0] => set (s := s0) end.
    assert (calm (mk_system s (threads y) (pending y) (left_behind y))) as Hc.
    { destruct Hy as [[Hw Hn Ht Hs] _]. split; cbn [sched threads s wakeup_event_ op_queue_ task_ stopped_]; try done.
      rewrite tasks_app. rewrite E in Ht. cbn [tasks Z.b2z] in *. lia. }
    destruct (wake_one_thread_and_unlock wait_usec_ s) as [b s'] eqn:Hw.
    by apply (wake_live (mk_system s (threads y) (pending y) (left_behind y)) t th) in Hw.
  - unfold set_thread. rewrite list_insert_id by done. by destruct y.
Qed.

Lemma restart_live y :
  live y → live (mk_system (with_stopped false (sched y)) (threads y) (pending y) (left_behind y)).
Proof.
  intros [Hc Hl]. pose proof Hc as [Hw Hn Ht Hs]. split; [by split|]. cbn [sched left_behind]. intros Hlb _ Hne.
  destruct (stopped_ (sched y)) eqn:Hst; [|by apply Hl]. right; right. by apply Hs.
Qed.

Lemma post_deferred_live y t th ops :
  live y → threads y !! t = Some th → tasks ops = 0 → live (post_deferred false ops t th y).
Proof.
  intros Hy Hth H0. unfold post_deferred. destruct ops as [|o ops]; cbn [is_nil andb].
  - by destruct Hy as [[] ?].
  - by apply (live_then_do y (sched y) t th (A_push (o :: ops))).
Qed.

Lemma complete_descriptor_live y t th n id ops :
  live y → threads y !! t = Some th → base th = Running (Descriptor id) →
  live (complete_descriptor false n ops t th y).
Proof.
  intros Hy Hth Hb. destruct ops as [|o ops]; cbn [complete_descriptor].
  - apply (live_thread y _ t th); [done|done|done| | | |done| |done]; unfold in_wait, untimed, task_units, arriving; by rewrite Hb.
  - apply post_deferred_live; [|by eapply list_lookup_insert_eq, lookup_lt_Some|].
    + apply (live_thread y _ t th); [done|done|done| | | |done| |done];
        unfold in_wait, untimed, task_units, arriving; by rewrite Hb.
    + apply tasks_users. by induction ops.
Qed.

Lemma enter_live p y t th :
  work_inv y → live y → threads y !! t = Some th → base th = Outside →
  match p with At_lock | Poll_lock | Wait_lock _ => True | _ => False end → live (enter p t th y).
Proof.
  intros Hwi Hy Hth Hb Hp. pose proof (work_inv_thread y t th Hwi Hth) as Hok. unfold work_ok in Hok. rewrite Hb in Hok.
  destruct Hok as [_ Hpq]. unfold enter. destruct (_ =? 0); [by apply live_then_do|].
  apply (live_thread y _ t th); [done|done|done| | | |done| |]; unfold in_wait, untimed, task_units, arriving;
    rewrite ?Hb, ?Hpq; by destruct p.
Qed.

Lemma post_immediate_live y t th ops cont :
  live y → threads y !! t = Some th → user_code th = true → forallb user_op ops = true →
  live (post_immediate false ops cont t th y).
Proof.
  intros Hy Hth Hu Hops. unfold post_immediate. apply tasks_users in Hops as Hz. apply user_code_cases in Hu as [_ Hb].
  destruct (_ && _); [|by apply live_then_do].
  apply (live_thread y _ t th); [done|done|done|done|done| |done|done|done].
  unfold task_units. cbn [base todo private_op_queue]. rewrite tasks_app. lia.
Qed.

Lemma task_return_live y t th p ops :
  live y → threads y !! t = Some th → todo th = [] → behind_task (base th) = Some p → forallb not_task ops = true →
  live (mk_system (sched y)
    (<[t := mk_thread p [] (private_outstanding_work th) (private_op_queue th ++ ops)]> (threads y))
    (pending y - units ops) (left_behind y)).
Proof.
  intros Hy Hth Ht Hb Hops. apply tasks_not in Hops as Hz.
  apply (live_thread y _ t th); [done|done|done| | | | | |].
  - unfold in_wait. destruct (base th); try done; by injection Hb as <-.
  - unfold untimed. destruct (base th); try done; by injection Hb as <-.
  - unfold task_units. cbn [base todo private_op_queue]. rewrite tasks_app, Ht.
    assert (has_task p = has_task (base th)) as -> by (destruct (base th); try done; by injection Hb as <-). lia.
  - unfold signals. by rewrite Ht.
  - intros _. unfold arriving. destruct (base th); try done; by injection Hb as <-.
  - intros _. unfold blocked. destruct (base th); try done; by injection Hb as <-.
Qed.

Lemma task_cleanup_live y t th p :
  live y → threads y !! t = Some th → behind_cleanup (base th) = Some p →
  live (let '(s, th) := task_cleanup p th (sched y) in set_thread t th s y).
Proof.
  intros Hy Hth Hb. cbn [task_cleanup]. apply (live_thread y _ t th); [done|done| | | | |done| |].
  - by destruct (0 <? _).
  - unfold in_wait. destruct (base th); try done; by injection Hb as <-.
  - unfold untimed. destruct (base th); try done; by injection Hb as <-.
  - unfold task_units. destruct (base th); try done; by injection Hb as <-.
  - intros _. unfold arriving. destruct (base th); try done; by injection Hb as <-.
  - intros _. unfold blocked. destruct (base th); try done; by injection Hb as <-.
Qed.

Lemma work_cleanup_live y t th n :
  live y → threads y !! t = Some th → base th = Finishing n →
  live (let '(s, th) := work_cleanup n th (sched y) in set_thread t th s y).
Proof.
  intros Hy Hth Hb. unfold work_cleanup.
  assert (∀ w, live (set_thread t (mk_thread (Pushing n) (todo th) 0 (private_op_queue th)) (with_work w (sched y)) y)) as Hl.
  { intros w. apply (live_thread y _ t th); [done|done|done| | | |done| |done]; unfold in_wait, untimed, task_units, arriving;
      rewrite Hb; by destruct n. }
  destruct (1 <? _); [by apply Hl|]. destruct (_ <? 1).
  - unfold work_finished. cbn zeta. specialize (Hl (outstanding_work_ (sched y) - 1)).
    destruct (_ =? 0); [|done].
    apply (live_then_do _ (with_work (outstanding_work_ (sched y) - 1) (sched y)) t
             (mk_thread (Pushing n) (todo th) 0 (private_op_queue th)) A_stop (pending y)) in Hl;
      [|by eapply list_lookup_insert_eq, lookup_lt_Some|done|done].
    cbn [set_thread threads left_behind] in Hl. by rewrite list_insert_insert_eq in Hl.
  - specialize (Hl (outstanding_work_ (sched y))). by destruct (sched y).
Qed.

(** A thread at the mutex. *)
Lemma look_live f y t th :
  lively f (sched y) → live y → threads y !! t = Some th →
  match base th with At_lock | Poll_lock | Wait_lock _ => True | _ => False end → live (look f t th (sched y) y).
Proof.
  intros Hf [Hy _] Hth Hb. apply (arrive_live _ y t th); [done| |done].
  apply calm_at_lock; [done|done| |]; unfold in_wait; by destruct (base th).
Qed.

Lemma live_step y y' : sched_step false task_usec_ wait_usec_ y y' → work_inv y → live y → live y'.
Proof.
  intros Hst Hwi Hy. destruct Hst as
    [y t th Hth Ht Hb|y t th Hth Ht Hb|y t th usec Hth Ht Hb|y t th ops cont Hth Hu Hops|y t th ops Hth Hu Hops Hle
    |y t th id Hth Hu|y|y t th Hth Hu Hp|y t th Hth Hu|y|y t th Hth Hu|y t th ops l Hth Ha|y t th l Hth Ha
    |y t th l u tu Hth Ha Hu Hw|y t th l Hth Ha Hn|y t th Hth Ht Hb|y t th Hth Ht Hb|y t th usec Hth Ht Hb
    |y t th Hth Ht Hb|y t th Hth Ht Hb|y t th Hth Ht Hb|y t th p ops Hth Ht Hb Hops Hle|y t th p Hth Ht Hb
    |y t th Hth Ht Hb|y t th front Hth Ht Hb|y t th n id ops Hth Ht Hb Hle|y t th id n Hth Ht Hb|y t th n Hth Ht Hb
    |y t th n Hth Ht Hb].
  1-3: by apply enter_live.
  - by apply post_immediate_live.
  - apply post_deferred_live; [done|done|by apply tasks_users].
  - by apply live_then_do.
  - by apply live_work.
  - unfold work_finished. cbn zeta. destruct (_ =? 0); [by apply live_then_do|].
    rewrite list_insert_id by done. by apply live_work.
  - by apply live_then_do.
  - by apply restart_live.
  - by apply init_task_live.
  - destruct Hy as [Hy _]. by eapply push_live.
  - destruct Hy as [Hy _]. by eapply stop_live.
  - by eapply signal_live.
  - by eapply signal_nobody_live.
  - apply look_live; [apply do_run_one_lively|done|done|by rewrite Hb].
  - apply look_live; [apply do_poll_one_lively|done|done|by rewrite Hb].
  - apply look_live; [apply do_wait_one_lively|done|done|by rewrite Hb].
  - apply (live_thread y _ t th); [done|done|done|apply wake_in_wait|apply wake_untimed|apply wake_task_units| |apply wake_mono..].
    unfold signals. by rewrite wake_todo.
  - by apply resume_wait_live.
  - by apply resume_timed_live.
  - by apply task_return_live.
  - by apply task_cleanup_live.
  - apply requeue_task_live; [intros s _; apply do_run_one_lively|done|done|by rewrite Hb].
  - apply requeue_task_live; [intros s; apply front_op_lively|done|done|by rewrite Hb].
  - by eapply complete_descriptor_live.
  - apply (live_thread y _ t th); [done|done|done| | | |done| |done]; unfold in_wait, untimed, task_units, arriving; by rewrite Hb.
  - by apply work_cleanup_live.
  - by apply push_private_live.
Qed.

Lemma live_init n : live (init_system n).
Proof.
  split; [|done]. split; cbn [init_system sched threads new_scheduler wakeup_event_ waiters op_queue_ task_ stopped_].
  - by rewrite sumZ_replicate, Z.mul_0_r.
  - intros _. by apply Forall_replicate.
  - rewrite sumZ_replicate. unfold task_units. cbn [base todo private_op_queue has_task tasks]. rewrite sumZ_nil. cbn. lia.
  - done.
Qed.

Lemma reachable_live n y : rtc (sched_step false task_usec_ wait_usec_) (init_system n) y → live y.
Proof.
  intros Hr. pose proof (work_init n) as Hi. pose proof (live_init n) as Hl. revert Hi Hl.
  induction Hr as [|y1 y2 y3 Hs _ IH]; [done|]. intros Hw Hl. eapply IH; [by eapply work_step|by eapply live_step].
Qed.

(** The task is run by one thread at most. *)
Lemma one_in_task y t u th tu :
  calm y → threads y !! t = Some th → threads y !! u = Some tu → in_task th = true → in_task tu = true → t = u.
Proof.
  intros [_ _ Ht _] Hth Htu Hb Hbu. destruct (decide (t = u)) as [|Hne]; [done|].
  assert (∀ z, in_task z = true → has_task (base z) = 1) as Hone by (intros z; unfold in_task; by destruct (base z)).
  pose proof (sumZ_insert task_units _ t th (mk_thread Outside [] 0 []) Hth) as Hs.
  pose proof (sumZ_elem task_units (<[t:=mk_thread Outside [] 0 []]> (threads y)) tu (task_units_nonneg _)) as Hle.
  rewrite Hs in Hle. assert (tu ∈ <[t:=mk_thread Outside [] 0 []]> (threads y)) as Hin
    by (apply (list_elem_of_lookup_2 _ u); by rewrite list_lookup_insert_ne).
  specialize (Hle Hin). pose proof (has_task_le th). pose proof (has_task_le tu).
  pose proof (Hone th Hb). pose proof (Hone tu Hbu).
  assert (task_units (mk_thread Outside [] 0 []) = 0) as Hz0 by done.
  pose proof (tasks_nonneg (op_queue_ (sched y))). destruct (task_ (sched y)); cbn [Z.b2z] in Ht; lia.
Qed.
End wakeups.
