(* ===== verification/SchedulerProperties.v ===== *)
(** What the scheduler of an [io_context] promises: work is counted, so that
    [run] ends when nothing is left and not before, and operations in the
    queue find a thread. *)

From stdpp Require Import relations.
From S2P Require Import Prelude Scheduler SchedulerFacts SchedulerWakeups.

#[local] Open Scope Z_scope.

(** * Runs *)

(** A thread waits for operations and another one posts one. *)
Definition demo_posted : system :=
  let y := init_system 2 in
  let y := mk_system (with_work 1 (sched y)) (threads y) 1 false in
  let y := mk_system (with_event (mk_event true 1) (with_queue [User 7] (with_work 2 (sched y))))
             [mk_thread Waiting [] 0 []; mk_thread Outside [A_signal] 0 []] 1 false in y.

Lemma demo_posted_reachable : rtc (sched_step false (-1) (-1)) (init_system 2) demo_posted.
Proof.
  eapply rtc_l; [apply step_work_started|]. eapply rtc_l; [by eapply (step_run _ _ _ _ 0)|].
  eapply rtc_l; [by eapply (step_lock _ _ _ _ 0)|]. eapply rtc_l; [by eapply (step_post _ _ _ _ 1 _ [User 7] false)|].
  eapply rtc_l; [by eapply (step_push _ _ _ _ 1)|]. apply rtc_refl.
Qed.

(** A thread leaves [run_one] while another one waits: the operation that its
    handler posted as a continuation is put in the queue, and nobody is told. *)
Definition demo_left : system :=
  mk_system (mk_scheduler (mk_event false 1) false true false false 2 [User 2])
    [mk_thread Waiting [] 0 []; mk_thread Outside [] 0 []] 1 true.

Example run_one_tells_nobody :
  rtc (sched_step false (-1) (-1)) (init_system 2) demo_left ∧
  stopped_ (sched demo_left) = false ∧ op_queue_ (sched demo_left) = [User 2] ∧
  signalled (wakeup_event_ (sched demo_left)) = false ∧ blocked (-1) (sched demo_left) (mk_thread Waiting [] 0 []) = true.
Proof.
  split; [|done]. eapply rtc_l; [apply step_work_started|].
  eapply rtc_l; [by eapply (step_post _ _ _ _ 1 _ [User 1] false)|].
  eapply rtc_l; [by eapply (step_push _ _ _ _ 1)|]. eapply rtc_l; [by eapply (step_run _ _ _ _ 1)|].
  eapply rtc_l; [by eapply (step_lock _ _ _ _ 1)|]. eapply rtc_l; [by eapply (step_run _ _ _ _ 0)|].
  eapply rtc_l; [by eapply (step_lock _ _ _ _ 0)|]. eapply rtc_l; [by eapply (step_post _ _ _ _ 1 _ [User 2] true)|].
  eapply rtc_l; [by eapply (step_complete _ _ _ _ 1 _ 1 N_leave)|]. eapply rtc_l; [by eapply (step_cleanup _ _ _ _ 1)|].
  eapply rtc_l; [by eapply (step_push_private _ _ _ _ 1)|]. apply rtc_refl.
Qed.

(** [wait_one] looks at [stopped_] before it waits and not afterwards: it runs
    an operation of a scheduler that was stopped in the meantime. *)
Definition demo_stopped : system :=
  mk_system (mk_scheduler (mk_event true 0) false true true false 2 [])
    [mk_thread (Running (User 7)) [] 0 []; mk_thread Outside [A_signal] 0 []] 1 false.

Example wait_one_runs_when_stopped :
  rtc (sched_step false (-1) (-1)) (init_system 2) demo_stopped ∧ stopped_ (sched demo_stopped) = true.
Proof.
  split; [|done]. eapply rtc_l; [apply step_work_started|]. eapply rtc_l; [by eapply (step_wait_one _ _ _ _ 0 _ 1000)|].
  eapply rtc_l; [by eapply (step_wait_lock _ _ _ _ 0)|]. eapply rtc_l; [by eapply (step_call_stop _ _ _ _ 1)|].
  eapply rtc_l; [by eapply (step_stop _ _ _ _ 1)|]. eapply rtc_l; [by eapply (step_post _ _ _ _ 1 _ [User 7] false)|].
  eapply rtc_l; [by eapply (step_push _ _ _ _ 1)|]. eapply rtc_l; [by eapply (step_timed_woken _ _ _ _ 0)|]. apply rtc_refl.
Qed.

(** * Properties *)

(** C33: in every reachable state of a scheduler and its threads, the count of
    outstanding work is what was started and not queued yet, the operations
    in the queue, and what the threads hold; it is never negative, and when
    it is zero, which is when the scheduler stops, no operation of the user
    is queued, running, or in the hands of a thread. *)
Theorem scheduler_work_counted one_thread_ task_usec_ wait_usec_ n y :
  rtc (sched_step one_thread_ task_usec_ wait_usec_) (init_system n) y →
  outstanding_work_ (sched y) = pending y + units (op_queue_ (sched y)) + sumZ balance (threads y) ∧
  0 ≤ outstanding_work_ (sched y) ∧
  (outstanding_work_ (sched y) = 0 → pending y = 0 ∧ units (op_queue_ (sched y)) = 0 ∧ Forall idle (threads y)).
Proof.
  intros Hw%reachable_work. destruct (no_work_idle y Hw) as [H0 Hi]. split; [apply Hw|]. split; [done|exact Hi].
Qed.

Lemma scheduler_work_counted_witness :
  outstanding_work_ (sched demo_posted) =
    pending demo_posted + units (op_queue_ (sched demo_posted)) + sumZ balance (threads demo_posted).
Proof. exact (proj1 (scheduler_work_counted false (-1) (-1) 2 demo_posted demo_posted_reachable)). Defined.

(** C2: with any number of threads in a scheduler, whatever they call and
    however they are interleaved, the reactor is run by one of them at a time;
    while operations are in the queue of a scheduler that is not stopped, and
    no thread has left them there on its way out, a thread is on its way to
    the queue, or the event is signalled and a thread is about to signal the
    condition variable to one that waits, or no thread is blocked; and no
    thread of a stopped scheduler is blocked. *)
Theorem scheduler_no_lost_wakeup task_usec_ wait_usec_ n y :
  rtc (sched_step false task_usec_ wait_usec_) (init_system n) y →
  (∀ t u th tu, threads y !! t = Some th → threads y !! u = Some tu →
     in_task th = true → in_task tu = true → t = u) ∧
  (left_behind y = false → stopped_ (sched y) = false → op_queue_ (sched y) ≠ [] →
     Exists (λ th, arriving wait_usec_ (sched y) th = true) (threads y) ∨
     (signalled (wakeup_event_ (sched y)) = true ∧ Exists signals (threads y) ∧
      Exists (λ th, 0 < in_wait th) (threads y)) ∨
     Forall (λ th, blocked wait_usec_ (sched y) th = false) (threads y)) ∧
  (stopped_ (sched y) = true → Forall (λ th, blocked wait_usec_ (sched y) th = false) (threads y)).
Proof.
  intros [Hc Hl]%reachable_live. split_and!.
  - intros t u th tu. by apply (one_in_task wait_usec_).
  - exact Hl.
  - exact (c_stopped _ _ Hc).
Qed.

Lemma scheduler_no_lost_wakeup_witness :
  op_queue_ (sched demo_posted) = [User 7] ∧
  (Exists (λ th, arriving (-1) (sched demo_posted) th = true) (threads demo_posted) ∨
   (signalled (wakeup_event_ (sched demo_posted)) = true ∧ Exists signals (threads demo_posted) ∧
    Exists (λ th, 0 < in_wait th) (threads demo_posted)) ∨
   Forall (λ th, blocked (-1) (sched demo_posted) th = false) (threads demo_posted)).
Proof.
  split; [reflexivity|].
  apply (proj1 (proj2 (scheduler_no_lost_wakeup (-1) (-1) 2 demo_posted demo_posted_reachable))); [reflexivity..|].
  discriminate.
Defined.
