(* ===== verification/PrethreadServer.v ===== *)
(** The prethreaded server 20251106-SocketC/src/server/
    prethread_server_user_schedule.c: the main thread accepts connections and
    puts them into a ring of [MAXNCLI] descriptors guarded by a mutex and a
    condition variable; a pool of threads takes them out and serves them.

    Every statement that touches shared data is a step of its own, so that the
    steps of the threads interleave in every way the mutex allows.  The
    condition variable may wake a sleeper for no reason, as POSIX says, which
    also covers a signal that wakes more than one. *)

From stdpp Require Import relations.
From S2P Require Import Prelude JsonLexer.

Definition MAXNCLI : nat := 32.
Definition MAXN : Z := 16384.

(** * Serving one connection *)

(** [atol] on a line, null terminated: white space, a sign, digits.  A value
    that does not fit a [long] is undefined behaviour. *)
Fixpoint skip_isspace (s : cstring) : cstring :=
  match s with
  | c :: s' => if (c =? 32) || in_range 9 13 c then skip_isspace s' else s
  | [] => []
  end.

Definition atol {E} (s : cstring) : outcome E Z :=
  let '(neg, s) := span_sign (skip_isspace s) in
  let '(d, _) := span_digits s in
  let v := if neg then - digits_value 0 d else digits_value 0 d in
  if in_s 64 v then Ret v else Undef.

(** [err_quit("client request for %d bytes", ntowrite)] ends the process. *)
Inductive quit : Type :=
| client_request (ntowrite : Z)
| ring_full
| accept_error.

(** The lines [Readline] delivers until the client closes; the result is the
    number of bytes of each reply. *)
Fixpoint web_child (lines : list cstring) : outcome quit (list Z) :=
  match lines with
  | [] => Ret []
  | line :: lines' =>
      v ← atol line;
      let ntowrite := wrap_s 32 v in
      if (ntowrite <=? 0) || (MAXN <? ntowrite) then Throw (client_request ntowrite)
      else rest ← web_child lines'; Ret (ntowrite :: rest)
  end.

(** Replies are between one byte and the size of the buffer; another request
    ends the whole server. *)
Lemma web_child_replies lines :
  match web_child lines with
  | Ret replies => length replies = length lines ∧ Forall (λ n, 1 ≤ n ≤ MAXN) replies
  | Throw q => ∃ n, q = client_request n ∧ (n ≤ 0 ∨ MAXN < n)
  | _ => True
  end.
Proof.
  induction lines as [|line lines IH]; cbn [web_child]; [by split|].
  destruct (@atol quit line) as [v|q| | |] eqn:Ev; try done; cbn [mbind outcome_bind].
  - case_if; [eexists; split; [done|]; to_prop; destruct_or!; to_prop; lia|]. to_prop.
    destruct (web_child lines); try done. cbn [mbind outcome_bind length].
    destruct IH as [-> IH]. split; [done|]. constructor; [lia|done].
  - unfold atol in Ev. destruct (span_sign _) as [neg s]. destruct (span_digits s) as [d r].
    by destruct (in_s _ _).
Qed.

(** * State *)

(** Where the main thread is in its loop; [M_lock connfd] is about to lock. *)
Inductive main_pc : Type :=
| M_accept
| M_lock (connfd : Z)
| M_store (connfd : Z)
| M_advance
| M_check
| M_signal
| M_unlock.

(** Where a pool thread is.  [T_wait] sleeps on the condition variable,
    [T_wake] has been woken and waits for the mutex. *)
Inductive thread_pc : Type :=
| T_lock
| T_test
| T_wait
| T_wake
| T_take
| T_advance (connfd : Z)
| T_unlock (connfd : Z)
| T_count (connfd : Z)
| T_serve (connfd : Z)
| T_close (connfd : Z).

Inductive who : Type :=
| main_thread
| pool_thread (i : nat).

(** What happened, in order. *)
Inductive event : Type :=
| Accepted (connfd : Z)
| Took (i : nat) (connfd : Z)
| Closed (i : nat) (connfd : Z).

Record server : Type := mk_server {
  clifd : list Z;
  iget : nat;
  iput : nat;
  clifd_mutex : option who;
  main : main_pc;
  pool : list thread_pc;
  thread_count : list Z;
  log : list event
}.

#[export] Instance main_pc_eq_dec : EqDecision main_pc.
Proof. solve_decision. Defined.
#[export] Instance thread_pc_eq_dec : EqDecision thread_pc.
Proof. solve_decision. Defined.
#[export] Instance who_eq_dec : EqDecision who.
Proof. solve_decision. Defined.

(** [main] up to its loop, with [nthreads] threads made. *)
Definition start (nthreads : nat) : server :=
  mk_server (repeat 0 MAXNCLI) 0 0 None M_accept (repeat T_lock nthreads)
    (repeat 0 nthreads) [].

(** [if (++i == MAXNCLI) i = 0]. *)
Definition advance (i : nat) : nat := if (S i =? MAXNCLI)%nat then 0%nat else S i.

Definition set_main (s : server) (m : option who) (pc : main_pc) : server :=
  mk_server (clifd s) (iget s) (iput s) m pc (pool s) (thread_count s) (log s).

Definition set_pool (s : server) (m : option who) (i : nat) (pc : thread_pc) : server :=
  mk_server (clifd s) (iget s) (iput s) m (main s) (<[i := pc]> (pool s)) (thread_count s) (log s).

(** * Steps *)

(** A process goes on, or has ended. *)
Inductive process : Type :=
| Running (s : server)
| Exited (q : quit) (s : server).

Inductive main_step (s : server) : process → Prop :=
| main_accept connfd : main s = M_accept → 0 ≤ connfd →
    main_step s (Running (mk_server (clifd s) (iget s) (iput s) (clifd_mutex s) (M_lock connfd)
      (pool s) (thread_count s) (log s ++ [Accepted connfd])))
| main_accept_error : main s = M_accept → main_step s (Exited accept_error s)
| main_lock connfd : main s = M_lock connfd → clifd_mutex s = None →
    main_step s (Running (set_main s (Some main_thread) (M_store connfd)))
| main_store connfd : main s = M_store connfd →
    main_step s (Running (mk_server (<[iput s := connfd]> (clifd s)) (iget s) (iput s)
      (clifd_mutex s) M_advance (pool s) (thread_count s) (log s)))
| main_advance : main s = M_advance →
    main_step s (Running (mk_server (clifd s) (iget s) (advance (iput s)) (clifd_mutex s) M_check
      (pool s) (thread_count s) (log s)))
| main_full : main s = M_check → iput s = iget s → main_step s (Exited ring_full s)
| main_check : main s = M_check → iput s ≠ iget s →
    main_step s (Running (set_main s (clifd_mutex s) M_signal))
| main_signal_none : main s = M_signal → T_wait ∉ pool s →
    main_step s (Running (set_main s (clifd_mutex s) M_unlock))
| main_signal i : main s = M_signal → pool s !! i = Some T_wait →
    main_step s (Running (set_main (set_pool s (clifd_mutex s) i T_wake) (clifd_mutex s) M_unlock))
| main_unlock : main s = M_unlock →
    main_step s (Running (set_main s None M_accept)).

Inductive pool_step (i : nat) (s : server) : process → Prop :=
| pool_lock pc : pool s !! i = Some pc → pc = T_lock ∨ pc = T_wake → clifd_mutex s = None →
    pool_step i s (Running (set_pool s (Some (pool_thread i)) i T_test))
| pool_sleep : pool s !! i = Some T_test → iget s = iput s →
    pool_step i s (Running (set_pool s None i T_wait))
| pool_test : pool s !! i = Some T_test → iget s ≠ iput s →
    pool_step i s (Running (set_pool s (clifd_mutex s) i T_take))
| pool_take connfd : pool s !! i = Some T_take → clifd s !! iget s = Some connfd →
    pool_step i s (Running (set_pool s (clifd_mutex s) i (T_advance connfd)))
| pool_advance connfd : pool s !! i = Some (T_advance connfd) →
    pool_step i s (Running (mk_server (clifd s) (advance (iget s)) (iput s) (clifd_mutex s) (main s)
      (<[i := T_unlock connfd]> (pool s)) (thread_count s) (log s ++ [Took i connfd])))
| pool_unlock connfd : pool s !! i = Some (T_unlock connfd) →
    pool_step i s (Running (set_pool s None i (T_count connfd)))
| pool_count connfd : pool s !! i = Some (T_count connfd) →
    pool_step i s (Running (mk_server (clifd s) (iget s) (iput s) (clifd_mutex s) (main s)
      (<[i := T_serve connfd]> (pool s))
      (<[i := default 0 (thread_count s !! i) + 1]> (thread_count s)) (log s)))
| pool_serve connfd lines replies : pool s !! i = Some (T_serve connfd) →
    web_child lines = Ret replies →
    pool_step i s (Running (set_pool s (clifd_mutex s) i (T_close connfd)))
| pool_quit connfd lines q : pool s !! i = Some (T_serve connfd) →
    web_child lines = Throw q → pool_step i s (Exited q s)
| pool_close connfd : pool s !! i = Some (T_close connfd) →
    pool_step i s (Running (mk_server (clifd s) (iget s) (iput s) (clifd_mutex s) (main s)
      (<[i := T_lock]> (pool s)) (thread_count s) (log s ++ [Closed i connfd]))).

(** A sleeper wakes up without a signal. *)
Inductive spurious_step (s : server) : process → Prop :=
| spurious i : pool s !! i = Some T_wait →
    spurious_step s (Running (set_pool s (clifd_mutex s) i T_wake)).

Inductive step : process → process → Prop :=
| step_main s p : main_step s p → step (Running s) p
| step_pool i s p : pool_step i s p → step (Running s) p
| step_spurious s p : spurious_step s p → step (Running s) p.

Definition reachable (nthreads : nat) (p : process) : Prop :=
  rtc step (Running (start nthreads)) p.

(** * What the log says *)

Definition accepted (l : list event) : list Z :=
  omap (λ e, match e with Accepted fd => Some fd | _ => None end) l.

Definition taken (l : list event) : list Z :=
  omap (λ e, match e with Took _ fd => Some fd | _ => None end) l.

Definition taken_by (i : nat) (l : list event) : list Z :=
  omap (λ e, match e with Took j fd => if (i =? j)%nat then Some fd else None | _ => None end) l.

Definition closed_by (i : nat) (l : list event) : list Z :=
  omap (λ e, match e with Closed j fd => if (i =? j)%nat then Some fd else None | _ => None end) l.

Definition server_of (p : process) : server :=
  match p with Running s | Exited _ s => s end.

(** * Mutual exclusion *)

Definition main_holds (pc : main_pc) : bool :=
  match pc with M_accept | M_lock _ => false | _ => true end.

Definition pool_holds (pc : thread_pc) : bool :=
  match pc with T_test | T_take | T_advance _ | T_unlock _ => true | _ => false end.

(** The thread is at a statement between lock and unlock. *)
Definition holds (s : server) (w : who) : bool :=
  match w with
  | main_thread => main_holds (main s)
  | pool_thread i => match pool s !! i with Some pc => pool_holds pc | None => false end
  end.

Definition exclusive (s : server) : Prop :=
  ∀ w, clifd_mutex s = Some w ↔ holds s w = true.

(** A step of the main thread or of one pool thread changes only its own
    program counter. *)
Lemma lookup_pool_insert (l : list thread_pc) i j pc pc0 :
  l !! i = Some pc0 → <[i := pc]> l !! j = if decide (i = j) then Some pc else l !! j.
Proof.
  intros Hi. apply lookup_lt_Some in Hi. destruct (decide (i = j)) as [->|Hne].
  - by rewrite list_lookup_insert_eq.
  - by rewrite list_lookup_insert_ne.
Qed.

Lemma exclusive_start n : exclusive (start n).
Proof.
  intros [|i]; cbn; [done|]. destruct (repeat T_lock n !! i) as [pc|] eqn:E; [|done].
  apply list_elem_of_lookup_2, list_elem_of_In, repeat_spec in E as ->. done.
Qed.

(** Splits the lookup in an updated pool. *)
Ltac pool_cases :=
  match goal with
  | Hi : ?l !! ?i = Some _ |- context [<[?i := ?pc]> ?l !! ?j] =>
      let Hij := fresh "Hij" in
      rewrite !(lookup_pool_insert l i j pc _ Hi); destruct (decide (i = j)) as [Hij|Hij];
      [first [subst j|clear Hij]|first [by destruct (Hij eq_refl)|idtac]]
  end.

(** A thread [w] goes on inside or outside its critical section, enters it, or
    leaves it. *)
Lemma exclusive_change w s s' :
  (∀ w', w' ≠ w → holds s' w' = holds s w') →
  (clifd_mutex s' = clifd_mutex s ∧ holds s' w = holds s w) ∨
  (clifd_mutex s = None ∧ clifd_mutex s' = Some w ∧ holds s' w = true) ∨
  (holds s w = true ∧ clifd_mutex s' = None ∧ holds s' w = false) →
  exclusive s → exclusive s'.
Proof.
  intros Ho Hc Hx w'. destruct (decide (w' = w)) as [->|Hne].
  - specialize (Hx w). destruct Hc as [[-> ->]|[(Hn & -> & ->)|(Hh & -> & ->)]]; done.
  - rewrite Ho by done. pose proof (Hx w) as Hw. specialize (Hx w').
    destruct Hc as [[-> _]|[(Hn & -> & _)|(Hh & -> & _)]]; [done|..].
    + rewrite Hn in Hx. split; [congruence|]. by intros Hh%Hx.
    + apply Hw in Hh. rewrite Hh in Hx. split; [done|]. intros Hh'%Hx. congruence.
Qed.

Lemma exclusive_main s p : main_step s p → exclusive s → exclusive (server_of p).
Proof.
  inversion 1; subst; cbn [server_of]; try done; apply (exclusive_change main_thread);
    try (intros [|j] Hne; [by destruct Hne|]; cbn; try done; (pool_cases; [by rewrite H1|done])); cbn;
    match goal with E : main s = _ |- _ => rewrite E end; cbn; auto.
Qed.

Lemma exclusive_pool i s p : pool_step i s p → exclusive s → exclusive (server_of p).
Proof.
  inversion 1; subst; cbn [server_of]; try done; apply (exclusive_change (pool_thread i));
    try (intros [|j] Hne; cbn; [done|]; (pool_cases; [by destruct Hne|done])); cbn; pool_cases; try done;
    match goal with E : pool s !! i = Some _ |- _ => rewrite E end; cbn; auto.
Qed.

Lemma exclusive_spurious s p : spurious_step s p → exclusive s → exclusive (server_of p).
Proof.
  inversion 1; subst; cbn [server_of]. apply (exclusive_change main_thread); [|by left].
  intros [|j]; cbn; [done|]. intros _. pool_cases; [|done]. by rewrite H0.
Qed.

(** An invariant holds in every reachable state. *)
Lemma pool_inv (I : server → Prop) n :
  I (start n) →
  (∀ s p, exclusive s → I s → main_step s p → I (server_of p)) →
  (∀ i s p, exclusive s → I s → pool_step i s p → I (server_of p)) →
  (∀ s p, exclusive s → I s → spurious_step s p → I (server_of p)) →
  ∀ p, reachable n p → exclusive (server_of p) ∧ I (server_of p).
Proof.
  intros H0 Hm Hp Hs p Hr. unfold reachable in Hr. remember (Running (start n)) as p0 eqn:E0.
  assert (exclusive (server_of p0) ∧ I (server_of p0)) as Hi.
  { subst p0. split; [apply exclusive_start|done]. }
  clear E0. induction Hr as [p|p p' p'' Hst _ IH]; [done|]. apply IH. clear IH.
  destruct Hi as [Hx Hi]. inversion Hst; subst; cbn [server_of] in *;
    eauto using exclusive_main, exclusive_pool, exclusive_spurious.
Qed.

Lemma holds_alone s w w' : exclusive s → holds s w = true → holds s w' = true → w = w'.
Proof. intros Hx Hw%Hx Hw'%Hx. congruence. Qed.

(** * The ring *)

Lemma advance_mod i : (i < MAXNCLI)%nat → advance i = ((i + 1) mod MAXNCLI)%nat.
Proof.
  intros Hi. unfold advance. destruct (Nat.eqb_spec (S i) MAXNCLI) as [E|E].
  - rewrite Nat.add_1_r, E. done.
  - rewrite Nat.mod_small; [lia|]. lia.
Qed.

Lemma mod_lt i : (i mod MAXNCLI < MAXNCLI)%nat.
Proof. by apply Nat.mod_upper_bound. Qed.

(** Two slots of the ring at most one round apart are different. *)
Lemma slot_ne g j k :
  (j < k)%nat → (k < MAXNCLI)%nat → ((g + j) mod MAXNCLI ≠ (g + k) mod MAXNCLI)%nat.
Proof.
  intros Hj Hk E. unfold MAXNCLI in *.
  pose proof (Nat.div_mod_eq (g + j) 32). pose proof (Nat.div_mod_eq (g + k) 32). lia.
Qed.

(** The connection the main thread has accepted and not yet entered. *)
Definition in_hand (s : server) : list Z :=
  match main s with
  | M_lock fd | M_store fd => [fd]
  | M_advance => match clifd s !! iput s with Some fd => [fd] | None => [] end
  | _ => []
  end.

(** [q] lies in the ring between [iget] and [iput]. *)
Record ring (s : server) (q : list Z) : Prop := mk_ring {
  ring_length : length (clifd s) = MAXNCLI;
  ring_get : (iget s < MAXNCLI)%nat;
  ring_put : iput s = ((iget s + length q) mod MAXNCLI)%nat;
  ring_slots j fd : q !! j = Some fd → clifd s !! ((iget s + j) mod MAXNCLI)%nat = Some fd;
  ring_size : (length q < MAXNCLI)%nat ∨ (main s = M_check ∧ length q = MAXNCLI)
}.

(** Every accepted connection is either taken, in the ring, or in the main
    thread's hand, in the order of acceptance. *)
Record fifo (s : server) : Prop := mk_fifo {
  fifo_queue : ∃ q, ring s q ∧ accepted (log s) = taken (log s) ++ q ++ in_hand s ∧
    (main s = M_check → q ≠ []);
  fifo_take i : pool s !! i = Some T_take → iget s ≠ iput s;
  fifo_advance i fd : pool s !! i = Some (T_advance fd) →
    iget s ≠ iput s ∧ clifd s !! iget s = Some fd
}.

Lemma accepted_app l l' : accepted (l ++ l') = accepted l ++ accepted l'.
Proof. apply omap_app. Qed.
Lemma taken_app l l' : taken (l ++ l') = taken l ++ taken l'.
Proof. apply omap_app. Qed.

Lemma fifo_start n : fifo (start n).
Proof.
  assert (∀ i pc, pool (start n) !! i = Some pc → pc = T_lock) as Hp.
  { intros i pc E. apply list_elem_of_lookup_2, list_elem_of_In, repeat_spec in E. done. }
  split; [|intros i E%Hp; done|intros i fd E%Hp; done].
  exists []. split; [|done]. split; cbn [start clifd iget iput main length]; unfold MAXNCLI; try done; lia.
Qed.

(** While the main thread is in its critical section no pool thread is. *)
Lemma main_alone s :
  exclusive s → main_holds (main s) = true →
  ∀ i pc, pool s !! i = Some pc → pool_holds pc = false.
Proof.
  intros Hx Hm i pc Hi. destruct (pool_holds pc) eqn:E; [|done].
  assert (main_thread = pool_thread i) as [=]. apply (holds_alone s); [done|done|].
  cbn. by rewrite Hi.
Qed.

(** And while a pool thread is, the others and the main thread are not. *)
Lemma pool_alone s i pc :
  exclusive s → pool s !! i = Some pc → pool_holds pc = true →
  main_holds (main s) = false ∧
  ∀ j pc', pool s !! j = Some pc' → pool_holds pc' = true → j = i.
Proof.
  intros Hx Hi Hp. assert (holds s (pool_thread i) = true) as Hh by (cbn; by rewrite Hi).
  split.
  - destruct (main_holds (main s)) eqn:E; [|done].
    by assert (main_thread = pool_thread i) as [=] by (by apply (holds_alone s)).
  - intros j pc' Hj Hp'. assert (pool_thread j = pool_thread i) as [=]; [|done].
    apply (holds_alone s); [done| |done]. cbn. by rewrite Hj.
Qed.

(** The ring is empty exactly when the indices meet, but for the moment of the
    main thread's own test. *)
Lemma ring_empty s q : ring s q → main s ≠ M_check → (iget s = iput s ↔ q = []).
Proof.
  intros [Hl Hg Hp Hs Hz] Hm. destruct Hz as [Hz|[? _]]; [|done]. split.
  - intros E. destruct q as [|x q]; [done|]. exfalso. rewrite Hp in E.
    apply (slot_ne (iget s) 0 (length (x :: q))); [simpl; lia|done|].
    rewrite Nat.add_0_r, Nat.mod_small by done. done.
  - intros ->. rewrite Hp. cbn [length]. by rewrite Nat.add_0_r, Nat.mod_small.
Qed.

Lemma ring_full_size s q :
  ring s q → iput s = iget s → q ≠ [] → length q = MAXNCLI.
Proof.
  intros [Hl Hg Hp Hs Hz] E Hne. destruct Hz as [Hz|[_ Hz]]; [|done]. exfalso.
  apply (slot_ne (iget s) 0 (length q)); [destruct q; [done|simpl; lia]|done|].
  rewrite <- Hp, E, Nat.add_0_r, Nat.mod_small by done. done.
Qed.

Lemma ring_change s s' q :
  ring s q → clifd s' = clifd s → iget s' = iget s → iput s' = iput s →
  (length q < MAXNCLI)%nat ∨ main s' = main s → ring s' q.
Proof.
  intros [Hl Hg Hp Hs Hz] E1 E2 E3 Hm. split; rewrite ?E1, ?E2, ?E3; try done.
  destruct Hm as [Hm|Em]; [by left|by rewrite Em].
Qed.

Lemma ring_small s q : ring s q → main s ≠ M_check → (length q < MAXNCLI)%nat.
Proof. intros Hr Hm. by destruct (ring_size s q Hr) as [|[? _]]. Qed.

(** A step of a pool thread that leaves the ring and the main thread alone. *)
Lemma fifo_pool_change i pc pc' s s' :
  fifo s → pool s !! i = Some pc → pool s' = <[i := pc']> (pool s) →
  clifd s' = clifd s → iget s' = iget s → iput s' = iput s → main s' = main s →
  accepted (log s') = accepted (log s) → taken (log s') = taken (log s) →
  (pc' = T_take → iget s ≠ iput s) →
  (∀ fd, pc' = T_advance fd → iget s ≠ iput s ∧ clifd s !! iget s = Some fd) →
  fifo s'.
Proof.
  intros [(q & Hr & Ha & Hc) Ht Hadv] Hi Hp E1 E2 E3 E4 E5 E6 Hpt Hpa. split.
  - exists q. split; [by apply (ring_change s); auto|]. unfold in_hand.
    by rewrite E4, E5, E6, E1, E3.
  - intros j. rewrite Hp, E2, E3. pool_cases; [by intros [= ->]; auto|apply Ht].
  - intros j fd. rewrite Hp, E1, E2, E3. pool_cases; [by intros [= ->]; auto|apply Hadv].
Qed.

(** A step of the main thread that keeps the ring and its hand. *)
Lemma fifo_main_change s s' :
  fifo s → exclusive s → clifd s' = clifd s → iget s' = iget s → iput s' = iput s →
  (∀ i pc, pool s' !! i = Some pc → pool_holds pc = true → pool s !! i = Some pc) →
  (∀ q, ring s q → accepted (log s) = taken (log s) ++ q ++ in_hand s →
     accepted (log s') = taken (log s') ++ q ++ in_hand s' ∧ (length q < MAXNCLI)%nat) →
  main s' ≠ M_check → fifo s'.
Proof.
  intros [(q & Hr & Ha & Hc) Ht Hadv] Hx E1 E2 E3 Hp Hh Hm. split.
  - exists q. destruct (Hh q Hr Ha) as [Ha' Hl]. split; [|done]. by apply (ring_change s); auto.
  - intros i Hi%Hp; [|done]. rewrite E2, E3. by eapply Ht.
  - intros i fd Hi%Hp; [|done]. rewrite E1, E2, E3. by eapply Hadv.
Qed.

Lemma in_hand_eq s pc : main s = pc →
  in_hand s = match pc with
  | M_lock fd | M_store fd => [fd]
  | M_advance => match clifd s !! iput s with Some fd => [fd] | None => [] end
  | _ => []
  end.
Proof. by intros <-. Qed.

Lemma fifo_store s fd :
  exclusive s → fifo s → main s = M_store fd →
  fifo (mk_server (<[iput s := fd]> (clifd s)) (iget s) (iput s) (clifd_mutex s) M_advance
    (pool s) (thread_count s) (log s)).
Proof.
  intros Hx [(q & Hr & Ha & Hc) Ht Hadv] Hm.
  pose proof (main_alone s Hx) as Hal. rewrite Hm in Hal. specialize (Hal eq_refl).
  assert (length q < MAXNCLI)%nat as Hq by (apply (ring_small s q Hr); congruence).
  destruct Hr as [Hl Hg Hp Hs Hz].
  assert (iput s < length (clifd s))%nat as Hput by (rewrite Hl, Hp; apply mod_lt).
  split; [|intros i Hi; by apply Hal in Hi|intros i f Hi; by apply Hal in Hi].
  exists q. split; [split; cbn [clifd iget iput main]; try done|].
  - by rewrite length_insert.
  - intros j f Hj. rewrite list_lookup_insert_ne; [by apply Hs|]. rewrite Hp.
    apply not_eq_sym, slot_ne; [by apply lookup_lt_Some in Hj|done].
  - by left.
  - split; [|done]. unfold in_hand; cbn [main clifd iput log]. rewrite list_lookup_insert_eq by done.
    by rewrite Ha, (in_hand_eq s _ Hm).
Qed.

Lemma fifo_main_advance s :
  exclusive s → fifo s → main s = M_advance →
  fifo (mk_server (clifd s) (iget s) (advance (iput s)) (clifd_mutex s) M_check
    (pool s) (thread_count s) (log s)).
Proof.
  intros Hx [(q & Hr & Ha & Hc) Ht Hadv] Hm.
  pose proof (main_alone s Hx) as Hal. rewrite Hm in Hal. specialize (Hal eq_refl).
  assert (length q < MAXNCLI)%nat as Hq by (apply (ring_small s q Hr); congruence).
  destruct Hr as [Hl Hg Hp Hs Hz].
  assert (iput s < MAXNCLI)%nat as Hput by (rewrite Hp; apply mod_lt).
  destruct (lookup_lt_is_Some_2 (clifd s) (iput s)) as [fd Hfd]; [lia|].
  rewrite (in_hand_eq s _ Hm), Hfd in Ha.
  split; [|intros i Hi; by apply Hal in Hi|intros i f Hi; by apply Hal in Hi].
  exists (q ++ [fd]). split; [split; cbn [clifd iget iput main]; try done|].
  - by rewrite length_app, advance_mod, Hp, Nat.Div0.add_mod_idemp_l, Nat.add_assoc.
  - intros j f [Hj|[Hj [Hj0 <-]%list_lookup_singleton_Some]]%lookup_app_Some; [by apply Hs|].
    replace j with (length q) by lia. by rewrite <- Hp.
  - rewrite length_app. cbn [length]. unfold MAXNCLI in *.
    destruct (decide (length q + 1 = 32)%nat); [by right|left; lia].
  - split; [|intros _ E; by apply app_eq_nil in E as [_ [=]]].
    unfold in_hand; cbn [main log]. by rewrite Ha, app_nil_r.
Qed.

Lemma fifo_main s p : exclusive s → fifo s → main_step s p → fifo (server_of p).
Proof.
  intros Hx Hf Hs. inversion Hs; subst; cbn [server_of]; try done;
    try (by apply fifo_store); try (by apply fifo_main_advance);
    apply (fifo_main_change s); try done; cbn [main pool set_main set_pool]; try done.
  - intros q Hr Ha. split; [|by apply (ring_small s q Hr); congruence].
    cbn [log]. rewrite accepted_app, taken_app, Ha, (in_hand_eq s _ H).
    change (accepted [Accepted connfd]) with [connfd]. change (taken [Accepted connfd]) with (@nil Z).
    by rewrite !app_nil_r, app_assoc.
  - intros q Hr Ha. split; [|by apply (ring_small s q Hr); congruence].
    by cbn [log set_main set_pool]; rewrite Ha, (in_hand_eq s _ H).
  - intros q Hr Ha. split; [by cbn [log set_main set_pool]; rewrite Ha, (in_hand_eq s _ H)|].
    destruct (ring_size s q Hr) as [|[_ Hz]]; [done|]. destruct H0. rewrite (ring_put s q Hr), Hz.
    rewrite <- (Nat.mul_1_l MAXNCLI) at 1. rewrite Nat.Div0.mod_add, Nat.mod_small; [done|].
    apply (ring_get s q Hr).
  - intros q Hr Ha. split; [|by apply (ring_small s q Hr); congruence].
    by cbn [log set_main set_pool]; rewrite Ha, (in_hand_eq s _ H).
  - intros j pc. pool_cases; [by intros [= <-]|done].
  - intros q Hr Ha. split; [|by apply (ring_small s q Hr); congruence].
    by cbn [log set_main set_pool]; rewrite Ha, (in_hand_eq s _ H).
  - intros q Hr Ha. split; [|by apply (ring_small s q Hr); congruence].
    by cbn [log set_main set_pool]; rewrite Ha, (in_hand_eq s _ H).
Qed.

Lemma fifo_pool_advance i s fd :
  exclusive s → fifo s → pool s !! i = Some (T_advance fd) →
  fifo (mk_server (clifd s) (advance (iget s)) (iput s) (clifd_mutex s) (main s)
    (<[i := T_unlock fd]> (pool s)) (thread_count s) (log s ++ [Took i fd])).
Proof.
  intros Hx [(q & Hr & Ha & Hc) Ht Hadv] Hi.
  destruct (pool_alone s i _ Hx Hi eq_refl) as [Hm Hal].
  destruct (Hadv i fd Hi) as [Hne Hfd].
  assert (main s ≠ M_check) as Hck by (intros E; by rewrite E in Hm).
  pose proof (ring_small s q Hr Hck) as Hq.
  destruct q as [|x q]; [by destruct Hne; apply (ring_empty s [] Hr Hck)|].
  destruct Hr as [Hl Hg Hp Hs Hz].
  assert (x = fd) as ->.
  { pose proof (Hs 0%nat x eq_refl) as E. rewrite Nat.add_0_r, Nat.mod_small in E by done. congruence. }
  assert (∀ j, (advance (iget s) + j) mod MAXNCLI = (iget s + S j) mod MAXNCLI)%nat as Hsh.
  { intros j. rewrite advance_mod, Nat.Div0.add_mod_idemp_l by done. f_equal. lia. }
  split.
  - exists q. split; [split; cbn [clifd iget iput main]; try done|].
    + rewrite advance_mod by done. apply mod_lt.
    + by rewrite Hp, Hsh.
    + intros j f Hj. rewrite Hsh. by apply Hs.
    + left. cbn [length] in Hq. lia.
    + split; [|done]. cbn [log]. rewrite accepted_app, taken_app, Ha.
      change (accepted [Took i fd]) with (@nil Z). change (taken [Took i fd]) with [fd].
      rewrite app_nil_r, <- app_assoc. done.
  - intros j. cbn [pool]. pool_cases; [done|]. intros Hj. by apply Hal in Hj; [|done].
  - intros j f. cbn [pool]. pool_cases; [done|]. intros Hj. by apply Hal in Hj; [|done].
Qed.

Lemma fifo_pool i s p : exclusive s → fifo s → pool_step i s p → fifo (server_of p).
Proof.
  intros Hx Hf Hs. inversion Hs; subst; cbn [server_of]; try done;
    try (by apply fifo_pool_advance);
    (eapply (fifo_pool_change i); [done|done|reflexivity|done|done|done|done| | |..]);
    cbn [log set_pool]; try done; rewrite ?accepted_app, ?taken_app; cbn; rewrite ?app_nil_r; try done.
  intros fd [= <-]. split; [|done]. destruct Hf as [_ Ht _]. by eapply Ht.
Qed.

Lemma fifo_spurious s p : exclusive s → fifo s → spurious_step s p → fifo (server_of p).
Proof.
  intros Hx Hf Hs. inversion Hs; subst; cbn [server_of].
  by eapply (fifo_pool_change i).
Qed.

Lemma reachable_fifo n p : reachable n p → exclusive (server_of p) ∧ fifo (server_of p).
Proof.
  apply pool_inv; [apply fifo_start|intros; by eapply fifo_main|
    intros; by eapply fifo_pool|intros; by eapply fifo_spurious].
Qed.

(** * What each pool thread has done *)

(** The connection a thread has taken and not yet closed, and whether it has
    still to count it. *)
Definition serving (pc : thread_pc) : list Z :=
  match pc with T_unlock fd | T_count fd | T_serve fd | T_close fd => [fd] | _ => [] end.

Definition uncounted (pc : thread_pc) : Z :=
  match pc with T_unlock _ | T_count _ => 1 | _ => 0 end.

Record served (s : server) : Prop := mk_served {
  served_length : length (thread_count s) = length (pool s);
  served_history i pc : pool s !! i = Some pc →
    taken_by i (log s) = closed_by i (log s) ++ serving pc;
  served_count i pc c : pool s !! i = Some pc → thread_count s !! i = Some c →
    c = Z.of_nat (length (taken_by i (log s))) - uncounted pc
}.

Lemma taken_by_app i l l' : taken_by i (l ++ l') = taken_by i l ++ taken_by i l'.
Proof. apply omap_app. Qed.
Lemma closed_by_app i l l' : closed_by i (l ++ l') = closed_by i l ++ closed_by i l'.
Proof. apply omap_app. Qed.

Lemma served_start n : served (start n).
Proof.
  assert (∀ i pc, pool (start n) !! i = Some pc → pc = T_lock) as Hp.
  { intros i pc E. apply list_elem_of_lookup_2, list_elem_of_In, repeat_spec in E. done. }
  split; [cbn; by rewrite !repeat_length|by intros i pc ->%Hp|].
  intros i pc c ->%Hp Hc. cbn in Hc. by apply list_elem_of_lookup_2, list_elem_of_In, repeat_spec in Hc.
Qed.

(** A step of the thread [i]. *)
Lemma served_change i pc pc' s s' :
  served s → pool s !! i = Some pc → pool s' = <[i := pc']> (pool s) →
  length (thread_count s') = length (thread_count s) →
  (∀ j, j ≠ i → taken_by j (log s') = taken_by j (log s) ∧
     closed_by j (log s') = closed_by j (log s) ∧ thread_count s' !! j = thread_count s !! j) →
  taken_by i (log s') = closed_by i (log s') ++ serving pc' →
  (∀ c, thread_count s' !! i = Some c →
     c = Z.of_nat (length (taken_by i (log s'))) - uncounted pc') →
  served s'.
Proof.
  intros [Hl Hh Hc] Hi Hp Hlen Ho Ht Hct. split.
  - by rewrite Hp, length_insert, Hlen.
  - intros j pcj. rewrite Hp. pool_cases; [by intros [= <-]|].
    destruct (Ho j) as (-> & -> & _); [done|apply Hh].
  - intros j pcj c. rewrite Hp. pool_cases; [by intros [= <-]; apply Hct|].
    destruct (Ho j) as (-> & _ & ->); [done|apply Hc].
Qed.

(** A step that keeps the log, the count and what the thread serves. *)
Lemma served_quiet i pc pc' s m :
  served s → pool s !! i = Some pc → serving pc' = serving pc → uncounted pc' = uncounted pc →
  served (set_pool s m i pc').
Proof.
  intros Hsv Hi Es Eu. apply (served_change i pc pc' s); try done.
  - rewrite Es. by apply (served_history s Hsv).
  - rewrite Eu. intros c. by apply (served_count s Hsv i pc).
Qed.

Lemma served_main s p : exclusive s → served s → main_step s p → served (server_of p).
Proof.
  intros Hx Hsv Hs. pose proof Hsv as [Hl Hh Hc].
  inversion Hs; subst; cbn [server_of]; try done.
  - split; cbn [pool thread_count log]; [done|..]; intros j pc; rewrite taken_by_app, ?closed_by_app;
      cbn; rewrite !app_nil_r; [apply Hh|apply Hc].
  - by destruct (served_quiet i T_wait T_wake s (clifd_mutex s) Hsv H0 eq_refl eq_refl).
Qed.

Lemma other_took i j fd : j ≠ i →
  taken_by j [Took i fd] = [] ∧ closed_by j [Took i fd] = [] ∧
  taken_by j [Closed i fd] = [] ∧ closed_by j [Closed i fd] = [].
Proof.
  intros Hne. unfold taken_by, closed_by. cbn.
  destruct (Nat.eqb_spec j i) as [|_]; [done|]. done.
Qed.

Lemma own_took i fd :
  taken_by i [Took i fd] = [fd] ∧ closed_by i [Took i fd] = [] ∧
  taken_by i [Closed i fd] = [] ∧ closed_by i [Closed i fd] = [fd].
Proof. unfold taken_by, closed_by. cbn. by rewrite Nat.eqb_refl. Qed.

Lemma served_pool i s p : exclusive s → served s → pool_step i s p → served (server_of p).
Proof.
  intros Hx Hsv Hs. pose proof Hsv as [Hl Hh Hc].
  inversion Hs; subst; cbn [server_of]; try done;
    try (by eapply served_quiet); try (destruct_or! H0; subst; by eapply served_quiet).
  - destruct (own_took i connfd) as (Et & Ec & _ & _). pose proof (Hh _ _ H) as Hi.
    eapply (served_change i); [done|done|reflexivity|done|..]; cbn [log thread_count].
    + intros j Hj. destruct (other_took i j connfd Hj) as (Ej & Ej' & _ & _).
      by rewrite taken_by_app, closed_by_app, Ej, Ej', !app_nil_r.
    + rewrite taken_by_app, closed_by_app, Et, Ec, Hi. cbn [serving]. by rewrite !app_nil_r.
    + intros c Hcc. rewrite (Hc _ _ _ H Hcc), taken_by_app, Et, length_app. cbn. lia.
  - eapply (served_change i); [done|done|reflexivity|..]; cbn [log thread_count].
    + by rewrite length_insert.
    + intros j Hj. by rewrite list_lookup_insert_ne.
    + by rewrite (Hh _ _ H).
    + intros c. assert (i < length (thread_count s))%nat as Hlt.
      { rewrite Hl. by eapply lookup_lt_Some. }
      rewrite list_lookup_insert_eq by done. intros [= <-].
      destruct (lookup_lt_is_Some_2 _ _ Hlt) as [c0 Hc0]. rewrite Hc0. cbn [default uncounted].
      rewrite (Hc _ _ _ H Hc0). cbn. lia.
  - destruct (own_took i connfd) as (_ & _ & Et & Ec). pose proof (Hh _ _ H) as Hi.
    eapply (served_change i); [done|done|reflexivity|done|..]; cbn [log thread_count].
    + intros j Hj. destruct (other_took i j connfd Hj) as (_ & _ & Ej & Ej').
      by rewrite taken_by_app, closed_by_app, Ej, Ej', !app_nil_r.
    + rewrite taken_by_app, closed_by_app, Et, Ec, Hi. cbn [serving]. by rewrite !app_nil_r.
    + intros c Hcc. rewrite (Hc _ _ _ H Hcc), taken_by_app, Et, length_app. cbn. lia.
Qed.

Lemma served_spurious s p : exclusive s → served s → spurious_step s p → served (server_of p).
Proof. intros Hx Hsv Hs. inversion Hs; subst. by eapply served_quiet. Qed.

Lemma reachable_served n p : reachable n p → served (server_of p).
Proof.
  intros Hr. apply (pool_inv served n); [apply served_start|intros; by eapply served_main|
    intros; by eapply served_pool|intros; by eapply served_spurious|done].
Qed.

(** * No lost wake-up *)

(** The thread will look at the ring, and take a connection from it if there
    is one, before it sleeps. *)
Definition on_way (pc : thread_pc) : bool :=
  match pc with T_lock | T_test | T_wake | T_take | T_advance _ => true | _ => false end.

Definition on_ways (l : list thread_pc) : nat := length (filter (λ pc, on_way pc = true) l).

(** The main thread has entered a connection and not yet signalled it. *)
Definition unsignalled (pc : main_pc) : nat := match pc with M_check | M_signal => 1 | _ => 0 end.

(** While a thread sleeps, every connection in the ring has a thread that is
    on its way, but for the one the main thread is about to signal. *)
Definition enough (s : server) : Prop :=
  T_wait ∈ pool s →
  (length (accepted (log s)) ≤
   length (taken (log s)) + length (in_hand s) + on_ways (pool s) + unsignalled (main s))%nat.

Lemma on_ways_insert l i pc pc' :
  l !! i = Some pc →
  (on_ways (<[i := pc']> l) + Nat.b2n (on_way pc) = on_ways l + Nat.b2n (on_way pc'))%nat.
Proof.
  unfold on_ways. revert i. induction l as [|x l IH]; intros [|i]; cbn [lookup list_lookup]; [done..| |].
  - intros [= ->]. cbn [insert list_insert]. rewrite !filter_cons.
    destruct (on_way pc), (on_way pc'); repeat case_decide; try done; cbn; lia.
  - intros Hi. change (<[S i := pc']> (x :: l)) with (x :: <[i := pc']> l). rewrite !filter_cons.
    destruct (decide (on_way x = true)); cbn [length]; specialize (IH i Hi); lia.
Qed.

Lemma still_waits (l : list thread_pc) i pc pc' :
  l !! i = Some pc → pc' ≠ T_wait → T_wait ∈ <[i := pc']> l → T_wait ∈ l.
Proof.
  intros Hi Hne [j Hj]%list_elem_of_lookup_1. revert Hj. pool_cases; [by intros [= ->]|].
  apply list_elem_of_lookup_2.
Qed.

Lemma in_hand_advance s : fifo s → main s = M_advance → length (in_hand s) = 1%nat.
Proof.
  intros [(q & Hr & _) _ _] Hm. rewrite (in_hand_eq s _ Hm).
  destruct (lookup_lt_is_Some_2 (clifd s) (iput s)) as [fd ->]; [|done].
  rewrite (ring_length s q Hr), (ring_put s q Hr). apply mod_lt.
Qed.

Lemma enough_main s p : exclusive s → fifo s → enough s → main_step s p → enough (server_of p).
Proof.
  intros Hx Hf He Hs. pose proof (fifo_main s p Hx Hf Hs) as Hf'.
  inversion Hs; subst; cbn [server_of] in *; try done; intros Hw; unfold enough, in_hand in *;
    cbn [pool main log set_main set_pool unsignalled] in *;
    repeat match goal with E : main s = _ |- _ => rewrite E in * end; cbn [unsignalled length] in *.
  - specialize (He Hw). rewrite accepted_app, taken_app, !length_app. cbn. lia.
  - by apply He.
  - specialize (He Hw). pose proof (in_hand_advance _ Hf' eq_refl) as Hl. unfold in_hand in Hl.
    cbn [main clifd iput] in *. lia.
  - pose proof (in_hand_advance s Hf ltac:(done)) as Hl. rewrite (in_hand_eq s _ ltac:(done)) in Hl.
    specialize (He Hw). cbn [clifd iput] in *. lia.
  - by apply He.
  - done.
  - pose proof (on_ways_insert (pool s) i T_wait T_wake ltac:(done)) as Ho. cbn in Ho.
    assert (T_wait ∈ pool s) as Hw0 by (by eapply list_elem_of_lookup_2).
    specialize (He Hw0). lia.
  - by apply He.
Qed.

(** A step of a pool thread that keeps the log or records one event. *)
Lemma enough_change i pc pc' s s' :
  enough s → pool s !! i = Some pc → pool s' = <[i := pc']> (pool s) → pc' ≠ T_wait →
  main s' = main s → in_hand s' = in_hand s → accepted (log s') = accepted (log s) →
  (length (taken (log s)) + Nat.b2n (on_way pc) ≤ length (taken (log s')) + Nat.b2n (on_way pc'))%nat →
  enough s'.
Proof.
  intros He Hi Hp Hne Hm Hh Ha Ht Hw. rewrite Hp in *. specialize (He (still_waits _ _ _ _ Hi Hne Hw)).
  pose proof (on_ways_insert (pool s) i pc pc' Hi). rewrite Hm, Hh, Ha. lia.
Qed.

Lemma enough_pool i s p : exclusive s → fifo s → enough s → pool_step i s p → enough (server_of p).
Proof.
  intros Hx Hf He Hs. inversion Hs; subst; cbn [server_of]; try done;
    try (eapply (enough_change i); [done|done|reflexivity|done|reflexivity|reflexivity|..];
         cbn [log set_pool]; rewrite ?accepted_app, ?taken_app, ?length_app; cbn; rewrite ?app_nil_r;
         first [done|lia|destruct_or! H0; subst; cbn; lia]).
  intros _. destruct (pool_alone s i _ Hx ltac:(done) eq_refl) as [Hm _].
  assert (main s ≠ M_check) as Hck by (intros E; by rewrite E in Hm).
  destruct Hf as [(q & Hr & Ha & _) _ _]. rewrite (proj1 (ring_empty s q Hr Hck) ltac:(done)) in Ha.
  unfold in_hand in *. cbn [log main clifd iput set_pool] in *. rewrite Ha, length_app. cbn [app]. lia.
Qed.

Lemma enough_spurious s p : exclusive s → fifo s → enough s → spurious_step s p → enough (server_of p).
Proof.
  intros Hx Hf He Hs. inversion Hs; subst; cbn [server_of].
  eapply (enough_change i T_wait T_wake); [done|done|reflexivity|done|reflexivity|reflexivity|done|].
  cbn [log set_pool on_way Nat.b2n]. lia.
Qed.

Lemma enough_start n : enough (start n).
Proof. intros _. cbn. lia. Qed.

Lemma reachable_enough n p : reachable n p → exclusive (server_of p) ∧ fifo (server_of p) ∧ enough (server_of p).
Proof.
  apply (pool_inv (λ s, fifo s ∧ enough s)); [split; [apply fifo_start|apply enough_start]|..].
  - intros s p' Hx [Hf He] Hs. split; [by eapply fifo_main|by eapply enough_main].
  - intros i s p' Hx [Hf He] Hs. split; [by eapply fifo_pool|by eapply enough_pool].
  - intros s p' Hx [Hf He] Hs. split; [by eapply fifo_spurious|by eapply enough_spurious].
Qed.

(** Nobody holds the mutex. *)
Lemma mutex_free s :
  exclusive s → clifd_mutex s = None →
  main_holds (main s) = false ∧ ∀ i pc, pool s !! i = Some pc → pool_holds pc = false.
Proof.
  intros Hx Hm. split.
  - destruct (main_holds (main s)) eqn:E; [|done]. by rewrite (proj2 (Hx main_thread) E) in Hm.
  - intros i pc Hi. destruct (pool_holds pc) eqn:E; [|done].
    assert (holds s (pool_thread i) = true) as Hh by (cbn; by rewrite Hi).
    by rewrite (proj2 (Hx (pool_thread i)) Hh) in Hm.
Qed.

(** Steps of one pool thread. *)
Definition pool_alone_step (i : nat) (p p' : process) : Prop := ∃ s, p = Running s ∧ pool_step i s p'.

(** A thread that is on its way when the mutex is free takes the first
    connection in four steps of its own. *)
Lemma takes_first s i pc fd q :
  exclusive s → clifd_mutex s = None → ring s (fd :: q) → pool s !! i = Some pc → on_way pc = true →
  ∃ s', rtc (pool_alone_step i) (Running s) (Running s') ∧ log s' = log s ++ [Took i fd].
Proof.
  intros Hx Hm Hr Hi Hw. destruct (mutex_free s Hx Hm) as [Hmain Hpool]. specialize (Hpool i pc Hi).
  assert (main s ≠ M_check) as Hck by (intros E; by rewrite E in Hmain).
  assert (iget s ≠ iput s) as Hne by (by rewrite (ring_empty s _ Hr Hck)).
  assert (clifd s !! iget s = Some fd) as Hfd.
  { pose proof (ring_slots s _ Hr 0 fd eq_refl) as E. by rewrite Nat.add_0_r, Nat.mod_small in E by apply (ring_get s _ Hr). }
  assert (∀ l pc', i < length l → <[i := pc']> l !! i = Some (pc' : thread_pc))%nat as Hat
    by (intros; by apply list_lookup_insert_eq).
  apply lookup_lt_Some in Hi as Hlt. eexists. split.
  - eapply rtc_l; [eexists; split; [done|]; eapply pool_lock; [done|by destruct pc; auto|done]|].
    eapply rtc_l; [eexists; split; [done|]; apply pool_test; [by apply Hat|done]|].
    eapply rtc_l; [eexists; split; [done|]; eapply pool_take; [apply Hat; cbn [pool set_pool]; by rewrite !length_insert|done]|].
    apply rtc_once. eexists. split; [done|]. apply pool_advance. apply Hat. cbn [pool set_pool]. by rewrite !length_insert.
  - done.
Qed.
