(* ===== verification/ThreadClient.v ===== *)
(** The threaded web client 20251106-SocketC/src/client/thread-client.c: the
    main thread starts a thread per file, up to a number of connections, and
    waits on a condition variable for threads that have finished, which it
    then joins; a thread fetches its file, marks it done and counts it in
    [ndone].

    A file gets at most one thread, so that a thread is named by the index of
    its file.  Statements that touch shared data are steps of their own. *)

From stdpp Require Import relations.
From S2P Require Import Prelude.

Definition MAXFILES : nat := 20.
Definition MAXLINE : Z := 4096.

Definition F_CONNECTING : Z := 1.
Definition F_READING : Z := 2.
Definition F_DONE : Z := 4.

(** * The request *)

(** [GET_CMD] with the name of the file. *)
Definition get_cmd (f_name : cstring) : cstring :=
  str "GET " ++ f_name ++ str " HTTP/1.0" ++ [13; 10; 13; 10].

(** [n = snprintf(line, sizeof(line), GET_CMD, f_name); Writen(fd, line, n)]:
    the buffer holds at most [MAXLINE - 1] characters and a zero, while [n] is
    the length the text would have had. *)
Definition write_get_cmd (f_name : cstring) : outcome unit cstring :=
  let text := get_cmd f_name in
  let n := Z.of_nat (length text) in
  let line := take (Z.to_nat (MAXLINE - 1)) text ++ [0] in
  if n <=? MAXLINE then Ret (take (length text) line) else Undef.

(** * State *)

Inductive main_pc : Type :=
| C_outer
| C_inner
| C_lock
| C_test
| C_wait
| C_wake
| C_scan (i : nat)
| C_unlock.

Inductive thread_pc : Type :=
| W_none
| W_connect
| W_request
| W_read
| W_flag
| W_lock
| W_count
| W_signal
| W_unlock
| W_terminated
| W_joined.

Inductive who : Type :=
| main_thread
| file_thread (i : nat).

(** [rounds] counts how often the main thread has finished its scan. *)
Record client : Type := mk_client {
  f_flags : list Z;
  threads : list thread_pc;
  maxnconn : Z;
  nconn : Z;
  nlefttoconn : Z;
  nlefttoread : Z;
  ndone : Z;
  ndone_mutex : option who;
  main : main_pc;
  rounds : nat
}.

#[export] Instance thread_pc_eq_dec : EqDecision thread_pc.
Proof. solve_decision. Defined.

(** [main] before its loop, for [argc - 4] files. *)
Definition start (nargs : nat) (maxnconn : Z) : client :=
  let nfiles := Nat.min nargs MAXFILES in
  mk_client (repeat 0 nfiles) (repeat W_none nfiles) maxnconn 0 (Z.of_nat nfiles)
    (Z.of_nat nfiles) 0 None C_outer 0.

(** [for (i = 0; i < nfiles; i++) if (file[i].f_flags == 0) break]. *)
Fixpoint first_unstarted (l : list Z) : option nat :=
  match l with
  | [] => None
  | f :: l' => if f =? 0 then Some 0%nat else S <$> first_unstarted l'
  end.

Definition is_done (f : Z) : bool := negb (Z.land f F_DONE =? 0).

Definition set_main (c : client) (m : option who) (pc : main_pc) : client :=
  mk_client (f_flags c) (threads c) (maxnconn c) (nconn c) (nlefttoconn c) (nlefttoread c)
    (ndone c) m pc (rounds c).

Definition set_thread (c : client) (m : option who) (i : nat) (pc : thread_pc) : client :=
  mk_client (f_flags c) (<[i := pc]> (threads c)) (maxnconn c) (nconn c) (nlefttoconn c)
    (nlefttoread c) (ndone c) m (main c) (rounds c).

(** Thread [i] sets its file's flag. *)
Definition set_flag (c : client) (i : nat) (f : Z) (pc : thread_pc) : client :=
  mk_client (<[i := f]> (f_flags c)) (<[i := pc]> (threads c)) (maxnconn c) (nconn c)
    (nlefttoconn c) (nlefttoread c) (ndone c) (ndone_mutex c) (main c) (rounds c).

(** * Steps *)

Inductive process : Type :=
| Running (c : client)
| Exit_success
| Exit_error
| Undefined.

Inductive main_step (c : client) : process → Prop :=
| main_more : main c = C_outer → 0 < nlefttoread c →
    main_step c (Running (set_main c (ndone_mutex c) C_inner))
| main_exit : main c = C_outer → nlefttoread c ≤ 0 → main_step c Exit_success
| main_create i : main c = C_inner → nconn c < maxnconn c → 0 < nlefttoconn c →
    first_unstarted (f_flags c) = Some i →
    main_step c (Running (mk_client (<[i := F_CONNECTING]> (f_flags c))
      (<[i := W_connect]> (threads c)) (maxnconn c) (nconn c + 1) (nlefttoconn c - 1)
      (nlefttoread c) (ndone c) (ndone_mutex c) C_inner (rounds c)))
| main_create_error : main c = C_inner → nconn c < maxnconn c → 0 < nlefttoconn c →
    main_step c Exit_error
| main_nothing : main c = C_inner → nconn c < maxnconn c → 0 < nlefttoconn c →
    first_unstarted (f_flags c) = None → main_step c Exit_error
| main_started : main c = C_inner → maxnconn c ≤ nconn c ∨ nlefttoconn c ≤ 0 →
    main_step c (Running (set_main c (ndone_mutex c) C_lock))
| main_lock pc : main c = pc → pc = C_lock ∨ pc = C_wake → ndone_mutex c = None →
    main_step c (Running (set_main c (Some main_thread) C_test))
| main_sleep : main c = C_test → ndone c = 0 →
    main_step c (Running (set_main c None C_wait))
| main_awake : main c = C_test → ndone c ≠ 0 →
    main_step c (Running (set_main c (ndone_mutex c) (C_scan 0)))
| main_spurious : main c = C_wait →
    main_step c (Running (set_main c (ndone_mutex c) C_wake))
| main_skip i f : main c = C_scan i → f_flags c !! i = Some f → is_done f = false →
    main_step c (Running (set_main c (ndone_mutex c) (C_scan (S i))))
| main_join i f : main c = C_scan i → f_flags c !! i = Some f → is_done f = true →
    threads c !! i = Some W_terminated →
    main_step c (Running (set_main (set_thread c (ndone_mutex c) i W_joined) (ndone_mutex c)
      (C_scan (S i))))
| main_join_again i f : main c = C_scan i → f_flags c !! i = Some f → is_done f = true →
    threads c !! i = Some W_joined → main_step c Undefined
| main_scanned i : main c = C_scan i → f_flags c !! i = None →
    main_step c (Running (set_main c (ndone_mutex c) C_unlock))
| main_unlock : main c = C_unlock →
    main_step c (Running (mk_client (f_flags c) (threads c) (maxnconn c) (nconn c)
      (nlefttoconn c) (nlefttoread c) (ndone c) None C_outer (S (rounds c)))).

(** [do_get_read] of the file [i]; [Tcp_connect], [Read] and [Writen] end the
    process when they fail. *)
Inductive thread_step (i : nat) (c : client) : process → Prop :=
| thread_connect : threads c !! i = Some W_connect →
    thread_step i c (Running (set_thread c (ndone_mutex c) i W_request))
| thread_error pc : threads c !! i = Some pc → pc = W_connect ∨ pc = W_request ∨ pc = W_read →
    thread_step i c Exit_error
| thread_request : threads c !! i = Some W_request →
    thread_step i c (Running (set_flag c i F_READING W_read))
| thread_read : threads c !! i = Some W_read → thread_step i c (Running c)
| thread_eof : threads c !! i = Some W_read →
    thread_step i c (Running (set_thread c (ndone_mutex c) i W_flag))
| thread_flag : threads c !! i = Some W_flag →
    thread_step i c (Running (set_flag c i F_DONE W_lock))
| thread_lock : threads c !! i = Some W_lock → ndone_mutex c = None →
    thread_step i c (Running (set_thread c (Some (file_thread i)) i W_count))
| thread_count : threads c !! i = Some W_count →
    thread_step i c (Running (mk_client (f_flags c) (<[i := W_signal]> (threads c)) (maxnconn c)
      (nconn c) (nlefttoconn c) (nlefttoread c) (ndone c + 1) (ndone_mutex c) (main c) (rounds c)))
| thread_signal : threads c !! i = Some W_signal →
    thread_step i c (Running (set_main (set_thread c (ndone_mutex c) i W_unlock) (ndone_mutex c)
      (match main c with C_wait => C_wake | pc => pc end)))
| thread_unlock : threads c !! i = Some W_unlock →
    thread_step i c (Running (set_thread c None i W_terminated)).

Inductive step : process → process → Prop :=
| step_main c p : main_step c p → step (Running c) p
| step_thread i c p : thread_step i c p → step (Running c) p.

Definition reachable (nargs : nat) (maxnconn : Z) (p : process) : Prop :=
  rtc step (Running (start nargs maxnconn)) p.

(** * Invariants *)

(** From the flag on, a thread's file is marked done for good. *)
Definition flagged (pc : thread_pc) : bool :=
  match pc with
  | W_lock | W_count | W_signal | W_unlock | W_terminated | W_joined => true
  | _ => false
  end.

Definition joined (c : client) (i : nat) : Prop := threads c !! i = Some W_joined.

Definition file_done (c : client) (i : nat) : Prop :=
  ∃ pc, threads c !! i = Some pc ∧ flagged pc = true.

(** Where a scan has got to. *)
Definition scanning (c : client) : Prop :=
  match main c with
  | C_scan k => ∃ i, file_done c i ∧ (k ≤ i ∨ joined c i)%nat
  | C_unlock => ∃ i, joined c i
  | _ => True
  end.

(** After the first round a joined thread is met again in the next scan. *)
Definition second_round (c : client) : Prop :=
  rounds c = 0%nat ∨
  (rounds c = 1%nat ∧ ∃ j, joined c j ∧
     match main c with C_scan k => (k ≤ j)%nat | C_unlock => False | _ => True end).

Definition started (c : client) : nat := length (filter (λ pc, pc ≠ W_none) (threads c)).

(** The counters: every file is still to be read, and the connections made so
    far are within the limit. *)
Record counters (nfiles : nat) (m : Z) (c : client) : Prop := mk_counters {
  count_left : nlefttoread c = Z.of_nat nfiles;
  count_flags : length (f_flags c) = nfiles;
  count_threads : length (threads c) = nfiles;
  count_max : maxnconn c = m;
  count_started : Z.of_nat (started c) = nconn c;
  count_limit : nconn c ≤ Z.max 0 m;
  count_unstarted i : f_flags c !! i = Some 0 → threads c !! i = Some W_none
}.

(** How far the threads and the main thread's scan have got. *)
Record progress (c : client) : Prop := mk_progress {
  prog_length : length (f_flags c) = length (threads c);
  prog_flags i f pc : f_flags c !! i = Some f → threads c !! i = Some pc → is_done f = flagged pc;
  prog_ndone : ndone c ≠ 0 → ∃ i, file_done c i;
  prog_scanning : scanning c;
  prog_second : second_round c
}.

Definition holds_in (I : client → Prop) (p : process) : Prop :=
  match p with Running c => I c | _ => True end.

Lemma client_inv (I : client → Prop) nargs m :
  I (start nargs m) →
  (∀ c p, I c → main_step c p → holds_in I p) →
  (∀ i c p, I c → thread_step i c p → holds_in I p) →
  ∀ p, reachable nargs m p → holds_in I p.
Proof.
  intros H0 Hm Ht p Hr. unfold reachable in Hr. remember (Running (start nargs m)) as p0 eqn:E0.
  assert (holds_in I p0) as Hi by (by subst p0). clear E0.
  induction Hr as [p|p p' p'' Hst _ IH]; [done|]. apply IH. clear IH.
  inversion Hst; subst; cbn in Hi; eauto.
Qed.

Lemma lookup_update {A} (l : list A) i j x x0 :
  l !! i = Some x0 → <[i := x]> l !! j = if decide (i = j) then Some x else l !! j.
Proof.
  intros Hi. apply lookup_lt_Some in Hi. destruct (decide (i = j)) as [->|Hne].
  - by rewrite list_lookup_insert_eq.
  - by rewrite list_lookup_insert_ne.
Qed.

(** * Counters *)

Lemma started_update (l : list thread_pc) i pc pc' :
  l !! i = Some pc → pc' ≠ W_none →
  length (filter (λ pc, pc ≠ W_none) (<[i := pc']> l)) =
  (length (filter (λ pc, pc ≠ W_none) l) + if decide (pc = W_none) then 1 else 0)%nat.
Proof.
  intros Hi Hn. rewrite (insert_take_drop l i pc') by (by eapply lookup_lt_Some).
  rewrite <- (take_drop_middle l i pc Hi) at 3.
  rewrite !filter_app, !filter_cons, !length_app.
  rewrite decide_True by done. cbn [length].
  destruct (decide (pc = W_none)) as [->|Hp].
  - rewrite decide_False by (by intros Hc; destruct Hc). lia.
  - rewrite decide_True by done. cbn [length]. lia.
Qed.

Lemma first_unstarted_zero l i : first_unstarted l = Some i → l !! i = Some 0.
Proof.
  revert i. induction l as [|f l IH]; intros i; cbn [first_unstarted]; [done|].
  destruct (Z.eqb_spec f 0) as [->|]; [by intros [= <-]|].
  destruct (first_unstarted l) as [j|]; [|done]. intros [= <-]. by apply IH.
Qed.

Lemma counters_start nargs m : counters (Nat.min nargs MAXFILES) m (start nargs m).
Proof.
  split; cbn [start nlefttoread f_flags threads maxnconn nconn]; try done;
    rewrite ?repeat_length; try done.
  - unfold started. cbn [start threads]. induction (Nat.min nargs MAXFILES) as [|n IH]; [done|].
    cbn [repeat]. rewrite filter_cons, decide_False; [done|]. by intros Hc; destruct Hc.
  - lia.
  - intros i Hi. apply lookup_lt_Some in Hi as Hl. rewrite repeat_length in Hl.
    destruct (lookup_lt_is_Some_2 (repeat W_none (Nat.min nargs MAXFILES)) i) as [pc Hpc];
      [by rewrite repeat_length|]. rewrite Hpc.
    by apply list_elem_of_lookup_2, list_elem_of_In, repeat_spec in Hpc as ->.
Qed.

(** A thread that has been started goes on. *)
Lemma counters_thread n m c i pc pc' mu mn nd r fl :
  counters n m c → threads c !! i = Some pc → pc ≠ W_none → pc' ≠ W_none →
  (fl = f_flags c ∨ ∃ f, f ≠ 0 ∧ fl = <[i := f]> (f_flags c)) →
  counters n m (mk_client fl (<[i := pc']> (threads c)) (maxnconn c) (nconn c)
    (nlefttoconn c) (nlefttoread c) nd mu mn r).
Proof.
  intros [Hle Hf Ht Hm Hs Hli Hu] Hi Hp Hp' Hfl.
  split; cbn [nlefttoread f_flags threads maxnconn nconn]; try done.
  - by destruct Hfl as [->|(f & _ & ->)]; rewrite ?length_insert.
  - by rewrite length_insert.
  - unfold started. cbn [threads]. rewrite (started_update _ _ _ _ Hi Hp'), decide_False by done.
    rewrite Nat.add_0_r. exact Hs.
  - intros j Hj. rewrite (lookup_update _ _ _ _ _ Hi). destruct (decide (i = j)) as [<-|Hne].
    + destruct Hfl as [->|(f & Hf0 & ->)].
      * by apply Hu in Hj; rewrite Hi in Hj; injection Hj.
      * rewrite list_lookup_insert_eq in Hj by (rewrite Hf, <- Ht; by eapply lookup_lt_Some).
        by injection Hj.
    + apply Hu. by destruct Hfl as [->|(f & _ & ->)]; [|rewrite list_lookup_insert_ne in Hj].
Qed.

Lemma counters_thread_step n m i c p :
  counters n m c → thread_step i c p → holds_in (counters n m) p.
Proof.
  intros Hc Hs. inversion Hs; subst; cbn [holds_in]; try done; unfold set_main, set_thread, set_flag;
    cbn [f_flags threads maxnconn nconn nlefttoconn nlefttoread ndone ndone_mutex rounds];
    (eapply counters_thread; [done|done|done|done|]); auto; right; eexists; (split; [|reflexivity]); done.
Qed.

Lemma counters_main_step n m c p :
  counters n m c → main_step c p → holds_in (counters n m) p.
Proof.
  intros Hc Hs. pose proof Hc as [Hle Hf Ht Hm Hst Hli Hu].
  inversion Hs; subst; cbn [holds_in]; try done; unfold set_main, set_thread;
    cbn [f_flags threads maxnconn nconn nlefttoconn nlefttoread ndone ndone_mutex rounds];
    try (by eapply (counters_thread _ _ _ i W_terminated); auto).
  pose proof (first_unstarted_zero _ _ H2) as Hz. pose proof (Hu i Hz) as Hn.
  split; cbn [nlefttoread f_flags threads maxnconn nconn]; try done; rewrite ?length_insert; try done.
  - unfold started. cbn [threads]. rewrite (started_update _ _ _ _ Hn), decide_True by done.
    unfold started in Hst. lia.
  - lia.
  - intros j Hj. assert (i ≠ j) as Hne.
    { intros <-. rewrite list_lookup_insert_eq in Hj by (by eapply lookup_lt_Some). done. }
    rewrite list_lookup_insert_ne in Hj by done. rewrite list_lookup_insert_ne by done. by apply Hu.
Qed.

Lemma reachable_counters nargs m p :
  reachable nargs m p → holds_in (counters (Nat.min nargs MAXFILES) m) p.
Proof.
  apply client_inv; [apply counters_start|intros; by eapply counters_main_step|
    intros; by eapply counters_thread_step].
Qed.

(** * Rounds *)

Lemma joined_done c i : joined c i → file_done c i.
Proof. intros Hj. by exists W_joined. Qed.

Lemma progress_start nargs m : progress (start nargs m).
Proof.
  split; cbn [start f_flags threads ndone]; rewrite ?repeat_length; try done; [|by left].
  intros i f pc Hf Hp. apply list_elem_of_lookup_2, list_elem_of_In, repeat_spec in Hf, Hp.
  by subst.
Qed.

(** Threads only move forwards: what is done stays done, what is joined stays
    joined. *)
Lemma file_done_mono c c' i pc pc' j :
  threads c !! i = Some pc → threads c' = <[i := pc']> (threads c) →
  (flagged pc = true → flagged pc' = true) → file_done c j → file_done c' j.
Proof.
  intros Hi E Hf (pcj & Hj & Hfj). unfold file_done. rewrite E, (lookup_update _ _ _ _ _ Hi).
  destruct (decide (i = j)) as [<-|]; [|eauto].
  exists pc'. split; [done|]. apply Hf. congruence.
Qed.

Lemma joined_mono c c' i pc pc' j :
  threads c !! i = Some pc → threads c' = <[i := pc']> (threads c) →
  pc ≠ W_joined → joined c j → joined c' j.
Proof.
  intros Hi E Hn Hj. unfold joined in *. rewrite E, (lookup_update _ _ _ _ _ Hi).
  destruct (decide (i = j)) as [<-|]; [congruence|done].
Qed.

(** A step of thread [i]; the main thread may be woken. *)
Lemma progress_thread i pc pc' c c' :
  progress c → threads c !! i = Some pc → threads c' = <[i := pc']> (threads c) →
  (flagged pc = true → flagged pc' = true) → pc ≠ W_joined →
  length (f_flags c') = length (f_flags c) →
  (∀ f, f_flags c' !! i = Some f → is_done f = flagged pc') →
  (∀ j, j ≠ i → f_flags c' !! j = f_flags c !! j) →
  (ndone c' ≠ 0 → ndone c ≠ 0 ∨ flagged pc' = true) →
  (main c' = main c ∨ (main c = C_wait ∧ main c' = C_wake)) → rounds c' = rounds c →
  progress c'.
Proof.
  intros [Hl Hf Hnd Hsc Hse] Hi Ep Hfl Hnj Elen Hfi Hfj Hn Hm Hr.
  pose proof (λ j, file_done_mono c c' i pc pc' j Hi Ep Hfl) as Hd.
  pose proof (λ j, joined_mono c c' i pc pc' j Hi Ep Hnj) as Hj.
  split.
  - by rewrite Elen, Ep, length_insert.
  - intros j f pcj. rewrite Ep, (lookup_update _ _ _ _ _ Hi).
    destruct (decide (i = j)) as [<-|]; [by intros Hff [= <-]; apply Hfi|].
    rewrite Hfj by done. apply Hf.
  - intros [Hn'|Hn']%Hn.
    + destruct (Hnd Hn') as [k Hk]. eauto.
    + exists i, pc'. rewrite Ep, (lookup_update _ _ _ _ _ Hi), decide_True by done. done.
  - unfold scanning in *. destruct Hm as [->|[_ ->]]; [|done].
    destruct (main c); try done; naive_solver.
  - unfold second_round in *. rewrite Hr. destruct Hse as [|(Hr1 & j & Hjj & Hmj)]; [by left|right].
    split; [done|]. exists j. split; [auto|]. by destruct Hm as [->|[_ ->]].
Qed.

Lemma progress_thread_step i c p : progress c → thread_step i c p → holds_in progress p.
Proof.
  intros Hp Hs. pose proof (prog_flags c Hp i) as Hf.
  inversion Hs; subst; cbn [holds_in]; try done;
    (eapply (progress_thread i); [done|done|reflexivity|done|done|..]);
    cbn [f_flags set_thread set_flag set_main ndone main rounds]; try done;
    rewrite ?length_insert; try done; try (by intros f Hff; rewrite (Hf _ _ Hff H));
    try (by left); try (by right); try (intros ? ?; by rewrite list_lookup_insert_ne);
    try (intros f Hff; apply list_lookup_insert_Some in Hff; naive_solver).
  destruct (main c); auto.
Qed.

(** A step of the main thread that keeps the threads and the flags. *)
Lemma progress_main c m pc :
  progress c → scanning (set_main c m pc) → second_round (set_main c m pc) →
  progress (set_main c m pc).
Proof. by intros [Hl Hf Hnd Hsc Hse] ? ?. Qed.

Lemma second_round_quiet c m pc :
  second_round c → (∀ k, pc ≠ C_scan k) → pc ≠ C_unlock → second_round (set_main c m pc).
Proof.
  intros [|(Hr & j & Hj & _)] Hs Hu; [by left|right]. split; [done|]. exists j. split; [done|].
  cbn. destruct pc; try done. by destruct (Hs i).
Qed.

(** A scan that passes a file has not met one that is done. *)
Lemma not_done_ne c k f j :
  progress c → f_flags c !! k = Some f → is_done f = false → file_done c j → j ≠ k.
Proof.
  intros Hp Hf Hd (pc & Hj & Hfl) ->. pose proof (prog_flags c Hp k f pc Hf Hj). congruence.
Qed.

Lemma progress_skip c k f :
  progress c → main c = C_scan k → f_flags c !! k = Some f → is_done f = false →
  progress (set_main c (ndone_mutex c) (C_scan (S k))).
Proof.
  intros Hp Hm Hf Hd. pose proof Hp as [Hl Hfl Hnd Hsc Hse]. apply progress_main; [done|..].
  - unfold scanning in Hsc. rewrite Hm in Hsc. destruct Hsc as (i & Hi & Hc). exists i.
    split; [done|]. pose proof (not_done_ne c k f i Hp Hf Hd Hi).
    destruct Hc as [Hc|Hc]; [left; lia|by right].
  - destruct Hse as [|(Hr & j & Hj & Hk)]; [by left|right]. rewrite Hm in Hk.
    split; [done|]. exists j. split; [done|].
    pose proof (not_done_ne c k f j Hp Hf Hd (joined_done c j Hj)). cbn. lia.
Qed.

Lemma progress_join c k f :
  progress c → main c = C_scan k → f_flags c !! k = Some f → is_done f = true →
  threads c !! k = Some W_terminated →
  progress (set_main (set_thread c (ndone_mutex c) k W_joined) (ndone_mutex c) (C_scan (S k))).
Proof.
  intros Hp Hm Hf Hd Ht. pose proof Hp as [Hl Hfl Hnd Hsc Hse].
  set (c' := set_main _ _ _).
  assert (threads c' = <[k := W_joined]> (threads c)) as Ep by done.
  pose proof (λ j, file_done_mono c c' k _ _ j Ht Ep (λ _, eq_refl)) as Hmono.
  assert (joined c' k) as Hjk.
  { unfold joined. by rewrite Ep, (lookup_update _ _ _ _ _ Ht), decide_True. }
  split.
  - by rewrite Ep, length_insert.
  - intros j f' pcj Hf'. rewrite Ep, (lookup_update _ _ _ _ _ Ht).
    destruct (decide (k = j)) as [<-|]; [|by apply Hfl]. intros [= <-].
    cbn [c' f_flags set_main set_thread] in Hf'. rewrite Hf in Hf'. injection Hf' as <-. done.
  - intros Hn. destruct (Hnd Hn) as [i Hi]. eauto.
  - exists k. split; [by apply joined_done|by right].
  - destruct Hse as [|(Hr & j & Hj & Hk)]; [by left|right]. rewrite Hm in Hk.
    split; [done|]. exists j. split; [by eapply (joined_mono c c' k)|].
    assert (j ≠ k) as Hne by (intros ->; unfold joined in Hj; congruence). cbn. lia.
Qed.

Lemma progress_main_step c p : progress c → main_step c p → holds_in progress p.
Proof.
  intros Hp Hs. pose proof Hp as [Hl Hfl Hnd Hsc Hse].
  inversion Hs; subst; cbn [holds_in]; try done;
    try (apply progress_main; [done|done|by apply second_round_quiet]);
    try (by eapply progress_skip); try (by eapply progress_join).
  - pose proof (first_unstarted_zero _ _ H2) as Hz.
    destruct (lookup_lt_is_Some_2 (threads c) i) as [pc Hpc].
    { rewrite <- Hl. by eapply lookup_lt_Some. }
    pose proof (Hfl i 0 pc Hz Hpc) as Hfp.
    eapply (progress_thread i pc W_connect c); try done; cbn [f_flags main rounds ndone].
    + by rewrite <- Hfp.
    + intros ->. done.
    + by rewrite length_insert.
    + intros f Hf. rewrite list_lookup_insert_eq in Hf by (by eapply lookup_lt_Some).
      by injection Hf as <-.
    + intros j Hj. by rewrite list_lookup_insert_ne.
    + by left.
    + left. done.
  - apply progress_main; [done|..].
    + destruct (Hnd H0) as [i Hi]. exists i. split; [done|left; lia].
    + destruct Hse as [|(Hr & j & Hj & _)]; [by left|right]. split; [done|]. exists j.
      split; [done|]. cbn. lia.
  - apply lookup_ge_None_1 in H0. apply progress_main; [done|..].
    + unfold scanning in Hsc. rewrite H in Hsc. destruct Hsc as (k & (pc & Hk & _) & [Hc|Hc]).
      * apply lookup_lt_Some in Hk. lia.
      * by exists k.
    + destruct Hse as [|(Hr & j & Hj & Hk)]; [by left|]. rewrite H in Hk.
      apply lookup_lt_Some in Hj. lia.
  - unfold scanning in Hsc. rewrite H in Hsc.
    split; cbn [f_flags threads ndone]; try done.
    destruct Hse as [Hr|(Hr & j & Hj & Hk)]; [|by rewrite H in Hk].
    right. cbn [rounds]. split; [lia|]. destruct Hsc as [i Hi]. by exists i.
Qed.

Lemma reachable_progress nargs m p : reachable nargs m p → holds_in progress p.
Proof.
  apply client_inv; [apply progress_start|intros; by eapply progress_main_step|
    intros; by eapply progress_thread_step].
Qed.

(** No step leads to a normal exit while files are left to be read. *)
Lemma no_normal_exit nargs m p :
  (0 < nargs)%nat → reachable nargs m p → p ≠ Exit_success.
Proof.
  intros Hn Hr ->. unfold reachable in Hr. apply rtc_inv_r in Hr as [[=]|(p & Hr & Hs)].
  apply reachable_counters in Hr. inversion Hs; subst; cbn [holds_in] in Hr.
  - inversion H; subst. pose proof (count_left _ _ _ Hr). unfold MAXFILES in *. lia.
  - inversion H.
Qed.

(** * The request fits its buffer, or is read past its end *)

Lemma write_get_cmd_fits f_name :
  (length f_name ≤ 4078)%nat → write_get_cmd f_name = Ret (get_cmd f_name).
Proof.
  intros Hl. unfold write_get_cmd. assert (length (get_cmd f_name) = (17 + length f_name))%nat as El.
  { unfold get_cmd. rewrite !length_app. cbn. lia. }
  rewrite El. unfold MAXLINE. rewrite (proj2 (Z.leb_le _ _)) by lia. f_equal.
  rewrite (take_ge (get_cmd f_name)) by lia. rewrite <- El. apply take_app_length.
Qed.

Lemma write_get_cmd_overrun f_name :
  (4079 < length f_name)%nat → write_get_cmd f_name = Undef.
Proof.
  intros Hl. unfold write_get_cmd. assert (length (get_cmd f_name) = (17 + length f_name))%nat as El.
  { unfold get_cmd. rewrite !length_app. cbn. lia. }
  rewrite El. unfold MAXLINE. by rewrite (proj2 (Z.leb_gt _ _)) by lia.
Qed.
