(* ===== verification/CServerProperties.v ===== *)
(** What the threaded programs in C do: the prethreaded server hands every
    connection to exactly one thread in the order of arrival and loses no
    wake-up; the threaded web client never gets past its second round. *)

From stdpp Require Import relations.
From S2P Require Import Prelude.
From S2P Require Import PrethreadServer ThreadClient.

(** A step of a run; the state it leads to is evaluated. *)
Ltac take_step H :=
  eapply rtc_l; [H|];
  try match goal with
  | |- rtc _ ?p _ => let p' := eval vm_compute in p in change p with p'
  end.

Module Prethread.
Import PrethreadServer.

(** C34: the ring of the prethreaded server is a queue.  In every reachable
    state, whatever the interleaving, the connections taken by the pool are
    the first ones accepted, in the order of acceptance, so that none is lost
    or handed out twice; at most 32 are waiting, and the server quits for lack
    of room only when exactly 32 are; each thread closes what it took, in
    order, before it takes the next; and its counter is the number of
    connections it took. *)
Theorem user_schedule_fifo n p :
  reachable n p →
  let s := server_of p in
  let l := log s in
  (∃ waiting, accepted l = taken l ++ waiting ∧ (length waiting ≤ MAXNCLI)%nat ∧
     ∀ s', p = Exited ring_full s' → length waiting = MAXNCLI) ∧
  ∀ i pc, pool s !! i = Some pc →
    taken_by i l = closed_by i l ++ serving pc ∧
    thread_count s !! i = Some (Z.of_nat (length (taken_by i l)) - uncounted pc).
Proof.
  intros Hr s l. destruct (reachable_fifo n p Hr) as [_ [(q & Hq & Ha & Hne) _ _]].
  pose proof (reachable_served n p Hr) as Hsv. split.
  - exists (q ++ in_hand s). split; [done|]. split.
    + rewrite length_app. pose proof (ring_size s q Hq) as Hz. unfold in_hand in *.
      destruct (main s); try destruct (clifd s !! iput s); cbn [length]; destruct Hz as [|[? ?]]; try done; lia.
    + intros s' Hp. subst s l. subst p. cbn [server_of] in *.
      apply rtc_inv_r in Hr as [[=]|(p & _ & Hs)].
      inversion Hs as [s0 p0 H|i s0 p0 H|s0 p0 H]; inversion H; subst.
      * rewrite (in_hand_eq s' _ H3), app_nil_r. by apply (ring_full_size s'); auto.
      * pose proof (web_child_replies lines) as Hw.
        match goal with E : web_child lines = Throw _ |- _ => rewrite E in Hw end.
        by destruct Hw as (? & ? & _).
  - intros i pc Hi. split; [by apply (served_history s Hsv)|].
    destruct (lookup_lt_is_Some_2 (thread_count s) i) as [c Hc].
    { rewrite (served_length s Hsv). by eapply lookup_lt_Some. }
    by rewrite Hc, (served_count s Hsv i pc c).
Qed.

(** C35: no wake-up is lost.  In every reachable state in which nobody holds
    the mutex, whatever the interleaving: the accepted connections are those
    taken, those that wait in the ring, and the one the main thread is about
    to enter; if a thread of the pool sleeps on the condition variable, then
    there are at least as many threads on their way to the ring (just started,
    just woken, or back from a client) as connections that wait in it; and
    each of these threads, going on alone, takes the first of them. *)
Theorem no_lost_wakeup n s :
  reachable n (Running s) → clifd_mutex s = None →
  ∃ waiting, accepted (log s) = taken (log s) ++ waiting ++ in_hand s ∧
    (T_wait ∈ pool s → (length waiting ≤ on_ways (pool s))%nat) ∧
    ∀ i pc fd w, waiting = fd :: w → pool s !! i = Some pc → on_way pc = true →
      ∃ s', rtc (pool_alone_step i) (Running s) (Running s') ∧ log s' = log s ++ [Took i fd].
Proof.
  intros Hr Hm. destruct (reachable_enough n _ Hr) as (Hx & Hf & He). cbn [server_of] in *.
  destruct (mutex_free s Hx Hm) as [Hmain _]. pose proof Hf as [(q & Hq & Ha & _) _ _].
  exists q. split; [done|]. split.
  - intros Hw. specialize (He Hw). rewrite Ha, !length_app in He.
    assert (unsignalled (main s) = 0%nat) as Hz by (by destruct (main s)). lia.
  - intros i pc fd w ->. by apply (takes_first s i pc fd w).
Qed.

(** The main thread enters a connection and signals the sleeper [i]. *)
Ltac hand_over fd i :=
  take_step ltac:(by eapply step_main, (main_accept _ fd));
  take_step ltac:(by eapply step_main, main_lock);
  take_step ltac:(by eapply step_main, main_store);
  take_step ltac:(by eapply step_main, main_advance);
  take_step ltac:(by eapply step_main, main_check);
  take_step ltac:(by eapply step_main, (main_signal _ i));
  take_step ltac:(by eapply step_main, main_unlock).

(** The pool's only thread falls asleep, then a connection arrives. *)
Definition one_waiting : server :=
  mk_server (5 :: repeat 0 31) 0 1 None M_accept [T_wake] [0] [Accepted 5].

Lemma one_waiting_reachable : reachable 1 (Running one_waiting).
Proof.
  unfold reachable.
  take_step ltac:(by eapply (step_pool 0), pool_lock; [| |]; [reflexivity|left|]).
  take_step ltac:(by eapply (step_pool 0), pool_sleep).
  hand_over 5 0%nat.
  apply rtc_refl.
Qed.

(** Three threads sleep, then two connections arrive before any of the two
    that are woken runs. *)
Definition two_waiting : server :=
  mk_server (5 :: 6 :: repeat 0 30) 0 2 None M_accept [T_wake; T_wake; T_wait] [0; 0; 0] [Accepted 5; Accepted 6].

Lemma two_waiting_reachable : reachable 3 (Running two_waiting).
Proof.
  unfold reachable.
  take_step ltac:(by eapply (step_pool 0), pool_lock; [| |]; [reflexivity|left|]).
  take_step ltac:(by eapply (step_pool 0), pool_sleep).
  take_step ltac:(by eapply (step_pool 1), pool_lock; [| |]; [reflexivity|left|]).
  take_step ltac:(by eapply (step_pool 1), pool_sleep).
  take_step ltac:(by eapply (step_pool 2), pool_lock; [| |]; [reflexivity|left|]).
  take_step ltac:(by eapply (step_pool 2), pool_sleep).
  hand_over 5 0%nat. hand_over 6 1%nat. apply rtc_refl.
Qed.

Lemma user_schedule_fifo_witness :
  (∃ waiting, accepted [Accepted 5] = taken [Accepted 5] ++ waiting ∧
     (length waiting ≤ MAXNCLI)%nat ∧
     ∀ s', Running one_waiting = Exited ring_full s' → length waiting = MAXNCLI) ∧
  ∀ i pc, [T_wake] !! i = Some pc →
    taken_by i [Accepted 5] = closed_by i [Accepted 5] ++ serving pc ∧
    [0] !! i = Some (Z.of_nat (length (taken_by i [Accepted 5])) - uncounted pc).
Proof. exact (user_schedule_fifo 1 (Running one_waiting) one_waiting_reachable). Defined.

(** The second thread may overtake the first, and then takes the first
    connection. *)
Lemma no_lost_wakeup_witness :
  ∃ waiting, [5; 6] = [] ++ waiting ++ [] ∧ (length waiting ≤ 2)%nat ∧
    ∃ s', rtc (pool_alone_step 1) (Running two_waiting) (Running s') ∧
      log s' = [Accepted 5; Accepted 6; Took 1 5].
Proof.
  destruct (no_lost_wakeup 3 two_waiting two_waiting_reachable eq_refl) as (waiting & Ha & Hn & Ht).
  exists waiting. split; [exact Ha|]. split; [apply Hn; right; right; left|].
  change ([5; 6] = waiting ++ []) in Ha. rewrite app_nil_r in Ha. subst waiting.
  exact (Ht 1%nat T_wake 5 [6] eq_refl eq_refl eq_refl).
Defined.
End Prethread.

Module WebClient.
Import ThreadClient.

(** The threaded web client never ends normally and never gets through
    two rounds: as [nlefttoread] is never decremented and [ndone] never reset,
    the loop goes on after the last file, and the next scan meets a thread
    that is already joined.  As [nconn] is never decremented either, no more
    files are ever requested than the number of simultaneous connections. *)
Theorem web_client_one_round nargs m p :
  (0 < nargs)%nat → reachable nargs m p →
  p ≠ Exit_success ∧
  ∀ c, p = Running c → (rounds c ≤ 1)%nat ∧ nlefttoread c = Z.of_nat (Nat.min nargs MAXFILES) ∧
    Z.of_nat (started c) ≤ Z.max 0 m.
Proof.
  intros Hn Hr. split; [by apply (no_normal_exit nargs m)|]. intros c ->.
  pose proof (reachable_counters nargs m _ Hr) as Hc. cbn in Hc.
  pose proof (reachable_progress nargs m _ Hr) as Hp. cbn in Hp.
  split; [|split; [apply (count_left _ _ _ Hc)|]].
  - destruct (prog_second c Hp) as [|[? _]]; lia.
  - rewrite (count_started _ _ _ Hc). apply (count_limit _ _ _ Hc).
Qed.

(** Thread [i] is created and fetches its file up to the flag. *)
Ltac fetch i :=
  take_step ltac:(by eapply (step_thread i), thread_connect);
  take_step ltac:(by eapply (step_thread i), thread_request);
  take_step ltac:(by eapply (step_thread i), thread_eof);
  take_step ltac:(by eapply (step_thread i), thread_flag).

Ltac finish i :=
  take_step ltac:(by eapply (step_thread i), thread_lock);
  take_step ltac:(by eapply (step_thread i), thread_count);
  take_step ltac:(by eapply (step_thread i), thread_signal);
  take_step ltac:(by eapply (step_thread i), thread_unlock).

Definition joined_once : client :=
  mk_client [4] [W_joined] 1 1 0 1 1 None C_outer 1.

Lemma joined_once_reachable : reachable 1 1 (Running joined_once).
Proof.
  unfold reachable.
  take_step ltac:(by eapply step_main, main_more).
  take_step ltac:(by eapply step_main, (main_create _ 0)).
  fetch 0%nat. finish 0%nat.
  take_step ltac:(by eapply step_main, main_started; [|right]).
  take_step ltac:(by eapply step_main, main_lock; [|left|]).
  take_step ltac:(by eapply step_main, main_awake).
  take_step ltac:(by eapply step_main, main_join).
  take_step ltac:(by eapply step_main, main_scanned).
  take_step ltac:(by eapply step_main, main_unlock).
  apply rtc_refl.
Qed.

Lemma web_client_one_round_witness :
  Running joined_once ≠ Exit_success ∧
  ∀ c, Running joined_once = Running c →
    (rounds c ≤ 1)%nat ∧ nlefttoread c = Z.of_nat (Nat.min 1 MAXFILES) ∧
    Z.of_nat (started c) ≤ Z.max 0 1.
Proof. apply (web_client_one_round 1 1); [lia|exact joined_once_reachable]. Defined.

(** The main thread holds the mutex and waits for thread 1 to end; thread 1 has
    set its flag and waits for the mutex. *)
Definition deadlocked : client :=
  mk_client [4; 4] [W_joined; W_lock] 2 2 0 2 1 (Some main_thread) (C_scan 1) 0.

Lemma deadlocked_reachable : reachable 2 2 (Running deadlocked).
Proof.
  unfold reachable.
  take_step ltac:(by eapply step_main, main_more).
  take_step ltac:(by eapply step_main, (main_create _ 0)).
  take_step ltac:(by eapply step_main, (main_create _ 1)).
  fetch 0%nat. finish 0%nat. fetch 1%nat.
  take_step ltac:(by eapply step_main, main_started; [|right]).
  take_step ltac:(by eapply step_main, main_lock; [|left|]).
  take_step ltac:(by eapply step_main, main_awake).
  take_step ltac:(by eapply step_main, main_join).
  apply rtc_refl.
Qed.

Lemma deadlocked_stuck p : ¬ step (Running deadlocked) p.
Proof.
  intros Hs. inversion Hs as [c p' Hm|i c p' Ht]; subst.
  - inversion Hm; subst; try done; cbn in *; destruct_or?; try done; simplify_eq.
    by injection H0 as <-.
  - destruct i as [|[|i]]; inversion Ht; subst; cbn in *; destruct_or?; simplify_eq; done.
Qed.

(** C37: the web client can hang and can misuse its threads.  With two files,
    there is a run after which no thread can ever take a step: a thread marks
    its file before it locks the mutex, and the main thread joins it while
    holding that mutex.  With one file, there is a run in which the main
    thread joins the same thread a second time, which is undefined. *)
Theorem web_client_hangs :
  (∃ c, reachable 2 2 (Running c) ∧ ndone_mutex c = Some main_thread ∧
     threads c !! 1%nat = Some W_lock ∧ ∀ p, ¬ step (Running c) p) ∧
  reachable 1 1 Undefined.
Proof.
  split.
  - exists deadlocked. split; [exact deadlocked_reachable|]. do 2 (split; [done|]).
    exact deadlocked_stuck.
  - unfold reachable. etrans; [exact joined_once_reachable|].
    take_step ltac:(by eapply step_main, main_more).
    take_step ltac:(by eapply step_main, main_started; [|right]).
    take_step ltac:(by eapply step_main, main_lock; [|left|]).
    take_step ltac:(by eapply step_main, main_awake).
    take_step ltac:(by eapply step_main, main_join_again). apply rtc_refl.
Qed.
End WebClient.
