(* ===== verification/TimerQueue.v ===== *)
(** Asio's [detail::timer_queue]: the active timers of a reactor in a doubly
    linked list, and those that expire in a binary heap ordered by time, each
    timer knowing its index in the heap.

    The memory of the [per_timer_data] objects is kept field by field, as a map
    from the object's address.  [heap_index_] is [None] for the value
    [numeric_limits<size_t>::max()], which is no index of a vector.  [None] as
    a result stands for an access outside of the heap.  [TimeTraits] is the
    template parameter of the class: its comparison and its test for positive
    infinity are arguments, with the laws of a strict weak order. *)

From stdpp Require Import functions.
From S2P Require Import Prelude.

(** * The time traits *)

Class TimeTraits (time_type : Type) := {
  less_than : time_type → time_type → bool;
  is_positive_infinity : time_type → bool
}.

(** [less_than] is irreflexive and transitive, and so is being no later. *)
Class TimeOrder (time_type : Type) `{TimeTraits time_type} := {
  less_irrefl t : less_than t t = false;
  less_trans t u v : less_than t u = true → less_than u v = true → less_than t v = true;
  not_less_trans t u v : less_than u t = false → less_than v u = false → less_than v t = false
}.

(** Times as counts of clock ticks, as [std::chrono] has them. *)
#[export] Instance ticks : TimeTraits Z := {|
  less_than := Z.ltb;
  is_positive_infinity _ := false
|}.

#[export] Instance ticks_order : TimeOrder Z.
Proof. split; cbn; intros; to_prop; try (by apply Z.ltb_irrefl); lia. Qed.

(** * State *)

Abbreviation ptr := nat.

(** A waiting operation: its result and the key it can be cancelled by. *)
Inductive error_code : Type :=
| no_error
| operation_aborted.

Record wait_op : Type := mk_wait_op {
  op_id : nat;
  ec_ : error_code;
  cancellation_key_ : nat
}.

Definition set_ec (ec : error_code) (op : wait_op) : wait_op :=
  mk_wait_op (op_id op) ec (cancellation_key_ op).

Section timer_queue.
  Context {time_type : Type} `{TimeTraits time_type}.

Record heap_entry : Type := mk_entry {
  time_ : time_type;
  timer_ : ptr
}.

(** The heap and the timers' indices in it. *)
Record heap_state : Type := mk_heap {
  heap_ : list heap_entry;
  heap_index_ : ptr → option nat
}.

(** The list of active timers. *)
Record list_state : Type := mk_list {
  timers_ : option ptr;
  next_ : ptr → option ptr;
  prev_ : ptr → option ptr
}.

Record timer_queue : Type := mk_queue {
  q_heap : heap_state;
  q_list : list_state;
  op_queue_ : ptr → list wait_op
}.

(** * The heap *)

Definition swap_heap (index1 index2 : nat) (s : heap_state) : option heap_state :=
  tmp ← heap_ s !! index1;
  other ← heap_ s !! index2;
  Some (mk_heap (<[index2 := tmp]> (<[index1 := other]> (heap_ s)))
          (<[timer_ tmp := Some index2]> (<[timer_ other := Some index1]> (heap_index_ s)))).

(** Each round at least halves the index. *)
Fixpoint up_heap_loop (fuel index : nat) (s : heap_state) : option heap_state :=
  match fuel with
  | O => None
  | S fuel' =>
      if (index =? 0)%nat then Some s
      else
        let parent := ((index - 1) / 2)%nat in
        e ← heap_ s !! index;
        p ← heap_ s !! parent;
        if negb (less_than (time_ e) (time_ p)) then Some s
        else s ← swap_heap index parent s; up_heap_loop fuel' parent s
  end.

Definition up_heap (index : nat) (s : heap_state) : option heap_state :=
  up_heap_loop (S index) index s.

Definition min_child_of (child : nat) (s : heap_state) : option nat :=
  if (child + 1 =? length (heap_ s))%nat then Some child
  else
    c1 ← heap_ s !! child;
    c2 ← heap_ s !! (child + 1)%nat;
    Some (if less_than (time_ c1) (time_ c2) then child else (child + 1)%nat).

Fixpoint down_heap_loop (fuel index : nat) (s : heap_state) : option heap_state :=
  match fuel with
  | O => None
  | S fuel' =>
      let child := (index * 2 + 1)%nat in
      if (child <? length (heap_ s))%nat then
        min_child ← min_child_of child s;
        e ← heap_ s !! index;
        c ← heap_ s !! min_child;
        if less_than (time_ e) (time_ c) then Some s
        else s ← swap_heap index min_child s; down_heap_loop fuel' min_child s
      else Some s
  end.

(** Each round makes the index larger. *)
Definition down_heap (index : nat) (s : heap_state) : option heap_state :=
  down_heap_loop (S (length (heap_ s))) index s.

(** [heap_.pop_back()]. *)
Definition pop_back (s : heap_state) : heap_state :=
  mk_heap (removelast (heap_ s)) (heap_index_ s).

Definition forget_index (timer : ptr) (s : heap_state) : heap_state :=
  mk_heap (heap_ s) (<[timer := None]> (heap_index_ s)).

(** The first half of [remove_timer]. *)
Definition remove_from_heap (timer : ptr) (s : heap_state) : option heap_state :=
  match heap_index_ s timer with
  | Some index =>
      if (index <? length (heap_ s))%nat then
        if (index =? length (heap_ s) - 1)%nat
        then Some (pop_back (forget_index timer s))
        else
          s ← swap_heap index (length (heap_ s) - 1) s;
          let s := pop_back (forget_index timer s) in
          if (0 <? index)%nat then
            e ← heap_ s !! index;
            p ← heap_ s !! ((index - 1) / 2)%nat;
            if less_than (time_ e) (time_ p) then up_heap index s else down_heap index s
          else down_heap index s
      else Some s
  | None => Some s
  end.

(** A new entry at the end of the heap, moved to its place. *)
Definition insert_heap (time : time_type) (timer : ptr) (s : heap_state) : option heap_state :=
  let s := mk_heap (heap_ s ++ [mk_entry time timer])
             (<[timer := Some (length (heap_ s))]> (heap_index_ s)) in
  up_heap (length (heap_ s) - 1) s.

(** * The list of active timers *)

(** [timer.prev_ == 0 && &timer != timers_] is negated. *)
Definition is_active (timer : ptr) (l : list_state) : bool :=
  negb (bool_decide (prev_ l timer = None)) || bool_decide (timers_ l = Some timer).

Definition insert_list (timer : ptr) (l : list_state) : list_state :=
  let next := <[timer := timers_ l]> (next_ l) in
  let prev := <[timer := None]> (prev_ l) in
  let prev := match timers_ l with Some h => <[h := Some timer]> prev | None => prev end in
  mk_list (Some timer) next prev.

(** The second half of [remove_timer]. *)
Definition remove_from_list (timer : ptr) (l : list_state) : list_state :=
  let head := if bool_decide (timers_ l = Some timer) then next_ l timer else timers_ l in
  let next := match prev_ l timer with
              | Some p => <[p := next_ l timer]> (next_ l)
              | None => next_ l
              end in
  let prev := match next timer with
              | Some n => <[n := prev_ l timer]> (prev_ l)
              | None => prev_ l
              end in
  mk_list head (<[timer := None]> next) (<[timer := None]> prev).

(** * Operations *)

Definition remove_timer (timer : ptr) (q : timer_queue) : option timer_queue :=
  h ← remove_from_heap timer (q_heap q);
  Some (mk_queue h (remove_from_list timer (q_list q)) (op_queue_ q)).

(** The result is whether the reactor has to be interrupted. *)
Definition enqueue_timer (time : time_type) (timer : ptr) (op : wait_op) (q : timer_queue) :
    option (bool * timer_queue) :=
  '(h, l) ←
    (if negb (is_active timer (q_list q)) then
       h ← (if is_positive_infinity time then Some (forget_index timer (q_heap q))
            else insert_heap time timer (q_heap q));
       Some (h, insert_list timer (q_list q))
     else Some (q_heap q, q_list q));
  let ops := op_queue_ q timer ++ [op] in
  let q := mk_queue h l (<[timer := ops]> (op_queue_ q)) in
  Some (bool_decide (heap_index_ h timer = Some 0%nat) &&
        bool_decide (op_id <$> head ops = Some (op_id op)), q).

Definition empty (q : timer_queue) : bool := bool_decide (timers_ (q_list q) = None).

(** All operations of the timer, with success. *)
Fixpoint get_ready_loop (fuel : nat) (now : time_type) (ops : list wait_op) (q : timer_queue) :
    option (list wait_op * timer_queue) :=
  match fuel with
  | O => None
  | S fuel' =>
      match heap_ (q_heap q) with
      | [] => Some (ops, q)
      | e :: _ =>
          if less_than now (time_ e) then Some (ops, q)
          else
            let timer := timer_ e in
            let ready := map (set_ec no_error) (op_queue_ q timer) in
            let q := mk_queue (q_heap q) (q_list q) (<[timer := []]> (op_queue_ q)) in
            q ← remove_timer timer q;
            get_ready_loop fuel' now (ops ++ ready) q
      end
  end.

(** Every round removes an entry. *)
Definition get_ready_timers (now : time_type) (ops : list wait_op) (q : timer_queue) :
    option (list wait_op * timer_queue) :=
  get_ready_loop (S (length (heap_ (q_heap q)))) now ops q.

(** [max_cancelled] is [None] for its default, the largest [size_t]. *)
Definition cancel_timer (timer : ptr) (max_cancelled : option nat) (ops : list wait_op)
    (q : timer_queue) : option (nat * list wait_op * timer_queue) :=
  if is_active timer (q_list q) then
    let waiting := op_queue_ q timer in
    let n := match max_cancelled with
             | Some m => Nat.min m (length waiting)
             | None => length waiting
             end in
    let ops := ops ++ map (set_ec operation_aborted) (take n waiting) in
    let q := mk_queue (q_heap q) (q_list q) (<[timer := drop n waiting]> (op_queue_ q)) in
    match drop n waiting with
    | [] => q ← remove_timer timer q; Some (n, ops, q)
    | _ => Some (n, ops, q)
    end
  else Some (0%nat, ops, q).

Definition has_key (key : nat) (op : wait_op) : bool := (cancellation_key_ op =? key)%nat.

Definition cancel_timer_by_key (timer : ptr) (ops : list wait_op) (key : nat) (q : timer_queue) :
    option (list wait_op * timer_queue) :=
  if is_active timer (q_list q) then
    let waiting := op_queue_ q timer in
    let other_ops := List.filter (λ op, negb (has_key key op)) waiting in
    let ops := ops ++ map (set_ec operation_aborted) (List.filter (has_key key) waiting) in
    let q := mk_queue (q_heap q) (q_list q) (<[timer := other_ops]> (op_queue_ q)) in
    match other_ops with
    | [] => q ← remove_timer timer q; Some (ops, q)
    | _ => Some (ops, q)
    end
  else Some (ops, q).

(** The loop over the list of active timers; [fuel] is more than their number. *)
Fixpoint get_all_loop (fuel : nat) (ops : list wait_op) (q : timer_queue) :
    option (list wait_op * timer_queue) :=
  match fuel with
  | O => None
  | S fuel' =>
      let l := q_list q in
      match timers_ l with
      | None => Some (ops, q)
      | Some timer =>
          get_all_loop fuel' (ops ++ op_queue_ q timer)
            (mk_queue (q_heap q)
               (mk_list (next_ l timer) (<[timer := None]> (next_ l)) (<[timer := None]> (prev_ l)))
               (<[timer := []]> (op_queue_ q)))
      end
  end.

(** The indices of the timers are not reset. *)
Definition get_all_timers (fuel : nat) (ops : list wait_op) (q : timer_queue) :
    option (list wait_op * timer_queue) :=
  '(ops, q) ← get_all_loop fuel ops q;
  Some (ops, mk_queue (mk_heap [] (heap_index_ (q_heap q))) (q_list q) (op_queue_ q)).

(** [heap_[index].timer_ = &target], where the index is one of the heap. *)
Definition retarget (index : option nat) (target : ptr) (h : list heap_entry) : list heap_entry :=
  match index with
  | Some i => match h !! i with
              | Some e => <[i := mk_entry (time_ e) target]> h
              | None => h
              end
  | None => h
  end.

Definition move_timer (target source : ptr) (q : timer_queue) : timer_queue :=
  let ops := <[source := []]> (<[target := op_queue_ q target ++ op_queue_ q source]> (op_queue_ q)) in
  let index := heap_index_ (q_heap q) source in
  let h := mk_heap (retarget index target (heap_ (q_heap q)))
             (<[source := None]> (<[target := index]> (heap_index_ (q_heap q)))) in
  let l := q_list q in
  let head := if bool_decide (timers_ l = Some source) then Some target else timers_ l in
  let next := match prev_ l source with Some p => <[p := Some target]> (next_ l) | None => next_ l end in
  let prev := match next source with Some n => <[n := Some target]> (prev_ l) | None => prev_ l end in
  let next := <[target := next source]> next in
  let prev := <[target := prev source]> prev in
  mk_queue h (mk_list head (<[source := None]> next) (<[source := None]> prev)) ops.
End timer_queue.

Arguments heap_entry time_type : clear implicits.
Arguments heap_state time_type : clear implicits.
Arguments timer_queue time_type : clear implicits.
