(* ===== verification/TimerQueueFacts.v ===== *)
(** Correctness of the timer queue of [TimerQueue]: its heap stays ordered and
    every timer's index stays right, its linked list stays a list, and both
    agree with the operations that wait. *)

From stdpp Require Import functions sorting.
From S2P Require Import Prelude TimerQueue.

(** * The heap property *)

Section heap_facts.
  Context {time_type : Type} `{TimeOrder time_type}.
  Implicit Types (h : list (heap_entry time_type)) (s : heap_state time_type).

(** No later than. *)
Definition le (t u : time_type) : Prop := less_than u t = false.

Lemma le_refl t : le t t.
Proof. apply less_irrefl. Qed.
Lemma le_trans t u v : le t u → le u v → le t v.
Proof. apply not_less_trans. Qed.
Lemma less_le t u : less_than t u = true → le t u.
Proof.
  intros Ht. unfold le. destruct (less_than u t) eqn:E; [|done].
  pose proof (less_trans t u t Ht E) as Hc. by rewrite less_irrefl in Hc.
Qed.

(** The entry at [i], if any, is no later than the one at [j], if any. *)
Definition ordered h (i j : nat) : Prop :=
  ∀ a b, h !! i = Some a → h !! j = Some b → le (time_ a) (time_ b).

Definition parent (i : nat) : nat := ((i - 1) / 2)%nat.

Lemma parent_spec i : (0 < i)%nat → (i = 2 * parent i + 1 ∨ i = 2 * parent i + 2)%nat.
Proof.
  intros Hi. unfold parent. pose proof (Nat.div_mod_eq (i - 1) 2).
  pose proof (Nat.mod_upper_bound (i - 1) 2). lia.
Qed.

Definition heap_ok h : Prop := ∀ i, (0 < i)%nat → ordered h (parent i) i.

(** Ordered but for the entry at [k], which may be too early for its place, or
    too late. *)
Definition up_ok h (k : nat) : Prop :=
  (∀ i, (0 < i)%nat → i ≠ k → ordered h (parent i) i) ∧
  (∀ i, (0 < i)%nat → parent i = k → (0 < k)%nat → ordered h (parent k) i).

Definition down_ok h (k : nat) : Prop :=
  (∀ i, (0 < i)%nat → parent i ≠ k → ordered h (parent i) i) ∧
  (∀ i, (0 < i)%nat → parent i = k → (0 < k)%nat → ordered h (parent k) i).

(** Exchanging two entries. *)
Definition exchange (i j : nat) h : list (heap_entry time_type) :=
  match h !! i, h !! j with
  | Some a, Some b => <[j := a]> (<[i := b]> h)
  | _, _ => h
  end.

Lemma lookup_exchange i j k h :
  (i < length h)%nat → (j < length h)%nat →
  exchange i j h !! k = if decide (k = j) then h !! i else if decide (k = i) then h !! j else h !! k.
Proof.
  intros Hi Hj. destruct (lookup_lt_is_Some_2 h i Hi) as [a Ha].
  destruct (lookup_lt_is_Some_2 h j Hj) as [b Hb]. unfold exchange. rewrite Ha, Hb.
  destruct (decide (k = j)) as [->|Hkj].
  - rewrite list_lookup_insert_eq by (by rewrite length_insert). done.
  - rewrite list_lookup_insert_ne by done. destruct (decide (k = i)) as [->|Hki].
    + by rewrite list_lookup_insert_eq.
    + by rewrite list_lookup_insert_ne.
Qed.

Lemma exchange_length i j h : length (exchange i j h) = length h.
Proof. unfold exchange. repeat case_match; rewrite ?length_insert; done. Qed.

Lemma exchange_perm i j h : exchange i j h ≡ₚ h.
Proof.
  unfold exchange. destruct (h !! i) as [a|] eqn:Ha; [|done].
  destruct (h !! j) as [b|] eqn:Hb; [|done]. by apply Permutation_insert_swap.
Qed.

(** Each entry's timer knows the entry's index. *)
Definition indexed s : Prop :=
  ∀ i e, heap_ s !! i = Some e → heap_index_ s (timer_ e) = Some i.

Definition heap_timers s : list ptr := timer_ <$> heap_ s.

(** [s'] holds the same entries as [s] in another order. *)
Record rearranged s s' : Prop := mk_rearranged {
  rearranged_perm : heap_ s' ≡ₚ heap_ s;
  rearranged_indexed : indexed s';
  rearranged_frame t : t ∉ heap_timers s → heap_index_ s' t = heap_index_ s t
}.

Lemma rearranged_refl s : indexed s → rearranged s s.
Proof. done. Qed.

Lemma rearranged_trans s1 s2 s3 : rearranged s1 s2 → rearranged s2 s3 → rearranged s1 s3.
Proof.
  intros [P1 I1 F1] [P2 I2 F2]. split; [by rewrite P2|done|].
  intros t Ht. rewrite F2, F1; [done|done|]. unfold heap_timers. by rewrite P1.
Qed.

Lemma swap_heap_spec i j s :
  indexed s → (i < length (heap_ s))%nat → (j < length (heap_ s))%nat → i ≠ j →
  ∃ s', swap_heap i j s = Some s' ∧ heap_ s' = exchange i j (heap_ s) ∧ rearranged s s'.
Proof.
  intros Hx Hi Hj Hne. destruct (lookup_lt_is_Some_2 (heap_ s) i Hi) as [a Ha].
  destruct (lookup_lt_is_Some_2 (heap_ s) j Hj) as [b Hb].
  unfold swap_heap. rewrite Ha, Hb. cbn [mbind option_bind].
  eexists. split; [done|]. split; [unfold exchange; by rewrite Ha, Hb|].
  pose proof (Hx i a Ha) as Ia. pose proof (Hx j b Hb) as Ib. split; cbn [heap_].
  - by apply Permutation_insert_swap.
  - intros k e Hk.
    assert (exchange i j (heap_ s) !! k = Some e) as Hk'.
    { unfold exchange. by rewrite Ha, Hb. }
    rewrite lookup_exchange in Hk' by done. cbn [heap_index_].
    destruct (decide (k = j)) as [->|Hkj]; [|destruct (decide (k = i)) as [->|Hki]].
    + rewrite Ha in Hk'. injection Hk' as <-. by rewrite fn_lookup_insert.
    + rewrite Hb in Hk'. injection Hk' as <-. rewrite fn_lookup_insert_ne by congruence.
      by rewrite fn_lookup_insert.
    + pose proof (Hx k e Hk') as Ik. by rewrite !fn_lookup_insert_ne by congruence.
  - intros t Ht. cbn [heap_index_]. apply list_elem_of_lookup_2 in Ha, Hb.
    rewrite !fn_lookup_insert_ne; [done|..]; intros <-; apply Ht; unfold heap_timers;
      by apply list_elem_of_fmap_2.
Qed.

(** The order of two places of an exchanged heap, by the places they had. *)
Lemma ordered_exchange i j h x y :
  (i < length h)%nat → (j < length h)%nat →
  let old z := if decide (z = j) then i else if decide (z = i) then j else z in
  ordered h (old x) (old y) → ordered (exchange i j h) x y.
Proof.
  intros Hi Hj old Ho a b. rewrite !lookup_exchange by done. intros Ha Hb. apply Ho; subst old; cbv beta.
  - by destruct (decide (x = j)), (decide (x = i)).
  - by destruct (decide (y = j)), (decide (y = i)).
Qed.

Ltac old_places :=
  apply ordered_exchange; [done|done|]; cbv beta zeta;
  repeat match goal with
  | |- context [decide (?x = ?y)] => destruct (decide (x = y)); try (exfalso; lia)
  end.

Lemma ordered_trans h i j k : (j < length h)%nat → ordered h i j → ordered h j k → ordered h i k.
Proof.
  intros Hj H1 H2 a c Ha Hc. destruct (lookup_lt_is_Some_2 h j Hj) as [b Hb].
  eapply le_trans; eauto.
Qed.

Lemma up_step h k :
  up_ok h k → (0 < k)%nat → (k < length h)%nat → ordered h k (parent k) →
  up_ok (exchange k (parent k) h) (parent k).
Proof.
  intros [H1 H2] Hk Hl Hlt. pose proof (parent_spec k Hk) as Hp. set (p := parent k) in *.
  assert (p < length h)%nat as Hpl by lia. split.
  - intros i Hi Hip. pose proof (parent_spec i Hi) as Hpi.
    destruct (decide (i = k)) as [->|Hik]; [fold p; by old_places|].
    destruct (decide (parent i = k)) as [Ek|Ek].
    { rewrite Ek. old_places. by apply H2. }
    destruct (decide (parent i = p)) as [Ep|Ep].
    { rewrite Ep. old_places. apply (ordered_trans h k p i Hpl); [done|]. rewrite <- Ep. by apply H1. }
    old_places. by apply H1.
  - intros i Hi Hip Hp0. pose proof (parent_spec i Hi) as Hpi. pose proof (parent_spec p Hp0) as Hpp.
    assert (ordered h (parent p) p) as Hgp by (apply H1; lia).
    destruct (decide (i = k)) as [->|Hik]; [by old_places|].
    old_places. apply (ordered_trans h (parent p) p i Hpl); [done|]. rewrite <- Hip. by apply H1.
Qed.

Lemma up_heap_spec fuel k s :
  indexed s → up_ok (heap_ s) k → (k < length (heap_ s))%nat → (k < fuel)%nat →
  ∃ s', up_heap_loop fuel k s = Some s' ∧ rearranged s s' ∧ heap_ok (heap_ s').
Proof.
  revert k s. induction fuel as [|fuel IH]; intros k s Hx Hu Hk Hf; [lia|].
  cbn [up_heap_loop]. destruct (Nat.eqb_spec k 0) as [->|Hk0].
  { exists s. split; [done|]. split; [by apply rearranged_refl|].
    intros i Hi. apply (proj1 Hu); lia. }
  assert (0 < k)%nat as Hkp by lia. pose proof (parent_spec k Hkp) as Hp.
  fold (parent k). destruct (lookup_lt_is_Some_2 (heap_ s) k Hk) as [e He].
  destruct (lookup_lt_is_Some_2 (heap_ s) (parent k)) as [p Hpe]; [lia|].
  rewrite He, Hpe. cbn [mbind option_bind]. destruct (less_than (time_ e) (time_ p)) eqn:El; cbn [negb].
  - destruct (swap_heap_spec k (parent k) s Hx Hk ltac:(lia) ltac:(lia)) as (s1 & E1 & Eh & Hr).
    rewrite E1. cbn [mbind option_bind].
    destruct (IH (parent k) s1) as (s2 & E2 & Hr2 & Hok).
    + apply Hr.
    + rewrite Eh. apply up_step; [done..|]. intros a b Ha Hb. simplify_eq. by apply less_le.
    + rewrite Eh, exchange_length. lia.
    + lia.
    + exists s2. split; [done|]. split; [by eapply rearranged_trans|done].
  - exists s. split; [done|]. split; [by apply rearranged_refl|].
    intros i Hi. destruct (decide (i = k)) as [->|Hik]; [|by apply (proj1 Hu)].
    intros a b Ha Hb. simplify_eq. done.
Qed.

Lemma down_step h k m :
  down_ok h k → (k < length h)%nat → (m < length h)%nat → (0 < m)%nat → parent m = k →
  ordered h m k → (∀ i, (0 < i)%nat → parent i = k → ordered h m i) →
  down_ok (exchange k m h) m.
Proof.
  intros [H1 H2] Hk Hm Hm0 Hpm Hmk Hmin. pose proof (parent_spec m Hm0) as Hpm'. split.
  - intros i Hi Hip. pose proof (parent_spec i Hi) as Hpi.
    destruct (decide (i = k)) as [->|Hik].
    { old_places. apply H2; lia. }
    destruct (decide (parent i = k)) as [Ek|Ek].
    { rewrite Ek. destruct (decide (i = m)) as [->|Him]; old_places; [done|]. by apply Hmin. }
    old_places. by apply H1.
  - intros i Hi Hip _. pose proof (parent_spec i Hi) as Hpi. rewrite Hpm. old_places.
    rewrite <- Hip. apply H1; lia.
Qed.

Lemma min_child_spec child s :
  (child < length (heap_ s))%nat →
  ∃ m, min_child_of child s = Some m ∧ (m = child ∨ m = child + 1)%nat ∧
    (m < length (heap_ s))%nat ∧ ordered (heap_ s) m child ∧ ordered (heap_ s) m (child + 1).
Proof.
  intros Hc. unfold min_child_of.
  assert (∀ i, ordered (heap_ s) i i) as Hrefl.
  { intros i a b Ha Hb. simplify_eq. apply le_refl. }
  destruct (Nat.eqb_spec (child + 1) (length (heap_ s))) as [E|E].
  - exists child. repeat split; auto. intros a b _ Hb. apply lookup_lt_Some in Hb. lia.
  - destruct (lookup_lt_is_Some_2 (heap_ s) child Hc) as [c1 H1].
    destruct (lookup_lt_is_Some_2 (heap_ s) (child + 1)) as [c2 H2]; [lia|].
    rewrite H1, H2. cbn [mbind option_bind]. eexists. split; [done|].
    destruct (less_than (time_ c1) (time_ c2)) eqn:El.
    + repeat split; auto. intros a b Ha Hb. simplify_eq. by apply less_le.
    + repeat split; auto; [lia|]. intros a b Ha Hb. simplify_eq. done.
Qed.

Lemma down_heap_spec fuel k s :
  indexed s → down_ok (heap_ s) k → (k < length (heap_ s))%nat →
  (length (heap_ s) - k < fuel)%nat →
  ∃ s', down_heap_loop fuel k s = Some s' ∧ rearranged s s' ∧ heap_ok (heap_ s').
Proof.
  revert k s. induction fuel as [|fuel IH]; intros k s Hx Hd Hk Hf; [lia|].
  cbn [down_heap_loop]. destruct (Nat.ltb_spec (k * 2 + 1) (length (heap_ s))) as [Hc|Hc].
  - destruct (min_child_spec _ s Hc) as (m & -> & Hm & Hml & Ho1 & Ho2). cbn [mbind option_bind].
    destruct (lookup_lt_is_Some_2 (heap_ s) k Hk) as [e He].
    destruct (lookup_lt_is_Some_2 (heap_ s) m Hml) as [c Hce].
    rewrite He, Hce. cbn [mbind option_bind].
    assert (0 < m)%nat as Hm0 by lia. pose proof (parent_spec m Hm0) as Hpm.
    assert (∀ i, (0 < i)%nat → parent i = k → ordered (heap_ s) m i) as Hmin.
    { intros i Hi Hp. pose proof (parent_spec i Hi) as Hpi.
      assert (i = k * 2 + 1 ∨ i = k * 2 + 1 + 1)%nat as [-> | ->] by lia; done. }
    destruct (less_than (time_ e) (time_ c)) eqn:El.
    + exists s. split; [done|]. split; [by apply rearranged_refl|].
      intros i Hi. destruct (decide (parent i = k)) as [Hp|Hp]; [|by apply (proj1 Hd)].
      rewrite Hp. apply (ordered_trans _ k m i Hml); [|by apply Hmin].
      intros a b Ha Hb. simplify_eq. by apply less_le.
    + destruct (swap_heap_spec k m s Hx Hk Hml ltac:(lia)) as (s1 & -> & Eh & Hr).
      cbn [mbind option_bind]. destruct (IH m s1) as (s2 & E2 & Hr2 & Hok).
      * apply Hr.
      * rewrite Eh. apply down_step; [done..|lia|lia| |done].
        intros a b Ha Hb. simplify_eq. done.
      * rewrite Eh, exchange_length. lia.
      * rewrite Eh, exchange_length. lia.
      * exists s2. split; [done|]. split; [by eapply rearranged_trans|done].
  - exists s. split; [done|]. split; [by apply rearranged_refl|].
    intros i Hi. destruct (decide (parent i = k)) as [Hp|Hp]; [|by apply (proj1 Hd)].
    pose proof (parent_spec i Hi) as Hpi. intros a b _ Hb. apply lookup_lt_Some in Hb. lia.
Qed.
(** * Adding and removing entries *)

(** An ordered heap whose entries' timers know their places. *)
Definition heap_wf s : Prop := indexed s ∧ heap_ok (heap_ s).

Lemma heap_timers_lookup s i e : heap_ s !! i = Some e → timer_ e ∈ heap_timers s.
Proof. intros Hi. apply list_elem_of_fmap_2. by eapply list_elem_of_lookup_2. Qed.

Lemma insert_heap_spec t timer s :
  heap_wf s → timer ∉ heap_timers s →
  ∃ s', insert_heap t timer s = Some s' ∧ heap_wf s' ∧
    heap_ s' ≡ₚ mk_entry t timer :: heap_ s ∧
    ∀ u, u ≠ timer → u ∉ heap_timers s → heap_index_ s' u = heap_index_ s u.
Proof.
  intros [Hx Hok] Hn. unfold insert_heap, up_heap. set (s0 := mk_heap _ _).
  assert (length (heap_ s0) - 1 = length (heap_ s))%nat as El.
  { unfold s0. cbn [heap_]. rewrite length_app. cbn. lia. }
  rewrite El. destruct (up_heap_spec (S (length (heap_ s))) (length (heap_ s)) s0) as (s' & E & Hr & Ho).
  - intros i e He. cbn [s0 heap_ heap_index_] in *. apply lookup_app_Some in He as [He|[Hi He]].
    + rewrite fn_lookup_insert_ne; [by apply Hx|]. intros ->. apply Hn. by eapply heap_timers_lookup.
    + apply list_lookup_singleton_Some in He as [Hi0 <-]. cbn [timer_]. rewrite fn_lookup_insert.
      f_equal. lia.
  - cbn [s0 heap_]. split; intros i Hi Hk; pose proof (parent_spec i Hi) as Hp.
    + intros a b Ha Hb. assert (i < length (heap_ s))%nat as Hl.
      { apply lookup_lt_Some in Hb. rewrite length_app in Hb. cbn in Hb. lia. }
      rewrite lookup_app_l in Ha, Hb by lia. by eapply (Hok i).
    + intros _ a b _ Hb. apply lookup_lt_Some in Hb. rewrite length_app in Hb. cbn in Hb. lia.
  - cbn [s0 heap_]. rewrite length_app. cbn. lia.
  - lia.
  - exists s'. split; [done|]. split; [split; [apply Hr|done]|]. split.
    + rewrite (rearranged_perm _ _ Hr). cbn [s0 heap_]. by rewrite Permutation_app_comm.
    + intros u Hu Hus. rewrite (rearranged_frame _ _ Hr).
      * cbn [s0 heap_index_]. by rewrite fn_lookup_insert_ne.
      * unfold heap_timers. cbn [s0 heap_]. rewrite fmap_app.
        by intros [Hin|Hin%list_elem_of_singleton]%elem_of_app.
Qed.

Lemma lookup_removelast {A} (l : list A) i :
  (i < length l - 1)%nat → removelast l !! i = l !! i.
Proof.
  intros Hi. destruct l as [|x l] using rev_ind; [done|]. rewrite removelast_last.
  rewrite length_app in Hi. cbn in Hi. by rewrite lookup_app_l by lia.
Qed.

Lemma length_removelast {A} (l : list A) : length (removelast l) = (length l - 1)%nat.
Proof.
  destruct l as [|x l] using rev_ind; [done|]. rewrite removelast_last, length_app. cbn. lia.
Qed.

Lemma removelast_perm {A} (l : list A) x :
  l !! (length l - 1)%nat = Some x → l ≡ₚ x :: removelast l.
Proof.
  destruct l as [|y l] using rev_ind; [done|]. rewrite removelast_last, length_app. cbn.
  rewrite Nat.add_sub, lookup_app_r, Nat.sub_diag by lia. intros [= ->].
  by rewrite Permutation_app_comm.
Qed.

(** The indices of a heap whose last entry has been dropped. *)
Lemma pop_indexed s e :
  indexed s → heap_ s !! (length (heap_ s) - 1)%nat = Some e →
  indexed (pop_back (forget_index (timer_ e) s)) ∧
  timer_ e ∉ heap_timers (pop_back (forget_index (timer_ e) s)).
Proof.
  intros Hx He. assert (∀ i a, removelast (heap_ s) !! i = Some a →
    timer_ a ≠ timer_ e ∧ heap_index_ s (timer_ a) = Some i) as Hrl.
  { intros i a Ha. assert (i < length (heap_ s) - 1)%nat as Hi.
    { rewrite <- length_removelast. by eapply lookup_lt_Some. }
    rewrite lookup_removelast in Ha by done. pose proof (Hx i a Ha) as Ia. split; [|done].
    intros E. rewrite E, (Hx _ e He) in Ia. injection Ia as Ei. lia. }
  split.
  - intros i a Ha. cbn in Ha. destruct (Hrl i a Ha) as [Hne Ia]. cbn.
    by rewrite fn_lookup_insert_ne.
  - intros (a & Ea & Hin)%list_elem_of_fmap_1. cbn in Hin.
    apply list_elem_of_lookup_1 in Hin as [i Hi]. by destruct (Hrl i a Hi).
Qed.

(** The place of the removed entry is filled with the last one. *)
Lemma replaced_lookup h k i :
  (k < length h - 1)%nat → (i < length h - 1)%nat →
  removelast (exchange k (length h - 1) h) !! i =
    if decide (i = k) then h !! (length h - 1)%nat else h !! i.
Proof.
  intros Hk Hi. rewrite lookup_removelast by (by rewrite exchange_length).
  rewrite lookup_exchange by lia. by rewrite decide_False by lia.
Qed.

Lemma replaced_ordered h k i j :
  (k < length h - 1)%nat → i ≠ k → j ≠ k → ordered h i j →
  ordered (removelast (exchange k (length h - 1) h)) i j.
Proof.
  intros Hk Hi Hj Ho a b Ha Hb.
  pose proof (lookup_lt_Some _ _ _ Ha) as Hla. pose proof (lookup_lt_Some _ _ _ Hb) as Hlb.
  rewrite length_removelast, exchange_length in Hla, Hlb.
  rewrite replaced_lookup, decide_False in Ha by done.
  rewrite replaced_lookup, decide_False in Hb by done. by apply Ho.
Qed.

(** What lies below the place is no earlier than what lies above it. *)
Lemma replaced_around h k i :
  heap_ok h → (k < length h - 1)%nat → (0 < i)%nat → parent i = k → (0 < k)%nat →
  ordered (removelast (exchange k (length h - 1) h)) (parent k) i.
Proof.
  intros Hok Hk Hi Hp Hk0. pose proof (parent_spec i Hi). pose proof (parent_spec k Hk0).
  apply replaced_ordered; [done|lia|lia|].
  apply (ordered_trans h (parent k) k i ltac:(lia)); [by apply Hok|]. rewrite <- Hp. by apply Hok.
Qed.

Lemma replaced_up h k :
  heap_ok h → (k < length h - 1)%nat → (0 < k)%nat →
  let h' := removelast (exchange k (length h - 1) h) in
  ordered h' k (parent k) → up_ok h' k.
Proof.
  intros Hok Hk Hk0 h' Hlt. assert (length h' = length h - 1)%nat as Hl'.
  { unfold h'. by rewrite length_removelast, exchange_length. }
  pose proof (parent_spec k Hk0) as Hpk. split.
  - intros i Hi Hik. pose proof (parent_spec i Hi) as Hp.
    destruct (decide (parent i = k)) as [Ek|Ek].
    + rewrite Ek. apply (ordered_trans h' k (parent k) i); [lia|done|].
      by apply replaced_around.
    + apply replaced_ordered; [done..|]. by apply Hok.
  - intros i Hi Hp _. by apply replaced_around.
Qed.

Lemma replaced_down h k :
  heap_ok h → (k < length h - 1)%nat →
  let h' := removelast (exchange k (length h - 1) h) in
  ((0 < k)%nat → ordered h' (parent k) k) → down_ok h' k.
Proof.
  intros Hok Hk h' Hle. split.
  - intros i Hi Hp. destruct (decide (i = k)) as [->|Hik]; [by apply Hle|].
    apply replaced_ordered; [done..|]. by apply Hok.
  - intros i Hi Hp Hk0. by apply replaced_around.
Qed.

Lemma remove_from_heap_spec timer e k s :
  heap_wf s → heap_index_ s timer = Some k → heap_ s !! k = Some e → timer_ e = timer →
  ∃ s', remove_from_heap timer s = Some s' ∧ heap_wf s' ∧ heap_ s ≡ₚ e :: heap_ s' ∧
    heap_index_ s' timer = None ∧
    ∀ u, u ≠ timer → u ∉ heap_timers s → heap_index_ s' u = heap_index_ s u.
Proof.
  intros [Hx Hok] Hk He <-. unfold remove_from_heap. rewrite Hk.
  pose proof (lookup_lt_Some _ _ _ He) as Hlt.
  rewrite (proj2 (Nat.ltb_lt _ _) Hlt).
  destruct (Nat.eqb_spec k (length (heap_ s) - 1)) as [Ek|Ek].
  - subst k. destruct (pop_indexed s e Hx He) as [Hx' _]. eexists. split; [done|].
    split; [split; [done|]|].
    + intros i Hi a b Ha Hb. cbn [pop_back forget_index heap_] in *.
      pose proof (parent_spec i Hi). pose proof (lookup_lt_Some _ _ _ Hb) as Hl.
      rewrite length_removelast in Hl. rewrite lookup_removelast in Ha, Hb by lia.
      by eapply (Hok i).
    + split; [by apply removelast_perm|]. cbn. split; [by rewrite fn_lookup_insert|].
      intros u Hu _. by rewrite fn_lookup_insert_ne.
  - destruct (swap_heap_spec k (length (heap_ s) - 1) s Hx Hlt ltac:(lia) Ek) as (s1 & -> & Eh & Hr).
    cbn [mbind option_bind].
    assert (heap_ s1 !! (length (heap_ s1) - 1)%nat = Some e) as Hlast.
    { rewrite Eh, exchange_length, lookup_exchange by lia. by rewrite decide_True. }
    destruct (pop_indexed s1 e (rearranged_indexed _ _ Hr) Hlast) as [Hx2 Hn2].
    set (s2 := pop_back (forget_index (timer_ e) s1)) in *.
    assert (heap_ s2 = removelast (exchange k (length (heap_ s) - 1) (heap_ s))) as Eh2.
    { unfold s2. cbn. by rewrite Eh. }
    assert (length (heap_ s2) = length (heap_ s) - 1)%nat as El2.
    { by rewrite Eh2, length_removelast, exchange_length. }
    assert (k < length (heap_ s) - 1)%nat as Hk1 by lia.
    assert (∀ s', rearranged s2 s' → heap_ok (heap_ s') →
      heap_wf s' ∧ heap_ s ≡ₚ e :: heap_ s' ∧ heap_index_ s' (timer_ e) = None ∧
      ∀ u, u ≠ timer_ e → u ∉ heap_timers s → heap_index_ s' u = heap_index_ s u) as Hdone.
    { intros s' Hr' Hok'. split; [split; [apply Hr'|done]|].
      assert (heap_ s1 ≡ₚ e :: heap_ s2) as Hp2 by (by apply removelast_perm).
      split; [by rewrite (rearranged_perm _ _ Hr'), <- Hp2, (rearranged_perm _ _ Hr)|]. split.
      - rewrite (rearranged_frame _ _ Hr' _ Hn2). cbn. by rewrite fn_lookup_insert.
      - intros u Hu Hus.
        assert (u ∉ heap_timers s2) as Hu2.
        { intros Hin. apply Hus. unfold heap_timers in *.
          rewrite <- (rearranged_perm _ _ Hr), Hp2. cbn. by right. }
        rewrite (rearranged_frame _ _ Hr' _ Hu2). cbn. rewrite fn_lookup_insert_ne by done.
        by apply (rearranged_frame _ _ Hr). }
    destruct (Nat.ltb_spec 0 k) as [Hk0|Hk0].
    + pose proof (parent_spec k Hk0) as Hpk. fold (parent k).
      destruct (lookup_lt_is_Some_2 (heap_ s2) k) as [x Hx0]; [lia|].
      destruct (lookup_lt_is_Some_2 (heap_ s2) (parent k)) as [p Hp0]; [lia|].
      rewrite Hx0, Hp0. cbn [mbind option_bind]. destruct (less_than (time_ x) (time_ p)) eqn:El.
      * destruct (up_heap_spec (S k) k s2 Hx2) as (s' & E & Hr' & Hok'); [|lia|lia|eauto].
        rewrite Eh2. apply replaced_up; [done..|]. rewrite <- Eh2. intros a b Ha Hb. simplify_eq.
        by apply less_le.
      * destruct (down_heap_spec (S (length (heap_ s2))) k s2 Hx2) as (s' & E & Hr' & Hok');
          [|lia|lia|eauto].
        rewrite Eh2. apply replaced_down; [done..|]. intros _. rewrite <- Eh2. intros a b Ha Hb.
        simplify_eq. done.
    + destruct (down_heap_spec (S (length (heap_ s2))) k s2 Hx2) as (s' & E & Hr' & Hok');
        [|lia|lia|eauto].
      rewrite Eh2. apply replaced_down; [done..|]. lia.
Qed.
End heap_facts.

(** * The linked list *)

Definition before (l : list ptr) (i : nat) : option ptr :=
  match i with O => None | S j => l !! j end.

(** The pointers represent the list [l]. *)
Record list_wf (L : list_state) (l : list ptr) : Prop := mk_list_wf {
  list_nodup : NoDup l;
  list_head : timers_ L = l !! 0%nat;
  list_links i t : l !! i = Some t → next_ L t = l !! S i ∧ prev_ L t = before l i;
  list_outside t : t ∉ l → next_ L t = None ∧ prev_ L t = None
}.

Lemma is_active_spec L l t : list_wf L l → is_active t L = true ↔ t ∈ l.
Proof.
  intros [Hn Hh Hl Ho]. unfold is_active. rewrite orb_true_iff, negb_true_iff, bool_decide_eq_false,
    bool_decide_eq_true, Hh. split.
  - intros [Hp|Hp]; [|by eapply list_elem_of_lookup_2].
    destruct (decide (t ∈ l)) as [|Hni]; [done|]. by destruct (Ho t Hni).
  - intros [i Hi]%list_elem_of_lookup_1. destruct (Hl i t Hi) as [_ ->].
    destruct i as [|i]; [by right|left]. cbn. apply lookup_lt_Some in Hi.
    destruct (lookup_lt_is_Some_2 l i) as [x ->]; [lia|done].
Qed.

Lemma insert_list_wf L l t :
  list_wf L l → t ∉ l → list_wf (insert_list t L) (t :: l).
Proof.
  intros [Hn Hh Hl Ho] Ht. destruct (Ho t Ht) as [Hnt Hpt]. unfold insert_list. rewrite Hh.
  split; cbn [timers_ next_ prev_]; [by constructor|done|..].
  - intros [|i] u Hu; cbn in Hu.
    + injection Hu as <-. rewrite fn_lookup_insert. split; [done|]. cbn [before].
      destruct (l !! 0%nat) as [h|] eqn:Eh; [|by rewrite fn_lookup_insert].
      rewrite fn_lookup_insert_ne, fn_lookup_insert; [done|]. intros ->. apply Ht.
      by eapply list_elem_of_lookup_2.
    + assert (u ≠ t) as Hut by (intros ->; apply Ht; by eapply list_elem_of_lookup_2).
      destruct (Hl i u Hu) as [Hnx Hpv]. rewrite fn_lookup_insert_ne by done. split; [done|].
      destruct (l !! 0%nat) as [h|] eqn:Eh; [|by apply lookup_ge_None_1 in Eh; apply lookup_lt_Some in Hu; lia].
      destruct (decide (u = h)) as [->|Huh].
      * rewrite fn_lookup_insert. assert (i = 0%nat) as -> by (by eapply NoDup_lookup). done.
      * rewrite !fn_lookup_insert_ne by done. rewrite Hpv. destruct i; [|done].
        assert (l !! 0%nat = Some u) as Hu0 by exact Hu. congruence.
  - intros u [Hut Hul]%not_elem_of_cons. rewrite fn_lookup_insert_ne by done.
    destruct (Ho u Hul) as [-> Hpu]. split; [done|].
    destruct (l !! 0%nat) as [h|] eqn:Eh; [|by rewrite fn_lookup_insert_ne].
    rewrite !fn_lookup_insert_ne; [done|done|]. intros ->. apply Hul. by eapply list_elem_of_lookup_2.
Qed.

(** The list without its element at [k]. *)
Lemma lookup_delete_at (l : list ptr) k i :
  delete k l !! i = if decide (i < k)%nat then l !! i else l !! S i.
Proof.
  destruct (decide (i < k)%nat); [by apply list_lookup_delete_lt|].
  apply list_lookup_delete_ge. lia.
Qed.

Lemma before_delete (l : list ptr) k i :
  before (delete k l) i = if decide (i ≤ k)%nat then before l i else l !! i.
Proof.
  destruct i as [|i]; cbn; [by rewrite decide_True by lia|]. rewrite lookup_delete_at.
  destruct (decide (i < k)%nat), (decide (S i ≤ k)%nat); try lia; done.
Qed.

Lemma elem_of_delete (l : list ptr) k t u :
  NoDup l → l !! k = Some t → u ∈ delete k l ↔ u ∈ l ∧ u ≠ t.
Proof.
  intros Hn Hk. pose proof (delete_Permutation l k t Hk) as Hp. rewrite Hp in Hn.
  apply NoDup_cons in Hn as [Ht _].
  assert (u ∈ l ↔ u = t ∨ u ∈ delete k l) as -> by (rewrite <- elem_of_cons; by rewrite <- Hp).
  split.
  - intros Hu. split; [by right|]. by intros ->.
  - by intros [[->|Hu] Hne].
Qed.

Lemma remove_from_list_wf L l k t :
  list_wf L l → l !! k = Some t → list_wf (remove_from_list t L) (delete k l).
Proof.
  intros [Hn Hh Hl Ho] Hk. destruct (Hl k t Hk) as [Hnt Hpt].
  assert (∀ i j u, l !! i = Some u → l !! j = Some u → i = j) as Hinj.
  { intros i j u Hi Hj. by eapply NoDup_lookup. }
  unfold remove_from_list. rewrite Hpt, Hnt, Hh.
  set (nx := match before l k with Some p => _ | None => _ end).
  assert (∀ u, u ≠ t → nx u = if decide (before l k = Some u) then l !! S k else next_ L u) as Enx.
  { intros u Hu. unfold nx. destruct (before l k) as [p|]; [|by rewrite decide_False].
    destruct (decide (Some p = Some u)) as [[= ->]|Hne].
    - by rewrite fn_lookup_insert.
    - by rewrite fn_lookup_insert_ne by congruence. }
  assert (nx t = l !! S k) as Ent.
  { unfold nx. destruct (before l k) as [p|] eqn:Ep; [|done]. rewrite fn_lookup_insert_ne; [done|].
    intros <-. destruct k as [|k]; [done|]. cbn in Ep. pose proof (Hinj _ _ _ Ep Hk). lia. }
  rewrite Ent. set (pv := match l !! S k with Some n => _ | None => _ end).
  assert (∀ u, pv u = if decide (l !! S k = Some u) then before l k else prev_ L u) as Epv.
  { intros u. unfold pv. destruct (l !! S k) as [n|]; [|by rewrite decide_False].
    destruct (decide (Some n = Some u)) as [[= ->]|Hne].
    - by rewrite fn_lookup_insert.
    - by rewrite fn_lookup_insert_ne by congruence. }
  assert (∀ i u, delete k l !! i = Some u → u ≠ t) as Hne.
  { intros i u Hu ->. apply list_elem_of_lookup_2 in Hu. by apply (elem_of_delete l k t t Hn Hk) in Hu as [_ ?]. }
  split; cbn [timers_ next_ prev_].
  - pose proof (delete_Permutation l k t Hk) as Hp. rewrite Hp in Hn. by apply NoDup_cons in Hn as [_ ?].
  - rewrite lookup_delete_at. destruct k as [|k].
    + rewrite decide_False by lia. by rewrite bool_decide_eq_true_2.
    + rewrite decide_True by lia. rewrite bool_decide_eq_false_2; [done|].
      intros E. by pose proof (Hinj _ _ _ E Hk).
  - intros i u Hu. pose proof (Hne i u Hu) as Hut.
    rewrite !fn_lookup_insert_ne, Enx, Epv by done. rewrite lookup_delete_at, before_delete.
    rewrite lookup_delete_at in Hu. destruct (decide (i < k)%nat) as [Hi|Hi].
    + destruct (Hl i u Hu) as [-> ->].
      rewrite (decide_False (P := l !! S k = Some u)) by (intros E; pose proof (Hinj _ _ _ E Hu); lia).
      rewrite (decide_True (P := (i ≤ k)%nat)) by lia. split; [|done].
      destruct (decide (before l k = Some u)) as [E|E].
      * destruct k as [|k]; [done|]. cbn in E. pose proof (Hinj _ _ _ E Hu) as Ei. subst i.
        by rewrite decide_False by lia.
      * destruct (decide (S i < k)%nat); [done|]. destruct E. assert (k = S i) as -> by lia. done.
    + destruct (Hl (S i) u Hu) as [-> ->].
      rewrite (decide_False (P := before l k = Some u)).
      2: { intros E. destruct k as [|k]; [done|]. cbn in E. pose proof (Hinj _ _ _ E Hu). lia. }
      rewrite (decide_False (P := (S i < k)%nat)) by lia. split; [done|]. cbn [before].
      destruct (decide (l !! S k = Some u)) as [E|E].
      * pose proof (Hinj _ _ _ E Hu) as Ei. assert (i = k) as -> by lia. by rewrite decide_True by lia.
      * destruct (decide (i ≤ k)%nat); [|done]. destruct E. by assert (i = k) as -> by lia.
  - intros u Hu. rewrite (elem_of_delete l k t u Hn Hk) in Hu.
    destruct (decide (u = t)) as [->|Hut]; [by rewrite !fn_lookup_insert|].
    assert (u ∉ l) as Hul by tauto. destruct (Ho u Hul) as [Hnu Hpu].
    rewrite !fn_lookup_insert_ne, Enx, Epv by done.
    rewrite !decide_False; [done|..]; intros E; apply Hul.
    + by eapply list_elem_of_lookup_2.
    + destruct k as [|k]; [done|]. by eapply list_elem_of_lookup_2.
Qed.

(** * The queue *)

Section queue_facts.
  Context {time_type : Type} `{TimeOrder time_type}.
  Implicit Types (h : heap_state time_type) (q : timer_queue time_type) (L : list_state).

(** The heap and the list agree: only active timers are in the heap, and a
    timer that is not (because it is idle or never expires) has no index. *)
Record struct_wf h L (l : list ptr) : Prop := mk_struct_wf {
  wf_heap : heap_wf h;
  wf_list : list_wf L l;
  wf_entries t : t ∈ heap_timers h → t ∈ l;
  wf_index t : t ∉ heap_timers h → heap_index_ h t = None
}.

(** A timer is active exactly while operations wait on it. *)
Definition ops_wf (ops : ptr → list wait_op) (l : list ptr) : Prop :=
  ∀ t, t ∈ l ↔ ops t ≠ [].

Definition queue_wf q (l : list ptr) : Prop :=
  struct_wf (q_heap q) (q_list q) l ∧ ops_wf (op_queue_ q) l.

Lemma heap_entry_of h t :
  t ∈ heap_timers h → ∃ k e, heap_ h !! k = Some e ∧ timer_ e = t.
Proof.
  intros (e & -> & He)%list_elem_of_fmap_1. apply list_elem_of_lookup_1 in He as [k Hk]. eauto.
Qed.

(** No timer has two entries. *)
Lemma heap_timers_nodup h : indexed h → NoDup (heap_timers h).
Proof.
  intros Hx. apply NoDup_alt. intros i j t Hi Hj. unfold heap_timers in *.
  rewrite list_lookup_fmap in Hi, Hj. apply fmap_Some_1 in Hi as (a & Ha & ->).
  apply fmap_Some_1 in Hj as (b & Hb & E). pose proof (Hx i a Ha) as Ia. pose proof (Hx j b Hb) as Ib.
  congruence.
Qed.

(** The earliest entry is at the front. *)
Lemma heap_front_first (hp : list (heap_entry time_type)) e :
  heap_ok hp → hp !! 0%nat = Some e → ∀ e', e' ∈ hp → le (time_ e) (time_ e').
Proof.
  intros Hok He e' [i Hi]%list_elem_of_lookup_1. revert e' Hi.
  induction (lt_wf i) as [i _ IH]; intros e' Hi.
  destruct (decide (i = 0%nat)) as [->|Hi0]; [simplify_eq; apply le_refl|].
  assert (0 < i)%nat as Hip by lia. pose proof (parent_spec i Hip) as Hp.
  pose proof (lookup_lt_Some _ _ _ Hi) as Hl.
  destruct (lookup_lt_is_Some_2 hp (parent i)) as [p Hpe]; [lia|].
  eapply le_trans; [apply (IH (parent i)); [lia|done]|]. by apply (Hok i Hip).
Qed.

Lemma remove_timer_struct h L l k t :
  struct_wf h L l → l !! k = Some t →
  ∃ h', remove_from_heap t h = Some h' ∧ struct_wf h' (remove_from_list t L) (delete k l) ∧
    heap_index_ h' t = None ∧ ∃ own, heap_ h ≡ₚ own ++ heap_ h' ∧ (t ∉ heap_timers h') ∧
      Forall (λ e, timer_ e = t) own.
Proof.
  intros [Hh Hl He Hi] Hk. pose proof (remove_from_list_wf L l k t Hl Hk) as Hl'.
  pose proof (list_nodup _ _ Hl) as Hnd.
  assert (t ∈ l) as Htl by (by eapply list_elem_of_lookup_2).
  destruct (decide (t ∈ heap_timers h)) as [Hin|Hni].
  - destruct (heap_entry_of h t Hin) as (i & e & Hie & Ete).
    pose proof (proj1 Hh i e Hie) as Hix. rewrite Ete in Hix.
    destruct (remove_from_heap_spec t e i h Hh Hix Hie Ete) as (h' & Er & Hh' & Hp & Hn & Hfr).
    assert (heap_timers h ≡ₚ t :: heap_timers h') as Hpt.
    { unfold heap_timers. rewrite Hp. cbn. by rewrite Ete. }
    pose proof (heap_timers_nodup h (proj1 Hh)) as Hnh. rewrite Hpt in Hnh.
    apply NoDup_cons in Hnh as [Htn _].
    exists h'. split; [done|]. split; [split; try done|].
    + intros u Hu. apply (elem_of_delete l k t u Hnd Hk). split; [|by intros ->].
      apply He. rewrite Hpt. by right.
    + intros u Hu'. destruct (decide (u = t)) as [->|Hut]; [done|].
      assert (u ∉ heap_timers h) as Hu.
      { rewrite Hpt, elem_of_cons. tauto. }
      rewrite Hfr by done. by apply Hi.
    + split; [done|]. exists [e]. split; [done|]. split; [done|]. by constructor.
  - pose proof (Hi t Hni) as Hix. exists h. unfold remove_from_heap. rewrite Hix.
    split; [done|]. split; [split; try done|].
    + intros u Hu. apply (elem_of_delete l k t u Hnd Hk). split; [by apply He|]. by intros ->.
    + split; [done|]. exists []. split; [done|]. split; [done|]. constructor.
Qed.

(** [remove_timer] of an active timer whose operations have been taken. *)
Lemma remove_timer_wf q l k t :
  struct_wf (q_heap q) (q_list q) l → l !! k = Some t →
  op_queue_ q t = [] → (∀ u, u ≠ t → u ∈ l ↔ op_queue_ q u ≠ []) →
  ∃ q', remove_timer t q = Some q' ∧ queue_wf q' (delete k l) ∧ op_queue_ q' = op_queue_ q ∧
    heap_index_ (q_heap q') t = None ∧
    ∃ own, heap_ (q_heap q) ≡ₚ own ++ heap_ (q_heap q') ∧ (t ∉ heap_timers (q_heap q')) ∧
      Forall (λ e, timer_ e = t) own.
Proof.
  intros Hs Hk Ht Hu. pose proof (list_nodup _ _ (wf_list _ _ _ Hs)) as Hnd.
  destruct (remove_timer_struct _ _ _ _ _ Hs Hk) as (h' & E & Hs' & Hn & Hown).
  unfold remove_timer. rewrite E. cbn [mbind option_bind]. eexists. split; [done|].
  split; [split; [done|]|done]. intros u. cbn [op_queue_].
  rewrite (elem_of_delete l k t u Hnd Hk). destruct (decide (u = t)) as [->|Hne].
  - rewrite Ht. split; [tauto|done].
  - rewrite Hu by done. tauto.
Qed.

(** * Enqueueing *)

Lemma insert_struct h L l time t :
  struct_wf h L l → t ∉ l →
  ∃ h', (if is_positive_infinity time then Some (forget_index t h) else insert_heap time t h) = Some h' ∧
    struct_wf h' (insert_list t L) (t :: l) ∧
    heap_ h' ≡ₚ (if is_positive_infinity time then [] else [mk_entry time t]) ++ heap_ h.
Proof.
  intros [Hh Hl He Hi] Ht. pose proof (insert_list_wf L l t Hl Ht) as Hl'.
  assert (t ∉ heap_timers h) as Hth by (by intros Hc%He).
  destruct (is_positive_infinity time).
  - eexists. split; [done|]. split; [|done]. split; [..|done| |].
    + destruct Hh as [Hx Hok]. split; [|done]. intros i e Hie. cbn in *.
      rewrite fn_lookup_insert_ne; [by apply Hx|]. intros ->. apply Hth. by eapply heap_timers_lookup.
    + intros u Hu. right. by apply He.
    + intros u Hn. cbn. destruct (decide (u = t)) as [->|Hne]; [by rewrite fn_lookup_insert|].
      rewrite fn_lookup_insert_ne by done. by apply Hi.
  - destruct (insert_heap_spec time t h Hh Hth) as (h' & E & Hh' & Hp & Hfr).
    assert (heap_timers h' ≡ₚ t :: heap_timers h) as Hpt by (unfold heap_timers; by rewrite Hp).
    exists h'. split; [done|]. split; [|done]. split; [done|done|..].
    + intros u. rewrite Hpt, !elem_of_cons. intros [->|Hu]; [by left|right; by apply He].
    + intros u. rewrite Hpt, elem_of_cons. intros Hn. rewrite Hfr by tauto. apply Hi; tauto.
Qed.

Lemma enqueue_timer_spec q l time t op :
  queue_wf q l →
  ∃ b q' l', enqueue_timer time t op q = Some (b, q') ∧ queue_wf q' l' ∧
    (∀ u, u ∈ l' ↔ u = t ∨ u ∈ l) ∧
    (∀ u, op_queue_ q' u = if decide (u = t) then op_queue_ q t ++ [op] else op_queue_ q u) ∧
    heap_ (q_heap q') ≡ₚ
      (if decide (t ∈ l) then [] else if is_positive_infinity time then [] else [mk_entry time t])
      ++ heap_ (q_heap q).
Proof.
  intros [Hs Ho]. unfold enqueue_timer.
  pose proof (is_active_spec _ _ t (wf_list _ _ _ Hs)) as Hact.
  assert (∀ l', (∀ u, u ∈ l' ↔ u = t ∨ u ∈ l) →
    ops_wf (<[t := op_queue_ q t ++ [op]]> (op_queue_ q)) l') as Hops.
  { intros l' Hl' u. rewrite Hl'. destruct (decide (u = t)) as [->|Hne].
    - rewrite fn_lookup_insert. split; [by intros _ [_ [=]]%app_eq_nil|by left].
    - rewrite fn_lookup_insert_ne by done. rewrite <- (Ho u). tauto. }
  assert (∀ u, <[t := op_queue_ q t ++ [op]]> (op_queue_ q) u =
    if decide (u = t) then op_queue_ q t ++ [op] else op_queue_ q u) as Hq.
  { intros u. destruct (decide (u = t)) as [->|]; [by rewrite fn_lookup_insert|].
    by rewrite fn_lookup_insert_ne. }
  destruct (is_active t (q_list q)) eqn:Ea; cbn [negb].
  - assert (t ∈ l) as Htl by (by apply Hact). cbn [mbind option_bind].
    eexists _, _, l. split; [done|]. assert (∀ u, u ∈ l ↔ u = t ∨ u ∈ l) as Hiff.
    { intros u. split; [by right|]. by intros [->|]. }
    split; [split; [done|by apply Hops]|]. split; [done|]. split; [done|].
    cbn [q_heap]. by rewrite decide_True.
  - assert (t ∉ l) as Htl by (intros Hc%Hact; congruence).
    destruct (insert_struct _ _ _ time t Hs Htl) as (h' & -> & Hs' & Hp). cbn [mbind option_bind].
    eexists _, _, (t :: l). split; [done|].
    assert (∀ u, u ∈ t :: l ↔ u = t ∨ u ∈ l) as Hiff by (intros u; apply elem_of_cons).
    split; [split; [done|by apply Hops]|]. split; [done|]. split; [done|].
    cbn [q_heap]. by rewrite decide_False.
Qed.
(** * Expiry *)

Lemma own_single h h' own t e :
  indexed h → heap_ h ≡ₚ own ++ heap_ h' → t ∉ heap_timers h' →
  Forall (λ e, timer_ e = t) own → e ∈ heap_ h → timer_ e = t → own = [e].
Proof.
  intros Hx Hp Hn Ho He Et. pose proof (heap_timers_nodup h Hx) as Hnd. unfold heap_timers in *.
  rewrite Hp, elem_of_app in He. destruct He as [He|He].
  2: { destruct Hn. rewrite <- Et. by apply list_elem_of_fmap_2. }
  rewrite Hp, fmap_app in Hnd. apply NoDup_app in Hnd as (Hnd & _ & _).
  destruct own as [|a [|b own]]; [by apply elem_of_nil in He| |].
  - apply list_elem_of_singleton in He as ->. done.
  - apply Forall_cons in Ho as [Ha Ho]. apply Forall_cons in Ho as [Hb _].
    cbn in Hnd. apply NoDup_cons in Hnd as [Hna _]. destruct Hna. rewrite Ha, Hb. left.
Qed.

Lemma less_not_due (now t u : time_type) :
  less_than now t = true → le t u → less_than now u = true.
Proof.
  intros Hl Hle. destruct (less_than now u) eqn:E; [done|].
  pose proof (le_trans t u now Hle E) as Hc. unfold le in Hc. congruence.
Qed.

(** What the timers of [due] deliver. *)
Definition delivered (ops : ptr → list wait_op) (due : list (heap_entry time_type)) : list wait_op :=
  concat (map (λ e, map (set_ec no_error) (ops (timer_ e))) due).

Definition no_later (a b : heap_entry time_type) : Prop := le (time_ a) (time_ b).

(** [q'] is [q] without the entries [due], which are all that had expired. *)
Record expired (now : time_type) q (l : list ptr) (due : list (heap_entry time_type)) q' (l' : list ptr) : Prop :=
    mk_expired {
  expired_wf : queue_wf q' l';
  expired_heap : heap_ (q_heap q) ≡ₚ due ++ heap_ (q_heap q');
  expired_sorted : StronglySorted no_later due;
  expired_due : Forall (λ e, less_than now (time_ e) = false) due;
  expired_rest : Forall (λ e, less_than now (time_ e) = true) (heap_ (q_heap q'));
  expired_active t : t ∈ l' ↔ t ∈ l ∧ t ∉ timer_ <$> due;
  expired_ops t : op_queue_ q' t = if decide (t ∈ timer_ <$> due) then [] else op_queue_ q t
}.

Lemma expired_none now q l :
  queue_wf q l → Forall (λ e, less_than now (time_ e) = true) (heap_ (q_heap q)) →
  expired now q l [] q l.
Proof.
  intros Hw Hr. split; try done; try apply SSorted_nil; intros t; cbn.
  split; [|by intros [? _]]. intros Ht. split; [done|]. by intros ?%elem_of_nil.
Qed.

(** One timer expires, then others. *)
Lemma expired_cons now q l k e q1 due q' l' :
  queue_wf q l → e ∈ heap_ (q_heap q) → l !! k = Some (timer_ e) →
  (∀ e', e' ∈ heap_ (q_heap q) → le (time_ e) (time_ e')) → less_than now (time_ e) = false →
  heap_ (q_heap q) ≡ₚ e :: heap_ (q_heap q1) →
  op_queue_ q1 = <[timer_ e := []]> (op_queue_ q) →
  expired now q1 (delete k l) due q' l' → expired now q l (e :: due) q' l'.
Proof.
  intros [Hs Hops] He Hk Hmin Hnow Hp Hq1 [Hw Hh Hso Hdue Hrest Hact Hop].
  pose proof (list_nodup _ _ (wf_list _ _ _ Hs)) as Hnd.
  split; try done.
  - by rewrite Hp, Hh.
  - constructor; [done|]. apply Forall_forall. intros e' He'. apply Hmin. rewrite Hp, Hh.
    right. apply elem_of_app. by left.
  - by constructor.
  - intros t. rewrite Hact, (elem_of_delete l k _ t Hnd Hk). cbn. rewrite not_elem_of_cons. tauto.
  - intros t. rewrite Hop, Hq1. cbn [fmap list_fmap].
    destruct (decide (t ∈ timer_ <$> due)) as [Hin|Hni].
    + rewrite decide_True; [done|]. by right.
    + destruct (decide (t = timer_ e)) as [->|Hne].
      * rewrite fn_lookup_insert, decide_True; [done|]. left.
      * rewrite fn_lookup_insert_ne, decide_False; [done| |done]. by rewrite not_elem_of_cons.
Qed.

Lemma delivered_cons q e due :
  e.(timer_) ∉ timer_ <$> due →
  map (set_ec no_error) (op_queue_ q (timer_ e)) ++
    delivered (<[timer_ e := []]> (op_queue_ q)) due = delivered (op_queue_ q) (e :: due).
Proof.
  intros Hn. unfold delivered. cbn [map concat]. f_equal. f_equal. apply map_ext_in.
  intros a Ha. rewrite fn_lookup_insert_ne; [done|]. intros E. apply Hn. rewrite E.
  apply list_elem_of_fmap_2. by apply list_elem_of_In.
Qed.

Lemma get_ready_loop_spec fuel now ops q l :
  queue_wf q l → (length (heap_ (q_heap q)) < fuel)%nat →
  ∃ due q' l', get_ready_loop fuel now ops q = Some (ops ++ delivered (op_queue_ q) due, q') ∧
    expired now q l due q' l'.
Proof.
  revert ops q l. induction fuel as [|fuel IH]; intros ops q l Hw Hf; [lia|].
  cbn [get_ready_loop]. destruct (heap_ (q_heap q)) as [|e rest] eqn:Eh.
  { exists [], q, l. unfold delivered. cbn. rewrite app_nil_r. split; [done|].
    apply expired_none; [done|]. rewrite Eh. constructor. }
  pose proof Hw as [Hs Hops]. pose proof (wf_heap _ _ _ Hs) as [Hx Hok].
  assert (heap_ (q_heap q) !! 0%nat = Some e) as Hfront by (by rewrite Eh).
  pose proof (heap_front_first _ e Hok Hfront) as Hmin.
  assert (e ∈ heap_ (q_heap q)) as Hein by (by eapply list_elem_of_lookup_2).
  destruct (less_than now (time_ e)) eqn:El.
  { exists [], q, l. unfold delivered. cbn. rewrite app_nil_r. split; [done|].
    apply expired_none; [done|]. apply Forall_forall. intros e' He'.
    by eapply less_not_due, Hmin. }
  assert (timer_ e ∈ l) as Htl.
  { apply (wf_entries _ _ _ Hs). by eapply heap_timers_lookup. }
  apply list_elem_of_lookup_1 in Htl as [k Hk].
  destruct (remove_timer_wf (mk_queue (q_heap q) (q_list q) (<[timer_ e := []]> (op_queue_ q))) l k (timer_ e))
    as (q1 & -> & Hw1 & Hq1 & _ & own & Hown & Hno & Hft); cbn [q_heap q_list op_queue_] in *.
  { done. }
  { done. }
  { by rewrite fn_lookup_insert. }
  { intros u Hu. rewrite fn_lookup_insert_ne by done. apply Hops. }
  cbn [mbind option_bind].
  rewrite (own_single _ _ own (timer_ e) e Hx Hown Hno Hft Hein eq_refl) in Hown. cbn [app] in Hown.
  destruct (IH (ops ++ map (set_ec no_error) (op_queue_ q (timer_ e))) q1 (delete k l) Hw1)
    as (due & q' & l' & E & Hexp).
  { pose proof (Permutation_length Hown) as Hlen. rewrite Eh in Hlen. cbn in Hlen, Hf. lia. }
  exists (e :: due), q', l'. split; [|by eapply expired_cons].
  rewrite E, <- app_assoc. do 2 f_equal. f_equal. rewrite Hq1. apply delivered_cons.
  intros Hin. apply Hno. unfold heap_timers. rewrite (expired_heap _ _ _ _ _ _ Hexp), fmap_app.
  apply elem_of_app. by left.
Qed.
(** * Cancellation *)

(** The queue when [rest] is what still waits on [t]. *)
Definition with_ops (t : ptr) (rest : list wait_op) q : timer_queue time_type :=
  mk_queue (q_heap q) (q_list q) (<[t := rest]> (op_queue_ q)).

Lemma settle_spec q l t rest :
  queue_wf q l → t ∈ l →
  ∃ q' l', match rest with [] => remove_timer t (with_ops t rest q) | _ => Some (with_ops t rest q) end
    = Some q' ∧ queue_wf q' l' ∧ op_queue_ q' = <[t := rest]> (op_queue_ q) ∧
    ∀ u, u ∈ l' ↔ u ∈ l ∧ (u = t → rest ≠ []).
Proof.
  intros [Hs Hops] Ht. pose proof (list_nodup _ _ (wf_list _ _ _ Hs)) as Hnd. destruct rest as [|r rest].
  - apply list_elem_of_lookup_1 in Ht as [k Hk].
    destruct (remove_timer_wf (with_ops t [] q) l k t) as (q' & E & Hw' & Hq' & _); try done.
    { cbn. by rewrite fn_lookup_insert. }
    { intros u Hu. cbn. rewrite fn_lookup_insert_ne by done. apply Hops. }
    exists q', (delete k l). split; [done|]. split; [done|]. split; [by rewrite Hq'|].
    intros u. rewrite (elem_of_delete l k t u Hnd Hk). naive_solver.
  - eexists _, l. split; [done|]. split; [split; [done|]|].
    + intros u. cbn. destruct (decide (u = t)) as [->|Hne].
      * rewrite fn_lookup_insert. by split.
      * rewrite fn_lookup_insert_ne by done. apply Hops.
    + split; [done|]. intros u. by split; [|intros [? _]].
Qed.

(** An idle timer has nothing to cancel. *)
Lemma idle_ops q l t : queue_wf q l → is_active t (q_list q) = false → op_queue_ q t = [].
Proof.
  intros [Hs Hops] Ha. destruct (op_queue_ q t) as [|o os] eqn:E; [done|].
  assert (t ∈ l) as Ht by (apply Hops; by rewrite E).
  apply (is_active_spec _ _ t (wf_list _ _ _ Hs)) in Ht. congruence.
Qed.

Definition cancelled_count (max_cancelled : option nat) (n : nat) : nat :=
  match max_cancelled with Some m => Nat.min m n | None => n end.

Lemma cancel_timer_spec q l t m ops :
  queue_wf q l →
  let n := cancelled_count m (length (op_queue_ q t)) in
  ∃ q' l', cancel_timer t m ops q =
      Some (n, ops ++ map (set_ec operation_aborted) (take n (op_queue_ q t)), q') ∧
    queue_wf q' l' ∧
    (∀ u, op_queue_ q' u = if decide (u = t) then drop n (op_queue_ q t) else op_queue_ q u).
Proof.
  intros Hw n. unfold cancel_timer. destruct (is_active t (q_list q)) eqn:Ea.
  - fold (cancelled_count m (length (op_queue_ q t))). fold n. cbv zeta.
    pose proof Hw as [Hs _]. assert (t ∈ l) as Ht by (by apply (is_active_spec _ _ t (wf_list _ _ _ Hs))).
    destruct (settle_spec q l t (drop n (op_queue_ q t)) Hw Ht) as (q' & l' & E & Hw' & Hq' & _).
    unfold with_ops in E. exists q', l'. split; [|split; [done|]].
    + destruct (drop n (op_queue_ q t)) as [|r rest]; [by rewrite E|]. by injection E as <-.
    + intros u. rewrite Hq'. destruct (decide (u = t)) as [->|]; [by rewrite fn_lookup_insert|].
      by rewrite fn_lookup_insert_ne.
  - pose proof (idle_ops q l t Hw Ea) as E. subst n. rewrite E. exists q, l. unfold cancelled_count.
    cbn [length]. assert (match m with Some m => Nat.min m 0 | None => 0 end = 0)%nat as ->
      by (destruct m; lia). cbn. rewrite app_nil_r. split; [done|]. split; [done|].
    intros u. by destruct (decide (u = t)) as [->|].
Qed.

Lemma cancel_by_key_spec q l t key ops :
  queue_wf q l →
  ∃ q' l', cancel_timer_by_key t ops key q =
      Some (ops ++ map (set_ec operation_aborted) (List.filter (has_key key) (op_queue_ q t)), q') ∧
    queue_wf q' l' ∧
    (∀ u, op_queue_ q' u = if decide (u = t)
       then List.filter (λ op, negb (has_key key op)) (op_queue_ q t) else op_queue_ q u).
Proof.
  intros Hw. unfold cancel_timer_by_key. destruct (is_active t (q_list q)) eqn:Ea.
  - cbv zeta. set (rest := List.filter (λ op, negb (has_key key op)) (op_queue_ q t)).
    pose proof Hw as [Hs _]. assert (t ∈ l) as Ht by (by apply (is_active_spec _ _ t (wf_list _ _ _ Hs))).
    destruct (settle_spec q l t rest Hw Ht) as (q' & l' & E & Hw' & Hq' & _).
    unfold with_ops in E. exists q', l'. split; [|split; [done|]].
    + destruct rest as [|r rest]; [by rewrite E|]. by injection E as <-.
    + intros u. rewrite Hq'. destruct (decide (u = t)) as [->|]; [by rewrite fn_lookup_insert|].
      by rewrite fn_lookup_insert_ne.
  - pose proof (idle_ops q l t Hw Ea) as E. rewrite E. exists q, l. cbn. rewrite app_nil_r.
    split; [done|]. split; [done|]. intros u. by destruct (decide (u = t)) as [->|].
Qed.

(** * Shutting down *)

(** During the loop only the forward pointers are those of the list. *)
Definition chain_wf L (l : list ptr) : Prop :=
  NoDup l ∧ timers_ L = l !! 0%nat ∧ (∀ i t, l !! i = Some t → next_ L t = l !! S i) ∧
  (∀ t, t ∉ l → next_ L t = None ∧ prev_ L t = None).

Lemma get_all_loop_spec fuel ops q l :
  chain_wf (q_list q) l → ops_wf (op_queue_ q) l → (length l < fuel)%nat →
  ∃ q', get_all_loop fuel ops q = Some (ops ++ concat (map (op_queue_ q) l), q') ∧
    list_wf (q_list q') [] ∧ ops_wf (op_queue_ q') [].
Proof.
  revert ops q l. induction fuel as [|fuel IH]; intros ops q l (Hnd & Hh & Hl & Hout) Ho Hf; [lia|].
  cbn [get_all_loop]. rewrite Hh. destruct l as [|t l].
  { exists q. cbn. rewrite app_nil_r. split; [done|]. by split. }
  cbn [lookup list_lookup]. apply NoDup_cons in Hnd as [Htl Hnd].
  set (q1 := mk_queue _ _ _). destruct (IH (ops ++ op_queue_ q t) q1 l) as (q' & E & Hl' & Ho').
  - split; [done|]. cbn [q1 q_list timers_ next_ prev_]. split; [by apply (Hl 0%nat)|]. split.
    + intros i u Hu. assert (u ≠ t) as Hut by (intros ->; apply Htl; by eapply list_elem_of_lookup_2).
      rewrite fn_lookup_insert_ne by done. by apply (Hl (S i)).
    + intros u Hu. destruct (decide (u = t)) as [->|Hne]; [by rewrite !fn_lookup_insert|].
      rewrite !fn_lookup_insert_ne by done. apply Hout. by rewrite not_elem_of_cons.
  - intros u. cbn [q1 op_queue_]. destruct (decide (u = t)) as [->|Hne].
    + rewrite fn_lookup_insert. by split.
    + rewrite fn_lookup_insert_ne by done. rewrite <- (Ho u), elem_of_cons. tauto.
  - cbn in Hf. lia.
  - exists q'. split; [|done]. rewrite E, <- app_assoc. do 2 f_equal. f_equal. cbn [map concat].
    f_equal. f_equal. apply map_ext_in. intros u Hu. cbn [q1 op_queue_].
    rewrite fn_lookup_insert_ne; [done|]. intros ->. apply Htl. by apply list_elem_of_In.
Qed.

(** All operations are handed over; what is not reset is the index that each
    timer had in the heap. *)
Lemma get_all_timers_spec fuel ops q l :
  queue_wf q l → (length l < fuel)%nat →
  ∃ q', get_all_timers fuel ops q = Some (ops ++ concat (map (op_queue_ q) l), q') ∧
    heap_ (q_heap q') = [] ∧ list_wf (q_list q') [] ∧ ops_wf (op_queue_ q') [].
Proof.
  intros [Hs Ho] Hf. pose proof (wf_list _ _ _ Hs) as [Hn Hh Hl Hout].
  destruct (get_all_loop_spec fuel ops q l) as (q1 & E & Hl1 & Ho1); [|done|done|].
  { split; [done|]. split; [done|]. split; [|done]. intros i t Ht. by apply Hl. }
  unfold get_all_timers. rewrite E. cbn [mbind option_bind]. eexists. by split.
Qed.

(** * Moving a timer *)

(** The elements of a list with one replaced. *)
Lemma lookup_replaced (l : list ptr) k x i :
  (k < length l)%nat → <[k := x]> l !! i = if decide (i = k) then Some x else l !! i.
Proof.
  intros Hk. destruct (decide (i = k)) as [->|]; [by rewrite list_lookup_insert_eq|].
  by rewrite list_lookup_insert_ne.
Qed.

Lemma elem_of_replaced (l : list ptr) k s t u :
  NoDup l → l !! k = Some s → t ∉ l → u ∈ <[k := t]> l ↔ u = t ∨ (u ∈ l ∧ u ≠ s).
Proof.
  intros Hn Hk Ht. pose proof (lookup_lt_Some _ _ _ Hk) as Hlt. split.
  - intros [i Hi]%list_elem_of_lookup_1. rewrite lookup_replaced in Hi by done.
    destruct (decide (i = k)) as [->|Hne]; [left; congruence|right].
    split; [by eapply list_elem_of_lookup_2|]. intros ->.
    by pose proof (NoDup_lookup _ _ _ _ Hn Hi Hk).
  - intros [->|[Hu Hus]].
    + apply (list_elem_of_lookup_2 _ k). rewrite lookup_replaced by done. by rewrite decide_True.
    + apply list_elem_of_lookup_1 in Hu as [i Hi]. apply (list_elem_of_lookup_2 _ i).
      rewrite lookup_replaced by done. rewrite decide_False; [done|]. intros ->. congruence.
Qed.

Lemma nodup_replaced (l : list ptr) k s t :
  NoDup l → l !! k = Some s → t ∉ l → NoDup (<[k := t]> l).
Proof.
  intros Hn Hk Ht. pose proof (lookup_lt_Some _ _ _ Hk) as Hlt. apply NoDup_alt. intros i j u.
  rewrite !lookup_replaced by done.
  destruct (decide (i = k)) as [->|], (decide (j = k)) as [->|]; try done.
  - intros [= <-] Hj. destruct Ht. by eapply list_elem_of_lookup_2.
  - intros Hi [= <-]. destruct Ht. by eapply list_elem_of_lookup_2.
  - intros Hi Hj. by eapply NoDup_lookup.
Qed.
Lemma before_replaced (l : list ptr) k x i :
  (k < length l)%nat →
  before (<[k := x]> l) i = if decide (i = S k) then Some x else before l i.
Proof.
  intros Hk. destruct i as [|i]; cbn; [done|]. rewrite lookup_replaced by done.
  destruct (decide (i = k)) as [->|]; [by rewrite decide_True|]. by rewrite decide_False by lia.
Qed.

(** The pointers after a move. *)
Definition move_list (target source : ptr) L : list_state :=
  let head := if bool_decide (timers_ L = Some source) then Some target else timers_ L in
  let next := match prev_ L source with Some p => <[p := Some target]> (next_ L) | None => next_ L end in
  let prev := match next source with Some n => <[n := Some target]> (prev_ L) | None => prev_ L end in
  mk_list head (<[source := None]> (<[target := next source]> next))
    (<[source := None]> (<[target := prev source]> prev)).

Lemma move_list_active L l k t s :
  list_wf L l → l !! k = Some s → t ∉ l → list_wf (move_list t s L) (<[k := t]> l).
Proof.
  intros [Hn Hh Hl Ho] Hk Ht. destruct (Hl k s Hk) as [Hns Hps].
  pose proof (lookup_lt_Some _ _ _ Hk) as Hlt.
  assert (t ≠ s) as Hts by (intros ->; apply Ht; by eapply list_elem_of_lookup_2).
  assert (∀ i j u, l !! i = Some u → l !! j = Some u → i = j) as Hinj.
  { intros i j u Hi Hj. by eapply NoDup_lookup. }
  unfold move_list. rewrite Hps. set (nx := match before l k with Some p => _ | None => _ end).
  assert (∀ u, nx u = if decide (before l k = Some u) then Some t else next_ L u) as Enx.
  { intros u. unfold nx. destruct (before l k) as [p|]; [|by rewrite decide_False].
    destruct (decide (Some p = Some u)) as [[= ->]|Hne].
    - by rewrite fn_lookup_insert.
    - by rewrite fn_lookup_insert_ne by congruence. }
  assert (before l k ≠ Some s) as Hbs.
  { destruct k as [|k]; [done|]. cbn. intros E. pose proof (Hinj _ _ _ E Hk). lia. }
  assert (nx s = l !! S k) as Ens by (by rewrite Enx, decide_False).
  rewrite Ens. set (pv := match l !! S k with Some n => _ | None => _ end).
  assert (∀ u, pv u = if decide (l !! S k = Some u) then Some t else prev_ L u) as Epv.
  { intros u. unfold pv. destruct (l !! S k) as [n|]; [|by rewrite decide_False].
    destruct (decide (Some n = Some u)) as [[= ->]|Hne].
    - by rewrite fn_lookup_insert.
    - by rewrite fn_lookup_insert_ne by congruence. }
  assert (pv s = before l k) as Eps.
  { rewrite Epv, decide_False; [done|]. intros E. pose proof (Hinj _ _ _ E Hk). lia. }
  split; cbn [timers_ next_ prev_].
  - by eapply nodup_replaced.
  - rewrite lookup_replaced, Hh by done. destruct (decide (0%nat = k)) as [<-|Hk0].
    + by rewrite bool_decide_eq_true_2.
    + rewrite bool_decide_eq_false_2; [done|]. intros E. by pose proof (Hinj _ _ _ E Hk).
  - intros i u Hu. rewrite lookup_replaced in Hu by done. rewrite lookup_replaced, before_replaced by done.
    destruct (decide (i = k)) as [->|Hik].
    + injection Hu as <-. rewrite !(fn_lookup_insert_ne _ _ _ _ (not_eq_sym Hts)), !fn_lookup_insert, Eps.
      rewrite (decide_False (P := S k = k)), (decide_False (P := k = S k)) by lia. done.
    + assert (u ≠ t) as Hut by (intros ->; apply Ht; by eapply list_elem_of_lookup_2).
      assert (u ≠ s) as Hus by (intros ->; by pose proof (Hinj _ _ _ Hu Hk)).
      rewrite !fn_lookup_insert_ne, Enx, Epv by done. destruct (Hl i u Hu) as [-> ->]. split.
      * destruct (decide (before l k = Some u)) as [E|E].
        -- destruct k as [|k]; [done|]. cbn in E. pose proof (Hinj _ _ _ E Hu). subst i.
           by rewrite decide_True.
        -- rewrite decide_False; [done|]. intros <-. by apply E.
      * destruct (decide (l !! S k = Some u)) as [E|E].
        -- pose proof (Hinj _ _ _ E Hu). subst i. by rewrite decide_True.
        -- rewrite decide_False; [done|]. intros ->. done.
  - intros u Hu. rewrite (elem_of_replaced l k s t u Hn Hk Ht) in Hu.
    assert (u ≠ t) as Hut by tauto. destruct (decide (u = s)) as [->|Hus]; [by rewrite !fn_lookup_insert|].
    assert (u ∉ l) as Hul by tauto. rewrite !fn_lookup_insert_ne, Enx, Epv by done.
    destruct (Ho u Hul) as [-> ->].
    rewrite !decide_False; [done|..]; intros E; apply Hul.
    + by eapply list_elem_of_lookup_2.
    + destruct k as [|k]; [done|]. by eapply list_elem_of_lookup_2.
Qed.

Lemma move_list_idle L l t s :
  list_wf L l → s ∉ l → t ∉ l → list_wf (move_list t s L) l.
Proof.
  intros [Hn Hh Hl Ho] Hs Ht. destruct (Ho s Hs) as [Hns Hps]. unfold move_list. rewrite Hps, Hns, Hps.
  assert (∀ u, u ∈ l → u ≠ s ∧ u ≠ t) as Hne by (intros u Hu; by split; intros ->).
  split; cbn [timers_ next_ prev_]; [done|..].
  - rewrite bool_decide_eq_false_2; [done|]. rewrite Hh. intros E. apply Hs.
    by eapply list_elem_of_lookup_2.
  - intros i u Hu. destruct (Hne u) as [H1 H2]; [by eapply list_elem_of_lookup_2|].
    rewrite !fn_lookup_insert_ne by done. by apply Hl.
  - intros u Hu. destruct (decide (u = s)) as [->|Hus]; [by rewrite !fn_lookup_insert|].
    rewrite !(fn_lookup_insert_ne _ s) by done.
    destruct (decide (u = t)) as [->|Hut]; [by rewrite !fn_lookup_insert|].
    rewrite !fn_lookup_insert_ne by done. by apply Ho.
Qed.

(** The order of a heap is that of its times. *)
Lemma heap_ok_times (h1 h2 : list (heap_entry time_type)) :
  time_ <$> h1 = time_ <$> h2 → heap_ok h1 → heap_ok h2.
Proof.
  intros E Hok i Hi a b Ha Hb.
  assert (∀ j (x : heap_entry time_type), h2 !! j = Some x →
    ∃ y : heap_entry time_type, h1 !! j = Some y ∧ time_ y = time_ x) as Hl.
  { intros j x Hx. assert ((time_ <$> h1) !! j = Some (time_ x)) as Hj.
    { rewrite E, list_lookup_fmap, Hx. done. }
    rewrite list_lookup_fmap in Hj. apply fmap_Some_1 in Hj as (y & Hy & Ey). eauto. }
  destruct (Hl _ _ Ha) as (x & Hx & <-). destruct (Hl _ _ Hb) as (y & Hy & <-).
  by apply (Hok i Hi).
Qed.
(** The heap after a move. *)
Definition move_heap (target source : ptr) h : heap_state time_type :=
  mk_heap (retarget (heap_index_ h source) target (heap_ h))
    (<[source := None]> (<[target := heap_index_ h source]> (heap_index_ h))).

(** A source without an entry leaves the heap alone. *)
Lemma move_heap_none h L l t s l' :
  struct_wf h L l → s ∉ heap_timers h → t ∉ l →
  list_wf (move_list t s L) l' → (∀ u, u ∈ l → u ≠ s → u ∈ l') → struct_wf (move_heap t s h) (move_list t s L) l'.
Proof.
  intros [[Hx Hok] Hl He Hi] Hsn Ht Hl' Hsup. pose proof (Hi s Hsn) as Hs. unfold move_heap. rewrite Hs. cbn [retarget].
  assert (∀ u, u ∈ heap_timers h → u ≠ s ∧ u ≠ t) as Hne.
  { intros u Hu. split; intros ->; [done|]. by apply Ht, He. }
  split; [split|done|..].
  - intros i e Hie. cbn [heap_ heap_index_] in *.
    destruct (Hne (timer_ e)) as [H1 H2]; [by eapply heap_timers_lookup|].
    rewrite !fn_lookup_insert_ne by done. by apply Hx.
  - done.
  - intros u Hu. apply Hsup; [by apply He|]. by apply Hne.
  - intros u Hn. cbn [heap_index_]. destruct (decide (u = s)) as [->|Hus]; [by rewrite fn_lookup_insert|].
    rewrite fn_lookup_insert_ne by done.
    destruct (decide (u = t)) as [->|Hut]; [by rewrite fn_lookup_insert|].
    rewrite fn_lookup_insert_ne by done. by apply Hi.
Qed.

(** A source with an entry has it renamed. *)
Lemma move_heap_some h L l k i e t s :
  struct_wf h L l → l !! k = Some s → t ∉ l → heap_ h !! i = Some e → timer_ e = s →
  struct_wf (move_heap t s h) (move_list t s L) (<[k := t]> l).
Proof.
  intros [[Hx Hok] Hl He Hi] Hk Ht Hie Es.
  pose proof (list_nodup _ _ Hl) as Hnd. pose proof (lookup_lt_Some _ _ _ Hie) as Hlt.
  pose proof (Hx i e Hie) as Hix. rewrite Es in Hix. unfold move_heap. rewrite Hix. cbn [retarget].
  rewrite Hie. assert (t ∉ heap_timers h) as Hth by (by intros Hc%He).
  assert (∀ j a, <[i := mk_entry (time_ e) t]> (heap_ h) !! j = Some a →
    (j = i ∧ a = mk_entry (time_ e) t) ∨
    (j ≠ i ∧ heap_ h !! j = Some a ∧ timer_ a ≠ s ∧ timer_ a ≠ t)) as Hnew.
  { intros j a Hj. apply list_lookup_insert_Some in Hj as [(-> & <- & _)|(Hne & Hj)]; [by left|right].
    split; [done|]. split; [done|]. split.
    - intros E. pose proof (Hx j a Hj) as Hja. rewrite E, Hix in Hja. congruence.
    - intros E. apply Hth. rewrite <- E. by eapply heap_timers_lookup. }
  split; [split|by apply move_list_active|..]; cbn [heap_ heap_index_].
  - intros j a Hj. cbn [heap_ heap_index_] in *.
    destruct (Hnew j a Hj) as [(-> & ->)|(Hne & Hj' & Hns & Hnt)]; cbn [timer_].
    + rewrite fn_lookup_insert_ne, fn_lookup_insert; [done|]. intros ->. apply Ht.
      by eapply list_elem_of_lookup_2.
    + rewrite !fn_lookup_insert_ne by done. by apply Hx.
  - eapply heap_ok_times; [|exact Hok]. rewrite list_fmap_insert. cbn [time_]. symmetry.
    apply list_insert_id. by rewrite list_lookup_fmap, Hie.
  - intros u (a & -> & Ha)%list_elem_of_fmap_1. apply list_elem_of_lookup_1 in Ha as [j Hj].
    apply (elem_of_replaced l k s t _ Hnd Hk Ht).
    destruct (Hnew j a Hj) as [(-> & ->)|(Hne & Hj' & Hns & Hnt)]; [by left|right].
    split; [|done]. apply He. by eapply heap_timers_lookup.
  - intros u Hn. destruct (decide (u = s)) as [->|Hus]; [by rewrite fn_lookup_insert|].
    rewrite fn_lookup_insert_ne by done. destruct (decide (u = t)) as [->|Hut].
    + destruct Hn. apply list_elem_of_fmap. exists (mk_entry (time_ e) t). split; [done|].
      apply (list_elem_of_lookup_2 _ i). cbn [heap_]. by rewrite list_lookup_insert_eq.
    + rewrite fn_lookup_insert_ne by done. apply Hi. intros Hin. apply Hn.
      destruct (heap_entry_of h u Hin) as (j & a & Hj & <-). apply list_elem_of_fmap.
      exists a. split; [done|]. apply (list_elem_of_lookup_2 _ j). cbn [heap_].
      rewrite list_lookup_insert_ne; [done|]. intros <-. congruence.
Qed.

(** Moving a timer to an idle one. *)
Lemma move_timer_spec q l t s :
  queue_wf q l → t ∉ l → t ≠ s →
  ∃ l', queue_wf (move_timer t s q) l' ∧
    (∀ u, op_queue_ (move_timer t s q) u =
       if decide (u = s) then [] else if decide (u = t) then op_queue_ q s else op_queue_ q u) ∧
    time_ <$> heap_ (q_heap (move_timer t s q)) = time_ <$> heap_ (q_heap q).
Proof.
  intros [Hs Ho] Ht Hts.
  assert (∀ u, op_queue_ (move_timer t s q) u =
    if decide (u = s) then [] else if decide (u = t) then op_queue_ q s else op_queue_ q u) as Hop.
  { intros u. unfold move_timer. cbn [op_queue_].
    assert (op_queue_ q t = []) as ->.
    { destruct (op_queue_ q t) eqn:E; [done|]. destruct Ht. apply Ho. by rewrite E. }
    destruct (decide (u = s)) as [->|Hus]; [by rewrite fn_lookup_insert|].
    rewrite fn_lookup_insert_ne by done. destruct (decide (u = t)) as [->|Hut].
    - by rewrite fn_lookup_insert.
    - by rewrite fn_lookup_insert_ne. }
  assert (∀ l', (∀ u, u ∈ l' ↔ (u = t ∧ s ∈ l) ∨ (u ∈ l ∧ u ≠ s)) →
    ops_wf (op_queue_ (move_timer t s q)) l') as Hops.
  { intros l' Hl' u. rewrite Hl', Hop. destruct (decide (u = s)) as [->|Hus].
    { split; [|done]. by intros [[-> _]|[_ ?]]. }
    destruct (decide (u = t)) as [->|Hut].
    - rewrite <- (Ho s). split; [by intros [[_ ?]|[? _]]|by left].
    - rewrite <- (Ho u). split; [by intros [[? _]|[? _]]|by right]. }
  pose proof (list_nodup _ _ (wf_list _ _ _ Hs)) as Hnd.
  assert (q_list (move_timer t s q) = move_list t s (q_list q)) as El by done.
  assert (q_heap (move_timer t s q) = move_heap t s (q_heap q)) as Eh by done.
  assert (time_ <$> heap_ (q_heap (move_timer t s q)) = time_ <$> heap_ (q_heap q)) as Htm.
  { rewrite Eh. unfold move_heap. cbn [heap_]. destruct (heap_index_ (q_heap q) s) as [i|]; cbn; [|done].
    destruct (heap_ (q_heap q) !! i) as [e|] eqn:Ee; [|done]. rewrite list_fmap_insert. cbn [time_].
    apply list_insert_id. by rewrite list_lookup_fmap, Ee. }
  destruct (decide (s ∈ l)) as [Hin|Hni].
  - apply list_elem_of_lookup_1 in Hin as [k Hk]. exists (<[k := t]> l). split; [split|done].
    + rewrite El, Eh. destruct (decide (s ∈ heap_timers (q_heap q))) as [Hh|Hh].
      * destruct (heap_entry_of _ _ Hh) as (i & e & Hie & Ee). by eapply move_heap_some.
      * apply (move_heap_none _ _ l); [done|done|done|by eapply move_list_active; [apply Hs|..]|..].
        intros u Hu Hne. apply (elem_of_replaced l k s t _ Hnd Hk Ht). by right.
    + apply Hops. intros u. rewrite (elem_of_replaced l k s t _ Hnd Hk Ht).
      assert (s ∈ l) by (by eapply list_elem_of_lookup_2). tauto.
  - exists l. split; [split|done].
    + rewrite El, Eh. apply (move_heap_none _ _ l); [done| |done|by apply move_list_idle; [apply Hs|..]|..].
      * intros Hc. by apply Hni, (wf_entries _ _ _ Hs).
      * auto.
    + apply Hops. intros u. split; [|by intros [[_ ?]|[? _]]]. intros Hu. right. split; [done|].
      by intros ->.
Qed.

(** * Conservation of operations *)

(** The operations that wait, timer by timer. *)
Definition waiting (ops : ptr → list wait_op) (l : list ptr) : list wait_op := concat (map ops l).

Lemma waiting_perm ops l1 l2 : l1 ≡ₚ l2 → waiting ops l1 ≡ₚ waiting ops l2.
Proof.
  unfold waiting. induction 1 as [|x l1 l2 _ IH|x y l|]; cbn; [done|by rewrite IH| |by etrans].
  by rewrite !app_assoc, (Permutation_app_comm (ops x)).
Qed.

Lemma waiting_app ops l1 l2 : waiting ops (l1 ++ l2) = waiting ops l1 ++ waiting ops l2.
Proof. unfold waiting. by rewrite map_app, concat_app. Qed.

Lemma waiting_ext ops ops' l : (∀ t, t ∈ l → ops t = ops' t) → waiting ops l = waiting ops' l.
Proof.
  intros E. unfold waiting. f_equal. apply map_ext_in. intros t Ht. apply E. by apply list_elem_of_In.
Qed.

(** Idle timers add nothing. *)
Lemma waiting_superset ops l u :
  ops_wf ops l → NoDup l → NoDup u → (∀ t, t ∈ l → t ∈ u) → waiting ops u ≡ₚ waiting ops l.
Proof.
  intros Ho Hl Hu Hsub. trans (waiting ops (filter (λ t, t ∈ l) u)).
  - clear Hu Hsub. induction u as [|t u IH]; [done|]. rewrite filter_cons.
    destruct (decide (t ∈ l)) as [Ht|Ht]; unfold waiting in *; cbn [map concat].
    + by rewrite IH.
    + assert (ops t = []) as ->; [|done]. destruct (ops t) eqn:E; [done|].
      destruct Ht. apply Ho. by rewrite E.
  - apply waiting_perm. apply NoDup_Permutation; [by apply NoDup_filter|done|].
    intros t. rewrite list_elem_of_filter. split; [by intros [? _]|auto].
Qed.

(** The operations of one timer among all. *)
Definition others (l : list ptr) (t : ptr) : list ptr := filter (λ u, u ≠ t) l.

Lemma others_nodup l t : NoDup l → NoDup (t :: others l t).
Proof.
  intros Hl. constructor; [|by apply NoDup_filter]. unfold others. rewrite list_elem_of_filter. by intros [? _].
Qed.

Lemma waiting_at ops l t :
  ops_wf ops l → NoDup l → waiting ops l ≡ₚ ops t ++ waiting ops (others l t).
Proof.
  intros Ho Hl. symmetry. apply (waiting_superset ops l (t :: others l t)); [done|done|by apply others_nodup|].
  intros u Hu. rewrite elem_of_cons. destruct (decide (u = t)); [by left|right].
  by apply list_elem_of_filter.
Qed.

(** A change of one timer's operations. *)
Lemma waiting_change ops ops' l l' t :
  ops_wf ops l → ops_wf ops' l' → NoDup l → NoDup l' → (∀ u, u ≠ t → ops' u = ops u) →
  ∃ rest, waiting ops l ≡ₚ ops t ++ rest ∧ waiting ops' l' ≡ₚ ops' t ++ rest.
Proof.
  intros Ho Ho' Hl Hl' E. exists (waiting ops (others l t)). split; [by apply waiting_at|].
  rewrite (waiting_at ops' l' t) by done. f_equiv.
  rewrite (waiting_ext ops' ops (others l' t)).
  2: { intros u [Hu _]%list_elem_of_filter. by apply E. }
  apply waiting_perm, NoDup_Permutation; [by apply NoDup_filter..|].
  intros u. unfold others. rewrite !list_elem_of_filter. split; intros [Hne Hu]; (split; [done|]).
  - apply Ho. rewrite <- E by done. by apply Ho'.
  - apply Ho'. rewrite E by done. by apply Ho.
Qed.

Lemma filter_partition (f : wait_op → bool) l :
  l ≡ₚ List.filter f l ++ List.filter (λ o, negb (f o)) l.
Proof.
  induction l as [|o l IH]; cbn; [done|]. destruct (f o); cbn; rewrite IH at 1; [done|].
  by rewrite Permutation_middle.
Qed.

(** A move renames the timer its operations wait on. *)
Lemma waiting_move ops ops' l l' t s :
  ops_wf ops l → ops_wf ops' l' → NoDup l → NoDup l' → t ≠ s → ops t = [] →
  (∀ u, ops' u = if decide (u = s) then [] else if decide (u = t) then ops s else ops u) →
  waiting ops l ≡ₚ waiting ops' l'.
Proof.
  intros Ho Ho' Hl Hl' Hts Ht E. set (rest := filter (λ u, u ≠ t ∧ u ≠ s) l).
  assert (NoDup (t :: s :: rest)) as Hnd.
  { repeat constructor; [| |by apply NoDup_filter].
    - rewrite elem_of_cons. unfold rest. rewrite list_elem_of_filter. tauto.
    - unfold rest. rewrite list_elem_of_filter. tauto. }
  rewrite <- (waiting_superset ops l (t :: s :: rest)), <- (waiting_superset ops' l' (t :: s :: rest)); try done.
  - unfold waiting. cbn [map concat]. rewrite !E, Ht, decide_False, decide_True, decide_True by done.
    cbn [app]. f_equiv. fold (waiting ops rest). fold (waiting ops' rest).
    rewrite (waiting_ext ops ops'); [done|]. intros u [[H1 H2] _]%list_elem_of_filter.
    by rewrite E, !decide_False.
  - intros u Hu. rewrite !elem_of_cons. destruct (decide (u = t)); [by left|].
    destruct (decide (u = s)); [by right; left|]. right; right. apply list_elem_of_filter.
    split; [done|]. apply Ho. apply Ho' in Hu. rewrite E, !decide_False in Hu by done. done.
  - intros u Hu. rewrite !elem_of_cons. destruct (decide (u = t)); [by left|].
    destruct (decide (u = s)); [by right; left|]. right; right. by apply list_elem_of_filter.
Qed.

Lemma queue_nodup q l : queue_wf q l → NoDup l.
Proof. intros [Hs _]. apply (list_nodup _ _ (wf_list _ _ _ Hs)). Qed.

(** Expired timers hand over their operations. *)
Lemma waiting_expired now q l due q' l' :
  queue_wf q l → NoDup (timer_ <$> due) → (∀ e, e ∈ due → timer_ e ∈ l) →
  expired now q l due q' l' →
  op_id <$> waiting (op_queue_ q) l ≡ₚ
    (op_id <$> delivered (op_queue_ q) due) ++ (op_id <$> waiting (op_queue_ q') l').
Proof.
  intros Hw Hnd Hdl [Hw' Hh Hso Hdue Hrest Hact Hop].
  assert (l ≡ₚ (timer_ <$> due) ++ l') as Hl.
  { apply NoDup_Permutation; [by eapply queue_nodup| |].
    - apply NoDup_app. split; [done|]. split; [|by eapply queue_nodup].
      intros t Ht Ht'. by apply Hact in Ht' as [_ ?].
    - intros t. rewrite elem_of_app, Hact. destruct (decide (t ∈ timer_ <$> due)) as [Hin|Hni]; [|tauto].
      split; [tauto|]. intros _. apply list_elem_of_fmap_1 in Hin as (e & -> & He). by apply Hdl. }
  rewrite (waiting_perm _ _ _ Hl), waiting_app, fmap_app. f_equiv.
  - unfold waiting, delivered. clear. induction due as [|e due IH]; cbn [map concat fmap list_fmap]; [done|].
    rewrite !fmap_app. f_equiv; [|done]. by rewrite <- list_fmap_compose.
  - apply Permutation_map. rewrite (waiting_ext (op_queue_ q) (op_queue_ q')); [done|].
    intros t Ht. rewrite Hop, decide_False; [done|]. by apply Hact in Ht as [_ ?].
Qed.
End queue_facts.
