(* ===== verification/TimerWait.v ===== *)
(** How long Asio's reactor sleeps: [chrono_time_traits], the durations of a
    [timer_queue] and of a [timer_queue_set], and the timeouts that the epoll
    reactor computes from them.

    Times and durations are counts of clock ticks, 64-bit signed integers;
    [None] stands for a signed overflow.  The queues of a set are listed in the
    order of the links, each with the time its own clock shows. *)

From S2P Require Import Prelude TimerQueue TimerQueueFacts.

Definition time_max : Z := 2 ^ 63 - 1.
Definition time_min : Z := - 2 ^ 63.

(** The result of an arithmetic operation on [int64_t]. *)
Definition checked (z : Z) : option Z :=
  if (time_min <=? z) && (z <=? time_max) then Some z else None.

(** * chrono_time_traits *)

Module chrono_time_traits.

Definition add (t d : Z) : option Z :=
  if 0 <=? t then
    room ← checked (time_max - t);
    if room <? d then Some time_max else checked (t + d)
  else
    room ← checked (t - time_min);
    low ← checked (- room);
    if d <? low then Some time_min else checked (t + d).

Definition subtract (t1 t2 : Z) : option Z :=
  if 0 <=? t1 then
    if 0 <=? t2 then checked (t1 - t2)
    else if t2 =? time_min then Some time_max
    else
      room ← checked (time_max - t1);
      neg ← checked (0 - t2);
      if room <? neg then Some time_max else checked (t1 - t2)
  else
    if t2 <? 0 then checked (t1 - t2)
    else if t1 =? time_min then Some time_min
    else
      room ← checked (time_max - t2);
      neg ← checked (0 - t1);
      if room <? neg then Some time_min
      else diff ← checked (t2 - t1); checked (- diff).

(** The template is instantiated at compile time. *)
Fixpoint gcd (fuel : nat) (v1 v2 : Z) : option Z :=
  match fuel with
  | O => None
  | S fuel' => if v2 =? 0 then Some v1 else gcd fuel' v2 (Z.rem v1 v2)
  end.

(** Two rounds halve the second argument, which has 63 bits. *)
Definition gcd_depth : nat := 129.

(** The clock's period, a fraction of a second. *)
Record period_type : Type := mk_period {
  num : Z;
  den : Z
}.

Definition duration_cast (period : period_type) (Num Den : Z) (ticks : Z) : option Z :=
  gn ← gcd gcd_depth (num period) Num;
  gd ← gcd gcd_depth (den period) Den;
  let num1 := Z.quot (num period) gn in
  let num2 := Z.quot Num gn in
  let den1 := Z.quot (den period) gd in
  let den2 := Z.quot Den gd in
  n ← checked (num1 * den2);
  d ← checked (num2 * den1);
  if (n =? 1) && (d =? 1) then Some ticks
  else if negb (n =? 1) && (d =? 1) then checked (ticks * n)
  else if (n =? 1) && negb (den period =? 1) then Some (Z.quot ticks d)
  else p ← checked (ticks * n); Some (Z.quot p d).

Definition total_seconds (period : period_type) : Z → option Z := duration_cast period 1 1.
Definition total_milliseconds (period : period_type) : Z → option Z := duration_cast period 1 1000.
Definition total_microseconds (period : period_type) : Z → option Z := duration_cast period 1 1000000.

(** [std::chrono::nanoseconds], in which the clocks of libstdc++ count. *)
Definition nano : period_type := mk_period 1 1000000000.
End chrono_time_traits.

Import chrono_time_traits.

(** * Wait durations *)

(** [to_wait_duration] of the default [wait_traits] is the identity. *)
Definition to_msec (period : period_type) (d max_duration : Z) : option Z :=
  if d <=? 0 then Some 0
  else
    msec ← total_milliseconds period d;
    if msec =? 0 then Some 1
    else if max_duration <? msec then Some max_duration
    else Some msec.

Definition to_usec (period : period_type) (d max_duration : Z) : option Z :=
  if d <=? 0 then Some 0
  else
    usec ← total_microseconds period d;
    if usec =? 0 then Some 1
    else if max_duration <? usec then Some max_duration
    else Some usec.

(** The duration until the front of the heap, by one of the functions above. *)
Definition wait_duration (to_units : Z → Z → option Z) (now max_duration : Z) (q : timer_queue Z) :
    option Z :=
  match heap_ (q_heap q) with
  | [] => Some max_duration
  | e :: _ => d ← subtract (time_ e) now; to_units d max_duration
  end.

Definition wait_duration_msec (period : period_type) : Z → Z → timer_queue Z → option Z :=
  wait_duration (to_msec period).
Definition wait_duration_usec (period : period_type) : Z → Z → timer_queue Z → option Z :=
  wait_duration (to_usec period).

(** * timer_queue_set *)

Module timer_queue_set.

(** A queue: its address, what its clock shows, its state. *)
Record member : Type := mk_member {
  self : ptr;
  now : Z;
  queue : timer_queue Z
}.

Definition queues : Type := list member.

Definition insert (q : member) (s : queues) : queues := q :: s.

Fixpoint erase (q : ptr) (s : queues) : queues :=
  match s with
  | [] => []
  | p :: s => if (self p =? q)%nat then s else p :: erase q s
  end.

Definition all_empty (s : queues) : bool := forallb (λ p, empty (queue p)) s.

(** The loop of the two functions below. *)
Fixpoint wait_durations (f : Z → Z → timer_queue Z → option Z) (s : queues) (min_duration : Z) :
    option Z :=
  match s with
  | [] => Some min_duration
  | p :: s => m ← f (now p) min_duration (queue p); wait_durations f s m
  end.

Definition wait_duration_msec (period : period_type) : queues → Z → option Z :=
  wait_durations (wait_duration_msec period).
Definition wait_duration_usec (period : period_type) : queues → Z → option Z :=
  wait_durations (wait_duration_usec period).

Fixpoint get_ready_timers (ops : list wait_op) (s : queues) : option (list wait_op * queues) :=
  match s with
  | [] => Some (ops, [])
  | p :: s =>
      '(ops, q) ← TimerQueue.get_ready_timers (now p) ops (queue p);
      '(ops, s) ← get_ready_timers ops s;
      Some (ops, mk_member (self p) (now p) q :: s)
  end.

(** [fuel] is more than the number of active timers of each queue. *)
Fixpoint get_all_timers (fuel : nat) (ops : list wait_op) (s : queues) :
    option (list wait_op * queues) :=
  match s with
  | [] => Some (ops, [])
  | p :: s =>
      '(ops, q) ← TimerQueue.get_all_timers fuel ops (queue p);
      '(ops, s) ← get_all_timers fuel ops s;
      Some (ops, mk_member (self p) (now p) q :: s)
  end.
End timer_queue_set.

(** * epoll_reactor::get_timeout *)

Definition max_msec : Z := 5 * 60 * 1000.

(** The timeout of [epoll_wait]. *)
Definition get_timeout_msec (period : period_type) (s : timer_queue_set.queues) (msec : Z) : option Z :=
  timer_queue_set.wait_duration_msec period s
    (if (msec <? 0) || (max_msec <? msec) then max_msec else msec).

Record itimerspec : Type := mk_itimerspec {
  tv_sec : Z;
  tv_nsec : Z;
  tfd_timer_abstime : bool
}.

(** What the timer descriptor is armed with; the last field is the flag that is
    returned.  The value (0, 0) would disarm it. *)
Definition get_timeout (period : period_type) (s : timer_queue_set.queues) : option itimerspec :=
  usec ← timer_queue_set.wait_duration_usec period s (5 * 60 * 1000 * 1000);
  Some (mk_itimerspec (Z.quot usec 1000000)
          (if usec =? 0 then 1 else Z.rem usec 1000000 * 1000) (usec =? 0)).

(** * Facts *)

Definition is_int64 (z : Z) : Prop := time_min ≤ z ≤ time_max.

Lemma int64_checked z : is_int64 z → checked z = Some z.
Proof.
  intros [H1 H2]. unfold checked. by rewrite (proj2 (Z.leb_le _ _) H1), (proj2 (Z.leb_le _ _) H2).
Qed.

Ltac int64 := unfold is_int64, time_min, time_max in *; lia.

Ltac checked_steps :=
  repeat match goal with
  | |- context [checked ?z] => rewrite (int64_checked z) by int64; cbn [mbind option_bind]
  | |- context [?a <=? ?b] => destruct (Z.leb_spec a b)
  | |- context [?a <? ?b] => destruct (Z.ltb_spec a b)
  | |- context [?a =? ?b] => destruct (Z.eqb_spec a b)
  end.

Definition saturate (z : Z) : Z := Z.max time_min (Z.min time_max z).

(** The sum and the difference saturate; no step on the way overflows. *)
Lemma add_saturates t d : is_int64 t → is_int64 d → add t d = Some (saturate (t + d)).
Proof.
  intros Ht Hd. unfold add, saturate. checked_steps; f_equal; int64.
Qed.

Lemma subtract_saturates t1 t2 :
  is_int64 t1 → is_int64 t2 → subtract t1 t2 = Some (saturate (t1 - t2)).
Proof.
  intros Ht Hd. unfold subtract, saturate. checked_steps; f_equal; int64.
Qed.

Lemma gcd_S fuel v1 v2 :
  gcd (S fuel) v1 v2 = if v2 =? 0 then Some v1 else gcd fuel v2 (Z.rem v1 v2).
Proof. done. Qed.

Lemma gcd_spec (k : nat) v1 v2 :
  0 ≤ v1 → 0 ≤ v2 < 2 ^ Z.of_nat k → gcd (S (2 * k)) v1 v2 = Some (Z.gcd v1 v2).
Proof.
  revert v1 v2. induction k as [|k IH]; intros v1 v2 H1 H2.
  { assert (v2 = 0) as -> by (cbn in H2; lia). cbn. by rewrite Z.gcd_0_r, Z.abs_eq. }
  replace (S (2 * S k)) with (S (S (S (2 * k)))) by lia. rewrite gcd_S.
  destruct (Z.eqb_spec v2 0) as [->|Hn]; [by rewrite Z.gcd_0_r, Z.abs_eq|].
  rewrite Z.rem_mod_nonneg by lia. pose proof (Z.mod_pos_bound v1 v2 ltac:(lia)) as Hm.
  rewrite (Z.gcd_comm v1 v2), <- (Z.gcd_mod v1 v2), (Z.gcd_comm _ v2), gcd_S by lia. set (r := v1 mod v2) in *.
  destruct (Z.eqb_spec r 0) as [->|Hr]; [by rewrite Z.gcd_0_r, Z.abs_eq by lia|].
  rewrite Z.rem_mod_nonneg by lia. pose proof (Z.mod_pos_bound v2 r ltac:(lia)) as Hm2.
  assert (2 * (v2 mod r) < v2) as Hhalf.
  { pose proof (Z.div_mod v2 r ltac:(lia)) as Hd.
    assert (1 ≤ v2 / r) by (apply Z.div_le_lower_bound; lia). nia. }
  rewrite IH; [|lia|].
  - f_equal. rewrite (Z.gcd_comm r), Z.gcd_mod by lia. apply Z.gcd_comm.
  - rewrite Nat2Z.inj_succ, Z.pow_succ_r in H2 by lia. lia.
Qed.

Lemma gcd_depth_enough v1 v2 :
  0 ≤ v1 → 0 ≤ v2 ≤ time_max → gcd gcd_depth v1 v2 = Some (Z.gcd v1 v2).
Proof. intros H1 H2. apply (gcd_spec 64); [done|]. int64. Qed.

(** The conversions of a clock that counts nanoseconds. *)
Lemma nano_milliseconds d : total_milliseconds nano d = Some (Z.quot d 1000000).
Proof. reflexivity. Qed.

Lemma nano_microseconds d : total_microseconds nano d = Some (Z.quot d 1000).
Proof. reflexivity. Qed.

(** * The reference *)

(** What is left until [time], in units of [u] ticks: rounded down, but not to
    zero while time is left. *)
Definition remaining (u now time : Z) : Z :=
  if time <=? now then 0 else Z.max 1 ((time - now) / u).

(** The shortest of all remaining times, and at most [m]. *)
Definition pending (u : Z) (p : timer_queue_set.member) : list Z :=
  remaining u (timer_queue_set.now p) ∘ time_ <$> heap_ (q_heap (timer_queue_set.queue p)).

Definition soonest (u : Z) (s : timer_queue_set.queues) (m : Z) : Z :=
  foldr Z.min m (concat (map (pending u) s)).

Lemma remaining_mono u now t t' : 0 < u → t ≤ t' → remaining u now t ≤ remaining u now t'.
Proof.
  intros Hu Ht. unfold remaining. pose proof (Z.div_le_mono (t - now) (t' - now) u Hu ltac:(lia)).
  destruct (Z.leb_spec t now), (Z.leb_spec t' now); lia.
Qed.

Lemma foldr_min_le m l x : x ∈ l → foldr Z.min m l ≤ x.
Proof. induction 1 as [x l|x y l _ IH]; cbn; lia. Qed.

Lemma foldr_min_glb m l b : b ≤ m → (∀ x, x ∈ l → b ≤ x) → b ≤ foldr Z.min m l.
Proof.
  intros Hm. induction l as [|x l IH]; intros Hl; cbn; [done|].
  apply Z.min_glb; [apply Hl; left|]. apply IH. intros y Hy. apply Hl. by right.
Qed.

Lemma foldr_min_init m l : foldr Z.min m l ≤ m.
Proof. induction l as [|x l IH]; cbn; lia. Qed.

Lemma foldr_min_attained m l : foldr Z.min m l = m ∨ foldr Z.min m l ∈ l.
Proof.
  induction l as [|x l IH]; cbn; [by left|]. rewrite elem_of_cons.
  destruct (Z.min_spec x (foldr Z.min m l)) as [[_ ->]|[_ ->]]; tauto.
Qed.

Lemma foldr_min_app m l1 l2 : foldr Z.min m (l1 ++ l2) = foldr Z.min (foldr Z.min m l1) l2.
Proof.
  rewrite foldr_app. induction l1 as [|x l1 IH]; cbn; [done|]. rewrite IH. clear IH.
  induction l2 as [|y l2 IH]; cbn; lia.
Qed.

Lemma foldr_min_mono m m' l : m ≤ m' → foldr Z.min m l ≤ foldr Z.min m' l.
Proof. intros Hm. induction l as [|x l IH]; cbn; lia. Qed.

Lemma foldr_min_slack m m' l : m' ≤ Z.max 1 m → foldr Z.min m' l ≤ Z.max 1 (foldr Z.min m l).
Proof. intros Hm. induction l as [|x l IH]; cbn; lia. Qed.

(** A member whose heap is ordered and whose times are 64-bit integers. *)
Definition member_ok (p : timer_queue_set.member) : Prop :=
  heap_ok (heap_ (q_heap (timer_queue_set.queue p))) ∧ is_int64 (timer_queue_set.now p) ∧
  Forall (λ e, is_int64 (time_ e)) (heap_ (q_heap (timer_queue_set.queue p))).

(** The front of the heap is the soonest. *)
Lemma pending_front u p m e rest :
  0 < u → member_ok p → heap_ (q_heap (timer_queue_set.queue p)) = e :: rest →
  foldr Z.min m (pending u p) = Z.min (remaining u (timer_queue_set.now p) (time_ e)) m.
Proof.
  intros Hu [Hok _] E. unfold pending.
  pose proof (heap_front_first _ e Hok) as Hf. rewrite E in Hf at 1. specialize (Hf eq_refl).
  apply Z.le_antisymm.
  - apply Z.min_glb; [|apply foldr_min_init]. apply foldr_min_le. rewrite E. left.
  - apply foldr_min_glb; [lia|]. intros x (e' & -> & He')%list_elem_of_fmap_1.
    apply Z.min_le_iff. left. apply remaining_mono; [done|]. specialize (Hf e' He').
    unfold le in Hf. cbn in Hf. lia.
Qed.

(** [to_units] counts in units of [u] ticks. *)
Definition counts (to_units : Z → Z → option Z) (u : Z) : Prop :=
  1 < u ≤ time_max ∧
  ∀ d m, to_units d m = Some (if d <=? 0 then 0 else if d / u =? 0 then 1 else Z.min (d / u) m).

Lemma to_msec_counts : counts (to_msec nano) 1000000.
Proof.
  split; [int64|]. intros d m. unfold to_msec. rewrite nano_milliseconds. cbn [mbind option_bind].
  destruct (Z.leb_spec d 0); [done|]. rewrite Z.quot_div_nonneg by lia.
  destruct (Z.eqb_spec (d / 1000000) 0); [done|]. destruct (Z.ltb_spec m (d / 1000000)); f_equal; lia.
Qed.

Lemma to_usec_counts : counts (to_usec nano) 1000.
Proof.
  split; [int64|]. intros d m. unfold to_usec. rewrite nano_microseconds. cbn [mbind option_bind].
  destruct (Z.leb_spec d 0); [done|]. rewrite Z.quot_div_nonneg by lia.
  destruct (Z.eqb_spec (d / 1000) 0); [done|]. destruct (Z.ltb_spec m (d / 1000)); f_equal; lia.
Qed.

(** One queue: exact but for a limit of zero, which a timer due in less than a
    unit raises to one. *)
Lemma wait_duration_spec to_units u p m :
  counts to_units u → member_ok p → 0 ≤ m ≤ time_max / u →
  ∃ r, wait_duration to_units (timer_queue_set.now p) m (timer_queue_set.queue p) = Some r ∧
    0 ≤ r ≤ time_max / u ∧ foldr Z.min m (pending u p) ≤ r ≤ Z.max 1 (foldr Z.min m (pending u p)).
Proof.
  intros [Hu Hf] Hp Hm. pose proof Hp as (_ & Hn & Ht). unfold wait_duration.
  destruct (heap_ (q_heap (timer_queue_set.queue p))) as [|e rest] eqn:E.
  { exists m. unfold pending. rewrite E. cbn [fmap list_fmap foldr]. split; [done|]. lia. }
  rewrite (pending_front u p m e rest) by (done || lia). apply Forall_cons in Ht as [He _].
  rewrite subtract_saturates by done. cbn [mbind option_bind]. rewrite Hf.
  eexists. split; [done|]. unfold remaining. set (now := timer_queue_set.now p) in *.
  assert (1 ≤ time_max / u) by (apply Z.div_le_lower_bound; lia).
  destruct (Z.leb_spec (time_ e) now) as [Hdue|Hleft].
  { rewrite (proj2 (Z.leb_le _ _)) by (unfold saturate; int64). lia. }
  rewrite (proj2 (Z.leb_gt _ _)) by (unfold saturate; int64).
  assert (saturate (time_ e - now) / u = Z.min (time_max / u) ((time_ e - now) / u)) as ->.
  { unfold saturate. rewrite Z.max_r by int64. apply Z.min_case_strong; intros Hle.
    - rewrite Z.min_l; [done|]. apply Z.div_le_mono; lia.
    - rewrite Z.min_r; [done|]. apply Z.div_le_mono; lia. }
  assert (0 ≤ (time_ e - now) / u) by (apply Z.div_pos; lia).
  destruct (Z.eqb_spec (Z.min (time_max / u) ((time_ e - now) / u)) 0); lia.
Qed.

(** All queues. *)
Lemma wait_durations_spec to_units u s m :
  counts to_units u → Forall member_ok s → 0 ≤ m ≤ time_max / u →
  ∃ r, timer_queue_set.wait_durations (wait_duration to_units) s m = Some r ∧
    soonest u s m ≤ r ≤ Z.max 1 (soonest u s m).
Proof.
  intros Hf Hs. unfold soonest. revert m. induction Hs as [|p s Hp _ IH]; intros m Hm.
  { exists m. cbn [timer_queue_set.wait_durations map concat foldr]. split; [done|]. lia. }
  cbn [timer_queue_set.wait_durations map concat].
  destruct (wait_duration_spec to_units u p m Hf Hp Hm) as (r1 & E & Hr1 & Hb). rewrite E.
  cbn [mbind option_bind]. destruct (IH r1 Hr1) as (r & Er & Hr). exists r. split; [done|].
  rewrite foldr_min_app. set (m1 := foldr Z.min m (pending u p)) in *.
  pose proof (foldr_min_mono m1 r1 (concat (map (pending u) s)) ltac:(lia)).
  pose proof (foldr_min_slack m1 r1 (concat (map (pending u) s)) ltac:(lia)). lia.
Qed.
