(* ===== verification/TimerProperties.v ===== *)
(** What the timer queue promises to the reactor: a sequence of requests never
    accesses the heap out of range, loses no operation and hands none over
    twice; a call of [get_ready_timers] hands over what has expired, the earliest
    first; and the reactor arms its timer for the earliest of all timers. *)

From stdpp Require Import functions sorting.
From S2P Require Import Prelude TimerQueue TimerQueueFacts TimerWait.
Import chrono_time_traits.

Section requests.
  Context {time_type : Type} `{TimeOrder time_type}.
  Implicit Types (q : timer_queue time_type).

(** The calls a reactor makes on its queue. *)
Inductive request : Type :=
| Enqueue (time : time_type) (timer : ptr) (op : wait_op)
| Get_ready (now : time_type)
| Cancel (timer : ptr) (max_cancelled : option nat)
| Cancel_by_key (timer : ptr) (key : nat)
| Move (target source : ptr).

(** One call, with the operations handed over so far. *)
Definition handle (r : request) (ops : list wait_op) q : option (list wait_op * timer_queue time_type) :=
  match r with
  | Enqueue time timer op => '(_, q) ← enqueue_timer time timer op q; Some (ops, q)
  | Get_ready now => get_ready_timers now ops q
  | Cancel timer m => '(_, ops, q) ← cancel_timer timer m ops q; Some (ops, q)
  | Cancel_by_key timer key => cancel_timer_by_key timer ops key q
  | Move target source => Some (ops, move_timer target source q)
  end.

Fixpoint handle_all (rs : list request) (ops : list wait_op) q :
    option (list wait_op * timer_queue time_type) :=
  match rs with
  | [] => Some (ops, q)
  | r :: rs => '(ops, q) ← handle r ops q; handle_all rs ops q
  end.

(** A timer is moved to another one, on which nothing waits: the callers
    construct the target or cancel it first. *)
Definition allowed (r : request) q : bool :=
  match r with
  | Move target source => negb (target =? source)%nat && bool_decide (length (op_queue_ q target) = 0%nat)
  | _ => true
  end.

Fixpoint allowed_all (rs : list request) (ops : list wait_op) q : bool :=
  match rs with
  | [] => true
  | r :: rs => allowed r q && match handle r ops q with
                              | Some (ops, q) => allowed_all rs ops q
                              | None => true
                              end
  end.

Definition enqueued (rs : list request) : list wait_op :=
  concat (map (λ r, match r with Enqueue _ _ op => [op] | _ => [] end) rs).

Definition init : timer_queue time_type :=
  mk_queue (mk_heap [] (λ _, None)) (mk_list None (λ _, None) (λ _, None)) (λ _, []).

Lemma init_wf : queue_wf init [].
Proof.
  split; [split|]; [| |by intros t|done|].
  - split; [by intros t i|]. intros i Hi. by intros x y.
  - split; try done. apply NoDup_nil_2.
  - intros t. by split; [intros ?%elem_of_nil|].
Qed.

(** What one call does to the operations: those that waited or came are those
    handed over and those that still wait. *)
Definition conserved (new : list wait_op) q (l : list ptr) (ready : list wait_op)
    q' (l' : list ptr) : Prop :=
  queue_wf q' l' ∧
  op_id <$> (new ++ waiting (op_queue_ q) l) ≡ₚ op_id <$> (ready ++ waiting (op_queue_ q') l').

Lemma set_ec_ids ec ops : op_id <$> map (set_ec ec) ops = op_id <$> ops.
Proof. induction ops as [|o ops IH]; cbn; [done|]. by rewrite <- IH. Qed.

(** A call that changes the operations of one timer. *)
Lemma change_conserved new q l t ready q' l' :
  queue_wf q l → queue_wf q' l' → (∀ u, u ≠ t → op_queue_ q' u = op_queue_ q u) →
  op_id <$> (new ++ op_queue_ q t) ≡ₚ op_id <$> (ready ++ op_queue_ q' t) →
  conserved new q l ready q' l'.
Proof.
  intros Hw Hw' Hu E. split; [done|].
  destruct (waiting_change (op_queue_ q) (op_queue_ q') l l' t) as (rest & E1 & E2);
    [apply Hw|apply Hw'|apply (queue_nodup _ _ Hw)|apply (queue_nodup _ _ Hw')|done|].
  rewrite E1, E2, !(assoc_L (++)), (fmap_app _ _ rest), E. by rewrite (fmap_app _ _ rest).
Qed.

Lemma get_ready_conserved now ops q l :
  queue_wf q l →
  ∃ ready q' l', get_ready_timers now ops q = Some (ops ++ ready, q') ∧ conserved [] q l ready q' l'.
Proof.
  intros Hw. destruct (get_ready_loop_spec (S (length (heap_ (q_heap q)))) now ops q l)
    as (due & q' & l' & E & Hx); [done|lia|].
  exists (delivered (op_queue_ q) due), q', l'. split; [done|]. split; [apply Hx|].
  pose proof (expired_heap _ _ _ _ _ _ Hx) as Hh. destruct Hw as [Hs Ho].
  pose proof (heap_timers_nodup (q_heap q) (proj1 (wf_heap _ _ _ Hs))) as Hnd.
  unfold heap_timers in Hnd. rewrite Hh, fmap_app in Hnd. apply NoDup_app in Hnd as [Hnd _].
  cbn [app]. rewrite fmap_app. apply (waiting_expired now q l due q' l'); [done|done| |done].
  intros e He. apply (wf_entries _ _ _ Hs). unfold heap_timers. rewrite Hh, fmap_app, elem_of_app.
  left. by apply list_elem_of_fmap_2.
Qed.

Lemma handle_spec r ops q l :
  queue_wf q l → allowed r q = true →
  ∃ ready q' l', handle r ops q = Some (ops ++ ready, q') ∧ conserved (enqueued [r]) q l ready q' l'.
Proof.
  intros Hw Ha. destruct r as [time t op|now|t m|t key|t s]; cbn [handle].
  - destruct (enqueue_timer_spec q l time t op Hw) as (b & q' & l' & E & Hw' & _ & Hop & _).
    exists [], q', l'. rewrite E. cbn. rewrite app_nil_r. split; [done|].
    apply (change_conserved _ _ _ t); [done|done| |].
    + intros u Hu. by rewrite Hop, decide_False.
    + rewrite Hop, decide_True by done. apply Permutation_map.
      apply (Permutation_app_comm [op]).
  - by apply get_ready_conserved.
  - destruct (cancel_timer_spec q l t m ops Hw) as (q' & l' & E & Hw' & Hop).
    rewrite E. eexists _, q', l'. split; [done|]. apply (change_conserved _ _ _ t); [done|done| |].
    + intros u Hu. by rewrite Hop, decide_False.
    + rewrite Hop, decide_True, (fmap_app _ (map _ _)), set_ec_ids, <- fmap_app, take_drop by done. done.
  - destruct (cancel_by_key_spec q l t key ops Hw) as (q' & l' & E & Hw' & Hop).
    rewrite E. eexists _, q', l'. split; [done|]. apply (change_conserved _ _ _ t); [done|done| |].
    + intros u Hu. by rewrite Hop, decide_False.
    + rewrite Hop, decide_True, (fmap_app _ (map _ _)), set_ec_ids, <- fmap_app by done.
      apply Permutation_map, filter_partition.
  - cbn [allowed] in Ha. apply andb_true_iff in Ha as [Hts Ht]. apply negb_true_iff, Nat.eqb_neq in Hts.
    apply bool_decide_eq_true, length_zero_iff_nil in Ht.
    destruct (move_timer_spec q l t s Hw) as (l' & Hw' & Hop & _); [|done|].
    { intros Hin. by apply Hw in Hin. }
    exists [], (move_timer t s q), l'. rewrite app_nil_r. split; [done|]. split; [done|].
    cbn [enqueued map concat app]. apply Permutation_map.
    apply (waiting_move _ _ _ _ t s);
      [apply Hw|apply Hw'|apply (queue_nodup _ _ Hw)|apply (queue_nodup _ _ Hw')|done..].
Qed.

Lemma handle_all_spec rs ops q l :
  queue_wf q l → allowed_all rs ops q = true →
  ∃ ready q' l', handle_all rs ops q = Some (ops ++ ready, q') ∧ conserved (enqueued rs) q l ready q' l'.
Proof.
  revert ops q l. induction rs as [|r rs IH]; intros ops q l Hw Ha.
  { exists [], q, l. cbn. by rewrite app_nil_r. }
  cbn [allowed_all] in Ha. apply andb_true_iff in Ha as [Ha Hrs].
  destruct (handle_spec r ops q l Hw Ha) as (ready & q1 & l1 & E & Hw1 & Hc). rewrite E in Hrs.
  destruct (IH (ops ++ ready) q1 l1 Hw1 Hrs) as (ready' & q' & l' & E' & Hw' & Hc').
  exists (ready ++ ready'), q', l'. cbn [handle_all]. rewrite E. cbn [mbind option_bind].
  rewrite E', (assoc_L (++)). split; [done|]. split; [done|].
  assert (enqueued (r :: rs) = enqueued [r] ++ enqueued rs) as ->.
  { unfold enqueued. cbn [map concat]. by rewrite app_nil_r. }
  rewrite (Permutation_app_comm (enqueued [r])), <- !(assoc_L (++)), fmap_app, Hc, !fmap_app.
  rewrite (Permutation_app_swap_app (op_id <$> enqueued rs)), <- fmap_app, Hc', fmap_app. done.
Qed.

(** C38: Any sequence of calls of [enqueue_timer], [get_ready_timers],
    [cancel_timer], [cancel_timer_by_key] and [move_timer] on a fresh queue (a
    timer being moved only to another one on which nothing waits) returns: no
    access is outside of the heap and every heap and list walk ends.  It
    leaves the heap ordered, each timer's index right, the list of active
    timers linked both ways and exactly those timers in it on which operations
    wait.  The operations enqueued are, each once, those handed over and those
    that still wait, and [get_all_timers] then hands over the latter and leaves
    the queue empty. *)
Theorem timer_queue_conserves rs :
  allowed_all rs [] init = true →
  ∃ ops q l, handle_all rs [] init = Some (ops, q) ∧ queue_wf q l ∧
    op_id <$> enqueued rs ≡ₚ op_id <$> (ops ++ waiting (op_queue_ q) l) ∧
    ∃ q', get_all_timers (S (length l)) ops q = Some (ops ++ waiting (op_queue_ q) l, q') ∧
      empty q' = true ∧ heap_ (q_heap q') = [] ∧ ∀ t, op_queue_ q' t = [].
Proof.
  intros Ha. destruct (handle_all_spec rs [] init [] init_wf Ha) as (ops & q & l & E & Hw & Hc).
  exists ops, q, l. split; [done|]. split; [done|]. split.
  { rewrite <- Hc. by rewrite app_nil_r. }
  destruct (get_all_timers_spec (S (length l)) ops q l Hw) as (q' & E' & Hh & Hl & Ho); [lia|].
  exists q'. split; [done|]. split; [|split; [done|]].
  - unfold empty. by rewrite (list_head _ _ Hl).
  - intros t. destruct (op_queue_ q' t) eqn:Et; [done|].
    assert (t ∈ []) as Hin by (apply Ho; by rewrite Et). by apply elem_of_nil in Hin.
Qed.

(** C39: On a queue that such calls made, [get_ready_timers] at time [now]
    returns, and hands over the operations of exactly the timers in the heap
    whose time is not after [now], the timer that expires first first, each
    with its operations in the order they were enqueued and without an error.
    Those timers leave the heap, the list and their operations; the rest of
    the queue is as it was. *)
Theorem get_ready_timers_due rs ops q now ready :
  allowed_all rs [] init = true → handle_all rs [] init = Some (ops, q) →
  ∃ due q', get_ready_timers now ready q = Some (ready ++ delivered (op_queue_ q) due, q') ∧
    StronglySorted no_later due ∧
    heap_ (q_heap q) ≡ₚ due ++ heap_ (q_heap q') ∧
    Forall (λ e, less_than now (time_ e) = false) due ∧
    Forall (λ e, less_than now (time_ e) = true) (heap_ (q_heap q')) ∧
    ∀ t, op_queue_ q' t = (if decide (t ∈ timer_ <$> due) then [] else op_queue_ q t) ∧
         is_active t (q_list q') = (is_active t (q_list q) && negb (bool_decide (t ∈ timer_ <$> due))).
Proof.
  intros Ha E. destruct (handle_all_spec rs [] init [] init_wf Ha) as (ops1 & q1 & l & E1 & Hw & _).
  rewrite E in E1. injection E1 as _ <-.
  destruct (get_ready_loop_spec (S (length (heap_ (q_heap q)))) now ready q l)
    as (due & q' & l' & Er & Hx); [done|lia|].
  destruct Hx as [Hw' Hh Hso Hdue Hrest Hact Hop].
  exists due, q'. do 5 (split; [done|]). intros t. split; [done|].
  apply eq_true_iff_eq. rewrite andb_true_iff, negb_true_iff, bool_decide_eq_false.
  rewrite (is_active_spec _ _ t (wf_list _ _ _ (proj1 Hw'))), (is_active_spec _ _ t (wf_list _ _ _ (proj1 Hw))).
  apply Hact.
Qed.
End requests.

Arguments request time_type : clear implicits.

(** Three timers, one cancelled in part, one moved, then time passes. *)
Definition sample : list (request Z) :=
  [Enqueue 30 1%nat (mk_wait_op 1 no_error 0); Enqueue 10 2%nat (mk_wait_op 2 no_error 7);
   Enqueue 20 3%nat (mk_wait_op 3 no_error 0); Enqueue 10 2%nat (mk_wait_op 4 no_error 0);
   Cancel_by_key 2%nat 7%nat; Move 5%nat 3%nat; Get_ready 15; Cancel 1%nat (Some 0%nat)].

Lemma timer_queue_conserves_witness :
  ∃ ops q l, handle_all sample [] init = Some (ops, q) ∧ queue_wf q l ∧
    op_id <$> enqueued sample ≡ₚ op_id <$> (ops ++ waiting (op_queue_ q) l) ∧
    ∃ q', get_all_timers (S (length l)) ops q = Some (ops ++ waiting (op_queue_ q) l, q') ∧
      empty q' = true ∧ heap_ (q_heap q') = [] ∧ ∀ t, op_queue_ q' t = [].
Proof. apply (timer_queue_conserves sample). vm_compute. reflexivity. Defined.

(** After the sample, two timers are left: 5 at time 20 and 1 at time 30. *)
Definition sample_result : list wait_op * timer_queue Z :=
  default ([], init) (handle_all sample [] init).

Example sample_handed_over :
  handle_all sample [] init = Some sample_result ∧
  op_id <$> fst sample_result = [2%nat; 4%nat] ∧
  (λ e, (time_ e, timer_ e)) <$> heap_ (q_heap (snd sample_result)) = [(20, 5%nat); (30, 1%nat)].
Proof. vm_compute. repeat split. Qed.

Lemma get_ready_timers_due_witness :
  let q := snd sample_result in
  ∃ due q', get_ready_timers 25 [] q = Some ([] ++ delivered (op_queue_ q) due, q') ∧
    StronglySorted no_later due ∧
    heap_ (q_heap q) ≡ₚ due ++ heap_ (q_heap q') ∧
    Forall (λ e, less_than 25 (time_ e) = false) due ∧
    Forall (λ e, less_than 25 (time_ e) = true) (heap_ (q_heap q')) ∧
    ∀ t, op_queue_ q' t = (if decide (t ∈ timer_ <$> due) then [] else op_queue_ q t) ∧
         is_active t (q_list q') = (is_active t (q_list q) && negb (bool_decide (t ∈ timer_ <$> due))).
Proof.
  apply (get_ready_timers_due sample (fst sample_result) (snd sample_result) 25 []);
    vm_compute; reflexivity.
Defined.

(** Why [get_all_timers] comes last: it leaves the timers their old places in
    the heap.  Timer 1 has been handed over by it when timer 2 starts to wait
    for time 20; timer 1 is then moved to timer 3, which gives the heap entry
    of timer 2 to timer 3.  At time 25 the entry has gone, and the operation
    on timer 2 is handed over neither then nor ever. *)
Definition after_get_all : option (list wait_op * timer_queue Z) :=
  '(_, q) ← enqueue_timer 10 1%nat (mk_wait_op 1 no_error 0) init;
  '(ops, q) ← get_all_timers 2 [] q;
  '(_, q) ← enqueue_timer 20 2%nat (mk_wait_op 2 no_error 0) q;
  Some (ops, move_timer 3%nat 1%nat q).

Example stale_index_redirects :
  ∃ ops q q', after_get_all = Some (ops, q) ∧ op_id <$> ops = [1%nat] ∧
    (λ e, (time_ e, timer_ e)) <$> heap_ (q_heap q) = [(20, 3%nat)] ∧
    get_ready_timers 25 [] q = Some ([], q') ∧ heap_ (q_heap q') = [] ∧ op_id <$> op_queue_ q' 2%nat = [2%nat].
Proof. do 3 eexists. split; [vm_compute; reflexivity|]. split; [done|]. split; [done|]. split; [vm_compute; reflexivity|done]. Qed.

(** * The reactor's timer *)

(** A queue that calls of its operations made, with 64-bit times. *)
Definition made (p : timer_queue_set.member) : Prop :=
  (∃ rs ops, allowed_all rs [] init = true ∧
     handle_all rs [] init = Some (ops, timer_queue_set.queue p)) ∧
  is_int64 (timer_queue_set.now p) ∧
  Forall (λ e, is_int64 (time_ e)) (heap_ (q_heap (timer_queue_set.queue p))).

Lemma made_ok p : made p → member_ok p.
Proof.
  intros [(rs & ops & Ha & E) Hr]. split; [|done].
  destruct (handle_all_spec rs [] init [] init_wf Ha) as (ops1 & q1 & l & E1 & [Hw _] & _).
  rewrite E in E1. injection E1 as _ ->. apply (wf_heap _ _ _ Hw).
Qed.

(** What is left until some timer of the set expires. *)
Definition left_of (s : timer_queue_set.queues) (d : Z) : Prop :=
  ∃ p e, p ∈ s ∧ e ∈ heap_ (q_heap (timer_queue_set.queue p)) ∧ d = time_ e - timer_queue_set.now p.

Lemma pending_elem u s x :
  x ∈ concat (map (pending u) s) ↔ ∃ d, left_of s d ∧ x = remaining u 0 d.
Proof.
  assert (∀ now t, remaining u now t = remaining u 0 (t - now)) as Hz.
  { intros now t. unfold remaining. rewrite Z.sub_0_r.
    destruct (Z.leb_spec t now), (Z.leb_spec (t - now) 0); lia. }
  rewrite list_elem_of_In, in_concat. split.
  - intros (l & (p & <- & Hp)%in_map_iff & Hx). apply list_elem_of_In, list_elem_of_fmap_1 in Hx as (e & -> & He).
    exists (time_ e - timer_queue_set.now p). split; [|apply Hz]. exists p, e.
    split; [by apply list_elem_of_In|done].
  - intros (d & (p & e & Hp & He & ->) & ->). exists (pending u p). split.
    + apply in_map. by apply list_elem_of_In.
    + apply list_elem_of_In. unfold pending. rewrite <- Hz.
      apply (list_elem_of_fmap_2 (remaining u (timer_queue_set.now p) ∘ time_) _ _ He).
Qed.

(** The soonest timer bounds them all, and is one of them or the limit. *)
Lemma soonest_bounds u s m :
  0 < u → 0 ≤ m →
  0 ≤ soonest u s m ∧ soonest u s m ≤ m ∧
  (∀ d, left_of s d → soonest u s m ≤ remaining u 0 d) ∧
  (∀ b, b ≤ m → (∀ d, left_of s d → b ≤ remaining u 0 d) → b ≤ soonest u s m) ∧
  (soonest u s m = m ∨ ∃ d, left_of s d ∧ soonest u s m = remaining u 0 d).
Proof.
  intros Hu Hm. unfold soonest.
  assert (∀ b, b ≤ m → (∀ d, left_of s d → b ≤ remaining u 0 d) →
    b ≤ foldr Z.min m (concat (map (pending u) s))) as Hglb.
  { intros b Hb Hall. apply foldr_min_glb; [done|]. intros x (d & Hd & ->)%pending_elem. auto. }
  split; [|split; [|split; [|split]]].
  - apply Hglb; [done|]. intros d _. unfold remaining. destruct (d <=? 0); lia.
  - apply foldr_min_init.
  - intros d Hd. apply foldr_min_le, pending_elem. by exists d.
  - done.
  - destruct (foldr_min_attained m (concat (map (pending u) s))) as [->|Hin]; [by left|right].
    apply pending_elem in Hin as (d & Hd & E). by exists d.
Qed.

Lemma armed_value r :
  0 ≤ r →
  Z.quot r 1000000 * 1000000000 + (if r =? 0 then 1 else Z.rem r 1000000 * 1000) =
  if r =? 0 then 1 else r * 1000.
Proof.
  intros Hr. pose proof (Z.quot_rem' r 1000000). destruct (Z.eqb_spec r 0) as [->|]; [done|lia].
Qed.

(** C40: The epoll reactor arms its timer descriptor for the earliest timer of
    all its queues: no arithmetic overflows, the value is never the zero that
    would disarm the descriptor, it is at most five minutes, it is at most what
    is left until any timer or a microsecond if that is more, and it falls short
    of what is left until the first one by less than a microsecond.  The flag for an absolute time comes only
    with the first nanosecond of the epoch, when a timer has expired. *)
Theorem timerfd_armed s :
  Forall made s →
  ∃ ts, get_timeout nano s = Some ts ∧
    0 ≤ tv_sec ts ∧ 0 ≤ tv_nsec ts < 1000000000 ∧
    let value := tv_sec ts * 1000000000 + tv_nsec ts in
    0 < value ≤ 300 * 1000000000 ∧
    (∀ d, left_of s d → value ≤ Z.max 1000 d) ∧
    (∀ d, d ≤ 300 * 1000000000 → (∀ d', left_of s d' → d ≤ d') → d < value + 1000) ∧
    (tfd_timer_abstime ts = true → value = 1 ∧ ∃ d, left_of s d ∧ d ≤ 0).
Proof.
  intros Hs. assert (Forall member_ok s) as Hok by (eapply Forall_impl; [done|apply made_ok]).
  destruct (wait_durations_spec (to_usec nano) 1000 s 300000000 to_usec_counts Hok) as (r & E & Hr).
  { by vm_compute. }
  unfold get_timeout, timer_queue_set.wait_duration_usec, TimerWait.wait_duration_usec.
  change (5 * 60 * 1000 * 1000) with 300000000. rewrite E. cbn [mbind option_bind].
  eexists. split; [done|]. cbn [tv_sec tv_nsec tfd_timer_abstime]. cbv zeta.
  destruct (soonest_bounds 1000 s 300000000) as (Hm0 & Hm & Hle & Hge & Hatt); [lia|lia|].
  set (m := soonest 1000 s 300000000) in *.
  rewrite armed_value by lia. pose proof (Z.quot_pos r 1000000 ltac:(lia) ltac:(lia)).
  pose proof (Z.rem_bound_pos r 1000000 ltac:(lia) ltac:(lia)).
  split; [done|]. split; [destruct (r =? 0); lia|]. split; [destruct (Z.eqb_spec r 0); lia|].
  split; [|split].
  - intros d Hd. specialize (Hle d Hd). destruct (Z.eqb_spec r 0); [lia|].
    unfold remaining in Hle. pose proof (Z.mul_div_le (d - 0) 1000 ltac:(lia)).
    destruct (Z.leb_spec d 0); lia.
  - intros d Hd Hall. specialize (Hge (Z.min 300000000 (d / 1000))).
    pose proof (Z.mul_succ_div_gt d 1000 ltac:(lia)).
    assert (Z.min 300000000 (d / 1000) ≤ m) as Hlow.
    { apply Hge; [lia|]. intros d' Hd'. pose proof (Z.div_le_mono d d' 1000 ltac:(lia) (Hall d' Hd')).
      unfold remaining. rewrite Z.sub_0_r. pose proof (Z.mul_div_le d' 1000 ltac:(lia)).
      destruct (Z.leb_spec d' 0); lia. }
    assert (d / 1000 ≤ 300000000) by (apply Z.div_le_upper_bound; lia).
    destruct (Z.eqb_spec r 0); lia.
  - intros ->%Z.eqb_eq. split; [done|]. destruct Hatt as [Hatt|(d & Hd & Hatt)]; [lia|].
    exists d. split; [done|]. unfold remaining in Hatt. destruct (Z.leb_spec d 0); lia.
Qed.

(** A queue that the calls [rs] made. *)
Definition member_of (self : ptr) (now : Z) (rs : list (request Z)) : timer_queue_set.member :=
  timer_queue_set.mk_member self now (snd (default ([], init) (handle_all rs [] init))).

Definition int64b (z : Z) : bool := (time_min <=? z) && (z <=? time_max).

Lemma member_of_made self now rs :
  allowed_all rs [] init = true →
  int64b now && forallb (λ e, int64b (time_ e)) (heap_ (q_heap (timer_queue_set.queue (member_of self now rs)))) = true →
  made (member_of self now rs).
Proof.
  intros Ha [Hn Ht]%andb_true_iff.
  assert (∀ z, int64b z = true → is_int64 z) as Hr.
  { intros z [H1 H2]%andb_true_iff. split; lia. }
  split; [|split; [by apply Hr|]].
  - destruct (handle_all_spec rs [] init [] init_wf Ha) as (ops & q & l & E & _).
    exists rs, ops. split; [done|]. unfold member_of. by rewrite E.
  - apply Forall_forall. intros e He. apply Hr. rewrite forallb_forall in Ht. apply Ht.
    by apply list_elem_of_In.
Qed.

(** The queue of the sample, whose first timer expires at 20, and one whose timer
    expires in half a microsecond. *)
Definition sample_set (now : Z) : timer_queue_set.queues :=
  [member_of 1 now sample; member_of 2 0 [Enqueue 500 9%nat (mk_wait_op 1 no_error 0)]].

Lemma timerfd_armed_witness :
  ∃ ts, get_timeout nano (sample_set (-5000)) = Some ts ∧
    0 ≤ tv_sec ts ∧ 0 ≤ tv_nsec ts < 1000000000 ∧
    let value := tv_sec ts * 1000000000 + tv_nsec ts in
    0 < value ≤ 300 * 1000000000 ∧
    (∀ d, left_of (sample_set (-5000)) d → value ≤ Z.max 1000 d) ∧
    (∀ d, d ≤ 300 * 1000000000 → (∀ d', left_of (sample_set (-5000)) d' → d ≤ d') → d < value + 1000) ∧
    (tfd_timer_abstime ts = true → value = 1 ∧ ∃ d, left_of (sample_set (-5000)) d ∧ d ≤ 0).
Proof.
  apply (timerfd_armed (sample_set (-5000))).
  apply Forall_cons; split; [|apply Forall_cons; split; [|apply Forall_nil; exact I]];
    apply member_of_made; vm_compute; reflexivity.
Defined.

(** A timer has expired, but the timer of a later queue has not: the reactor
    sleeps for a microsecond, where it would not for the first queue alone. *)
Example expired_timer_waits :
  get_timeout nano (sample_set 25) = Some (mk_itimerspec 0 1000 false) ∧
  get_timeout nano (take 1 (sample_set 25)) = Some (mk_itimerspec 0 1 true).
Proof. vm_compute. by split. Qed.
