(* ===== verification/BinaryNumbers.v ===== *)
(** The numbers of the binary formats of framework/json.hpp: the object
    representation of integers and IEEE numbers on a little or a big endian
    host, the casts between [float] and [double], and [write_number], which
    puts a number into a byte stream in a fixed order.

    A [double] carries no payload when it is a NaN: the one NaN of
    [spec_float] is stored as the quiet NaN with an empty payload. *)

From S2P Require Import Prelude Double JsonValue.

(** * Object representation *)

(** The bytes of a [sz]-byte number, least significant first, and back. *)
Fixpoint le_bytes (sz : nat) (z : Z) : cstring :=
  match sz with
  | O => []
  | S sz' => z mod 256 :: le_bytes sz' (z / 256)
  end.

Fixpoint le_value (bs : cstring) : Z :=
  match bs with
  | [] => 0
  | b :: bs' => b + 256 * le_value bs'
  end.

(** How a host with [is_little_endian] stores a number. *)
Definition to_memory (is_little_endian : bool) (sz : nat) (z : Z) : cstring :=
  if is_little_endian then le_bytes sz z else rev (le_bytes sz z).

Definition from_memory (is_little_endian : bool) (bs : cstring) : Z :=
  le_value (if is_little_endian then bs else rev bs).

(** [little_endianness(num)]: the first byte of the int [num] in memory. *)
Definition little_endianness (is_little_endian : bool) (num : Z) : bool :=
  match to_memory is_little_endian 4 num with
  | b :: _ => b =? 1
  | [] => false
  end.

(** * Floating-point formats *)

(** The bits of a number of the format with [prec] bits of precision and
    exponents below [emax]: sign, biased exponent, fraction. *)
Definition float_bits (prec emax : Z) (f : spec_float) : Z :=
  let frac := 2 ^ (prec - 1) in
  let sign (s : bool) := if s then 2 * emax * frac else 0 in
  match f with
  | S754_zero s => sign s
  | S754_infinity s => sign s + (2 * emax - 1) * frac
  | S754_nan => (2 * emax - 1) * frac + frac / 2
  | S754_finite s m e =>
      sign s + if Zpos m <? frac then Zpos m
               else (e - SpecFloat.emin prec emax + 1) * frac + (Zpos m - frac)
  end.

Definition bits_float (prec emax : Z) (bits : Z) : spec_float :=
  let frac := 2 ^ (prec - 1) in
  let s := 2 * emax <=? bits / frac in
  let E := (bits / frac) mod (2 * emax) in
  let F := bits mod frac in
  if E =? 0 then
    match F with Zpos m => S754_finite s m (SpecFloat.emin prec emax) | _ => S754_zero s end
  else if E =? 2 * emax - 1 then
    match F with Zpos _ => S754_nan | _ => S754_infinity s end
  else
    match F + frac with
    | Zpos m => S754_finite s m (E - 1 + SpecFloat.emin prec emax)
    | _ => S754_zero s
    end.

(** [m * 2 ^ e] rounded to the format, ties to even. *)
Definition round_float (prec emax : Z) (s : bool) (m e : Z) : spec_float :=
  let E := Z.max (Z.log2 m + e - (prec - 1)) (SpecFloat.emin prec emax) in
  let q := round_half_even (m * 2 ^ Z.max 0 (e - E)) (2 ^ Z.max 0 (E - e)) in
  let '(q, E) := if q =? 2 ^ prec then (2 ^ (prec - 1), E + 1) else (q, E) in
  match q with
  | Zpos p => if emax - prec <? E then S754_infinity s else S754_finite s p E
  | _ => S754_zero s
  end.

(** [static_cast] to a floating-point type. *)
Definition float_cast (prec emax : Z) (f : spec_float) : spec_float :=
  match f with
  | S754_finite s m e => round_float prec emax s (Zpos m) e
  | _ => f
  end.

Definition to_float : spec_float → spec_float := float_cast 24 128.
Definition to_double : spec_float → spec_float := float_cast 53 1024.

(** [static_cast<double>(std::numeric_limits<float>::max())]. *)
Definition float_max : spec_float := S754_finite false 9007198717870080 75.
Definition float_lowest : spec_float := SFopp float_max.

(** * Number types *)

(** What the templates [get_number] and [write_number] use of a number type. *)
Record number_type (A : Type) : Type := mk_number_type {
  sizeof : nat;
  to_bits : A → Z;
  of_bits : Z → A
}.
Arguments mk_number_type {A}.
Arguments sizeof {A}.
Arguments to_bits {A}.
Arguments of_bits {A}.

Definition uint (sz : nat) : number_type Z := mk_number_type sz id id.
Definition sint (sz : nat) : number_type Z :=
  mk_number_type sz id (wrap_s (8 * Z.of_nat sz)).

Definition uint8 : number_type Z := uint 1.
Definition uint16 : number_type Z := uint 2.
Definition uint32 : number_type Z := uint 4.
Definition uint64 : number_type Z := uint 8.
Definition int8 : number_type Z := sint 1.
Definition int16 : number_type Z := sint 2.
Definition int32 : number_type Z := sint 4.
Definition int64 : number_type Z := sint 8.
Definition float32 : number_type spec_float :=
  mk_number_type 4 (float_bits 24 128) (bits_float 24 128).
Definition float64 : number_type spec_float :=
  mk_number_type 8 (float_bits 53 1024) (bits_float 53 1024).

(** * Writing numbers *)

(** [write_number]: the bytes of [n] as they are in memory, reversed unless
    the host stores numbers in the order of the output. *)
Definition write_number {A} (T : number_type A) (is_little_endian OutputIsLittleEndian : bool)
    (n : A) : cstring :=
  let vec := to_memory is_little_endian (sizeof T) (to_bits T n) in
  if negb (Bool.eqb is_little_endian OutputIsLittleEndian) then rev vec else vec.

(** * Byte order *)

Lemma le_bytes_length sz z : length (le_bytes sz z) = sz.
Proof. revert z. induction sz; simpl; intros; [done|]. by rewrite IHsz. Qed.

Lemma le_bytes_bytes sz z : forallb is_byte (le_bytes sz z) = true.
Proof.
  revert z. induction sz as [|sz IH]; simpl; intros; [done|]. rewrite IH.
  pose proof (Z.mod_pos_bound z 256 ltac:(lia)). unfold is_byte. zify_bool. lia.
Qed.

Lemma le_value_bytes sz z : le_value (le_bytes sz z) = z mod 2 ^ (8 * Z.of_nat sz).
Proof.
  revert z. induction sz as [|sz IH]; intros z; cbn [le_bytes le_value]; [by rewrite Z.mod_1_r|].
  rewrite IH. replace (8 * Z.of_nat (S sz)) with (8 + 8 * Z.of_nat sz) by lia.
  rewrite Z.pow_add_r by lia. change (2 ^ 8) with 256.
  rewrite Z.rem_mul_r by lia. lia.
Qed.

Lemma le_value_range bs :
  forallb is_byte bs = true → 0 ≤ le_value bs < 2 ^ (8 * Z.of_nat (length bs)).
Proof.
  induction bs as [|b bs IH]; cbn [le_value forallb length]; [simpl; lia|].
  intros [Hb Hbs]%andb_true_iff. specialize (IH Hbs). unfold is_byte in Hb. zify_bool.
  replace (8 * Z.of_nat (S (length bs))) with (8 + 8 * Z.of_nat (length bs)) by lia.
  rewrite Z.pow_add_r by lia. change (2 ^ 8) with 256. lia.
Qed.

(** The test finds out the byte order of the host. *)
Lemma little_endianness_host le : little_endianness le 1 = le.
Proof. by destruct le. Qed.

(** The order of the output does not depend on the host. *)
Lemma write_number_order {A} (T : number_type A) le out (n : A) :
  write_number T le out n =
    if out then le_bytes (sizeof T) (to_bits T n) else rev (le_bytes (sizeof T) (to_bits T n)).
Proof. unfold write_number, to_memory. destruct le, out; simpl; by rewrite ?rev_involutive. Qed.

Lemma write_number_length {A} (T : number_type A) le out (n : A) :
  length (write_number T le out n) = sizeof T.
Proof. rewrite write_number_order. destruct out; by rewrite ?length_rev, le_bytes_length. Qed.

Lemma forallb_rev {A} (p : A → bool) l : forallb p (rev l) = forallb p l.
Proof.
  induction l as [|x l IH]; simpl; [done|]. rewrite forallb_app, IH. simpl.
  destruct (p x), (forallb p l); done.
Qed.

Lemma write_number_bytes {A} (T : number_type A) le out (n : A) :
  forallb is_byte (write_number T le out n) = true.
Proof. rewrite write_number_order. destruct out; by rewrite ?forallb_rev, le_bytes_bytes. Qed.
