(* ===== verification/BinaryNumbersFacts.v ===== *)
(** Numbers survive the binary formats: an IEEE number is recovered from its
    bits, a number from its bytes in either order and on either kind of host,
    and a [double] that [write_compact_float] stores as a [float] is recovered
    from the [float]. *)

From S2P Require Import Prelude Double JsonValue BinaryNumbers.

(** * The bits of a floating-point number *)

Section format.
  Context (prec emax : Z) (Hprec : 1 < prec) (Hemax : prec < emax).

Abbreviation frac := (2 ^ (prec - 1)).
Abbreviation emin := (SpecFloat.emin prec emax).

Lemma frac_pos : 1 < frac.
Proof. apply Z.pow_gt_1; lia. Qed.

(** The three fields of a bit pattern. *)
Lemma sign_exp_fields (s : bool) E F :
  0 ≤ E < 2 * emax → 0 ≤ F < frac →
  let bits := (if s then 2 * emax * frac else 0) + (E * frac + F) in
  (2 * emax <=? bits / frac) = s ∧ (bits / frac) mod (2 * emax) = E ∧ bits mod frac = F.
Proof.
  intros HE HF bits. pose proof frac_pos as Hf.
  assert (bits = (Z.b2z s * (2 * emax) + E) * frac + F) as -> by (destruct s; unfold bits; simpl; lia).
  rewrite Z.div_add_l, (Z.div_small F), Z.add_0_r by lia.
  rewrite (Z.add_comm (_ * frac)), Z.mod_add, (Z.mod_small F) by lia.
  rewrite (Z.add_comm (Z.b2z s * _)), Z.mod_add, (Z.mod_small E) by lia.
  split; [destruct s; simpl; lia|done].
Qed.

(** What a format guarantees of a finite number. *)
Lemma valid_finite s m e :
  valid_binary prec emax (S754_finite s m e) = true →
  Zpos m < 2 * frac ∧ emin ≤ e ≤ emax - prec ∧ (Zpos m < frac → e = emin).
Proof.
  cbn [valid_binary]. unfold bounded, canonical_mantissa, fexp. rewrite digits2_pos_log2.
  intros [Hc He]%andb_true_iff. apply Z.eqb_eq in Hc. apply Z.leb_le in He.
  assert (Z.log2 (Zpos m) < prec) as Hl by lia.
  apply Z.log2_lt_pow2 in Hl; [|lia].
  assert (2 ^ prec = 2 * frac) as Hp.
  { change 2 with (2 ^ 1) at 2. rewrite <- Z.pow_add_r by lia. f_equal. lia. }
  split; [lia|]. split; [lia|]. intros Hm. apply Z.log2_lt_pow2 in Hm; lia.
Qed.

Lemma float_bits_split s m e :
  valid_binary prec emax (S754_finite s m e) = true →
  ∃ E F, float_bits prec emax (S754_finite s m e) =
           (if s then 2 * emax * frac else 0) + (E * frac + F) ∧
    0 ≤ E < 2 * emax - 1 ∧ 0 ≤ F < frac ∧
    (E = 0 ∧ F = Zpos m ∧ e = emin ∨ 0 < E ∧ F + frac = Zpos m ∧ E - 1 + emin = e).
Proof.
  intros Hv. destruct (valid_finite s m e Hv) as (Hm & He & Hs). cbn [float_bits].
  destruct (Z.ltb_spec (Zpos m) frac) as [Hlt|Hge].
  - exists 0, (Zpos m). destruct s; lia.
  - exists (e - emin + 1), (Zpos m - frac). unfold SpecFloat.emin in *. destruct s; lia.
Qed.

Lemma bits_float_bits f :
  valid_binary prec emax f = true → bits_float prec emax (float_bits prec emax f) = f.
Proof.
  pose proof frac_pos as Hf. intros Hv. unfold bits_float. destruct f as [s|s| |s m e].
  - pose proof (sign_exp_fields s 0 0 ltac:(lia) ltac:(lia)) as (H1 & H2 & H3).
    cbv zeta in H1, H2, H3. cbn [float_bits]. rewrite Z.add_0_r in H1, H2, H3.
    by rewrite H2, H3, H1.
  - pose proof (sign_exp_fields s (2 * emax - 1) 0 ltac:(lia) ltac:(lia)) as (H1 & H2 & H3).
    cbv zeta in H1, H2, H3. cbn [float_bits]. rewrite Z.add_0_r in H1, H2, H3.
    rewrite H2, H3, H1. decide_test (2 * emax - 1 =? 0) false. by rewrite Z.eqb_refl.
  - assert (0 < frac / 2 < frac) as Hh.
    { replace frac with (2 ^ (prec - 2) * 2 ^ 1) by (rewrite <- pow2_split by lia; f_equal; lia).
      change (2 ^ 1) with 2. rewrite Z.div_mul by lia. pose proof (pow2_pos (prec - 2) ltac:(lia)). lia. }
    pose proof (sign_exp_fields false (2 * emax - 1) (frac / 2) ltac:(lia) ltac:(lia)) as (H1 & H2 & H3).
    cbv zeta in H1, H2, H3. rewrite Z.add_0_l in H1, H2, H3. cbn [float_bits].
    rewrite H2, H3. decide_test (2 * emax - 1 =? 0) false. rewrite Z.eqb_refl.
    destruct (frac / 2); by try lia.
  - destruct (float_bits_split s m e Hv) as (E & F & -> & HE & HF & Hcase).
    pose proof (sign_exp_fields s E F ltac:(lia) HF) as (H1 & H2 & H3). cbv zeta in H1, H2, H3.
    rewrite H2, H3, H1. destruct Hcase as [(-> & -> & ->)|(HE0 & HFm & <-)]; [done|].
    decide_test (E =? 0) false. decide_test (E =? 2 * emax - 1) false. by rewrite HFm.
Qed.

Lemma float_bits_range f :
  valid_binary prec emax f = true → 0 ≤ float_bits prec emax f < 4 * emax * frac.
Proof.
  pose proof frac_pos as Hf. intros Hv. destruct f as [s|s| |s m e].
  - cbn [float_bits]. destruct s; nia.
  - cbn [float_bits]. destruct s; nia.
  - cbn [float_bits]. assert (frac / 2 < frac) by (apply Z.div_lt; lia).
    pose proof (Z.div_pos frac 2 ltac:(lia) ltac:(lia)). nia.
  - destruct (float_bits_split s m e Hv) as (E & F & -> & HE & HF & _). destruct s; nia.
Qed.
End format.

(** * Rounding *)

Section rounding.
  Context (prec emax : Z) (Hprec : 1 < prec) (Hemax : prec < emax).

Abbreviation emin := (SpecFloat.emin prec emax).

Lemma pow_prec : 2 ^ prec = 2 * 2 ^ (prec - 1).
Proof. rewrite <- Z.pow_succ_r by lia. f_equal. lia. Qed.

(** A number of the format from its significand and exponent. *)
Lemma finite_valid s m e :
  Zpos m < 2 ^ prec → emin ≤ e ≤ emax - prec → (e = emin ∨ 2 ^ (prec - 1) ≤ Zpos m) →
  valid_binary prec emax (S754_finite s m e) = true.
Proof.
  intros Hm He Hc. cbn [valid_binary]. unfold bounded, canonical_mantissa, fexp.
  rewrite digits2_pos_log2. apply andb_true_iff. split; [|lia]. apply Z.eqb_eq.
  assert (Z.log2 (Zpos m) < prec) by (apply Z.log2_lt_pow2; lia).
  destruct Hc as [Hc|Hc]; [lia|].
  assert (prec - 1 ≤ Z.log2 (Zpos m)) by (apply Z.log2_le_pow2; lia). lia.
Qed.

(** Every bit pattern is a number of the format. *)
Lemma bits_float_valid bits : valid_binary prec emax (bits_float prec emax bits) = true.
Proof.
  unfold bits_float. pose proof pow_prec as Hp. pose proof (pow2_pos (prec - 1) ltac:(lia)) as Hf.
  pose proof (Z.mod_pos_bound bits (2 ^ (prec - 1)) Hf) as HF.
  pose proof (Z.mod_pos_bound (bits / 2 ^ (prec - 1)) (2 * emax) ltac:(lia)) as HE.
  destruct (Z.eqb_spec ((bits / 2 ^ (prec - 1)) mod (2 * emax)) 0).
  - destruct (bits mod 2 ^ (prec - 1)) as [|m|m] eqn:Em; [done| |lia].
    apply finite_valid; [lia| |by left]. unfold SpecFloat.emin. lia.
  - case_if; [by case_match|]. to_prop.
    destruct (bits mod 2 ^ (prec - 1) + 2 ^ (prec - 1)) as [|m|m] eqn:Em; [done| |lia].
    apply finite_valid; [lia| |right; lia]. unfold SpecFloat.emin. lia.
Qed.

(** The significand before it is renormalised. *)
Lemma round_float_significand m e :
  0 < m →
  let E := Z.max (Z.log2 m + e - (prec - 1)) emin in
  let q := round_half_even (m * 2 ^ Z.max 0 (e - E)) (2 ^ Z.max 0 (E - e)) in
  0 ≤ q ≤ 2 ^ prec ∧ (emin < E → 2 ^ (prec - 1) ≤ q).
Proof.
  intros Hm E q. pose proof (Z.log2_spec m Hm) as [Hl Hu]. pose proof (Z.log2_nonneg m) as Hn.
  set (L := Z.log2 m) in *. assert (E = Z.max (L + e - (prec - 1)) emin) as HE by done.
  pose proof (pow2_pos (Z.max 0 (E - e)) ltac:(lia)) as Hp1.
  pose proof (pow2_pos (Z.max 0 (e - E)) ltac:(lia)) as Hp2.
  assert (m * 2 ^ Z.max 0 (e - E) ≤ 2 ^ prec * 2 ^ Z.max 0 (E - e)) as Hhi.
  { rewrite <- pow2_split by lia. transitivity (2 ^ Z.succ L * 2 ^ Z.max 0 (e - E)); [nia|].
    rewrite <- pow2_split by lia. apply Z.pow_le_mono_r; lia. }
  split.
  - apply round_half_even_bounds; [lia|nia|done].
  - intros HEm. apply (round_half_even_bounds _ _ (2 ^ (prec - 1)) (2 ^ prec)); [lia| |done].
    rewrite <- pow2_split by lia. transitivity (2 ^ L * 2 ^ Z.max 0 (e - E)); [|nia].
    rewrite <- pow2_split by lia. apply Z.pow_le_mono_r; lia.
Qed.

Lemma round_float_valid s m e :
  0 < m → valid_binary prec emax (round_float prec emax s m e) = true.
Proof.
  intros Hm. pose proof (round_float_significand m e Hm) as [Hq Hl]. unfold round_float.
  pose proof pow_prec as Hpp. pose proof (pow2_pos (prec - 1) ltac:(lia)) as Hp.
  set (E := Z.max (Z.log2 m + e - (prec - 1)) emin) in *. set (q := round_half_even _ _) in *.
  destruct (Z.eqb_spec q (2 ^ prec)) as [Eq|Eq].
  - destruct (2 ^ (prec - 1)) as [|f|f] eqn:Ef; [lia| |lia].
    destruct (Z.ltb_spec (emax - prec) (E + 1)); [done|]. apply finite_valid; lia.
  - destruct q as [|f|f] eqn:Ef; [done| |lia]. destruct (Z.ltb_spec (emax - prec) E); [done|].
    apply finite_valid; lia.
Qed.

Lemma float_cast_valid f : valid_binary prec emax (float_cast prec emax f) = true.
Proof. destruct f; [done..|]. by apply round_float_valid. Qed.
End rounding.

(** Equal numbers are the same but for the sign of a zero. *)
Lemma SFeqb_eq f g : SFeqb f g = true → f = g ∨ ∃ s t, f = S754_zero s ∧ g = S754_zero t.
Proof.
  unfold SFeqb, SFcompare.
  destruct f as [[]|[]| |[] m e], g as [[]|[]| |[] n d]; try done; intros H; eauto 6;
    left; destruct (Z.compare e d) eqn:E1; try done; apply Z.compare_eq in E1 as ->;
    destruct (Pos.compare_cont Eq m n) eqn:E2; try done;
    apply Pos.compare_eq in E2 as ->; done.
Qed.

(** A [double] equal to its [float] is recovered from it. *)
Lemma float_exact f :
  SFeqb (to_double (to_float f)) f = true → to_double (to_float f) = f.
Proof.
  intros H. destruct (SFeqb_eq _ _ H) as [|(s & t & E & ->)]; [done|]. done.
Qed.

Lemma to_float_valid f : valid_binary 24 128 (to_float f) = true.
Proof. by apply float_cast_valid. Qed.

Lemma to_double_valid f : valid_binary 53 1024 (to_double f) = true.
Proof. by apply float_cast_valid. Qed.

(** * Numbers in bytes *)

Lemma write_byte (T : number_type Z) le out n :
  sizeof T = 1%nat → to_bits T n = n → write_number T le out n = [n mod 256].
Proof. intros Hs Hb. rewrite write_number_order, Hs, Hb. by destruct out. Qed.

Lemma uint_bits sz n : 0 ≤ n < 2 ^ (8 * Z.of_nat sz) →
  of_bits (uint sz) (to_bits (uint sz) n mod 2 ^ (8 * Z.of_nat (sizeof (uint sz)))) = n.
Proof. intros Hn. by apply Z.mod_small. Qed.

Lemma sint_bits sz n : (0 < sz)%nat →
  - 2 ^ (8 * Z.of_nat sz - 1) ≤ n < 2 ^ (8 * Z.of_nat sz - 1) →
  of_bits (sint sz) (to_bits (sint sz) n mod 2 ^ (8 * Z.of_nat (sizeof (sint sz)))) = n.
Proof.
  intros Hsz Hn. cbn [of_bits to_bits sint sizeof id]. unfold id, wrap_s.
  set (w := 8 * Z.of_nat sz) in *.
  assert (2 ^ w = 2 * 2 ^ (w - 1)) as Hp by (rewrite <- Z.pow_succ_r by lia; f_equal; lia).
  pose proof (pow2_pos (w - 1) ltac:(lia)) as Hpos.
  rewrite Z.add_mod_idemp_l, Z.mod_small by lia. lia.
Qed.

Lemma float32_bits f : valid_binary 24 128 f = true →
  of_bits float32 (to_bits float32 f mod 2 ^ (8 * Z.of_nat (sizeof float32))) = f.
Proof.
  intros Hf. cbn [of_bits to_bits float32 sizeof].
  pose proof (float_bits_range 24 128 ltac:(lia) ltac:(lia) f Hf) as Hr.
  rewrite Z.mod_small by (change (2 ^ (8 * Z.of_nat 4)) with (4 * 128 * 2 ^ (24 - 1)); lia).
  by apply bits_float_bits.
Qed.

Lemma float64_bits f : valid_binary 53 1024 f = true →
  of_bits float64 (to_bits float64 f mod 2 ^ (8 * Z.of_nat (sizeof float64))) = f.
Proof.
  intros Hf. cbn [of_bits to_bits float64 sizeof].
  pose proof (float_bits_range 53 1024 ltac:(lia) ltac:(lia) f Hf) as Hr.
  rewrite Z.mod_small by (change (2 ^ (8 * Z.of_nat 8)) with (4 * 1024 * 2 ^ (53 - 1)); lia).
  by apply bits_float_bits.
Qed.

#[export] Hint Resolve float32_bits float64_bits to_float_valid : verif.

(** Through the signed type and back. *)
Lemma wrap_u_s w z : wrap_u w (wrap_s w z) = z mod 2 ^ w.
Proof. unfold wrap_u, wrap_s. rewrite Zminus_mod_idemp_l. f_equal. lia. Qed.

Lemma wrap_s_in w z : 0 < w → in_s w (wrap_s w z) = true.
Proof.
  intros Hw. unfold in_s, wrap_s.
  assert (2 ^ w = 2 * 2 ^ (w - 1)) as Hp by (rewrite <- Z.pow_succ_r by lia; f_equal; lia).
  pose proof (Z.mod_pos_bound (z + 2 ^ (w - 1)) (2 ^ w)). pose proof (pow2_pos (w - 1) ltac:(lia)).
  apply andb_true_iff. split; lia.
Qed.

Lemma in_s_mono w w' z : 0 < w ≤ w' → in_s w z = true → in_s w' z = true.
Proof.
  intros Hw. unfold in_s. pose proof (Z.pow_le_mono_r 2 (w - 1) (w' - 1) ltac:(lia) ltac:(lia)).
  intros [? ?]%andb_true_iff. to_prop. apply andb_true_iff. split; lia.
Qed.
