(* ===== verification/BinaryReader.v ===== *)
(** The common part of [binary_reader] of framework/json.hpp: the members of
    the class, reading characters, numbers, strings and byte arrays from the
    input adapter, and error messages; and what the SAX interface has beyond
    what the text parser calls: byte arrays and containers of a known size.

    The reader is a state: every operation takes it and returns it with the
    result.  A function with an out parameter returns the pair of its result
    and the parameter's value.  The state holds the handler, so the
    definitions are generic in it. *)

From S2P Require Import Prelude JsonValue JsonParser BinaryNumbers.

(** * The SAX interface for binary formats *)

(** [binary_t]: the bytes and the subtype, if there is one. *)
Definition binary_t : Type := cstring * option Z.

(** [static_cast<std::size_t>(-1)]: the size of the container is not known. *)
Definition npos : Z := 2 ^ 64 - 1.

Class BinarySAX (S : Type) := {
  sax_binary : binary_t → S → sax_result S;
  sax_start_object_of : Z → S → sax_result S;
  sax_start_array_of : Z → S → sax_result S
}.

#[export] Instance acceptor_binary : BinarySAX json_sax_acceptor := {|
  sax_binary _ s := Ret (true, s);
  sax_start_object_of _ s := Ret (true, s);
  sax_start_array_of _ s := Ret (true, s)
|}.

(** [max_size()] of libstdc++ on a 64-bit host: [PTRDIFF_MAX] over the size
    of a [basic_json], and of a map's node. *)
Definition array_max_size : Z := (2 ^ 63 - 1) / 16.
Definition object_max_size : Z := (2 ^ 63 - 1) / 80.

(** [start_object] and [start_array] of the DOM builder with a size. *)
Definition dom_start_of (v : json) (what : string) (max_size len : Z) (d : json_sax_dom_parser) :
    sax_result json_sax_dom_parser :=
  '(b, d) ← dom_start v d;
  if negb (len =? npos) && (max_size <? len)
  then Throw (create_out_of_range 408
         (str "excessive " ++ str what ++ str " size: " ++ decimal len))
  else Ret (b, d).

#[export] Instance dom_binary : BinarySAX json_sax_dom_parser := {|
  sax_binary b := dom_value (J_binary b.1 b.2);
  sax_start_object_of := dom_start_of (J_object []) "object" object_max_size;
  sax_start_array_of := dom_start_of (J_array []) "array" array_max_size
|}.

Inductive input_format_t : Type := F_json | F_cbor | F_msgpack | F_ubjson | F_bson | F_bjdata.

#[global] Instance input_format_eq_dec : EqDecision input_format_t.
Proof. solve_decision. Defined.

(** * The reader *)

Record reader (S : Type) : Type := mk_reader {
  ia : cstring;
  current : Z;
  chars_read : nat;
  is_little_endian : bool;
  input_format : input_format_t;
  r_sax : S
}.
Arguments mk_reader {S}.
Arguments ia {S}.
Arguments current {S}.
Arguments chars_read {S}.
Arguments is_little_endian {S}.
Arguments input_format {S}.
Arguments r_sax {S}.

(** The constructor and [sax = sax_]. *)
Definition init_reader {S} (host_le : bool) (format : input_format_t) (input : cstring) (sax : S) :
    reader S :=
  mk_reader input eof 0 (little_endianness host_le 1) format sax.

Definition rd (S A : Type) : Type := reader S → outcome json_exn (A * reader S).

#[export] Instance rd_ret S : MRet (rd S) := λ A a r, Ret (a, r).
#[export] Instance rd_bind S : MBind (rd S) := λ A B f m r,
  match m r with
  | Ret (a, r) => f a r
  | Throw e => Throw e
  | Abort => Abort
  | Undef => Undef
  | Diverge => Diverge
  end.

(** [m && k]. *)
Definition and_also {S} (m k : rd S bool) : rd S bool :=
  b ← m; if b : bool then k else mret false.

(** [m(x) && k], where [m] sets [x]. *)
Definition and_then {S A} (m : rd S (bool * A)) (k : A → rd S bool) : rd S bool :=
  '(b, a) ← m; if b : bool then k a else mret false.

(** [m(x) && k(x, y)], where [k] sets a further parameter. *)
Definition and_set {S A B} (m : rd S (bool * A)) (b0 : B) (k : A → rd S (bool * B)) :
    rd S (bool * B) :=
  '(b, a) ← m; if b : bool then k a else mret (false, b0).

(** [for (i = 0; i < n; i++)] with a body that may leave the loop with
    [false]: at most [n] rounds. *)
Fixpoint for_pos {St} (n : positive) (body : St → outcome json_exn (bool * St)) (s : St) :
    outcome json_exn (bool * St) :=
  match n with
  | xH => body s
  | xO n' =>
      '(b, s) ← for_pos n' body s;
      if b : bool then for_pos n' body s else Ret (false, s)
  | xI n' =>
      '(b, s) ← body s;
      if b : bool then
        '(b, s) ← for_pos n' body s;
        if b : bool then for_pos n' body s else Ret (false, s)
      else Ret (false, s)
  end.

Definition for_loop {S A} (n : Z) (body : A → rd S (bool * A)) (a : A) : rd S (bool * A) := λ r,
  match n with
  | Zpos p =>
      '(b, (a, r)) ← for_pos p
        (λ '(a, r), '(b, a, r) ← body a r; Ret (b, (a, r))) (a, r);
      Ret ((b, a), r)
  | _ => Ret ((true, a), r)
  end.

(** A loop body without a variable of its own. *)
Definition round {S} (m : rd S bool) : unit → rd S (bool * unit) := λ _, ok ← m; mret (ok, ()).

(** * Reading *)

Section reading.
  Context {S : Type} `{SAX S, BinarySAX S}.

(** A SAX event. *)
Definition event (f : S → sax_result S) : rd S bool := λ r,
  '(b, s) ← f (r_sax r);
  Ret (b, mk_reader (ia r) (current r) (chars_read r) (is_little_endian r) (input_format r) s).

(** [get] with [iterator_input_adapter::get_character]. *)
Definition get : rd S Z := λ r,
  let step c q :=
    Ret (c, mk_reader q c (Datatypes.S (chars_read r)) (is_little_endian r) (input_format r)
              (r_sax r)) in
  match ia r with
  | [] => step eof []
  | c :: q => step c q
  end.

(** The member [current]. *)
Definition last_read : rd S Z := λ r, Ret (current r, r).

(** [iterator_input_adapter::get_elements] of one object of [sz] bytes: the
    bytes that were there, at most [sz]. *)
Definition get_elements (sz : nat) : rd S cstring := λ r,
  Ret (take sz (ia r),
       mk_reader (drop sz (ia r)) (current r) (chars_read r) (is_little_endian r)
         (input_format r) (r_sax r)).

Definition advance (n : nat) : rd S unit := λ r,
  Ret ((), mk_reader (ia r) (current r) (chars_read r + n) (is_little_endian r) (input_format r)
             (r_sax r)).

(** ["%.2hhX"] of the last byte. *)
Definition hex_byte (c : Z) : cstring :=
  let digit d := if d <? 10 then 48 + d else 55 + d in
  [digit (c mod 256 / 16); digit (c mod 256 mod 16)].

Definition get_token_string : rd S cstring := λ r, Ret (hex_byte (current r), r).

Definition format_name (format : input_format_t) : outcome json_exn cstring :=
  match format with
  | F_cbor => Ret (str "CBOR")
  | F_msgpack => Ret (str "MessagePack")
  | F_ubjson => Ret (str "UBJSON")
  | F_bson => Ret (str "BSON")
  | F_bjdata => Ret (str "BJData")
  | F_json => Abort
  end.

Definition exception_message (format : input_format_t) (detail : cstring) (context : string) :
    outcome json_exn cstring :=
  name ← format_name format;
  Ret (str "syntax error while parsing " ++ name ++ str " " ++ str context ++ str ": " ++ detail).

(** [sax->parse_error(chars_read, token, parse_error::create(id, chars_read,
    exception_message(format, detail, context), nullptr))]. *)
Definition report (id : Z) (token : cstring) (format : input_format_t) (detail : cstring)
    (context : string) : rd S bool := λ r,
  what ← exception_message format detail context;
  event (sax_parse_error (chars_read r) token (create_parse_error_at id (chars_read r) what)) r.

Definition unexpect_eof (format : input_format_t) (context : string) : rd S bool := λ r,
  if current r =? eof
  then report 110 (str "<end of file>") format (str "unexpected end of input") context r
  else Ret (true, r).

(** [get_to]: the bytes of the object, zero where nothing was read. *)
Definition get_to (sz : nat) (format : input_format_t) (context : string) :
    rd S (bool * cstring) :=
  bs ← get_elements sz;
  _ ← advance (length bs);
  let dest := bs ++ replicate (sz - length bs) 0 in
  if (length bs <? sz)%nat then
    _ ← advance 1;
    _ ← report 110 (str "<end of file>") format (str "unexpected end of input") context;
    mret (false, dest)
  else mret (true, dest).

(** [get_number] with [byte_swap]: the bytes are in the order of the input. *)
Definition get_number {A} (T : number_type A) (InputIsLittleEndian : bool)
    (format : input_format_t) : rd S (bool * A) := λ r,
  let value bs := of_bits T (from_memory (is_little_endian r) bs) in
  '((ok, bs), r) ← get_to (sizeof T) format "number" r;
  if negb ok then Ret ((false, value bs), r)
  else if negb (Bool.eqb (is_little_endian r)
                 (InputIsLittleEndian || bool_decide (format = F_bjdata)))
  then Ret ((true, value (rev bs)), r)
  else Ret ((true, value bs), r).

(** [len] bytes appended to [result], for strings and for byte arrays. *)
Definition get_bytes (format : input_format_t) (context : string) (len : Z) (result : cstring) :
    rd S (bool * cstring) :=
  for_loop len (λ result,
    c ← get;
    ok ← unexpect_eof format context;
    if negb ok then mret (false, result) else mret (true, result ++ [c mod 256])) result.

Definition get_string (format : input_format_t) (len : Z) (result : cstring) :
    rd S (bool * cstring) :=
  get_bytes format "string" len result.

Definition get_binary (format : input_format_t) (len : Z) (result : binary_t) :
    rd S (bool * binary_t) :=
  '(ok, bs) ← get_bytes format "binary" len result.1;
  mret (ok, (bs, result.2)).

(** [do get(); while (current == 'N')]: every round but the last reads a byte
    of the input. *)
Fixpoint get_ignore_noop_loop (fuel : nat) : rd S Z :=
  match fuel with
  | O => λ _, Diverge
  | Datatypes.S fuel' =>
      c ← get;
      if c =? 78 then get_ignore_noop_loop fuel' else mret c
  end.

Definition get_ignore_noop : rd S Z := λ r,
  get_ignore_noop_loop (Datatypes.S (length (ia r))) r.

(** Strict mode: the next byte must be the end of the input. *)
Definition expect_end (result : bool) : rd S bool := λ r,
  '(_, r) ← (if bool_decide (input_format r = F_ubjson ∨ input_format r = F_bjdata)
             then get_ignore_noop r else get r);
  if negb (current r =? eof) then
    '(token, r) ← get_token_string r;
    report 110 token (input_format r)
      (str "expected end of input; last byte: 0x" ++ token) "value" r
  else Ret (result, r).

(** [sax_parse], where [parse_internal] is what the switch on the format
    calls. *)
Definition sax_parse (parse_internal : rd S bool) (strict : bool) : rd S bool :=
  result ← parse_internal;
  if result && strict then expect_end result else mret result.
End reading.

(** What [from_cbor], [from_msgpack] and the others do with a reader for their
    format: the DOM is built, and discarded when the parse failed. *)
Definition from_binary (parse_internal : rd json_sax_dom_parser bool) (format : input_format_t)
    (host_le : bool) (input : cstring) (strict allow_exceptions_ : bool) : outcome json_exn json :=
  '(res, r) ← sax_parse parse_internal strict
    (init_reader host_le format input (mk_dom J_null [] None false allow_exceptions_));
  if res : bool then Ret (root (r_sax r)) else Ret J_discarded.
