(* ===== verification/BinaryReaderFacts.v ===== *)
(** What [binary_reader] reads when the input holds what it looks for: the
    rules for running its operations, which the formats' round trips share.

    [ran m r a q s]: the operation [m], run from the state [r], returns [a]
    and leaves the input [q] and the handler [s]. *)

From S2P Require Import Prelude JsonValue JsonParser JsonParserFacts JsonGrammar JsonRoundTrip.
From S2P Require Import BinaryNumbers BinaryNumbersFacts BinaryReader.

(** * Loops *)

(** [for_loop] with its bound as a natural number, one round at a time. *)
Fixpoint rd_for {S A} (n : nat) (body : A → rd S (bool * A)) (a : A) : rd S (bool * A) :=
  match n with
  | O => mret (true, a)
  | Datatypes.S n' =>
      '(b, a) ← body a; if b : bool then rd_for n' body a else mret (false, a)
  end.

Fixpoint for_nat {St} (n : nat) (body : St → outcome json_exn (bool * St)) (s : St) :
    outcome json_exn (bool * St) :=
  match n with
  | O => Ret (true, s)
  | Datatypes.S n' =>
      '(b, s) ← body s; if b : bool then for_nat n' body s else Ret (false, s)
  end.

Lemma for_nat_add {St} n m (body : St → outcome json_exn (bool * St)) s :
  for_nat (n + m) body s =
    '(b, s) ← for_nat n body s; if b : bool then for_nat m body s else Ret (false, s).
Proof.
  revert s. induction n as [|n IH]; intros s; simpl; [done|].
  destruct (body s) as [[[] s']| | | |]; simpl; auto.
Qed.

Lemma for_pos_nat {St} p (body : St → outcome json_exn (bool * St)) s :
  for_pos p body s = for_nat (Pos.to_nat p) body s.
Proof.
  revert s. induction p as [p IH|p IH|]; intros s; cbn [for_pos].
  - rewrite Pos2Nat.inj_xI. cbn [for_nat].
    destruct (body s) as [[[] s']| | | |]; [|done..]. cbn [mbind outcome_bind].
    replace (2 * Pos.to_nat p)%nat with (Pos.to_nat p + Pos.to_nat p)%nat by lia.
    rewrite for_nat_add, IH. destruct (for_nat _ _ s') as [[[] ?]| | | |]; simpl; rewrite ?IH; auto.
  - rewrite Pos2Nat.inj_xO.
    replace (2 * Pos.to_nat p)%nat with (Pos.to_nat p + Pos.to_nat p)%nat by lia.
    rewrite for_nat_add, IH. destruct (for_nat _ _ s) as [[[] ?]| | | |]; simpl; rewrite ?IH; auto.
  - simpl. destruct (body s) as [[[] s']| | | |]; done.
Qed.

Lemma rd_bind_run {S A B} (m : rd S A) (f : A → rd S B) r :
  (m ≫= f) r = (m r ≫= λ '(a, r), f a r).
Proof. done. Qed.

Lemma for_loop_nat {S A} n (body : A → rd S (bool * A)) a r :
  for_loop n body a r = rd_for (Z.to_nat n) body a r.
Proof.
  assert (∀ k a r,
    ('(b, (a, r)) ← for_nat k (λ '(a, r), '(b, a, r) ← body a r; Ret (b, (a, r))) (a, r);
      Ret ((b, a), r)) = rd_for k body a r) as Hk.
  { intros k. induction k as [|k IH]; intros a' r'; cbn [for_nat rd_for]; [done|].
    rewrite rd_bind_run. destruct (body a' r') as [[[[] ?] ?]| | | |]; simpl; auto. }
  unfold for_loop. destruct n as [|p|p]; [done| |done]. rewrite for_pos_nat. apply Hk.
Qed.

(** * Running *)

Section run.
  Context {S : Type} `{SAX S, BinarySAX S}.

Definition ran {A} (m : rd S A) (r : reader S) (a : A) (q : cstring) (s : S) : Prop :=
  ∃ r', m r = Ret (a, r') ∧ ia r' = q ∧ r_sax r' = s.

Lemma ran_ret {A} (a : A) r : ran (mret a) r a (ia r) (r_sax r).
Proof. by exists r. Qed.

Lemma ran_eq {A} (m m' : rd S A) r a q s : m r = m' r → ran m' r a q s → ran m r a q s.
Proof. unfold ran. by intros ->. Qed.

Lemma ran_bind {A B} (m : rd S A) (f : A → rd S B) r a q s b q' s' :
  ran m r a q s → (∀ r', ia r' = q → r_sax r' = s → ran (f a) r' b q' s') →
  ran (m ≫= f) r b q' s'.
Proof.
  intros (r1 & Hm & <- & <-) Hf. destruct (Hf r1 eq_refl eq_refl) as (r2 & Hf' & ? & ?).
  exists r2. unfold mbind, rd_bind. by rewrite Hm.
Qed.

Lemma ran_get {B} c (f : Z → rd S B) r q b q' s' :
  ia r = c :: q →
  (∀ r', ia r' = q → r_sax r' = r_sax r → current r' = c → ran (f c) r' b q' s') →
  ran (get ≫= f) r b q' s'.
Proof.
  intros Hr Hf. unfold get, ran, mbind, rd_bind. rewrite Hr. by apply Hf.
Qed.

Lemma ran_last {B} (f : Z → rd S B) r b q s :
  ran (f (current r)) r b q s → ran (last_read ≫= f) r b q s.
Proof. done. Qed.

Lemma event_run (f : S → sax_result S) r b s :
  f (r_sax r) = Ret (b, s) →
  ∃ r', event f r = Ret (b, r') ∧ ia r' = ia r ∧ current r' = current r ∧ r_sax r' = s.
Proof. intros Hf. unfold event. rewrite Hf. simpl. by eexists. Qed.

Lemma ran_event (f : S → sax_result S) r b s :
  f (r_sax r) = Ret (b, s) → ran (event f) r b (ia r) s.
Proof. intros Hf. destruct (event_run f r b s Hf) as (r' & ? & ? & _ & ?). by exists r'. Qed.

Lemma ran_and_also (m k : rd S bool) r q s b q' s' :
  ran m r true q s → (∀ r', ia r' = q → r_sax r' = s → ran k r' b q' s') →
  ran (and_also m k) r b q' s'.
Proof. intros Hm Hk. unfold and_also. by eapply ran_bind. Qed.

Lemma ran_and_then {A} (m : rd S (bool * A)) (k : A → rd S bool) r a q s b q' s' :
  ran m r (true, a) q s → (∀ r', ia r' = q → r_sax r' = s → ran (k a) r' b q' s') →
  ran (and_then m k) r b q' s'.
Proof. intros Hm Hk. unfold and_then. by eapply ran_bind. Qed.

Lemma ran_and_set {A B} (m : rd S (bool * A)) b0 (k : A → rd S (bool * B)) r a q s b q' s' :
  ran m r (true, a) q s → (∀ r', ia r' = q → r_sax r' = s → ran (k a) r' b q' s') →
  ran (and_set m b0 k) r b q' s'.
Proof. intros Hm Hk. unfold and_set. by eapply ran_bind. Qed.

(** * Numbers *)

(** Bytes in the order of the format; BJData is little endian. *)
Lemma ran_number_order {A} (T : number_type A) little format r bs q :
  ia r = bs ++ q → length bs = sizeof T →
  ran (get_number T little format) r
    (true, of_bits T (le_value (if little || bool_decide (format = F_bjdata) then bs else rev bs)))
    q (r_sax r).
Proof.
  intros Hr Hl. unfold get_number, get_to, ran.
  generalize (little || bool_decide (format = F_bjdata)). intros order.
  unfold mbind at 2, rd_bind, get_elements. rewrite Hr, <- Hl, take_app_length, drop_app_length.
  unfold mbind at 2, rd_bind, advance. cbn [ia current chars_read is_little_endian input_format r_sax].
  rewrite Nat.ltb_irrefl, Nat.sub_diag. cbn [replicate]. rewrite app_nil_r.
  unfold from_memory. cbn [mret rd_ret mbind outcome_bind negb is_little_endian].
  destruct (is_little_endian r), order; cbn [negb Bool.eqb]; rewrite ?rev_involutive;
    by eexists.
Qed.

Lemma ran_number_bytes {A} (T : number_type A) little format r bs q :
  format ≠ F_bjdata → ia r = bs ++ q → length bs = sizeof T →
  ran (get_number T little format) r
    (true, of_bits T (le_value (if little : bool then bs else rev bs))) q (r_sax r).
Proof.
  intros Hfmt Hr Hl. pose proof (ran_number_order T little format r bs q Hr Hl) as Hrun.
  by rewrite (bool_decide_eq_false_2 _ Hfmt), orb_false_r in Hrun.
Qed.

(** A number is read back as it was written, whatever the two hosts; it may
    have been written as a number of another type of the same size. *)
Lemma ran_number_as {A B} (T : number_type A) (T' : number_type B) le little format r n n' q :
  ia r = write_number T le (little || bool_decide (format = F_bjdata)) n ++ q →
  sizeof T = sizeof T' →
  of_bits T' (to_bits T n mod 2 ^ (8 * Z.of_nat (sizeof T))) = n' →
  ran (get_number T' little format) r (true, n') q (r_sax r).
Proof.
  intros Hr Hsz Hn.
  pose proof (ran_number_order T' little format r _ q Hr
    ltac:(by rewrite write_number_length, Hsz)) as Hrun.
  rewrite write_number_order in Hrun.
  replace (le_value _) with (to_bits T n mod 2 ^ (8 * Z.of_nat (sizeof T))) in Hrun.
  - by rewrite Hn in Hrun.
  - destruct (little || bool_decide (format = F_bjdata)); by rewrite ?rev_involutive, le_value_bytes.
Qed.

Lemma ran_number {A} (T : number_type A) le little format r n q :
  format ≠ F_bjdata → ia r = write_number T le little n ++ q →
  of_bits T (to_bits T n mod 2 ^ (8 * Z.of_nat (sizeof T))) = n →
  ran (get_number T little format) r (true, n) q (r_sax r).
Proof.
  intros Hfmt Hr Hn. eapply (ran_number_as T T); [|done|exact Hn].
  rewrite (bool_decide_eq_false_2 _ Hfmt), orb_false_r. exact Hr.
Qed.

(** * Strings and byte arrays *)

(** The byte just read is not the end of the input. *)
Lemma ran_unexpect {B} format ctx (f : bool → rd S B) r b q s :
  is_byte (current r) = true → ran (f true) r b q s →
  ran (unexpect_eof format ctx ≫= f) r b q s.
Proof.
  intros Hc Hf. unfold ran, mbind, rd_bind, unexpect_eof.
  assert ((current r =? eof) = false) as -> by (unfold is_byte, eof in *; zify_bool; lia). done.
Qed.

Lemma ran_bytes format ctx bs result r q :
  forallb is_byte bs = true → ia r = bs ++ q →
  ran (get_bytes format ctx (Z.of_nat (length bs)) result) r (true, result ++ bs) q (r_sax r).
Proof.
  intros Hb Hr. unfold get_bytes, ran. rewrite for_loop_nat, Nat2Z.id.
  revert result r Hb Hr. induction bs as [|c bs IH]; intros result r Hb Hr.
  - rewrite app_nil_r. simpl in Hr. subst q. apply ran_ret.
  - cbn [forallb] in Hb. apply andb_true_iff in Hb as [Hc Hb]. cbn [length rd_for].
    eapply (ran_bind _ _ r (true, result ++ [c]) (bs ++ q) (r_sax r)).
    + eapply (ran_get c _ r (bs ++ q)); [exact Hr|]. intros r1 <- <- Hcur.
      apply ran_unexpect; [by rewrite Hcur|]. cbn [negb].
      rewrite (Z.mod_small c) by (unfold is_byte in Hc; zify_bool; lia). apply ran_ret.
    + intros r1 Hr1 <-. replace (result ++ c :: bs) with ((result ++ [c]) ++ bs) by (by rewrite <- app_assoc).
      by apply IH.
Qed.

Lemma ran_string format s r q :
  forallb is_byte s = true → ia r = s ++ q →
  ran (get_string format (Z.of_nat (length s)) []) r (true, s) q (r_sax r).
Proof. intros. by apply (ran_bytes format "string" s []). Qed.

Lemma ran_binary format b st r q :
  forallb is_byte b = true → ia r = b ++ q →
  ran (get_binary format (Z.of_nat (length b)) ([], st)) r (true, (b, st)) q (r_sax r).
Proof.
  intros Hb Hr. unfold get_binary. eapply ran_bind; [by apply ran_bytes|].
  intros r' <- <-. simpl. apply ran_ret.
Qed.
End run.

(** * Values *)

Abbreviation dom := json_sax_dom_parser.

(** [parse] reads the value [j] from the bytes [bs] into the open slot. *)
Definition reads_value (parse : rd dom bool) (bs : cstring) (j : json) : Prop :=
  ∀ r q put ref, ia r = bs ++ q → slot (r_sax r) put ref →
    ∃ d, ran parse r true q d ∧ wrote (r_sax r) (put j) (ref_stack (r_sax r)) d.

(** [m] reads a member of the open object. *)
Definition reads_member (m : rd dom bool) (bs : cstring) (kv : cstring * json) : Prop :=
  ∀ r q put ref rs m0, ia r = bs ++ q → open (r_sax r) put ref rs (J_object m0) →
    ∃ d, ran m r true q d ∧
      wrote (r_sax r) (put (J_object (obj_set kv.1 kv.2 m0))) (ref :: rs) d.

(** The value of a single event. *)
Lemma ran_value v (r : reader dom) put ref :
  slot (r_sax r) put ref →
  ∃ d, ran (event (dom_value v)) r true (ia r) d ∧
    wrote (r_sax r) (put v) (ref_stack (r_sax r)) d.
Proof.
  intros Hs. eexists. split; [|by eexists]. apply ran_event. unfold dom_value.
  by rewrite (slot_handle _ _ _ Hs).
Qed.

Lemma slot_of_open (d : dom) put ref rs l0 :
  open d put ref rs (J_array l0) →
  slot d (λ v, put (J_array (l0 ++ [v]))) (ref ++ [p_idx (length l0)]).
Proof.
  intros (Hr & Hrs & Hg & Hset).
  pose proof (slot_element put ref l0 rs (object_element d) (errored d) (allow_exceptions d)
    Hg Hset) as Hslot.
  replace (mk_dom _ _ _ _ _) with d in Hslot by (destruct d; simpl in *; by subst). done.
Qed.

Lemma rd_for_round (m : rd dom bool) n r r' :
  m r = Ret (true, r') → rd_for (S n) (round m) () r = rd_for n (round m) () r'.
Proof.
  intros Hm. assert (round m () r = Ret ((true, ()), r')) as Hr.
  { unfold round. by rewrite rd_bind_run, Hm. }
  cbn [rd_for]. by rewrite rd_bind_run, Hr.
Qed.

(** The elements of an array, one after the other. *)
Lemma reads_elements parse encs l :
  Forall2 (reads_value parse) encs l →
  ∀ r q put ref rs l0, ia r = concat encs ++ q → open (r_sax r) put ref rs (J_array l0) →
  ∃ d, ran (rd_for (length l) (round parse) ()) r (true, ()) q d ∧
    wrote (r_sax r) (put (J_array (l0 ++ l))) (ref :: rs) d.
Proof.
  induction 1 as [|bs j encs l Hj _ IH]; intros r q put ref rs l0 Hr Ho.
  - simpl in *. subst q. exists (r_sax r). split; [apply ran_ret|]. rewrite app_nil_r.
    destruct Ho as (Hroot & Hrs & _). exists (object_element (r_sax r)).
    rewrite <- Hroot, <- Hrs. by destruct (r_sax r).
  - cbn [concat length] in *. rewrite <- app_assoc in Hr.
    destruct (Hj r _ _ _ Hr (slot_of_open _ _ _ _ _ Ho)) as (d1 & Hrun & Hw).
    pose proof Ho as (_ & Hrs & Hg & Hset). rewrite Hrs in Hw.
    pose proof (wrote_open _ _ _ _ put ref _ Hw eq_refl Hg Hset) as Ho1.
    destruct Hrun as (r1 & Hm & Hq & Hd). subst d1.
    destruct (IH r1 q put ref rs _ Hq Ho1) as (d2 & Hrun2 & Hw2). rewrite <- app_assoc in Hw2.
    exists d2. split; [|by eapply wrote_trans].
    destruct Hrun2 as (r2 & Hm2 & Hq2 & Hd2). exists r2. split; [|done].
    by rewrite (rd_for_round _ _ _ _ Hm).
Qed.

Lemma reads_members m encs ms :
  Forall2 (reads_member m) encs ms →
  ∀ r q put ref rs m0, ia r = concat encs ++ q → open (r_sax r) put ref rs (J_object m0) →
  ∃ d, ran (rd_for (length ms) (round m) ()) r (true, ()) q d ∧
    wrote (r_sax r) (put (J_object (build_object ms m0))) (ref :: rs) d.
Proof.
  induction 1 as [|bs kv encs ms Hkv _ IH]; intros r q put ref rs m0 Hr Ho.
  - simpl in *. subst q. exists (r_sax r). split; [apply ran_ret|].
    destruct Ho as (Hroot & Hrs & _). exists (object_element (r_sax r)).
    rewrite <- Hroot, <- Hrs. by destruct (r_sax r).
  - cbn [concat length] in *. rewrite <- app_assoc in Hr.
    destruct (Hkv r _ _ _ _ _ Hr Ho) as (d1 & (r1 & Hm & Hq & Hd) & Hw). subst d1.
    pose proof Ho as (_ & Hrs & Hg & Hset).
    pose proof (wrote_open _ _ _ _ put ref _ Hw eq_refl Hg Hset) as Ho1.
    destruct (IH r1 q put ref rs _ Hq Ho1) as (d2 & (r2 & Hm2 & Hq2 & Hd2) & Hw2).
    exists d2. split; [|by eapply wrote_trans]. exists r2. split; [|done].
    by rewrite (rd_for_round _ _ _ _ Hm).
Qed.

(** * Containers of a known size *)

Lemma max_size_32 : 2 ^ 32 ≤ array_max_size ∧ 2 ^ 32 ≤ object_max_size.
Proof. by vm_compute. Qed.

Lemma dom_start_of_slot v what max len d put ref :
  slot d put ref → len ≤ max →
  ∃ d', dom_start_of v what max len d = Ret (true, d') ∧
    wrote d (put v) (ref :: ref_stack d) d' ∧ open d' put ref (ref_stack d) v.
Proof.
  intros Hs Hlen. destruct (dom_start_slot v d put ref Hs) as (d' & Hd & Hw & Ho).
  exists d'. split; [|done]. unfold dom_start_of. rewrite Hd. cbn [mbind outcome_bind].
  decide_test (max <? len) false. by rewrite andb_false_r.
Qed.

(** The same for a container of unknown size. *)
Lemma dom_start_of_npos v what max d put ref :
  slot d put ref →
  ∃ d', dom_start_of v what max npos d = Ret (true, d') ∧
    wrote d (put v) (ref :: ref_stack d) d' ∧ open d' put ref (ref_stack d) v.
Proof.
  intros Hs. destruct (dom_start_slot v d put ref Hs) as (d' & Hd & Hw & Ho).
  exists d'. split; [|done]. unfold dom_start_of. rewrite Hd. by cbn [mbind outcome_bind].
Qed.

(** A container: the start event, the loop over its elements, the end event. *)
Lemma ran_container (start : dom → sax_result dom) (loop : rd dom (bool * unit)) kind v c
    (r : reader dom) put ref rs q :
  (∃ d, start (r_sax r) = Ret (true, d) ∧ wrote (r_sax r) (put v) (ref :: rs) d ∧
     open d put ref rs v) →
  (∀ r1, ia r1 = ia r → current r1 = current r → open (r_sax r1) put ref rs v →
     ∃ d, ran loop r1 (true, ()) q d ∧ wrote (r_sax r1) (put c) (ref :: rs) d) →
  kind c = true →
  ∃ d, ran (and_also (event start) (and_then loop (λ _, event (dom_end kind)))) r true q d ∧
    wrote (r_sax r) (put c) rs d.
Proof.
  intros (d1 & Hd1 & Hw1 & Ho1) Hloop Hc.
  destruct (event_run start r true d1 Hd1) as (r1 & Hm1 & Hq1 & Hc1 & <-).
  destruct (Hloop r1 Hq1 Hc1 Ho1) as (d2 & (r2 & Hm2 & Hq2 & <-) & Hw2).
  pose proof Ho1 as (_ & _ & Hg & Hset).
  pose proof (wrote_open _ _ _ _ put ref _ Hw2 eq_refl Hg Hset) as Ho2.
  destruct (dom_end_open kind _ put ref _ _ Ho2 Hc) as (d3 & Hd3 & Hw3).
  destruct (ran_event (dom_end kind) r2 true d3 Hd3) as (r3 & Hm3 & Hq3 & <-).
  exists (r_sax r3). split; [|by do 2 (eapply wrote_trans; [done|])].
  exists r3. split; [|by rewrite Hq3]. unfold and_also, and_then.
  rewrite rd_bind_run, Hm1. cbn [mbind outcome_bind]. rewrite rd_bind_run, Hm2. exact Hm3.
Qed.

(** The same with a loop that sets nothing. *)
Lemma ran_container_bool (start : dom → sax_result dom) (loop : rd dom bool) kind v c
    (r : reader dom) put ref rs q :
  (∃ d, start (r_sax r) = Ret (true, d) ∧ wrote (r_sax r) (put v) (ref :: rs) d ∧
     open d put ref rs v) →
  (∀ r1, ia r1 = ia r → current r1 = current r → open (r_sax r1) put ref rs v →
     ∃ d, ran loop r1 true q d ∧ wrote (r_sax r1) (put c) (ref :: rs) d) →
  kind c = true →
  ∃ d, ran (and_also (event start) (and_also loop (event (dom_end kind)))) r true q d ∧
    wrote (r_sax r) (put c) rs d.
Proof.
  intros Hstart Hloop Hc.
  destruct (ran_container start (round loop ()) kind v c r put ref rs q Hstart) as (d & Hrun & Hw); [|done|].
  - intros r1 Hr1 Hc1 Ho. destruct (Hloop r1 Hr1 Hc1 Ho) as (d & Hrun & Hw). exists d. split; [|done].
    eapply ran_bind; [exact Hrun|]. intros r2 <- <-. apply ran_ret.
  - exists d. split; [|done]. eapply ran_eq; [|exact Hrun]. unfold and_also, and_then, round.
    rewrite !rd_bind_run. destruct (event start r) as [[[] r1]| | | |]; try done.
    cbn [mbind outcome_bind]. rewrite !rd_bind_run. by destruct (loop r1) as [[[] r2]| | | |].
Qed.

Lemma ran_for_loop {S A} n (body : A → rd S (bool * A)) a r b q s :
  ran (rd_for n body a) r b q s → ran (for_loop (Z.of_nat n) body a) r b q s.
Proof. unfold ran. by rewrite for_loop_nat, Nat2Z.id. Qed.

Lemma reads_array parse encs l :
  Forall2 (reads_value parse) encs l → Z.of_nat (length l) ≤ array_max_size →
  reads_value
    (and_also (event (sax_start_array_of (Z.of_nat (length l))))
       (and_then (for_loop (Z.of_nat (length l)) (round parse) ())
          (λ _, event sax_end_array))) (concat encs) (J_array l).
Proof.
  intros Hl Hlen r q put ref Hr Hslot.
  apply (ran_container _ _ is_array (J_array []) _ r put ref); [..|done].
  - by apply dom_start_of_slot.
  - intros r1 Hr1 _ Ho. rewrite Hr in Hr1.
    destruct (reads_elements parse encs l Hl r1 q put ref _ [] Hr1 Ho) as (d & Hrun & Hw).
    exists d. split; [by apply ran_for_loop|done].
Qed.

Lemma reads_object m encs ms :
  Forall2 (reads_member m) encs ms → Z.of_nat (length ms) ≤ object_max_size →
  reads_value
    (and_also (event (sax_start_object_of (Z.of_nat (length ms))))
       (and_then (for_loop (Z.of_nat (length ms)) (round m) ())
          (λ _, event sax_end_object))) (concat encs) (J_object (build_object ms [])).
Proof.
  intros Hl Hlen r q put ref Hr Hslot.
  apply (ran_container _ _ is_object (J_object []) _ r put ref); [..|done].
  - by apply dom_start_of_slot.
  - intros r1 Hr1 _ Ho. rewrite Hr in Hr1.
    destruct (reads_members m encs ms Hl r1 q put ref _ [] Hr1 Ho) as (d & Hrun & Hw).
    exists d. split; [by apply ran_for_loop|done].
Qed.

(** * Members and whole inputs *)

(** A key and a value make a member. *)
Lemma ran_key_value (key : rd dom (bool * cstring)) parse bs k j (r : reader dom) q put ref rs m0 :
  ran key r (true, k) (bs ++ q) (r_sax r) → reads_value parse bs j →
  open (r_sax r) put ref rs (J_object m0) →
  ∃ d, ran (and_also (and_then key (λ k, event (sax_key k))) parse) r true q d ∧
    wrote (r_sax r) (put (J_object (obj_set k j m0))) (ref :: rs) d.
Proof.
  intros (r1 & Hm1 & Hq1 & Hs1) Hj Ho. rewrite <- Hs1 in Ho.
  destruct (dom_key_open k _ put ref rs m0 Ho) as (d1 & Hd1 & Hw1 & Hrs & Hslot).
  destruct (ran_event (dom_key k) r1 true d1 Hd1) as (r2 & Hm2 & Hq2 & <-).
  rewrite Hq1 in Hq2. destruct (Hj r2 q _ _ Hq2 Hslot) as (d2 & (r3 & Hm3 & Hq3 & <-) & Hw2).
  rewrite Hrs in Hw2. rewrite <- Hs1. exists (r_sax r3). split; [|by eapply wrote_trans].
  exists r3. split; [|done]. unfold and_also, and_then.
  rewrite rd_bind_run, rd_bind_run, Hm1. cbn [mbind outcome_bind].
  change (sax_key k) with (dom_key k). rewrite Hm2. exact Hm3.
Qed.

Lemma reads_key_value (key : rd dom (bool * cstring)) parse kbs bs k j :
  (∀ r q, ia r = kbs ++ q → ran key r (true, k) q (r_sax r)) → reads_value parse bs j →
  reads_member (and_also (and_then key (λ k, event (sax_key k))) parse) (kbs ++ bs) (k, j).
Proof.
  intros Hkey Hj r q put ref rs m0 Hr Ho. rewrite <- app_assoc in Hr.
  eapply ran_key_value; [by apply Hkey|done..].
Qed.

(** The same when the first byte of the key is read by itself. *)
Lemma reads_first_member (key : rd dom (bool * cstring)) parse c kbs bs k j :
  (∀ r q, ia r = kbs ++ q → current r = c → ran key r (true, k) q (r_sax r)) →
  reads_value parse bs j →
  reads_member (_ ← get; and_also (and_then key (λ k, event (sax_key k))) parse)
    ((c :: kbs) ++ bs) (k, j).
Proof.
  intros Hkey Hj.
  assert (reads_member (and_also (and_then (_ ← get; key) (λ k, event (sax_key k))) parse)
    ((c :: kbs) ++ bs) (k, j)) as Hm.
  { apply reads_key_value; [|done]. intros r q Hr. cbn [app] in Hr.
    eapply ran_get; [exact Hr|]. intros r1 Hr1 <- Hc. by apply Hkey. }
  intros r q put ref rs m0 Hr Ho. destruct (Hm r q put ref rs m0 Hr Ho) as (d & Hd & Hw).
  exists d. split; [|done]. eapply ran_eq; [|exact Hd].
  unfold and_also, and_then. rewrite !rd_bind_run. unfold get. by destruct (ia r).
Qed.

(** The fuel of the whole input is enough for any part of it. *)
Lemma reads_value_more k (parse : nat → rd dom bool) bs j :
  (0 < k)%nat → (∀ fuel, (length bs < fuel)%nat → reads_value (parse fuel) bs j) →
  reads_value (λ r, parse (k + length (ia r))%nat r) bs j.
Proof.
  intros Hk Hj r q put ref Hr Hslot.
  destruct (Hj (k + length (ia r))%nat ltac:(rewrite Hr, length_app; lia) r q put ref Hr Hslot)
    as (d & Hrun & Hw). by exists d.
Qed.

Lemma reads_value_fuel (parse : nat → rd dom bool) bs j :
  (∀ fuel, (length bs < fuel)%nat → reads_value (parse fuel) bs j) →
  reads_value (λ r, parse (S (length (ia r))) r) bs j.
Proof. apply (reads_value_more 1). lia. Qed.

(** A reader that takes the input as a value returns that value. *)
Lemma from_binary_reads parse format le bs j strict ae :
  reads_value parse bs j →
  from_binary parse format le bs strict ae = Ret j.
Proof.
  intros Hj. unfold from_binary, sax_parse. set (r := init_reader le format bs _).
  destruct (Hj r [] (λ v, v) [] ltac:(by rewrite app_nil_r) (slot_top _ _ _ _))
    as (d & (r1 & Hm & Hq & <-) & (oe & Hw)).
  rewrite rd_bind_run, Hm. cbn [mbind outcome_bind].
  destruct strict; cbn [andb]; [|unfold mret, rd_ret; cbn [mbind outcome_bind]; by rewrite Hw].
  unfold expect_end. assert (∃ r2, (if bool_decide (input_format r1 = F_ubjson ∨
    input_format r1 = F_bjdata) then get_ignore_noop r1 else get r1) = Ret (eof, r2) ∧
    current r2 = eof ∧ r_sax r2 = r_sax r1) as (r2 & -> & Hc & Hs).
  { clear Hm. destruct r1; simpl in Hq; subst. case_bool_decide; by eexists. }
  cbn [mbind outcome_bind]. rewrite Hc. cbn. by rewrite Hs, Hw.
Qed.

(** * Values after their first byte *)

(** The value that starts with the byte [c]. *)
Definition reads_after (m : rd dom bool) (c : Z) (bs : cstring) (j : json) : Prop :=
  ∀ r q put ref, ia r = bs ++ q → current r = c → slot (r_sax r) put ref →
    ∃ d, ran m r true q d ∧ wrote (r_sax r) (put j) (ref_stack (r_sax r)) d.

Lemma reads_after_value m c bs j : reads_value m bs j → reads_after m c bs j.
Proof. intros Hm r q put ref Hr _ Hs. by apply (Hm r q put ref). Qed.

(** A single event, and a number and an event. *)
Lemma reads_event v c : reads_after (event (dom_value v)) c [] v.
Proof. intros r q put ref Hr _ Hslot. simpl in Hr. subst q. by apply (ran_value v r put ref). Qed.

Lemma reads_number {A} (T : number_type A) le little format n c (v : A → json) :
  format ≠ F_bjdata →
  of_bits T (to_bits T n mod 2 ^ (8 * Z.of_nat (sizeof T))) = n →
  reads_after (and_then (get_number T little format) (λ n, event (dom_value (v n)))) c
    (write_number T le little n) (v n).
Proof.
  intros Hf Hn r q put ref Hr _ Hslot.
  destruct (ran_number T le little format r n q Hf Hr Hn) as (r1 & Hm & Hq & Hs).
  rewrite <- Hs in *. destruct (ran_value (v n) r1 put ref Hslot) as (d & (r2 & Hm2 & ? & ?) & Hw).
  exists d. split; [|done]. exists r2. split; [|split; congruence].
  unfold and_then. rewrite rd_bind_run, Hm. exact Hm2.
Qed.

(** The byte that starts a value has been read. *)
Lemma reads_get (m : Z → rd dom bool) c bs j :
  reads_after (m c) c bs j → reads_value (c ← get; m c) (c :: bs) j.
Proof.
  intros Hm r q put ref Hr Hslot.
  assert (∃ r1, get r = Ret (c, r1) ∧ ia r1 = bs ++ q ∧ r_sax r1 = r_sax r ∧ current r1 = c)
    as (r1 & Hg & Hq & Hs & Hc).
  { unfold get. rewrite Hr. by eexists. }
  rewrite <- Hs in *. destruct (Hm r1 q put ref Hq Hc Hslot) as (d & (r2 & Hm2 & ? & ?) & Hw).
  exists d. split; [|done]. exists r2. split; [|done]. by rewrite rd_bind_run, Hg.
Qed.

(** What has been read is the value of an event. *)
Lemma reads_and_then {A} (m : rd dom (bool * A)) a (v : A → json) c bs :
  (∀ r q, ia r = bs ++ q → current r = c → ran m r (true, a) q (r_sax r)) →
  reads_after (and_then m (λ a, event (dom_value (v a)))) c bs (v a).
Proof.
  intros Hrun r q put ref Hr Hc Hslot. destruct (Hrun r q Hr Hc) as (r1 & Hm & Hq & Hs).
  rewrite <- Hs in *. destruct (ran_value (v a) r1 put ref Hslot) as (d & (r2 & Hm2 & ? & ?) & Hw).
  exists d. split; [|done]. exists r2. split; [|split; congruence].
  unfold and_then. rewrite rd_bind_run, Hm. exact Hm2.
Qed.

(** A size and what has this size: a string, a byte array, a container. *)
Section sized.
  Context (le : bool) (format : input_format_t) (Hformat : format ≠ F_bjdata) (T : number_type Z).

Abbreviation put n := (write_number T le false n).
Abbreviation exact n := (of_bits T (to_bits T n mod 2 ^ (8 * Z.of_nat (sizeof T))) = n).

Lemma ran_sized_string s (r : reader dom) q :
  forallb is_byte s = true → exact (Z.of_nat (length s)) →
  ia r = (put (Z.of_nat (length s)) ++ s) ++ q →
  ran (and_set (get_number T false format) [] (λ len, get_string format len [])) r
    (true, s) q (r_sax r).
Proof.
  intros Hs HT Hr. rewrite <- app_assoc in Hr. eapply ran_and_set; [by eapply ran_number|].
  intros r' Hr' <-. by apply ran_string.
Qed.

Lemma ran_sized_binary b st (r : reader dom) q :
  forallb is_byte b = true → exact (Z.of_nat (length b)) →
  ia r = (put (Z.of_nat (length b)) ++ b) ++ q →
  ran (and_set (get_number T false format) ([], st) (λ len, get_binary format len ([], st)))
    r (true, (b, st)) q (r_sax r).
Proof.
  intros Hs HT Hr. rewrite <- app_assoc in Hr. eapply ran_and_set; [by eapply ran_number|].
  intros r' Hr' <-. by apply ran_binary.
Qed.

Lemma reads_sized (container : Z → rd dom bool) n c bs j :
  exact n → reads_value (container n) bs j →
  reads_after (and_then (get_number T false format) container) c (put n ++ bs) j.
Proof.
  intros HT Hc r q p ref Hr _ Hslot. rewrite <- app_assoc in Hr.
  destruct (ran_number T le false format r n _ Hformat Hr HT) as (r1 & Hm & Hq & Hs).
  rewrite <- Hs in *. destruct (Hc r1 q p ref Hq Hslot) as (d & (r2 & Hm2 & ? & ?) & Hw).
  exists d. split; [|done]. exists r2. split; [|done].
  unfold and_then. rewrite rd_bind_run, Hm. exact Hm2.
Qed.
End sized.

(** * Values up to the format *)

(** A value with [f] applied to its leaves. *)
Fixpoint leaf_map (f : json → json) (j : json) : json :=
  match j with
  | J_object m => J_object (map (λ kv, (kv.1, leaf_map f kv.2)) m)
  | J_array l => J_array (map (leaf_map f) l)
  | _ => f j
  end.

(** Every length in the value fits [w] bits, and nothing is discarded. *)
Definition node_fits (w : Z) (j : json) : bool :=
  let fits {A} (l : list A) := Z.of_nat (length l) <? 2 ^ w in
  match j with
  | J_string s => fits s
  | J_binary b _ => fits b
  | J_array l => fits l
  | J_object m => fits m && forallb (λ kv, fits kv.1) m
  | J_discarded => false
  | _ => true
  end.

Definition json_fits (w : Z) (j : json) : bool := json_forall (node_fits w) j.

(** Decimal numbers are written with bytes. *)
Lemma decimal_bytes n : 0 ≤ n → forallb is_byte (decimal n) = true.
Proof.
  unfold decimal. intros Hn. assert (∀ fuel n acc, 0 ≤ n → forallb is_byte acc = true →
    forallb is_byte (dec_loop fuel n acc) = true) as Hl; [|by apply Hl].
  clear n Hn. intros fuel. induction fuel as [|fuel IH]; intros n acc Hn Ha; cbn [dec_loop]; [done|].
  pose proof (Z.mod_pos_bound n 10 ltac:(lia)) as Hm.
  assert (forallb is_byte (48 + n mod 10 :: acc) = true) as Ha'.
  { cbn [forallb]. rewrite Ha. unfold is_byte. zify_bool. lia. }
  case_if; [done|]. apply IH; [apply Z.div_pos; lia|done].
Qed.

(** * The first byte *)

Ltac switch :=
  repeat match goal with
  | |- context [if ?b then _ else _] =>
      first [ assert (b = false) as -> by (unfold in_range, eof; lia)
            | assert (b = true) as -> by (unfold in_range, eof; lia) ]
  end.

Lemma byte_in n : 0 ≤ n < 256 → n mod 256 = n.
Proof. apply Z.mod_small. Qed.

(** The size in the low bits of the byte. *)
Lemma land_1F c N : 0 ≤ N < 32 → Z.land (c * 32 + N) 0x1F = N.
Proof.
  intros HN. change 0x1F with (Z.ones 5). rewrite Z.land_ones by lia. change (2 ^ 5) with 32.
  rewrite Z.add_comm, Z.mod_add, Z.mod_small by lia. lia.
Qed.

Lemma land_0F c N : 0 ≤ N < 16 → Z.land (c * 16 + N) 0x0F = N.
Proof.
  intros HN. change 0x0F with (Z.ones 4). rewrite Z.land_ones by lia. change (2 ^ 4) with 16.
  rewrite Z.add_comm, Z.mod_add, Z.mod_small by lia. lia.
Qed.

(** * Lists of encodings *)

Lemma concat_length_elem {A} (x : list A) ls : In x ls → (length x ≤ length (concat ls))%nat.
Proof.
  induction ls as [|y ls IH]; simpl; [done|]. rewrite length_app. intros [->|Hx]; [lia|].
  specialize (IH Hx). lia.
Qed.

Lemma Forall2_maps {X A B} (R : A → B → Prop) (f : X → A) (g : X → B) l :
  (∀ x, In x l → R (f x) (g x)) → Forall2 R (map f l) (map g l).
Proof.
  induction l as [|x l IH]; simpl; intros Hl; constructor; [by apply Hl; left|].
  apply IH. auto.
Qed.

(** What the elements of a list are encoded to is shorter than the whole. *)
Lemma flat_map_elem {X A} (f : X → list A) l x :
  In x l → (length (f x) ≤ length (flat_map f l))%nat.
Proof. intros Hx. rewrite flat_map_concat_map. by apply concat_length_elem, in_map. Qed.

Lemma build_object_leaf_map f m :
  keys_sorted m = true →
  build_object (map (λ kv, (kv.1, leaf_map f kv.2)) m) [] = map (λ kv, (kv.1, leaf_map f kv.2)) m.
Proof. intros Hm. rewrite build_object_sorted; [done|]. cbn [app]. by rewrite (keys_sorted_map (leaf_map f)). Qed.

(** * Equality of values up to the format *)

(** The leaves that compare equal to what is read back. *)
Lemma leaf_map_eqb f j :
  json_forall (λ j, is_structured j || json_eqb (f j) j) j = true → json_eqb (leaf_map f j) j = true.
Proof.
  induction j as [|m IH|l IH|s|b|z|z|d|b st|] using json_rect_nested; cbn [json_forall leaf_map];
    intros Hj; to_prop; try (by destruct H).
  - clear H. induction m as [|[k v] m IHm]; [done|]. cbn [map forallb fst snd] in *. to_prop.
    inversion_clear IH as [|? ? Hv Hm]. cbn [snd] in Hv. cbn [json_eqb].
    rewrite cs_eqb_refl, (Hv H). by apply IHm.
  - clear H. induction l as [|v l IHl]; [done|]. cbn [map forallb] in *. to_prop.
    inversion_clear IH as [|? ? Hv Hl]. cbn [json_eqb]. rewrite (Hv H). by apply IHl.
Qed.
