(* ===== verification/MsgPack.v ===== *)
(** MessagePack in framework/json.hpp: [parse_msgpack_internal] and its
    helpers of [binary_reader], [write_msgpack] of [binary_writer], and
    [to_msgpack] and [from_msgpack].

    The reader's fuel bounds the nesting of values; every level reads the byte
    that starts it, so one more than the length of the input is enough.  The
    writer returns the bytes it writes. *)

From S2P Require Import Prelude JsonValue JsonParser BinaryNumbers BinaryReader.

(** * Reading *)

Section reader.
  Context {S : Type} `{SAX S, BinarySAX S}.

(** [get_number(input_format_t::msgpack, number)]. *)
Abbreviation number T := (get_number T false F_msgpack).

Definition get_msgpack_string (result : cstring) : rd S (bool * cstring) :=
  ok ← unexpect_eof F_msgpack "string";
  if negb ok then mret (false, result) else
  c ← last_read;
  let sized T := and_set (number T) result (λ len, get_string F_msgpack len result) in
  if in_range 0xA0 0xBF c then get_string F_msgpack (Z.land c 0x1F) result
  else if c =? 0xD9 then sized uint8
  else if c =? 0xDA then sized uint16
  else if c =? 0xDB then sized uint32
  else
    last_token ← get_token_string;
    b ← report 113 last_token F_msgpack
      (str "expected length specification (0xA0-0xBF, 0xD9-0xDB); last byte: 0x" ++ last_token)
      "string";
    mret (b, result).

(** [assign_and_return_true]: the subtype is read as [int8_t] and stored as
    [uint8_t]. *)
Definition assign_subtype (subtype : Z) (b : binary_t) : binary_t := (b.1, Some (wrap_u 8 subtype)).

Definition get_msgpack_binary (result : binary_t) : rd S (bool * binary_t) :=
  let bin T := and_set (number T) result (λ len, get_binary F_msgpack len result) in
  let with_subtype len :=
    and_set (number int8) result (λ subtype,
      '(ok, b) ← get_binary F_msgpack len result;
      if ok : bool then mret (true, assign_subtype subtype b) else mret (false, b)) in
  let ext T := and_set (number T) result with_subtype in
  c ← last_read;
  if c =? 0xC4 then bin uint8
  else if c =? 0xC5 then bin uint16
  else if c =? 0xC6 then bin uint32
  else if c =? 0xC7 then ext uint8
  else if c =? 0xC8 then ext uint16
  else if c =? 0xC9 then ext uint32
  else if c =? 0xD4 then with_subtype 1
  else if c =? 0xD5 then with_subtype 2
  else if c =? 0xD6 then with_subtype 4
  else if c =? 0xD7 then with_subtype 8
  else if c =? 0xD8 then with_subtype 16
  else mret (false, result).

(** The containers; [parse] is [parse_msgpack_internal]. *)
Definition get_msgpack_array (parse : rd S bool) (len : Z) : rd S bool :=
  and_also (event (sax_start_array_of len))
    (and_then (for_loop len (round parse) ())
       (λ _, event sax_end_array)).

Definition get_msgpack_member (parse : rd S bool) : rd S bool :=
  _ ← get;
  and_also (and_then (get_msgpack_string []) (λ key, event (sax_key key))) parse.

Definition get_msgpack_object (parse : rd S bool) (len : Z) : rd S bool :=
  and_also (event (sax_start_object_of len))
    (and_then (for_loop len (round (get_msgpack_member parse)) ())
       (λ _, event sax_end_object)).

(** The [switch] on the byte [c] that was just read: the single bytes and the
    values with a type byte, ... *)
Definition parse_msgpack_marked (parse : rd S bool) (c : Z) : rd S bool :=
  let unsigned T := and_then (number T) (λ n, event (sax_number_unsigned n)) in
  let signed T := and_then (number T) (λ n, event (sax_number_integer n)) in
  if c =? 0xC0 then event sax_null
  else if c =? 0xC2 then event (sax_boolean false)
  else if c =? 0xC3 then event (sax_boolean true)
  else if in_range 0xC4 0xC9 c || in_range 0xD4 0xD8 c then
    and_then (get_msgpack_binary ([], None)) (λ b, event (sax_binary b))
  else if c =? 0xCA then
    and_then (number float32) (λ n, event (sax_number_float (to_double n) []))
  else if c =? 0xCB then and_then (number float64) (λ n, event (sax_number_float n []))
  else if c =? 0xCC then unsigned uint8
  else if c =? 0xCD then unsigned uint16
  else if c =? 0xCE then unsigned uint32
  else if c =? 0xCF then unsigned uint64
  else if c =? 0xD0 then signed int8
  else if c =? 0xD1 then signed int16
  else if c =? 0xD2 then signed int32
  else if c =? 0xD3 then signed int64
  else if c =? 0xDC then and_then (number uint16) (get_msgpack_array parse)
  else if c =? 0xDD then and_then (number uint32) (get_msgpack_array parse)
  else if c =? 0xDE then and_then (number uint16) (get_msgpack_object parse)
  else if c =? 0xDF then and_then (number uint32) (get_msgpack_object parse)
  else if in_range 0xE0 0xFF c then event (sax_number_integer (wrap_s 8 c))
  else
    last_token ← get_token_string;
    report 112 last_token F_msgpack (str "invalid byte: 0x" ++ last_token) "value".

(** ... the containers and strings whose size is in the byte, ... *)
Definition parse_msgpack_fix (parse : rd S bool) (c : Z) : rd S bool :=
  if in_range 0x80 0x8F c then get_msgpack_object parse (Z.land c 0x0F)
  else if in_range 0x90 0x9F c then get_msgpack_array parse (Z.land c 0x0F)
  else if in_range 0xA0 0xBF c || in_range 0xD9 0xDB c then
    and_then (get_msgpack_string []) (λ s, event (sax_string s))
  else parse_msgpack_marked parse c.

(** ... the end of the input and the small integers. *)
Definition parse_msgpack_value (parse : rd S bool) (c : Z) : rd S bool :=
  if c =? eof then unexpect_eof F_msgpack "value"
  else if in_range 0x00 0x7F c then event (sax_number_unsigned c)
  else parse_msgpack_fix parse c.

Fixpoint parse_msgpack (fuel : nat) : rd S bool :=
  match fuel with
  | O => λ _, Diverge
  | Datatypes.S fuel' => c ← get; parse_msgpack_value (parse_msgpack fuel') c
  end.

Definition parse_msgpack_internal : rd S bool := λ r,
  parse_msgpack (Datatypes.S (length (ia r))) r.
End reader.

(** [from_msgpack]. *)
Definition from_msgpack (host_le : bool) (input : cstring) (strict allow_exceptions_ : bool) :
    outcome json_exn json :=
  from_binary parse_msgpack_internal F_msgpack host_le input strict allow_exceptions_.

(** * Writing *)

Definition get_msgpack_float_prefix (single : bool) : Z := if single then 0xCA else 0xCB.
Definition get_cbor_float_prefix (single : bool) : Z := if single then 0xFA else 0xFB.

(** [write_compact_float], with the prefixes of the format. *)
Definition write_compact_float (le : bool) (n : spec_float) (prefix : bool → Z) : cstring :=
  if SFleb float_lowest n && SFleb n float_max && SFeqb (to_double (to_float n)) n
  then prefix true :: write_number float32 le false (to_float n)
  else prefix false :: write_number float64 le false n.

Section writer.
  Context (le : bool).

Abbreviation put T n := (write_number T le false n).

(** A number that is not negative. *)
Definition write_msgpack_unsigned (n : Z) : cstring :=
  if n <? 128 then put uint8 n
  else if n <=? 2 ^ 8 - 1 then 0xCC :: put uint8 n
  else if n <=? 2 ^ 16 - 1 then 0xCD :: put uint16 n
  else if n <=? 2 ^ 32 - 1 then 0xCE :: put uint32 n
  else if n <=? 2 ^ 64 - 1 then 0xCF :: put uint64 n
  else [].

Definition write_msgpack_integer (n : Z) : cstring :=
  if 0 <=? n then write_msgpack_unsigned n
  else if -32 <=? n then put int8 n
  else if (- 2 ^ 7 <=? n) && (n <=? 2 ^ 7 - 1) then 0xD0 :: put int8 n
  else if (- 2 ^ 15 <=? n) && (n <=? 2 ^ 15 - 1) then 0xD1 :: put int16 n
  else if (- 2 ^ 31 <=? n) && (n <=? 2 ^ 31 - 1) then 0xD2 :: put int32 n
  else if (- 2 ^ 63 <=? n) && (n <=? 2 ^ 63 - 1) then 0xD3 :: put int64 n
  else [].

Definition write_msgpack_string (s : cstring) : cstring :=
  let N := Z.of_nat (length s) in
  (if N <=? 31 then put uint8 (Z.lor 0xA0 N)
   else if N <=? 2 ^ 8 - 1 then 0xD9 :: put uint8 N
   else if N <=? 2 ^ 16 - 1 then 0xDA :: put uint16 N
   else if N <=? 2 ^ 32 - 1 then 0xDB :: put uint32 N
   else []) ++ s.

Definition write_msgpack_array_header (N : Z) : cstring :=
  if N <=? 15 then put uint8 (Z.lor 0x90 N)
  else if N <=? 2 ^ 16 - 1 then 0xDC :: put uint16 N
  else if N <=? 2 ^ 32 - 1 then 0xDD :: put uint32 N
  else [].

Definition write_msgpack_object_header (N : Z) : cstring :=
  if N <=? 15 then put uint8 (Z.lor 0x80 (Z.land N 0xF))
  else if N <=? 2 ^ 16 - 1 then 0xDE :: put uint16 N
  else if N <=? 2 ^ 32 - 1 then 0xDF :: put uint32 N
  else [].

(** The [switch] on the size of a byte array with a subtype: the type, and
    whether it fixes the size. *)
Definition msgpack_ext_type (N : Z) : Z * bool :=
  match N with
  | 1 => (0xD4, true)
  | 2 => (0xD5, true)
  | 4 => (0xD6, true)
  | 8 => (0xD7, true)
  | 16 => (0xD8, true)
  | _ => (0xC7, false)
  end.

Definition write_msgpack_binary (b : cstring) (subtype : option Z) : cstring :=
  let use_ext := bool_decide (is_Some subtype) in
  let N := Z.of_nat (length b) in
  (if N <=? 2 ^ 8 - 1 then
     let '(output_type, fixed) := if use_ext then msgpack_ext_type N else (0xC4, false) in
     output_type :: if negb fixed then put uint8 N else []
   else if N <=? 2 ^ 16 - 1 then (if use_ext then 0xC8 else 0xC5) :: put uint16 N
   else if N <=? 2 ^ 32 - 1 then (if use_ext then 0xC9 else 0xC6) :: put uint32 N
   else []) ++
  match subtype with Some t => put int8 t | None => [] end ++ b.

Fixpoint write_msgpack (j : json) : cstring :=
  match j with
  | J_null => [0xC0]
  | J_boolean b => [if b then 0xC3 else 0xC2]
  | J_number_integer n => write_msgpack_integer n
  | J_number_unsigned n => write_msgpack_unsigned n
  | J_number_float n => write_compact_float le n get_msgpack_float_prefix
  | J_string s => write_msgpack_string s
  | J_array l => write_msgpack_array_header (Z.of_nat (length l)) ++ flat_map write_msgpack l
  | J_binary b subtype => write_msgpack_binary b subtype
  | J_object m =>
      write_msgpack_object_header (Z.of_nat (length m)) ++
      flat_map (λ kv, write_msgpack_string kv.1 ++ write_msgpack kv.2) m
  | J_discarded => []
  end.
End writer.

(** [to_msgpack] on a host with or without little endian numbers. *)
Definition to_msgpack (host_le : bool) (j : json) : cstring :=
  write_msgpack (little_endianness host_le 1) j.
