(* ===== verification/MsgPackFacts.v ===== *)
(** The MessagePack writer and reader are inverse to each other: every value
    whose sizes fit 32 bits is read back from its bytes, on whatever host, up
    to what the format does not tell apart. *)

From S2P Require Import Prelude JsonValue JsonParser JsonParserFacts JsonGrammar JsonRoundTrip.
From S2P Require Import BinaryNumbers BinaryNumbersFacts BinaryReader BinaryReaderFacts MsgPack.

(** * Values up to the format *)

(** MessagePack has one kind of non-negative integers, and subtypes of 8 bits. *)
Definition msgpack_leaf (j : json) : json :=
  match j with
  | J_number_integer z => if 0 <=? z then J_number_unsigned z else j
  | J_binary b (Some t) => J_binary b (Some (t mod 256))
  | _ => j
  end.

(** * The first byte *)

Lemma reads_first fuel c bs j :
  reads_after (parse_msgpack_value (parse_msgpack fuel) c) c bs j →
  reads_value (parse_msgpack (S fuel)) (c :: bs) j.
Proof. intros Hm. cbn [parse_msgpack]. exact (reads_get _ c bs j Hm). Qed.

Ltac switch_byte := apply reads_first; unfold parse_msgpack_value, parse_msgpack_fix, parse_msgpack_marked; switch.

(** * Scalars *)

Section msgpack.
  Context (le : bool).

Abbreviation put T n := (write_number T le false n).

Lemma reads_msgpack_unsigned fuel n :
  0 ≤ n < 2 ^ 64 → reads_value (parse_msgpack (S fuel)) (write_msgpack_unsigned le n) (J_number_unsigned n).
Proof.
  intros Hn. unfold write_msgpack_unsigned. repeat case_if; to_prop; [..|lia].
  - rewrite write_byte, byte_in by (done || lia). switch_byte. apply reads_event.
  - switch_byte. apply (reads_number uint8 le false F_msgpack n _ J_number_unsigned); [done|].
    apply uint_bits. simpl; lia.
  - switch_byte. apply (reads_number uint16 le false F_msgpack n _ J_number_unsigned); [done|].
    apply uint_bits. simpl; lia.
  - switch_byte. apply (reads_number uint32 le false F_msgpack n _ J_number_unsigned); [done|].
    apply uint_bits. simpl; lia.
  - switch_byte. apply (reads_number uint64 le false F_msgpack n _ J_number_unsigned); [done|].
    apply uint_bits. simpl; lia.
Qed.

Lemma reads_msgpack_integer fuel n :
  - 2 ^ 63 ≤ n < 2 ^ 63 →
  reads_value (parse_msgpack (S fuel)) (write_msgpack_integer le n) (msgpack_leaf (J_number_integer n)).
Proof.
  intros Hn. unfold write_msgpack_integer, msgpack_leaf. repeat case_if; to_prop; [..|lia].
  - apply reads_msgpack_unsigned. lia.
  - rewrite write_byte by done. assert (n mod 256 = n + 256) as ->.
    { rewrite <- (Z.mod_add n 1), Z.mod_small by lia. lia. }
    switch_byte. assert (wrap_s 8 (n + 256) = n) as ->.
    { unfold wrap_s. change (2 ^ 8) with 256. change (2 ^ (8 - 1)) with 128.
      replace (n + 256 + 128) with (n + 128 + 1 * 256) by lia.
      rewrite Z.mod_add, Z.mod_small by lia. lia. }
    apply reads_event.
  - switch_byte. apply (reads_number int8 le false F_msgpack n _ J_number_integer); [done|].
    apply sint_bits; [lia|simpl; lia].
  - switch_byte. apply (reads_number int16 le false F_msgpack n _ J_number_integer); [done|].
    apply sint_bits; [lia|simpl; lia].
  - switch_byte. apply (reads_number int32 le false F_msgpack n _ J_number_integer); [done|].
    apply sint_bits; [lia|simpl; lia].
  - switch_byte. apply (reads_number int64 le false F_msgpack n _ J_number_integer); [done|].
    apply sint_bits; [lia|simpl; lia].
Qed.

Lemma reads_msgpack_float fuel f :
  valid_binary 53 1024 f = true →
  reads_value (parse_msgpack (S fuel)) (write_compact_float le f get_msgpack_float_prefix)
    (J_number_float f).
Proof.
  intros Hf. unfold write_compact_float. case_if; cbn [get_msgpack_float_prefix]; to_prop.
  - switch_byte. replace (J_number_float f) with (J_number_float (to_double (to_float f)))
      by (by rewrite float_exact).
    apply (reads_number float32 le false F_msgpack (to_float f) 0xCA (λ n, J_number_float (to_double n)));
      auto with verif.
  - switch_byte. apply (reads_number float64 le false F_msgpack f 0xCB J_number_float); auto with verif.
Qed.

(** * Strings and byte arrays *)

Lemma lor_A0 N : 0 ≤ N < 32 → Z.lor 0xA0 N = 0xA0 + N.
Proof. apply (lor_shift_low 5 N 5). lia. Qed.

Ltac string_start :=
  do 2 eexists; split; [reflexivity|]; split; [unfold in_range; lia|];
  intros r q Hr Hc; unfold get_msgpack_string;
  apply ran_unexpect; [rewrite Hc; unfold is_byte; lia|]; cbn [negb]; apply ran_last;
  rewrite Hc; switch.

(** A string from its first byte on. *)
Lemma ran_msgpack_string s :
  forallb is_byte s = true → Z.of_nat (length s) < 2 ^ 32 →
  ∃ c bs, write_msgpack_string le s = c :: bs ∧
    in_range 0xA0 0xBF c || in_range 0xD9 0xDB c = true ∧
    ∀ (r : reader dom) q, ia r = bs ++ q → current r = c →
      ran (get_msgpack_string []) r (true, s) q (r_sax r).
Proof.
  intros Hs Hlen. unfold write_msgpack_string. repeat case_if; to_prop; [..|lia].
  - rewrite lor_A0, write_byte, byte_in by (done || lia). string_start.
    rewrite (land_1F 5) by lia. by apply ran_string.
  - string_start. apply (ran_sized_string le); [done|done|apply uint_bits; simpl; lia|done].
  - string_start. apply (ran_sized_string le); [done|done|apply uint_bits; simpl; lia|done].
  - string_start. apply (ran_sized_string le); [done|done|apply uint_bits; simpl; lia|done].
Qed.

Lemma reads_msgpack_string fuel s :
  forallb is_byte s = true → Z.of_nat (length s) < 2 ^ 32 →
  reads_value (parse_msgpack (S fuel)) (write_msgpack_string le s) (J_string s).
Proof.
  intros Hs Hlen. destruct (ran_msgpack_string s Hs Hlen) as (c & bs & -> & Hc & Hrun).
  apply reads_first. unfold parse_msgpack_value, parse_msgpack_fix, parse_msgpack_marked. unfold in_range in Hc. switch.
  by apply (reads_and_then _ s J_string).
Qed.

(** The byte array of a subtype. *)
Lemma ran_with_subtype b t (r : reader dom) q :
  forallb is_byte b = true → ia r = (put int8 t ++ b) ++ q →
  ran (and_set (get_number int8 false F_msgpack) ([], None) (λ subtype,
        '(ok, b) ← get_binary F_msgpack (Z.of_nat (length b)) ([], None);
        if ok : bool then mret (true, assign_subtype subtype b) else mret (false, b))) r
    (true, (b, Some (t mod 256))) q (r_sax r).
Proof.
  intros Hb Hr. rewrite <- app_assoc, write_byte in Hr by done.
  pose proof (ran_number_bytes int8 false F_msgpack r [t mod 256] (b ++ q) ltac:(done) Hr eq_refl)
    as Hn.
  eapply ran_and_set; [exact Hn|]. intros r1 Hr1 <-.
  eapply ran_bind; [by apply (ran_binary _ b None r1 q)|]. intros r2 <- <-. cbn iota beta.
  assert (assign_subtype (of_bits int8 (le_value (rev [t mod 256]))) (b, None) =
    (b, Some (t mod 256))) as ->; [|apply ran_ret].
  unfold assign_subtype. cbn [of_bits int8 sint rev app le_value fst].
  change (8 * Z.of_nat 1) with 8. rewrite wrap_u_s, Z.add_0_r, Z.mod_mod by lia. done.
Qed.

Ltac binary_start :=
  apply reads_first; unfold parse_msgpack_value, parse_msgpack_fix, parse_msgpack_marked; switch;
  match goal with
  | |- reads_after _ _ _ (J_binary ?b ?t) =>
      apply (reads_and_then _ (b, t) (λ b, J_binary b.1 b.2)); intros r q Hr Hc;
      unfold get_msgpack_binary; cbv zeta; apply ran_last; rewrite Hc; switch
  end.

Lemma ran_sized_ext (T : number_type Z) b t (r : reader dom) q :
  forallb is_byte b = true →
  of_bits T (to_bits T (Z.of_nat (length b)) mod 2 ^ (8 * Z.of_nat (sizeof T))) =
    Z.of_nat (length b) →
  ia r = (put T (Z.of_nat (length b)) ++ put int8 t ++ b) ++ q →
  ran (and_set (get_number T false F_msgpack) ([], None) (λ len,
        and_set (get_number int8 false F_msgpack) ([], None) (λ subtype,
          '(ok, b) ← get_binary F_msgpack len ([], None);
          if ok : bool then mret (true, assign_subtype subtype b) else mret (false, b)))) r
    (true, (b, Some (t mod 256))) q (r_sax r).
Proof.
  intros Hs HT Hr. rewrite <- (app_assoc (put T _)) in Hr.
  eapply ran_and_set; [by eapply ran_number|]. intros r' Hr' <-. by apply ran_with_subtype.
Qed.

Lemma msgpack_ext_cases N :
  msgpack_ext_type N = (0xC7, false) ∨
  ∃ ty, msgpack_ext_type N = (ty, true) ∧
    In (N, ty) [(1, 0xD4); (2, 0xD5); (4, 0xD6); (8, 0xD7); (16, 0xD8)].
Proof.
  destruct N as [|p|p]; [by left| |by left].
  do 5 (try destruct p as [p|p|]); try (by left); right; eexists; (split; [reflexivity|]);
    simpl; tauto.
Qed.

(** A byte array with a subtype and less than 256 bytes. *)
Lemma reads_msgpack_ext8 fuel b t :
  forallb is_byte b = true → Z.of_nat (length b) ≤ 255 →
  reads_value (parse_msgpack (S fuel))
    ((let '(output_type, fixed) := msgpack_ext_type (Z.of_nat (length b)) in
      output_type :: if negb fixed then put uint8 (Z.of_nat (length b)) else []) ++
     put int8 t ++ b) (J_binary b (Some (t mod 256))).
Proof.
  intros Hb Hlen. destruct (msgpack_ext_cases (Z.of_nat (length b))) as [->|(ty & -> & Hty)].
  - cbn [negb app]. binary_start. apply ran_sized_ext; [done|apply uint_bits; simpl; lia|done].
  - cbn [negb app]. simpl in Hty.
    repeat destruct Hty as [[= HN <-]|Hty]; [..|done];
      binary_start; rewrite HN; by apply ran_with_subtype.
Qed.

Lemma reads_msgpack_binary fuel b st :
  forallb is_byte b = true → Z.of_nat (length b) < 2 ^ 32 →
  reads_value (parse_msgpack (S fuel)) (write_msgpack_binary le b st) (msgpack_leaf (J_binary b st)).
Proof.
  intros Hb Hlen. unfold write_msgpack_binary. destruct st as [t|].
  - rewrite bool_decide_eq_true_2 by eauto. cbn [msgpack_leaf]. cbv beta iota zeta. repeat case_if; to_prop; [..|lia].
    + apply reads_msgpack_ext8; [done|lia].
    + binary_start. apply ran_sized_ext; [done|apply uint_bits; simpl; lia|done].
    + binary_start. apply ran_sized_ext; [done|apply uint_bits; simpl; lia|done].
  - rewrite bool_decide_eq_false_2 by (by intros [? [=]]). cbn [msgpack_leaf app negb].
    cbv beta iota zeta. repeat case_if; to_prop; [..|lia]; binary_start;
      (apply (ran_sized_binary le); [done|done|apply uint_bits; simpl; lia|done]).
Qed.

(** * Containers *)

Lemma lor_90 N : 0 ≤ N < 16 → Z.lor 0x90 N = 0x90 + N.
Proof. apply (lor_shift_low 9 N 4). lia. Qed.

Lemma lor_80_F N : 0 ≤ N < 16 → Z.lor 0x80 (Z.land N 0xF) = 0x80 + N.
Proof.
  intros HN. rewrite (Z.land_ones _ 4) by lia. change (2 ^ 4) with 16.
  rewrite (Z.mod_small N) by lia. apply (lor_shift_low 8 N 4); lia.
Qed.

Lemma reads_msgpack_array fuel encs l :
  Forall2 (reads_value (parse_msgpack fuel)) encs l → Z.of_nat (length l) < 2 ^ 32 →
  reads_value (parse_msgpack (S fuel))
    (write_msgpack_array_header le (Z.of_nat (length l)) ++ concat encs) (J_array l).
Proof.
  intros Hl Hlen.
  assert (reads_value (get_msgpack_array (parse_msgpack fuel) (Z.of_nat (length l)))
    (concat encs) (J_array l)) as Harr by (apply reads_array; [done|pose proof max_size_32; lia]).
  unfold write_msgpack_array_header. repeat case_if; to_prop; [..|lia]; cbn [app].
  - rewrite lor_90, write_byte, byte_in by (done || lia). cbn [app]. switch_byte.
    rewrite (land_0F 9) by lia. by apply reads_after_value.
  - switch_byte. apply (reads_sized le); [done|apply uint_bits; simpl; lia|done].
  - switch_byte. apply (reads_sized le); [done|apply uint_bits; simpl; lia|done].
Qed.

Lemma reads_msgpack_object fuel encs ms :
  Forall2 (reads_member (get_msgpack_member (parse_msgpack fuel))) encs ms →
  Z.of_nat (length ms) < 2 ^ 32 →
  reads_value (parse_msgpack (S fuel))
    (write_msgpack_object_header le (Z.of_nat (length ms)) ++ concat encs)
    (J_object (build_object ms [])).
Proof.
  intros Hl Hlen.
  assert (reads_value (get_msgpack_object (parse_msgpack fuel) (Z.of_nat (length ms)))
    (concat encs) (J_object (build_object ms []))) as Hobj
    by (apply reads_object; [done|pose proof max_size_32; lia]).
  unfold write_msgpack_object_header. repeat case_if; to_prop; [..|lia]; cbn [app].
  - rewrite lor_80_F, write_byte, byte_in by (done || lia). cbn [app]. switch_byte.
    rewrite (land_0F 8) by lia. by apply reads_after_value.
  - switch_byte. apply (reads_sized le); [done|apply uint_bits; simpl; lia|done].
  - switch_byte. apply (reads_sized le); [done|apply uint_bits; simpl; lia|done].
Qed.

Lemma reads_msgpack_member parse k bs j :
  forallb is_byte k = true → Z.of_nat (length k) < 2 ^ 32 → reads_value parse bs j →
  reads_member (get_msgpack_member parse) (write_msgpack_string le k ++ bs) (k, j).
Proof.
  intros Hk Hlen Hj. destruct (ran_msgpack_string k Hk Hlen) as (c & kbs & -> & _ & Hrun).
  by apply reads_first_member.
Qed.

(** * Values *)

Lemma write_header_nonempty N : 0 ≤ N < 2 ^ 32 →
  (0 < length (write_msgpack_array_header le N))%nat ∧
  (0 < length (write_msgpack_object_header le N))%nat.
Proof.
  intros HN. unfold write_msgpack_array_header, write_msgpack_object_header.
  split; repeat case_if; to_prop; simpl; rewrite ?write_number_length; simpl; lia.
Qed.

Lemma reads_msgpack j :
  json_wf j = true → json_fits 32 j = true →
  ∀ fuel, (length (write_msgpack le j) < fuel)%nat →
  reads_value (parse_msgpack fuel) (write_msgpack le j) (leaf_map msgpack_leaf j).
Proof.
  unfold json_wf, json_fits.
  induction j as [|m IH|l IH|s|b|z|z|f|b st|] using json_rect_nested; intros Hwf Hfit fuel Hfuel;
    (destruct fuel as [|fuel]; [lia|]); cbn [json_forall node_wf node_fits] in Hwf, Hfit;
    cbn [write_msgpack leaf_map] in *; to_prop.
  - apply reads_first. apply reads_event.
  - rewrite flat_map_concat_map in *. rewrite length_app in Hfuel.
    pose proof (proj2 (write_header_nonempty (Z.of_nat (length m)) ltac:(lia))) as Hh.
    rewrite <- build_object_leaf_map by done.
    rewrite <- (length_map (λ kv : cstring * json, (kv.1, leaf_map msgpack_leaf kv.2))) at 1.
    apply reads_msgpack_object; [|by rewrite length_map].
    apply Forall2_maps. intros [k v] Hkv. cbn [fst snd].
    rewrite List.Forall_forall in IH.
    pose proof (flat_map_elem (λ kv, write_msgpack_string le kv.1 ++ write_msgpack le kv.2) m _ Hkv)
      as He. rewrite flat_map_concat_map in He. cbn [fst snd] in He. rewrite length_app in He.
    repeat match goal with
    | H : forallb _ m = true |- _ => apply (proj1 (forallb_forall _ m)) with (x := (k, v)) in H; [|done]
    end. cbn [fst snd] in *.
    apply reads_msgpack_member; [done|lia|]. apply (IH (k, v)); [done..|]. cbn [snd]. lia.
  - rewrite flat_map_concat_map in *. rewrite length_app in Hfuel.
    pose proof (proj1 (write_header_nonempty (Z.of_nat (length l)) ltac:(lia))) as Hh.
    rewrite <- (length_map (leaf_map msgpack_leaf)) at 1.
    apply reads_msgpack_array; [|by rewrite length_map].
    apply Forall2_maps. intros x Hx. rewrite List.Forall_forall in IH.
    apply IH; [done|by apply (forallb_forall _ l)|by apply (forallb_forall _ l)|].
    pose proof (flat_map_elem (write_msgpack le) l x Hx) as He. rewrite flat_map_concat_map in He. lia.
  - by apply reads_msgpack_string.
  - destruct b; apply reads_first; apply reads_event.
  - apply reads_msgpack_integer. unfold in_s in *. to_prop. lia.
  - apply reads_msgpack_unsigned. unfold in_u in *. to_prop. lia.
  - by apply reads_msgpack_float.
  - by apply reads_msgpack_binary.
  - done.
Qed.
End msgpack.
