(* ===== verification/BinarySafety.v ===== *)
(** [binary_reader] on arbitrary input: a contract for SAX handlers under
    which its operations terminate, fail no assertion and only throw what the
    handler throws, and that the DOM builder fulfils the contract.

    The rules here are the ones the readers of the single formats use. *)

From S2P Require Import Prelude JsonValue JsonParser JsonStored JsonParserFacts JsonHandlers.
From S2P Require Import BinaryNumbers BinaryReader BinaryReaderFacts.

(** [o] returns a result that satisfies [Q], or throws what [X] allows. *)
Definition goodx {A} (X : json_exn → Prop) (o : outcome json_exn A) (Q : A → Prop) : Prop :=
  match o with
  | Ret a => Q a
  | Throw e => X e
  | _ => False
  end.

Lemma goodx_bind {A B} X (o : outcome json_exn A) (f : A → outcome json_exn B) Q R :
  goodx X o Q → (∀ a, Q a → goodx X (f a) R) → goodx X (o ≫= f) R.
Proof. destruct o; simpl; auto. Qed.

Lemma goodx_mono {A} X (o : outcome json_exn A) (Q R : A → Prop) :
  goodx X o Q → (∀ a, Q a → R a) → goodx X o R.
Proof. destruct o; simpl; auto. Qed.

(** The errors that the readers report. *)
Definition reported (e : json_exn) : Prop :=
  ∃ id pos what, e = create_parse_error_at id pos what ∧ In id [110; 112; 113; 114].

(** A size that a container of at most [max] elements may have, if [sized];
    a reader that takes any size says so with [big]. *)
Definition sized (big : Prop) (max len : Z) : Prop := big ∨ len = npos ∨ len ≤ max.

(** A byte array whose bytes are bytes, with a subtype of 64 bits. *)
Definition binary_ok (b : binary_t) : bool :=
  forallb is_byte b.1 && match b.2 with Some t => in_u 64 t | None => true end.

Definition bytes (s : cstring) : Prop := forallb is_byte s = true.
Definition binary_bytes (b : binary_t) : Prop := binary_ok b = true.

(** The contract: [binv st k s] is [sax_inv] of [SAXLaws], [told s] says that
    the handler may stop the reader, and [allowed] are the errors that may be
    reported, which include the ones of all formats.  The events must be taken or stop
    the reader, and an error that does not raise an exception must stop it. *)
Class BinaryLaws (S : Type) `{SAX S, BinarySAX S} (X : json_exn → Prop) (big : Prop) := {
  binv : list bool → bool → S → Prop;
  told : S → Prop;
  allowed : json_exn → Prop;
  blaw_reported e : reported e → allowed e;
  taken st k (r : bool * S) := binv st k r.2 ∧ (r.1 = false → told r.2);
  blaw_null st k s : binv st k s → value_pos st k → goodx X (sax_null s) (taken st false);
  blaw_boolean b st k s : binv st k s → value_pos st k →
    goodx X (sax_boolean b s) (taken st false);
  blaw_integer z st k s : binv st k s → value_pos st k → in_s 64 z = true →
    goodx X (sax_number_integer z s) (taken st false);
  blaw_unsigned z st k s : binv st k s → value_pos st k → in_u 64 z = true →
    goodx X (sax_number_unsigned z s) (taken st false);
  blaw_float f t st k s : binv st k s → value_pos st k → valid_binary 53 1024 f = true →
    goodx X (sax_number_float f t s) (taken st false);
  blaw_string v st k s : binv st k s → value_pos st k → forallb is_byte v = true →
    goodx X (sax_string v s) (taken st false);
  blaw_binary v st k s : binv st k s → value_pos st k → binary_ok v = true →
    goodx X (sax_binary v s) (taken st false);
  blaw_start_object len st k s : binv st k s → value_pos st k → sized big object_max_size len →
    goodx X (sax_start_object_of len s) (taken (false :: st) false);
  blaw_key v st k s : binv (false :: st) k s → forallb is_byte v = true →
    goodx X (sax_key v s) (taken (false :: st) true);
  blaw_end_object st k s : binv (false :: st) k s →
    goodx X (sax_end_object s) (taken st false);
  blaw_start_array len st k s : binv st k s → value_pos st k → sized big array_max_size len →
    goodx X (sax_start_array_of len s) (taken (true :: st) false);
  blaw_end_array st k s : binv (true :: st) k s →
    goodx X (sax_end_array s) (taken st false);
  blaw_parse_error pos t e st k s : binv st k s → allowed e →
    goodx X (sax_parse_error pos t e s) (λ r, r.1 = false ∧ binv st k r.2 ∧ told r.2)
}.

(** * The rules *)

Section rules.
  Context {S : Type} {X : json_exn → Prop} {big : Prop} `{BinaryLaws S X big}.

(** The handler is in the state [st], [k], and at most [n] bytes are left. *)
Definition holds (st : list bool) (k : bool) (n : nat) (r : reader S) : Prop :=
  binv st k (r_sax r) ∧ (length (ia r) ≤ n)%nat ∧ forallb is_byte (ia r) = true ∧
  input_format r ≠ F_json.

Definition rd_good {A} (m : rd S A) (r : reader S) (Q : A → reader S → Prop) : Prop :=
  goodx X (m r) (λ p, Q p.1 p.2).

Lemma rd_good_ret {A} (a : A) r (Q : A → reader S → Prop) : Q a r → rd_good (mret a) r Q.
Proof. done. Qed.

Lemma rd_good_bind {A B} (m : rd S A) (f : A → rd S B) r Q R :
  rd_good m r Q → (∀ a r', Q a r' → rd_good (f a) r' R) → rd_good (m ≫= f) r R.
Proof.
  unfold rd_good. rewrite rd_bind_run. intros Hm Hf. eapply goodx_bind; [exact Hm|].
  intros [a r'] Ha. by apply Hf.
Qed.

Lemma rd_good_mono {A} (m : rd S A) r (Q R : A → reader S → Prop) :
  rd_good m r Q → (∀ a r', Q a r' → R a r') → rd_good m r R.
Proof. intros Hm HQ. eapply goodx_mono; [exact Hm|]. intros [a r']. apply HQ. Qed.

Lemma holds_mono st k n n' r : holds st k n r → (n ≤ n')%nat → holds st k n' r.
Proof. intros (? & ? & ?) ?. repeat split; [done|lia|tauto..]. Qed.

(** The result of reading a value or a part of one: after [true], the handler
    has the containers [st] open; after [false] nothing more is read. *)
Definition after (st : list bool) (k : bool) (n : nat) (b : bool) (r : reader S) : Prop :=
  if b then holds st k n r else told (r_sax r) ∧ ∃ st' k', holds st' k' n r.

Lemma after_mono st k n n' b r : after st k n b r → (n ≤ n')%nat → after st k n' b r.
Proof.
  unfold after. destruct b; [by apply holds_mono|]. intros (Ht & st' & k' & Hh) Hn.
  split; [done|]. exists st', k'. by eapply holds_mono.
Qed.

(** The same for an operation that sets a parameter, to a value with [P]. *)
Definition got {A} (st : list bool) (k : bool) (n : nat) (P : A → Prop) (p : bool * A)
    (r : reader S) : Prop :=
  after st k n p.1 r ∧ (p.1 = true → P p.2).

Lemma and_also_good (m k : rd S bool) r st kk n st' kk' n' :
  rd_good m r (after st kk n) → (n ≤ n')%nat →
  (∀ r', holds st kk n r' → rd_good k r' (after st' kk' n')) →
  rd_good (and_also m k) r (after st' kk' n').
Proof.
  intros Hm Hn Hk. eapply rd_good_bind; [exact Hm|]. intros [] r' Ha; [by apply Hk|].
  apply rd_good_ret. by apply (after_mono st' kk' n n' false).
Qed.

Lemma and_then_good {A} (m : rd S (bool * A)) (k : A → rd S bool) r st kk n st' kk' n' P :
  rd_good m r (got st kk n P) → (n ≤ n')%nat →
  (∀ a r', P a → holds st kk n r' → rd_good (k a) r' (after st' kk' n')) →
  rd_good (and_then m k) r (after st' kk' n').
Proof.
  intros Hm Hn Hk. eapply rd_good_bind; [exact Hm|]. intros [[] a] r' [Ha Hp]; [by apply Hk; auto|].
  apply rd_good_ret. by apply (after_mono st' kk' n n' false).
Qed.

Lemma and_set_good {A B} (m : rd S (bool * A)) (b0 : B) (k : A → rd S (bool * B)) r st kk n P Q :
  rd_good m r (got st kk n P) →
  (∀ a r', P a → holds st kk n r' → rd_good (k a) r' (got st kk n Q)) →
  rd_good (and_set m b0 k) r (got st kk n Q).
Proof.
  intros Hm Hk. eapply rd_good_bind; [exact Hm|]. intros [[] a] r' [Ha Hp]; [by apply Hk; auto|].
  by apply rd_good_ret.
Qed.

Lemma for_loop_good {A} (P : A → Prop) len (body : A → rd S (bool * A)) a r st kk n :
  holds st kk n r → P a →
  (∀ a r, P a → holds st kk n r →
     rd_good (body a) r (got st kk n P)) →
  rd_good (for_loop len body a) r (got st kk n P).
Proof.
  intros Hr Ha Hb. unfold rd_good. rewrite for_loop_nat.
  change (rd_good (rd_for (Z.to_nat len) body a) r
    (got st kk n P)).
  revert a r Ha Hr. induction (Z.to_nat len) as [|m IH]; intros a r Ha Hr; cbn [rd_for].
  - by apply rd_good_ret.
  - eapply rd_good_bind; [by apply Hb|]. intros [[] a'] r' [Ha' Hp]; [by apply IH; auto|].
    by apply rd_good_ret.
Qed.

(** * Reading *)

Lemma event_good (f : S → sax_result S) r st k n Q :
  holds st k n r → goodx X (f (r_sax r)) (λ p, Q p.1 p.2) →
  rd_good (event f) r (λ b r', Q b (r_sax r') ∧ length (ia r') = length (ia r) ∧
    forallb is_byte (ia r') = true ∧ input_format r' = input_format r).
Proof.
  intros (_ & _ & Hb & _) Hf. unfold rd_good, event. eapply goodx_bind; [exact Hf|].
  by intros [b s] Hq.
Qed.

(** An event that moves the handler from one state to another. *)
Lemma event_after (f : S → sax_result S) r st k st' k' n :
  holds st k n r → goodx X (f (r_sax r)) (taken st' k') → rd_good (event f) r (after st' k' n).
Proof.
  intros Hh Hf.
  eapply rd_good_mono; [by eapply (event_good f r st k n (λ b s, taken st' k' (b, s)));
    [|eapply goodx_mono; [exact Hf|intros []]]|].
  destruct Hh as (_ & Hn & _ & Hi). intros b r' ((Hs & Ht) & Hl & Hb & He).
  assert (holds st' k' n r') as Hh by (repeat split; [done|lia|done|congruence]).
  destruct b; [done|]. split; [by apply Ht|]. by exists st', k'.
Qed.

Lemma get_good r st k n :
  holds st k n r →
  rd_good get r (λ c r', holds st k n r' ∧ current r' = c ∧
    (c = eof ∨ is_byte c = true ∧ (0 < n)%nat ∧ holds st k (pred n) r')).
Proof.
  intros (Hs & Hn & Hb & Hi). unfold rd_good, get. destruct (ia r) as [|c q] eqn:E; simpl in *.
  - split; [by repeat split|]. split; [done|by left].
  - to_prop. split; [repeat split; simpl; try done; lia|]. split; [done|]. right.
    split; [done|]. split; [lia|]. repeat split; simpl; try done; lia.
Qed.

Lemma report_allowed id token format detail ctx r st k n :
  holds st k n r → format ≠ F_json → (∀ pos what, allowed (create_parse_error_at id pos what)) →
  rd_good (report id token format detail ctx) r
    (λ b r', b = false ∧ holds st k n r' ∧ told (r_sax r')).
Proof.
  intros Hh Hf Hid. unfold rd_good, report, exception_message.
  assert (∃ name, format_name format = Ret name) as (name & ->) by (destruct format; simpl; eauto; done).
  cbn [mbind outcome_bind]. pose proof Hh as (Hs & Hn & Hb & Hi).
  eapply goodx_mono;
    [apply (event_good _ r st k n (λ b s, b = false ∧ binv st k s ∧ told s)); [done|]|].
  - by apply blaw_parse_error.
  - intros [b r'] ((Hq & Hq' & Ht) & Hl & Hb' & He). simpl in *.
    repeat split; simpl; try done; [lia|congruence].
Qed.

Lemma report_good id token format detail ctx r st k n :
  holds st k n r → format ≠ F_json → In id [110; 112; 113; 114] →
  rd_good (report id token format detail ctx) r
    (λ b r', b = false ∧ holds st k n r' ∧ told (r_sax r')).
Proof.
  intros Hh Hf Hid. apply report_allowed; [done..|]. intros pos what. apply blaw_reported. by do 3 eexists.
Qed.

Lemma unexpect_eof_good format ctx r st k n :
  holds st k n r → format ≠ F_json →
  rd_good (unexpect_eof format ctx) r (λ b r', holds st k n r' ∧
    (b = true → r' = r ∧ current r ≠ eof) ∧ (b = false → current r = eof ∧ told (r_sax r'))).
Proof.
  intros Hh Hf. unfold rd_good, unexpect_eof. destruct (Z.eqb_spec (current r) eof).
  - eapply goodx_mono; [apply (report_good _ _ _ _ _ r st k n); simpl; auto|].
    by intros [b r'] (-> & Hh' & Ht).
  - split; [done|]. split; done.
Qed.

Lemma take_bytes sz l : forallb is_byte l = true →
  forallb is_byte (take sz l) = true ∧ forallb is_byte (drop sz l) = true.
Proof.
  intros Hl. rewrite <- (take_drop sz l), forallb_app in Hl. by apply andb_true_iff in Hl.
Qed.

Lemma get_to_good sz format ctx r st k n :
  holds st k n r → format ≠ F_json →
  rd_good (get_to sz format ctx) r (λ p r', holds st k n r' ∧ length p.2 = sz ∧
    forallb is_byte p.2 = true ∧ (p.1 = false → told (r_sax r'))).
Proof.
  intros (Hs & Hn & Hb & Hi) Hf. unfold get_to. destruct (take_bytes sz _ Hb) as [Ht Hd].
  set (bs := take sz (ia r)) in *.
  assert (forallb is_byte (bs ++ replicate (sz - length bs) 0) = true ∧
    length (bs ++ replicate (sz - length bs) 0) = sz) as [Hz Hl].
  { rewrite forallb_app, Ht. split.
    - apply forallb_forall. intros x Hx. apply list_elem_of_In, elem_of_replicate in Hx as [-> _]. done.
    - rewrite length_app, length_replicate. unfold bs. rewrite length_take. lia. }
  assert (∀ m, holds st k n (mk_reader (drop sz (ia r)) (current r) m (is_little_endian r)
    (input_format r) (r_sax r))) as Hh.
  { intros m. repeat split; simpl; try done. rewrite length_drop. lia. }
  apply (rd_good_bind _ _ _ (λ b r', b = bs ∧ ∀ m, holds st k n (mk_reader (ia r') (current r') m
    (is_little_endian r') (input_format r') (r_sax r')))); [by split|].
  intros ? r1 [-> Hh1]. eapply rd_good_bind with (Q := λ _ r', ∀ m, holds st k n (mk_reader (ia r')
    (current r') m (is_little_endian r') (input_format r') (r_sax r'))).
  { exact Hh1. }
  intros _ r2 Hh2. cbv zeta. case_if.
  - eapply rd_good_bind with (Q := λ _ r', holds st k n r'); [apply Hh2|].
    intros _ r3 Hh3. eapply rd_good_bind; [apply (report_good _ _ _ _ _ r3 st k n); simpl; auto|].
    intros b r4 (-> & Hh4 & Ht4). by apply rd_good_ret.
  - apply rd_good_ret. split; [|done]. specialize (Hh2 (chars_read r2)). by destruct r2.
Qed.

Lemma holds_after st k n b r :
  holds st k n r → (b = false → told (r_sax r)) → after st k n b r.
Proof. intros Hh Ht. destruct b; [done|]. split; [by apply Ht|]. by exists st, k. Qed.

Definition bits_of {A} (T : number_type A) (a : A) : Prop :=
  ∃ bits, a = of_bits T bits ∧ 0 ≤ bits < 2 ^ (8 * Z.of_nat (sizeof T)).

Lemma from_memory_range le bs sz :
  length bs = sz → forallb is_byte bs = true → 0 ≤ from_memory le bs < 2 ^ (8 * Z.of_nat sz).
Proof.
  intros <- Hb. unfold from_memory. destruct le.
  - by apply le_value_range.
  - rewrite <- (length_rev bs). apply le_value_range. by rewrite forallb_rev.
Qed.

Lemma get_number_good {A} (T : number_type A) little format r st k n :
  holds st k n r → format ≠ F_json →
  rd_good (get_number T little format) r
    (λ p r', holds st k n r' ∧ bits_of T p.2 ∧ (p.1 = false → told (r_sax r'))).
Proof.
  intros Hh Hf. unfold rd_good, get_number.
  eapply goodx_bind; [by apply (get_to_good (sizeof T) format "number" r st k n)|].
  intros [[ok bs] r'] (Hh' & Hl & Hb & Ht). cbn [fst snd] in *.
  assert (∀ le bs', bs' = bs ∨ bs' = rev bs → bits_of T (of_bits T (from_memory le bs'))) as Hbits.
  { intros le bs' Hbs. eexists. split; [done|]. apply from_memory_range.
    - destruct Hbs as [-> | ->]; by rewrite ?length_rev.
    - destruct Hbs as [-> | ->]; by rewrite ?forallb_rev. }
  case_if; [|case_if]; (split; [done|]); cbn [fst snd]; (split; [eauto|]); by destruct ok.
Qed.

Lemma number_good {A} (T : number_type A) little format r st k n :
  holds st k n r → format ≠ F_json →
  rd_good (get_number T little format) r (got st k n (bits_of T)).
Proof.
  intros Hh Hf. eapply rd_good_mono; [by apply get_number_good|].
  intros p r' (Hh' & Hb & Ht). split; [by apply holds_after|done].
Qed.

Lemma get_bytes_good format ctx len result r st k n :
  holds st k n r → format ≠ F_json → forallb is_byte result = true →
  rd_good (get_bytes format ctx len result) r (got st k n bytes).
Proof.
  intros Hh Hf Hres. unfold get_bytes.
  apply for_loop_good; [done..|]. intros a r1 Ha Hr1.
  eapply rd_good_bind; [by apply get_good|]. intros c r2 (Hr2 & _).
  eapply rd_good_bind; [by apply unexpect_eof_good|]. intros b r3 (Hr3 & _ & Ht).
  destruct b; cbn [negb]; apply rd_good_ret; (split; [by apply holds_after; [|intros; apply Ht]|]);
    cbn [fst snd]; [intros _|done].
  unfold bytes in *. rewrite forallb_app, Ha. cbn [forallb]. pose proof (Z.mod_pos_bound c 256 ltac:(lia)).
  unfold is_byte. rewrite !andb_true_r. simpl. zify_bool. lia.
Qed.

Lemma get_string_good format len result r st k n :
  holds st k n r → format ≠ F_json → forallb is_byte result = true →
  rd_good (get_string format len result) r (got st k n bytes).
Proof. apply get_bytes_good. Qed.

Lemma get_binary_good format len result r st k n :
  holds st k n r → format ≠ F_json → binary_ok result = true →
  rd_good (get_binary format len result) r (got st k n binary_bytes).
Proof.
  intros Hh Hf [Hb Hs]%andb_true_iff. unfold get_binary. eapply rd_good_bind; [by apply get_bytes_good|].
  intros [b bs] r' [Ha Hbs]. apply rd_good_ret. split; [done|]. cbn [fst snd] in *. intros Hb'.
  unfold binary_bytes, binary_ok. cbn [fst snd]. by rewrite Hbs, Hs.
Qed.

(** A report of an unexpected byte. *)
Lemma report_after id token format detail ctx r st k n st' k' :
  holds st k n r → format ≠ F_json → In id [110; 112; 113; 114] →
  rd_good (report id token format detail ctx) r (after st' k' n).
Proof.
  intros Hh Hf Hid. eapply rd_good_mono; [by apply report_good|].
  intros b r' (-> & Hh' & Ht). split; [done|]. by exists st, k.
Qed.

(** An error stops the reader, whatever was being read. *)
Lemma parse_error_good pos t e r st k n :
  holds st k n r → allowed e → rd_good (event (sax_parse_error pos t e)) r
    (λ b r', b = false ∧ holds st k n r' ∧ told (r_sax r')).
Proof.
  intros Hh He. pose proof Hh as (Hs & Hn & _ & Hi).
  eapply rd_good_mono; [apply (event_good _ r st k n (λ b s, b = false ∧ binv st k s ∧ told s)); [done|]|].
  - by apply blaw_parse_error.
  - intros b r' ((-> & Hs' & Ht) & Hl & Hb' & Hf). repeat split; try done; [lia|congruence].
Qed.

Lemma parse_error_after pos t e r st k n st' k' :
  holds st k n r → allowed e → rd_good (event (sax_parse_error pos t e)) r (after st' k' n).
Proof.
  intros Hh He. eapply rd_good_mono; [by apply parse_error_good|].
  intros b r' (-> & Hh' & Ht). split; [done|]. by exists st, k.
Qed.

Lemma token_good {B} (f : cstring → rd S B) r Q :
  (∀ t, rd_good (f t) r Q) → rd_good (get_token_string ≫= f) r Q.
Proof. intros Hf. unfold rd_good. rewrite rd_bind_run. apply Hf. Qed.

Lemma last_good {B} (f : Z → rd S B) r Q :
  rd_good (f (current r)) r Q → rd_good (last_read ≫= f) r Q.
Proof. done. Qed.

(** The input has been read. *)
Lemma get_ignore_noop_good r st k n :
  holds st k n r → rd_good get_ignore_noop r (λ _ r', holds st k n r').
Proof.
  intros Hr. unfold get_ignore_noop. assert (∀ fuel r, (length (ia r) < fuel)%nat → holds st k n r →
    rd_good (get_ignore_noop_loop fuel) r (λ _ r', holds st k n r')) as Hl; [|apply Hl; [lia|done]].
  intros fuel. clear r Hr. induction fuel as [|fuel IH]; intros r Hf Hr; [lia|]. cbn [get_ignore_noop_loop].
  unfold rd_good. rewrite rd_bind_run. unfold get. destruct Hr as (Hs & Hn & Hb & Hi).
  destruct (ia r) as [|c q] eqn:E; cbn [mbind outcome_bind]; simpl in Hf, Hn, Hb.
  - change (eof =? 78) with false. cbn. by repeat split.
  - to_prop. case_if; [apply IH; [simpl; lia|]|cbn]; repeat split; simpl; try done; lia.
Qed.

Lemma expect_end_good r st k n :
  holds st k n r → rd_good (expect_end true) r (after st k n).
Proof.
  intros Hh. unfold rd_good, expect_end.
  assert (goodx X (if bool_decide (input_format r = F_ubjson ∨ input_format r = F_bjdata)
    then get_ignore_noop r else get r) (λ p, holds st k n p.2)) as Hg.
  { case_bool_decide; [by apply get_ignore_noop_good|].
    eapply goodx_mono; [by apply get_good|]. by intros [c r'] (Hr' & _). }
  eapply goodx_bind; [exact Hg|]. intros [c r1] Hr1. cbn [snd] in Hr1. case_if; [|done].
  change (rd_good (get_token_string ≫= λ token, report 110 token (input_format r1)
    (str "expected end of input; last byte: 0x" ++ token) "value") r1 (after st k n)).
  apply token_good. intros t. eapply report_after; [done|apply Hr1|simpl; auto].
Qed.

(** A whole input. *)
Lemma sax_parse_good parse strict r st k n :
  rd_good parse r (after st k n) → rd_good (sax_parse parse strict) r (after st k n).
Proof.
  intros Hp. eapply rd_good_bind; [exact Hp|]. intros [] r' Ha; cbn [andb]; [|done].
  destruct strict; [by apply expect_end_good|done].
Qed.
End rules.

(** * The DOM builder *)

(** What a reader stores: byte strings as keys, and well-formed leaves that
    are not discarded. *)
Definition leaf_ok (j : json) : bool :=
  negb (is_structured j) && node_wf j && negb (is_discarded j).

Definition json_ok (j : json) : bool := stored (forallb is_byte) leaf_ok j.

Lemma json_ok_wf j : json_ok j = true → json_wf j = true.
Proof.
  unfold json_ok, stored, json_wf.
  induction j as [|m IH|l IH|s|b|z|z|f|b s|] using json_rect_nested;
    cbn [json_forall node_stored]; intros Hj; to_prop; rewrite ?andb_true_r;
    try (unfold leaf_ok in *; to_prop; done).
  - apply andb_true_iff. split; [cbn [node_wf]; by apply andb_true_iff|].
    apply forallb_forall. intros kv Hin. rewrite List.Forall_forall in IH. apply IH; [done|].
    by apply (proj1 (forallb_forall _ m)) with (x := kv) in H0.
  - apply forallb_forall. intros x Hin. rewrite List.Forall_forall in IH. apply IH; [done|].
    by apply (proj1 (forallb_forall _ l)) with (x := x) in H0.
Qed.

(** A container that is said to be larger than memory. *)
Definition excessive (e : json_exn) : Prop := ∃ what, e = create_out_of_range 408 what.

Section dom_laws.
  Context (ae : bool) (big silent : Prop) (others : json_exn → Prop).

(** [others] are the errors that one of the formats reports besides. *)
Definition dom_throws (e : json_exn) : Prop :=
  ae = true ∧ (reported e ∨ others e) ∨ big ∧ excessive e.

Definition dom_binv (st : list bool) (k : bool) (d : dom) : Prop :=
  dom_inv st k d ∧ allow_exceptions d = ae ∧ json_ok (root d) = true.

Definition dom_told (d : dom) : Prop := silent ∨ ae = false.

Definition dom_taken (st : list bool) (k : bool) (r : bool * dom) : Prop :=
  dom_binv st k r.2 ∧ (r.1 = false → dom_told r.2).

Lemma plain_taken ev st k st' k' d :
  plain ev → good (ev d) (λ r, dom_inv st' k' r.2) →
  (json_ok (root d) = true → ensures (ev d) (λ r, json_ok (root r.2) = true)) →
  dom_binv st k d → goodx dom_throws (ev d) (dom_taken st' k').
Proof.
  intros Hp Hg Hs (Hi & Ha & Hr). specialize (Hp d). specialize (Hs Hr).
  destruct (ev d) as [[b d']| | | |]; try done. destruct Hp as (-> & _ & Ha' & _).
  split; [|done]. split; [done|]. split; [|done]. simpl. congruence.
Qed.

Lemma value_taken v st k d :
  dom_binv st k d → value_pos st k → is_structured v = false → leaf_ok v = true →
  goodx dom_throws (dom_value v d) (dom_taken st false).
Proof.
  intros Hd Hv Hs Hl. eapply plain_taken; [apply plain_value|..|done].
  - apply dom_value_ok with (k := k); [apply Hd|done].
  - intros Hr. apply dom_value_stored; [by apply stored_leaf|done].
Qed.

Lemma start_taken b v what max len st k d :
  kind b v = true → json_ok v = true → dom_binv st k d → value_pos st k → sized big max len →
  goodx dom_throws (dom_start_of v what max len d) (dom_taken (b :: st) false).
Proof.
  intros Hk Hv Hd Hp Hlen. unfold dom_start_of. eapply goodx_bind.
  - eapply (plain_taken (dom_start v) st k (b :: st) false d); [apply plain_start|..|done].
    + apply dom_start_ok with (k := k); [done|apply Hd|done].
    + intros Hr. by apply dom_start_stored.
  - intros [b' d'] Ht. case_if; [|done]. right. split; [|by eexists].
    destruct Hlen as [Hb|[->|Hl]]; [done|..]; exfalso; to_prop.
    + done.
    + lia.
Qed.

#[export] Instance dom_binary_laws : BinaryLaws json_sax_dom_parser dom_throws big.
Proof.
  apply (Build_BinaryLaws _ _ _ dom_throws big dom_binv dom_told (λ e, reported e ∨ others e)).
  1: by left.
  1-7: intros; apply (value_taken _ st k); try done; unfold leaf_ok; cbn [is_structured node_wf];
    unfold binary_ok in *; by try rewrite H1.
  - intros. by apply (start_taken false _ _ _ _ st k).
  - intros v st k d Hd Hv. eapply plain_taken; [apply plain_key|by apply dom_key_ok with (k := k), Hd| |done].
    intros Hr. by apply dom_key_stored.
  - intros st k d Hd. eapply plain_taken; [apply plain_end|apply (dom_end_ok false st k), Hd| |done].
    intros Hr. by apply dom_end_stored.
  - intros. by apply (start_taken true _ _ _ _ st k).
  - intros st k d Hd. eapply plain_taken; [apply plain_end|apply (dom_end_ok true st k), Hd| |done].
    intros Hr. by apply dom_end_stored.
  - intros pos t e st k d (Hi & Ha & Hr) He. cbn. unfold dom_parse_error. cbn [allow_exceptions].
    rewrite Ha. destruct ae eqn:E; [by left|]. split; [done|]. split; [done|]. by right.
Defined.

(** [from_binary] on arbitrary bytes: a well-formed value, the discarded value
    if the reader may stop silently or exceptions are not allowed, or one of
    the exceptions. *)
Lemma from_binary_good parse format le input strict :
  forallb is_byte input = true → format ≠ F_json →
  (∀ n r, holds (X := dom_throws) (big := big) [] false n r →
    rd_good (X := dom_throws) parse r (after (X := dom_throws) (big := big) [] false n)) →
  goodx dom_throws (from_binary parse format le input strict ae)
    (λ j, json_ok j = true ∨ (silent ∨ ae = false) ∧ j = J_discarded).
Proof.
  intros Hb Hf Hp. unfold from_binary.
  eapply goodx_bind; [apply (sax_parse_good (X := dom_throws) (big := big) parse strict _ [] false
    (length input))|].
  - apply Hp. repeat split; try done.
  - intros [[] r] Ha; simpl in Ha.
    + left. apply Ha.
    + right. split; [|done]. apply Ha.
Qed.
End dom_laws.
