(* ===== verification/MsgPackSafety.v ===== *)
(** The MessagePack reader on arbitrary bytes, against the contract of
    [BinarySafety]. *)

From S2P Require Import Prelude JsonValue JsonParser JsonParserFacts.
From S2P Require Import BinaryNumbers BinaryNumbersFacts BinaryReader BinaryReaderFacts BinarySafety MsgPack.

Section msgpack.
  Context {S : Type} {X : json_exn → Prop} {big : Prop} `{BinaryLaws S X big}.

Abbreviation rd_good := (rd_good (X := X)).

(** A string, after its first byte. *)
Lemma get_msgpack_string_good r st k n :
  holds st k n r →
  rd_good (get_msgpack_string []) r
    (got st k n bytes).
Proof.
  intros Hr. eapply rd_good_bind; [by apply unexpect_eof_good|]. intros b r1 (Hr1 & _ & Ht).
  destruct b; cbn [negb]; [|apply rd_good_ret; split; [apply holds_after; [done|intros; by apply Ht]|done]].
  apply last_good. cbv zeta. case_if; [by apply get_string_good|].
  assert (∀ sz, rd_good (and_set (get_number (uint sz) false F_msgpack) []
    (λ len, get_string F_msgpack len [])) r1
    (got st k n bytes)) as Hsized.
  { intros sz. eapply and_set_good; [by apply number_good|]. intros len r' _ Hr'. by apply get_string_good. }
  do 3 (case_if; [by apply Hsized|]). apply token_good. intros t.
  eapply rd_good_bind; [apply (report_good _ _ _ _ _ r1 st k n); simpl; auto; done|].
  intros b r2 (-> & Hr2 & Ht2). apply rd_good_ret. by split; [apply holds_after|].
Qed.

Lemma get_msgpack_binary_good r st k n :
  holds st k n r → in_range 0xC4 0xC9 (current r) || in_range 0xD4 0xD8 (current r) = true →
  rd_good (get_msgpack_binary ([], None)) r (got st k n binary_bytes).
Proof.
  intros Hr Hc. unfold get_msgpack_binary. cbv zeta. apply last_good.
  assert (∀ r' sz, holds st k n r' → rd_good (and_set (get_number (uint sz) false F_msgpack) ([], None)
    (λ len, get_binary F_msgpack len ([], None))) r' (got st k n binary_bytes)) as Hbin.
  { intros r' sz Hr'. eapply and_set_good; [by apply number_good|]. intros len r2 _ Hr2.
    by apply get_binary_good. }
  assert (∀ r' len, holds st k n r' → rd_good (and_set (get_number int8 false F_msgpack) ([], None)
    (λ subtype, '(ok, b) ← get_binary F_msgpack len ([], None);
      if ok : bool then mret (true, assign_subtype subtype b) else mret (false, b))) r'
    (got st k n binary_bytes)) as Hsub.
  { intros r' len Hr'. eapply and_set_good; [by apply number_good|]. intros t r2 _ Hr2.
    eapply rd_good_bind; [by apply get_binary_good|]. intros [[] b] r3 [Ha Hb]; apply rd_good_ret;
      (split; [done|]); [intros _|done]. specialize (Hb eq_refl).
    unfold binary_bytes, binary_ok in *. cbn [fst snd assign_subtype] in *. to_prop.
    apply andb_true_iff. split; [done|]. unfold wrap_u, in_u.
    pose proof (Z.mod_pos_bound t (2 ^ 8) ltac:(lia)). lia. }
  assert (∀ sz, rd_good (and_set (get_number (uint sz) false F_msgpack) ([], None)
    (λ len, and_set (get_number int8 false F_msgpack) ([], None)
      (λ subtype, '(ok, b) ← get_binary F_msgpack len ([], None);
        if ok : bool then mret (true, assign_subtype subtype b) else mret (false, b)))) r
    (got st k n binary_bytes)) as Hext.
  { intros sz. eapply and_set_good; [by apply number_good|]. intros len r2 _ Hr2. by apply Hsub. }
  do 3 (case_if; [by apply Hbin|]). do 3 (case_if; [by apply Hext|]).
  do 5 (case_if; [by apply Hsub|]). exfalso. unfold in_range in Hc. lia.
Qed.

(** * Containers

    [parse] reads values when at most [n] bytes are left. *)

Definition parses_within (parse : rd S bool) (n : nat) : Prop :=
  ∀ r st k, holds st k n r → value_pos st k → rd_good parse r (after st false n).

Lemma round_good (m : rd S bool) r st k n :
  rd_good m r (after st k n) → rd_good (round m ()) r (got st k n (λ _, True)).
Proof. intros Hm. eapply rd_good_bind; [exact Hm|]. intros b r' Ha. by apply rd_good_ret. Qed.

Lemma get_msgpack_array_good parse r st k n len :
  parses_within parse n → holds st k n r → value_pos st k → sized big array_max_size len →
  rd_good (get_msgpack_array parse len) r (after st false n).
Proof.
  intros Hp Hr Hv Hlen. eapply and_also_good; [|done|].
  - eapply event_after; [exact Hr|]. apply blaw_start_array with (k := k); [apply Hr|done..].
  - intros r1 Hr1. eapply and_then_good; [|done|].
    + apply (for_loop_good (λ _, True)); [exact Hr1|done|]. intros [] r2 _ Hr2.
      apply round_good. by eapply Hp.
    + intros [] r2 _ Hr2. eapply event_after; [exact Hr2|]. by eapply blaw_end_array, Hr2.
Qed.

Lemma get_msgpack_member_good parse r st k n :
  parses_within parse n → holds (false :: st) k n r →
  rd_good (get_msgpack_member parse) r (after (false :: st) false n).
Proof.
  intros Hp Hr. eapply rd_good_bind; [by apply get_good|]. intros c r1 (Hr1 & _).
  eapply and_also_good; [|done|].
  - eapply and_then_good; [by apply get_msgpack_string_good|done|]. intros s r2 Hs Hr2.
    eapply event_after; [exact Hr2|]. eapply blaw_key; [apply Hr2|done].
  - intros r2 Hr2. by apply (Hp r2 (false :: st) true).
Qed.

Lemma get_msgpack_object_good parse r st k n len :
  parses_within parse n → holds st k n r → value_pos st k → sized big object_max_size len →
  rd_good (get_msgpack_object parse len) r (after st false n).
Proof.
  intros Hp Hr Hv Hlen. eapply and_also_good; [|done|].
  - eapply event_after; [exact Hr|]. apply blaw_start_object with (k := k); [apply Hr|done..].
  - intros r1 Hr1. eapply and_then_good; [|done|].
    + apply (for_loop_good (λ _, True)); [exact Hr1|done|]. intros [] r2 _ Hr2.
      apply round_good. by apply get_msgpack_member_good with (k := false).
    + intros [] r2 _ Hr2. eapply event_after; [exact Hr2|]. by eapply blaw_end_object, Hr2.
Qed.

(** * Values *)

Lemma uint_sized sz max len : bits_of (uint sz) len → 2 ^ (8 * Z.of_nat sz) ≤ max → sized big max len.
Proof. intros (bits & -> & Hb) Hm. right; right. cbn in *. unfold id. lia. Qed.

Lemma sint_in sz z : (0 < sz ≤ 8)%nat → bits_of (sint sz) z → in_s 64 z = true.
Proof.
  intros Hsz (bits & -> & _). cbn [of_bits sint]. eapply in_s_mono; [|apply wrap_s_in]; lia.
Qed.

Lemma uint_in sz z : (sz ≤ 8)%nat → bits_of (uint sz) z → in_u 64 z = true.
Proof.
  intros Hsz (bits & -> & Hb). cbn in *. unfold id, in_u.
  pose proof (Z.pow_le_mono_r 2 (8 * Z.of_nat sz) 64 ltac:(lia) ltac:(lia)).
  apply andb_true_iff. split; lia.
Qed.

Lemma parse_msgpack_value_good parse c r st k n :
  parses_within parse n → holds st k n r → value_pos st k → current r = c → is_byte c = true →
  rd_good (parse_msgpack_value parse c) r (after st false n).
Proof.
  intros Hp Hr Hv Hc Hb. pose proof (proj1 Hr) as Hs. unfold parse_msgpack_value, parse_msgpack_fix, parse_msgpack_marked. cbv zeta.
  assert (∀ sz, (sz ≤ 8)%nat → rd_good (and_then (get_number (uint sz) false F_msgpack)
    (λ n, event (sax_number_unsigned n))) r (after st false n)) as Hun.
  { intros sz Hsz. eapply and_then_good; [by apply number_good|done|]. intros z r' Hz Hr'.
    eapply event_after; [exact Hr'|]. eapply blaw_unsigned; [apply Hr'|done|by eapply uint_in]. }
  assert (∀ sz, (0 < sz ≤ 8)%nat → rd_good (and_then (get_number (sint sz) false F_msgpack)
    (λ n, event (sax_number_integer n))) r (after st false n)) as Hsn.
  { intros sz Hsz. eapply and_then_good; [by apply number_good|done|]. intros z r' Hz Hr'.
    eapply event_after; [exact Hr'|]. eapply blaw_integer; [apply Hr'|done|by eapply sint_in]. }
  assert (∀ max, sized big max (Z.land c 0x0F) ∨ max < 15) as Hfix.
  { intros max. change 0x0F with (Z.ones 4). rewrite Z.land_ones by lia. change (2 ^ 4) with 16.
    pose proof (Z.mod_pos_bound c 16 ltac:(lia)).
    destruct (Z.lt_ge_cases max 15); [by right|left]. right; right. lia. }
  pose proof max_size_32 as [Hma Hmo]. pose proof Hb as Hb'. unfold is_byte in Hb'. to_prop.
  case_if; [unfold eof in *; to_prop; lia|].
  case_if; [eapply event_after; [exact Hr|]; eapply blaw_unsigned; [done..|unfold in_u; lia]|].
  case_if; [destruct (Hfix object_max_size); [by apply get_msgpack_object_good with (k := k)|lia]|].
  case_if; [destruct (Hfix array_max_size); [by apply get_msgpack_array_good with (k := k)|lia]|].
  case_if; [eapply and_then_good; [by apply get_msgpack_string_good|done|]; intros s r' Hs' Hr';
    eapply event_after; [exact Hr'|]; eapply blaw_string; [apply Hr'|done..]|].
  case_if; [eapply event_after; [exact Hr|]; by eapply blaw_null|].
  do 2 (case_if; [eapply event_after; [exact Hr|]; by eapply blaw_boolean|]).
  case_if; [eapply and_then_good; [apply get_msgpack_binary_good; [done|by rewrite Hc]|done|];
    intros b r' Hb2 Hr'; eapply event_after; [exact Hr'|]; eapply blaw_binary; [apply Hr'|done..]|].
  case_if; [eapply and_then_good; [by apply number_good|done|]; intros f r' _ Hr';
    eapply event_after; [exact Hr'|]; eapply blaw_float; [apply Hr'|done|apply to_double_valid]|].
  case_if; [eapply and_then_good; [by apply number_good|done|]; intros f r' (bits & -> & _) Hr';
    eapply event_after; [exact Hr'|]; eapply blaw_float; [apply Hr'|done|by apply bits_float_valid]|].
  do 4 (case_if; [apply Hun; lia|]). do 4 (case_if; [apply Hsn; lia|]).
  do 2 (case_if; [eapply and_then_good; [by apply number_good|done|]; intros len r' Hlen Hr';
    eapply get_msgpack_array_good; [done..|]; eapply uint_sized; [exact Hlen|simpl; lia]|]).
  do 2 (case_if; [eapply and_then_good; [by apply number_good|done|]; intros len r' Hlen Hr';
    eapply get_msgpack_object_good; [done..|]; eapply uint_sized; [exact Hlen|simpl; lia]|]).
  case_if; [eapply event_after; [exact Hr|]; eapply blaw_integer; [done..|];
    eapply in_s_mono; [|apply wrap_s_in]; lia|].
  apply token_good. intros t. eapply report_after; [exact Hr|done|simpl; auto].
Qed.

Lemma parse_msgpack_good fuel n :
  (n < fuel)%nat → parses_within (parse_msgpack fuel) n.
Proof.
  revert n. induction fuel as [|fuel IH]; intros n Hn r st k Hr Hv; [lia|]. cbn [parse_msgpack].
  eapply rd_good_bind; [by apply get_good|]. intros c r1 (Hr1 & Hc & Hcase).
  destruct Hcase as [->|(Hb & Hn0 & Hr1')].
  - unfold parse_msgpack_value, parse_msgpack_fix, parse_msgpack_marked. change (eof =? eof) with true. cbv iota.
    eapply rd_good_mono; [by apply unexpect_eof_good|]. intros [] r2 (Hr2 & H1' & H2').
    + by destruct (H1' eq_refl).
    + split; [by apply H2'|]. by exists st, k.
  - eapply rd_good_mono; [|intros b r2 Ha; apply (after_mono _ _ (pred n)); [exact Ha|lia]].
    eapply parse_msgpack_value_good; [apply IH; lia|done..].
Qed.

Lemma parse_msgpack_internal_good r st k n :
  holds st k n r → value_pos st k → rd_good parse_msgpack_internal r (after st false n).
Proof.
  intros Hr Hv. pose proof Hr as (Hs & Hn & Hb & Hi).
  assert (rd_good (parse_msgpack (Datatypes.S (length (ia r)))) r (after st false (length (ia r))))
    as Hg by (apply parse_msgpack_good with (k := k); [lia|by repeat split|done]).
  eapply goodx_mono; [exact Hg|]. intros [b r'] Ha. by apply (after_mono _ _ (length (ia r))).
Qed.
End msgpack.
