(* ===== verification/Cbor.v ===== *)
(** CBOR in framework/json.hpp: [parse_cbor_internal] and its helpers of
    [binary_reader], [write_cbor] of [binary_writer], and [to_cbor] and
    [from_cbor].

    Strings, byte arrays and containers of indefinite length end with the
    byte 0xFF.  Their loops carry fuel of their own: each round reads a byte,
    or finds the end of the input and leaves the loop, because the handlers
    do not go on after an error.  The fuel of the recursion bounds the nesting
    of values, which read a byte at least every other level. *)

From S2P Require Import Prelude JsonValue JsonParser BinaryNumbers BinaryReader MsgPack.

Inductive cbor_tag_handler_t : Type := tag_error | tag_ignore | tag_store.

#[global] Instance cbor_tag_handler_eq_dec : EqDecision cbor_tag_handler_t.
Proof. solve_decision. Defined.

(** * Reading *)

Section reader.
  Context {S : Type} `{SAX S, BinarySAX S}.

(** [get_number(input_format_t::cbor, number)]. *)
Abbreviation number T := (get_number T false F_cbor).

(** [while (get() != 0xFF)] with a body that may return false. *)
Fixpoint until_break_loop {A} (fuel : nat) (body : A → rd S (bool * A)) (a : A) :
    rd S (bool * A) :=
  match fuel with
  | O => λ _, Diverge
  | Datatypes.S fuel' =>
      c ← get;
      if c =? 0xFF then mret (true, a)
      else '(ok, a) ← body a;
           if ok : bool then until_break_loop fuel' body a else mret (false, a)
  end.

Definition until_break {A} (body : A → rd S (bool * A)) (a : A) : rd S (bool * A) := λ r,
  until_break_loop (2 + length (ia r)) body a r.

(** [chunk] is [get_cbor_string] for the parts of an indefinite string. *)
Definition get_cbor_string_step (chunk : cstring → rd S (bool * cstring)) (result : cstring) :
    rd S (bool * cstring) :=
  ok ← unexpect_eof F_cbor "string";
  if negb ok then mret (false, result) else
  c ← last_read;
  let sized T := and_set (number T) result (λ len, get_string F_cbor len result) in
  if in_range 0x60 0x77 c then get_string F_cbor (Z.land c 0x1F) result
  else if c =? 0x78 then sized uint8
  else if c =? 0x79 then sized uint16
  else if c =? 0x7A then sized uint32
  else if c =? 0x7B then sized uint64
  else if c =? 0x7F then
    until_break (λ result,
      '(ok, chunk) ← chunk [];
      if ok : bool then mret (true, result ++ chunk) else mret (false, result)) result
  else
    last_token ← get_token_string;
    b ← report 113 last_token F_cbor
      (str "expected length specification (0x60-0x7B) or indefinite string type (0x7F); last byte: 0x"
         ++ last_token) "string";
    mret (b, result).

Fixpoint get_cbor_string_loop (fuel : nat) : cstring → rd S (bool * cstring) :=
  match fuel with
  | O => λ _ _, Diverge
  | Datatypes.S fuel' => get_cbor_string_step (get_cbor_string_loop fuel')
  end.

Definition get_cbor_string (result : cstring) : rd S (bool * cstring) := λ r,
  get_cbor_string_loop (2 + length (ia r)) result r.

Definition get_cbor_binary_step (chunk : binary_t → rd S (bool * binary_t)) (result : binary_t) :
    rd S (bool * binary_t) :=
  ok ← unexpect_eof F_cbor "binary";
  if negb ok then mret (false, result) else
  c ← last_read;
  let sized T := and_set (number T) result (λ len, get_binary F_cbor len result) in
  if in_range 0x40 0x57 c then get_binary F_cbor (Z.land c 0x1F) result
  else if c =? 0x58 then sized uint8
  else if c =? 0x59 then sized uint16
  else if c =? 0x5A then sized uint32
  else if c =? 0x5B then sized uint64
  else if c =? 0x5F then
    until_break (λ result : binary_t,
      '(ok, chunk) ← chunk ([], None);
      if ok : bool then mret (true, (result.1 ++ chunk.1, result.2))
      else mret (false, result)) result
  else
    last_token ← get_token_string;
    b ← report 113 last_token F_cbor
      (str "expected length specification (0x40-0x5B) or indefinite binary array type (0x5F); last byte: 0x"
         ++ last_token) "binary";
    mret (b, result).

Fixpoint get_cbor_binary_loop (fuel : nat) : binary_t → rd S (bool * binary_t) :=
  match fuel with
  | O => λ _ _, Diverge
  | Datatypes.S fuel' => get_cbor_binary_step (get_cbor_binary_loop fuel')
  end.

Definition get_cbor_binary (result : binary_t) : rd S (bool * binary_t) := λ r,
  get_cbor_binary_loop (2 + length (ia r)) result r.

(** The containers; [parse get_char] is [parse_cbor_internal(get_char,
    tag_handler)]. *)
Definition get_cbor_array (parse : bool → rd S bool) (len : Z) : rd S bool :=
  and_also (event (sax_start_array_of len))
    (and_then (if len =? npos then until_break (round (parse false)) ()
               else for_loop len (round (parse true)) ())
       (λ _, event sax_end_array)).

(** A member whose first byte has been read. *)
Definition get_cbor_member (parse : bool → rd S bool) : rd S bool :=
  and_also (and_then (get_cbor_string []) (λ key, event (sax_key key))) (parse true).

(** Without elements ([len == 0]) there are no rounds. *)
Definition get_cbor_object (parse : bool → rd S bool) (len : Z) : rd S bool :=
  and_also (event (sax_start_object_of len))
    (and_then (if len =? npos then until_break (round (get_cbor_member parse)) ()
               else for_loop len (round (_ ← get; get_cbor_member parse)) ())
       (λ _, event sax_end_object)).

(** The decoder of RFC 7049 for the half-precision number [half]. *)
Definition half_to_double (half : Z) : outcome json_exn spec_float :=
  let exp := Z.land (Z.shiftr half 10) 0x1F in
  let mant := Z.land half 0x3FF in
  assert ((0 <=? exp) && (exp <=? 32)) (assert (mant <=? 1024)
    (let val :=
       if exp =? 0 then round_float 53 1024 false mant (-24)
       else if exp =? 31 then if mant =? 0 then S754_infinity false else S754_nan
       else round_float 53 1024 false (mant + 1024) (exp - 25) in
     Ret (if negb (Z.land half 0x8000 =? 0) then SFopp val else val))).

Definition emit_half (byte1_raw byte2_raw : Z) : rd S bool := λ r,
  let byte1 := wrap_u 8 byte1_raw in
  let byte2 := wrap_u 8 byte2_raw in
  val ← half_to_double (Z.shiftl byte1 8 + byte2);
  event (sax_number_float val []) r.

Definition get_cbor_half : rd S bool :=
  byte1_raw ← get;
  ok ← unexpect_eof F_cbor "number";
  if negb ok then mret false else
  byte2_raw ← get;
  ok ← unexpect_eof F_cbor "number";
  if negb ok then mret false else emit_half byte1_raw byte2_raw.

(** The number of a tag of 1, 2, 4 or 8 bytes; whether it could be read is
    not looked at. *)
Definition cbor_tag_type (c : Z) : option (number_type Z) :=
  if c =? 0xD8 then Some uint8
  else if c =? 0xD9 then Some uint16
  else if c =? 0xDA then Some uint32
  else if c =? 0xDB then Some uint64
  else None.

Definition get_cbor_tagged (parse : bool → rd S bool) (tag_handler : cbor_tag_handler_t)
    (c : Z) : rd S bool :=
  match tag_handler with
  | tag_error =>
      last_token ← get_token_string;
      report 112 last_token F_cbor (str "invalid byte: 0x" ++ last_token) "value"
  | tag_ignore =>
      match cbor_tag_type c with
      | Some T => _ ← number T; parse true
      | None => parse true
      end
  | tag_store =>
      match cbor_tag_type c with
      | Some T =>
          '(_, subtype) ← number T;
          _ ← get;
          and_then (get_cbor_binary ([], Some subtype)) (λ b, event (sax_binary b))
      | None => parse true
      end
  end.

(** The [switch] on the byte [c]: tags, simple values and floating-point
    numbers, ... *)
Definition parse_cbor_simple (parse : bool → rd S bool) (tag_handler : cbor_tag_handler_t)
    (c : Z) : rd S bool :=
  if in_range 0xC6 0xD4 c || in_range 0xD8 0xDB c then get_cbor_tagged parse tag_handler c
  else if c =? 0xF4 then event (sax_boolean false)
  else if c =? 0xF5 then event (sax_boolean true)
  else if c =? 0xF6 then event sax_null
  else if c =? 0xF9 then get_cbor_half
  else if c =? 0xFA then
    and_then (number float32) (λ n, event (sax_number_float (to_double n) []))
  else if c =? 0xFB then and_then (number float64) (λ n, event (sax_number_float n []))
  else
    last_token ← get_token_string;
    report 112 last_token F_cbor (str "invalid byte: 0x" ++ last_token) "value".

(** ... arrays and maps, ... *)
Definition parse_cbor_container (parse : bool → rd S bool) (tag_handler : cbor_tag_handler_t)
    (c : Z) : rd S bool :=
  if in_range 0x80 0x97 c then get_cbor_array parse (Z.land c 0x1F)
  else if c =? 0x98 then and_then (number uint8) (get_cbor_array parse)
  else if c =? 0x99 then and_then (number uint16) (get_cbor_array parse)
  else if c =? 0x9A then and_then (number uint32) (get_cbor_array parse)
  else if c =? 0x9B then and_then (number uint64) (get_cbor_array parse)
  else if c =? 0x9F then get_cbor_array parse npos
  else if in_range 0xA0 0xB7 c then get_cbor_object parse (Z.land c 0x1F)
  else if c =? 0xB8 then and_then (number uint8) (get_cbor_object parse)
  else if c =? 0xB9 then and_then (number uint16) (get_cbor_object parse)
  else if c =? 0xBA then and_then (number uint32) (get_cbor_object parse)
  else if c =? 0xBB then and_then (number uint64) (get_cbor_object parse)
  else if c =? 0xBF then get_cbor_object parse npos
  else parse_cbor_simple parse tag_handler c.

(** ... byte arrays and strings, ... *)
Definition parse_cbor_bytes (parse : bool → rd S bool) (tag_handler : cbor_tag_handler_t)
    (c : Z) : rd S bool :=
  if in_range 0x40 0x5B c || (c =? 0x5F) then
    and_then (get_cbor_binary ([], None)) (λ b, event (sax_binary b))
  else if in_range 0x60 0x7B c || (c =? 0x7F) then
    and_then (get_cbor_string []) (λ s, event (sax_string s))
  else parse_cbor_container parse tag_handler c.

(** ... the end of the input and integers. *)
Definition parse_cbor_value (parse : bool → rd S bool) (tag_handler : cbor_tag_handler_t)
    (c : Z) : rd S bool :=
  let unsigned T := and_then (number T) (λ n, event (sax_number_unsigned n)) in
  let negative T :=
    and_then (number T) (λ n, event (sax_number_integer (-1 - wrap_s 64 n))) in
  if c =? eof then unexpect_eof F_cbor "value"
  else if in_range 0x00 0x17 c then event (sax_number_unsigned c)
  else if c =? 0x18 then unsigned uint8
  else if c =? 0x19 then unsigned uint16
  else if c =? 0x1A then unsigned uint32
  else if c =? 0x1B then unsigned uint64
  else if in_range 0x20 0x37 c then event (sax_number_integer (wrap_s 8 (0x20 - 1 - c)))
  else if c =? 0x38 then negative uint8
  else if c =? 0x39 then negative uint16
  else if c =? 0x3A then negative uint32
  else if c =? 0x3B then negative uint64
  else parse_cbor_bytes parse tag_handler c.

Fixpoint parse_cbor (fuel : nat) (tag_handler : cbor_tag_handler_t) (get_char : bool) :
    rd S bool :=
  match fuel with
  | O => λ _, Diverge
  | Datatypes.S fuel' =>
      c ← (if get_char then get else last_read);
      parse_cbor_value (parse_cbor fuel' tag_handler) tag_handler c
  end.

Definition parse_cbor_internal (get_char : bool) (tag_handler : cbor_tag_handler_t) :
    rd S bool := λ r,
  parse_cbor (2 + length (ia r)) tag_handler get_char r.
End reader.

(** [from_cbor]. *)
Definition from_cbor (host_le : bool) (input : cstring) (strict allow_exceptions_ : bool)
    (tag_handler : cbor_tag_handler_t) : outcome json_exn json :=
  from_binary (parse_cbor_internal true tag_handler) F_cbor host_le input strict
    allow_exceptions_.

(** * Writing *)

Section writer.
  Context (le : bool).

Abbreviation put T n := (write_number T le false n).

(** The head of a number or of something of size [N]: the kind is [base], and
    [N] is in the byte itself or in the 1, 2, 4 or 8 bytes after it. *)
Definition write_cbor_head (base N : Z) : cstring :=
  if N <=? 0x17 then put uint8 (base + N)
  else if N <=? 2 ^ 8 - 1 then (base + 0x18) :: put uint8 N
  else if N <=? 2 ^ 16 - 1 then (base + 0x19) :: put uint16 N
  else if N <=? 2 ^ 32 - 1 then (base + 0x1A) :: put uint32 N
  else (base + 0x1B) :: put uint64 N.

Definition write_cbor_integer (n : Z) : cstring :=
  if 0 <=? n then write_cbor_head 0x00 n else write_cbor_head 0x20 (-1 - n).

Definition write_cbor_float (n : spec_float) : cstring :=
  match n with
  | S754_nan => [0xF9; 0x7E; 0x00]
  | S754_infinity s => [0xF9; if s then 0xFC else 0x7C; 0x00]
  | _ => write_compact_float le n get_cbor_float_prefix
  end.

Definition write_cbor_string (s : cstring) : cstring :=
  write_cbor_head 0x60 (Z.of_nat (length s)) ++ s.

Definition write_cbor_subtype (t : Z) : cstring :=
  if t <=? 2 ^ 8 - 1 then put uint8 0xD8 ++ put uint8 t
  else if t <=? 2 ^ 16 - 1 then put uint8 0xD9 ++ put uint16 t
  else if t <=? 2 ^ 32 - 1 then put uint8 0xDA ++ put uint32 t
  else if t <=? 2 ^ 64 - 1 then put uint8 0xDB ++ put uint64 t
  else [].

Definition write_cbor_binary (b : cstring) (subtype : option Z) : cstring :=
  match subtype with Some t => write_cbor_subtype t | None => [] end ++
  write_cbor_head 0x40 (Z.of_nat (length b)) ++ b.

Fixpoint write_cbor (j : json) : cstring :=
  match j with
  | J_null => [0xF6]
  | J_boolean b => [if b then 0xF5 else 0xF4]
  | J_number_integer n => write_cbor_integer n
  | J_number_unsigned n => write_cbor_head 0x00 n
  | J_number_float n => write_cbor_float n
  | J_string s => write_cbor_string s
  | J_array l => write_cbor_head 0x80 (Z.of_nat (length l)) ++ flat_map write_cbor l
  | J_binary b subtype => write_cbor_binary b subtype
  | J_object m =>
      write_cbor_head 0xA0 (Z.of_nat (length m)) ++
      flat_map (λ kv, write_cbor_string kv.1 ++ write_cbor kv.2) m
  | J_discarded => []
  end.
End writer.

(** [to_cbor] on a host with or without little endian numbers. *)
Definition to_cbor (host_le : bool) (j : json) : cstring :=
  write_cbor (little_endianness host_le 1) j.
