(* ===== verification/CborFacts.v ===== *)
(** The CBOR writer and reader are inverse to each other, up to what the
    format does not tell apart and what the tag handler does with subtypes. *)

From S2P Require Import Prelude Double JsonValue JsonParser JsonParserFacts JsonGrammar JsonRoundTrip.
From S2P Require Import BinaryNumbers BinaryNumbersFacts BinaryReader BinaryReaderFacts MsgPack Cbor.

(** * Values up to the format *)

(** CBOR has one kind of non-negative integers; a subtype is kept by the
    handler that stores tags and lost with the one that ignores them. *)
Definition cbor_leaf (h : cbor_tag_handler_t) (j : json) : json :=
  match j with
  | J_number_integer z => if 0 <=? z then J_number_unsigned z else j
  | J_binary b (Some t) => match h with tag_store => j | _ => J_binary b None end
  | _ => j
  end.

(** The handler that reports tags does not take subtypes. *)
Definition node_untagged (h : cbor_tag_handler_t) (j : json) : bool :=
  match j with
  | J_binary _ (Some _) => negb (bool_decide (h = tag_error))
  | _ => true
  end.

Section cbor.
  Context (le : bool) (h : cbor_tag_handler_t).

Abbreviation put T n := (write_number T le false n).

Lemma cbor_first fuel c bs j :
  reads_after (parse_cbor_value (parse_cbor fuel h) h c) c bs j →
  reads_value (parse_cbor (S fuel) h true) (c :: bs) j.
Proof. intros Hm. cbn [parse_cbor]. exact (reads_get _ c bs j Hm). Qed.

Ltac cbor_byte := apply cbor_first; unfold parse_cbor_value, parse_cbor_bytes, parse_cbor_container, parse_cbor_simple; switch.

(** * Heads *)

Definition head_types : list (Z * number_type Z) :=
  [(0x18, uint8); (0x19, uint16); (0x1A, uint32); (0x1B, uint64)].

Lemma write_cbor_head_cases base N :
  0 ≤ base ≤ 0xA0 → 0 ≤ N < 2 ^ 64 →
  write_cbor_head le base N = [base + N] ∧ N ≤ 23 ∨
  ∃ i T, In (i, T) head_types ∧ write_cbor_head le base N = (base + i) :: put T N ∧
    of_bits T (to_bits T N mod 2 ^ (8 * Z.of_nat (sizeof T))) = N.
Proof.
  intros Hb HN. unfold write_cbor_head. case_if; to_prop.
  - left. by rewrite write_byte, byte_in by (done || lia).
  - right. unfold head_types. repeat case_if; to_prop; do 2 eexists;
      (split; [|split; [reflexivity|apply uint_bits; simpl; lia]]); simpl; tauto.
Qed.

(** The cases of the head of a value, with the byte it starts with. *)
Ltac head_cases base N :=
  let Hin := fresh "Hin" in
  let HT := fresh "HT" in
  destruct (write_cbor_head_cases base N) as [[-> HT]|(? & ? & Hin & -> & HT)];
    [lia|lia| |simpl in Hin; repeat destruct Hin as [[= <- <-]|Hin]; [..|done]].

(** * Scalars *)

Lemma reads_cbor_unsigned fuel n :
  0 ≤ n < 2 ^ 64 → reads_value (parse_cbor (S fuel) h true) (write_cbor_head le 0x00 n) (J_number_unsigned n).
Proof.
  intros Hn. head_cases 0x00 n; cbor_byte.
  - apply reads_event.
  - by apply (reads_number uint8 le false F_cbor n _ J_number_unsigned).
  - by apply (reads_number uint16 le false F_cbor n _ J_number_unsigned).
  - by apply (reads_number uint32 le false F_cbor n _ J_number_unsigned).
  - by apply (reads_number uint64 le false F_cbor n _ J_number_unsigned).
Qed.

Lemma reads_cbor_integer fuel n :
  - 2 ^ 63 ≤ n < 2 ^ 63 →
  reads_value (parse_cbor (S fuel) h true) (write_cbor_integer le n) (cbor_leaf h (J_number_integer n)).
Proof.
  intros Hn. unfold write_cbor_integer, cbor_leaf. case_if; to_prop; [apply reads_cbor_unsigned; lia|].
  set (N := -1 - n) in *. assert (-1 - wrap_s 64 N = n) as HN by (rewrite wrap_s_small; unfold in_s; simpl; lia).
  head_cases 0x20 N; cbor_byte.
  - rewrite wrap_s_small by (unfold in_s; simpl; lia). replace (0x20 - 1 - (0x20 + N)) with n by lia. apply reads_event.
  - rewrite <- HN. by apply (reads_number uint8 le false F_cbor N _ (λ N, J_number_integer (-1 - wrap_s 64 N))).
  - rewrite <- HN. by apply (reads_number uint16 le false F_cbor N _ (λ N, J_number_integer (-1 - wrap_s 64 N))).
  - rewrite <- HN. by apply (reads_number uint32 le false F_cbor N _ (λ N, J_number_integer (-1 - wrap_s 64 N))).
  - rewrite <- HN. by apply (reads_number uint64 le false F_cbor N _ (λ N, J_number_integer (-1 - wrap_s 64 N))).
Qed.

(** Any negative integer of eight bytes: the subtraction wraps around. *)
Lemma reads_cbor_negative fuel n :
  0 ≤ n < 2 ^ 64 →
  reads_value (parse_cbor (S fuel) h true) (0x3B :: rev (le_bytes 8 n)) (J_number_integer (-1 - wrap_s 64 n)).
Proof.
  intros Hn. cbor_byte.
  replace (rev (le_bytes 8 n)) with (put uint64 n) by (by rewrite write_number_order).
  apply (reads_number uint64 le false F_cbor n _ (λ N, J_number_integer (-1 - wrap_s 64 N))); [done|].
  apply uint_bits. simpl. lia.
Qed.

(** The half-precision numbers that are written. *)
Lemma reads_half fuel b1 b2 f :
  is_byte b1 = true → is_byte b2 = true → half_to_double (Z.shiftl b1 8 + b2) = Ret f →
  reads_value (parse_cbor (S fuel) h true) [0xF9; b1; b2] (J_number_float f).
Proof.
  intros H1 H2 Hf. cbor_byte. intros r q p ref Hr _ Hslot. cbn [app] in Hr.
  assert (∃ d, dom_value (J_number_float f) (r_sax r) = Ret (true, d) ∧
    wrote (r_sax r) (p (J_number_float f)) (ref_stack (r_sax r)) d) as (d & Hd & Hw).
  { eexists. split; [|by eexists]. unfold dom_value. by rewrite (slot_handle _ _ _ Hslot). }
  exists d. split; [|done]. unfold get_cbor_half.
  eapply ran_get; [exact Hr|]. intros r1 Hr1 Hs1 Hc1. apply ran_unexpect; [by rewrite Hc1|]. cbn [negb].
  eapply ran_get; [exact Hr1|]. intros r2 Hr2 Hs2 Hc2. apply ran_unexpect; [by rewrite Hc2|]. cbn [negb].
  assert (∀ b, is_byte b = true → wrap_u 8 b = b) as Hwrap.
  { intros b Hb. unfold wrap_u. apply Z.mod_small. unfold is_byte in Hb. to_prop.
    change (2 ^ 8) with 256. lia. }
  unfold ran, emit_half. rewrite !Hwrap, Hf by done. cbn [mbind outcome_bind].
  rewrite <- Hr2. apply (ran_event (dom_value (J_number_float f))). by rewrite Hs2, Hs1.
Qed.

Lemma reads_cbor_float fuel f :
  valid_binary 53 1024 f = true →
  reads_value (parse_cbor (S fuel) h true) (write_cbor_float le f) (J_number_float f).
Proof.
  intros Hf. assert (∀ f, valid_binary 53 1024 f = true →
    reads_value (parse_cbor (S fuel) h true) (write_compact_float le f get_cbor_float_prefix)
      (J_number_float f)) as Hc.
  { clear f Hf. intros f Hf. unfold write_compact_float. case_if; cbn [get_cbor_float_prefix]; to_prop.
    - cbor_byte. replace (J_number_float f) with (J_number_float (to_double (to_float f)))
        by (by rewrite float_exact).
      apply (reads_number float32 le false F_cbor (to_float f) _ (λ n, J_number_float (to_double n)));
        auto with verif; done.
    - cbor_byte. apply (reads_number float64 le false F_cbor f _ J_number_float); auto with verif; done. }
  destruct f as [s|[]| |s m e]; cbn [write_cbor_float]; [by apply Hc|..|by apply Hc];
    by apply reads_half.
Qed.

(** * Strings and byte arrays *)

Lemma cbor_string_step result (r : reader dom) :
  get_cbor_string result r =
    get_cbor_string_step (get_cbor_string_loop (S (length (ia r)))) result r.
Proof. reflexivity. Qed.

Lemma cbor_binary_step result (r : reader dom) :
  get_cbor_binary result r =
    get_cbor_binary_step (get_cbor_binary_loop (S (length (ia r)))) result r.
Proof. reflexivity. Qed.

Lemma ran_cbor_string s :
  forallb is_byte s = true → Z.of_nat (length s) < 2 ^ 56 →
  ∃ c bs, write_cbor_string le s = c :: bs ∧ in_range 0x60 0x7B c = true ∧
    ∀ (r : reader dom) q, ia r = bs ++ q → current r = c →
      ran (get_cbor_string []) r (true, s) q (r_sax r).
Proof.
  intros Hs Hlen. unfold write_cbor_string. set (N := Z.of_nat (length s)) in *.
  head_cases 0x60 N; cbn [app]; do 2 eexists; (split; [reflexivity|]); (split; [unfold in_range; lia|]);
    intros r q Hr Hc; (eapply ran_eq; [apply cbor_string_step|]); unfold get_cbor_string_step; cbv zeta;
    (apply ran_unexpect; [rewrite Hc; unfold is_byte; lia|]); cbn [negb]; apply ran_last;
    rewrite Hc; switch.
  - rewrite (land_1F 3) by lia. by apply ran_string.
  - by apply (ran_sized_string le).
  - by apply (ran_sized_string le).
  - by apply (ran_sized_string le).
  - by apply (ran_sized_string le).
Qed.

Lemma reads_cbor_string fuel s :
  forallb is_byte s = true → Z.of_nat (length s) < 2 ^ 56 →
  reads_value (parse_cbor (S fuel) h true) (write_cbor_string le s) (J_string s).
Proof.
  intros Hs Hlen. destruct (ran_cbor_string s Hs Hlen) as (c & bs & -> & Hc & Hrun).
  apply cbor_first. unfold parse_cbor_value, parse_cbor_bytes, parse_cbor_container, parse_cbor_simple. unfold in_range in Hc. switch.
  by apply (reads_and_then _ s J_string).
Qed.

Lemma ran_cbor_binary b st :
  forallb is_byte b = true → Z.of_nat (length b) < 2 ^ 56 →
  ∃ c bs, write_cbor_head le 0x40 (Z.of_nat (length b)) ++ b = c :: bs ∧
    in_range 0x40 0x5B c = true ∧
    ∀ (r : reader dom) q, ia r = bs ++ q → current r = c →
      ran (get_cbor_binary ([], st)) r (true, (b, st)) q (r_sax r).
Proof.
  intros Hs Hlen. set (N := Z.of_nat (length b)) in *.
  head_cases 0x40 N; cbn [app]; do 2 eexists; (split; [reflexivity|]); (split; [unfold in_range; lia|]);
    intros r q Hr Hc; (eapply ran_eq; [apply cbor_binary_step|]); unfold get_cbor_binary_step; cbv zeta;
    (apply ran_unexpect; [rewrite Hc; unfold is_byte; lia|]); cbn [negb]; apply ran_last;
    rewrite Hc; switch.
  - rewrite (land_1F 2) by lia. by apply ran_binary.
  - by apply (ran_sized_binary le).
  - by apply (ran_sized_binary le).
  - by apply (ran_sized_binary le).
  - by apply (ran_sized_binary le).
Qed.

(** The tag that carries a subtype. *)
Lemma write_cbor_subtype_cases t :
  in_u 64 t = true →
  ∃ c T, write_cbor_subtype le t = c :: put T t ∧ cbor_tag_type c = Some T ∧
    in_range 0xD8 0xDB c = true ∧
    of_bits T (to_bits T t mod 2 ^ (8 * Z.of_nat (sizeof T))) = t.
Proof.
  unfold in_u. intros Ht. to_prop. unfold write_cbor_subtype.
  repeat case_if; to_prop; [..|lia]; rewrite (write_byte uint8) by done; do 2 eexists;
    (split; [reflexivity|]); (split; [reflexivity|]); (split; [reflexivity|]);
    apply uint_bits; simpl; lia.
Qed.

(** A byte array after the tag with its subtype. *)
Lemma reads_cbor_tagged fuel b t :
  forallb is_byte b = true → Z.of_nat (length b) < 2 ^ 56 → in_u 64 t = true → h ≠ tag_error →
  reads_value (parse_cbor (S (S fuel)) h true) (write_cbor_binary le b (Some t))
    (cbor_leaf h (J_binary b (Some t))).
Proof.
  intros Hb Hlen Ht Hh. unfold write_cbor_binary.
  destruct (write_cbor_subtype_cases t Ht) as (c & T & -> & Htag & Hc & HT).
  cbn [app]. apply cbor_first. unfold parse_cbor_value, parse_cbor_bytes, parse_cbor_container, parse_cbor_simple. unfold in_range in Hc. switch.
  intros r q p ref Hr _ Hslot. rewrite <- app_assoc in Hr.
  destruct (ran_number T le false F_cbor r t _ ltac:(done) Hr HT) as (r1 & Hm & Hq & Hs).
  unfold get_cbor_tagged. rewrite Htag. cbn [cbor_leaf]. destruct h; [done|..]; rewrite <- Hs in *.
  - destruct (ran_cbor_binary b None Hb Hlen) as (c' & bs & Eb & Hc' & Hrun). rewrite Eb in Hq.
    assert (reads_value (parse_cbor (S fuel) tag_ignore true) (c' :: bs) (J_binary b None)) as Hj.
    { cbn [parse_cbor]. apply (reads_get (parse_cbor_value (parse_cbor fuel tag_ignore) tag_ignore)).
      unfold parse_cbor_value, parse_cbor_bytes, parse_cbor_container, parse_cbor_simple. unfold in_range in Hc'. switch.
      by apply (reads_and_then _ (b, None) (λ b, J_binary b.1 b.2)). }
    destruct (Hj r1 q p ref Hq Hslot) as (d & (r2 & Hm2 & ? & ?) & Hw). exists d. split; [|done].
    exists r2. split; [|done]. rewrite rd_bind_run, Hm. exact Hm2.
  - destruct (ran_cbor_binary b (Some t) Hb Hlen) as (c' & bs & Eb & Hc' & Hrun). rewrite Eb in Hq.
    pose proof (reads_get (λ _, and_then (get_cbor_binary ([], Some t))
      (λ b, event (dom_value (J_binary b.1 b.2)))) c' bs (J_binary b (Some t))) as Hj.
    destruct (Hj ltac:(by apply (reads_and_then _ (b, Some t) (λ b, J_binary b.1 b.2))) r1 q p ref Hq Hslot)
      as (d & (r2 & Hm2 & ? & ?) & Hw). exists d. split; [|done].
    exists r2. split; [|done]. rewrite rd_bind_run, Hm. exact Hm2.
Qed.

Lemma reads_cbor_binary fuel b :
  forallb is_byte b = true → Z.of_nat (length b) < 2 ^ 56 →
  reads_value (parse_cbor (S fuel) h true) (write_cbor_binary le b None) (J_binary b None).
Proof.
  intros Hb Hlen. destruct (ran_cbor_binary b None Hb Hlen) as (c & bs & Eb & Hc & Hrun).
  unfold write_cbor_binary. cbn [app]. rewrite Eb.
  apply cbor_first. unfold parse_cbor_value, parse_cbor_bytes, parse_cbor_container, parse_cbor_simple. unfold in_range in Hc. switch.
  by apply (reads_and_then _ (b, None) (λ b, J_binary b.1 b.2)).
Qed.

(** * Containers *)

Lemma max_size_56 : 2 ^ 56 ≤ array_max_size ∧ 2 ^ 56 ≤ object_max_size ∧ 2 ^ 56 ≤ npos.
Proof. by vm_compute. Qed.

Lemma reads_cbor_array fuel encs l :
  Forall2 (reads_value (parse_cbor fuel h true)) encs l → Z.of_nat (length l) < 2 ^ 56 →
  reads_value (parse_cbor (S fuel) h true)
    (write_cbor_head le 0x80 (Z.of_nat (length l)) ++ concat encs) (J_array l).
Proof.
  intros Hl Hlen. pose proof max_size_56 as (Hma & _ & Hnp).
  assert (reads_value (get_cbor_array (parse_cbor fuel h) (Z.of_nat (length l)))
    (concat encs) (J_array l)) as Harr.
  { unfold get_cbor_array. decide_test (Z.of_nat (length l) =? npos) false.
    apply reads_array; [done|lia]. }
  set (N := Z.of_nat (length l)) in *. head_cases 0x80 N; cbn [app]; cbor_byte.
  - rewrite (land_1F 4) by lia. by apply reads_after_value.
  - by apply (reads_sized le).
  - by apply (reads_sized le).
  - by apply (reads_sized le).
  - by apply (reads_sized le).
Qed.

Lemma reads_cbor_object fuel encs ms :
  Forall2 (reads_member (_ ← get; get_cbor_member (parse_cbor fuel h))) encs ms →
  Z.of_nat (length ms) < 2 ^ 56 →
  reads_value (parse_cbor (S fuel) h true)
    (write_cbor_head le 0xA0 (Z.of_nat (length ms)) ++ concat encs) (J_object (build_object ms [])).
Proof.
  intros Hl Hlen. pose proof max_size_56 as (_ & Hmo & Hnp).
  assert (reads_value (get_cbor_object (parse_cbor fuel h) (Z.of_nat (length ms)))
    (concat encs) (J_object (build_object ms []))) as Hobj.
  { unfold get_cbor_object. decide_test (Z.of_nat (length ms) =? npos) false.
    apply reads_object; [done|lia]. }
  set (N := Z.of_nat (length ms)) in *. head_cases 0xA0 N; cbn [app]; cbor_byte.
  - rewrite (land_1F 5) by lia. by apply reads_after_value.
  - by apply (reads_sized le).
  - by apply (reads_sized le).
  - by apply (reads_sized le).
  - by apply (reads_sized le).
Qed.

Lemma reads_cbor_member parse k bs j :
  forallb is_byte k = true → Z.of_nat (length k) < 2 ^ 56 → reads_value (parse true) bs j →
  reads_member (_ ← get; get_cbor_member parse) (write_cbor_string le k ++ bs) (k, j).
Proof.
  intros Hk Hlen Hj. destruct (ran_cbor_string k Hk Hlen) as (c & kbs & -> & _ & Hrun).
  by apply reads_first_member.
Qed.

(** * Values *)

Lemma write_head_length base N : (0 < length (write_cbor_head le base N))%nat.
Proof.
  unfold write_cbor_head. repeat case_if; simpl; rewrite ?write_number_length; simpl; lia.
Qed.

Lemma reads_cbor j :
  json_wf j = true → json_fits 56 j = true → json_forall (node_untagged h) j = true →
  ∀ fuel, (length (write_cbor le j) < fuel)%nat →
  reads_value (parse_cbor fuel h true) (write_cbor le j) (leaf_map (cbor_leaf h) j).
Proof.
  unfold json_wf, json_fits.
  induction j as [|m IH|l IH|s|b|z|z|f|b st|] using json_rect_nested; intros Hwf Hfit Htag fuel Hfuel;
    (destruct fuel as [|fuel]; [lia|]);
    cbn [json_forall node_wf node_fits node_untagged] in Hwf, Hfit, Htag;
    cbn [write_cbor leaf_map] in *; to_prop.
  - cbor_byte. apply reads_event.
  - rewrite flat_map_concat_map in *. rewrite length_app in Hfuel.
    pose proof (write_head_length 0xA0 (Z.of_nat (length m))) as Hh.
    rewrite <- build_object_leaf_map by done.
    rewrite <- (length_map (λ kv : cstring * json, (kv.1, leaf_map (cbor_leaf h) kv.2))) at 1.
    apply reads_cbor_object; [|by rewrite length_map].
    apply Forall2_maps. intros [k v] Hkv. cbn [fst snd]. rewrite List.Forall_forall in IH.
    pose proof (flat_map_elem (λ kv, write_cbor_string le kv.1 ++ write_cbor le kv.2) m _ Hkv)
      as He. rewrite flat_map_concat_map in He. cbn [fst snd] in He. rewrite length_app in He.
    repeat match goal with
    | H : forallb _ m = true |- _ => apply (proj1 (forallb_forall _ m)) with (x := (k, v)) in H; [|done]
    end. cbn [fst snd] in *.
    apply reads_cbor_member; [done|lia|]. apply (IH (k, v)); [done..|]. cbn [snd]. lia.
  - rewrite flat_map_concat_map in *. rewrite length_app in Hfuel.
    pose proof (write_head_length 0x80 (Z.of_nat (length l))) as Hh.
    rewrite <- (length_map (leaf_map (cbor_leaf h))) at 1.
    apply reads_cbor_array; [|by rewrite length_map].
    apply Forall2_maps. intros x Hx. rewrite List.Forall_forall in IH.
    apply IH; [done|by apply (forallb_forall _ l)|by apply (forallb_forall _ l)|by apply (forallb_forall _ l)|].
    pose proof (flat_map_elem (write_cbor le) l x Hx) as He. rewrite flat_map_concat_map in He. lia.
  - by apply reads_cbor_string.
  - destruct b; cbor_byte; apply reads_event.
  - apply reads_cbor_integer. unfold in_s in *. to_prop. lia.
  - apply reads_cbor_unsigned. unfold in_u in *. to_prop. lia.
  - by apply reads_cbor_float.
  - destruct st as [t|]; [|by apply reads_cbor_binary].
    destruct fuel as [|fuel].
    + exfalso. unfold write_cbor_binary in Hfuel. rewrite !length_app in Hfuel.
      pose proof (write_head_length 0x40 (Z.of_nat (length b))).
      destruct (write_cbor_subtype_cases t ltac:(done)) as (c & T & E & _). rewrite E in Hfuel.
      simpl in Hfuel. lia.
    + apply reads_cbor_tagged; [done|lia|done|]. intros ->. by rewrite bool_decide_eq_true_2 in *.
  - done.
Qed.
End cbor.
