(* ===== verification/CborSafety.v ===== *)
(** The CBOR reader on arbitrary bytes, against the contract of
    [BinarySafety]: in particular that its loops and its recursion end. *)

From S2P Require Import Prelude Double JsonValue JsonParser JsonParserFacts.
From S2P Require Import BinaryNumbers BinaryNumbersFacts BinaryReader BinaryReaderFacts BinarySafety.
From S2P Require Import MsgPack MsgPackSafety Cbor CborFacts.

Section cbor.
  Context {S : Type} {X : json_exn → Prop} {big : Prop} `{BinaryLaws S X big}.

Abbreviation rd_good := (rd_good (X := X)).

(** * Loops up to the break byte *)

(** The result of a loop body: at the end of the input it stops the loop. *)
Definition stops_at_end {A} (st : list bool) (k : bool) (n : nat) (P : A → Prop) (r : reader S)
    (p : bool * A) (r' : reader S) : Prop :=
  got st k n P p r' ∧ (current r = eof → p.1 = false).

(** A byte was read, so that less than [n] are left, or the input has ended. *)
Definition read_one (m n : nat) (r : reader S) : Prop :=
  (m ≤ n)%nat ∧ (current r = eof ∨ is_byte (current r) = true ∧ (m < n)%nat).

Lemma got_mono {A} st k n n' (P : A → Prop) p r :
  got st k n P p r → (n ≤ n')%nat → got (S := S) st k n' P p r.
Proof. intros [Ha Hp] Hn. split; [by eapply after_mono|done]. Qed.

Lemma until_break_loop_good {A} (P : A → Prop) (body : A → rd S (bool * A)) st k fuel n a r :
  (n < fuel)%nat → holds st k n r → P a →
  (∀ m a r, read_one m n r → P a → holds st k m r → rd_good (body a) r (stops_at_end st k m P r)) →
  rd_good (until_break_loop fuel body a) r (got st k n P).
Proof.
  revert n a r. induction fuel as [|fuel IH]; intros n a r Hn Hr Ha Hbody; [lia|].
  cbn [until_break_loop]. eapply rd_good_bind; [by apply get_good|]. intros c r1 (Hr1 & Hc & Hcase).
  case_if; [by apply rd_good_ret|].
  destruct Hcase as [He|(Hb & Hn0 & Hr1')].
  - eapply rd_good_bind; [apply (Hbody n); [|done..]; split; [lia|left; congruence]|].
    intros [b a'] r2 [Hg Hstop]. assert (b = false) as -> by (apply Hstop; congruence).
    by apply rd_good_ret.
  - eapply rd_good_bind; [apply (Hbody (pred n)); [|done..]; split; [lia|right; split; [congruence|lia]]|].
    intros [[] a'] r2 [[Ha' Hp] _].
    + eapply rd_good_mono; [apply (IH (pred n)); [lia|done|by apply Hp|]|].
      * intros m a2 r3 [Hm1 Hm2] Ha2 Hr3. apply Hbody; [|done..]. split; [lia|].
        destruct Hm2 as [|[? ?]]; [by left|right; split; [done|lia]].
      * intros p r3 Hg. eapply got_mono; [done|lia].
    + apply rd_good_ret. eapply (got_mono _ _ (pred n)); [by split|lia].
Qed.

Lemma until_break_good {A} (P : A → Prop) (body : A → rd S (bool * A)) st k n a r :
  holds st k n r → P a →
  (∀ m a r, read_one m n r → P a → holds st k m r → rd_good (body a) r (stops_at_end st k m P r)) →
  rd_good (until_break body a) r (got st k n P).
Proof.
  intros Hr Ha Hbody. pose proof Hr as (Hs & Hn & Hb & Hi).
  assert (rd_good (until_break_loop (2 + length (ia r)) body a) r (got st k (length (ia r)) P)) as Hg.
  { apply until_break_loop_good; [lia|by repeat split|done|].
    intros m a' r' [Hm1 Hm2] Ha' Hr'. apply Hbody; [|done..]. split; [lia|].
    destruct Hm2 as [|[? ?]]; [by left|right; split; [done|lia]]. }
  eapply goodx_mono; [exact Hg|]. intros [p r'] Hp. by eapply got_mono.
Qed.

(** * Strings and byte arrays *)

(** The fuel is enough for what is left after the byte that was read last. *)
Definition fuel_for (fuel m : nat) (r : reader S) : Prop :=
  (0 < fuel)%nat ∧ (current r = eof ∨ (m + 1 < fuel)%nat).

Lemma read_one_fuel fuel m n r : read_one m n r → (n < fuel)%nat → fuel_for fuel m r.
Proof. intros [Hm [He|[_ Hlt]]] Hf; (split; [lia|]); [by left|right; lia]. Qed.

Lemma string_loop_good st k fuel m r :
  holds st k m r → fuel_for fuel m r →
  rd_good (get_cbor_string_loop fuel []) r (stops_at_end st k m bytes r).
Proof.
  revert m r. induction fuel as [|fuel IH]; intros m r Hr [Hf0 Hfuel]; [lia|].
  cbn [get_cbor_string_loop]. unfold get_cbor_string_step.
  eapply rd_good_bind; [by apply unexpect_eof_good|]. intros [] r1 (Hr1 & H1' & H2'); cbn [negb].
  - destruct (H1' eq_refl) as [-> He]. destruct Hfuel as [|Hfuel]; [done|].
    eapply (rd_good_mono _ _ (got st k m bytes)); [|by intros p r' Hg].
    apply last_good. cbv zeta. case_if; [by apply get_string_good|].
    assert (∀ sz, rd_good (and_set (get_number (uint sz) false F_cbor) []
      (λ len, get_string F_cbor len [])) r (got st k m bytes)) as Hsized.
    { intros sz. eapply and_set_good; [by apply number_good|]. intros len r' _ Hr'. by apply get_string_good. }
    do 4 (case_if; [by apply Hsized|]). case_if.
    + apply until_break_good; [done..|]. intros m' a r' Hone Ha Hr'.
      eapply rd_good_bind; [apply IH; [done|by apply (read_one_fuel _ _ m); [|lia]]|].
      intros [[] chunk] r2 [[Hg1 Hg2] Hstop]; apply rd_good_ret; (split; [|done]); (split; [done|]);
        [intros _|done]. unfold bytes in *. cbn [snd]. rewrite forallb_app, Ha. by apply Hg2.
    + apply token_good. intros t.
      eapply rd_good_bind; [apply (report_good _ _ _ _ _ r st k m); simpl; auto; done|].
      intros b r2 (-> & Hr2 & Ht2). apply rd_good_ret. by split; [apply holds_after|].
  - apply rd_good_ret. split; [|done]. split; [by apply holds_after; [|intros; apply H2']|done].
Qed.

Lemma get_cbor_string_good st k n r :
  holds st k n r → rd_good (get_cbor_string []) r (stops_at_end st k n bytes r).
Proof.
  intros Hr. pose proof Hr as (Hs & Hn & Hb & Hi).
  assert (rd_good (get_cbor_string_loop (2 + length (ia r)) []) r
    (stops_at_end st k (length (ia r)) bytes r)) as Hg.
  { apply string_loop_good; [by repeat split|]. split; [lia|right; lia]. }
  eapply goodx_mono; [exact Hg|]. intros [p r'] [Hp He]. split; [by eapply got_mono|done].
Qed.

Lemma binary_loop_good st k fuel m r result :
  holds st k m r → fuel_for fuel m r → binary_bytes result →
  rd_good (get_cbor_binary_loop fuel result) r (stops_at_end st k m binary_bytes r).
Proof.
  revert m r result. induction fuel as [|fuel IH]; intros m r result Hr [Hf0 Hfuel] Hres; [lia|].
  cbn [get_cbor_binary_loop]. unfold get_cbor_binary_step.
  eapply rd_good_bind; [by apply unexpect_eof_good|]. intros [] r1 (Hr1 & H1' & H2'); cbn [negb].
  - destruct (H1' eq_refl) as [-> He]. destruct Hfuel as [|Hfuel]; [done|].
    eapply (rd_good_mono _ _ (got st k m binary_bytes)); [|by intros p r' Hg].
    apply last_good. cbv zeta. case_if; [by apply get_binary_good|].
    assert (∀ sz, rd_good (and_set (get_number (uint sz) false F_cbor) result
      (λ len, get_binary F_cbor len result)) r (got st k m binary_bytes)) as Hsized.
    { intros sz. eapply and_set_good; [by apply number_good|]. intros len r' _ Hr'. by apply get_binary_good. }
    do 4 (case_if; [by apply Hsized|]). case_if.
    + apply until_break_good; [done..|]. intros m' a r' Hone Ha Hr'.
      eapply rd_good_bind; [apply IH; [done|by apply (read_one_fuel _ _ m); [|lia]|done]|].
      intros [[] chunk] r2 [[Hg1 Hg2] Hstop]; apply rd_good_ret; (split; [|done]); (split; [done|]);
        [intros _|done]. specialize (Hg2 eq_refl). unfold binary_bytes, binary_ok in *. cbn [fst snd] in *.
      to_prop. rewrite forallb_app. repeat (apply andb_true_iff; split); done.
    + apply token_good. intros t.
      eapply rd_good_bind; [apply (report_good _ _ _ _ _ r st k m); simpl; auto; done|].
      intros b r2 (-> & Hr2 & Ht2). apply rd_good_ret. by split; [apply holds_after|].
  - apply rd_good_ret. split; [|done]. split; [by apply holds_after; [|intros; apply H2']|done].
Qed.

Lemma get_cbor_binary_good st k n r result :
  holds st k n r → binary_bytes result →
  rd_good (get_cbor_binary result) r (got st k n binary_bytes).
Proof.
  intros Hr Hres. pose proof Hr as (Hs & Hn & Hb & Hi).
  assert (rd_good (get_cbor_binary_loop (2 + length (ia r)) result) r
    (stops_at_end st k (length (ia r)) binary_bytes r)) as Hg.
  { apply binary_loop_good; [by repeat split| |done]. split; [lia|right; lia]. }
  eapply goodx_mono; [exact Hg|]. intros [p r'] [Hp He]. by eapply got_mono.
Qed.

(** * Half-precision numbers *)

Lemma land_ones_range z k : 0 ≤ k → 0 ≤ Z.land z (Z.ones k) < 2 ^ k.
Proof. intros Hk. rewrite Z.land_ones by done. apply Z.mod_pos_bound, pow2_pos. lia. Qed.

Lemma round_float_valid_0 s m e :
  0 ≤ m → valid_binary 53 1024 (round_float 53 1024 s m e) = true.
Proof.
  intros Hm. destruct (Z.eq_dec m 0) as [->|]; [|apply round_float_valid; lia].
  unfold round_float. rewrite Z.mul_0_l. unfold round_half_even.
  pose proof (pow2_pos (Z.max 0 (Z.max (Z.log2 0 + e - (53 - 1)) (SpecFloat.emin 53 1024) - e)) ltac:(lia)).
  rewrite Z.div_0_l, Z.mod_0_l by lia. by decide_test (2 * 0 <? 2 ^ Z.max 0 (Z.max (Z.log2 0 + e - (53 - 1)) (SpecFloat.emin 53 1024) - e)) true.
Qed.

Lemma half_to_double_valid half : ∃ f, half_to_double half = Ret f ∧ valid_binary 53 1024 f = true.
Proof.
  unfold half_to_double, assert. change 0x1F with (Z.ones 5). change 0x3FF with (Z.ones 10).
  pose proof (land_ones_range (Z.shiftr half 10) 5 ltac:(lia)) as He.
  pose proof (land_ones_range half 10 ltac:(lia)) as Hm.
  set (exp := Z.land (Z.shiftr half 10) (Z.ones 5)) in *. set (mant := Z.land half (Z.ones 10)) in *.
  decide_test ((0 <=? exp) && (exp <=? 32)) true. decide_test (mant <=? 1024) true.
  eexists. split; [done|].
  assert (∀ f, valid_binary 53 1024 f = true → valid_binary 53 1024 (SFopp f) = true) as Hopp
    by (by intros []).
  assert (valid_binary 53 1024 (if exp =? 0 then round_float 53 1024 false mant (-24)
    else if exp =? 31 then if mant =? 0 then S754_infinity false else S754_nan
    else round_float 53 1024 false (mant + 1024) (exp - 25)) = true) as Hv.
  { repeat case_if; try done; apply round_float_valid_0; lia. }
  case_if; auto.
Qed.

Lemma emit_half_good b1 b2 r st k n :
  holds st k n r → value_pos st k → rd_good (emit_half b1 b2) r (after st false n).
Proof.
  intros Hr Hv. destruct (half_to_double_valid (Z.shiftl (wrap_u 8 b1) 8 + wrap_u 8 b2)) as (f & Hf & Hval).
  assert (rd_good (event (sax_number_float f [])) r (after st false n)) as Hg.
  { eapply event_after; [exact Hr|]. eapply blaw_float; [apply Hr|done..]. }
  unfold BinarySafety.rd_good, emit_half. cbv zeta. by rewrite Hf.
Qed.

Lemma get_cbor_half_good st k n r :
  holds st k n r → value_pos st k → rd_good get_cbor_half r (after st false n).
Proof.
  intros Hr Hv. unfold get_cbor_half. eapply rd_good_bind; [by apply get_good|]. intros b1 r1 (Hr1 & _).
  eapply rd_good_bind; [by apply unexpect_eof_good|]. intros [] r2 (Hr2 & _ & Ht2); cbn [negb];
    [|apply rd_good_ret; split; [by apply Ht2|by exists st, k]].
  eapply rd_good_bind; [by apply get_good|]. intros b2 r3 (Hr3 & _).
  eapply rd_good_bind; [by apply unexpect_eof_good|]. intros [] r4 (Hr4 & _ & Ht4); cbn [negb];
    [|apply rd_good_ret; split; [by apply Ht4|by exists st, k]].
  by apply (emit_half_good _ _ r4 st k).
Qed.

(** * Containers

    [parse] reads values when at most [n] bytes are left: with a byte of its
    own, or with one that was read before. *)

Definition parses_cbor (parse : bool → rd S bool) (n : nat) : Prop :=
  (∀ m, (m ≤ n)%nat → parses_within (parse true) m) ∧
  ∀ m r st k, read_one m n r → holds st k m r → value_pos st k →
    rd_good (parse false) r (λ b r', after st false m b r' ∧ (current r = eof → b = false)).

Context (Hbig : big).

Lemma get_cbor_array_good parse r st k n len :
  parses_cbor parse n → holds st k n r → value_pos st k →
  rd_good (get_cbor_array parse len) r (after st false n).
Proof.
  intros [Hp1 Hp2] Hr Hv. eapply and_also_good; [|done|].
  - eapply event_after; [exact Hr|]. apply blaw_start_array with (k := k); [apply Hr|done|by left].
  - intros r1 Hr1. eapply (and_then_good _ _ _ (true :: st) false n _ _ _ (λ _, True)); [|done|].
    + case_if.
      * apply until_break_good; [done..|]. intros m [] r2 Hone _ Hr2.
        eapply rd_good_bind; [by eapply (Hp2 m r2 (true :: st) false)|]. intros b r3 [Ha He].
        apply rd_good_ret. by split.
      * apply (for_loop_good (λ _, True)); [exact Hr1|done|]. intros [] r2 _ Hr2.
        apply round_good. by apply (Hp1 n ltac:(lia) r2 _ false).
    + intros [] r2 _ Hr2. eapply event_after; [exact Hr2|]. by eapply blaw_end_array, Hr2.
Qed.

Lemma get_cbor_member_good parse r st k n m :
  parses_cbor parse n → (m ≤ n)%nat → holds (false :: st) k m r →
  rd_good (get_cbor_member parse) r
    (λ b r', after (false :: st) false m b r' ∧ (current r = eof → b = false)).
Proof.
  intros [Hp1 _] Hm Hr. unfold get_cbor_member, and_also.
  eapply (rd_good_bind _ _ _ (λ b r', after (false :: st) true m b r' ∧ (current r = eof → b = false))).
  - unfold and_then. eapply rd_good_bind; [by apply get_cbor_string_good|].
    intros [[] s] r1 [[Ha Hs] Hstop].
    + eapply rd_good_mono; [eapply event_after; [exact Ha|]|].
      * eapply blaw_key; [apply Ha|by apply Hs].
      * intros b r2 Hb. split; [done|]. intros He. by specialize (Hstop He).
    + apply rd_good_ret. by split.
  - intros [] r1 [Ha He].
    + eapply rd_good_mono; [by apply (Hp1 m Hm r1 (false :: st) true)|].
      intros b r2 Hb. split; [done|]. intros Heof. by specialize (He Heof).
    + apply rd_good_ret. by split.
Qed.

Lemma get_cbor_object_good parse r st k n len :
  parses_cbor parse n → holds st k n r → value_pos st k →
  rd_good (get_cbor_object parse len) r (after st false n).
Proof.
  intros Hp Hr Hv. eapply and_also_good; [|done|].
  - eapply event_after; [exact Hr|]. apply blaw_start_object with (k := k); [apply Hr|done|by left].
  - intros r1 Hr1. eapply (and_then_good _ _ _ (false :: st) false n _ _ _ (λ _, True)); [|done|].
    + case_if.
      * apply until_break_good; [done..|]. intros m [] r2 [Hm _] _ Hr2.
        eapply rd_good_bind; [by eapply (get_cbor_member_good parse r2 st false n m)|].
        intros b r3 [Ha He]. apply rd_good_ret. by split.
      * apply (for_loop_good (λ _, True)); [exact Hr1|done|]. intros [] r2 _ Hr2.
        apply round_good. eapply rd_good_bind; [by apply get_good|]. intros c r3 (Hr3 & _).
        eapply rd_good_mono; [by eapply (get_cbor_member_good parse r3 st false n n)|].
        by intros b r4 [Ha _].
    + intros [] r2 _ Hr2. eapply event_after; [exact Hr2|]. by eapply blaw_end_object, Hr2.
Qed.

(** * Values *)

Lemma cbor_tag_bits c T a : cbor_tag_type c = Some T → bits_of T a → in_u 64 a = true.
Proof.
  unfold cbor_tag_type. repeat case_if; intros [= <-]; intros Ha; (eapply uint_in; [|exact Ha]); lia.
Qed.

Lemma get_cbor_tagged_good parse h c r st k n :
  parses_cbor parse n → holds st k n r → value_pos st k →
  rd_good (get_cbor_tagged parse h c) r (after st false n).
Proof.
  intros [Hp _] Hr Hv. unfold get_cbor_tagged. destruct h.
  - apply token_good. intros t. eapply report_after; [exact Hr|done|simpl; auto].
  - destruct (cbor_tag_type c) as [T|]; [|by apply (Hp n ltac:(lia) r st k)].
    eapply rd_good_bind; [by apply get_number_good|]. intros [ok a] r1 (Hr1 & _).
    by apply (Hp n ltac:(lia) r1 st k).
  - destruct (cbor_tag_type c) as [T|] eqn:ET; [|by apply (Hp n ltac:(lia) r st k)].
    eapply rd_good_bind; [by apply get_number_good|]. intros [ok a] r1 (Hr1 & Ha & _).
    eapply rd_good_bind; [by apply get_good|]. intros c' r2 (Hr2 & _).
    eapply and_then_good; [apply get_cbor_binary_good; [exact Hr2|]|done|].
    + unfold binary_bytes, binary_ok. simpl. by eapply cbor_tag_bits.
    + intros b r3 Hb Hr3. eapply event_after; [exact Hr3|]. eapply blaw_binary; [apply Hr3|done..].
Qed.

Lemma negative_in n : in_s 64 (-1 - wrap_s 64 n) = true.
Proof. pose proof (wrap_s_in 64 n ltac:(lia)) as Hn. unfold in_s in *. to_prop. apply andb_true_iff. split; lia. Qed.

Lemma parse_cbor_value_good parse h c r st k n :
  parses_cbor parse n → holds st k n r → value_pos st k → is_byte c = true →
  rd_good (parse_cbor_value parse h c) r (after st false n).
Proof.
  intros Hp Hr Hv Hb. pose proof (proj1 Hr) as Hs. unfold parse_cbor_value, parse_cbor_bytes, parse_cbor_container, parse_cbor_simple. cbv zeta.
  assert (∀ sz, (sz ≤ 8)%nat → rd_good (and_then (get_number (uint sz) false F_cbor)
    (λ n, event (sax_number_unsigned n))) r (after st false n)) as Hun.
  { intros sz Hsz. eapply and_then_good; [by apply number_good|done|]. intros z r' Hz Hr'.
    eapply event_after; [exact Hr'|]. eapply blaw_unsigned; [apply Hr'|done|by eapply uint_in]. }
  assert (∀ sz, rd_good (and_then (get_number (uint sz) false F_cbor)
    (λ n, event (sax_number_integer (-1 - wrap_s 64 n)))) r (after st false n)) as Hng.
  { intros sz. eapply and_then_good; [by apply number_good|done|]. intros z r' Hz Hr'.
    eapply event_after; [exact Hr'|]. eapply blaw_integer; [apply Hr'|done|apply negative_in]. }
  assert (∀ sz, rd_good (and_then (get_number (uint sz) false F_cbor) (get_cbor_array parse)) r
    (after st false n)) as Harr.
  { intros sz. eapply and_then_good; [by apply number_good|done|]. intros z r' _ Hr'.
    by eapply get_cbor_array_good. }
  assert (∀ sz, rd_good (and_then (get_number (uint sz) false F_cbor) (get_cbor_object parse)) r
    (after st false n)) as Hobj.
  { intros sz. eapply and_then_good; [by apply number_good|done|]. intros z r' _ Hr'.
    by eapply get_cbor_object_good. }
  unfold is_byte in Hb. to_prop. case_if; [unfold eof in *; to_prop; lia|].
  case_if; [eapply event_after; [exact Hr|]; eapply blaw_unsigned; [done..|unfold in_u; lia]|].
  do 4 (case_if; [apply Hun; lia|]).
  case_if; [eapply event_after; [exact Hr|]; eapply blaw_integer; [done..|];
    eapply in_s_mono; [|apply wrap_s_in]; lia|].
  do 4 (case_if; [apply Hng|]).
  case_if; [eapply and_then_good; [by apply get_cbor_binary_good|done|]; intros b r' Hb2 Hr';
    eapply event_after; [exact Hr'|]; eapply blaw_binary; [apply Hr'|done..]|].
  case_if; [eapply and_then_good; [eapply rd_good_mono; [by apply get_cbor_string_good|by intros p r' [Hg _]]|done|];
    intros s r' Hs' Hr'; eapply event_after; [exact Hr'|]; eapply blaw_string; [apply Hr'|done..]|].
  case_if; [by eapply get_cbor_array_good|]. do 4 (case_if; [apply Harr|]).
  case_if; [by eapply get_cbor_array_good|].
  case_if; [by eapply get_cbor_object_good|]. do 4 (case_if; [apply Hobj|]).
  case_if; [by eapply get_cbor_object_good|].
  case_if; [by eapply get_cbor_tagged_good|].
  do 2 (case_if; [eapply event_after; [exact Hr|]; by eapply blaw_boolean|]).
  case_if; [eapply event_after; [exact Hr|]; by eapply blaw_null|].
  case_if; [by eapply get_cbor_half_good|].
  case_if; [eapply and_then_good; [by apply number_good|done|]; intros f r' _ Hr';
    eapply event_after; [exact Hr'|]; eapply blaw_float; [apply Hr'|done|apply to_double_valid]|].
  case_if; [eapply and_then_good; [by apply number_good|done|]; intros f r' (bits & -> & _) Hr';
    eapply event_after; [exact Hr'|]; eapply blaw_float; [apply Hr'|done|by apply bits_float_valid]|].
  apply token_good. intros t. eapply report_after; [exact Hr|done|simpl; auto].
Qed.

(** The end of the input is reported. *)
Lemma cbor_value_end parse h r st k n :
  holds st k n r → current r = eof →
  rd_good (parse_cbor_value parse h eof) r (λ b r', after st false n b r' ∧ b = false).
Proof.
  intros Hr He. unfold parse_cbor_value, parse_cbor_bytes, parse_cbor_container, parse_cbor_simple. change (eof =? eof) with true. cbv iota zeta.
  eapply rd_good_mono; [by apply unexpect_eof_good|]. intros [] r2 (Hr2 & H1' & H2').
  - by destruct (H1' eq_refl).
  - split; [|done]. split; [by apply H2'|]. by exists st, k.
Qed.

Lemma parse_cbor_good h fuel n :
  (n < fuel)%nat → parses_cbor (parse_cbor fuel h) n.
Proof.
  revert n. induction fuel as [|fuel IH]; intros n Hn; [lia|]. split.
  - intros m Hm r st k Hr Hv. cbn [parse_cbor].
    eapply rd_good_bind; [by apply get_good|]. intros c r1 (Hr1 & Hc & [->|(Hb & Hn0 & Hr1')]).
    + eapply rd_good_mono; [by apply (cbor_value_end _ _ _ st k m)|]. by intros b r2 [Ha _].
    + eapply rd_good_mono; [|intros b r2 Ha; apply (after_mono _ _ (pred m)); [exact Ha|lia]].
      eapply parse_cbor_value_good; [apply IH; lia|done..].
  - intros m r st k [Hm Hone] Hr Hv. cbn [parse_cbor]. apply last_good.
    destruct (Z.eq_dec (current r) eof) as [He|He].
    + rewrite He at 1. eapply rd_good_mono; [by apply (cbor_value_end _ _ _ st k m)|].
      by intros b r2 [Ha ->].
    + destruct Hone as [|[Hb Hlt]]; [done|].
      eapply rd_good_mono; [apply (parse_cbor_value_good _ h _ r st k m); [apply IH; lia|done..]|].
      by intros b r2 Ha.
Qed.

Lemma parse_cbor_internal_good h r st k n :
  holds st k n r → value_pos st k → rd_good (parse_cbor_internal true h) r (after st false n).
Proof.
  intros Hr Hv. pose proof Hr as (Hs & Hn & Hb & Hi).
  destruct (parse_cbor_good h (2 + length (ia r)) (length (ia r)) ltac:(lia)) as [Hp _].
  assert (rd_good (parse_cbor (2 + length (ia r)) h true) r (after st false (length (ia r))))
    as Hg by (apply (Hp _ ltac:(done)) with (k := k); [by repeat split|done]).
  eapply goodx_mono; [exact Hg|]. intros [b r'] Ha. by apply (after_mono _ _ (length (ia r))).
Qed.
End cbor.
