(* ===== verification/Bson.v ===== *)
(** BSON in framework/json.hpp: [parse_bson_internal] and its helpers of
    [binary_reader], the size computation and [write_bson] of
    [binary_writer], and [to_bson] and [from_bson].

    The loops carry fuel: one round more than there are bytes.  The writer
    returns the bytes it writes, or the exception it throws. *)

From S2P Require Import Prelude JsonValue JsonParser BinaryNumbers BinaryReader.

(** [std::to_string] of a signed number. *)
Definition to_string (z : Z) : cstring := if z <? 0 then 45 :: decimal (- z) else decimal z.

(** * Reading *)

Section reader.
  Context {S : Type} `{SAX S, BinarySAX S}.

(** [get_number<T, true>(input_format_t::bson, number)]. *)
Abbreviation number T := (get_number T true F_bson).

Fixpoint get_bson_cstr_loop (fuel : nat) (result : cstring) : rd S (bool * cstring) :=
  match fuel with
  | O => λ _, Diverge
  | Datatypes.S fuel' =>
      c ← get;
      ok ← unexpect_eof F_bson "cstring";
      if negb ok then mret (false, result)
      else if c =? 0x00 then mret (true, result)
      else get_bson_cstr_loop fuel' (result ++ [c mod 256])
  end.

Definition get_bson_cstr (result : cstring) : rd S (bool * cstring) := λ r,
  get_bson_cstr_loop (1 + length (ia r)) result r.

Definition get_bson_string (len : Z) (result : cstring) : rd S (bool * cstring) :=
  if len <? 1 then
    last_token ← get_token_string;
    b ← report 112 last_token F_bson
      (str "string length must be at least 1, is " ++ to_string len) "string";
    mret (b, result)
  else
    '(ok, s) ← get_string F_bson (len - 1) result;
    if ok : bool then c ← get; mret (negb (c =? eof), s) else mret (false, s).

(** All BSON binary values have a subtype; whether it could be read is not
    looked at. *)
Definition get_bson_binary (len : Z) (result : binary_t) : rd S (bool * binary_t) :=
  if len <? 0 then
    last_token ← get_token_string;
    b ← report 112 last_token F_bson
      (str "byte array length cannot be negative, is " ++ to_string len) "binary";
    mret (b, result)
  else
    '(_, subtype) ← get_number uint8 false F_bson;
    get_binary F_bson len (result.1, Some subtype).

(** [parse_bson_internal] and [parse_bson_array]; [elements] is
    [parse_bson_element_list].  The size of the document is not looked at. *)
Definition parse_bson_document (elements : bool → rd S bool) (is_array : bool) : rd S bool :=
  _ ← number int32;
  and_also (event (if is_array then sax_start_array_of npos else sax_start_object_of npos))
    (and_also (elements is_array)
       (event (if is_array then sax_end_array else sax_end_object))).

Definition parse_bson_element_internal (elements : bool → rd S bool) (element_type : Z)
    (element_type_parse_position : nat) : rd S bool :=
  if element_type =? 0x01 then
    and_then (number float64) (λ n, event (sax_number_float n []))
  else if element_type =? 0x02 then
    and_then (and_set (number int32) [] (λ len, get_bson_string len []))
      (λ value, event (sax_string value))
  else if element_type =? 0x03 then parse_bson_document elements false
  else if element_type =? 0x04 then parse_bson_document elements true
  else if element_type =? 0x05 then
    and_then (and_set (number int32) ([], None) (λ len, get_bson_binary len ([], None)))
      (λ value, event (sax_binary value))
  else if element_type =? 0x08 then c ← get; event (sax_boolean (negb (c =? 0)))
  else if element_type =? 0x0A then event sax_null
  else if element_type =? 0x10 then and_then (number int32) (λ n, event (sax_number_integer n))
  else if element_type =? 0x12 then and_then (number int64) (λ n, event (sax_number_integer n))
  else
    let cr_str := hex_byte element_type in
    event (sax_parse_error element_type_parse_position cr_str
             (create_parse_error_at 114 element_type_parse_position
                (str "Unsupported BSON record type 0x" ++ cr_str))).

Definition get_chars_read : rd S nat := λ r, Ret (chars_read r, r).

(** One element: its type has been read and is not 0. *)
Definition parse_bson_element (elements : bool → rd S bool) (is_array : bool) (element_type : Z) :
    rd S bool :=
  and_also (unexpect_eof F_bson "element list")
    (element_type_parse_position ← get_chars_read;
     and_then (get_bson_cstr []) (λ key,
       and_also (if is_array then mret true else event (sax_key key))
         (parse_bson_element_internal elements element_type element_type_parse_position))).

(** [while (auto element_type = get())]. *)
Fixpoint bson_element_loop (fuel : nat) (element : Z → rd S bool) : rd S bool :=
  match fuel with
  | O => λ _, Diverge
  | Datatypes.S fuel' =>
      element_type ← get;
      if element_type =? 0 then mret true
      else and_also (element element_type) (bson_element_loop fuel' element)
  end.

(** [depth] bounds the nesting of documents. *)
Fixpoint parse_bson_element_list (depth : nat) (is_array : bool) : rd S bool :=
  match depth with
  | O => λ _, Diverge
  | Datatypes.S depth' => λ r,
      bson_element_loop (1 + length (ia r))
        (parse_bson_element (parse_bson_element_list depth') is_array) r
  end.

Definition parse_bson_internal : rd S bool := λ r,
  parse_bson_document (parse_bson_element_list (1 + length (ia r))) false r.
End reader.

(** [from_bson]. *)
Definition from_bson (host_le : bool) (input : cstring) (strict allow_exceptions_ : bool) :
    outcome json_exn json :=
  from_binary parse_bson_internal F_bson host_le input strict allow_exceptions_.

(** * Sizes *)

(** [name.find(0)]. *)
Fixpoint find_zero (i : nat) (name : cstring) : option nat :=
  match name with
  | [] => None
  | c :: name' => if c =? 0 then Some i else find_zero (S i) name'
  end.

Definition calc_bson_entry_header_size (name : cstring) : outcome json_exn Z :=
  match find_zero 0 name with
  | Some it =>
      Throw (create_out_of_range 409
        (str "BSON key cannot contain code point U+0000 (at byte " ++ decimal (Z.of_nat it) ++ str ")"))
  | None => Ret (1 + Z.of_nat (length name) + 1)
  end.

Definition calc_bson_string_size (value : cstring) : Z := 4 + Z.of_nat (length value) + 1.

Definition calc_bson_integer_size (value : Z) : Z :=
  if (- 2 ^ 31 <=? value) && (value <=? 2 ^ 31 - 1) then 4 else 8.

Definition calc_bson_unsigned_size (value : Z) : Z := if value <=? 2 ^ 31 - 1 then 4 else 8.

Definition calc_bson_binary_size (value : cstring) : Z := 4 + Z.of_nat (length value) + 1.

(** [std::accumulate] over the members of an object, and over the elements of
    an array with their indices as names. *)
Section accumulate.
  Context (calc_bson_element_size : cstring → json → outcome json_exn Z).

Fixpoint sum_members (m : list (cstring * json)) (result : Z) : outcome json_exn Z :=
  match m with
  | [] => Ret result
  | kv :: m' => n ← calc_bson_element_size kv.1 kv.2; sum_members m' (result + n)
  end.

Fixpoint sum_elements (array_index : Z) (l : list json) (result : Z) : outcome json_exn Z :=
  match l with
  | [] => Ret result
  | el :: l' =>
      n ← calc_bson_element_size (decimal array_index) el;
      sum_elements (array_index + 1) l' (result + n)
  end.

Definition calc_bson_object_size (value : list (cstring * json)) : outcome json_exn Z :=
  document_size ← sum_members value 0; Ret (4 + document_size + 1).

Definition calc_bson_array_size (value : list json) : outcome json_exn Z :=
  embedded_document_size ← sum_elements 0 value 0; Ret (4 + embedded_document_size + 1).
End accumulate.

Fixpoint calc_bson_element_size (name : cstring) (j : json) : outcome json_exn Z :=
  header_size ← calc_bson_entry_header_size name;
  match j with
  | J_object m => n ← calc_bson_object_size calc_bson_element_size m; Ret (header_size + n)
  | J_array l => n ← calc_bson_array_size calc_bson_element_size l; Ret (header_size + n)
  | J_binary b _ => Ret (header_size + calc_bson_binary_size b)
  | J_boolean _ => Ret (header_size + 1)
  | J_number_float _ => Ret (header_size + 8)
  | J_number_integer n => Ret (header_size + calc_bson_integer_size n)
  | J_number_unsigned n => Ret (header_size + calc_bson_unsigned_size n)
  | J_string s => Ret (header_size + calc_bson_string_size s)
  | J_null => Ret (header_size + 0)
  | J_discarded => Abort
  end.

(** * Writing *)

Section writer.
  Context (le : bool).

(** [write_number<T>(n, true)]. *)
Abbreviation put T n := (write_number T le true n).

Definition write_bson_entry_header (name : cstring) (element_type : Z) : cstring :=
  element_type :: name ++ [0].

Definition write_bson_integer (name : cstring) (value : Z) : cstring :=
  if (- 2 ^ 31 <=? value) && (value <=? 2 ^ 31 - 1)
  then write_bson_entry_header name 0x10 ++ put int32 value
  else write_bson_entry_header name 0x12 ++ put int64 value.

Definition write_bson_unsigned (name : cstring) (value : Z) : outcome json_exn cstring :=
  if value <=? 2 ^ 31 - 1 then Ret (write_bson_entry_header name 0x10 ++ put int32 value)
  else if value <=? 2 ^ 63 - 1 then Ret (write_bson_entry_header name 0x12 ++ put int64 value)
  else Throw (create_out_of_range 407
         (str "integer number " ++ decimal value ++
          str " cannot be represented by BSON as it does not fit int64")).

Definition write_bson_string (name value : cstring) : cstring :=
  write_bson_entry_header name 0x02 ++ put int32 (Z.of_nat (length value) + 1) ++ value ++ [0].

Definition write_bson_binary (name value : cstring) (subtype : option Z) : cstring :=
  write_bson_entry_header name 0x05 ++ put int32 (Z.of_nat (length value)) ++
  write_number uint8 le false (match subtype with Some t => t | None => 0x00 end) ++ value.

(** The members of an object and the elements of an array, one after the
    other. *)
Section elements.
  Context (write_bson_element : cstring → json → outcome json_exn cstring).

Fixpoint write_members (m : list (cstring * json)) : outcome json_exn cstring :=
  match m with
  | [] => Ret []
  | kv :: m' =>
      bs ← write_bson_element kv.1 kv.2;
      rest ← write_members m';
      Ret (bs ++ rest)
  end.

Fixpoint write_elements (array_index : Z) (l : list json) : outcome json_exn cstring :=
  match l with
  | [] => Ret []
  | el :: l' =>
      bs ← write_bson_element (decimal array_index) el;
      rest ← write_elements (array_index + 1) l';
      Ret (bs ++ rest)
  end.

Definition write_bson_object (value : list (cstring * json)) : outcome json_exn cstring :=
  size ← calc_bson_object_size calc_bson_element_size value;
  bs ← write_members value;
  Ret (put int32 size ++ bs ++ [0x00]).

Definition write_bson_array (name : cstring) (value : list json) : outcome json_exn cstring :=
  size ← calc_bson_array_size calc_bson_element_size value;
  bs ← write_elements 0 value;
  Ret (write_bson_entry_header name 0x04 ++ put int32 size ++ bs ++ [0x00]).
End elements.

Fixpoint write_bson_element (name : cstring) (j : json) : outcome json_exn cstring :=
  match j with
  | J_object m =>
      bs ← write_bson_object write_bson_element m;
      Ret (write_bson_entry_header name 0x03 ++ bs)
  | J_array l => write_bson_array write_bson_element name l
  | J_binary b subtype => Ret (write_bson_binary name b subtype)
  | J_boolean b => Ret (write_bson_entry_header name 0x08 ++ [if b then 0x01 else 0x00])
  | J_number_float n => Ret (write_bson_entry_header name 0x01 ++ put float64 n)
  | J_number_integer n => Ret (write_bson_integer name n)
  | J_number_unsigned n => write_bson_unsigned name n
  | J_string s => Ret (write_bson_string name s)
  | J_null => Ret (write_bson_entry_header name 0x0A)
  | J_discarded => Abort
  end.

Definition write_bson (j : json) : outcome json_exn cstring :=
  match j with
  | J_object m => write_bson_object write_bson_element m
  | _ => Throw (create_type_error 317
           (str "to serialize to BSON, top-level type must be object, but is " ++ type_name j))
  end.
End writer.

(** [to_bson] on a host with or without little endian numbers. *)
Definition to_bson (host_le : bool) (j : json) : outcome json_exn cstring :=
  write_bson (little_endianness host_le 1) j.
