(* ===== verification/BsonFacts.v ===== *)
(** BSON: the sizes that the writer computes are the sizes of what it writes,
    and what it writes is read back, up to what the format does not tell
    apart. *)

From S2P Require Import Prelude Double JsonValue JsonParser JsonParserFacts JsonGrammar JsonRoundTrip.
From S2P Require Import BinaryNumbers BinaryNumbersFacts BinaryReader BinaryReaderFacts Bson.

(** The length of what is written. *)
Ltac lengths :=
  unfold write_bson_entry_header in *;
  repeat first [progress cbn [length app] in * | rewrite length_app in * | rewrite write_number_length in *];
  cbn [sizeof int32 int64 float64 uint8 sint uint] in *; lia.

(** * Sizes *)

Section sizes.
  Context (le : bool).

Abbreviation put T n := (write_number T le true n).

(** What is written for an element is as long as was computed. *)
Definition sized_element (j : json) : Prop :=
  ∀ name n bs, calc_bson_element_size name j = Ret n → write_bson_element le name j = Ret bs →
    n = Z.of_nat (length bs).

Lemma header_size name n ty :
  calc_bson_entry_header_size name = Ret n →
  n = Z.of_nat (length (write_bson_entry_header name ty)).
Proof.
  unfold calc_bson_entry_header_size, write_bson_entry_header. case_match; [done|].
  intros [= <-]. lengths.
Qed.

Lemma sum_members_size m :
  Forall (λ kv, sized_element kv.2) m →
  ∀ acc n bs, sum_members calc_bson_element_size m acc = Ret n →
    write_members (write_bson_element le) m = Ret bs → n = acc + Z.of_nat (length bs).
Proof.
  induction 1 as [|[k v] m Hv _ IH]; intros acc n bs; cbn [sum_members write_members fst snd].
  - intros [= <-] [= <-]. simpl. lia.
  - destruct (calc_bson_element_size k v) as [n1| | | |] eqn:E1; try done.
    destruct (write_bson_element le k v) as [b1| | | |] eqn:E2; try done. cbn [mbind outcome_bind].
    intros Hn. destruct (write_members _ m) as [b2| | | |] eqn:E3; try done. intros [= <-].
    rewrite (IH _ _ _ Hn eq_refl), (Hv k n1 b1 E1 E2), length_app. lia.
Qed.

Lemma sum_elements_size l :
  Forall sized_element l →
  ∀ i acc n bs, sum_elements calc_bson_element_size i l acc = Ret n →
    write_elements (write_bson_element le) i l = Ret bs → n = acc + Z.of_nat (length bs).
Proof.
  induction 1 as [|v l Hv _ IH]; intros i acc n bs; cbn [sum_elements write_elements].
  - intros [= <-] [= <-]. simpl. lia.
  - destruct (calc_bson_element_size (decimal i) v) as [n1| | | |] eqn:E1; try done.
    destruct (write_bson_element le (decimal i) v) as [b1| | | |] eqn:E2; try done. cbn [mbind outcome_bind].
    intros Hn. destruct (write_elements _ _ l) as [b2| | | |] eqn:E3; try done. intros [= <-].
    rewrite (IH _ _ _ _ Hn E3), (Hv _ n1 b1 E1 E2), length_app. lia.
Qed.

(** A document and its size. *)
Lemma object_size m n bs :
  Forall (λ kv, sized_element kv.2) m →
  calc_bson_object_size calc_bson_element_size m = Ret n →
  write_bson_object le (write_bson_element le) m = Ret bs →
  n = Z.of_nat (length bs) ∧ ∃ rest, bs = put int32 n ++ rest.
Proof.
  intros Hm Hn. unfold write_bson_object. rewrite Hn. cbn [mbind outcome_bind].
  unfold calc_bson_object_size in Hn. destruct (sum_members _ m 0) as [n1| | | |] eqn:E1; try done.
  injection Hn as <-. destruct (write_members _ m) as [b1| | | |] eqn:E2; try done.
  intros [= <-]. split; [|by eexists].
  rewrite (sum_members_size m Hm 0 n1 b1 E1 E2). lengths.
Qed.

Lemma array_size name l h n bs :
  Forall sized_element l → calc_bson_entry_header_size name = Ret h →
  calc_bson_array_size calc_bson_element_size l = Ret n →
  write_bson_array le (write_bson_element le) name l = Ret bs → h + n = Z.of_nat (length bs).
Proof.
  intros Hl Hh Hn. unfold write_bson_array. rewrite Hn. cbn [mbind outcome_bind].
  unfold calc_bson_array_size in Hn. destruct (sum_elements _ 0 l 0) as [n1| | | |] eqn:E1; try done.
  injection Hn as <-. destruct (write_elements _ 0 l) as [b1| | | |] eqn:E2; try done.
  intros [= <-]. rewrite (sum_elements_size l Hl 0 0 n1 b1 E1 E2), (header_size name h 0x04 Hh).
  lengths.
Qed.

Lemma element_sizes j : sized_element j.
Proof.
  induction j as [|m IH|l IH|s|b|z|z|f|b st|] using json_rect_nested; intros name n bs;
    cbn [calc_bson_element_size write_bson_element];
    destruct (calc_bson_entry_header_size name) as [h| | | |] eqn:Eh; try done; cbn [mbind outcome_bind];
    pose proof (header_size name h 0 Eh) as Hh.
  - intros [= <-] [= <-]. lengths.
  - destruct (calc_bson_object_size _ m) as [n1| | | |] eqn:E1; try done. intros [= <-].
    destruct (write_bson_object _ _ m) as [b1| | | |] eqn:E2; try done. intros [= <-].
    destruct (object_size m n1 b1 IH E1 E2) as [-> _]. lengths.
  - destruct (calc_bson_array_size _ l) as [n1| | | |] eqn:E1; try done. intros [= <-] E2.
    exact (array_size name l h n1 bs IH Eh E1 E2).
  - intros [= <-] [= <-]. unfold write_bson_string, calc_bson_string_size. lengths.
  - intros [= <-] [= <-]. lengths.
  - intros [= <-] [= <-]. unfold write_bson_integer, calc_bson_integer_size. case_if; lengths.
  - unfold write_bson_unsigned, calc_bson_unsigned_size. intros [= <-].
    repeat case_if; intros [= <-]; lengths.
  - intros [= <-] [= <-]. lengths.
  - intros [= <-] [= <-]. unfold write_bson_binary, calc_bson_binary_size. lengths.
Qed.

(** The first four bytes of a document are its size. *)
Lemma write_bson_size j bs :
  write_bson le j = Ret bs → ∃ rest, bs = le_bytes 4 (Z.of_nat (length bs)) ++ rest.
Proof.
  destruct j; try done. cbn [write_bson]. intros Hbs. pose proof Hbs as Hbs'.
  unfold write_bson_object in Hbs'.
  destruct (calc_bson_object_size _ m) as [n| | | |] eqn:E; try done. clear Hbs'.
  destruct (object_size m n bs) as [Hn (rest & Hr)]; [|done..|].
  - apply List.Forall_forall. intros kv _. apply element_sizes.
  - exists rest. rewrite <- Hn. rewrite write_number_order in Hr. exact Hr.
Qed.
End sizes.

(** * Values up to the format *)

(** BSON only has signed integers, and every byte array has a subtype of 8
    bits. *)
Definition bson_leaf (j : json) : json :=
  match j with
  | J_number_unsigned z => J_number_integer z
  | J_binary b st => J_binary b (Some (match st with Some t => t mod 256 | None => 0 end))
  | _ => j
  end.

(** What BSON can store: keys without a zero byte, integers of 64 bits with a
    sign, and sizes that fit a signed 32-bit number. *)
Definition node_bson (j : json) : bool :=
  match j with
  | J_object m => forallb (λ kv, forallb (λ c, negb (c =? 0)) kv.1) m
  | J_string s => Z.of_nat (length s) + 1 <? 2 ^ 31
  | J_binary b _ => Z.of_nat (length b) <? 2 ^ 31
  | J_number_unsigned z => z <? 2 ^ 63
  | J_discarded => false
  | _ => true
  end.

(** * Names *)

Definition name_ok (name : cstring) : Prop :=
  forallb is_byte name = true ∧ Forall (λ c, c ≠ 0) name.

Lemma find_zero_none i name : find_zero i name = None → Forall (λ c, c ≠ 0) name.
Proof.
  revert i. induction name as [|c name IH]; intros i; cbn [find_zero]; [by constructor|].
  case_if; [done|]. to_prop. intros Hn. constructor; [done|by eapply IH].
Qed.

Lemma header_name name n : calc_bson_entry_header_size name = Ret n → Forall (λ c, c ≠ 0) name.
Proof.
  unfold calc_bson_entry_header_size. destruct (find_zero 0 name) eqn:E; [done|]. intros _.
  by eapply find_zero_none.
Qed.

Lemma ran_bson_cstr name (r : reader dom) q :
  name_ok name → ia r = name ++ 0 :: q → ran (get_bson_cstr []) r (true, name) q (r_sax r).
Proof.
  intros [Hb Hz] Hr.
  assert (∀ fuel result (r : reader dom), (length name < fuel)%nat → ia r = name ++ 0 :: q →
    ran (get_bson_cstr_loop fuel result) r (true, result ++ name) q (r_sax r)) as Hl.
  { clear r Hr. induction name as [|c name IH]; intros fuel result r Hf Hr;
      (destruct fuel as [|fuel]; [simpl in Hf; lia|]); cbn [get_bson_cstr_loop].
    - rewrite app_nil_r. eapply ran_get; [exact Hr|]. intros r1 <- <- Hc.
      apply ran_unexpect; [by rewrite Hc|]. cbn [negb]. apply ran_ret.
    - cbn [forallb] in Hb. apply andb_true_iff in Hb as [Hbc Hb]. inversion_clear Hz as [|? ? Hc0 Hz'].
      eapply ran_get; [exact Hr|]. intros r1 Hr1 <- Hc. apply ran_unexpect; [by rewrite Hc|]. cbn [negb].
      decide_test (c =? 0) false. rewrite byte_in by (unfold is_byte in Hbc; to_prop; lia).
      replace (result ++ c :: name) with ((result ++ [c]) ++ name) by (by rewrite <- app_assoc).
      apply IH; [done..|simpl in Hf; lia|done]. }
  eapply ran_eq; [reflexivity|]. apply (Hl _ []); [|done]. rewrite Hr, length_app. lia.
Qed.

(** * Elements *)

Section reading.
  Context (le : bool).

Abbreviation put T n := (write_number T le true n).

(** An element: its type, its name, and the value behind them. *)
Record entry := mk_entry { e_type : Z; e_name : cstring; e_body : cstring; e_value : json }.

Definition e_bytes (e : entry) : cstring := e_type e :: e_name e ++ 0 :: e_body e.

Definition e_reads (elements : bool → rd dom bool) (e : entry) : Prop :=
  0 < e_type e < 256 ∧ name_ok (e_name e) ∧
  ∀ pos, reads_value (parse_bson_element_internal elements (e_type e) pos) (e_body e) (e_value e).

(** The element loop takes one element after the other, down to the zero
    byte; [I es d]: the builder is at [d] when the elements [es] are to come. *)
Lemma ran_bson_loop (element : Z → rd dom bool) (I : list entry → dom → Prop) q :
  (∀ e es (r : reader dom) q', I (e :: es) (r_sax r) → current r = e_type e →
     ia r = e_name e ++ 0 :: e_body e ++ q' →
     e_type e ≠ 0 ∧ ∃ d, ran (element (e_type e)) r true q' d ∧ I es d) →
  ∀ es fuel (r : reader dom), (length es < fuel)%nat → ia r = concat (map e_bytes es) ++ 0 :: q →
    I es (r_sax r) → ∃ d, ran (bson_element_loop fuel element) r true q d ∧ I [] d.
Proof.
  intros Hstep es. induction es as [|e es IH]; intros fuel r Hf Hr HI;
    (destruct fuel as [|fuel]; [simpl in Hf; lia|]); cbn [bson_element_loop].
  - exists (r_sax r). split; [|done]. eapply ran_get; [exact Hr|]. intros r1 <- <- _. apply ran_ret.
  - cbn [map concat e_bytes app] in Hr. rewrite <- !app_assoc in Hr. cbn [app] in Hr.
    assert (∃ r1, get r = Ret (e_type e, r1) ∧
      ia r1 = e_name e ++ 0 :: e_body e ++ concat (map e_bytes es) ++ 0 :: q ∧
      r_sax r1 = r_sax r ∧ current r1 = e_type e) as (r1 & Hg & Hq & Hs & Hc).
    { unfold get. rewrite Hr. by eexists. }
    rewrite <- Hs in HI. destruct (Hstep e es r1 _ HI Hc Hq) as (Hty & d1 & (r2 & Hm & Hq2 & <-) & HI1).
    destruct (IH fuel r2 ltac:(simpl in Hf; lia) Hq2 HI1) as (d2 & (r3 & Hm3 & Hq3 & Hd3) & HI2).
    exists d2. split; [|done]. exists r3. split; [|done]. rewrite rd_bind_run, Hg.
    cbn [mbind outcome_bind]. decide_test (e_type e =? 0) false. unfold and_also.
    rewrite rd_bind_run, Hm. exact Hm3.
Qed.

(** The name of an element. *)
Lemma bson_name_run elements is_array ty name (r : reader dom) q :
  0 < ty < 256 → current r = ty → name_ok name → ia r = name ++ 0 :: q →
  ∃ r1 pos, ia r1 = q ∧ r_sax r1 = r_sax r ∧
    parse_bson_element elements is_array ty r =
    and_also (if is_array : bool then mret true else event (sax_key name))
      (parse_bson_element_internal elements ty pos) r1.
Proof.
  intros Hty Hc Hname Hr. destruct (ran_bson_cstr name r q Hname Hr) as (r1 & Hm & Hq & Hs).
  exists r1, (chars_read r). split_and!; [done..|]. unfold parse_bson_element, and_also at 1.
  assert (∀ f : bool → rd dom bool, (unexpect_eof F_bson "element list" ≫= f) r = f true r) as ->.
  { intros f. rewrite rd_bind_run. unfold unexpect_eof, eof in *. decide_test (current r =? -1) false. done. }
  cbv beta iota. unfold get_chars_read. rewrite rd_bind_run. cbn [mbind outcome_bind].
  unfold and_then. by rewrite rd_bind_run, Hm.
Qed.

(** A member of the open object, and an element of the open array. *)
Lemma ran_bson_member elements e (r : reader dom) q p ref rs m0 :
  e_reads elements e → ia r = e_name e ++ 0 :: e_body e ++ q → current r = e_type e →
  open (r_sax r) p ref rs (J_object m0) →
  ∃ d, ran (parse_bson_element elements false (e_type e)) r true q d ∧
    wrote (r_sax r) (p (J_object (obj_set (e_name e) (e_value e) m0))) (ref :: rs) d.
Proof.
  intros (Hty & Hname & Hbody) Hr Hc Ho.
  destruct (bson_name_run elements false _ _ r _ Hty Hc Hname Hr) as (r1 & pos & Hq1 & Hs1 & Hrun).
  rewrite <- Hs1 in *.
  destruct (dom_key_open (e_name e) _ p ref rs m0 Ho) as (d1 & Hd1 & Hw1 & Hrs & Hslot).
  destruct (ran_event (dom_key (e_name e)) r1 true d1 Hd1) as (r2 & Hm2 & Hq2 & <-).
  rewrite Hq1 in Hq2.
  destruct (Hbody pos r2 q _ _ Hq2 Hslot) as (d & (r3 & Hm3 & Hq3 & <-) & Hw). rewrite Hrs in Hw.
  exists (r_sax r3). split; [|by eapply wrote_trans]. exists r3. split; [|done]. rewrite Hrun.
  unfold and_also. rewrite rd_bind_run. change (sax_key (e_name e)) with (dom_key (e_name e)).
  rewrite Hm2. exact Hm3.
Qed.

Lemma ran_bson_item elements e (r : reader dom) q p ref rs l0 :
  e_reads elements e → ia r = e_name e ++ 0 :: e_body e ++ q → current r = e_type e →
  open (r_sax r) p ref rs (J_array l0) →
  ∃ d, ran (parse_bson_element elements true (e_type e)) r true q d ∧
    wrote (r_sax r) (p (J_array (l0 ++ [e_value e]))) (ref :: rs) d.
Proof.
  intros (Hty & Hname & Hbody) Hr Hc Ho.
  destruct (bson_name_run elements true _ _ r _ Hty Hc Hname Hr) as (r1 & pos & Hq1 & Hs1 & Hrun).
  rewrite <- Hs1 in *.
  destruct (Hbody pos r1 q _ _ Hq1 (slot_of_open _ _ _ _ _ Ho)) as (d & (r3 & Hm3 & Hq3 & <-) & Hw).
  destruct Ho as (_ & Hrs & _). rewrite Hrs in Hw.
  exists (r_sax r3). split; [|done]. exists r3. split; [|done]. rewrite Hrun. exact Hm3.
Qed.

(** * Documents *)

(** What the document adds to the open container. *)
Definition built (is_array : bool) (es : list entry) : json :=
  if is_array then J_array (map e_value es)
  else J_object (build_object (map (λ e, (e_name e, e_value e)) es) []).

Definition elements_read (elements : bool → rd dom bool) (is_array : bool) (bs : cstring)
    (c : json) : Prop :=
  ∀ r q p ref rs, ia r = bs ++ 0 :: q →
    open (r_sax r) p ref rs (if is_array then J_array [] else J_object []) →
    ∃ d, ran (elements is_array) r true q d ∧ wrote (r_sax r) (p c) (ref :: rs) d.

Lemma entries_length es : (length es ≤ length (concat (map e_bytes es)))%nat.
Proof. induction es; simpl; rewrite ?length_app; simpl in *; lia. Qed.

(** The elements of a document, one after the other. *)
Lemma elements_read_entries depth is_array es :
  Forall (e_reads (parse_bson_element_list depth)) es →
  elements_read (parse_bson_element_list (S depth)) is_array (concat (map e_bytes es))
    (built is_array es).
Proof.
  intros Hes r q p ref rs Hr Ho. cbn [parse_bson_element_list].
  pose proof Ho as (Hroot & Hrs & Hg & Hset).
  pose (shape es' c := if is_array
    then ∃ l0, c = J_array l0 ∧ l0 ++ map e_value es' = map e_value es
    else ∃ m0, c = J_object m0 ∧ build_object (map (λ e, (e_name e, e_value e)) es') m0 =
      build_object (map (λ e, (e_name e, e_value e)) es) []).
  destruct (ran_bson_loop (parse_bson_element (parse_bson_element_list depth) is_array)
    (λ es' d, Forall (e_reads (parse_bson_element_list depth)) es' ∧
       ∃ c, wrote (r_sax r) (p c) (ref :: rs) d ∧ shape es' c) q) with (es := es)
    (fuel := (1 + length (ia r))%nat) (r := r) as (d & Hrun & _ & c & Hw & Hc).
  - intros e es' r1 q' (Hes' & c & Hw & Hc) Hcur Hq. inversion_clear Hes' as [|? ? He Hes1].
    split; [destruct He; lia|].
    pose proof (wrote_open _ _ _ _ p ref c Hw eq_refl Hg Hset) as Ho1.
    destruct is_array; destruct Hc as (c0 & -> & Hc).
    + destruct (ran_bson_item _ e r1 q' p ref rs c0 He Hq Hcur Ho1) as (d & Hrun & Hw1).
      exists d. split; [done|]. split; [done|]. eexists. split; [by eapply wrote_trans|].
      eexists. split; [done|]. by rewrite <- app_assoc.
    + destruct (ran_bson_member _ e r1 q' p ref rs c0 He Hq Hcur Ho1) as (d & Hrun & Hw1).
      exists d. split; [done|]. split; [done|]. eexists. split; [by eapply wrote_trans|].
      by eexists.
  - rewrite Hr, length_app. pose proof (entries_length es). lia.
  - done.
  - split; [done|]. eexists. split; [eexists (object_element (r_sax r)); rewrite <- Hroot, <- Hrs; by destruct (r_sax r)|].
    unfold shape. destruct is_array; by eexists.
  - exists d. split; [done|]. unfold shape, built in *.
    destruct is_array; destruct Hc as (c0 & -> & Hc); cbn [map] in Hc.
    + rewrite app_nil_r in Hc. by rewrite <- Hc.
    + simpl in Hc. by rewrite <- Hc.
Qed.

(** A document: its size, its elements and a zero byte. *)
Lemma reads_document elements is_array n bs c :
  elements_read elements is_array bs c → (if is_array then JsonValue.is_array c else is_object c) = true →
  reads_value (parse_bson_document elements is_array) (put int32 n ++ bs ++ [0]) c.
Proof.
  intros He Hc r q p ref Hr Hslot. rewrite <- !app_assoc in Hr. cbn [app] in Hr.
  destruct (ran_number_bytes int32 true F_bson r _ _ ltac:(done) Hr (write_number_length _ _ _ _))
    as (r1 & Hm & Hq & Hs).
  rewrite <- Hs in *.
  assert (∃ d, ran (and_also (event (if is_array then sax_start_array_of npos else sax_start_object_of npos))
    (and_also (elements is_array) (event (if is_array then sax_end_array else sax_end_object)))) r1 true q d
    ∧ wrote (r_sax r1) (p c) (ref_stack (r_sax r1)) d) as (d & (r2 & Hm2 & ? & ?) & Hw).
  { destruct is_array.
    - apply (ran_container_bool _ _ JsonValue.is_array (J_array []) c r1 p ref); [by apply dom_start_of_npos| |done].
      intros r2 Hq2 _ Ho. apply He; [congruence|done].
    - apply (ran_container_bool _ _ is_object (J_object []) c r1 p ref); [by apply dom_start_of_npos| |done].
      intros r2 Hq2 _ Ho. apply He; [congruence|done]. }
  exists d. split; [|done]. exists r2. split; [|done]. unfold parse_bson_document.
  rewrite rd_bind_run, Hm. exact Hm2.
Qed.

(** * Values behind the name *)

Definition body_reads (elements : bool → rd dom bool) (ty : Z) (body : cstring) (j : json) : Prop :=
  0 < ty < 256 ∧ ∀ pos, reads_value (parse_bson_element_internal elements ty pos) body j.

Lemma body_reads_after elements ty body j :
  0 < ty < 256 → (∀ pos c, reads_after (parse_bson_element_internal elements ty pos) c body j) →
  body_reads elements ty body j.
Proof. intros Hty Hb. split; [done|]. intros pos r q p ref Hr Hs. by eapply Hb. Qed.

Lemma body_null elements : body_reads elements 0x0A [] J_null.
Proof. apply body_reads_after; [lia|]. intros pos c. exact (reads_event J_null c). Qed.

Lemma body_boolean elements (b : bool) : body_reads elements 0x08 [if b then 0x01 else 0x00] (J_boolean b).
Proof.
  split; [lia|]. intros pos. destruct b; (eapply (reads_get (λ c, event (dom_value (J_boolean (negb (c =? 0))))));
    apply reads_event).
Qed.

Lemma body_float elements f : valid_binary 53 1024 f = true → body_reads elements 0x01 (put float64 f) (J_number_float f).
Proof.
  intros Hf. apply body_reads_after; [lia|]. intros pos c.
  apply (reads_number float64 le true F_bson f c J_number_float); auto with verif.
Qed.

Lemma body_int32 elements n : - 2 ^ 31 ≤ n < 2 ^ 31 → body_reads elements 0x10 (put int32 n) (J_number_integer n).
Proof.
  intros Hn. apply body_reads_after; [lia|]. intros pos c.
  apply (reads_number int32 le true F_bson n c J_number_integer); [done|]. apply sint_bits; [lia|simpl; lia].
Qed.

Lemma body_int64 elements n : - 2 ^ 63 ≤ n < 2 ^ 63 → body_reads elements 0x12 (put int64 n) (J_number_integer n).
Proof.
  intros Hn. apply body_reads_after; [lia|]. intros pos c.
  apply (reads_number int64 le true F_bson n c J_number_integer); [done|]. apply sint_bits; [lia|simpl; lia].
Qed.

Lemma body_string elements s :
  forallb is_byte s = true → Z.of_nat (length s) + 1 < 2 ^ 31 →
  body_reads elements 0x02 (put int32 (Z.of_nat (length s) + 1) ++ s ++ [0]) (J_string s).
Proof.
  intros Hs Hlen. apply body_reads_after; [lia|]. intros pos c.
  apply (reads_and_then (and_set (get_number int32 true F_bson) [] (λ len, get_bson_string len [])) s J_string).
  intros r q Hr _. rewrite <- !app_assoc in Hr.
  eapply ran_and_set; [eapply (ran_number int32 le); [done|exact Hr|apply sint_bits; [lia|simpl; lia]]|].
  intros r1 Hq1 <-. unfold get_bson_string. decide_test (Z.of_nat (length s) + 1 <? 1) false.
  replace (Z.of_nat (length s) + 1 - 1) with (Z.of_nat (length s)) by lia.
  eapply ran_bind; [by apply ran_string|]. intros r2 Hq2 <-. cbv beta iota.
  eapply ran_get; [exact Hq2|]. intros r3 <- <- _. apply ran_ret.
Qed.

Lemma body_binary elements b st :
  forallb is_byte b = true → Z.of_nat (length b) < 2 ^ 31 →
  body_reads elements 0x05
    (put int32 (Z.of_nat (length b)) ++
     write_number uint8 le false (match st with Some t => t | None => 0 end) ++ b)
    (bson_leaf (J_binary b st)).
Proof.
  intros Hb Hlen. cbn [bson_leaf]. set (t := match st with Some t => t | None => 0 end).
  replace (match st with Some t => t mod 256 | None => 0 end) with (t mod 256) by (by destruct st).
  apply body_reads_after; [lia|]. intros pos c.
  apply (reads_and_then (and_set (get_number int32 true F_bson) ([], None)
    (λ len, get_bson_binary len ([], None))) (b, Some (t mod 256)) (λ v, J_binary v.1 v.2)).
  intros r q Hr _. rewrite <- !app_assoc in Hr.
  eapply ran_and_set; [eapply (ran_number int32 le); [done|exact Hr|apply sint_bits; [lia|simpl; lia]]|].
  intros r1 Hq1 <-. unfold get_bson_binary. decide_test (Z.of_nat (length b) <? 0) false.
  rewrite write_byte in Hq1 by done.
  eapply ran_bind; [apply (ran_number_bytes uint8 false F_bson r1 [t mod 256]); [done|exact Hq1|done]|].
  intros r2 Hq2 <-. cbv beta iota. cbn [fst].
  replace (of_bits uint8 _) with (t mod 256); [by apply ran_binary|].
  cbn [rev app le_value]. by rewrite Z.mul_0_r, Z.add_0_r.
Qed.

(** * Elements as they are written *)

Definition element_reads (depth : nat) (name : cstring) (j : json) (bs : cstring) : Prop :=
  ∃ e, bs = e_bytes e ∧ e_name e = name ∧ e_value e = leaf_map bson_leaf j ∧
    e_reads (parse_bson_element_list depth) e.

Lemma element_reads_body depth name j ty body :
  name_ok name → body_reads (parse_bson_element_list depth) ty body (leaf_map bson_leaf j) →
  element_reads depth name j (write_bson_entry_header name ty ++ body).
Proof.
  intros Hn [Hty Hb]. exists (mk_entry ty name body (leaf_map bson_leaf j)).
  split_and!; try done. unfold write_bson_entry_header, e_bytes. cbn [app e_type e_name e_body].
  by rewrite <- app_assoc.
Qed.

(** What is proved of every value. *)
Definition element_ok (j : json) : Prop :=
  json_wf j = true → json_forall node_bson j = true →
  ∀ name n bs depth, calc_bson_element_size name j = Ret n → write_bson_element le name j = Ret bs →
    forallb is_byte name = true → (length bs ≤ depth)%nat → element_reads depth name j bs.

Lemma members_read m :
  Forall (λ kv, element_ok kv.2) m →
  forallb (λ kv, json_wf kv.2) m = true → forallb (λ kv, json_forall node_bson kv.2) m = true →
  forallb (λ kv, forallb is_byte kv.1) m = true →
  ∀ acc n bs depth, sum_members calc_bson_element_size m acc = Ret n →
    write_members (write_bson_element le) m = Ret bs → (length bs ≤ depth)%nat →
  ∃ es, bs = concat (map e_bytes es) ∧ Forall (e_reads (parse_bson_element_list depth)) es ∧
    map (λ e, (e_name e, e_value e)) es = map (λ kv, (kv.1, leaf_map bson_leaf kv.2)) m.
Proof.
  induction 1 as [|[k v] m Hv _ IH]; cbn [forallb fst snd]; intros Hwf Hb Hk acc n bs depth;
    cbn [sum_members write_members fst snd]; to_prop.
  - intros _ [= <-] _. by exists [].
  - destruct (calc_bson_element_size k v) as [n1| | | |] eqn:E1; try done.
    destruct (write_bson_element le k v) as [b1| | | |] eqn:E2; try done. cbn [mbind outcome_bind].
    intros Hn. destruct (write_members _ m) as [b2| | | |] eqn:E3; try done. intros [= <-].
    rewrite length_app. intros Hd.
    destruct (Hv ltac:(done) ltac:(done) k n1 b1 depth E1 E2 ltac:(done) ltac:(lia)) as (e & -> & <- & He & Hr).
    destruct (IH ltac:(done) ltac:(done) ltac:(done) _ _ _ depth Hn eq_refl ltac:(lia)) as (es & -> & Hes & Hm).
    exists (e :: es). cbn [map concat]. rewrite He, Hm. split_and!; [done|by constructor|done].
Qed.

Lemma elements_read_back l :
  Forall element_ok l → forallb json_wf l = true → forallb (json_forall node_bson) l = true →
  ∀ i acc n bs depth, 0 ≤ i → sum_elements calc_bson_element_size i l acc = Ret n →
    write_elements (write_bson_element le) i l = Ret bs → (length bs ≤ depth)%nat →
  ∃ es, bs = concat (map e_bytes es) ∧ Forall (e_reads (parse_bson_element_list depth)) es ∧
    map e_value es = map (leaf_map bson_leaf) l.
Proof.
  induction 1 as [|v l Hv _ IH]; cbn [forallb]; intros Hwf Hb i acc n bs depth Hi;
    cbn [sum_elements write_elements]; to_prop.
  - intros _ [= <-] _. by exists [].
  - destruct (calc_bson_element_size (decimal i) v) as [n1| | | |] eqn:E1; try done.
    destruct (write_bson_element le (decimal i) v) as [b1| | | |] eqn:E2; try done. cbn [mbind outcome_bind].
    intros Hn. destruct (write_elements _ _ l) as [b2| | | |] eqn:E3; try done. intros [= <-].
    rewrite length_app. intros Hd.
    destruct (Hv ltac:(done) ltac:(done) _ n1 b1 depth E1 E2 (decimal_bytes i Hi) ltac:(lia)) as (e & -> & _ & He & Hr).
    destruct (IH ltac:(done) ltac:(done) (i + 1) _ _ _ depth ltac:(lia) Hn E3 ltac:(lia)) as (es & -> & Hes & Hm).
    exists (e :: es). cbn [map concat]. rewrite He, Hm. split_and!; [done|by constructor|done].
Qed.

Lemma object_read m n bs depth :
  Forall (λ kv, element_ok kv.2) m → json_wf (J_object m) = true →
  json_forall node_bson (J_object m) = true →
  calc_bson_object_size calc_bson_element_size m = Ret n →
  write_bson_object le (write_bson_element le) m = Ret bs → (length bs ≤ depth)%nat →
  reads_value (parse_bson_document (parse_bson_element_list depth) false) bs
    (leaf_map bson_leaf (J_object m)).
Proof.
  intros IH Hwf Hb Hn. unfold json_wf in Hwf. cbn [json_forall node_wf node_bson] in Hwf, Hb. to_prop.
  unfold write_bson_object. rewrite Hn. unfold calc_bson_object_size in Hn.
  destruct (sum_members _ m 0) as [n1| | | |] eqn:E1; try done. injection Hn as <-.
  cbn [mbind outcome_bind]. destruct (write_members _ m) as [b1| | | |] eqn:E2; try done.
  intros [= <-]. rewrite !length_app, write_number_length. cbn [length sizeof int32 sint]. intros Hd.
  destruct depth as [|depth]; [lia|].
  destruct (members_read m IH ltac:(done) ltac:(done) ltac:(done) 0 n1 b1 depth E1 E2 ltac:(lia))
    as (es & -> & Hes & Hm).
  cbn [leaf_map]. rewrite <- build_object_leaf_map by done. rewrite <- Hm.
  apply reads_document; [|done]. exact (elements_read_entries depth false es Hes).
Qed.

Lemma array_read l n bs :
  Forall element_ok l → json_wf (J_array l) = true → json_forall node_bson (J_array l) = true →
  sum_elements calc_bson_element_size 0 l 0 = Ret n → write_elements (write_bson_element le) 0 l = Ret bs →
  ∀ size depth, (length bs < depth)%nat →
  reads_value (parse_bson_document (parse_bson_element_list depth) true) (put int32 size ++ bs ++ [0])
    (leaf_map bson_leaf (J_array l)).
Proof.
  intros IH Hwf Hb E1 E2 size depth Hd. unfold json_wf in Hwf.
  cbn [json_forall node_wf node_bson] in Hwf, Hb. to_prop. destruct depth as [|depth]; [lia|].
  destruct (elements_read_back l IH ltac:(done) ltac:(done) 0 0 n bs depth ltac:(lia) E1 E2 ltac:(lia))
    as (es & -> & Hes & Hm).
  cbn [leaf_map]. rewrite <- Hm.
  apply reads_document; [|done]. exact (elements_read_entries depth true es Hes).
Qed.

(** * Values *)

Ltac scalar :=
  match goal with Hwf : json_wf _ = true |- _ => unfold json_wf in Hwf end;
  cbn [json_forall node_wf node_bson] in *; to_prop.

Lemma reads_bson_element j : element_ok j.
Proof.
  induction j as [|m IH|l IH|s|b|z|z|f|b st|] using json_rect_nested; intros Hwf Hb name n bs depth;
    cbn [calc_bson_element_size write_bson_element];
    destruct (calc_bson_entry_header_size name) as [h| | | |] eqn:Eh; try done; cbn [mbind outcome_bind];
    intros Hn Hbs Hk Hd; (assert (name_ok name) as Hname by (split; [done|by eapply header_name]));
    cbn [leaf_map bson_leaf] in *.
  - injection Hbs as <-. rewrite <- (app_nil_r (write_bson_entry_header _ _)).
    apply element_reads_body; [done|]. apply body_null.
  - destruct (calc_bson_object_size _ m) as [n1| | | |] eqn:E1; try done.
    destruct (write_bson_object _ _ m) as [b1| | | |] eqn:E2; try done. injection Hbs as <-.
    apply element_reads_body; [done|]. split; [lia|]. intros pos. cbn [length] in Hd. rewrite !length_app in Hd.
    exact (object_read m n1 b1 depth IH Hwf Hb E1 E2 ltac:(lia)).
  - unfold write_bson_array, calc_bson_array_size in *.
    destruct (sum_elements _ 0 l 0) as [n1| | | |] eqn:E1; try done. cbn [mbind outcome_bind] in *.
    destruct (write_elements _ 0 l) as [b1| | | |] eqn:E2; try done. injection Hbs as <-.
    apply element_reads_body; [done|]. split; [lia|]. intros pos. cbn [length] in Hd. rewrite !length_app in Hd.
    exact (array_read l n1 b1 IH Hwf Hb E1 E2 _ depth ltac:(lia)).
  - injection Hbs as <-. scalar. apply element_reads_body; [done|]. apply body_string; [done|lia].
  - injection Hbs as <-. apply element_reads_body; [done|]. apply body_boolean.
  - injection Hbs as <-. scalar. unfold write_bson_integer, in_s in *. to_prop. case_if; to_prop;
      (apply element_reads_body; [done|]); [apply body_int32|apply body_int64]; lia.
  - scalar. unfold write_bson_unsigned, in_u in *. to_prop.
    revert Hbs. repeat case_if; to_prop; try done; intros [= <-];
      (apply element_reads_body; [done|]); [apply body_int32|apply body_int64]; lia.
  - injection Hbs as <-. scalar. apply element_reads_body; [done|]. by apply body_float.
  - injection Hbs as <-. scalar. apply element_reads_body; [done|]. apply body_binary; [done|lia].
Qed.

(** * What is written *)

Lemma find_zero_nonzero i name : forallb (λ c, negb (c =? 0)) name = true → find_zero i name = None.
Proof.
  revert i. induction name as [|c name IH]; intros i; cbn [forallb find_zero]; [done|].
  intros [Hc Hn]%andb_true_iff. destruct (c =? 0); [done|]. by apply IH.
Qed.

Lemma header_written name :
  forallb (λ c, negb (c =? 0)) name = true → ∃ n, calc_bson_entry_header_size name = Ret n.
Proof.
  intros Hn. unfold calc_bson_entry_header_size. rewrite find_zero_nonzero by done. by eexists.
Qed.

Lemma decimal_nonzero n : 0 ≤ n → forallb (λ c, negb (c =? 0)) (decimal n) = true.
Proof.
  unfold decimal. intros Hn. assert (∀ fuel n acc, 0 ≤ n → forallb (λ c, negb (c =? 0)) acc = true →
    forallb (λ c, negb (c =? 0)) (dec_loop fuel n acc) = true) as Hl; [|by apply Hl].
  clear n Hn. intros fuel. induction fuel as [|fuel IH]; intros n acc Hn Ha; cbn [dec_loop]; [done|].
  pose proof (Z.mod_pos_bound n 10 ltac:(lia)) as Hm.
  assert (forallb (λ c, negb (c =? 0)) (48 + n mod 10 :: acc) = true) as Ha'.
  { cbn [forallb]. rewrite Ha, andb_true_r. zify_bool. lia. }
  case_if; [done|]. apply IH; [apply Z.div_pos; lia|done].
Qed.

(** Sizes are computed and elements are written. *)
Definition written (j : json) : Prop :=
  json_forall node_bson j = true → ∀ name, forallb (λ c, negb (c =? 0)) name = true →
  (∃ n, calc_bson_element_size name j = Ret n) ∧ ∃ bs, write_bson_element le name j = Ret bs.

Lemma members_written m :
  Forall (λ kv, written kv.2) m → json_forall node_bson (J_object m) = true →
  (∀ acc, ∃ n, sum_members calc_bson_element_size m acc = Ret n) ∧
  ∃ bs, write_members (write_bson_element le) m = Ret bs.
Proof.
  induction 1 as [|[k v] m Hv _ IH]; cbn [json_forall node_bson forallb fst snd]; intros Hb;
    cbn [sum_members write_members fst snd]; [split; by eexists|]. to_prop.
  cbn [snd] in Hv. destruct (Hv ltac:(done) k ltac:(done)) as [(n & ->) (b1 & ->)].
  destruct IH as [Hs (b2 & ->)]; [by cbn [json_forall node_bson]; apply andb_true_iff|].
  split; [intros acc; apply Hs|by eexists].
Qed.

Lemma elements_written l :
  Forall written l → json_forall node_bson (J_array l) = true → ∀ i, 0 ≤ i →
  (∀ acc, ∃ n, sum_elements calc_bson_element_size i l acc = Ret n) ∧
  ∃ bs, write_elements (write_bson_element le) i l = Ret bs.
Proof.
  induction 1 as [|v l Hv _ IH]; cbn [json_forall node_bson forallb]; intros Hb i Hi;
    cbn [sum_elements write_elements]; [split; by eexists|]. to_prop.
  destruct (Hv ltac:(done) (decimal i) (decimal_nonzero i Hi)) as [(n & ->) (b1 & ->)].
  destruct (IH ltac:(by cbn [json_forall node_bson]) (i + 1) ltac:(lia)) as [Hs (b2 & E2)].
  split; [intros acc; apply Hs|]. cbn [mbind outcome_bind]. rewrite E2. by eexists.
Qed.

Lemma object_written m :
  Forall (λ kv, written kv.2) m → json_forall node_bson (J_object m) = true →
  (∃ n, calc_bson_object_size calc_bson_element_size m = Ret n) ∧
  ∃ bs, write_bson_object le (write_bson_element le) m = Ret bs.
Proof.
  intros Hm Hb. destruct (members_written m Hm Hb) as [Hs (bs & E2)]. destruct (Hs 0) as (n & E1).
  unfold write_bson_object, calc_bson_object_size. rewrite E1, E2. split; by eexists.
Qed.

Lemma element_written j : written j.
Proof.
  induction j as [|m IH|l IH|s|b|z|z|f|b st|] using json_rect_nested; intros Hb name Hn;
    cbn [calc_bson_element_size write_bson_element];
    destruct (header_written name Hn) as (h & ->); cbn [mbind outcome_bind];
    lazymatch goal with
    | IH : Forall _ _ |- _ => idtac
    | z : Z |- context [write_bson_unsigned] => idtac
    | |- context [Abort] => done
    | _ => split; eexists; reflexivity
    end.
  - destruct (object_written m IH Hb) as [(n & ->) (bs & ->)]. split; by eexists.
  - destruct (elements_written l IH Hb 0 ltac:(lia)) as [Hs (bs & E2)]. destruct (Hs 0) as (n & E1).
    unfold write_bson_array, calc_bson_array_size. rewrite E1, E2. split; by eexists.
  - split; [by eexists|]. cbn [json_forall node_bson] in Hb. to_prop. unfold write_bson_unsigned.
    case_if; [by eexists|]. case_if; [by eexists|]. to_prop. lia.
Qed.

(** An object of what BSON can store is written. *)
Lemma write_bson_written j :
  is_object j = true → json_forall node_bson j = true → ∃ bs, write_bson le j = Ret bs.
Proof.
  destruct j as [|m| | | | | | | |]; try done. intros _ Hb. apply object_written; [|done].
  apply List.Forall_forall. intros kv _. apply element_written.
Qed.

(** A document is read back up to the leaves. *)
Lemma reads_bson j bs :
  json_wf j = true → json_forall node_bson j = true → write_bson le j = Ret bs →
  reads_value parse_bson_internal bs (leaf_map bson_leaf j).
Proof.
  intros Hwf Hb. destruct j as [| |l| | | | | | |]; try done. cbn [write_bson]. intros Hbs.
  apply (reads_value_fuel (λ n, parse_bson_document (parse_bson_element_list n) false)).
  intros fuel Hf.
  destruct (calc_bson_object_size calc_bson_element_size m) as [n| | | |] eqn:E;
    try (unfold write_bson_object in Hbs; rewrite E in Hbs; done).
  apply (object_read m n bs fuel); try done; [|lia].
  apply List.Forall_forall. intros kv _. apply reads_bson_element.
Qed.
End reading.
