(* ===== verification/BsonSafety.v ===== *)
(** The BSON reader on arbitrary bytes, against the contract of
    [BinarySafety].  A string whose last byte is missing stops the reader
    without a report, so that the handler must be ready to be stopped. *)

From S2P Require Import Prelude Double JsonValue JsonParser JsonParserFacts.
From S2P Require Import BinaryNumbers BinaryNumbersFacts BinaryReader BinaryReaderFacts BinarySafety.
From S2P Require Import MsgPackSafety Bson.

Section bson.
  Context {S : Type} {X : json_exn → Prop} {big : Prop} `{BinaryLaws S X big}.
  Context (Htold : ∀ s, told s).

Abbreviation rd_good := (rd_good (X := X)).

Lemma get_bson_cstr_good st k n r :
  holds st k n r → rd_good (get_bson_cstr []) r (got st k n bytes).
Proof.
  intros Hr.
  assert (∀ fuel n result (r : reader S), (length (ia r) < fuel)%nat → holds st k n r → bytes result →
    rd_good (get_bson_cstr_loop fuel result) r (got st k n bytes)) as Hl; [|by apply Hl; [lia|..]].
  clear n r Hr. intros fuel. induction fuel as [|fuel IH]; intros n result r Hf Hr Hres; [lia|].
  cbn [get_bson_cstr_loop]. destruct Hr as (Hs & Hn & Hb & Hi).
  eapply rd_good_bind; [apply (get_good r st k (length (ia r))); by repeat split|].
  intros c r1 (Hr1 & Hc & Hcase).
  eapply rd_good_bind; [by apply unexpect_eof_good|]. intros [] r2 (Hr2 & H1' & H2'); cbn [negb].
  - destruct (H1' eq_refl) as [-> Hne]. case_if.
    + apply rd_good_ret. split; [|done]. by eapply holds_mono.
    + destruct Hcase as [He|(Hbc & Hn0 & Hr1')]; [congruence|].
      apply IH; [destruct Hr1' as (_ & ? & _); lia|eapply holds_mono; [done|lia]|].
      unfold bytes in *. rewrite forallb_app, Hres. cbn [forallb].
      pose proof (Z.mod_pos_bound c 256 ltac:(lia)). unfold is_byte. simpl. zify_bool. lia.
  - apply rd_good_ret. split; [|done]. apply holds_after; [by eapply holds_mono|done].
Qed.

Lemma get_bson_string_good len st k n r :
  holds st k n r → rd_good (get_bson_string len []) r (got st k n bytes).
Proof.
  intros Hr. unfold get_bson_string. case_if.
  - apply token_good. intros t. eapply rd_good_bind; [apply (report_good _ _ _ _ _ r st k n); simpl; auto; done|].
    intros b r1 (-> & Hr1 & Ht). apply rd_good_ret. by split; [apply holds_after|].
  - eapply rd_good_bind; [by apply get_string_good|]. intros [[] s] r1 [Ha Hs].
    + eapply rd_good_bind; [apply (get_good r1 st k n Ha)|]. intros c r2 (Hr2 & _). apply rd_good_ret.
      split; [by apply holds_after|]. intros _. by apply Hs.
    + by apply rd_good_ret.
Qed.

Lemma get_bson_binary_good len st k n r :
  holds st k n r → rd_good (get_bson_binary len ([], None)) r (got st k n binary_bytes).
Proof.
  intros Hr. unfold get_bson_binary. case_if.
  - apply token_good. intros t. eapply rd_good_bind; [apply (report_good _ _ _ _ _ r st k n); simpl; auto; done|].
    intros b r1 (-> & Hr1 & Ht). apply rd_good_ret. by split; [apply holds_after|].
  - eapply rd_good_bind; [by apply get_number_good|]. intros [b t] r1 (Hr1 & Hb & _).
    apply get_binary_good; [done..|]. unfold binary_ok. cbn [fst snd forallb].
    apply (uint_in 1); [lia|done].
Qed.

(** [elements] reads the elements of a document when at most [n] bytes are left. *)
Definition lists_within (elements : bool → rd S bool) (n : nat) : Prop :=
  ∀ is_array r st m, (m ≤ n)%nat → holds (is_array :: st) false m r →
    rd_good (elements is_array) r (after (is_array :: st) false m).

Lemma parse_bson_document_good elements is_array r st k n :
  lists_within elements n → holds st k n r → value_pos st k →
  rd_good (parse_bson_document elements is_array) r (after st false n).
Proof.
  intros He Hr Hv. unfold parse_bson_document. eapply rd_good_bind; [by apply get_number_good|].
  intros [b z] r1 (Hr1 & _ & _). apply and_also_good with (st := is_array :: st) (kk := false) (n := n); [|done|].
  - eapply event_after; [exact Hr1|]. destruct is_array;
      [apply blaw_start_array with (k := k)|apply blaw_start_object with (k := k)];
      [apply Hr1|done|by right; left|apply Hr1|done|by right; left].
  - intros r2 Hr2. eapply and_also_good; [by apply He|done|]. intros r3 Hr3.
    eapply event_after; [exact Hr3|]. destruct is_array;
      [eapply blaw_end_array|eapply blaw_end_object]; apply Hr3.
Qed.

Lemma parse_bson_element_internal_good elements ty pos r st k n :
  lists_within elements n → holds st k n r → value_pos st k →
  rd_good (parse_bson_element_internal elements ty pos) r (after st false n).
Proof.
  intros He Hr Hv. unfold parse_bson_element_internal.
  assert (∀ sz, (0 < sz ≤ 8)%nat → rd_good (and_then (get_number (sint sz) true F_bson)
    (λ n, event (sax_number_integer n))) r (after st false n)) as Hint.
  { intros sz Hsz. eapply and_then_good; [by apply number_good|done|]. intros z r' Hz Hr'.
    eapply event_after; [exact Hr'|]. eapply blaw_integer; [apply Hr'|done|by eapply sint_in]. }
  case_if; [eapply and_then_good; [by apply number_good|done|]; intros f r' (bits & -> & _) Hr';
    eapply event_after; [exact Hr'|]; eapply blaw_float; [apply Hr'|done|by apply bits_float_valid]|].
  case_if; [eapply and_then_good; [eapply and_set_good; [by apply number_good|];
    intros len r' _ Hr'; by apply get_bson_string_good|done|]; intros s r' Hs Hr';
    eapply event_after; [exact Hr'|]; eapply blaw_string; [apply Hr'|done..]|].
  do 2 (case_if; [by apply parse_bson_document_good with (k := k)|]).
  case_if; [eapply and_then_good; [eapply and_set_good; [by apply number_good|];
    intros len r' _ Hr'; by apply get_bson_binary_good|done|]; intros s r' Hs Hr';
    eapply event_after; [exact Hr'|]; eapply blaw_binary; [apply Hr'|done..]|].
  case_if; [eapply rd_good_bind; [by apply get_good|]; intros c r' (Hr' & _);
    eapply event_after; [exact Hr'|]; eapply blaw_boolean; [apply Hr'|done..]|].
  case_if; [eapply event_after; [exact Hr|]; eapply blaw_null; [apply Hr|done..]|].
  case_if; [apply Hint; lia|]. case_if; [apply Hint; lia|].
  cbv zeta. eapply parse_error_after; [exact Hr|]. apply blaw_reported. do 3 eexists. simpl. eauto 10.
Qed.

(** One element; its type was read before. *)
Lemma parse_bson_element_good elements is_array ty r st n :
  (current r ≠ eof → lists_within elements n) → holds (is_array :: st) false n r →
  rd_good (parse_bson_element elements is_array ty) r
    (λ b r', after (is_array :: st) false n b r' ∧ (current r = eof → b = false)).
Proof.
  intros He Hr. unfold parse_bson_element, and_also at 1.
  eapply rd_good_bind; [by apply unexpect_eof_good|]. intros [] r1 (Hr1 & H1' & H2').
  - destruct (H1' eq_refl) as [-> Hne].
    eapply (rd_good_mono _ _ (after (is_array :: st) false n)); [|by intros b r' Ha].
    eapply rd_good_bind with (Q := λ _ r', holds (is_array :: st) false n r'); [exact Hr|].
    intros pos r2 Hr2. eapply and_then_good; [by apply get_bson_cstr_good|done|].
    intros key r3 Hkey Hr3.
    apply and_also_good with (st := is_array :: st) (kk := negb is_array) (n := n); [|done|].
    + destruct is_array; [by apply rd_good_ret|]. eapply event_after; [exact Hr3|].
      eapply blaw_key; [apply Hr3|done].
    + intros r4 Hr4. eapply parse_bson_element_internal_good; [by apply He|exact Hr4|by destruct is_array].
  - apply rd_good_ret. split; [|done]. split; [done|]. by exists (is_array :: st), false.
Qed.

Lemma bson_element_loop_good elements is_array fuel n r st :
  (n < fuel)%nat → (∀ m, (m < n)%nat → lists_within elements m) →
  holds (is_array :: st) false n r →
  rd_good (bson_element_loop fuel (parse_bson_element elements is_array)) r
    (after (is_array :: st) false n).
Proof.
  revert n r. induction fuel as [|fuel IH]; intros n r Hn He Hr; [lia|].
  cbn [bson_element_loop]. eapply rd_good_bind; [by apply get_good|]. intros c r1 (Hr1 & Hc & Hcase).
  case_if; [by apply rd_good_ret|]. unfold and_also. destruct Hcase as [He'|(Hb & Hn0 & Hr1')].
  - eapply rd_good_bind; [by apply (parse_bson_element_good _ _ _ _ st n); [congruence|]|].
    intros b r2 [Ha Hend]. rewrite Hend by congruence. rewrite Hend in Ha by congruence. by apply rd_good_ret.
  - eapply rd_good_bind; [apply (parse_bson_element_good _ _ _ _ st (pred n)); [intros _; apply He; lia|done]|].
    intros [] r2 [Ha _].
    + eapply rd_good_mono; [apply (IH (pred n)); [lia|intros m Hm; apply He; lia|exact Ha]|].
      intros b r3 Hb3. eapply after_mono; [done|lia].
    + apply rd_good_ret. eapply (after_mono _ _ (pred n) _ false); [done|lia].
Qed.

Lemma parse_bson_element_list_good depth n : (n < depth)%nat → lists_within (parse_bson_element_list depth) n.
Proof.
  revert n. induction depth as [|depth IH]; intros n Hn is_array r st m Hm Hr; [lia|].
  cbn [parse_bson_element_list]. pose proof Hr as (Hs & Hl & Hb & Hi).
  assert (rd_good (bson_element_loop (1 + length (ia r)) (parse_bson_element (parse_bson_element_list depth)
    is_array)) r (after (is_array :: st) false (length (ia r)))) as Hg.
  { apply bson_element_loop_good; [lia| |by repeat split]. intros m' Hm'. apply IH. lia. }
  eapply goodx_mono; [exact Hg|]. intros [b r'] Ha. by eapply after_mono.
Qed.

Lemma parse_bson_internal_good r st k n :
  holds st k n r → value_pos st k → rd_good parse_bson_internal r (after st false n).
Proof.
  intros Hr Hv. pose proof Hr as (Hs & Hn & Hb & Hi).
  assert (rd_good (parse_bson_document (parse_bson_element_list (1 + length (ia r))) false) r
    (after st false (length (ia r)))) as Hg.
  { eapply parse_bson_document_good; [apply parse_bson_element_list_good; lia|by repeat split|done]. }
  eapply goodx_mono; [exact Hg|]. intros [b r'] Ha. by eapply after_mono.
Qed.
End bson.
