(* ===== verification/Ubjson.v ===== *)
(** UBJSON and BJData in framework/json.hpp: [get_ubjson_value] and its helpers
    of [binary_reader], and [from_ubjson] and [from_bjdata].  The two formats
    share their code; the member [input_format] is the parameter [fmt] here.

    The loops carry fuel: two rounds more than there are bytes, since the end
    of the input stops them in the round after it is met. *)

From S2P Require Import Prelude JsonValue JsonLexer JsonParser JsonSerializer.
From S2P Require Import BinaryNumbers BinaryReader Cbor.

(** * Markers *)

Abbreviation mark_array := 91.       (* [ *)
Abbreviation mark_end_array := 93.   (* ] *)
Abbreviation mark_object := 123.     (* { *)
Abbreviation mark_end_object := 125. (* } *)
Abbreviation mark_type := 36.        (* $ *)
Abbreviation mark_count := 35.       (* # *)
Abbreviation mark_noop := 78.        (* N *)
Abbreviation mark_true := 84.        (* T *)
Abbreviation mark_false := 70.       (* F *)
Abbreviation mark_null := 90.        (* Z *)
Abbreviation mark_uint8 := 85.       (* U *)
Abbreviation mark_int8 := 105.       (* i *)
Abbreviation mark_int16 := 73.       (* I *)
Abbreviation mark_int32 := 108.      (* l *)
Abbreviation mark_int64 := 76.       (* L *)
Abbreviation mark_uint16 := 117.     (* u *)
Abbreviation mark_uint32 := 109.     (* m *)
Abbreviation mark_uint64 := 77.      (* M *)
Abbreviation mark_half := 104.       (* h *)
Abbreviation mark_float := 100.      (* d *)
Abbreviation mark_double := 68.      (* D *)
Abbreviation mark_high := 72.        (* H *)
Abbreviation mark_char := 67.        (* C *)
Abbreviation mark_string := 83.      (* S *)

(** [bjd_optimized_type_markers] and [bjd_types_map]. *)
Definition bjd_optimized_type_markers : list Z :=
  [mark_false; mark_high; mark_noop; mark_string; mark_true; mark_null; mark_array; mark_object].

Definition bjd_types_map : list (Z * string) :=
  [(mark_char, "char"); (mark_double, "double"); (mark_int16, "int16"); (mark_int64, "int64");
   (mark_uint64, "uint64"); (mark_uint8, "uint8"); (mark_float, "single"); (mark_int8, "int8");
   (mark_int32, "int32"); (mark_uint32, "uint32"); (mark_uint16, "uint16")]%string.

(** [std::lower_bound] with the test that the key was found. *)
Definition bjd_type_name (ty : Z) : option string :=
  option_map snd (List.find (λ p, p.1 =? ty) bjd_types_map).

(** Bit 8 of the type says that the size is one of an n-dimensional array. *)
Definition ndarray_bit : Z := Z.shiftl 1 8.

Section reader.
  Context {S : Type} `{SAX S, BinarySAX S}.
  Context (fmt : input_format_t).

(** [get_number(input_format, number)], and the test for BJData. *)
Abbreviation number T := (get_number T false fmt).
Abbreviation is_bjdata := (bool_decide (fmt = F_bjdata)).

(** [sax->parse_error] with an [out_of_range] exception. *)
Definition report_range (token : cstring) (detail : cstring) (context : string) : rd S bool := λ r,
  what ← exception_message fmt detail context;
  event (sax_parse_error (chars_read r) token (create_out_of_range 408 what)) r.

(** Stop with an error, which leaves [a] in the parameter. *)
Definition failing {A} (id : Z) (detail : string) (context : string) (a : A) : rd S (bool * A) :=
  last_token ← get_token_string;
  b ← report id last_token fmt (str detail) context;
  mret (b, a).

(** The types of lengths and counts: those of UBJSON and the ones that only
    BJData has. *)
Definition length_type (c : Z) : option (number_type Z) :=
  if c =? mark_uint8 then Some uint8
  else if c =? mark_int8 then Some int8
  else if c =? mark_int16 then Some int16
  else if c =? mark_int32 then Some int32
  else if c =? mark_int64 then Some int64
  else if (c =? mark_uint16) && is_bjdata then Some uint16
  else if (c =? mark_uint32) && is_bjdata then Some uint32
  else if (c =? mark_uint64) && is_bjdata then Some uint64
  else None.

Definition expected_length (after : string) (last_token : cstring) : cstring :=
  (if is_bjdata
   then str "expected length type specification (U, i, u, I, m, l, M, L)"
   else str "expected length type specification (U, i, I, l, L)") ++
  str after ++ str "; last byte: 0x" ++ last_token.

Definition get_ubjson_string (get_char : bool) (result : cstring) : rd S (bool * cstring) :=
  _ ← (if get_char then get else last_read);
  ok ← unexpect_eof fmt "value";
  if negb ok then mret (false, result) else
  c ← last_read;
  match length_type c with
  | Some T => and_set (number T) result (λ len, get_string fmt len result)
  | None =>
      last_token ← get_token_string;
      b ← report 113 last_token fmt (expected_length "" last_token) "string";
      mret (b, result)
  end.

(** * Sizes

    A size of BJData may be a vector of dimensions; reading one calls
    [get_ubjson_size_type], which calls [get_ubjson_size_value] again.
    [size_value is_ndarray prefix] is that call. *)

(** A count that was read as a number of the type [T]. *)
Definition get_ubjson_count (T : number_type Z) (is_ndarray : bool) : rd S (bool * (Z * bool)) :=
  '(ok, n) ← number T;
  if negb ok then mret (false, (0, is_ndarray))
  else if n <? 0 then
    failing 113 "count in an optimized container must be positive" "size" (0, is_ndarray)
  else if negb (in_u 64 n) then
    last_token ← get_token_string;
    b ← report_range last_token (str "integer value overflow") "size";
    mret (b, (0, is_ndarray))
  else mret (true, (n, is_ndarray)).

(** The product of the dimensions, which must not overflow to zero nor be
    taken for the size of a container without one; [Some b] returns [b] from
    the function. *)
Fixpoint dimensions_loop (dim : list Z) (result : Z) : rd S (option bool * Z) :=
  match dim with
  | [] => mret (None, result)
  | i :: dim' =>
      let result := wrap_u 64 (result * i) in
      if (result =? 0) || (result =? npos) then
        last_token ← get_token_string;
        b ← report_range last_token (str "excessive ndarray size caused overflow") "size";
        mret (Some b, result)
      else
        ok ← event (sax_number_unsigned i);
        if ok : bool then dimensions_loop dim' result else mret (Some false, result)
  end.

(** The object that stands for an n-dimensional array, up to its dimensions. *)
Definition start_ndarray (dim : list Z) : rd S (bool * (Z * bool)) :=
  ok ← and_also (event (sax_start_object_of 3))
         (and_also (event (sax_key (str "_ArraySize_")))
            (event (sax_start_array_of (Z.of_nat (length dim)))));
  if negb ok then mret (false, (0, false)) else
  '(done, result) ← dimensions_loop dim 1;
  match done with
  | Some b => mret (b, (result, false))
  | None => b ← event sax_end_array; mret (b, (result, true))
  end.

(** What the dimensions mean: a row vector is an array of that size. *)
Definition dimensions_size (dim : list Z) : rd S (bool * (Z * bool)) :=
  match dim with
  | [n] => mret (true, (n, false))
  | [m; n] =>
      if m =? 1 then mret (true, (n, false))
      else if existsb (λ i, i =? 0) dim then mret (true, (0, false))
      else start_ndarray dim
  | [] => mret (true, (0, false))
  | _ => if existsb (λ i, i =? 0) dim then mret (true, (0, false)) else start_ndarray dim
  end.

Definition get_ubjson_size_step (ndarray_size : rd S (bool * list Z)) (is_ndarray : bool)
    (prefix : Z) : rd S (bool * (Z * bool)) :=
  prefix ← (if prefix =? 0 then get_ignore_noop else mret prefix);
  match length_type prefix with
  | Some T => get_ubjson_count T is_ndarray
  | None =>
      if (prefix =? mark_array) && is_bjdata then
        if is_ndarray then
          failing 113 "ndarray dimensional vector is not allowed" "size" (0, is_ndarray)
        else
          '(ok, dim) ← ndarray_size;
          if negb ok then mret (false, (0, is_ndarray)) else dimensions_size dim
      else
        last_token ← get_token_string;
        b ← report 113 last_token fmt (expected_length " after '#'" last_token) "size";
        mret (b, (0, is_ndarray))
  end.

Section size_value.
  Context (size_value : bool → Z → rd S (bool * (Z * bool))).

(** The size and the type of a container, [npos] and 0 if it has none. *)
Definition get_ubjson_size_type (inside_ndarray : bool) : rd S (bool * (Z * Z)) :=
  c ← get_ignore_noop;
  if c =? mark_type then
    ty ← get;
    if is_bjdata && bool_decide (ty ∈ bjd_optimized_type_markers) then
      last_token ← get_token_string;
      b ← report 112 last_token fmt
        (str "marker 0x" ++ last_token ++ str " is not a permitted optimized array type") "type";
      mret (b, (npos, ty))
    else
    ok ← unexpect_eof fmt "type";
    if negb ok then mret (false, (npos, ty)) else
    c ← get_ignore_noop;
    if negb (c =? mark_count) then
      ok ← unexpect_eof fmt "value";
      if negb ok then mret (false, (npos, ty)) else
      last_token ← get_token_string;
      b ← report 112 last_token fmt
        (str "expected '#' after type information; last byte: 0x" ++ last_token) "size";
      mret (b, (npos, ty))
    else
    '(ok, (size, is_ndarray)) ← size_value false 0;
    if is_bjdata && is_ndarray then
      if inside_ndarray
      then failing 112 "ndarray can not be recursive" "size" (size, ty)
      else mret (ok, (size, Z.lor ty ndarray_bit))
    else mret (ok, (size, ty))
  else if c =? mark_count then
    '(ok, (size, is_ndarray)) ← size_value false 0;
    if is_bjdata && is_ndarray
    then failing 112 "ndarray requires both type and size" "size" (size, 0)
    else mret (ok, (size, 0))
  else mret (true, (npos, 0)).

(** One more dimension, whose type may have been read. *)
Definition get_dimension (prefix : Z) (dim : list Z) : rd S (bool * list Z) :=
  '(ok, (dimlen, _)) ← size_value true prefix;
  if ok : bool then mret (true, dim ++ [dimlen]) else mret (false, dim).

(** [while (current != ']')]. *)
Fixpoint dimension_loop (fuel : nat) (dim : list Z) : rd S (bool * list Z) :=
  match fuel with
  | O => λ _, Diverge
  | Datatypes.S fuel' =>
      c ← last_read;
      if c =? mark_end_array then mret (true, dim) else
      '(ok, dim) ← get_dimension c dim;
      if negb ok then mret (false, dim) else
      _ ← get_ignore_noop;
      dimension_loop fuel' dim
  end.

Definition get_ubjson_ndarray_size : rd S (bool * list Z) :=
  '(ok, (size, ty)) ← get_ubjson_size_type true;
  if negb ok then mret (false, [])
  else if negb (size =? npos) then
    if negb (ty =? 0) then
      if negb (ty =? mark_noop) then for_loop size (get_dimension ty) [] else mret (true, [])
    else for_loop size (get_dimension 0) []
  else λ r, dimension_loop (2 + length (ia r)) [] r.
End size_value.

Fixpoint get_ubjson_size_loop (fuel : nat) : bool → Z → rd S (bool * (Z * bool)) :=
  match fuel with
  | O => λ _ _ _, Diverge
  | Datatypes.S fuel' =>
      get_ubjson_size_step (get_ubjson_ndarray_size (get_ubjson_size_loop fuel'))
  end.

Definition get_ubjson_size_value (is_ndarray : bool) (prefix : Z) : rd S (bool * (Z * bool)) := λ r,
  get_ubjson_size_loop (2 + length (ia r)) is_ndarray prefix r.

(** * Numbers *)

(** The text of a high-precision number is given to the lexer of JSON texts;
    [dp] is the decimal point of the locale. *)
Definition emit_high_precision (dp : Z) (text : cstring) : rd S bool := λ r,
  '(result_number, lx) ← scan (init_lexer dp text false);
  let number_string := JsonLexer.get_token_string lx in
  '(result_remainder, lx) ← scan lx;
  let invalid :=
    report 115 number_string fmt (str "invalid number text: " ++ JsonLexer.get_token_string lx)
      "high-precision number" in
  if negb (bool_decide (result_remainder = token_type.end_of_input)) then invalid r
  else
    match result_number with
    | token_type.value_integer => event (sax_number_integer (value_integer lx)) r
    | token_type.value_unsigned => event (sax_number_unsigned (value_unsigned lx)) r
    | token_type.value_float => event (sax_number_float (value_float lx) number_string) r
    | _ => invalid r
    end.

Definition get_ubjson_high_precision_number (dp : Z) : rd S bool :=
  '(ok, (size, _)) ← get_ubjson_size_value true 0;
  if negb ok then mret false
  else and_then (get_bytes fmt "number" size []) (emit_high_precision dp).

(** A half-precision number, the low byte first. *)
Definition get_ubjson_half : rd S bool :=
  byte1_raw ← get;
  ok ← unexpect_eof fmt "number";
  if negb ok then mret false else
  byte2_raw ← get;
  ok ← unexpect_eof fmt "number";
  if negb ok then mret false else emit_half byte2_raw byte1_raw.

Definition get_ubjson_char : rd S bool :=
  c ← get;
  ok ← unexpect_eof fmt "char";
  if negb ok then mret false
  else if 127 <? c then
    last_token ← get_token_string;
    report 113 last_token fmt
      (str "byte after 'C' must be in range 0x00..0x7F; last byte: 0x" ++ last_token) "char"
  else event (sax_string [c]).

(** * Containers

    [value prefix] is [get_ubjson_value]. *)

Section containers.
  Context (value : Z → rd S bool).

Definition parse_ubjson (get_char : bool) : rd S bool :=
  c ← (if get_char then get_ignore_noop else last_read);
  value c.

(** [while (current != stop)], with [get_ignore_noop] at the end of the body. *)
Fixpoint while_not (fuel : nat) (stop : Z) (body : rd S bool) : rd S bool :=
  match fuel with
  | O => λ _, Diverge
  | Datatypes.S fuel' =>
      c ← last_read;
      if c =? stop then mret true
      else and_also body (_ ← get_ignore_noop; while_not fuel' stop body)
  end.

Definition until_marker (stop : Z) (body : rd S bool) : rd S bool := λ r,
  while_not (2 + length (ia r)) stop body r.

(** A loop over a known number of elements. *)
Definition repeat_rd (n : Z) (body : rd S bool) : rd S bool :=
  '(ok, _) ← for_loop n (round body) (); mret ok.

(** An n-dimensional array as an object in the annotated format of JData; the
    dimensions have been sent with the size. *)
Definition get_bjdata_ndarray (size ty : Z) : rd S bool :=
  match bjd_type_name ty with
  | None =>
      last_token ← get_token_string;
      report 112 last_token fmt (str "invalid byte: 0x" ++ last_token) "type"
  | Some name =>
      and_also (event (sax_key (str "_ArrayType_")))
        (and_also (event (sax_string (str name)))
           (let ty := if ty =? mark_char then mark_uint8 else ty in
            and_also (event (sax_key (str "_ArrayData_")))
              (and_also (event (sax_start_array_of size))
                 (and_also (repeat_rd size (value ty))
                    (and_also (event sax_end_array) (event sax_end_object))))))
  end.

Definition get_ubjson_array : rd S bool :=
  '(ok, (size, ty)) ← get_ubjson_size_type get_ubjson_size_value false;
  if negb ok then mret false
  else if is_bjdata && negb (size =? npos) && negb (Z.land ty ndarray_bit =? 0)
  then get_bjdata_ndarray size (Z.ldiff ty ndarray_bit)
  else if negb (size =? npos) then
    and_also (event (sax_start_array_of size))
      (and_also
         (if negb (ty =? 0)
          then if negb (ty =? mark_noop) then repeat_rd size (value ty) else mret true
          else repeat_rd size (parse_ubjson true))
         (event sax_end_array))
  else
    and_also (event (sax_start_array_of npos))
      (and_also (until_marker mark_end_array (parse_ubjson false)) (event sax_end_array)).

(** A member of an object: the key, whose marker may have been read, and a
    value. *)
Definition get_ubjson_member (get_char : bool) (element : rd S bool) : rd S bool :=
  and_also (and_then (get_ubjson_string get_char []) (λ key, event (sax_key key))) element.

Definition get_ubjson_object : rd S bool :=
  '(ok, (size, ty)) ← get_ubjson_size_type get_ubjson_size_value false;
  if negb ok then mret false
  else if is_bjdata && negb (size =? npos) && negb (Z.land ty ndarray_bit =? 0) then
    last_token ← get_token_string;
    report 112 last_token fmt
      (str "BJData object does not support ND-array size in optimized format") "object"
  else if negb (size =? npos) then
    and_also (event (sax_start_object_of size))
      (and_also
         (repeat_rd size (get_ubjson_member true
            (if negb (ty =? 0) then value ty else parse_ubjson true)))
         (event sax_end_object))
  else
    and_also (event (sax_start_object_of npos))
      (and_also (until_marker mark_end_object (get_ubjson_member false (parse_ubjson true)))
         (event sax_end_object)).
End containers.

(** * Values *)

(** The [switch] of [get_ubjson_value]: what only BJData has, ... *)
Definition get_bjdata_value (prefix : Z) : option (rd S bool) :=
  let unsigned T := and_then (number T) (λ n, event (sax_number_unsigned n)) in
  if negb is_bjdata then None
  else if prefix =? mark_uint16 then Some (unsigned uint16)
  else if prefix =? mark_uint32 then Some (unsigned uint32)
  else if prefix =? mark_uint64 then Some (unsigned uint64)
  else if prefix =? mark_half then Some get_ubjson_half
  else None.

(** ... and the rest; [value] is the call for elements of a container. *)
Definition get_ubjson_value_step (dp : Z) (value : Z → rd S bool) (prefix : Z) : rd S bool :=
  let signed T := and_then (number T) (λ n, event (sax_number_integer n)) in
  if prefix =? eof then unexpect_eof fmt "value"
  else if prefix =? mark_true then event (sax_boolean true)
  else if prefix =? mark_false then event (sax_boolean false)
  else if prefix =? mark_null then event sax_null
  else if prefix =? mark_uint8 then and_then (number uint8) (λ n, event (sax_number_unsigned n))
  else if prefix =? mark_int8 then signed int8
  else if prefix =? mark_int16 then signed int16
  else if prefix =? mark_int32 then signed int32
  else if prefix =? mark_int64 then signed int64
  else if prefix =? mark_float then
    and_then (number float32) (λ n, event (sax_number_float (to_double n) []))
  else if prefix =? mark_double then and_then (number float64) (λ n, event (sax_number_float n []))
  else if prefix =? mark_high then get_ubjson_high_precision_number dp
  else if prefix =? mark_char then get_ubjson_char
  else if prefix =? mark_string then
    and_then (get_ubjson_string true []) (λ s, event (sax_string s))
  else if prefix =? mark_array then get_ubjson_array value
  else if prefix =? mark_object then get_ubjson_object value
  else
    match get_bjdata_value prefix with
    | Some m => m
    | None =>
        last_token ← get_token_string;
        report 112 last_token fmt (str "invalid byte: 0x" ++ last_token) "value"
    end.

Fixpoint get_ubjson_value (fuel : nat) (dp prefix : Z) : rd S bool :=
  match fuel with
  | O => λ _, Diverge
  | Datatypes.S fuel' => get_ubjson_value_step dp (get_ubjson_value fuel' dp) prefix
  end.

Definition parse_ubjson_internal (dp : Z) : rd S bool := λ r,
  parse_ubjson (get_ubjson_value (2 + length (ia r)) dp) true r.
End reader.

(** [from_ubjson] and [from_bjdata] in a locale with the decimal point [dp]. *)
Definition from_ubjson (host_le : bool) (dp : Z) (input : cstring)
    (strict allow_exceptions_ : bool) : outcome json_exn json :=
  from_binary (parse_ubjson_internal F_ubjson dp) F_ubjson host_le input strict allow_exceptions_.

Definition from_bjdata (host_le : bool) (dp : Z) (input : cstring)
    (strict allow_exceptions_ : bool) : outcome json_exn json :=
  from_binary (parse_ubjson_internal F_bjdata dp) F_bjdata host_le input strict allow_exceptions_.

(** * Writing *)

(** The members of the union [json_value] as they are read by the writer of
    n-dimensional arrays, whatever the type of the value: the bits of a
    number; of other values they are not defined. *)
Definition value_bits (j : json) : outcome json_exn Z :=
  match j with
  | J_number_unsigned z => Ret z
  | J_number_integer z => Ret (wrap_u 64 z)
  | J_number_float f => Ret (float_bits 53 1024 f)
  | _ => Undef
  end.

(** The values from [begin] to [end]; a primitive value has itself as its only
    element. *)
Definition range_of (j : json) : list json :=
  match j with
  | J_null => []
  | J_array l => l
  | J_object m => map snd m
  | _ => [j]
  end.

(** The map [bjdtype]. *)
Definition bjdtype (name : cstring) : option Z :=
  option_map fst (List.find (λ p, cs_eqb (str p.2) name) bjd_types_map).

(** [f] of a member of an object. *)
Definition with_member {A} (key : cstring) (f : json → A) : list (cstring * json) → option A :=
  fix go m :=
    match m with
    | [] => None
    | (k, v) :: m' => if cs_eqb k key then Some (f v) else go m'
    end.

Section writer.
  Context (le use_bjdata : bool).

(** [write_number(n, use_bjdata)]. *)
Abbreviation put T n := (write_number T le use_bjdata n).

Definition with_prefix (add_prefix : bool) (prefix : Z) (bs : cstring) : cstring :=
  if add_prefix then prefix :: bs else bs.

Definition get_ubjson_float_prefix : Z := mark_double.

Definition write_ubjson_float (n : spec_float) (add_prefix : bool) : cstring :=
  with_prefix add_prefix get_ubjson_float_prefix (put float64 n).

(** The prefix of an unsigned number and its type; [None] for one that is
    written as a text. *)
Definition ubjson_unsigned_type (n : Z) : option (Z * number_type Z) :=
  if n <=? 2 ^ 7 - 1 then Some (mark_int8, uint8)
  else if n <=? 2 ^ 8 - 1 then Some (mark_uint8, uint8)
  else if n <=? 2 ^ 15 - 1 then Some (mark_int16, int16)
  else if use_bjdata && (n <=? 2 ^ 16 - 1) then Some (mark_uint16, uint16)
  else if n <=? 2 ^ 31 - 1 then Some (mark_int32, int32)
  else if use_bjdata && (n <=? 2 ^ 32 - 1) then Some (mark_uint32, uint32)
  else if n <=? 2 ^ 63 - 1 then Some (mark_int64, int64)
  else if use_bjdata && (n <=? 2 ^ 64 - 1) then Some (mark_uint64, uint64)
  else None.

Definition in_limits (low high n : Z) : bool := (low <=? n) && (n <=? high).

Definition ubjson_signed_type (n : Z) : option (Z * number_type Z) :=
  if in_limits (- 2 ^ 7) (2 ^ 7 - 1) n then Some (mark_int8, int8)
  else if in_limits 0 (2 ^ 8 - 1) n then Some (mark_uint8, uint8)
  else if in_limits (- 2 ^ 15) (2 ^ 15 - 1) n then Some (mark_int16, int16)
  else if use_bjdata && in_limits 0 (2 ^ 16 - 1) n then Some (mark_uint16, uint16)
  else if in_limits (- 2 ^ 31) (2 ^ 31 - 1) n then Some (mark_int32, int32)
  else if use_bjdata && in_limits 0 (2 ^ 32 - 1) n then Some (mark_uint32, uint32)
  else if in_limits (- 2 ^ 63) (2 ^ 63 - 1) n then Some (mark_int64, int64)
  else None.

(** [write_number_with_ubjson_prefix] for unsigned numbers.  The length of the
    text of a number is written by the same function, without a text again. *)
Fixpoint write_ubjson_unsigned (depth : nat) (n : Z) (add_prefix : bool) :
    outcome json_exn cstring :=
  match ubjson_unsigned_type n with
  | Some (prefix, T) => Ret (with_prefix add_prefix prefix (put T n))
  | None =>
      match depth with
      | O => Diverge
      | S depth' =>
          number ← json_dump (-1) 32 false strict (J_number_unsigned n);
          size ← write_ubjson_unsigned depth' (Z.of_nat (length number)) true;
          Ret (with_prefix add_prefix mark_high (size ++ number))
      end
  end.

Definition write_ubjson_size (n : Z) : outcome json_exn cstring := write_ubjson_unsigned 1 n true.

Definition write_ubjson_signed (n : Z) (add_prefix : bool) : outcome json_exn cstring :=
  match ubjson_signed_type n with
  | Some (prefix, T) => Ret (with_prefix add_prefix prefix (put T n))
  | None =>
      number ← json_dump (-1) 32 false strict (J_number_integer n);
      size ← write_ubjson_size (Z.of_nat (length number));
      Ret (with_prefix add_prefix mark_high (size ++ number))
  end.

(** [ubjson_prefix]. *)
Definition ubjson_prefix (j : json) : Z :=
  let prefix_of t := match t with Some (prefix, _) => prefix | None => mark_high end in
  match j with
  | J_null => mark_null
  | J_boolean b => if b then mark_true else mark_false
  | J_number_integer n => prefix_of (ubjson_signed_type n)
  | J_number_unsigned n => prefix_of (ubjson_unsigned_type n)
  | J_number_float _ => get_ubjson_float_prefix
  | J_string _ => mark_string
  | J_array _ | J_binary _ _ => mark_array
  | J_object _ => mark_object
  | J_discarded => mark_noop
  end.

(** The type that the elements of a container share, if it may be written
    instead of their prefixes. *)
Definition common_type (l : list json) : option Z :=
  match l with
  | [] => None
  | v :: l' =>
      let first_prefix := ubjson_prefix v in
      if forallb (λ v, ubjson_prefix v =? first_prefix) l' &&
         negb (use_bjdata && bool_decide (first_prefix ∈
           [mark_array; mark_object; mark_string; mark_high; mark_true; mark_false; mark_noop; mark_null]))
      then Some first_prefix
      else None
  end.

(** The elements of an n-dimensional array, each read as the member of the
    union that its type calls for. *)
Definition write_ndarray_element (dtype : Z) (el : json) : outcome json_exn cstring :=
  bits ← value_bits el;
  let unsigned T := Ret (write_number T le true bits) in
  let signed T := Ret (write_number T le true (wrap_s 64 bits)) in
  if (dtype =? mark_uint8) || (dtype =? mark_char) then unsigned uint8
  else if dtype =? mark_int8 then signed int8
  else if dtype =? mark_uint16 then unsigned uint16
  else if dtype =? mark_int16 then signed int16
  else if dtype =? mark_uint32 then unsigned uint32
  else if dtype =? mark_int32 then signed int32
  else if dtype =? mark_uint64 then unsigned uint64
  else if dtype =? mark_int64 then signed int64
  else if dtype =? mark_float then Ret (write_number float32 le true (to_float (bits_float 53 1024 bits)))
  else if dtype =? mark_double then Ret (write_number float64 le true (bits_float 53 1024 bits))
  else Ret [].

Fixpoint write_all {A} (f : A → outcome json_exn cstring) (l : list A) : outcome json_exn cstring :=
  match l with
  | [] => Ret []
  | x :: l' => bs ← f x; rest ← write_all f l'; Ret (bs ++ rest)
  end.

Fixpoint dimensions_product (dims : list json) (len : Z) : outcome json_exn Z :=
  match dims with
  | [] => Ret len
  | el :: dims' => n ← value_bits el; dimensions_product dims' (wrap_u 64 (len * n))
  end.

(** [write_bjdata_ndarray]: what is written, or [None] if the object is no
    valid n-dimensional array; [array_size] writes its dimensions. *)
Definition write_bjdata_ndarray (array_type array_sizes array_data : json)
    (array_size : outcome json_exn cstring) : outcome json_exn (option cstring) :=
  name ← get_std_string array_type;
  match bjdtype name with
  | None => Ret None
  | Some dtype =>
      len ← dimensions_product (range_of array_sizes) (if bool_decide (range_of array_sizes = []) then 0 else 1);
      if negb (Z.of_nat (length (range_of array_data)) =? len) then Ret None
      else
        dims ← array_size;
        data ← write_all (write_ndarray_element dtype) (range_of array_data);
        Ret (Some (mark_array :: mark_type :: dtype :: mark_count :: dims ++ data))
  end.

(** What is written of a container besides its elements: the common type, the
    count, or the end marker if there is none. *)
Definition type_prefix (type : option Z) : cstring :=
  match type with Some ty => [mark_type; ty] | None => [] end.

Definition container_count (use_count : bool) (n : Z) : outcome json_exn cstring :=
  if use_count then size ← write_ubjson_size n; Ret (mark_count :: size) else Ret [].

Definition container_end (use_count : bool) (marker : Z) : cstring :=
  if use_count then [] else [marker].

Definition prefix_required (type : option Z) : bool :=
  match type with Some _ => false | None => true end.

(** [write_ubjson]. *)
Fixpoint write_ubjson (use_count use_type : bool) (j : json) (add_prefix : bool) :
    outcome json_exn cstring :=
  match j with
  | J_null => Ret (with_prefix add_prefix mark_null [])
  | J_boolean b => Ret (with_prefix add_prefix (if b then mark_true else mark_false) [])
  | J_number_integer n => write_ubjson_signed n add_prefix
  | J_number_unsigned n => write_ubjson_unsigned 1 n add_prefix
  | J_number_float n => Ret (write_ubjson_float n add_prefix)
  | J_string s =>
      size ← write_ubjson_size (Z.of_nat (length s));
      Ret (with_prefix add_prefix mark_string (size ++ s))
  | J_array l =>
      assert (negb (use_type && negb (bool_decide (l = []))) || use_count) (
      let type := if use_type then common_type l else None in
      count ← container_count use_count (Z.of_nat (length l));
      elements ← write_all (λ el, write_ubjson use_count use_type el (prefix_required type)) l;
      Ret (with_prefix add_prefix mark_array
             (type_prefix type ++ count ++ elements ++ container_end use_count mark_end_array)))
  | J_binary b _ =>
      assert (negb (use_type && negb (bool_decide (b = []))) || use_count) (
      let type := if use_type && negb (bool_decide (b = [])) then Some mark_uint8 else None in
      count ← container_count use_count (Z.of_nat (length b));
      Ret (with_prefix add_prefix mark_array
             (type_prefix type ++ count ++
              (if use_type then b else flat_map (λ c, [mark_uint8; c]) b) ++
              container_end use_count mark_end_array)))
  | J_object m =>
      let write_object :=
        assert (negb (use_type && negb (bool_decide (m = []))) || use_count) (
        let type := if use_type then common_type (map snd m) else None in
        count ← container_count use_count (Z.of_nat (length m));
        members ← write_all (λ kv,
          size ← write_ubjson_size (Z.of_nat (length kv.1));
          el ← write_ubjson use_count use_type kv.2 (prefix_required type);
          Ret (size ++ kv.1 ++ el)) m;
        Ret (with_prefix add_prefix mark_object
               (type_prefix type ++ count ++ members ++ container_end use_count mark_end_object))) in
      if use_bjdata && (length m =? 3)%nat then
        match with_member (str "_ArrayType_") id m, with_member (str "_ArraySize_") id m,
              with_member (str "_ArrayData_") id m,
              with_member (str "_ArraySize_") (λ v, write_ubjson use_count use_type v true) m with
        | Some ty, Some sizes, Some data, Some dims =>
            written ← write_bjdata_ndarray ty sizes data dims;
            match written with Some bs => Ret bs | None => write_object end
        | _, _, _, _ => write_object
        end
      else write_object
  | J_discarded => Ret []
  end.
End writer.

(** [to_ubjson] and [to_bjdata]. *)
Definition to_ubjson (host_le : bool) (j : json) (use_size use_type : bool) :
    outcome json_exn cstring :=
  write_ubjson (little_endianness host_le 1) false use_size use_type j true.

Definition to_bjdata (host_le : bool) (j : json) (use_size use_type : bool) :
    outcome json_exn cstring :=
  write_ubjson (little_endianness host_le 1) true use_size use_type j true.
