(* ===== verification/UbjsonFacts.v ===== *)
(** UBJSON and BJData: what is written is read back, up to what the formats do
    not tell apart, in each of the layouts of containers. *)

From S2P Require Import Prelude Double JsonValue JsonLexer JsonLexerFacts JsonTokens JsonNumbers.
From S2P Require Import JsonParser JsonParserFacts JsonGrammar JsonSerializer JsonIntegerText JsonRoundTrip.
From S2P Require Import JsonTyping.
From S2P Require Import BinaryNumbers BinaryNumbersFacts BinaryReader BinaryReaderFacts Cbor Ubjson.

(** * Values up to the format *)

(** The integers that are read as unsigned ones: those whose marker says so. *)
Definition reads_unsigned (bjdata : bool) (z : Z) : bool :=
  in_limits 128 255 z || (bjdata && (in_limits (2 ^ 15) (2 ^ 16 - 1) z || in_limits (2 ^ 31) (2 ^ 32 - 1) z)) ||
  (2 ^ 63 <=? z).

Definition ubjson_number (bjdata : bool) (z : Z) : json :=
  if reads_unsigned bjdata z then J_number_unsigned z else J_number_integer z.

(** Byte arrays are read as arrays of numbers. *)
Definition ubjson_leaf (bjdata : bool) (j : json) : json :=
  match j with
  | J_number_integer z | J_number_unsigned z => ubjson_number bjdata z
  | J_binary b _ => J_array (map J_number_unsigned b)
  | _ => j
  end.

(** Objects that BJData takes for n-dimensional arrays. *)
Definition node_no_ndarray (bjdata : bool) (j : json) : bool :=
  match j with
  | J_object m =>
      negb (bjdata && (length m =? 3)%nat &&
            forallb (λ k, existsb (λ kv, cs_eqb kv.1 (str k)) m)
              ["_ArrayType_"; "_ArraySize_"; "_ArrayData_"]%string)
  | _ => true
  end.

(** The byte behind which nothing is skipped. *)
Lemma get_ignore_noop_get (r : reader dom) c q :
  ia r = c :: q → c ≠ mark_noop → get_ignore_noop r = get r.
Proof.
  intros Hr Hc. unfold get_ignore_noop. cbn [get_ignore_noop_loop]. rewrite rd_bind_run. unfold get.
  rewrite Hr. cbn [mbind outcome_bind]. by decide_test (c =? 78) false.
Qed.

Lemma ran_noop {B} c (f : Z → rd dom B) (r : reader dom) q b q' s' :
  ia r = c :: q → c ≠ mark_noop →
  (∀ r', ia r' = q → r_sax r' = r_sax r → current r' = c → ran (f c) r' b q' s') →
  ran (get_ignore_noop ≫= f) r b q' s'.
Proof.
  intros Hr Hc Hf. eapply ran_eq; [|by eapply ran_get; [exact Hr|]].
  by rewrite !rd_bind_run, (get_ignore_noop_get r c q).
Qed.

(** * The end of a text

    Scanning up to the end of a text leaves the numbers of the lexer as they
    are. *)

Definition lexer_numbers (lx : lexer) : Z * Z * spec_float :=
  (value_integer lx, value_unsigned lx, value_float lx).

Lemma get_numbers lx c lx' : JsonLexer.get lx = (c, lx') → lexer_numbers lx' = lexer_numbers lx.
Proof. unfold JsonLexer.get. destruct (if next_unget lx then _ else _). by intros [= <- <-]. Qed.

Lemma unget_numbers lx : ensures (unget lx) (λ lx', lexer_numbers lx' = lexer_numbers lx).
Proof. unfold unget. case_if; [|done]. by apply ensures_assert. Qed.

Ltac keeps_numbers :=
  repeat match goal with
  | |- context [JsonLexer.get ?lx] =>
      let E := fresh in destruct (JsonLexer.get lx) eqn:E; apply get_numbers in E
  end.

Lemma skip_whitespace_numbers lx :
  ensures (skip_whitespace lx) (λ lx', lexer_numbers lx' = lexer_numbers lx).
Proof.
  unfold skip_whitespace. generalize (input_fuel lx). intros fuel. revert lx.
  induction fuel as [|fuel IH]; intros lx; cbn [skip_whitespace_loop]; [done|].
  keeps_numbers. case_if; [|done]. eapply ensures_mono; [apply IH|]. intros lx' Hl. cbn [ensures fst snd] in *. congruence.
Qed.

Lemma scan_comment_numbers lx :
  ensures (scan_comment lx) (λ r, lexer_numbers r.2 = lexer_numbers lx).
Proof.
  assert (∀ body, (∀ lx, ensures (body lx) (λ s, match s with Go lx' | Stop _ lx' =>
      lexer_numbers lx' = lexer_numbers lx end)) →
    ∀ fuel lx, ensures (loop fuel body lx) (λ r, lexer_numbers r.2 = lexer_numbers lx)) as Hloop.
  { intros body Hb fuel. induction fuel as [|fuel IH]; intros lx'; cbn [loop]; [done|].
    eapply ensures_bind; [apply Hb|]. intros [lx2|t lx2] H2; [|done].
    eapply ensures_mono; [apply IH|]. intros r Hr. cbn [ensures fst snd] in *. congruence. }
  unfold scan_comment. keeps_numbers. case_if; [|case_if; [|done]].
  - eapply ensures_bind; [apply Hloop|].
    + intros lx'. unfold scan_line_comment_step. keeps_numbers. by case_if.
    + intros [t lx'] Ht. cbn [ensures fst snd] in *. congruence.
  - eapply ensures_bind; [apply Hloop|].
    + intros lx'. unfold scan_block_comment_step. keeps_numbers. case_if; [done|].
      case_if; [|done]. keeps_numbers. case_if; [cbn [ensures]; congruence|].
      eapply ensures_bind; [apply unget_numbers|]. intros lx2 Hl2. cbn [ensures]. congruence.
    + intros [t lx'] Ht. cbn [ensures fst snd] in *. congruence.
Qed.

Lemma skip_comments_numbers fuel lx :
  ensures (skip_comments fuel lx) (λ r, lexer_numbers r.2 = lexer_numbers lx).
Proof.
  revert lx. induction fuel as [|fuel IH]; intros lx; cbn [skip_comments]; [done|].
  case_if; [|done]. eapply ensures_bind; [apply scan_comment_numbers|]. intros [[] lx1] H1; [|done].
  eapply ensures_bind; [apply skip_whitespace_numbers|]. intros lx2 H2.
  eapply ensures_mono; [apply IH|]. intros r Hr. cbn [ensures fst snd] in *. congruence.
Qed.

(** Only the end of the input is reported as such. *)
Lemma scan_token_end lx :
  ensures (scan_token lx) (λ r, r.1 = token_type.end_of_input → r.2 = lx).
Proof.
  assert (∀ lit t, t ≠ token_type.end_of_input →
    ensures (scan_literal lit t lx) (λ r, r.1 = token_type.end_of_input → r.2 = lx)) as Hlit.
  { intros lit t Ht. unfold scan_literal. destruct (str lit) as [|l rest]; [done|].
    apply ensures_assert. intros _. cbn [ensures]. intros He. exfalso. revert He. generalize lx.
    induction rest as [|c rest IH]; intros lx'; cbn [scan_literal_loop fst snd]; [done|].
    destruct (JsonLexer.get lx') as [c' lx2]. case_if; [done|apply IH]. }
  unfold scan_token. do 6 (case_if; [done|]). do 3 (case_if; [by apply Hlit|]).
  case_if; [|case_if; [|by case_if]].
  - unfold scan_string. apply ensures_assert. intros _.
    eapply ensures_mono; [apply loop_typed; [apply scan_string_step_typed|done]|].
    intros [t lx'] Hs He. simpl in *. by subst t.
  - assert (∀ fuel s nt lx', ensures (scan_number_loop fuel s nt lx')
      (λ r, r.1 = token_type.end_of_input → r.2 = lx)) as Hl.
    { induction fuel as [|fuel IH]; intros s nt lx'; [done|]. cbn [scan_number_loop].
      destruct (scan_number_step s lx'); [apply IH| |done]. unfold scan_number_done.
      eapply ensures_bind; [apply ensures_true|]. intros lx2 _. cbv zeta.
      destruct (c_strtod _ _), (c_strtoull _) as [[? []] ?], (c_strtoll _) as [[? []] ?];
        destruct (number_type_at s nt); repeat (apply ensures_assert; intros _); done. }
    unfold scan_number. cbv zeta. repeat (case_if; [apply Hl|]). done.
Qed.

Lemma scan_end_numbers lx lx' :
  scan lx = Ret (token_type.end_of_input, lx') → lexer_numbers lx' = lexer_numbers lx.
Proof.
  intros Hs. assert (ensures (scan lx) (λ r, r.1 = token_type.end_of_input →
    lexer_numbers r.2 = lexer_numbers lx)) as He; [|rewrite Hs in He; by apply He].
  unfold scan. apply (ensures_bind _ _ (λ r : bool * lexer, lexer_numbers r.2 = lexer_numbers lx)).
  { case_if; [|done]. unfold skip_bom. keeps_numbers.
    case_if; [keeps_numbers; case_if; [keeps_numbers|]|]; cbn [ensures snd]; try congruence.
    eapply ensures_bind; [apply unget_numbers|]. intros lx2 Hl2. cbn [ensures snd]. congruence. }
  intros [b lx1] H1. cbn [snd] in H1. case_if; [done|]. eapply ensures_bind; [apply skip_whitespace_numbers|]. intros lx2 H2.
  eapply ensures_bind; [apply skip_comments_numbers|]. intros [[] lx3] H3; [|done].
  eapply ensures_mono; [apply scan_token_end|]. intros r Hr Ht. rewrite Hr by done. cbn [ensures fst snd] in *. congruence.
Qed.

Section ubjson.
  Context (le : bool) (fmt : input_format_t) (dp : Z) (Hdp : dp_ok dp = true).
  Context (bj : bool) (Hbj : bool_decide (fmt = F_bjdata) = bj).

Abbreviation put T n := (write_number T le bj n).

(** * Numbers *)

(** A number of the type [T] is read from [bs]. *)
Definition number_read (T : number_type Z) (bs : cstring) (n : Z) : Prop :=
  ∀ (r : reader dom) q, ia r = bs ++ q → ran (get_number T false fmt) r (true, n) q (r_sax r).

Lemma number_read_as T T' n :
  sizeof T = sizeof T' → of_bits T' (to_bits T n mod 2 ^ (8 * Z.of_nat (sizeof T))) = n →
  number_read T' (put T n) n.
Proof.
  intros Hsz Hn r q Hr. eapply (ran_number_as T T' le false); [|done|exact Hn]. by rewrite Hbj.
Qed.

Lemma uint_as_int8 n : 0 ≤ n < 128 → number_read int8 (put uint8 n) n.
Proof.
  intros Hn. apply number_read_as; [done|]. cbn [of_bits to_bits int8 uint8 sint uint sizeof].
  unfold id. rewrite Z.mod_small by (simpl; lia). apply wrap_s_small; [lia|].
  change (in_s 8 n = true). unfold in_s. change (8 - 1) with 7. lia.
Qed.

Lemma number_read_uint sz n : 0 ≤ n < 2 ^ (8 * Z.of_nat sz) → number_read (uint sz) (put (uint sz) n) n.
Proof. intros Hn. apply number_read_as; [done|]. by apply uint_bits. Qed.

Lemma number_read_sint sz n :
  (0 < sz)%nat → - 2 ^ (8 * Z.of_nat sz - 1) ≤ n < 2 ^ (8 * Z.of_nat sz - 1) →
  number_read (sint sz) (put (sint sz) n) n.
Proof. intros Hsz Hn. apply number_read_as; [done|]. by apply sint_bits. Qed.

(** The markers of numbers, with the type they are read as. *)
Definition signed_markers : list (Z * number_type Z) :=
  [(mark_int8, int8); (mark_int16, int16); (mark_int32, int32); (mark_int64, int64)].

Definition unsigned_markers : list (Z * number_type Z) :=
  (mark_uint8, uint8) ::
  if bj then [(mark_uint16, uint16); (mark_uint32, uint32); (mark_uint64, uint64)] else [].

(** What is written of [z] besides its marker is read back. *)
Definition marked (z : Z) (prefix : Z) (bs : cstring) (unsigned : bool) : Prop :=
  ∃ T, In (prefix, T) (if unsigned then unsigned_markers else signed_markers) ∧ number_read T bs z.

Lemma bj_cases : bj = true ∨ bj = false.
Proof. destruct bj; auto. Qed.

(** One case of the choice of a type. *)
Ltac marked_case lemma :=
  match goal with
  | |- marked ?z _ _ ?b =>
      let E := fresh "E" in let Hb := fresh "Hb" in
      destruct b eqn:E; unfold reads_unsigned, in_limits in E;
      destruct bj_cases as [Hb|Hb];
      rewrite Hb in E; cbn [andb] in E;
      repeat match goal with H : context [bj && _] |- _ => rewrite Hb in H; cbn [andb] in H end;
      try (exfalso; congruence); try (exfalso; lia); eexists; (split; [|lemma]); unfold unsigned_markers;
      try rewrite Hb;
      solve [repeat first [left; reflexivity | right]]
  end.

Lemma unsigned_type_read z prefix T :
  0 ≤ z < 2 ^ 64 → ubjson_unsigned_type bj z = Some (prefix, T) →
  marked z prefix (put T z) (reads_unsigned bj z).
Proof.
  intros Hz. unfold ubjson_unsigned_type.
  case_if; [intros [= <- <-]; marked_case ltac:(apply uint_as_int8; lia)|].
  case_if; [intros [= <- <-]; marked_case ltac:(apply (number_read_uint 1); simpl; lia)|].
  case_if; [intros [= <- <-]; marked_case ltac:(apply (number_read_sint 2); simpl; lia)|].
  case_if; [intros [= <- <-]; marked_case ltac:(apply (number_read_uint 2); simpl; lia)|].
  case_if; [intros [= <- <-]; marked_case ltac:(apply (number_read_sint 4); simpl; lia)|].
  case_if; [intros [= <- <-]; marked_case ltac:(apply (number_read_uint 4); simpl; lia)|].
  case_if; [intros [= <- <-]; marked_case ltac:(apply (number_read_sint 8); simpl; lia)|].
  case_if; [intros [= <- <-]; marked_case ltac:(apply (number_read_uint 8); simpl; lia)|].
  done.
Qed.

Lemma signed_type_read z prefix T :
  - 2 ^ 63 ≤ z < 2 ^ 63 → ubjson_signed_type bj z = Some (prefix, T) →
  marked z prefix (put T z) (reads_unsigned bj z).
Proof.
  intros Hz. unfold ubjson_signed_type, in_limits.
  case_if; [intros [= <- <-]; marked_case ltac:(apply (number_read_sint 1); simpl; lia)|].
  case_if; [intros [= <- <-]; marked_case ltac:(apply (number_read_uint 1); simpl; lia)|].
  case_if; [intros [= <- <-]; marked_case ltac:(apply (number_read_sint 2); simpl; lia)|].
  case_if; [intros [= <- <-]; marked_case ltac:(apply (number_read_uint 2); simpl; lia)|].
  case_if; [intros [= <- <-]; marked_case ltac:(apply (number_read_sint 4); simpl; lia)|].
  case_if; [intros [= <- <-]; marked_case ltac:(apply (number_read_uint 4); simpl; lia)|].
  case_if; [intros [= <- <-]; marked_case ltac:(apply (number_read_sint 8); simpl; lia)|].
  done.
Qed.

(** * Sizes *)

Lemma marked_length z prefix bs unsigned :
  marked z prefix bs unsigned → ∃ T, length_type fmt prefix = Some T ∧ number_read T bs z.
Proof.
  intros (T & Hin & Hr). exists T. split; [|done]. unfold length_type. rewrite Hbj.
  unfold signed_markers, unsigned_markers in Hin.
  destruct unsigned, bj_cases as [Hb|Hb]; rewrite Hb in *; simpl in Hin;
    repeat (destruct Hin as [[= <- <-]|Hin]; [done|]); done.
Qed.

(** A length or a count as it is written. *)
Definition size_text (n : Z) (t : cstring) : Prop :=
  ∃ prefix bs T, t = prefix :: bs ∧ length_type fmt prefix = Some T ∧ number_read T bs n.

Lemma size_written n : 0 ≤ n < 2 ^ 63 → ∃ t, write_ubjson_size le bj n = Ret t ∧ size_text n t.
Proof.
  intros Hn. unfold write_ubjson_size. cbn [write_ubjson_unsigned].
  destruct (ubjson_unsigned_type bj n) as [[prefix T]|] eqn:E.
  - eexists. split; [done|]. cbn [with_prefix].
    destruct (marked_length _ _ _ _ (unsigned_type_read n prefix T ltac:(lia) E)) as (T' & HT & Hr).
    by exists prefix, (put T n), T'.
  - exfalso. revert E. unfold ubjson_unsigned_type. repeat (case_if; [done|]). to_prop. lia.
Qed.

(** What a marker of a length is not. *)
Lemma length_type_marker c T : length_type fmt c = Some T →
  c ≠ mark_noop ∧ c ≠ mark_type ∧ c ≠ mark_count ∧ c ≠ mark_end_array ∧ c ≠ mark_end_object ∧
  c ≠ 0 ∧ is_byte c = true.
Proof.
  unfold length_type. intros Hc.
  assert (In c [85; 105; 73; 108; 76; 117; 109; 77]) as Hin.
  { revert Hc. repeat (case_if; to_prop; [intros _; subst; simpl; tauto|]). done. }
  simpl in Hin. repeat (destruct Hin as [<-|Hin]; [repeat split; done|]). done.
Qed.

(** A string behind its length, whose marker was read. *)
Lemma ran_ubjson_string_at s t (r : reader dom) q :
  forallb is_byte s = true → size_text (Z.of_nat (length s)) t →
  current r :: ia r = t ++ s ++ q → ran (get_ubjson_string fmt false []) r (true, s) q (r_sax r).
Proof.
  intros Hs (prefix & bs & T & -> & HT & Hn) Hr. injection Hr as Hc Hr.
  unfold get_ubjson_string. eapply ran_eq; [reflexivity|]. apply ran_last. cbv beta.
  destruct (length_type_marker _ _ HT) as (_ & _ & _ & _ & _ & _ & Hb).
  apply ran_unexpect; [by rewrite Hc|]. cbn [negb]. apply ran_last. rewrite Hc, HT.
  eapply ran_and_set; [by apply Hn|]. intros r1 Hr1 <-. by apply ran_string.
Qed.

Lemma ran_ubjson_string s t (r : reader dom) q :
  forallb is_byte s = true → size_text (Z.of_nat (length s)) t →
  ia r = t ++ s ++ q → ran (get_ubjson_string fmt true []) r (true, s) q (r_sax r).
Proof.
  intros Hs Ht Hr. pose proof Ht as (prefix & bs & T & -> & _ & _). cbn [app] in Hr.
  unfold get_ubjson_string. eapply ran_get; [exact Hr|]. intros r1 Hr1 <- Hc.
  eapply ran_eq; [|apply (ran_ubjson_string_at s (prefix :: bs) r1 q Hs Ht); cbn [app]; by rewrite Hc, Hr1].
  done.
Qed.

(** A count. *)
Lemma ran_size_value is_ndarray n t (r : reader dom) q :
  0 ≤ n < 2 ^ 64 → size_text n t → ia r = t ++ q →
  ran (get_ubjson_size_value fmt is_ndarray 0) r (true, (n, is_ndarray)) q (r_sax r).
Proof.
  intros Hn (prefix & bs & T & -> & HT & Hr) Hia. unfold get_ubjson_size_value.
  eapply ran_eq; [reflexivity|]. cbn [Nat.add get_ubjson_size_loop]. unfold get_ubjson_size_step.
  cbn [Z.eqb]. destruct (length_type_marker _ _ HT) as (Hnoop & _).
  eapply ran_noop; [exact Hia|done|]. intros r1 Hr1 <- _. rewrite HT. unfold get_ubjson_count.
  eapply ran_bind; [by apply Hr|]. intros r2 <- <-. cbv beta iota. cbn [negb].
  decide_test (n <? 0) false. assert (in_u 64 n = true) as -> by (unfold in_u; lia). cbn [negb].
  apply ran_ret.
Qed.

(** * High-precision numbers *)

(** The text of a number and what the lexer makes of it. *)
Lemma scan_decimal n :
  in_u 64 n = true →
  ∃ lx lx', scan (init_lexer dp (decimal n) false) = Ret (token_type.value_unsigned, lx) ∧
    scan lx = Ret (token_type.end_of_input, lx') ∧ value_unsigned lx' = n.
Proof.
  intros Hn. pose proof (number_json_unsigned n Hn) as Hj. pose proof Hn as Hn'. unfold in_u in Hn'. to_prop.
  destruct (decimal_spec n) as (c & d & Hdec & Hdig & _ & _); [lia|].
  pose proof (decimal_bytes n ltac:(lia)) as Hb. rewrite Hdec in *.
  assert (is_digit c = true) as Hc by (unfold all_digits in Hdig; cbn [forallb] in Hdig; by to_prop).
  pose proof (init_lexer_at dp false (c :: d) Hb) as Hat.
  assert (is_space c = false ∧ c ≠ 47 ∧ c ≠ 0xEF) as (Hs & H47 & HEF)
    by (unfold is_digit, in_range, is_space in *; to_prop; repeat split; lia).
  destruct (scan_to_token dp false [] c d [] _ eq_refl Hs H47 HEF Hat) as (lx1 & E1 & Hat1 & Hr1).
  rewrite <- (app_nil_r d) in Hat1.
  destruct (scan_number_ok dp false Hdp c d _ [] [] lx1 Hj eq_refl Hat1 Hr1) as (tk & lx2 & tb & E2 & Ht & Hat2).
  destruct Ht as [-> Hv]. destruct (scan_to_end dp false [] tb lx2 eq_refl Hat2) as (lx3 & E3).
  exists lx2, lx3. split; [|split; [done|]].
  - rewrite E1. unfold scan_token. destruct Hr1 as [_ ->].
    rewrite <- E2. unfold is_digit, in_range in *. to_prop. unfold eof. cbv zeta.
    repeat match goal with |- context [c =? ?k] => decide_test (c =? k) false end.
    by decide_test ((48 <=? c) && (c <=? 57)) true.
  - apply scan_end_numbers in E3. injection E3 as _ E3 _. congruence.
Qed.

Lemma reads_high_precision n t :
  in_u 64 n = true → size_text (Z.of_nat (length (decimal n))) t →
  reads_value (get_ubjson_high_precision_number fmt dp) (t ++ decimal n) (J_number_unsigned n).
Proof.
  intros Hn Ht r q p ref Hr Hslot. rewrite <- app_assoc in Hr.
  assert (0 ≤ n < 2 ^ 64) as Hn' by (unfold in_u in Hn; to_prop; lia).
  pose proof (decimal_length n Hn') as Hlen.
  destruct (ran_size_value true (Z.of_nat (length (decimal n))) t r _ ltac:(lia) Ht Hr) as (r1 & Hm1 & Hq1 & Hs1).
  destruct (ran_bytes fmt "number" (decimal n) [] r1 q) as (r2 & Hm2 & Hq2 & Hs2).
  { apply decimal_bytes. lia. }
  { exact Hq1. }
  assert (r_sax r2 = r_sax r) as Hs by congruence. rewrite <- Hs in *.
  destruct (ran_value (J_number_unsigned n) r2 p ref Hslot) as (d & (r3 & Hm3 & Hq3 & Hd3) & Hw).
  exists d. split; [|done]. exists r3. split; [|split; [congruence|done]].
  unfold get_ubjson_high_precision_number. rewrite rd_bind_run, Hm1. cbn [mbind outcome_bind negb].
  unfold and_then. rewrite rd_bind_run, Hm2. cbn [mbind outcome_bind app]. unfold emit_high_precision.
  destruct (scan_decimal n Hn) as (lx & lx' & -> & E2 & Hv). cbn [mbind outcome_bind]. rewrite E2.
  cbn [mbind outcome_bind]. rewrite bool_decide_eq_true_2 by done. cbn [negb]. rewrite Hv. exact Hm3.
Qed.

(** * The size and the type of a container *)

Lemma size_type_none size_value inside c (r : reader dom) q :
  ia r = c :: q → c ≠ mark_noop → c ≠ mark_type → c ≠ mark_count →
  ∃ r1, get_ubjson_size_type fmt size_value inside r = Ret ((true, (npos, 0)), r1) ∧
    ia r1 = q ∧ current r1 = c ∧ r_sax r1 = r_sax r.
Proof.
  intros Hr H1 H2 H3. unfold get_ubjson_size_type.
  rewrite rd_bind_run, (get_ignore_noop_get r c q) by done. unfold get. rewrite Hr.
  cbn [mbind outcome_bind]. decide_test (c =? 36) false. decide_test (c =? 35) false. by eexists.
Qed.

Lemma size_type_count n t (r : reader dom) q :
  0 ≤ n < 2 ^ 64 → size_text n t → ia r = mark_count :: t ++ q →
  ran (get_ubjson_size_type fmt (get_ubjson_size_value fmt) false) r (true, (n, 0)) q (r_sax r).
Proof.
  intros Hn Ht Hr. unfold get_ubjson_size_type. eapply ran_noop; [exact Hr|done|].
  intros r1 Hr1 <- _. cbn [Z.eqb Pos.eqb]. eapply ran_bind; [by eapply ran_size_value|].
  intros r2 <- <-. cbv beta iota. rewrite andb_false_r. apply ran_ret.
Qed.

Lemma size_type_typed n ty t (r : reader dom) q :
  0 ≤ n < 2 ^ 64 → size_text n t → is_byte ty = true →
  bj && bool_decide (ty ∈ bjd_optimized_type_markers) = false →
  ia r = mark_type :: ty :: mark_count :: t ++ q →
  ran (get_ubjson_size_type fmt (get_ubjson_size_value fmt) false) r (true, (n, ty)) q (r_sax r).
Proof.
  intros Hn Ht Hty Hex Hr. unfold get_ubjson_size_type. eapply ran_noop; [exact Hr|done|].
  intros r1 Hr1 <- _. cbn [Z.eqb Pos.eqb]. eapply ran_get; [exact Hr1|]. intros r2 Hr2 <- Hc2.
  rewrite Hbj, Hex. apply ran_unexpect; [by rewrite Hc2|]. cbn [negb].
  eapply ran_noop; [exact Hr2|done|]. intros r3 Hr3 <- _. cbn [Z.eqb Pos.eqb negb].
  eapply ran_bind; [by eapply ran_size_value|]. intros r4 <- <-. cbv beta iota.
  rewrite andb_false_r. apply ran_ret.
Qed.

(** * Loops up to a marker *)

(** [es] are the elements to come, [I es d] the state of the builder then. *)
Lemma ran_while {X} stop (body : rd dom bool) (enc : X → cstring) (P : X → Prop)
    (I : list X → dom → Prop) q :
  stop ≠ mark_noop →
  (∀ e, P e → ∃ c t, enc e = c :: t ∧ c ≠ stop ∧ c ≠ mark_noop) →
  (∀ e es (r : reader dom) q', P e → I (e :: es) (r_sax r) → current r :: ia r = enc e ++ q' →
     ∃ d, ran body r true q' d ∧ I es d) →
  ∀ es, Forall P es → ∀ fuel (r : reader dom), (length es < fuel)%nat →
    current r :: ia r = concat (map enc es) ++ stop :: q → I es (r_sax r) →
    ∃ d, ran (while_not fuel stop body) r true q d ∧ I [] d.
Proof.
  intros Hstop Henc Hstep es Hes. induction Hes as [|e es He0 Hes IH]; intros fuel r Hf Hr HI;
    (destruct fuel as [|fuel]; [simpl in Hf; lia|]); cbn [while_not].
  - injection Hr as Hc <-. exists (r_sax r). split; [|done]. apply ran_last. rewrite Hc, Z.eqb_refl.
    apply ran_ret.
  - cbn [map concat] in Hr. rewrite <- app_assoc in Hr.
    destruct (Hstep e es r _ He0 HI Hr) as (d1 & (r1 & Hm1 & Hq1 & <-) & HI1).
    destruct (Henc e He0) as (c & t & He & Hc & _). rewrite He in Hr. injection Hr as Hcur _.
    assert (∃ c' q1, concat (map enc es) ++ stop :: q = c' :: q1 ∧ c' ≠ mark_noop) as (c' & q1 & Hq' & Hc').
    { destruct Hes as [|e' es He1 _]; [by do 2 eexists|]. destruct (Henc e' He1) as (c' & t' & He' & _ & Hc').
      cbn [map concat]. rewrite He'. by do 2 eexists. }
    rewrite Hq' in Hq1.
    assert (∃ r2, get_ignore_noop r1 = Ret (c', r2) ∧ current r2 :: ia r2 = c' :: q1 ∧ r_sax r2 = r_sax r1)
      as (r2 & Hm2 & Hr2 & Hs2).
    { rewrite (get_ignore_noop_get r1 c' q1) by done. unfold get. rewrite Hq1. by eexists. }
    rewrite <- Hq' in Hr2. rewrite <- Hs2 in HI1.
    destruct (IH fuel r2 ltac:(simpl in Hf; lia) Hr2 HI1) as (d2 & (r3 & Hm3 & Hq3 & Hd3) & HI2).
    exists d2. split; [|done]. exists r3. split; [|done].
    unfold last_read. rewrite rd_bind_run. cbn [mbind outcome_bind]. rewrite Hcur.
    decide_test (c =? stop) false. unfold and_also. rewrite rd_bind_run, Hm1. cbn [mbind outcome_bind].
    rewrite rd_bind_run, Hm2. exact Hm3.
Qed.

(** * Containers *)

Section containers.
  Context (value : Z → rd dom bool).

(** A byte that starts an element. *)
Definition marker (c : Z) : Prop :=
  is_byte c = true ∧ c ≠ 0 ∧ c ≠ mark_noop ∧ c ≠ mark_type ∧ c ≠ mark_count ∧ c ≠ mark_end_array ∧
  c ≠ mark_end_object.

Lemma reads_parse prefix body j :
  prefix ≠ mark_noop → reads_value (value prefix) body j →
  reads_value (parse_ubjson value true) (prefix :: body) j.
Proof.
  intros Hp Hv r q p ref Hr Hslot. cbn [app] in Hr.
  assert (∃ r1, get_ignore_noop r = Ret (prefix, r1) ∧ ia r1 = body ++ q ∧ r_sax r1 = r_sax r)
    as (r1 & Hm & Hq & Hs).
  { rewrite (get_ignore_noop_get r _ _ Hr Hp). unfold get. rewrite Hr. by eexists. }
  rewrite <- Hs in *. destruct (Hv r1 q p ref Hq Hslot) as (d & (r2 & Hm2 & ? & ?) & Hw).
  exists d. split; [|done]. exists r2. split; [|done]. unfold parse_ubjson. by rewrite rd_bind_run, Hm.
Qed.

Lemma ran_repeat n body (r : reader dom) q d :
  ran (rd_for n (round body) ()) r (true, ()) q d → ran (repeat_rd (Z.of_nat n) body) r true q d.
Proof.
  intros Hrun. unfold repeat_rd. eapply ran_bind; [by apply ran_for_loop|].
  intros r1 <- <-. apply ran_ret.
Qed.

(** How an element of a container with the type [ty] is read, 0 for none. *)
Definition element (ty : Z) : rd dom bool := if ty =? 0 then parse_ubjson value true else value ty.

Lemma byte_no_ndarray ty : is_byte ty = true → Z.land ty ndarray_bit = 0.
Proof.
  unfold is_byte. intros Hty. to_prop. apply Z.bits_inj'. intros k Hk.
  rewrite Z.land_spec, Z.bits_0. unfold ndarray_bit. rewrite Z.shiftl_1_l, Z.pow2_bits_eqb by lia.
  destruct (Z.eqb_spec 8 k) as [<-|]; [|apply andb_false_r]. rewrite andb_true_r.
  apply Z.bits_above_log2; [lia|]. destruct (Z.eq_dec ty 0) as [->|]; [done|].
  apply Z.log2_lt_pow2; lia.
Qed.

(** The header of a counted container: it is read as the size and the type. *)
Definition counted (n ty : Z) (header : cstring) : Prop :=
  is_byte ty = true ∧ ty ≠ mark_noop ∧
  ∀ (r : reader dom) q, ia r = header ++ q →
    ran (get_ubjson_size_type fmt (get_ubjson_size_value fmt) false) r (true, (n, ty)) q (r_sax r).

Lemma reads_counted_array header ty encs l :
  counted (Z.of_nat (length l)) ty header → Z.of_nat (length l) ≤ array_max_size →
  Forall2 (reads_value (element ty)) encs l →
  reads_value (get_ubjson_array fmt value) (header ++ concat encs) (J_array l).
Proof.
  intros (Hty & Hnoop & Hh) Hlen Hl r q p ref Hr Hslot. rewrite <- app_assoc in Hr.
  destruct (Hh r _ Hr) as (r1 & Hm1 & Hq1 & Hs1). rewrite <- Hs1 in *.
  assert (Z.of_nat (length l) < npos) as Hnp.
  { eapply Z.le_lt_trans; [exact Hlen|]. by vm_compute. }
  destruct (ran_container_bool (sax_start_array_of (Z.of_nat (length l)))
    (repeat_rd (Z.of_nat (length l)) (element ty)) is_array (J_array []) (J_array l) r1 p ref
    (ref_stack (r_sax r1)) q) as (d & (r2 & Hm2 & Hq2 & Hd2) & Hw); [by apply dom_start_of_slot| |done|].
  - intros r2 Hr2 _ Ho. rewrite Hq1 in Hr2.
    destruct (reads_elements _ encs l Hl r2 q p ref _ [] Hr2 Ho) as (d & Hrun & Hw).
    exists d. split; [by apply ran_repeat|done].
  - exists d. split; [|done]. exists r2. split; [|done]. unfold get_ubjson_array.
    rewrite rd_bind_run, Hm1. cbn [mbind outcome_bind negb]. rewrite byte_no_ndarray by done.
    cbn [Z.eqb negb]. rewrite andb_false_r. decide_test (Z.of_nat (length l) =? npos) false. cbn [negb].
    unfold element in Hm2. decide_test (ty =? 78) false. rewrite <- Hm2.
    destruct (ty =? 0); done.
Qed.

Lemma reads_counted_object header ty encs ms :
  counted (Z.of_nat (length ms)) ty header → Z.of_nat (length ms) ≤ object_max_size →
  Forall2 (reads_member (get_ubjson_member fmt true (element ty))) encs ms →
  reads_value (get_ubjson_object fmt value) (header ++ concat encs) (J_object (build_object ms [])).
Proof.
  intros (Hty & Hnoop & Hh) Hlen Hl r q p ref Hr Hslot. rewrite <- app_assoc in Hr.
  destruct (Hh r _ Hr) as (r1 & Hm1 & Hq1 & Hs1). rewrite <- Hs1 in *.
  assert (Z.of_nat (length ms) < npos) as Hnp.
  { eapply Z.le_lt_trans; [exact Hlen|]. by vm_compute. }
  destruct (ran_container_bool (sax_start_object_of (Z.of_nat (length ms)))
    (repeat_rd (Z.of_nat (length ms)) (get_ubjson_member fmt true (element ty))) is_object (J_object [])
    (J_object (build_object ms [])) r1 p ref (ref_stack (r_sax r1)) q)
    as (d & (r2 & Hm2 & Hq2 & Hd2) & Hw); [by apply dom_start_of_slot| |done|].
  - intros r2 Hr2 _ Ho. rewrite Hq1 in Hr2.
    destruct (reads_members _ encs ms Hl r2 q p ref _ [] Hr2 Ho) as (d & Hrun & Hw).
    exists d. split; [by apply ran_repeat|done].
  - exists d. split; [|done]. exists r2. split; [|done]. unfold get_ubjson_object.
    rewrite rd_bind_run, Hm1. cbn [mbind outcome_bind negb]. rewrite byte_no_ndarray by done.
    cbn [Z.eqb negb]. rewrite andb_false_r. decide_test (Z.of_nat (length ms) =? npos) false. cbn [negb].
    unfold element in Hm2. rewrite <- Hm2. destruct (ty =? 0); done.
Qed.

(** An element with its marker, and a member with the length of its key. *)
Record item := mk_item { i_key : cstring; i_size : cstring; i_prefix : Z; i_body : cstring; i_value : json }.

Definition item_reads (i : item) : Prop :=
  marker (i_prefix i) ∧ reads_value (value (i_prefix i)) (i_body i) (i_value i).

Definition item_bytes (i : item) : cstring := i_prefix i :: i_body i.

Definition member_reads (i : item) : Prop :=
  item_reads i ∧ forallb is_byte (i_key i) = true ∧ size_text (Z.of_nat (length (i_key i))) (i_size i).

Definition member_bytes (i : item) : cstring := i_size i ++ i_key i ++ item_bytes i.

Lemma concat_length_items (enc : item → cstring) es :
  Forall (λ i, ∃ c t, enc i = c :: t) es → (length es ≤ length (concat (map enc es)))%nat.
Proof.
  induction 1 as [|e es (c & t & He) _ IH]; simpl; [lia|]. rewrite He, length_app. simpl. lia.
Qed.

(** Items without a count, up to the marker [stop], are read into the open
    container [c0]; [add c i] is the container with one more item. *)
Lemma ran_items stop (body : rd dom bool) (enc : item → cstring) (P : item → Prop)
    (add : json → item → json) (shape : json → Prop) c0 es (r : reader dom) q p ref rs :
  stop ≠ mark_noop → Forall P es → shape c0 →
  (∀ e, P e → ∃ c t, enc e = c :: t ∧ c ≠ stop ∧ c ≠ mark_noop) →
  (∀ e c (r : reader dom) q', P e → shape c → open (r_sax r) p ref rs c →
     current r :: ia r = enc e ++ q' →
     shape (add c e) ∧ ∃ d, ran body r true q' d ∧ wrote (r_sax r) (p (add c e)) (ref :: rs) d) →
  current r :: ia r = concat (map enc es) ++ stop :: q → open (r_sax r) p ref rs c0 →
  ∃ d, ran (until_marker stop body) r true q d ∧
    wrote (r_sax r) (p (foldl add c0 es)) (ref :: rs) d.
Proof.
  intros Hstop Hes Hs0 Henc Hstep Hr Ho. pose proof Ho as (Hroot & Hrs & Hg & Hset).
  destruct (ran_while stop body enc P (λ es' d, ∃ c, shape c ∧ wrote (r_sax r) (p c) (ref :: rs) d ∧
    foldl add c es' = foldl add c0 es) q Hstop Henc) with (es := es)
    (fuel := (2 + length (ia r))%nat) (r := r) as (d & Hrun & c & _ & Hw & Hc); [..|].
  - intros e es' r1 q' He (c & Hs & Hw & Hc) Hr1.
    pose proof (wrote_open _ _ _ _ p ref c Hw eq_refl Hg Hset) as Ho1.
    destruct (Hstep e c r1 q' He Hs Ho1 Hr1) as (Hs1 & d & Hrun & Hw1).
    exists d. split; [done|]. exists (add c e). split; [done|]. split; [by eapply wrote_trans|done].
  - done.
  - assert (length es ≤ length (concat (map enc es)))%nat as Hl.
    { apply concat_length_items. eapply Forall_impl; [exact Hes|]. intros e He.
      destruct (Henc e He) as (c & t & -> & _). by do 2 eexists. }
    apply (f_equal length) in Hr. rewrite length_app in Hr. simpl in Hr. lia.
  - done.
  - exists c0. split; [done|]. split; [|done]. exists (object_element (r_sax r)).
    rewrite <- Hroot, <- Hrs. by destruct (r_sax r).
  - exists d. split; [exact Hrun|]. simpl in Hc. by subst c.
Qed.

(** The container around the items. *)
Lemma reads_items (container : rd dom bool) start stop (body : rd dom bool) (enc : item → cstring)
    (P : item → Prop) (add : json → item → json) (shape : json → Prop) (kind : json → bool) c0 es :
  stop ≠ mark_noop → stop ≠ mark_type → stop ≠ mark_count → Forall P es → shape c0 →
  (∀ c, shape c → kind c = true) → shape (foldl add c0 es) →
  (∀ d p ref, slot d p ref → ∃ d', start d = Ret (true, d') ∧
     wrote d (p c0) (ref :: ref_stack d) d' ∧ open d' p ref (ref_stack d) c0) →
  (∀ e, P e → ∃ c t, enc e = c :: t ∧ c ≠ stop ∧ c ≠ mark_noop ∧ c ≠ mark_type ∧ c ≠ mark_count) →
  (∀ e c (r : reader dom) q' p ref rs, P e → shape c → open (r_sax r) p ref rs c →
     current r :: ia r = enc e ++ q' →
     shape (add c e) ∧ ∃ d, ran body r true q' d ∧ wrote (r_sax r) (p (add c e)) (ref :: rs) d) →
  (∀ r r1, get_ubjson_size_type fmt (get_ubjson_size_value fmt) false r = Ret ((true, (npos, 0)), r1) →
     container r = and_also (event start) (and_also (until_marker stop body) (event (dom_end kind))) r1) →
  reads_value container (concat (map enc es) ++ [stop]) (foldl add c0 es).
Proof.
  intros Hs1 Hs2 Hs3 Hes Hc0 Hkind Hend Hstart Henc Hstep Hcont r q p ref Hr Hslot.
  rewrite <- app_assoc in Hr. cbn [app] in Hr.
  assert (∃ c q1, concat (map enc es) ++ stop :: q = c :: q1 ∧ c ≠ mark_noop ∧
    c ≠ mark_type ∧ c ≠ mark_count) as (c & q1 & Hq1 & Hc1 & Hc2 & Hc3).
  { destruct Hes as [|e es' He _]; [by do 2 eexists|]. destruct (Henc e He) as (c & t & E & _ & ? & ? & ?).
    cbn [map concat]. rewrite E. do 2 eexists. by split. }
  rewrite Hq1 in Hr.
  destruct (size_type_none (get_ubjson_size_value fmt) false c r q1 Hr Hc1 Hc2 Hc3)
    as (r1 & Hm1 & Hi1 & Hcur & Hsax). rewrite <- Hsax in *.
  destruct (ran_container_bool start (until_marker stop body) kind c0 (foldl add c0 es) r1 p ref
    (ref_stack (r_sax r1)) q) as (d & (r2 & Hm2 & Hq2 & Hd2) & Hw); [by apply Hstart| |by apply Hkind|].
  - intros r2 Hr2 Hcur2 Ho. eapply (ran_items stop body enc P add shape); [done..| | |by rewrite Hr2, Hcur2, Hi1, Hcur|done].
    + intros e He. destruct (Henc e He) as (c' & t & ? & ? & ? & _). by exists c', t.
    + intros e c' r3 q' He Hc' Ho' Hr3. by apply Hstep.
  - exists d. split; [|done]. exists r2. split; [|done]. by rewrite (Hcont r r1 Hm1).
Qed.

Lemma foldl_array es l0 :
  foldl (λ c e, match c with J_array l => J_array (l ++ [i_value e]) | _ => c end) (J_array l0) es =
  J_array (l0 ++ map i_value es).
Proof.
  revert l0. induction es as [|e es IH]; intros l0; simpl; [by rewrite app_nil_r|].
  by rewrite IH, <- app_assoc.
Qed.

Lemma foldl_object es m0 :
  foldl (λ c e, match c with J_object m => J_object (obj_set (i_key e) (i_value e) m) | _ => c end)
    (J_object m0) es = J_object (build_object (map (λ e, (i_key e, i_value e)) es) m0).
Proof. revert m0. induction es as [|e es IH]; intros m0; simpl; [done|]. by rewrite IH. Qed.

Lemma reads_items_array es :
  Forall item_reads es →
  reads_value (get_ubjson_array fmt value) (concat (map item_bytes es) ++ [mark_end_array])
    (J_array (map i_value es)).
Proof.
  intros Hes. rewrite <- (app_nil_l (map i_value es)), <- foldl_array.
  apply (reads_items _ (sax_start_array_of npos) mark_end_array (parse_ubjson value false) item_bytes item_reads
    _ (λ c, is_array c = true) is_array); try done.
  - by rewrite foldl_array.
  - intros d p ref Hslot. by apply dom_start_of_npos.
  - intros e [He _]. do 2 eexists. split; [done|]. unfold marker in He. tauto.
  - intros e c r q' p ref rs [_ He] Hc Ho Hr. destruct c as [| |l| | | | | | |]; try done. split; [done|].
    injection Hr as Hcur Hr.
    destruct (He r q' _ _ Hr (slot_of_open _ _ _ _ _ Ho)) as (d & Hrun & Hw).
    exists d. destruct Ho as (_ & Hrs & _). rewrite Hrs in Hw. split; [|done].
    unfold parse_ubjson. apply ran_last. by rewrite Hcur.
  - intros r r1 Hm. unfold get_ubjson_array. rewrite rd_bind_run, Hm. cbn [mbind outcome_bind negb].
    rewrite Z.eqb_refl. cbn [negb]. by rewrite !andb_false_r.
Qed.

Lemma reads_items_object es :
  Forall member_reads es →
  reads_value (get_ubjson_object fmt value) (concat (map member_bytes es) ++ [mark_end_object])
    (J_object (build_object (map (λ e, (i_key e, i_value e)) es) [])).
Proof.
  intros Hes. rewrite <- (foldl_object es []).
  apply (reads_items _ (sax_start_object_of npos) mark_end_object
    (get_ubjson_member fmt false (parse_ubjson value true)) member_bytes member_reads
    _ (λ c, is_object c = true) is_object); try done.
  - by rewrite foldl_object.
  - intros d p ref Hslot. by apply dom_start_of_npos.
  - intros e (_ & _ & (prefix & bs & T & E & HT & _)). unfold member_bytes. rewrite E. do 2 eexists.
    split; [done|]. pose proof (length_type_marker _ _ HT). tauto.
  - intros e c r q' p ref rs ([Hm He] & Hk & Hsz) Hc Ho Hr. destruct c as [|m| | | | | | | |]; try done.
    split; [done|]. unfold member_bytes in Hr. rewrite <- !app_assoc in Hr.
    apply (ran_key_value _ _ (item_bytes e)); [by eapply ran_ubjson_string_at| |done].
    apply reads_parse; [|done]. unfold marker in Hm. tauto.
  - intros r r1 Hm. unfold get_ubjson_object. rewrite rd_bind_run, Hm. cbn [mbind outcome_bind negb].
    rewrite Z.eqb_refl. cbn [negb]. by rewrite !andb_false_r.
Qed.
End containers.

(** * Values without elements *)

Section scalars.
  Context (value : Z → rd dom bool).

Abbreviation step prefix := (get_ubjson_value_step fmt dp value prefix).

Lemma reads_then {A} (m : rd dom (bool * A)) a (v : A → json) bs :
  (∀ r q, ia r = bs ++ q → ran m r (true, a) q (r_sax r)) →
  reads_value (and_then m (λ a, event (dom_value (v a)))) bs (v a).
Proof.
  intros Hm r q p ref Hr Hslot.
  exact (reads_and_then m a v (current r) bs (λ r q Hr _, Hm r q Hr) r q p ref Hr eq_refl Hslot).
Qed.

Lemma reads_marked z prefix bs unsigned :
  marked z prefix bs unsigned →
  marker prefix ∧
  reads_value (step prefix) bs (if unsigned : bool then J_number_unsigned z else J_number_integer z).
Proof.
  intros (T & Hin & Hr).
  pose proof (λ v, reads_then (get_number T false fmt) z v bs Hr) as Hv.
  unfold signed_markers, unsigned_markers in Hin. unfold get_ubjson_value_step, get_bjdata_value. rewrite Hbj.
  destruct unsigned.
  - specialize (Hv J_number_unsigned). destruct bj_cases as [Hb|Hb]; rewrite Hb in *; simpl in Hin;
      repeat (destruct Hin as [[= <- <-]|Hin]; [split; [by repeat split|exact Hv]|]); done.
  - specialize (Hv J_number_integer). simpl in Hin.
    repeat (destruct Hin as [[= <- <-]|Hin]; [split; [by repeat split|exact Hv]|]); done.
Qed.

Lemma reads_double f :
  valid_binary 53 1024 f = true → reads_value (step mark_double) (put float64 f) (J_number_float f).
Proof.
  intros Hf. apply (reads_then (get_number float64 false fmt) f J_number_float).
  intros r1 q1 Hr1. eapply (ran_number_as float64 float64 le false); [by rewrite Hbj|done|].
  by apply float64_bits.
Qed.

Lemma reads_text s t :
  forallb is_byte s = true → size_text (Z.of_nat (length s)) t →
  reads_value (step mark_string) (t ++ s) (J_string s).
Proof.
  intros Hs Ht. apply (reads_then (get_ubjson_string fmt true []) s J_string).
  intros r1 q1 Hr1. rewrite <- app_assoc in Hr1. by eapply ran_ubjson_string.
Qed.

Lemma reads_constant v prefix :
  step prefix = event (dom_value v) → reads_value (step prefix) [] v.
Proof.
  intros Hs r q p ref Hr Hslot. rewrite Hs. by apply (reads_event v (current r) r q p ref).
Qed.
End scalars.

(** The text of a number that is too large for the other types. *)
Lemma dump_unsigned n :
  in_u 64 n = true → json_dump (-1) 32 false strict (J_number_unsigned n) = Ret (decimal n).
Proof.
  intros Hn. unfold json_dump. cbn [Z.leb Z.compare dump]. unfold write_integer. unfold in_u in Hn. to_prop.
  destruct (dump_integer_ok n (number_buffer (init_serializer 32)) ltac:(lia) eq_refl) as (nb & -> & _).
  cbn [mbind outcome_bind o init_serializer app]. unfold int_text. by decide_test (n <? 0) false.
Qed.

(** * Values as they are written *)

Section values.
  Context (uc ut : bool) (Hut : ut = true → uc = true).

Abbreviation write j := (write_ubjson le bj uc ut j).

(** The item [i] is what is written of [j] and read back. *)
Definition encodes (j : json) (i : item) : Prop :=
  i_value i = leaf_map (ubjson_leaf bj) j ∧ i_prefix i = ubjson_prefix bj j ∧ marker (i_prefix i) ∧
  (∀ b, write j b = Ret (with_prefix b (i_prefix i) (i_body i))) ∧
  ∀ fuel, (length (i_body i) < fuel)%nat →
    reads_value (get_ubjson_value fmt fuel dp (i_prefix i)) (i_body i) (i_value i).

Definition writes (j : json) : Prop :=
  json_wf j = true → json_fits 56 j = true → json_forall (node_no_ndarray bj) j = true →
  ∃ i, encodes j i.

Lemma encodes_intro j body :
  marker (ubjson_prefix bj j) →
  (∀ b, write j b = Ret (with_prefix b (ubjson_prefix bj j) body)) →
  (∀ fuel, (length body ≤ fuel)%nat →
    reads_value (get_ubjson_value_step fmt dp (get_ubjson_value fmt fuel dp) (ubjson_prefix bj j)) body
      (leaf_map (ubjson_leaf bj) j)) →
  ∃ i, encodes j i.
Proof.
  intros Hm Hw Hr. exists (mk_item [] [] (ubjson_prefix bj j) body (leaf_map (ubjson_leaf bj) j)).
  split_and!; try done. intros [|fuel] Hf; [lia|]. cbn [get_ubjson_value i_prefix i_body i_value].
  apply Hr. simpl in Hf. lia.
Qed.

Lemma writes_number_marked j z prefix T :
  leaf_map (ubjson_leaf bj) j = ubjson_number bj z → ubjson_prefix bj j = prefix →
  (∀ b, write j b = Ret (with_prefix b prefix (put T z))) →
  marked z prefix (put T z) (reads_unsigned bj z) → ∃ i, encodes j i.
Proof.
  intros Hl <- Hw Hm. apply (encodes_intro j (put T z)); [|done|].
  - by eapply (reads_marked (λ _, mret true)).
  - intros fuel _. rewrite Hl. unfold ubjson_number. by eapply reads_marked.
Qed.

Lemma writes_integer z : writes (J_number_integer z).
Proof.
  intros Hwf _ _. unfold json_wf in Hwf. cbn [json_forall node_wf] in Hwf. to_prop.
  assert (- 2 ^ 63 ≤ z < 2 ^ 63) as Hz by (unfold in_s in *; to_prop; lia).
  destruct (ubjson_signed_type bj z) as [[prefix T]|] eqn:E.
  - apply (writes_number_marked _ z prefix T); [done|cbn [ubjson_prefix]; by rewrite E| |by apply signed_type_read].
    intros b. cbn [write_ubjson]. unfold write_ubjson_signed. by rewrite E.
  - exfalso. revert E. unfold ubjson_signed_type, in_limits. repeat (case_if; [done|]). lia.
Qed.

Lemma writes_unsigned z : writes (J_number_unsigned z).
Proof.
  intros Hwf _ _. unfold json_wf in Hwf. cbn [json_forall node_wf] in Hwf. to_prop.
  assert (0 ≤ z < 2 ^ 64) as Hz by (unfold in_u in *; to_prop; lia).
  destruct (ubjson_unsigned_type bj z) as [[prefix T]|] eqn:E.
  - apply (writes_number_marked _ z prefix T); [done|cbn [ubjson_prefix]; by rewrite E| |by apply unsigned_type_read].
    intros b. cbn [write_ubjson write_ubjson_unsigned]. by rewrite E.
  - pose proof (decimal_length z Hz) as Hlen.
    destruct (size_written (Z.of_nat (length (decimal z))) ltac:(lia)) as (t & Ht & Hst).
    assert (2 ^ 63 ≤ z) as Hbig.
    { revert E. unfold ubjson_unsigned_type. repeat (case_if; [done|]). to_prop. lia. }
    apply (encodes_intro _ (t ++ decimal z)); cbn [ubjson_prefix]; rewrite E; [by repeat split|..].
    + intros b. cbn [write_ubjson write_ubjson_unsigned]. rewrite E, dump_unsigned by done.
      cbn [mbind outcome_bind]. unfold write_ubjson_size in Ht. cbn [write_ubjson_unsigned] in Ht.
      destruct (ubjson_unsigned_type bj (Z.of_nat (length (decimal z)))) as [[? ?]|] eqn:E';
        [by injection Ht as <-|].
      exfalso. revert E'. unfold ubjson_unsigned_type. repeat (case_if; [done|]). to_prop. lia.
    + intros fuel _. cbn [leaf_map ubjson_leaf]. unfold ubjson_number, reads_unsigned.
      decide_test (2 ^ 63 <=? z) true. rewrite orb_true_r. by apply reads_high_precision.
Qed.

Lemma writes_string s : writes (J_string s).
Proof.
  intros Hwf Hfit _. unfold json_wf, json_fits in *. cbn [json_forall node_wf node_fits] in *. to_prop.
  destruct (size_written (Z.of_nat (length s)) ltac:(lia)) as (t & Ht & Hst).
  apply (encodes_intro _ (t ++ s)); [by repeat split|..].
  - intros b. cbn [write_ubjson]. by rewrite Ht.
  - intros fuel _. by apply reads_text.
Qed.

Lemma writes_float f : writes (J_number_float f).
Proof.
  intros Hwf _ _. unfold json_wf in *. cbn [json_forall node_wf] in *. to_prop.
  apply (encodes_intro _ (put float64 f)); [by repeat split|done|].
  intros fuel _. by apply reads_double.
Qed.

(** * Headers of containers *)

Lemma counted_plain n t : 0 ≤ n < 2 ^ 64 → size_text n t → counted n 0 (mark_count :: t).
Proof. intros Hn Ht. split; [done|]. split; [done|]. intros r q Hr. by eapply size_type_count. Qed.

Lemma counted_typed n ty t :
  0 ≤ n < 2 ^ 64 → size_text n t → marker ty →
  bj && bool_decide (ty ∈ bjd_optimized_type_markers) = false →
  counted n ty (mark_type :: ty :: mark_count :: t).
Proof.
  intros Hn Ht (Hb & _ & Hnoop & _) Hex. split; [done|]. split; [done|].
  intros r q Hr. by eapply size_type_typed.
Qed.

(** The common type of the elements. *)
Lemma common_type_some l ty :
  common_type bj l = Some ty →
  Forall (λ v, ubjson_prefix bj v = ty) l ∧ bj && bool_decide (ty ∈ bjd_optimized_type_markers) = false.
Proof.
  unfold common_type. destruct l as [|v l]; [done|]. case_if; [|done]. intros [= <-]. to_prop.
  split.
  - constructor; [done|]. apply Forall_forall. intros x Hx. apply list_elem_of_In in Hx.
    apply (proj1 (forallb_forall _ l)) with (x := x) in H; [|done]. by to_prop.
  - apply andb_false_iff. destruct H0 as [H0|H0]; [by left|right]. rewrite <- H0.
    apply bool_decide_ext. rewrite !list_elem_of_In. simpl. tauto.
Qed.

(** * Containers as they are written *)

(** The items of a list of values. *)
Lemma writes_list l :
  Forall writes l → forallb json_wf l = true → forallb (json_fits 56) l = true →
  forallb (json_forall (node_no_ndarray bj)) l = true → ∃ es, Forall2 encodes l es.
Proof.
  induction 1 as [|j l Hj _ IH]; cbn [forallb]; intros Hwf Hfit Hnd; [by exists []|]. to_prop.
  destruct (Hj ltac:(done) ltac:(done) ltac:(done)) as (i & Hi).
  destruct (IH ltac:(done) ltac:(done) ltac:(done)) as (es & Hes). exists (i :: es). by constructor.
Qed.

Lemma write_all_items l es b :
  Forall2 encodes l es →
  write_all (λ el, write el b) l = Ret (concat (map (λ i, with_prefix b (i_prefix i) (i_body i)) es)).
Proof.
  induction 1 as [|j i l es Hi _ IH]; cbn [write_all map concat]; [done|].
  destruct Hi as (_ & _ & _ & Hw & _). rewrite Hw, IH. done.
Qed.

Lemma items_values l es : Forall2 encodes l es → map i_value es = map (leaf_map (ubjson_leaf bj)) l.
Proof. induction 1 as [|j i l es (Hv & _) _ IH]; cbn [map]; [done|]. by rewrite Hv, IH. Qed.

(** What the items are read with, when the fuel is enough for all of them. *)
Lemma items_read l es b fuel :
  Forall2 encodes l es →
  (length (concat (map (λ i, with_prefix b (i_prefix i) (i_body i)) es)) < fuel)%nat →
  Forall (item_reads (get_ubjson_value fmt fuel dp)) es.
Proof.
  induction 1 as [|j i l es (_ & _ & Hm & _ & Hr) _ IH]; cbn [map concat]; [by constructor|].
  rewrite length_app. intros Hf. constructor; [|apply IH; lia]. split; [done|]. apply Hr.
  destruct b; simpl in Hf; lia.
Qed.

Lemma items_with_prefix es :
  map (λ i, with_prefix true (i_prefix i) (i_body i)) es = map item_bytes es.
Proof. done. Qed.

(** The items of a counted container, with and without their own types. *)
Lemma items_elements value es ty :
  Forall (item_reads value) es → Forall (λ i, ty = 0 ∨ i_prefix i = ty) es → ty = 0 ∨ marker ty →
  Forall2 (reads_value (element value ty))
    (map (λ i, with_prefix (ty =? 0) (i_prefix i) (i_body i)) es) (map i_value es).
Proof.
  intros Hes Hty Hm. induction Hes as [|i es [Hmi Hr] _ IH]; cbn [map]; [by constructor|].
  inversion_clear Hty as [|? ? Hi Hty']. constructor; [|by apply IH]. unfold element.
  destruct (Z.eqb_spec ty 0) as [->|Hne]; cbn [with_prefix].
  - apply reads_parse; [|done]. unfold marker in Hmi. tauto.
  - destruct Hi as [|<-]; done.
Qed.

Definition shared_type (l : list json) : option Z := if ut then common_type bj l else None.

Lemma header_counted l es n t :
  Forall2 encodes l es → 0 ≤ n < 2 ^ 64 → size_text n t →
  let ty := default 0 (shared_type l) in
  counted n ty (type_prefix (shared_type l) ++ mark_count :: t) ∧ (ty = 0 ∨ marker ty) ∧
  Forall (λ i, ty = 0 ∨ i_prefix i = ty) es ∧ prefix_required (shared_type l) = (ty =? 0).
Proof.
  intros Hes Hn Ht. destruct (shared_type l) as [ty|] eqn:E; cbv zeta;
    unfold default, from_option, id; cbn [type_prefix app prefix_required].
  - unfold shared_type in E. destruct ut; [|done]. pose proof (common_type_some l ty E) as [Hp Hex].
    assert (Forall (λ i, i_prefix i = ty ∧ marker (i_prefix i)) es) as Hall.
    { clear E. induction Hes as [|j i l es (_ & Hpi & Hm & _) _ IH]; [by constructor|].
      inversion_clear Hp as [|? ? Hj Hp']. constructor; [|by apply IH]. split; [congruence|done]. }
    assert (marker ty) as Hm.
    { destruct Hes as [|j i l es _ _]; [done|]. inversion_clear Hall as [|? ? [<- Hi] _]. done. }
    split; [by apply counted_typed|]. split; [by right|]. split.
    + eapply Forall_impl; [exact Hall|]. intros i [Hi _]. by right.
    + unfold marker in Hm. by decide_test (ty =? 0) false.
  - split; [by apply counted_plain|]. split; [by left|]. split; [|done].
    apply Forall_forall. intros i _. by left.
Qed.

Lemma ubjson_max_size : 2 ^ 56 ≤ array_max_size ∧ 2 ^ 56 ≤ object_max_size.
Proof. by vm_compute. Qed.

Lemma uc_cases : uc = true ∨ uc = false ∧ ut = false.
Proof. destruct uc; [by left|right]. split; [done|]. destruct ut; [by rewrite Hut|done]. Qed.

Lemma asserted {A} (l : list A) : negb (ut && negb (bool_decide (l = []))) || uc = true.
Proof. destruct ut; [|done]. rewrite Hut by done. by rewrite orb_true_r. Qed.

Lemma writes_array l : Forall writes l → writes (J_array l).
Proof.
  intros IH Hwf Hfit Hnd. unfold json_wf, json_fits in *. cbn [json_forall node_wf node_fits node_no_ndarray] in *.
  to_prop. destruct (writes_list l IH ltac:(done) ltac:(done) ltac:(done)) as (es & Hes).
  pose proof (Forall2_length _ _ _ Hes) as Hlen.
  pose proof ubjson_max_size as [Hmax _].
  destruct (size_written (Z.of_nat (length l)) ltac:(lia)) as (t & Ht & Hst).
  destruct (header_counted l es (Z.of_nat (length l)) t Hes ltac:(lia) Hst) as (Hc & Hm & Hty & Hreq).
  set (ty := default 0 (shared_type l)) in *.
  destruct uc_cases as [Euc|[Euc Eut]].
  - set (encs := map (λ i, with_prefix (ty =? 0) (i_prefix i) (i_body i)) es) in *.
    apply (encodes_intro _ ((type_prefix (shared_type l) ++ mark_count :: t) ++ concat encs)); [by repeat split|..].
    + intros b. cbn [write_ubjson]. rewrite asserted. cbn [assert]. fold (shared_type l).
      rewrite Hreq, (write_all_items l es (ty =? 0) Hes). unfold container_count, container_end.
      rewrite Euc, Ht. cbn [mbind outcome_bind ubjson_prefix]. rewrite app_nil_r.
      by rewrite <- !app_assoc.
    + intros fuel Hf. cbn [leaf_map]. rewrite <- (items_values l es Hes).
      eapply reads_counted_array; [rewrite length_map, <- Hlen; exact Hc|rewrite length_map; lia|].
      apply items_elements; [|done..]. apply (items_read l es (ty =? 0)); [done|].
      rewrite !length_app in Hf. fold encs. simpl in Hf. lia.
  - apply (encodes_intro _ (concat (map item_bytes es) ++ [mark_end_array])); [by repeat split|..].
    + intros b. cbn [write_ubjson]. rewrite asserted. cbn [assert]. fold (shared_type l).
      pose proof (write_all_items l es true Hes) as Hw. unfold shared_type, container_count, container_end.
      rewrite Euc, Eut in *. cbn [mbind outcome_bind prefix_required]. by rewrite Hw.
    + intros fuel Hf. cbn [leaf_map]. rewrite <- (items_values l es Hes). apply reads_items_array.
      apply (items_read l es true); [done|]. rewrite length_app in Hf. simpl in Hf. rewrite items_with_prefix. lia.
Qed.

(** The bytes of a byte array as items. *)
Definition byte_items (b : cstring) : list item :=
  map (λ c, mk_item [] [] mark_uint8 [c] (J_number_unsigned c)) b.

Lemma byte_items_read b fuel :
  forallb is_byte b = true → (0 < fuel)%nat ∨ b = [] →
  Forall (item_reads (get_ubjson_value fmt fuel dp)) (byte_items b).
Proof.
  intros Hb Hf. apply Forall_forall. intros i Hi. unfold byte_items in Hi.
  apply list_elem_of_In, in_map_iff in Hi as (c & <- & Hc).
  apply (proj1 (forallb_forall _ b)) with (x := c) in Hb; [|done]. unfold is_byte in Hb. to_prop.
  destruct Hf as [Hf| ->]; [|done]. destruct fuel as [|fuel]; [lia|].
  split; [by repeat split|]. cbn [get_ubjson_value i_prefix i_body i_value].
  apply (reads_marked _ c mark_uint8 [c] true). exists uint8. split; [by left|].
  replace [c] with (put uint8 c); [apply (number_read_uint 1); simpl; lia|].
  rewrite write_byte by done. by rewrite byte_in.
Qed.

Lemma byte_items_bytes b (prefixed : bool) :
  concat (map (λ i, with_prefix prefixed (i_prefix i) (i_body i)) (byte_items b)) =
  if prefixed then flat_map (λ c, [mark_uint8; c]) b else b.
Proof.
  unfold byte_items. rewrite map_map, flat_map_concat_map. destruct prefixed; [done|]. cbn [with_prefix i_body].
  induction b as [|c b IH]; simpl; [done|]. by rewrite IH.
Qed.

Lemma writes_binary b st : writes (J_binary b st).
Proof.
  intros Hwf Hfit _. unfold json_wf, json_fits in *. cbn [json_forall node_wf node_fits] in *. to_prop.
  pose proof ubjson_max_size as [Hmax _].
  destruct (size_written (Z.of_nat (length b)) ltac:(lia)) as (t & Ht & Hst).
  assert (map i_value (byte_items b) = map J_number_unsigned b) as Hv by (unfold byte_items; by rewrite map_map).
  pose (type := if ut && negb (bool_decide (b = [])) then Some mark_uint8 else None).
  pose (ty := default 0 type).
  assert (counted (Z.of_nat (length b)) ty (type_prefix type ++ mark_count :: t) ∧ (ty = 0 ∨ marker ty) ∧
    Forall (λ i, ty = 0 ∨ i_prefix i = ty) (byte_items b) ∧
    concat (map (λ i, with_prefix (ty =? 0) (i_prefix i) (i_body i)) (byte_items b)) =
      if ut then b else flat_map (λ c, [mark_uint8; c]) b) as (Hc & Hm & Hty & Hbytes).
  { rewrite byte_items_bytes. unfold ty, type.
    destruct (ut && negb (bool_decide (b = []))) eqn:E; unfold default, from_option, id; cbn [type_prefix app].
    - apply andb_true_iff in E as [Eut _]. rewrite Eut. split; [|split; [right; by repeat split|]].
      + apply counted_typed; [lia|done|by repeat split|by rewrite andb_false_r].
      + split; [|done]. apply Forall_forall. intros i Hi. right.
        unfold byte_items in Hi. apply list_elem_of_In, in_map_iff in Hi as (c & <- & _). done.
    - split; [apply counted_plain; [lia|done]|]. split; [by left|]. split; [apply Forall_forall; by left|].
      cbn [Z.eqb]. destruct ut; [|done]. cbn [andb] in E. to_prop. by subst b. }
  destruct uc_cases as [Euc|[Euc Eut]].
  - apply (encodes_intro _ ((type_prefix type ++ mark_count :: t) ++
      concat (map (λ i, with_prefix (ty =? 0) (i_prefix i) (i_body i)) (byte_items b)))); [by repeat split|..].
    + intros a. cbn [write_ubjson]. rewrite asserted. cbn [assert]. fold type. rewrite Hbytes.
      unfold container_count, container_end. rewrite Euc, Ht. cbn [mbind outcome_bind ubjson_prefix].
      rewrite app_nil_r. by rewrite <- !app_assoc.
    + intros fuel Hf. cbn [leaf_map ubjson_leaf]. rewrite <- Hv.
      assert (length (byte_items b) = length b) as Hl by (unfold byte_items; by rewrite length_map).
      eapply reads_counted_array; [rewrite length_map, Hl; exact Hc|rewrite length_map, Hl; lia|].
      apply items_elements; [|done..]. apply byte_items_read; [done|].
      rewrite !length_app in Hf. simpl in Hf. left. lia.
  - apply (encodes_intro _ (concat (map item_bytes (byte_items b)) ++ [mark_end_array])); [by repeat split|..].
    + intros a. cbn [write_ubjson]. rewrite asserted. cbn [assert].
      unfold container_count, container_end. rewrite Euc, Eut. cbn [mbind outcome_bind andb type_prefix app].
      rewrite <- items_with_prefix, byte_items_bytes. done.
    + intros fuel Hf. cbn [leaf_map ubjson_leaf]. rewrite <- Hv. apply reads_items_array.
      apply byte_items_read; [done|]. rewrite length_app in Hf. simpl in Hf. left. lia.
Qed.

(** * Objects *)

(** The items of the members. *)
Definition member_encodes (kv : cstring * json) (i : item) : Prop :=
  encodes kv.2 i ∧ i_key i = kv.1 ∧ forallb is_byte kv.1 = true ∧
  write_ubjson_size le bj (Z.of_nat (length kv.1)) = Ret (i_size i) ∧
  size_text (Z.of_nat (length kv.1)) (i_size i).

Lemma writes_members m :
  Forall (λ kv, writes kv.2) m → forallb (λ kv, json_wf kv.2) m = true →
  forallb (λ kv, json_fits 56 kv.2) m = true →
  forallb (λ kv, json_forall (node_no_ndarray bj) kv.2) m = true →
  forallb (λ kv, forallb is_byte kv.1) m = true →
  forallb (λ kv, Z.of_nat (length kv.1) <? 2 ^ 56) m = true → ∃ es, Forall2 member_encodes m es.
Proof.
  induction 1 as [|[k v] m Hj _ IH]; cbn [forallb fst snd]; intros Hwf Hfit Hnd Hk Hl; [by exists []|]. to_prop.
  cbn [snd] in Hj. destruct (Hj ltac:(done) ltac:(done) ltac:(done)) as (i & Hi).
  destruct (size_written (Z.of_nat (length k)) ltac:(lia)) as (t & Ht & Hst).
  destruct (IH ltac:(done) ltac:(done) ltac:(done) ltac:(done) ltac:(done)) as (es & Hes).
  exists (mk_item k t (i_prefix i) (i_body i) (i_value i) :: es). constructor; [|done]. by split.
Qed.

Lemma members_items m es : Forall2 member_encodes m es → Forall2 encodes (map snd m) es.
Proof. induction 1 as [|kv i m es [Hi _] _ IH]; cbn [map]; constructor; done. Qed.

Definition member_text (b : bool) (i : item) : cstring :=
  i_size i ++ i_key i ++ with_prefix b (i_prefix i) (i_body i).

Lemma write_all_members m es b :
  Forall2 member_encodes m es →
  write_all (λ kv, size ← write_ubjson_size le bj (Z.of_nat (length kv.1)); el ← write kv.2 b;
    Ret (size ++ kv.1 ++ el)) m = Ret (concat (map (member_text b) es)).
Proof.
  induction 1 as [|kv i m es Hi _ IH]; cbn [write_all map concat]; [done|].
  destruct Hi as ((_ & _ & _ & Hw & _) & Hk & _ & Hs & _). rewrite Hs, Hw, IH.
  cbn [mbind outcome_bind]. unfold member_text. by rewrite Hk.
Qed.

Lemma members_values m es :
  Forall2 member_encodes m es →
  map (λ i, (i_key i, i_value i)) es = map (λ kv, (kv.1, leaf_map (ubjson_leaf bj) kv.2)) m.
Proof.
  induction 1 as [|kv i m es ((Hv & _) & Hk & _) _ IH]; cbn [map]; [done|]. by rewrite Hv, Hk, IH.
Qed.

(** Without the members of an n-dimensional array an object is written as one. *)
Lemma with_member_none {A} key (f : json → A) m :
  existsb (λ kv, cs_eqb kv.1 key) m = false → with_member key f m = None.
Proof.
  induction m as [|[k v] m IH]; cbn [existsb with_member fst]; intros Hm; [done|].
  apply orb_false_iff in Hm as [-> Hm]. by apply IH.
Qed.

Definition write_members (m : list (cstring * json)) (add_prefix : bool) : outcome json_exn cstring :=
  let type := shared_type (map snd m) in
  count ← container_count le bj uc (Z.of_nat (length m));
  members ← write_all (λ kv,
    size ← write_ubjson_size le bj (Z.of_nat (length kv.1));
    el ← write kv.2 (prefix_required type);
    Ret (size ++ kv.1 ++ el)) m;
  Ret (with_prefix add_prefix mark_object
         (type_prefix type ++ count ++ members ++ container_end uc mark_end_object)).

Lemma write_plain_object m b :
  node_no_ndarray bj (J_object m) = true → write (J_object m) b = write_members m b.
Proof.
  intros Hm. cbn [write_ubjson]. rewrite asserted. cbn [assert]. fold (shared_type (map snd m)).
  fold (write_members m b). cbn [node_no_ndarray] in Hm. apply negb_true_iff in Hm.
  destruct (bj && (length m =? 3)%nat); [|done]. cbn [andb forallb] in Hm.
  destruct (existsb _ m) eqn:E1 in Hm; [|by rewrite (with_member_none _ _ _ E1)].
  destruct (existsb _ m) eqn:E2 in Hm;
    [|rewrite !(with_member_none _ _ _ E2); by destruct (with_member _ _ _)].
  destruct (existsb _ m) eqn:E3 in Hm; [done|]. rewrite (with_member_none _ _ _ E3).
  by repeat destruct (with_member _ _ _).
Qed.

Lemma member_text_length b es :
  (length (concat (map (λ i, with_prefix b (i_prefix i) (i_body i)) es)) ≤
   length (concat (map (member_text b) es)))%nat.
Proof.
  induction es as [|e es IH]; cbn [map concat]; [done|]. unfold member_text at 1. rewrite !length_app. lia.
Qed.

Lemma members_all_read m es value :
  Forall2 member_encodes m es → Forall (item_reads value) es → Forall (member_reads value) es.
Proof.
  induction 1 as [|kv i m es (_ & Hk & Hb & _ & Hst) _ IH]; intros Hes; [constructor|].
  inversion_clear Hes as [|? ? Hi Hes']. constructor; [|by apply IH]. split; [done|]. by rewrite Hk.
Qed.

Lemma members_elements value es ty :
  Forall (member_reads value) es → Forall (λ i, ty = 0 ∨ i_prefix i = ty) es → ty = 0 ∨ marker ty →
  Forall2 (reads_member (get_ubjson_member fmt true (element value ty)))
    (map (member_text (ty =? 0)) es) (map (λ i, (i_key i, i_value i)) es).
Proof.
  intros Hes Hty Hm. induction Hes as [|i es (Hi & Hk & Hst) _ IH]; cbn [map]; [constructor|].
  inversion_clear Hty as [|? ? Hi' Hty']. constructor; [|by apply IH]. unfold member_text.
  rewrite app_assoc. unfold get_ubjson_member. apply reads_key_value.
  - intros r q Hr. rewrite <- app_assoc in Hr. by eapply ran_ubjson_string.
  - pose proof (items_elements value [i] ty (proj2 (Forall_singleton _ _) Hi)
      (proj2 (Forall_singleton _ _) Hi') Hm) as Hall.
    by inversion_clear Hall.
Qed.

Lemma writes_object m : Forall (λ kv, writes kv.2) m → writes (J_object m).
Proof.
  intros IH Hwf Hfit Hnd. unfold json_wf, json_fits in *. cbn [json_forall node_wf node_fits] in *.
  to_prop. destruct (writes_members m IH) as (es & Hes); [done..|].
  pose proof (Forall2_length _ _ _ Hes) as Hlen. pose proof (members_items m es Hes) as Hits.
  pose proof ubjson_max_size as [_ Hmax].
  destruct (size_written (Z.of_nat (length m)) ltac:(lia)) as (t & Ht & Hst).
  destruct (header_counted (map snd m) es (Z.of_nat (length m)) t Hits ltac:(lia) Hst) as (Hc & Hm & Hty & Hreq).
  set (ty := default 0 (shared_type (map snd m))) in *.
  destruct uc_cases as [Euc|[Euc Eut]].
  - set (encs := map (member_text (ty =? 0)) es) in *.
    apply (encodes_intro _ ((type_prefix (shared_type (map snd m)) ++ mark_count :: t) ++ concat encs));
      [by repeat split|..].
    + intros b. rewrite write_plain_object by done. unfold write_members, container_count, container_end.
      rewrite Hreq, (write_all_members m es (ty =? 0) Hes), Euc, Ht. cbn [mbind outcome_bind ubjson_prefix].
      rewrite app_nil_r. by rewrite <- !app_assoc.
    + intros fuel Hf. cbn [leaf_map]. rewrite <- build_object_leaf_map by done. rewrite <- (members_values m es Hes).
      eapply reads_counted_object; [rewrite length_map, <- Hlen; exact Hc|rewrite length_map; lia|].
      apply members_elements; [|done..]. eapply members_all_read; [done|].
      apply (items_read (map snd m) es (ty =? 0)); [done|].
      pose proof (member_text_length (ty =? 0) es) as Hl. fold encs in Hl. rewrite !length_app in Hf. simpl in Hf. lia.
  - apply (encodes_intro _ (concat (map member_bytes es) ++ [mark_end_object])); [by repeat split|..].
    + intros b. rewrite write_plain_object by done. unfold write_members, shared_type, container_count, container_end.
      pose proof (write_all_members m es true Hes) as Hw.
      rewrite Euc, Eut in *. cbn [mbind outcome_bind prefix_required]. by rewrite Hw.
    + intros fuel Hf. cbn [leaf_map]. rewrite <- build_object_leaf_map by done. rewrite <- (members_values m es Hes).
      apply reads_items_object. eapply members_all_read; [done|]. apply (items_read (map snd m) es true); [done|].
      pose proof (member_text_length true es) as Hl. rewrite length_app in Hf. simpl in Hf.
      change (map member_bytes es) with (map (member_text true) es) in Hf. lia.
Qed.

(** * Values *)

Lemma writes_value j : writes j.
Proof.
  induction j as [|m IH|l IH|s|b|z|z|f|b st|] using json_rect_nested.
  - intros _ _ _. apply (encodes_intro _ []); [by repeat split|done|]. intros fuel _. by apply reads_constant.
  - by apply writes_object.
  - by apply writes_array.
  - apply writes_string.
  - intros _ _ _. destruct b; (apply (encodes_intro _ []); [by repeat split|done|]); intros fuel _;
      by apply reads_constant.
  - apply writes_integer.
  - apply writes_unsigned.
  - apply writes_float.
  - apply writes_binary.
  - intros _ Hfit _. done.
Qed.

(** What [write_ubjson] writes is read back by [parse_ubjson_internal]. *)
Lemma reads_ubjson j :
  json_wf j = true → json_fits 56 j = true → json_forall (node_no_ndarray bj) j = true →
  ∃ bs, write j true = Ret bs ∧
    reads_value (parse_ubjson_internal fmt dp) bs (leaf_map (ubjson_leaf bj) j).
Proof.
  intros Hwf Hfit Hnd. destruct (writes_value j Hwf Hfit Hnd) as (i & Hv & _ & Hm & Hw & Hr).
  exists (item_bytes i). split; [apply Hw|]. rewrite <- Hv. unfold parse_ubjson_internal.
  apply (reads_value_more 2 (λ n, parse_ubjson (get_ubjson_value fmt n dp) true)); [lia|].
  intros fuel Hf. apply reads_parse; [unfold marker in Hm; tauto|]. apply Hr. simpl in Hf. lia.
Qed.
End values.
End ubjson.
