(* ===== verification/UbjsonSafety.v ===== *)
(** The reader of UBJSON and BJData on arbitrary bytes, against the contract
    of [BinarySafety]: its loops and its recursion end, an n-dimensional array
    leaves the handler in the state that the rest of the reader expects, and
    the text of a high-precision number is always scanned. *)

From S2P Require Import Prelude Double JsonValue JsonLexer JsonLexerFacts JsonTyping JsonParser JsonParserFacts.
From S2P Require Import BinaryNumbers BinaryNumbersFacts BinaryReader BinaryReaderFacts BinarySafety.
From S2P Require Import MsgPackSafety Cbor CborSafety Ubjson UbjsonFacts.

(** The errors that only these formats report: text that is no number, and a
    size that is too large. *)
Definition ubjson_error (e : json_exn) : Prop :=
  (∃ pos what, e = create_parse_error_at 115 pos what) ∨ excessive e.

Section ubjson.
  Context {S : Type} {X : json_exn → Prop} {big : Prop} `{BinaryLaws S X big}.
  Context (fmt : input_format_t) (Hfmt : fmt ≠ F_json) (Hbig : big).
  Context (Herr : ∀ e, ubjson_error e → allowed e).

Abbreviation rd_good := (rd_good (X := X)).

(** * Errors *)

(** The reader has stopped. *)
Definition failed {A} (n : nat) (p : bool * A) (r : reader S) : Prop := p.1 = false ∧ after [] false n false r.

Lemma failed_got {A} st k n (P : A → Prop) p r : failed n p r → got st k n P p r.
Proof. destruct p as [b a]. intros [Hb Ha]. simpl in Hb. subst b. by split. Qed.

Lemma report_failed {A} id t detail ctx (a : A) r st k n :
  holds st k n r → In id [110; 112; 113; 114] →
  rd_good (b ← report id t fmt detail ctx; mret (b, a)) r (failed n).
Proof.
  intros Hr Hid. eapply rd_good_bind; [by apply (report_good _ _ _ _ _ r st k n)|].
  intros b r' (-> & Hr' & Ht). apply rd_good_ret. split; [done|]. split; [done|]. by exists st, k.
Qed.

Lemma failing_failed {A} id d c (a : A) r st k n :
  holds st k n r → In id [110; 112; 113; 114] → rd_good (failing fmt id d c a) r (failed n).
Proof. intros Hr Hid. apply token_good. intros t. by apply (report_failed _ _ _ _ _ _ st k). Qed.

Lemma report_range_good t d c r st k n :
  holds st k n r →
  rd_good (report_range fmt t d c) r (λ b r', b = false ∧ holds st k n r' ∧ told (r_sax r')).
Proof.
  intros Hr. unfold BinarySafety.rd_good, report_range, exception_message.
  assert (∃ name, format_name fmt = Ret name) as (name & ->) by (destruct fmt; simpl; eauto; done).
  cbn [mbind outcome_bind]. apply (parse_error_good _ _ _ r st k n); [done|].
  apply Herr. right. by eexists.
Qed.

(** * Reading a byte that is not [N] *)

Lemma noop_good r st k n :
  holds st k n r →
  rd_good get_ignore_noop r (λ c r', holds st k n r' ∧ current r' = c ∧
    (c = eof ∨ is_byte c = true ∧ (0 < n)%nat ∧ holds st k (pred n) r')).
Proof.
  intros Hr. unfold get_ignore_noop. assert (∀ fuel n r, (length (ia r) < fuel)%nat → holds st k n r →
    rd_good (get_ignore_noop_loop fuel) r (λ c r', holds st k n r' ∧ current r' = c ∧
    (c = eof ∨ is_byte c = true ∧ (0 < n)%nat ∧ holds st k (pred n) r'))) as Hl; [|apply Hl; [lia|done]].
  intros fuel. clear n r Hr. induction fuel as [|fuel IH]; intros n r Hf Hr; [lia|]. cbn [get_ignore_noop_loop].
  unfold BinarySafety.rd_good. rewrite rd_bind_run. unfold get. destruct Hr as (Hs & Hn & Hb & Hi).
  destruct (ia r) as [|c q] eqn:E; cbn [mbind outcome_bind]; simpl in Hf, Hn, Hb.
  - change (eof =? 78) with false. cbn. split; [by repeat split|]. split; [done|by left].
  - to_prop. case_if.
    + eapply goodx_mono; [apply (IH (pred n)); [simpl; lia|repeat split; simpl; try done; lia]|].
      intros [c' r'] (Hr' & Hc & Hcase). split; [eapply holds_mono; [done|lia]|]. split; [done|].
      destruct Hcase as [|(? & ? & Hp)]; [by left|right]. split; [done|]. split; [lia|].
      eapply holds_mono; [done|lia].
    + cbn. split; [repeat split; simpl; try done; lia|]. split; [done|]. right.
      split; [done|]. split; [lia|]. repeat split; simpl; try done; lia.
Qed.

(** * Lengths and counts *)

Lemma length_type_values c T a :
  length_type fmt c = Some T → bits_of T a → in_u 64 a = true ∨ a < 0.
Proof.
  assert (∀ sz, (0 < sz ≤ 8)%nat → bits_of (uint sz) a → in_u 64 a = true ∨ a < 0) as Hu
    by (intros sz Hsz Ha; left; eapply uint_in; [|exact Ha]; lia).
  assert (∀ sz, (0 < sz ≤ 8)%nat → bits_of (sint sz) a → in_u 64 a = true ∨ a < 0) as Hs.
  { intros sz Hsz Ha. pose proof (sint_in sz a Hsz Ha) as Hin. unfold in_s, in_u in *. to_prop.
    destruct (Z.lt_ge_cases a 0); [by right|left]. apply andb_true_iff. split; lia. }
  unfold length_type.
  repeat (case_if; [intros [= <-]; (apply Hu || apply Hs); lia|]). done.
Qed.

Lemma get_ubjson_string_good get_char r st k n :
  holds st k n r →
  rd_good (get_ubjson_string fmt get_char []) r
    (λ p r', got st k n bytes p r' ∧ (get_char = false → current r = eof → p.1 = false)).
Proof.
  intros Hr. unfold get_ubjson_string.
  eapply (rd_good_bind _ _ _ (λ _ r1, holds st k n r1 ∧ (get_char = false → r1 = r))).
  { destruct get_char; [|by split]. eapply rd_good_mono; [by apply get_good|]. by intros c r1 (Hr1 & _). }
  intros _ r1 [Hr1 Hsame].
  eapply rd_good_bind; [by apply unexpect_eof_good|]. intros [] r2 (Hr2 & H1' & H2'); cbn [negb].
  2:{ apply rd_good_ret. split; [|done]. split; [|done]. apply holds_after; [done|]. intros _. by apply H2'. }
  destruct (H1' eq_refl) as [-> He].
  eapply (rd_good_mono _ _ (got st k n bytes));
    [|intros p r' Hg; split; [done|]; intros Hc Heof; by rewrite (Hsame Hc) in He].
  apply last_good. destruct (length_type fmt (current r1)) as [T|].
  - eapply and_set_good; [by apply number_good|]. intros len r' _ Hr'. by apply get_string_good.
  - apply token_good. intros t. eapply rd_good_mono; [|intros p r' Hp; by apply failed_got].
    apply (report_failed _ _ _ _ _ _ st k); [done|simpl; auto].
Qed.

(** A size, with the state of the handler: the object of an n-dimensional
    array has been started when the size is one. *)
Definition size_post (st : list bool) (k : bool) (n : nat) (p : bool * (Z * bool)) (r : reader S) : Prop :=
  if p.1 then
    if p.2.2 then fmt = F_bjdata ∧ p.2.1 ≠ npos ∧ holds (false :: st) false n r
    else holds st k n r
  else after st k n false r.

(** A dimension, which may not have dimensions. *)
Definition dimension_post (st : list bool) (k : bool) (n : nat) (prefix : Z) (p : bool * (Z * bool))
    (r : reader S) : Prop :=
  got st k n (λ q, in_u 64 q.1 = true) p r ∧ (prefix = eof → p.1 = false).

Lemma size_post_mono st k n n' p r : size_post st k n p r → (n ≤ n')%nat → size_post st k n' p r.
Proof.
  unfold size_post. intros Hp Hn. destruct p.1; [|by apply (after_mono _ _ n)].
  destruct p.2.2; [destruct Hp as (? & ? & ?); split; [done|split; [done|]]|]; by eapply holds_mono.
Qed.

Lemma count_good c T nd r st k n :
  length_type fmt c = Some T → holds st k n r →
  rd_good (get_ubjson_count fmt T nd) r (got st k n (λ q, in_u 64 q.1 = true ∧ q.2 = nd)).
Proof.
  intros HT Hr. eapply rd_good_bind; [by apply get_number_good|]. intros [ok a] r1 (Hr1 & Ha & Ht).
  destruct ok; cbn [negb].
  - destruct (length_type_values c T a HT Ha) as [Hin|Hneg].
    + assert ((a <? 0) = false) as -> by (unfold in_u in Hin; to_prop; lia). rewrite Hin. cbn [negb].
      apply rd_good_ret. by split.
    + decide_test (a <? 0) true. eapply rd_good_mono; [|intros p r' Hp; by apply failed_got].
      apply (failing_failed _ _ _ _ _ st k); [done|simpl; auto].
  - apply rd_good_ret. split; [|done]. apply holds_after; [done|]. intros _. by apply Ht.
Qed.

(** * Dimensions *)

Definition dims_ok (dim : list Z) : Prop := Forall (λ i, in_u 64 i = true) dim.

Definition loop_post (st : list bool) (n : nat) (p : option bool * Z) (r : reader S) : Prop :=
  match p.1 with
  | Some b => b = false ∧ after [] false n false r
  | None => holds (true :: false :: st) false n r ∧ p.2 ≠ npos
  end.

Lemma dimensions_loop_good dim result r st n :
  dims_ok dim → holds (true :: false :: st) false n r → result ≠ npos →
  rd_good (dimensions_loop fmt dim result) r (loop_post st n).
Proof.
  intros Hd. revert result r. induction Hd as [|i dim Hi _ IH]; intros result r Hr Hres; cbn [dimensions_loop].
  - by apply rd_good_ret.
  - cbv zeta. case_if.
    + apply token_good. intros t. eapply rd_good_bind; [by apply report_range_good|].
      intros b r1 (-> & Hr1 & Ht). apply rd_good_ret. split; [done|]. split; [done|]. by do 2 eexists.
    + to_prop. eapply rd_good_bind.
      * eapply event_after; [exact Hr|]. eapply blaw_unsigned; [apply Hr|done..].
      * intros [] r1 Ha; [by apply IH|by apply rd_good_ret].
Qed.

Lemma start_ndarray_good dim r st k n :
  fmt = F_bjdata → dims_ok dim → holds st k n r → value_pos st k →
  rd_good (start_ndarray fmt dim) r (size_post st k n).
Proof.
  intros Hbj Hd Hr Hv. unfold start_ndarray.
  eapply (rd_good_bind _ _ _ (after (true :: false :: st) false n)).
  - eapply and_also_good; [|done|].
    + eapply event_after; [exact Hr|]. apply blaw_start_object with (k := k); [apply Hr|done|by left].
    + intros r1 Hr1. eapply and_also_good; [|done|].
      * eapply event_after; [exact Hr1|]. eapply blaw_key; [apply Hr1|done].
      * intros r2 Hr2. eapply event_after; [exact Hr2|].
        apply blaw_start_array with (k := true); [apply Hr2|done|by left].
  - intros [] r1 Ha; cbn [negb]; [|by apply rd_good_ret].
    eapply rd_good_bind; [by apply (dimensions_loop_good dim 1 r1 st n)|].
    intros [[b|] result] r2 Hl; cbn in Hl.
    + destruct Hl as [-> Hl]. by apply rd_good_ret.
    + destruct Hl as [Hr2 Hne]. eapply rd_good_bind; [eapply event_after; [exact Hr2|]; eapply blaw_end_array, Hr2|].
      intros [] r3 Hr3; by apply rd_good_ret.
Qed.

Lemma dimensions_size_good dim r st k n :
  fmt = F_bjdata → dims_ok dim → holds st k n r → value_pos st k →
  rd_good (dimensions_size fmt dim) r (size_post st k n).
Proof.
  intros Hbj Hd Hr Hv. pose proof (start_ndarray_good dim r st k n Hbj Hd Hr Hv) as Hs.
  unfold dimensions_size. destruct dim as [|m [|n' [|x dim]]]; [done..| |].
  - case_if; [done|]. by case_if.
  - by case_if.
Qed.

(** * Sizes

    [sv] is [get_ubjson_size_value] when at most [n] bytes are left. *)
Definition sizes (sv : bool → Z → rd S (bool * (Z * bool))) (n : nat) : Prop :=
  (∀ m r st k, (m ≤ n)%nat → holds st k m r → value_pos st k →
     rd_good (sv false 0) r (size_post st k m)) ∧
  ∀ prefix m r st k, (m ≤ n)%nat → holds st k m r →
    rd_good (sv true prefix) r (dimension_post st k m prefix).

Lemma dimension_step_good nds prefix r st k n :
  holds st k n r → rd_good (get_ubjson_size_step fmt nds true prefix) r (dimension_post st k n prefix).
Proof.
  intros Hr. unfold get_ubjson_size_step.
  eapply (rd_good_bind _ _ _ (λ c r1, holds st k n r1 ∧ (prefix = eof → c = eof))).
  { case_if; [|by apply rd_good_ret]. eapply rd_good_mono; [by apply noop_good|]. intros c r1 (Hr1 & _).
    split; [done|]. to_prop. by subst. }
  intros c r1 [Hr1 He]. destruct (length_type fmt c) as [T|] eqn:HT.
  - eapply rd_good_mono; [by eapply count_good|]. intros p r2 [Ha Hp]. split.
    + split; [done|]. intros Hok. by apply Hp.
    + intros Heof. rewrite (He Heof) in HT. exfalso. revert HT. unfold length_type. cbn. done.
  - eapply (rd_good_mono _ _ (failed n)); [|intros p r2 Hp; by split; [apply failed_got|intros _; apply Hp]].
    case_if; [apply (failing_failed _ _ _ _ _ st k); [done|simpl; auto]|].
    apply token_good. intros t. apply (report_failed _ _ _ _ _ _ st k); [done|simpl; auto].
Qed.

Lemma size_step_good nds r st k n :
  (∀ m r, (m < n)%nat → holds st k m r → rd_good nds r (got st k m dims_ok)) →
  holds st k n r → value_pos st k →
  rd_good (get_ubjson_size_step fmt nds false 0) r (size_post st k n).
Proof.
  intros Hnds Hr Hv. unfold get_ubjson_size_step. cbn [Z.eqb].
  eapply rd_good_bind; [by apply noop_good|]. intros c r1 (Hr1 & _ & Hcase).
  assert (∀ p r2, failed n p r2 → size_post st k n p r2) as Hfail.
  { intros [b q] r2 [Hb Ha]. simpl in Hb. by subst b. }
  destruct (length_type fmt c) as [T|] eqn:HT.
  - eapply rd_good_mono; [by eapply count_good|]. intros [[] [sz nd]] r2 [Ha Hp]; [|done].
    unfold size_post. cbn [fst snd] in *. by destruct (Hp eq_refl) as [_ ->].
  - case_if.
    + to_prop. destruct Hcase as [->|(_ & Hn0 & Hr1')]; [done|].
      eapply rd_good_bind; [by apply (Hnds (pred n)); [lia|]|]. intros [[] dim] r2 [Ha Hd]; cbn [negb].
      * eapply rd_good_mono; [apply (dimensions_size_good dim r2 st k (pred n)); try done; by apply Hd|].
        intros p r3 Hp. eapply size_post_mono; [done|lia].
      * apply rd_good_ret. apply (after_mono st k (pred n) n false); [done|lia].
    + apply token_good. intros t. eapply rd_good_mono; [|exact Hfail].
      apply (report_failed _ _ _ _ _ _ st k); [done|simpl; auto].
Qed.

(** The size and the type of a container.  Behind them a byte has been read,
    unless the input has ended. *)
Definition type_post (inside : bool) (st : list bool) (k : bool) (n : nat) (p : bool * (Z * Z))
    (r : reader S) : Prop :=
  let '(ok, (size, ty)) := p in
  if ok : bool then
    ty ≠ eof ∧ Z.land ty ndarray_bit = 0 ∧
      (holds st k n r ∧ current r = eof ∧ size = npos ∧ ty = 0 ∨ (0 < n)%nat ∧ holds st k (pred n) r) ∨
    inside = false ∧ fmt = F_bjdata ∧ size ≠ npos ∧ Z.land ty ndarray_bit ≠ 0 ∧
      (0 < n)%nat ∧ holds (false :: st) false (pred n) r
  else after st k n false r.

Lemma ndarray_bit_set ty : is_byte ty = true → Z.land (Z.lor ty ndarray_bit) ndarray_bit ≠ 0.
Proof.
  intros Hty. rewrite Z.land_lor_distr_l, byte_no_ndarray by done. by vm_compute.
Qed.

Lemma failed_type inside st k n m p r : (m ≤ n)%nat → failed m p r → type_post inside st k n p r.
Proof.
  destruct p as [b [size ty]]. intros Hm [Hb Ha]. simpl in Hb. subst b. by apply (after_mono _ _ m).
Qed.

(** What follows a size: the handler is in some state, even if it has stopped. *)
Lemma size_post_holds st k n p r : size_post st k n p r → ∃ st' k', holds st' k' n r.
Proof.
  unfold size_post. destruct p.1; [|by intros (_ & Hr)]. destruct p.2.2; [intros (_ & _ & Hr)|intros Hr]; eauto.
Qed.

Lemma typed_size_good (inside : bool) st k n ok size nd ty r :
  size_post st k (pred n) (ok, (size, nd)) r → (0 < n)%nat → is_byte ty = true →
  rd_good (if bool_decide (fmt = F_bjdata) && nd then
      if inside then failing fmt 112 "ndarray can not be recursive" "size" (size, ty)
      else mret (ok, (size, Z.lor ty ndarray_bit))
    else mret (ok, (size, ty))) r (type_post inside st k n).
Proof.
  intros Hp Hn Hty. case_if; [destruct inside|].
  - destruct (size_post_holds _ _ _ _ _ Hp) as (st' & k' & Hr).
    eapply rd_good_mono; [|intros p r' Hf; apply (failed_type _ _ _ n (pred n)); [lia|exact Hf]].
    apply (failing_failed _ _ _ _ _ st' k'); [done|simpl; auto].
  - to_prop. subst nd. apply rd_good_ret. destruct ok; [|by apply (after_mono st k (pred n) n false); [|lia]].
    right. destruct Hp as (Hbj & Hne & Hr). split_and!; try done. by apply ndarray_bit_set.
  - apply rd_good_ret. destruct ok; [|by apply (after_mono st k (pred n) n false); [|lia]].
    left. split; [|split; [by apply byte_no_ndarray|]].
    + intros ->. done.
    + right. split; [done|]. unfold size_post in Hp. cbn [fst snd] in Hp. destruct nd; [|done].
      destruct Hp as (-> & _). rewrite bool_decide_eq_true_2 in * by done. done.
Qed.

Lemma plain_size_good inside st k n ok size nd r :
  size_post st k (pred n) (ok, (size, nd)) r → (0 < n)%nat →
  rd_good (if bool_decide (fmt = F_bjdata) && nd
    then failing fmt 112 "ndarray requires both type and size" "size" (size, 0)
    else mret (ok, (size, 0))) r (type_post inside st k n).
Proof.
  intros Hp Hn. case_if.
  - destruct (size_post_holds _ _ _ _ _ Hp) as (st' & k' & Hr).
    eapply rd_good_mono; [|intros p r' Hf; apply (failed_type _ _ _ n (pred n)); [lia|exact Hf]].
    apply (failing_failed _ _ _ _ _ st' k'); [done|simpl; auto].
  - apply rd_good_ret. destruct ok; [|by apply (after_mono st k (pred n) n false); [|lia]].
    left. split; [done|]. split; [done|]. right. split; [done|].
    unfold size_post in Hp. cbn [fst snd] in Hp. destruct nd; [|done].
    destruct Hp as (-> & _). rewrite bool_decide_eq_true_2 in * by done. done.
Qed.

Lemma size_type_good sv inside r st k n :
  (∀ m, (m < n)%nat → sizes sv m) → holds st k n r → value_pos st k →
  rd_good (get_ubjson_size_type fmt sv inside) r (type_post inside st k n).
Proof.
  intros Hsv Hr Hv. unfold get_ubjson_size_type.
  eapply rd_good_bind; [by apply noop_good|]. intros c r1 (Hr1 & Hcur & Hcase).
  destruct Hcase as [->|(Hc & Hn0 & Hr1')].
  { apply rd_good_ret. left. split; [done|]. split; [done|]. by left. }
  destruct (Hsv (pred n) ltac:(lia)) as [Hsz _]. case_if; [|case_if].
  - eapply rd_good_bind; [by apply get_good|]. intros ty r2 (Hr2 & Hcur2 & Hty).
    case_if.
    { apply token_good. intros t. eapply rd_good_mono; [|intros p r' Hp; by apply (failed_type _ _ _ _ (pred n)); [lia|]].
      apply (report_failed _ _ _ _ _ _ st k); [done|simpl; auto]. }
    eapply rd_good_bind; [by apply unexpect_eof_good|]. intros [] r3 (Hr3 & H1' & H2'); cbn [negb].
    2:{ apply rd_good_ret. apply (after_mono st k (pred n) n false); [|lia]. split; [by apply H2'|by exists st, k]. }
    destruct (H1' eq_refl) as [-> He]. destruct Hty as [->|(Hb & _)]; [done|].
    eapply rd_good_bind; [by apply noop_good|]. intros c4 r4 (Hr4 & _ & _). case_if.
    + eapply rd_good_bind; [by apply unexpect_eof_good|]. intros [] r5 (Hr5 & _ & H5'); cbn [negb].
      2:{ apply rd_good_ret. apply (after_mono st k (pred n) n false); [|lia]. split; [by apply H5'|by exists st, k]. }
      apply token_good. intros t. eapply rd_good_mono; [|intros p r' Hp; by apply (failed_type _ _ _ _ (pred n)); [lia|]].
      apply (report_failed _ _ _ _ _ _ st k); [done|simpl; auto].
    + eapply rd_good_bind; [by apply (Hsz (pred n) r4 st k)|]. intros [ok [size nd]] r5 Hp.
      by apply typed_size_good.
  - eapply rd_good_bind; [by apply (Hsz (pred n) r1 st k)|]. intros [ok [size nd]] r5 Hp.
    by apply plain_size_good.
  - apply rd_good_ret. left. split; [done|]. split; [done|]. right. by split.
Qed.

Lemma get_dimension_good sv prefix dim r st k n m :
  sizes sv n → (m ≤ n)%nat → holds st k m r → dims_ok dim →
  rd_good (get_dimension sv prefix dim) r
    (λ p r', got st k m dims_ok p r' ∧ (prefix = eof → p.1 = false)).
Proof.
  intros [_ Hsv] Hm Hr Hd. eapply rd_good_bind; [by apply (Hsv prefix m r st k)|].
  intros [[] [len nd]] r1 [[Ha Hp] He]; apply rd_good_ret; (split; [split; [done|]|done]); cbn [fst snd] in *.
  - intros _. apply Forall_app. split; [done|]. constructor; [by apply Hp|constructor].
  - done.
Qed.

(** A loop that reads a byte at the end of its body. *)
Lemma read_next_good r st k n fuel {A} (f : Z → rd S A) Q :
  holds st k n r → (n + 1 < Datatypes.S fuel)%nat →
  (∀ c m r', (m ≤ n)%nat → holds st k m r' → fuel_for fuel m r' → rd_good (f c) r' Q) →
  rd_good (get_ignore_noop ≫= f) r Q.
Proof.
  intros Hr Hf Hk. eapply rd_good_bind; [by apply noop_good|]. intros c r1 (Hr1 & Hc & [->|(_ & Hn0 & Hr1')]).
  - apply (Hk _ n r1); [lia|done|]. split; [lia|by left].
  - apply (Hk _ (pred n) r1); [lia|done|]. split; [lia|]. right. lia.
Qed.

Lemma dimension_loop_good sv dim r st k n m fuel :
  sizes sv n → (m ≤ n)%nat → holds st k m r → dims_ok dim → fuel_for fuel m r →
  rd_good (dimension_loop sv fuel dim) r (got st k m dims_ok).
Proof.
  intros Hsv. revert dim r m. induction fuel as [|fuel IH]; intros dim r m Hm Hr Hd [Hf0 Hf]; [lia|].
  cbn [dimension_loop]. apply last_good. case_if; [by apply rd_good_ret|].
  eapply rd_good_bind; [by apply (get_dimension_good sv _ dim r st k n m)|].
  intros [[] dim'] r1 [[Ha Hp] He]; cbn [negb]; [|by apply rd_good_ret].
  destruct Hf as [Hf|Hf]; [by specialize (He Hf)|].
  eapply read_next_good; [exact Ha|exact Hf|]. intros _ m' r2 Hm' Hr2 Hf2.
  eapply rd_good_mono; [apply (IH dim' r2 m'); [lia|done|by apply Hp|done]|].
  intros p r3 Hg. by eapply got_mono.
Qed.

Lemma ndarray_size_good sv r st k n :
  sizes sv n → holds st k n r → value_pos st k →
  rd_good (get_ubjson_ndarray_size fmt sv) r (got st k n dims_ok).
Proof.
  intros Hsv Hr Hv. unfold get_ubjson_ndarray_size.
  eapply rd_good_bind; [apply (size_type_good sv true r st k n); [|done..]|].
  - intros m Hm. destruct Hsv as [H1' H2']. split; intros; [apply H1'|apply H2']; try done; lia.
  - intros [[] [size ty]] r1 Hp; cbn [negb]; [|by apply rd_good_ret].
    assert (holds st k n r1) as Hr1.
    { destruct Hp as [(_ & _ & [[Hh _]|[_ Hh]])|[? _]]; [done| |done]. eapply holds_mono; [exact Hh|lia]. }
    assert (∀ len prefix, rd_good (for_loop len (get_dimension sv prefix) []) r1 (got st k n dims_ok)) as Hfor.
    { intros len prefix. apply (for_loop_good dims_ok); [done|constructor|]. intros dim r2 Hd Hr2.
      eapply rd_good_mono; [by apply (get_dimension_good sv prefix dim r2 st k n n)|]. by intros p r3 [Hg _]. }
    case_if; [case_if; [case_if|]|].
    + apply Hfor.
    + apply rd_good_ret. split; [done|]. intros _. constructor.
    + apply Hfor.
    + pose proof Hr1 as (Hs & Hn & Hb & Hi).
      assert (rd_good (dimension_loop sv (2 + length (ia r1)) []) r1 (got st k (length (ia r1)) dims_ok)) as Hg.
      { apply (dimension_loop_good sv [] r1 st k n); [done..| |constructor|].
        - by repeat split.
        - split; [lia|right; lia]. }
      eapply goodx_mono; [exact Hg|]. intros [p r'] Hp'. by eapply got_mono.
Qed.

Lemma size_loop_good fuel n : (n < fuel)%nat → sizes (get_ubjson_size_loop fmt fuel) n.
Proof.
  revert n. induction fuel as [|fuel IH]; intros n Hn; [lia|]. cbn [get_ubjson_size_loop]. split.
  - intros m r st k Hm Hr Hv. apply size_step_good; [|done..]. intros m' r' Hm' Hr'.
    apply ndarray_size_good; [apply IH; lia|done..].
  - intros prefix m r st k Hm Hr. by apply dimension_step_good.
Qed.

Lemma size_value_good n : sizes (get_ubjson_size_value fmt) n.
Proof.
  split.
  - intros m r st k _ Hr Hv. pose proof Hr as (Hs & Hn & Hb & Hi).
    destruct (size_loop_good (2 + length (ia r)) (length (ia r)) ltac:(lia)) as [Hsz _].
    assert (rd_good (get_ubjson_size_loop fmt (2 + length (ia r)) false 0) r (size_post st k (length (ia r)))) as Hg.
    { apply Hsz; [done|by repeat split|done]. }
    eapply goodx_mono; [exact Hg|]. intros [p r'] Hp. by eapply size_post_mono.
  - intros prefix m r st k _ Hr. pose proof Hr as (Hs & Hn & Hb & Hi).
    destruct (size_loop_good (2 + length (ia r)) (length (ia r)) ltac:(lia)) as [_ Hsz].
    assert (rd_good (get_ubjson_size_loop fmt (2 + length (ia r)) true prefix) r
      (dimension_post st k (length (ia r)) prefix)) as Hg.
    { apply Hsz; [done|by repeat split]. }
    eapply goodx_mono; [exact Hg|]. intros [p r'] [Hp He]. split; [|done]. by eapply got_mono.
Qed.

(** An event does not read. *)
Lemma event_keeps (f : S → sax_result S) r :
  match event f r with Ret (_, r') => current r' = current r | _ => True end.
Proof. unfold event. by destruct (f (r_sax r)) as [[b s]| | | |]. Qed.

Lemma rd_good_both {A} (m : rd S A) r (Q : A → reader S → Prop) (R : reader S → Prop) :
  rd_good m r Q → match m r with Ret (_, r') => R r' | _ => True end →
  rd_good m r (λ a r', Q a r' ∧ R r').
Proof. unfold BinarySafety.rd_good, goodx. by destruct (m r) as [[a r']| | | |]. Qed.

(** * Numbers *)

Context (dp : Z) (Hdp : dp_ok dp = true).

(** The text of a high-precision number is scanned, and what it stands for is
    in the range of its type. *)
Lemma scan_text text :
  bytes text →
  ∃ t1 lx1 t2 lx2, scan (init_lexer dp text false) = Ret (t1, lx1) ∧ scan lx1 = Ret (t2, lx2) ∧
    (t2 = token_type.end_of_input → token_ok t1 lx1 ∧ lexer_numbers lx2 = lexer_numbers lx1).
Proof.
  intros Hb. destruct (scan_total dp false _ _ Hdp (init_lexer_left dp false text Hb)) as (t1 & lx1 & E1 & Hl1 & _).
  destruct (scan_total dp false _ _ Hdp Hl1) as (t2 & lx2 & E2 & _ & _).
  exists t1, lx1, t2, lx2. split; [done|]. split; [done|]. intros ->. split; [|by apply scan_end_numbers].
  pose proof (scan_typed (init_lexer dp text false)) as Ht. by rewrite E1 in Ht.
Qed.

Lemma emit_high_precision_good text r st k n :
  bytes text → holds st k n r → value_pos st k →
  rd_good (emit_high_precision fmt dp text) r (after st false n).
Proof.
  intros Hb Hr Hv. destruct (scan_text text Hb) as (t1 & lx1 & t2 & lx2 & E1 & E2 & Hok).
  assert (∀ tok detail ctx, rd_good (report 115 tok fmt detail ctx) r (after st false n)) as Hrep.
  { intros tok detail ctx. eapply rd_good_mono; [apply report_allowed; [exact Hr|done|]|].
    - intros pos what. apply Herr. left. by do 2 eexists.
    - intros b r' (-> & Hr' & Ht). split; [done|]. by exists st, k. }
  unfold BinarySafety.rd_good, emit_high_precision in *. rewrite E1. cbn [mbind outcome_bind]. rewrite E2.
  cbn [mbind outcome_bind]. cbv zeta. case_bool_decide as Ht2; cbn [negb]; [|apply Hrep].
  destruct (Hok Ht2) as [Ht [= Hi Hu Hf]].
  destruct t1; try apply Hrep; simpl in Ht; eapply event_after; try exact Hr.
  - rewrite Hu. eapply blaw_unsigned; [apply Hr|done..].
  - rewrite Hi. eapply blaw_integer; [apply Hr|done..].
  - rewrite Hf. eapply blaw_float; [apply Hr|done..].
Qed.

Lemma high_precision_good r st k n :
  holds st k n r → value_pos st k →
  rd_good (get_ubjson_high_precision_number fmt dp) r (after st false n).
Proof.
  intros Hr Hv. destruct (size_value_good n) as [_ Hsz].
  eapply rd_good_bind; [by apply (Hsz 0 n r st k)|]. intros [[] [size nd]] r1 [[Ha Hp] _]; cbn [negb].
  - eapply and_then_good; [apply (get_bytes_good fmt "number" size [] r1 st k n Ha Hfmt eq_refl)|done|]. intros text r2 Ht Hr2.
    by apply (emit_high_precision_good text r2 st k).
  - by apply rd_good_ret.
Qed.

Lemma half_good r st k n :
  holds st k n r → value_pos st k → rd_good (get_ubjson_half fmt) r (after st false n).
Proof.
  intros Hr Hv. unfold get_ubjson_half. eapply rd_good_bind; [by apply get_good|]. intros b1 r1 (Hr1 & _).
  eapply rd_good_bind; [by apply unexpect_eof_good|]. intros [] r2 (Hr2 & _ & Ht2); cbn [negb];
    [|apply rd_good_ret; split; [by apply Ht2|by exists st, k]].
  eapply rd_good_bind; [by apply get_good|]. intros b2 r3 (Hr3 & _).
  eapply rd_good_bind; [by apply unexpect_eof_good|]. intros [] r4 (Hr4 & _ & Ht4); cbn [negb];
    [|apply rd_good_ret; split; [by apply Ht4|by exists st, k]].
  by apply (emit_half_good _ _ r4 st k).
Qed.

Lemma char_good r st k n :
  holds st k n r → value_pos st k → rd_good (get_ubjson_char fmt) r (after st false n).
Proof.
  intros Hr Hv. unfold get_ubjson_char. eapply rd_good_bind; [by apply get_good|]. intros c r1 (Hr1 & Hc & Hcase).
  eapply rd_good_bind; [by apply unexpect_eof_good|]. intros [] r2 (Hr2 & H1' & Ht2); cbn [negb];
    [|apply rd_good_ret; split; [by apply Ht2|by exists st, k]].
  destruct (H1' eq_refl) as [-> He]. destruct Hcase as [->|[Hb _]]; [done|]. case_if.
  - apply token_good. intros t. eapply report_after; [exact Hr1|done|simpl; auto].
  - eapply event_after; [exact Hr1|]. eapply blaw_string; [apply Hr1|done|]. cbn [forallb]. by rewrite Hb.
Qed.

(** * Loops over elements *)

Lemma repeat_good len body r st k n :
  holds st k n r → (∀ r, holds st k n r → rd_good body r (after st k n)) →
  rd_good (repeat_rd len body) r (after st k n).
Proof.
  intros Hr Hbody. unfold repeat_rd.
  eapply rd_good_bind; [apply (for_loop_good (λ _, True)); [exact Hr|done|]|].
  - intros [] r1 _ Hr1. by apply round_good, Hbody.
  - intros [b []] r1 [Ha _]. by apply rd_good_ret.
Qed.

Lemma while_not_good fuel stop body r st k n :
  holds st k n r → fuel_for fuel n r →
  (∀ m r, (m ≤ n)%nat → holds st k m r →
     rd_good body r (λ b r', after st k m b r' ∧ (current r = eof → b = false))) →
  rd_good (while_not fuel stop body) r (after st k n).
Proof.
  revert n r. induction fuel as [|fuel IH]; intros n r Hr [Hf0 Hf] Hbody; [lia|].
  cbn [while_not]. apply last_good. case_if; [by apply rd_good_ret|].
  eapply rd_good_bind; [by apply (Hbody n)|]. intros [] r1 [Ha He]; [|by apply rd_good_ret].
  destruct Hf as [Hf|Hf]; [by specialize (He Hf)|].
  eapply read_next_good; [exact Ha|exact Hf|]. intros _ m r2 Hm Hr2 Hf2.
  eapply rd_good_mono; [apply (IH m r2); [done..|]|].
  - intros m' r3 Hm' Hr3. apply Hbody; [lia|done].
  - intros b r3 Hg. by apply (after_mono st k m).
Qed.

Lemma until_marker_good stop body r st k n :
  holds st k n r →
  (∀ m r, (m ≤ n)%nat → holds st k m r →
     rd_good body r (λ b r', after st k m b r' ∧ (current r = eof → b = false))) →
  rd_good (until_marker stop body) r (after st k n).
Proof.
  intros Hr Hbody. pose proof Hr as (Hs & Hn & Hb & Hi).
  assert (rd_good (while_not (2 + length (ia r)) stop body) r (after st k (length (ia r)))) as Hg.
  { apply while_not_good; [by repeat split|split; [lia|right; lia]|].
    intros m r' Hm Hr'. apply Hbody; [lia|done]. }
  eapply goodx_mono; [exact Hg|]. intros [b r'] Ha. by apply (after_mono st k (length (ia r))).
Qed.

(** At the end of the input the loop does one round. *)
Lemma until_marker_end stop body r st k n :
  current r = eof → stop ≠ eof →
  rd_good body r (λ b r', after st k n b r' ∧ b = false) →
  rd_good (until_marker stop body) r (after st k n).
Proof.
  intros He Hstop Hbody. unfold BinarySafety.rd_good, until_marker. cbn [Nat.add while_not].
  change (rd_good (last_read ≫= λ c, if c =? stop then mret true
    else and_also body (get_ignore_noop ≫= λ _, while_not (1 + length (ia r)) stop body)) r (after st k n)).
  apply last_good. rewrite He. decide_test (eof =? stop) false.
  eapply rd_good_bind; [exact Hbody|]. intros b r1 [Ha ->]. by apply rd_good_ret.
Qed.

(** * Containers

    [value] reads values when at most [n] bytes are left, and reports the end
    of the input. *)
Definition parses_prefix (value : Z → rd S bool) (n : nat) : Prop :=
  ∀ m r st k c, (m ≤ n)%nat → holds st k m r → value_pos st k → (c = eof → current r = eof) →
    rd_good (value c) r (λ b r', after st false m b r' ∧ (c = eof → b = false)).

Definition parses_end (value : Z → rd S bool) : Prop :=
  ∀ m r st k, holds st k m r → current r = eof →
    rd_good (value eof) r (λ b r', after st false m b r' ∧ b = false).

Section containers.
  Context (value : Z → rd S bool).

Lemma parse_next_good r st k n :
  parses_prefix value n → holds st k n r → value_pos st k →
  rd_good (parse_ubjson value true) r (after st false n).
Proof.
  intros Hp Hr Hv. eapply rd_good_bind; [by apply noop_good|]. intros c r1 (Hr1 & Hc & _).
  eapply rd_good_mono; [apply (Hp n r1 st k c); try done; lia || congruence|]. by intros b r2 [Ha _].
Qed.

Lemma parse_current_good r st k n m :
  parses_prefix value n → (m ≤ n)%nat → holds st k m r → value_pos st k →
  rd_good (parse_ubjson value false) r (λ b r', after st false m b r' ∧ (current r = eof → b = false)).
Proof. intros Hp Hm Hr Hv. apply last_good. by apply (Hp m r st k). Qed.

Lemma prefix_after r st k n c :
  parses_prefix value n → holds st k n r → value_pos st k → c ≠ eof →
  rd_good (value c) r (after st false n).
Proof. intros Hp Hr Hv Hc. eapply rd_good_mono; [by apply (Hp n r st k c)|]. by intros b r1 [Ha _]. Qed.

Lemma type_name_marker ty name : bjd_type_name ty = Some name → ty ≠ eof.
Proof. intros Ht ->. revert Ht. by vm_compute. Qed.

Lemma bjdata_ndarray_good size ty r st n :
  parses_prefix value n → holds (false :: st) false n r →
  rd_good (get_bjdata_ndarray fmt value size ty) r (after st false n).
Proof.
  intros Hp Hr. unfold get_bjdata_ndarray. destruct (bjd_type_name ty) as [name|] eqn:Hty.
  2:{ apply token_good. intros t. eapply report_after; [exact Hr|done|simpl; auto]. }
  assert (forallb is_byte (str name) = true) as Hname.
  { revert Hty. unfold bjd_type_name, bjd_types_map. cbn [List.find fst snd option_map].
    repeat (case_if; [cbn [option_map snd]; intros [= <-]; reflexivity|]). done. }
  eapply and_also_good; [|done|].
  { eapply event_after; [exact Hr|]. eapply blaw_key; [apply Hr|done]. }
  intros r1 Hr1. eapply and_also_good; [|done|].
  { eapply event_after; [exact Hr1|]. eapply blaw_string; [apply Hr1|done..]. }
  intros r2 Hr2. eapply and_also_good; [|done|].
  { eapply event_after; [exact Hr2|]. eapply blaw_key; [apply Hr2|done]. }
  intros r3 Hr3. eapply and_also_good; [|done|].
  { eapply event_after; [exact Hr3|]. apply blaw_start_array with (k := true); [apply Hr3|done|by left]. }
  intros r4 Hr4. eapply and_also_good; [|done|].
  { apply repeat_good; [exact Hr4|]. intros r5 Hr5. apply (prefix_after r5 _ false); [done..|].
    case_if; [done|by eapply type_name_marker]. }
  intros r5 Hr5. eapply and_also_good; [|done|].
  { eapply event_after; [exact Hr5|]. eapply blaw_end_array, Hr5. }
  intros r6 Hr6. eapply event_after; [exact Hr6|]. eapply blaw_end_object, Hr6.
Qed.

(** Behind the start of a container: its elements and its end. *)
Lemma elements_good elements (finish : S → sax_result S) b r st n :
  rd_good elements r (after (b :: st) false n) →
  (∀ s, binv (b :: st) false s → goodx X (finish s) (taken st false)) →
  rd_good (and_also elements (event finish)) r (after st false n).
Proof.
  intros He Hf. eapply and_also_good; [exact He|done|]. intros r1 Hr1.
  eapply event_after; [exact Hr1|]. apply Hf, Hr1.
Qed.

Context (n : nat) (Hend : parses_end value) (Hvalue : (0 < n)%nat → parses_prefix value (pred n)).

Lemma array_good r st k :
  holds st k n r → value_pos st k → rd_good (get_ubjson_array fmt value) r (after st false n).
Proof.
  intros Hr Hv. unfold get_ubjson_array.
  eapply rd_good_bind; [apply (size_type_good _ false r st k n); [intros; apply size_value_good|done..]|].
  intros [[] [size ty]] r1 Hp; cbn [negb]; [|by apply rd_good_ret].
  assert (∀ m len r, holds st k m r → rd_good (event (sax_start_array_of len)) r (after (true :: st) false m)) as Hstart.
  { intros m len r' Hr'. eapply event_after; [exact Hr'|]. apply blaw_start_array with (k := k); [apply Hr'|done|by left]. }
  assert (∀ s, binv (true :: st) false s → goodx X (sax_end_array s) (taken st false)) as Hfin
    by (intros s Hs; by eapply blaw_end_array).
  destruct Hp as [(Hne & Hbit & Hp)|(_ & Hbj & Hsz & Hbit & Hn0 & Hr1)].
  - rewrite Hbit. cbn [Z.eqb negb]. rewrite andb_false_r.
    destruct Hp as [(Hr1 & He & -> & ->)|[Hn0 Hr1]].
    + rewrite Z.eqb_refl. cbn [negb]. pose proof (event_keeps (sax_start_array_of npos) r1) as Hk.
      eapply rd_good_bind; [apply (rd_good_both _ _ _ _ (Hstart n npos r1 Hr1) Hk)|].
      intros [] r2 [Ha Hc]; [|by apply rd_good_ret]. eapply elements_good; [|exact Hfin].
      apply until_marker_end; [congruence|done|]. apply last_good.
      rewrite Hc, He. apply (Hend n r2 (true :: st) false Ha). congruence.
    + specialize (Hvalue Hn0). eapply (rd_good_mono _ _ (after st false (pred n)));
        [|intros b r' Ha; apply (after_mono st false (pred n)); [done|lia]].
      case_if.
      * eapply and_also_good; [by apply Hstart|done|]. intros r2 Hr2. eapply elements_good; [|exact Hfin].
        case_if; [case_if|].
        -- apply repeat_good; [done|]. intros r3 Hr3. by apply (prefix_after r3 _ false).
        -- by apply rd_good_ret.
        -- apply repeat_good; [done|]. intros r3 Hr3. by apply (parse_next_good r3 _ false).
      * eapply and_also_good; [by apply Hstart|done|]. intros r2 Hr2. eapply elements_good; [|exact Hfin].
        apply until_marker_good; [done|]. intros m r3 Hm Hr3. by apply (parse_current_good r3 _ false (pred n)).
  - rewrite bool_decide_eq_true_2 by done. apply Z.eqb_neq in Hsz, Hbit. rewrite Hsz, Hbit. cbn [negb andb].
    eapply rd_good_mono; [by apply (bjdata_ndarray_good _ _ r1 st (pred n)); [apply Hvalue|]|].
    intros b r' Ha. apply (after_mono st false (pred n)); [done|lia].
Qed.

Lemma member_good get_char element r st k m :
  holds (false :: st) k m r →
  (∀ r, holds (false :: st) true m r → rd_good element r (after (false :: st) false m)) →
  rd_good (get_ubjson_member fmt get_char element) r
    (λ b r', after (false :: st) false m b r' ∧ (get_char = false → current r = eof → b = false)).
Proof.
  intros Hr Hel. unfold get_ubjson_member, and_also, and_then.
  eapply (rd_good_bind _ _ _ (λ b r', after (false :: st) true m b r' ∧
    (get_char = false → current r = eof → b = false))).
  - eapply rd_good_bind; [by apply get_ubjson_string_good|]. intros [[] s] r1 [[Ha Hs] Hstop].
    + eapply rd_good_mono; [eapply event_after; [exact Ha|]; eapply blaw_key; [apply Ha|by apply Hs]|].
      intros b r2 Hb. split; [done|]. intros Hc He. by specialize (Hstop Hc He).
    + apply rd_good_ret. by split.
  - intros [] r1 [Ha He].
    + eapply rd_good_mono; [by apply Hel|]. intros b r2 Hb. split; [done|].
      intros Hc Heof. by specialize (He Hc Heof).
    + apply rd_good_ret. by split.
Qed.

Lemma object_good r st k :
  holds st k n r → value_pos st k → rd_good (get_ubjson_object fmt value) r (after st false n).
Proof.
  intros Hr Hv. unfold get_ubjson_object.
  eapply rd_good_bind; [apply (size_type_good _ false r st k n); [intros; apply size_value_good|done..]|].
  intros [[] [size ty]] r1 Hp; cbn [negb]; [|by apply rd_good_ret].
  assert (∀ m len r, holds st k m r → rd_good (event (sax_start_object_of len)) r (after (false :: st) false m)) as Hstart.
  { intros m len r' Hr'. eapply event_after; [exact Hr'|]. apply blaw_start_object with (k := k); [apply Hr'|done|by left]. }
  assert (∀ s, binv (false :: st) false s → goodx X (sax_end_object s) (taken st false)) as Hfin
    by (intros s Hs; by eapply blaw_end_object).
  destruct Hp as [(Hne & Hbit & Hp)|(_ & Hbj & Hsz & Hbit & Hn0 & Hr1)].
  - rewrite Hbit. cbn [Z.eqb negb]. rewrite andb_false_r.
    destruct Hp as [(Hr1 & He & -> & ->)|[Hn0 Hr1]].
    + rewrite Z.eqb_refl. cbn [negb]. pose proof (event_keeps (sax_start_object_of npos) r1) as Hk.
      eapply rd_good_bind; [apply (rd_good_both _ _ _ _ (Hstart n npos r1 Hr1) Hk)|].
      intros [] r2 [Ha Hc]; [|by apply rd_good_ret]. eapply elements_good; [|exact Hfin].
      apply until_marker_end; [congruence|done|]. unfold get_ubjson_member, and_also, and_then.
      eapply (rd_good_bind _ _ _ (λ b r', after (false :: st) false n b r' ∧ b = false)).
      * eapply rd_good_bind; [by apply (get_ubjson_string_good false r2 (false :: st) false n)|].
        intros [b s] r3 [[Hb _] Hstop]. cbn [fst] in *. assert (b = false) as -> by (apply Hstop; congruence).
        by apply rd_good_ret.
      * intros b r3 [Hb ->]. by apply rd_good_ret.
    + specialize (Hvalue Hn0). eapply (rd_good_mono _ _ (after st false (pred n)));
        [|intros b r' Ha; apply (after_mono st false (pred n)); [done|lia]].
      case_if.
      * eapply and_also_good; [by apply Hstart|done|]. intros r2 Hr2. eapply elements_good; [|exact Hfin].
        apply repeat_good; [done|]. intros r3 Hr3.
        eapply rd_good_mono; [apply (member_good true _ r3 st false (pred n)); [done|]|by intros b r4 [Hb _]].
        intros r4 Hr4. case_if; [by apply (prefix_after r4 _ true)|by apply (parse_next_good r4 _ true)].
      * eapply and_also_good; [by apply Hstart|done|]. intros r2 Hr2. eapply elements_good; [|exact Hfin].
        apply until_marker_good; [done|]. intros m r3 Hm Hr3.
        eapply rd_good_mono; [apply (member_good false _ r3 st false m); [done|]|].
        -- intros r4 Hr4. apply (parse_next_good r4 _ true); [|done..].
           intros m' r' st' k' c Hm'. apply Hvalue. lia.
        -- intros b r4 [Hb He]. split; [done|]. by apply He.
  - rewrite bool_decide_eq_true_2 by done. apply Z.eqb_neq in Hsz, Hbit. rewrite Hsz, Hbit. cbn [negb andb].
    apply token_good. intros t. eapply report_after; [|done|simpl; auto]. eapply holds_mono; [exact Hr1|lia].
Qed.

(** * Values *)

Lemma bjdata_value_good c m r st k :
  get_bjdata_value fmt c = Some m → holds st k n r → value_pos st k → rd_good m r (after st false n).
Proof.
  intros Hc Hr Hv. assert (∀ sz, (sz ≤ 8)%nat → rd_good (and_then (get_number (uint sz) false fmt)
    (λ n, event (sax_number_unsigned n))) r (after st false n)) as Hun.
  { intros sz Hsz. eapply and_then_good; [by apply number_good|done|]. intros z r' Hz Hr'.
    eapply event_after; [exact Hr'|]. eapply blaw_unsigned; [apply Hr'|done|by eapply uint_in]. }
  revert Hc. unfold get_bjdata_value. cbv zeta. case_if; [done|].
  do 3 (case_if; [intros [= <-]; apply Hun; lia|]). case_if; [|done]. intros [= <-]. by apply (half_good r st k).
Qed.

Lemma value_step_good c r st k :
  holds st k n r → value_pos st k → c ≠ eof →
  rd_good (get_ubjson_value_step fmt dp value c) r (after st false n).
Proof.
  intros Hr Hv Hc. pose proof (proj1 Hr) as Hs.
  assert (rd_good (and_then (get_number uint8 false fmt) (λ n, event (sax_number_unsigned n))) r
    (after st false n)) as Hun.
  { eapply and_then_good; [by apply number_good|done|]. intros z r' Hz Hr'.
    eapply event_after; [exact Hr'|]. eapply blaw_unsigned; [apply Hr'|done|eapply uint_in; [|exact Hz]; lia]. }
  assert (∀ sz, (0 < sz ≤ 8)%nat → rd_good (and_then (get_number (sint sz) false fmt)
    (λ n, event (sax_number_integer n))) r (after st false n)) as Hsn.
  { intros sz Hsz. eapply and_then_good; [by apply number_good|done|]. intros z r' Hz Hr'.
    eapply event_after; [exact Hr'|]. eapply blaw_integer; [apply Hr'|done|by eapply sint_in]. }
  unfold get_ubjson_value_step. cbv zeta. decide_test (c =? eof) false.
  do 2 (case_if; [eapply event_after; [exact Hr|]; by eapply blaw_boolean|]).
  case_if; [eapply event_after; [exact Hr|]; by eapply blaw_null|].
  case_if; [exact Hun|]. do 4 (case_if; [apply Hsn; lia|]).
  case_if; [eapply and_then_good; [by apply number_good|done|]; intros f r' _ Hr';
    eapply event_after; [exact Hr'|]; eapply blaw_float; [apply Hr'|done|apply to_double_valid]|].
  case_if; [eapply and_then_good; [by apply number_good|done|]; intros f r' (bits & -> & _) Hr';
    eapply event_after; [exact Hr'|]; eapply blaw_float; [apply Hr'|done|by apply bits_float_valid]|].
  case_if; [by apply (high_precision_good r st k)|]. case_if; [by apply (char_good r st k)|].
  case_if; [eapply and_then_good; [eapply rd_good_mono; [by apply get_ubjson_string_good|by intros p r' [Hg _]]|done|];
    intros s r' Hs' Hr'; eapply event_after; [exact Hr'|]; eapply blaw_string; [apply Hr'|done..]|].
  case_if; [by apply (array_good r st k)|]. case_if; [by apply (object_good r st k)|].
  destruct (get_bjdata_value fmt c) as [m|] eqn:Hm; [by apply (bjdata_value_good c m r st k)|].
  apply token_good. intros t. eapply report_after; [exact Hr|done|simpl; auto].
Qed.
End containers.

Lemma value_end fuel : (0 < fuel)%nat → parses_end (get_ubjson_value fmt fuel dp).
Proof.
  intros Hf m r st k Hr He. destruct fuel as [|fuel]; [lia|]. cbn [get_ubjson_value].
  unfold get_ubjson_value_step. cbv zeta. rewrite Z.eqb_refl.
  eapply rd_good_mono; [by apply unexpect_eof_good|]. intros [] r2 (Hr2 & H1' & H2').
  - by destruct (H1' eq_refl).
  - split; [|done]. split; [by apply H2'|]. by exists st, k.
Qed.

Lemma value_good fuel n : (n + 1 < fuel)%nat → parses_prefix (get_ubjson_value fmt fuel dp) n.
Proof.
  revert n. induction fuel as [|fuel IH]; intros n Hn m r st k c Hm Hr Hv Hc; [lia|].
  destruct (Z.eq_dec c eof) as [->|Hne].
  - eapply rd_good_mono; [by apply (value_end (Datatypes.S fuel) ltac:(lia) m r st k); [|apply Hc]|].
    by intros b r1 [Ha ->].
  - cbn [get_ubjson_value]. eapply rd_good_mono; [apply (value_step_good _ m) with (k := k); try done|].
    + apply value_end. lia.
    + intros Hm0. apply IH. lia.
    + by intros b r1 Ha.
Qed.

Lemma parse_ubjson_internal_good r st k n :
  holds st k n r → value_pos st k → rd_good (parse_ubjson_internal fmt dp) r (after st false n).
Proof.
  intros Hr Hv. pose proof Hr as (Hs & Hn & Hb & Hi).
  assert (rd_good (parse_ubjson (get_ubjson_value fmt (2 + length (ia r)) dp) true) r
    (after st false (length (ia r)))) as Hg.
  { apply (parse_next_good _ r st k); [apply value_good; lia|by repeat split|done]. }
  eapply goodx_mono; [exact Hg|]. intros [b r'] Ha. by apply (after_mono _ _ (length (ia r))).
Qed.
End ubjson.
