(* ===== verification/BinaryProperties.v ===== *)
(** The properties of the binary formats: what is written is read back, the
    readers are total on arbitrary bytes, and the places where they do not do
    what their documentation says. *)

From S2P Require Import Prelude Double JsonValue JsonLexer JsonLexerFacts JsonParser JsonStored JsonParserFacts JsonRoundTrip.
From S2P Require Import BinaryNumbers BinaryReader BinaryReaderFacts BinarySafety.
From S2P Require Import MsgPack MsgPackFacts MsgPackSafety Cbor CborFacts CborSafety.
From S2P Require Import Bson BsonFacts BsonSafety Ubjson UbjsonFacts UbjsonSafety.

(** * Equality up to the format *)

(** The values that compare equal to themselves, with subtypes that are kept. *)
Definition node_equal (kept : option Z → bool) (j : json) : bool :=
  match j with
  | J_number_float f => SFeqb f f
  | J_binary _ subtype => kept subtype
  | J_discarded => false
  | _ => true
  end.

(** The subtypes that a format with subtypes of 8 bits keeps. *)
Definition small_subtype (subtype : option Z) : bool :=
  match subtype with Some t => in_u 8 t | None => true end.

Lemma leaf_map_equal f kept j :
  (∀ j, node_wf j = true → node_equal kept j = true → is_structured j = false → json_eqb (f j) j = true) →
  json_wf j = true → json_forall (node_equal kept) j = true → json_eqb (leaf_map f j) j = true.
Proof.
  intros Hf Hwf He. apply leaf_map_eqb. eapply json_forall_mono; [|exact (json_forall_both _ _ j Hwf He)].
  intros x [Hx1 Hx2]%andb_true_iff. destruct (is_structured x) eqn:E; [done|].
  exact (Hf x Hx1 Hx2 E).
Qed.

Lemma signed_equal z : in_s 64 z = true →
  json_eqb (if 0 <=? z then J_number_unsigned z else J_number_integer z) (J_number_integer z) = true.
Proof.
  intros Hz. case_if; cbn [json_eqb]; [|apply Z.eqb_refl]. rewrite wrap_s_small by (done || lia).
  apply Z.eqb_refl.
Qed.

Lemma binary_equal b st : json_eqb (J_binary b st) (J_binary b st) = true.
Proof. cbn [json_eqb]. by rewrite cs_eqb_refl, bool_decide_eq_true_2. Qed.

(** The leaves whose kind is kept. *)
Lemma kept_equal kept j :
  node_equal kept j = true → is_structured j = false →
  match j with J_number_integer _ | J_number_unsigned _ | J_binary _ _ => True | _ => json_eqb j j = true end.
Proof.
  destruct j; try done; cbn [node_equal json_eqb]; intros.
  - apply cs_eqb_refl.
  - by destruct b.
Qed.

Lemma msgpack_equal j :
  json_wf j = true → json_forall (node_equal small_subtype) j = true →
  json_eqb (leaf_map msgpack_leaf j) j = true.
Proof.
  apply leaf_map_equal. intros x Hwf He Hs. pose proof (kept_equal _ x He Hs) as Hk.
  destruct x; try done; cbn [msgpack_leaf].
  - by apply signed_equal.
  - apply Z.eqb_refl.
  - destruct subtype as [t|]; [|apply binary_equal]. cbn in He. unfold in_u in He. to_prop.
    rewrite Z.mod_small by lia. apply binary_equal.
Qed.

Lemma cbor_equal h j :
  json_wf j = true →
  json_forall (node_equal (λ st, bool_decide (st = None ∨ h = tag_store))) j = true →
  json_eqb (leaf_map (cbor_leaf h) j) j = true.
Proof.
  apply leaf_map_equal. intros x Hwf He Hs. pose proof (kept_equal _ x He Hs) as Hk.
  destruct x; try done; cbn [cbor_leaf].
  - by apply signed_equal.
  - apply Z.eqb_refl.
  - cbn [node_equal] in He. apply bool_decide_eq_true in He as [-> | ->]; [apply binary_equal|].
    destruct subtype; apply binary_equal.
Qed.

Lemma bson_equal j :
  json_wf j = true → json_forall node_bson j = true →
  json_forall (node_equal (λ st, bool_decide (is_Some st) && small_subtype st)) j = true →
  json_eqb (leaf_map bson_leaf j) j = true.
Proof.
  intros Hwf Hb He. apply leaf_map_eqb.
  eapply json_forall_mono; [|exact (json_forall_both _ _ j Hwf (json_forall_both _ _ j Hb He))].
  intros x [H1 [H2 H3]%andb_true_iff]%andb_true_iff. destruct (is_structured x) eqn:Hs; [done|]. cbn [orb].
  pose proof (kept_equal _ x H3 Hs) as Hk. destruct x; try done; cbn [bson_leaf json_eqb].
  - apply Z.eqb_refl.
  - cbn [node_bson node_wf] in *. rewrite wrap_s_small; [apply Z.eqb_refl|lia|].
    unfold in_s, in_u in *. to_prop. change (64 - 1) with 63. lia.
  - cbn [node_equal] in H3. destruct subtype as [t|]; [|done]. cbn [small_subtype] in H3. unfold in_u in H3.
    to_prop. change (2 ^ 8) with 256 in *.
    rewrite Z.mod_small by lia. apply binary_equal.
Qed.

Lemma ubjson_number_equal bj z x :
  in_s 64 z = true ∧ x = J_number_integer z ∨ in_u 64 z = true ∧ x = J_number_unsigned z →
  json_eqb (ubjson_number bj z) x = true.
Proof.
  unfold ubjson_number, reads_unsigned, in_limits. intros [[Hz ->]|[Hz ->]];
    case_if; cbn [json_eqb]; try apply Z.eqb_refl; rewrite wrap_s_small; try apply Z.eqb_refl; try done; try lia;
    unfold in_s, in_u in *; to_prop; change (64 - 1) with 63; lia.
Qed.

Lemma ubjson_equal bj j :
  json_wf j = true → json_forall (node_equal (λ _, false)) j = true →
  json_eqb (leaf_map (ubjson_leaf bj) j) j = true.
Proof.
  apply leaf_map_equal. intros x Hwf He Hs. pose proof (kept_equal _ x He Hs) as Hk.
  destruct x; try done; cbn [ubjson_leaf]; apply ubjson_number_equal; [by left|by right].
Qed.

(** * Round trips *)

(** C11: what [to_msgpack] writes on one host for a well-formed value, with
    nothing discarded and no string, key, byte array or container of 2^32
    elements or more in it, [from_msgpack] reads back on another: integers and
    doubles with their values, strings, byte arrays and containers as they
    are, non-negative integers as unsigned ones and a subtype modulo 256.  The
    value read compares equal to the one written if no number in that is NaN
    and every subtype is less than 256. *)
Theorem msgpack_roundtrip le le' strict ae j :
  json_wf j = true → json_fits 32 j = true →
  from_msgpack le' (to_msgpack le j) strict ae = Ret (leaf_map msgpack_leaf j) ∧
  (json_forall (node_equal small_subtype) j = true → json_eqb (leaf_map msgpack_leaf j) j = true).
Proof.
  intros Hwf Hfit. split; [|by apply msgpack_equal]. apply from_binary_reads.
  unfold parse_msgpack_internal. apply (reads_value_fuel parse_msgpack). by apply reads_msgpack.
Qed.

Definition packed : json :=
  J_object [(str "a", J_array [J_number_integer (-70000); J_number_integer 300; J_null; J_boolean true]);
            (str "b", J_binary [1; 2; 3] (Some 7)); (str "f", J_number_float (round_float 53 1024 false 3 (-1)))].

Lemma msgpack_roundtrip_witness :
  from_msgpack true (to_msgpack false packed) true true = Ret (leaf_map msgpack_leaf packed) ∧
  json_eqb (leaf_map msgpack_leaf packed) packed = true.
Proof.
  destruct (msgpack_roundtrip false true true true packed) as [H1 H2];
    [vm_compute; reflexivity..|].
  split; [exact H1|]. apply H2. vm_compute. reflexivity.
Defined.

(** C13: what [to_cbor] writes on one host for a well-formed value, with
    nothing discarded and lengths below 2^56, [from_cbor] reads back on
    another, with the tag handlers [store] and [ignore], and with the default
    handler [error] if no byte array in the value has a subtype (a subtype is
    a tag, see [cbor_subtype_rejected]): non-negative integers as unsigned
    ones; [store] keeps a subtype, [ignore] drops it.  The value read compares
    equal to the one written if no number in that is NaN and no byte array has
    a subtype, or the handler is [store]. *)
Theorem cbor_roundtrip le le' strict ae h j :
  json_wf j = true → json_fits 56 j = true → json_forall (node_untagged h) j = true →
  from_cbor le' (to_cbor le j) strict ae h = Ret (leaf_map (cbor_leaf h) j) ∧
  (json_forall (node_equal (λ st, bool_decide (st = None ∨ h = tag_store))) j = true →
   json_eqb (leaf_map (cbor_leaf h) j) j = true).
Proof.
  intros Hwf Hfit Ht. split; [|by apply cbor_equal]. apply from_binary_reads.
  unfold parse_cbor_internal. apply (reads_value_more 2 (λ n, parse_cbor n h true)); [lia|].
  by apply reads_cbor.
Qed.

Lemma cbor_roundtrip_witness :
  from_cbor true (to_cbor false packed) true true tag_store = Ret (leaf_map (cbor_leaf tag_store) packed) ∧
  json_eqb (leaf_map (cbor_leaf tag_store) packed) packed = true.
Proof.
  destruct (cbor_roundtrip false true true true tag_store packed) as [H1 H2];
    [vm_compute; reflexivity..|].
  split; [exact H1|]. apply H2. vm_compute. reflexivity.
Defined.

(** C15: [to_bson] writes every object of what BSON can store: keys without a
    zero byte, strings and byte arrays that a signed 32-bit length can count,
    unsigned integers below 2^63, nothing discarded.  The first four bytes are
    the size of the whole document, computed before it is written, and
    [from_bson] reads the document back, but unsigned integers as signed ones,
    a byte array without a subtype with the subtype 0, and a subtype modulo
    256.  The value read compares equal to the one written if no number in
    that is NaN and every byte array in it has a subtype, less than 256 (see
    [bson_subtype_added]). *)
Theorem bson_roundtrip le le' strict ae j :
  is_object j = true → json_wf j = true → json_forall node_bson j = true →
  ∃ bs, to_bson le j = Ret bs ∧
    (∃ rest, bs = le_bytes 4 (Z.of_nat (length bs)) ++ rest) ∧
    from_bson le' bs strict ae = Ret (leaf_map bson_leaf j) ∧
    (json_forall (node_equal (λ st, bool_decide (is_Some st) && small_subtype st)) j = true →
     json_eqb (leaf_map bson_leaf j) j = true).
Proof.
  intros Ho Hwf Hb. destruct (write_bson_written (little_endianness le 1) j Ho Hb) as (bs & E).
  exists bs. split; [exact E|]. split; [exact (write_bson_size _ j bs E)|]. split; [|by apply bson_equal].
  apply from_binary_reads. exact (reads_bson _ j bs Hwf Hb E).
Qed.

Lemma bson_roundtrip_witness :
  ∃ bs, to_bson false packed = Ret bs ∧ (∃ rest, bs = le_bytes 4 (Z.of_nat (length bs)) ++ rest) ∧
    from_bson true bs true true = Ret packed ∧ json_eqb packed packed = true.
Proof.
  destruct (bson_roundtrip false true true true packed) as (bs & H1 & H2 & H3 & H4);
    [vm_compute; reflexivity..|].
  exists bs. split; [exact H1|]. split; [exact H2|]. split; [exact H3|]. apply H4. vm_compute. reflexivity.
Defined.

(** The two formats that share their code. *)
Definition to_ubj (bjdata : bool) := if bjdata then to_bjdata else to_ubjson.
Definition from_ubj (bjdata : bool) := if bjdata then from_bjdata else from_ubjson.

(** C10: what [to_ubjson] and [to_bjdata] write for a well-formed value, with
    nothing discarded and lengths below 2^56, with any of the layouts of
    containers (without counts, with counts, with counts and types), and for
    BJData without an object in it that has exactly the keys [_ArrayType_],
    [_ArraySize_] and [_ArrayData_] and so is taken for an n-dimensional array
    (see [bjdata_ndarray_example] and [bjdata_ndarray_flattened]),
    [from_ubjson] and [from_bjdata] read back, in every locale whose decimal
    point is one byte that is no digit, [e] or [E]: a byte array as an array
    of numbers, and an integer as an unsigned one where its marker is one.  The
    value read compares equal to the one written if no number in that is NaN
    and there is no byte array in it. *)
Theorem ubjson_roundtrip bj le le' dp strict ae uc ut j :
  dp_ok dp = true → (ut = true → uc = true) →
  json_wf j = true → json_fits 56 j = true → json_forall (node_no_ndarray bj) j = true →
  ∃ bs, to_ubj bj le j uc ut = Ret bs ∧
    from_ubj bj le' dp bs strict ae = Ret (leaf_map (ubjson_leaf bj) j) ∧
    (json_forall (node_equal (λ _, false)) j = true → json_eqb (leaf_map (ubjson_leaf bj) j) j = true).
Proof.
  intros Hdp Hut Hwf Hfit Hnd. set (fmt := if bj then F_bjdata else F_ubjson).
  assert (bool_decide (fmt = F_bjdata) = bj) as Hbj by (by destruct bj).
  destruct (reads_ubjson (little_endianness le 1) fmt dp Hdp bj Hbj uc ut Hut j Hwf Hfit Hnd) as (bs & Hw & Hr).
  exists bs. split; [by destruct bj|]. split; [|by apply ubjson_equal].
  by destruct bj; apply from_binary_reads.
Qed.

Definition packed_plain : json :=
  J_object [(str "a", J_array [J_number_integer (-70000); J_number_integer 40000; J_null; J_boolean true]);
            (str "b", J_array [J_number_unsigned 200; J_number_unsigned 201]);
            (str "f", J_number_float (round_float 53 1024 false 3 (-1)))].

Lemma ubjson_roundtrip_witness :
  ∃ bs, to_ubj true false packed_plain true true = Ret bs ∧
    from_ubj true true 46 bs true true = Ret (leaf_map (ubjson_leaf true) packed_plain) ∧
    json_eqb (leaf_map (ubjson_leaf true) packed_plain) packed_plain = true.
Proof.
  destruct (ubjson_roundtrip true false true 46 true true true true packed_plain) as (bs & H1 & H2 & H3);
    [reflexivity|reflexivity|vm_compute; reflexivity..|].
  exists bs. split; [exact H1|]. split; [exact H2|]. apply H3. vm_compute. reflexivity.
Defined.

(** * Arbitrary bytes *)

(** C18: [from_msgpack] on arbitrary bytes returns: a well-formed value, the
    discarded value only if exceptions are off, or a parse error 110, 112 or
    113 only if they are on. *)
Theorem msgpack_outcome le input strict ae :
  forallb is_byte input = true →
  (∃ j, from_msgpack le input strict ae = Ret j ∧ json_wf j = true ∧
     (j = J_discarded → ae = false)) ∨
  (∃ e, from_msgpack le input strict ae = Throw e ∧ ae = true ∧ reported e).
Proof.
  intros Hb.
  pose proof (from_binary_good ae False False (λ _, False) parse_msgpack_internal F_msgpack le input strict Hb ltac:(done)
    (λ n r Hr, parse_msgpack_internal_good r [] false n Hr I)) as Hg.
  unfold from_msgpack. destruct (from_binary _ _ _ _ _ _) as [j|e| | |]; try done; cbn [goodx] in Hg.
  - left. exists j. split; [done|]. destruct Hg as [Hj|[[[]|Hae] ->]].
    + split; [by apply json_ok_wf|]. by intros ->.
    + done.
  - right. exists e. split; [done|]. destruct Hg as [[-> [He|[]]]|[[] _]]. done.
Qed.

Lemma msgpack_outcome_witness :
  from_msgpack true [0x92; 0x01] true true = Throw (create_parse_error_at 110 3
    (str "syntax error while parsing MessagePack value: unexpected end of input")) ∧
  ((∃ j, from_msgpack true [0x92; 0x01] true true = Ret j ∧ json_wf j = true ∧
      (j = J_discarded → true = false)) ∨
   (∃ e, from_msgpack true [0x92; 0x01] true true = Throw e ∧ true = true ∧ reported e)).
Proof. split; [vm_compute; reflexivity|]. apply (msgpack_outcome true [0x92; 0x01] true true). reflexivity. Defined.

(** C22: [from_cbor] on arbitrary bytes, with any tag handler, returns: the
    same, and also the exception out_of_range 408 for a container that is
    said to be larger than memory, even if exceptions are off. *)
Theorem cbor_outcome le input strict ae h :
  forallb is_byte input = true →
  (∃ j, from_cbor le input strict ae h = Ret j ∧ json_wf j = true ∧
     (j = J_discarded → ae = false)) ∨
  (∃ e, from_cbor le input strict ae h = Throw e ∧ (ae = true ∧ reported e ∨ excessive e)).
Proof.
  intros Hb.
  pose proof (from_binary_good ae True False (λ _, False) (parse_cbor_internal true h) F_cbor le input strict Hb ltac:(done)
    (λ n r Hr, parse_cbor_internal_good I h r [] false n Hr I)) as Hg.
  unfold from_cbor. destruct (from_binary _ _ _ _ _ _) as [j|e| | |]; try done; cbn [goodx] in Hg.
  - left. exists j. split; [done|]. destruct Hg as [Hj|[[[]|Hae] ->]].
    + split; [by apply json_ok_wf|]. by intros ->.
    + done.
  - right. exists e. split; [done|]. destruct Hg as [[? [?|[]]]|[_ ?]]; auto.
Qed.

Lemma cbor_outcome_witness :
  from_cbor true [0x9B; 0x7F; 0xFF; 0xFF; 0xFF; 0xFF; 0xFF; 0xFF; 0xFF] true false tag_error =
    Throw (create_out_of_range 408 (str "excessive array size: 9223372036854775807")) ∧
  ((∃ j, from_cbor true [0x9B; 0x7F; 0xFF; 0xFF; 0xFF; 0xFF; 0xFF; 0xFF; 0xFF] true false tag_error = Ret j ∧
      json_wf j = true ∧ (j = J_discarded → false = false)) ∨
   (∃ e, from_cbor true [0x9B; 0x7F; 0xFF; 0xFF; 0xFF; 0xFF; 0xFF; 0xFF; 0xFF] true false tag_error = Throw e ∧
      (false = true ∧ reported e ∨ excessive e))).
Proof.
  split; [vm_compute; reflexivity|].
  apply (cbor_outcome true [0x9B; 0x7F; 0xFF; 0xFF; 0xFF; 0xFF; 0xFF; 0xFF; 0xFF] true false tag_error).
  reflexivity.
Defined.

(** C24: [from_bson] on arbitrary bytes returns a well-formed value, the
    discarded value, or a parse error if exceptions are on; and the discarded
    value also with exceptions on: a string whose terminator is missing at
    the end of the input stops the reader without a report. *)
Theorem bson_outcome le input strict ae :
  forallb is_byte input = true →
  ((∃ j, from_bson le input strict ae = Ret j ∧ json_wf j = true) ∨
   (∃ e, from_bson le input strict ae = Throw e ∧ ae = true ∧ reported e)) ∧
  from_bson le (le_bytes 4 16 ++ [0x02; 97; 0] ++ le_bytes 4 2 ++ [98]) strict ae = Ret J_discarded.
Proof.
  intros Hb. split; [|by destruct le, strict, ae].
  pose proof (from_binary_good ae False True (λ _, False) parse_bson_internal F_bson le input strict Hb ltac:(done)
    (λ n r Hr, parse_bson_internal_good (H1 := dom_binary_laws ae False True (λ _, False)) (λ _, or_introl I) r [] false n Hr I)) as Hg.
  unfold from_bson. destruct (from_binary _ _ _ _ _ _) as [j|e| | |]; try done; cbn [goodx] in Hg.
  - left. exists j. split; [done|]. destruct Hg as [Hj|[_ ->]]; [by apply json_ok_wf|done].
  - right. exists e. split; [done|]. destruct Hg as [[-> [He|[]]]|[[] _]]. done.
Qed.

Lemma bson_outcome_witness :
  ((∃ j, from_bson true [5; 0; 0; 0; 0] true true = Ret j ∧ json_wf j = true) ∨
   (∃ e, from_bson true [5; 0; 0; 0; 0] true true = Throw e ∧ true = true ∧ reported e)) ∧
  from_bson true (le_bytes 4 16 ++ [0x02; 97; 0] ++ le_bytes 4 2 ++ [98]) true true = Ret J_discarded.
Proof. apply (bson_outcome true [5; 0; 0; 0; 0] true true). reflexivity. Defined.

(** C30: [from_ubjson] and [from_bjdata] on arbitrary bytes return: a
    well-formed value, the discarded value only if exceptions are off, a parse
    error 110, 112, 113 or 115 only if they are on, or the exception
    out_of_range 408 for a size that is too large. *)
Theorem ubjson_outcome bj le dp input strict ae :
  dp_ok dp = true → forallb is_byte input = true →
  (∃ j, from_ubj bj le dp input strict ae = Ret j ∧ json_wf j = true ∧
     (j = J_discarded → ae = false)) ∨
  (∃ e, from_ubj bj le dp input strict ae = Throw e ∧
     (ae = true ∧ (reported e ∨ ∃ pos what, e = create_parse_error_at 115 pos what) ∨ excessive e)).
Proof.
  intros Hdp Hb. set (fmt := if bj then F_bjdata else F_ubjson).
  assert (fmt ≠ F_json) as Hfmt by (by destruct bj).
  pose proof (from_binary_good ae True False ubjson_error (parse_ubjson_internal fmt dp) fmt le input strict Hb Hfmt
    (λ n r Hr, parse_ubjson_internal_good (H1 := dom_binary_laws ae True False ubjson_error) fmt Hfmt I
       (λ e He, or_intror He) dp Hdp r [] false n Hr I)) as Hg.
  assert (from_ubj bj le dp input strict ae =
    from_binary (parse_ubjson_internal fmt dp) fmt le input strict ae) as -> by (by destruct bj).
  destruct (from_binary _ _ _ _ _ _) as [j|e| | |]; try done; cbn [goodx] in Hg.
  - left. exists j. split; [done|]. destruct Hg as [Hj|[[[]|Hae] ->]].
    + split; [by apply json_ok_wf|]. by intros ->.
    + done.
  - right. exists e. split; [done|]. unfold dom_throws, ubjson_error in Hg. tauto.
Qed.

Lemma ubjson_outcome_witness :
  from_ubj true true 46 (str "[$U#[i" ++ [2] ++ str "i" ++ [0] ++ str "]x") true true = Throw (create_parse_error_at 110 11
    (str "syntax error while parsing BJData value: expected end of input; last byte: 0x78")) ∧
  ((∃ j, from_ubj true true 46 (str "[$U#[i" ++ [2] ++ str "i" ++ [0] ++ str "]x") true true = Ret j ∧ json_wf j = true ∧
      (j = J_discarded → true = false)) ∨
   (∃ e, from_ubj true true 46 (str "[$U#[i" ++ [2] ++ str "i" ++ [0] ++ str "]x") true true = Throw e ∧
      (true = true ∧ (reported e ∨ ∃ pos what, e = create_parse_error_at 115 pos what) ∨ excessive e))).
Proof.
  split; [vm_compute; reflexivity|].
  apply (ubjson_outcome true true 46 (str "[$U#[i" ++ [2] ++ str "i" ++ [0] ++ str "]x") true true);
    vm_compute; reflexivity.
Defined.

(** * Observations *)

(** A negative CBOR integer below -2^63 is read as a non-negative one. *)
Lemma cbor_negative_wraps le strict ae h n :
  2 ^ 63 ≤ n < 2 ^ 64 →
  from_cbor le (0x3B :: rev (le_bytes 8 n)) strict ae h = Ret (J_number_integer (2 ^ 64 - 1 - n)).
Proof.
  intros Hn. replace (2 ^ 64 - 1 - n) with (-1 - wrap_s 64 n).
  - apply from_binary_reads. unfold parse_cbor_internal.
    apply (reads_value_more 2 (λ n, parse_cbor n h true)); [lia|]. intros [|fuel] Hf; [lia|].
    apply (reads_cbor_negative le). lia.
  - unfold wrap_s. change (2 ^ (64 - 1)) with (2 ^ 63). 
    replace (n + 2 ^ 63) with (n - 2 ^ 63 + 1 * 2 ^ 64) by lia. rewrite Z.mod_add, Z.mod_small by lia. lia.
Qed.

(** An array or a map of 2^64 - 1 elements is read as one of indefinite
    length, up to the break byte. *)
Lemma cbor_length_is_indefinite le strict ae h :
  from_cbor le [0x9B; 0xFF; 0xFF; 0xFF; 0xFF; 0xFF; 0xFF; 0xFF; 0xFF; 0x01; 0xFF] strict ae h =
    Ret (J_array [J_number_unsigned 1]).
Proof. by destruct le, strict, ae, h. Qed.

(** The byte behind a BSON string is skipped, whatever it is. *)
Lemma bson_terminator_ignored c le strict ae :
  is_byte c = true →
  from_bson le (le_bytes 4 17 ++ [0x02; 97; 0] ++ le_bytes 4 2 ++ [98; c; 0]) strict ae =
    Ret (J_object [(str "a", J_string (str "b"))]).
Proof.
  intros Hc. destruct c as [|p|p]; [by destruct le, strict, ae| |done].
  by destruct le, strict, ae.
Qed.

(** A negative length of a UBJSON string is read as an empty string. *)
Lemma ubjson_negative_length le dp strict ae :
  from_ubjson le dp (str "Si" ++ [0xFF]) strict ae = Ret (J_string []).
Proof. by destruct le, strict, ae. Qed.

(** A BJData array of 2^64 - 1 elements is read as one without a count, whose
    first element has the last byte read, the type of the count, as its
    marker. *)
Lemma bjdata_count_is_none le strict ae :
  from_bjdata le 46 (str "[#M" ++ le_bytes 8 (2 ^ 64 - 1) ++ le_bytes 8 5 ++ str "]") strict ae =
    Ret (J_array [J_number_unsigned 5]).
Proof. by destruct le, strict, ae. Qed.

(** A high-precision number that is too large for a double is stored as an
    infinity, which no JSON text gives. *)
Lemma ubjson_high_precision_infinite le strict ae :
  from_ubjson le 46 (str "Hi" ++ [5] ++ str "1e999") strict ae = Ret (J_number_float (S754_infinity false)).
Proof. destruct le, strict, ae; vm_compute; reflexivity. Qed.

(** An object with the members of an n-dimensional array is written as one
    without a look at the types of its elements: a type that is not a string
    raises an exception, and an element that is no number is undefined. *)
Lemma bjdata_ndarray_types le :
  to_bjdata le (J_object [(str "_ArrayData_", J_array []); (str "_ArraySize_", J_array []);
                          (str "_ArrayType_", J_null)]) false false =
    Throw (create_type_error 302 (str "type must be string, but is null")) ∧
  to_bjdata le (J_object [(str "_ArrayData_", J_array [J_string []]); (str "_ArraySize_", J_array [J_number_unsigned 1]);
                          (str "_ArrayType_", J_string (str "uint8"))]) false false = Undef.
Proof. by destruct le. Qed.

(** An n-dimensional array is read as the object it was written from. *)
Lemma bjdata_ndarray_example le le' strict ae :
  let j := J_object [(str "_ArrayData_", J_array (map J_number_unsigned [1; 2; 3; 4; 5; 6]));
                     (str "_ArraySize_", J_array (map J_number_unsigned [2; 3]));
                     (str "_ArrayType_", J_string (str "uint8"))] in
  ∃ bs, to_bjdata le j true true = Ret bs ∧
    bs = str "[$U#[$i#i" ++ [2; 2; 3] ++ [1; 2; 3; 4; 5; 6] ∧
    from_bjdata le' 46 bs strict ae = Ret j.
Proof.
  cbv zeta. exists (str "[$U#[$i#i" ++ [2; 2; 3] ++ [1; 2; 3; 4; 5; 6]). split; [by destruct le|]. split; [done|].
  destruct le', strict, ae; vm_compute; reflexivity. Qed.

(** With one dimension, or a first dimension of one, such an object is read as
    a plain array; and elements that the type does not hold are cut. *)
Lemma bjdata_ndarray_flattened le le' strict ae :
  let j size data :=
    J_object [(str "_ArrayData_", J_array (map J_number_unsigned data));
              (str "_ArraySize_", J_array (map J_number_unsigned size));
              (str "_ArrayType_", J_string (str "uint8"))] in
  let back size data :=
    bs ← to_bjdata le (j size data) true true; from_bjdata le' 46 bs strict ae in
  back [3] [1; 2; 3] = Ret (J_array (map J_number_unsigned [1; 2; 3])) ∧
  back [1; 3] [1; 2; 3] = Ret (J_array (map J_number_unsigned [1; 2; 3])) ∧
  back [2; 1] [300; 2] = Ret (j [2; 1] [44; 2]).
Proof. cbv zeta. destruct le, le', strict, ae; vm_compute; by repeat split. Qed.

(** The default tag handler rejects what [to_cbor] writes for a byte array
    with a subtype. *)
Lemma cbor_subtype_rejected le le' strict :
  from_cbor le' (to_cbor le (J_binary [1; 2] (Some 7))) strict true tag_error =
    Throw (create_parse_error_at 112 1
      (str "syntax error while parsing CBOR value: invalid byte: 0xD8")).
Proof. by destruct le, le', strict. Qed.

(** A byte array without a subtype comes back from BSON with the subtype 0,
    and the two compare unequal. *)
Lemma bson_subtype_added le le' strict ae :
  (bs ← to_bson le (J_object [(str "b", J_binary [1] None)]); from_bson le' bs strict ae) =
    Ret (J_object [(str "b", J_binary [1] (Some 0))]) ∧
  json_eqb (J_binary [1] (Some 0)) (J_binary [1] None) = false.
Proof. by destruct le, le', strict, ae. Qed.
